(* ===== verification/_CoqProject ===== *)
-Q . S2P
Prelude.v
Types.v
Kv.v
Browse.v
WalFormat.v
Segment.v
Wal.v
Paths.v
Membership.v
Log.v
Event.v
Core.v
Follower.v
PreCandidate.v
Candidate.v
Leader.v
Node.v
Store.v
DurableStore.v
HardState.v
Group.v
Reconfiguration.v
Static.v
Progress.v
Auth.v
Settings.v
Runtime.v
Cluster.v
LogMatching.v
Safety.v
Commitment.v
Agreement.v
Replicas.v
Divergence.v
Sessions.v
ReadIndex.v
Service.v
Transport.v
Deployment.v
Server.v
Testing.v
RaftTests.v
RoleTests.v
StorageTests.v
NodeTests.v
