(* ===== verification/Prelude.v ===== *)
(** * Verification of BasisDB: the replicated log and the node that drives it

    BasisDB is a replicated key-value server.  Its consensus crate
    ([consensus/basisdb-raft]) is a deterministic Raft automaton: a [RaftNode]
    takes ticks, messages and proposals and returns [Effects] (persist, send).
    The node crate ([basisdb-node]) drives one automaton: it makes the persistent
    state durable in a write-ahead log ([basisdb-wal]) before it releases
    messages, and applies committed commands to the key-value state in order.

    ** The files

    - [Prelude]: 64-bit arithmetic on [N] with its wrap-around, [result], ranges,
      the tactics [unbool] and [split_matches], the hint databases [basis] and
      [basis_rw], list lemmas shared by the components.
    - [Types]: [basisdb-raft/src/lib.rs].
    - [Membership]: [raft/membership.rs].  Configurations, quorums and changes.
    - [Log]: [raft/log.rs].  The entry vector with its snapshot offset.
    - [Event]: [raft/event.rs] and the step results of [raft/mod.rs].
    - [Core]: [raft/core.rs].  Term, vote, timeouts, backpressure.
    - [Follower], [PreCandidate], [Candidate], [Leader]: the file of the same name
      under [raft/].  A handler takes the role's state and the shared [Core] and
      returns both with a [StepResult].
    - [Node]: [raft/mod.rs].  Role dispatch, transitions, client operations.
    - [Kv]: [basisdb-node/src/command.rs].  Sessions, etags, conditional writes.
    - [Browse]: [basisdb-node/src/browse.rs].  Paged listings of keys and namespaces.
    - [WalFormat]: [basisdb-wal/src/format.rs], [record.rs], [error.rs].
    - [Segment]: [basisdb-wal/src/segment.rs].  Segment files and their recovery.
    - [Wal]: [basisdb-wal/src/wal.rs].  Append, rotate, sync, open, iterate.
    - [Paths]: the directories on the way to a log, [create_dir_all] of [segment.rs] and
      [absolute_path] of [wal.rs].
    - [Store]: [basisdb-node/src/store.rs].  Deltas over a write-ahead log, through the
      interface [Store.WalOps] with its laws [Store.WalLaws].
    - [DurableStore]: the log of [Wal] implements that interface; the store on it.
    - [HardState]: term and vote discipline of every handler.
    - [Group]: nodes of the consensus library with changing members, on an unreliable
      network with restarts; elections under overlapping configurations.
    - [Reconfiguration]: executions in which changes of the members go wrong.
    - [Static]: a node whose membership never changes.
    - [Progress]: what one step of such a node may do to its log and commit index.
    - [Auth]: [basisdb-node/src/auth.rs].  Keys and signatures of peer messages.
    - [Settings]: [basisdb-node/src/config.rs] and [basisdb-storage/src/lib.rs].
    - [Runtime]: [basisdb-node/src/runtime.rs], for any replicated state machine.
    - [Cluster]: runtimes on an unreliable network; votes and elections.
    - [LogMatching]: chains of requests and the logs made of them.
    - [Safety]: the invariant of every execution of a cluster; election safety,
      durability, log matching, and what the store is asked to save.
    - [Commitment]: chains of leaders and leader completeness.
    - [Agreement]: nodes never commit different entries, without stale
      acknowledgements and without calls on failed runtimes.
    - [Replicas]: under the same conditions the replicated state machines agree.
    - [Divergence]: executions in which replication goes wrong.
    - [Sessions], [ReadIndex]: [session.rs] and [read_index.rs] of
      [consensus/basisdb-raft-io], which the server does not use yet.
    - [Service]: [basisdb-node/src/service.rs] and the proposals of [runtime.rs], with
      the runtime applied to [Kv].
    - [Transport]: [basisdb-node/src/transport.rs].  Permits, requests, the peer API.
    - [Deployment]: runtimes with their transports and HTTP; it refines [Cluster].
    - [Server]: [basisdb/src/main.rs].  Configuration files and the two subcommands.
    - [Testing]: the monad in which the repository's tests are translated.
    - [RaftTests], [RoleTests], [StorageTests], [NodeTests]: the tests of
      [raft/mod.rs]; of the other files of the automaton; of the write-ahead log; of
      the node, its libraries and the server.  They check the model: each file ends
      with a lemma that its tests evaluate to [true].

    ** Modelling decisions

    Rust's [u64] is [N]; unchecked [+] wraps as in the release build ([+u]),
    [checked_add] and [saturating_sub] are the methods of that name.  [BTreeSet]
    is [gset] with ascending iteration, maps read and written by key are [gmap].
    Mutation is state passing.  A failing [assert!] is [None].  [debug_assert!] is
    absent from the release build and is not modelled.  Randomness is the code's
    own xorshift64 generator, translated bit by bit.

    Concurrency: the runtime works under the lock of its machine, so what a call does
    while it holds the lock is one function ([Runtime.step_locked], [tick_locked],
    [propose_locked]).  The health check comes before the lock: a call may pass it
    ([Runtime.enter_step] and the like), wait in [rt_entered] while another call's save
    fails, and then run on the failed runtime ([Runtime.run_call]), or be dropped
    ([leave]).  [Cluster], [Deployment] and [Service] have these as actions of their
    own; [Runtime.step], [tick_once] and [propose] are the calls that get the lock at
    once.

    Disks: the directory of the write-ahead log maps file names to contents, the
    number of bytes on stable storage and whether the directory entry is; faults of the operating
    system are arguments, and a crash keeps the stable bytes of a file and any part of
    the rest ([Wal.crashed]).

    Loops that are not structural run on fuel with a theorem that the fuel is
    enough: the commit loop of the leader ([Leader.maybe_commit_terminates]), the
    apply loop of the driver ([Runtime.apply_committed_is_exhaustive]), the scan of a
    segment, which consumes 32 bytes or more per record ([Segment.scan_terminates]), and
    the iteration over the records of a log ([Wal.all_records_spec]).  The
    backward scan of the store decrements an index that bounds its fuel.

    Code outside the repository is a parameter where it is used, with its documented
    behaviour as the laws of a class: the JSON codecs ([Transport.MessageCodecLaws],
    [Service.CommandCodecLaws], and the round trip in [Store]), CRC-32
    ([WalFormat.Crc32Laws]), HMAC-SHA256 ([Auth.HmacLaws]) and the HTTP library
    ([Transport.HttpLaws]).  Each class has an instance.  The TOML parser, the name
    resolver and the file system are plain arguments of [Server.main], and the
    replicated state machine is an argument of [Runtime].

    ** What is proved

    - Election safety for the cluster ([Safety.election_safety]), with messages
      lost, duplicated, delayed and reordered, crashes between operations, restarts from
      disk, failing disk writes and calls that run on a failed runtime; and that a healthy
      node's persistent state is always what its disk would recover
      ([Safety.healthy_nodes_are_durable]).
    - Log matching for the cluster ([Safety.log_matching]): stored logs with
      entries of the same term at an index are identical up to that index.
    - Every state a cluster asks the store to save may follow the one on disk, so that
      replaying the delta recovers it ([Safety.saves_are_successors]): this is what
      [Store] and [DurableStore] ask of their clients.
    - State machine safety ([Agreement.committed_entries_agree]) and agreement of the
      replicated states ([Replicas.replicas_agree]), in the executions that are
      [Agreement.tidy]: no follower acknowledges a stale suffix of its log
      ([Agreement.acks_tidy]), and no call runs on a runtime that has failed since the
      call's health check ([Cluster.orderly]).  Both conditions are computed from the
      execution, and [Divergence.state_machines_diverge] and
      [Divergence.late_acknowledgement_loses_entry] show that the code needs both.
    - The deployed system, nodes with consistent configurations that post signed messages
      over HTTP within their permits, refines the cluster state by state
      ([Deployment.deployment_refines_cluster]), and so elects one leader per term
      ([Deployment.deployed_election_safety]).
    - Election safety across changes of the members ([Group.overlapping_elections_agree]):
      winners of one term under configurations whose quorums overlap are one node, as
      those of a configuration and of every accepted change of it are.
    - Term and vote discipline, soundness of the persistence flag, origin of
      granted votes ([HardState], [Static]).
    - Overlapping quorums within a configuration and across every accepted
      membership change ([Membership], [Leader.accepted_change_is_safe]).
    - The log as a refinement of an index map; contiguity, compaction, slices,
      effective configuration ([Log]).
    - The follower's append loop against a reference merge; snapshot installation
      ([Follower]).  Commitment, append-only, replication requests, leadership
      transfer and read index ([Leader]).
    - The write-ahead log: format round trip with torn and corrupt records
      ([WalFormat]), append and read back, recovery of every synced record after a
      crash ([Wal]), and with the store on top, of the last saved Raft state
      ([DurableStore]); from the path on, with the directories created on the way
      ([Paths.log_at_path_survives_crash]).
    - The key-value state machine ([Kv]): a retried mutation is executed once, etags
      identify versions, conditional puts do not lose updates.
    - Listings ([Browse]): following the cursors lists every key under a prefix once
      and in order, and namespaces come with exact counts.
    - Recovery of the last saved state ([Store]), exhaustive in-order application
      and correct answers to waiting clients ([Runtime]).
    - The client API ([Service]): over every run of a node each answer to a proposal that
      waited becomes a reply of the method called for the record asked for, the mismatch
      branches of the handlers are unreachable, and a call that fails before it waits
      does so for a reason that holds; requests are refused exactly as every replica would; reads
      return the last put.
    - The peer API ([Auth], [Transport]): only requests that carry the tag of their
      body under the shared key, from another configured node, reach the automaton;
      a posted message that arrives makes its step, and success is reported only for a
      step that succeeded; at most 16 posts per peer run, and the only
      effect of that bound is message loss.
    - Start-up ([Server]): [check-config] accepts exactly the valid files, and a file
      it accepts passes every later check of [start].
    - The helpers of [basisdb-raft-io]: a registered client's requests are executed
      at most once ([Sessions]), confirmed reads have a majority of acknowledgements
      recorded since the last round began ([ReadIndex]).
    - Exactness of the backpressure test, bounds of the election timeout ([Core]).

    These theorems describe defects of the code: committed state can diverge
    ([Divergence.state_machines_diverge], [Divergence.commit_without_replication]), a call
    that runs on a failed runtime acknowledges an entry that is not on disk, which loses a
    committed entry ([Divergence.late_acknowledgement_loses_entry]), the answers to a
    follower with a conflicting last entry never move below it
    ([Divergence.rejections_make_no_progress]), registering a client forgets what it did
    before ([Sessions.registration_forgets_unregistered_client]), the batch limit is off by
    one ([Leader.append_batch_exceeds_limit]), the term wraps at [u64::MAX]
    ([HardState.election_at_max_term_wraps]), a failed directory sync loses records
    of the write-ahead log ([Wal.failed_directory_sync_loses_records]), an interrupted
    creation of its directories is never synced
    ([Paths.interrupted_creation_is_never_synced]), the read coordinator confirms a read
    with heartbeats sent before it
    ([ReadIndex.late_read_is_confirmed_by_earlier_round]), and three about changes of the
    members: leaders that have committed nothing of their own term may change them, which
    elects two leaders in a term ([Reconfiguration.single_changes_elect_two_leaders]), a
    restart completes an old joint configuration again
    ([Reconfiguration.restart_reverts_membership]), and a leader that finds a committed
    joint configuration never leaves it ([Reconfiguration.committed_joint_is_never_left]).

    ** Bounds and assumptions

    The crash theorems of [Wal] are about runs whose directory syncs succeed
    ([Wal.op_ok]).  The cluster theorems leave out executions that increment a term of
    [u64::MAX] or append an entry at index [u64::MAX]; the guards are in [Cluster.exec],
    through [Cluster.call_in_range].  They are
    about static membership, the only one the shipped server uses: no
    configuration change is proposed and no snapshot is shipped.  [Group] has changes of
    the members and the same guards.  [Safety.saves_are_successors] is about clusters of
    at least two members.  [Core.random_election_timeout] takes the remainder by the
    width of the configured range; the code panics for an empty range, which the
    shipped configuration does not have, and the model follows [N.modulo] there.

    ** Not modelled

    The formats of JSON, TOML and HTTP, HMAC and CRC-32 themselves and generated
    protobuf code, which are outside the repository; async scheduling beyond the
    order of operations and the wait for the lock: in particular a request that its
    client abandons while the runtime applies committed entries stops between two
    entries, which the model lets it finish; errors of the listeners or of the tick loop
    after start-up, which end the process; logging and diagnostics ([basisdb-core], [init_tracing]);
    the traits of [basisdb-raft-io] ([storage.rs], [transport.rs]), which have no
    body and no implementation.  Of the tests, those whose subject is a library outside
    the repository ([serde_json], [clap], the strength of HMAC-SHA256), the cancellation
    of a task while it applies entries, and the integration tests under
    [consensus/basisdb-raft/tests], which drive the same automaton with longer or
    random schedules.  Planned: snapshots within a group. *)

From stdpp Require Export base gmap sets list numbers sorting strings.
From Stdlib Require Export Lia.
From Stdlib Require Import Strings.Byte.

Open Scope N_scope.

(** ** Notation scope of the development *)

Declare Scope basis_scope.
Delimit Scope basis_scope with basis.
Open Scope basis_scope.

(** ** Machine-width arithmetic

    [u64] values are natural numbers.  Unchecked [+] is the release build's
    wrapping addition; [checked_add], [saturating_sub] and [wrapping_mul] are
    the methods of the same name. *)

Definition two64 : N := 18446744073709551616.
Definition u64_max : N := two64 - 1.

Definition wrap64 (x : N) : N := x mod two64.
Definition wadd (x y : N) : N := wrap64 (x + y).
Definition wsub (x y : N) : N := wrap64 (x + (two64 - wrap64 y)).
Definition wrapping_mul (x y : N) : N := wrap64 (x * y).
Definition saturating_sub (x y : N) : N := x - y.
Definition checked_add (x y : N) : option N :=
  if x + y <? two64 then Some (x + y) else None.

Notation "x +u y" := (wadd x y) (at level 50, left associativity) : basis_scope.
Notation "x -u y" := (wsub x y) (at level 50, left associativity) : basis_scope.

(** A value fits its 64-bit representation. *)
Definition u64 (x : N) : Prop := x < two64.

(** ** Bytes *)

#[global] Instance byte_eq_decision : EqDecision Byte.byte := Byte.byte_eq_dec.

Definition bytes : Type := list Byte.byte.

#[global] Instance byte_countable : Countable Byte.byte.
Proof. apply (inj_countable' Byte.to_N (fun n => default Byte.x00 (Byte.of_N n))).
  intros b. rewrite Byte.of_to_N. reflexivity. Defined.

(** ** Results *)

(** Rust's [Result]. *)
Inductive result (A E : Type) : Type :=
| Ok (a : A)
| Err (e : E).
Arguments Ok {A E} a.
Arguments Err {A E} e.

Notation "'let?' x ':=' c 'in' k" :=
  (match c with Ok x => k | Err e => Err e end)
  (at level 10, x pattern, c at level 200, k at level 200) : basis_scope.

Definition is_ok {A E} (r : result A E) : bool :=
  match r with Ok _ => true | Err _ => false end.

Definition is_some {A} (o : option A) : bool :=
  match o with Some _ => true | None => false end.

(** ** Ranges

    [range_incl a b] is the iteration order of Rust's [a..=b], and [range a b]
    that of [a..b]. *)

Definition seqN (a : N) (n : nat) : list N := (fun i => a + N.of_nat i) <$> seq 0 n.
Definition range (a b : N) : list N := seqN a (N.to_nat (b - a)).
Definition range_incl (a b : N) : list N := seqN a (N.to_nat (b + 1 - a)).

(** ** Little helpers the components share *)

(** [Iterator::find_map]. *)
Fixpoint find_map {A B} (f : A -> option B) (l : list A) : option B :=
  match l with
  | [] => None
  | x :: l' => match f x with Some y => Some y | None => find_map f l' end
  end.

(** [slice::last]. *)
Definition list_last {A} (l : list A) : option A := last l.

(** ** Tactics *)

(** Turn boolean tests in the context and the goal into propositions. *)
Ltac unbool :=
  repeat match goal with
  | H : context [negb _] |- _ => rewrite negb_true_iff in H || rewrite negb_false_iff in H
  | H : _ && _ = true |- _ => apply andb_true_iff in H; destruct H
  | H : _ && _ = false |- _ => apply andb_false_iff in H
  | H : _ || _ = false |- _ => apply orb_false_iff in H; destruct H
  | H : _ || _ = true |- _ => apply orb_true_iff in H
  | H : (_ <? _)%N = true |- _ => apply N.ltb_lt in H
  | H : (_ <? _)%N = false |- _ => apply N.ltb_ge in H
  | H : (_ <=? _)%N = true |- _ => apply N.leb_le in H
  | H : (_ <=? _)%N = false |- _ => apply N.leb_gt in H
  | H : (_ =? _)%N = true |- _ => apply N.eqb_eq in H
  | H : (_ =? _)%N = false |- _ => apply N.eqb_neq in H
  | H : (_ <? _)%nat = true |- _ => apply Nat.ltb_lt in H
  | H : (_ <? _)%nat = false |- _ => apply Nat.ltb_ge in H
  | H : (_ <=? _)%nat = true |- _ => apply Nat.leb_le in H
  | H : (_ <=? _)%nat = false |- _ => apply Nat.leb_gt in H
  | H : (_ =? _)%nat = true |- _ => apply Nat.eqb_eq in H
  | H : (_ =? _)%nat = false |- _ => apply Nat.eqb_neq in H
  | H : bool_decide _ = true |- _ => apply bool_decide_eq_true in H
  | H : bool_decide _ = false |- _ => apply bool_decide_eq_false in H
  | H : is_true _ |- _ => unfold is_true in H
  end.

(** Split every [match] of the goal, turn the tests into facts and simplify. *)
Ltac split_matches :=
  repeat (case_match; simplify_eq/=; unbool).

(** ** Arithmetic lemmas *)

Create HintDb basis.
Create Rewrite HintDb basis_rw.

Lemma two64_pos : 0 < two64.
Proof. reflexivity. Qed.
#[export] Hint Resolve two64_pos : basis.

Lemma wadd_small x y : x + y < two64 -> x +u y = x + y.
Proof. intros. unfold wadd, wrap64. by rewrite N.mod_small. Qed.

Lemma wadd_bound x y : u64 (x +u y).
Proof. unfold wadd, wrap64, u64. apply N.mod_lt. by vm_compute. Qed.
#[export] Hint Resolve wadd_bound : basis.

Lemma wadd_le x y : x +u y <= x + y.
Proof. unfold wadd, wrap64. apply N.Div0.mod_le. Qed.

(** An increment wraps only at the top of the range. *)
Lemma wadd_succ_overflow : u64_max +u 1 = 0.
Proof. reflexivity. Qed.

Lemma wsub_small x y : y <= x -> x < two64 -> x -u y = x - y.
Proof.
  intros Hle Hlt. unfold wsub, wrap64.
  rewrite (N.mod_small y two64) by lia.
  replace (x + (two64 - y)) with ((x - y) + 1 * two64) by lia.
  rewrite N.Div0.mod_add. apply N.mod_small. lia.
Qed.

Lemma checked_add_Some x y z :
  checked_add x y = Some z <-> z = x + y /\ x + y < two64.
Proof.
  unfold checked_add. destruct (N.ltb_spec (x + y) two64); split; intros; simplify_eq/=; lia || done || idtac.
  destruct_and!. by subst.
Qed.

(** ** List lemmas *)

Lemma elem_of_seqN a n x : x ∈ seqN a n <-> a <= x < a + N.of_nat n.
Proof.
  unfold seqN. rewrite list_elem_of_fmap. split.
  - intros (i & -> & Hi). apply elem_of_seq in Hi. lia.
  - intros Hx. exists (N.to_nat (x - a)). rewrite elem_of_seq. lia.
Qed.

Lemma elem_of_range a b x : x ∈ range a b <-> a <= x < b.
Proof. unfold range. rewrite elem_of_seqN. lia. Qed.

Lemma elem_of_range_incl a b x : x ∈ range_incl a b <-> a <= x <= b.
Proof. unfold range_incl. rewrite elem_of_seqN. lia. Qed.

Lemma last_lookup_nth {A} (l : list A) x :
  last l = Some x -> l !! pred (length l) = Some x.
Proof. intros H. by rewrite last_lookup in H. Qed.

Lemma find_map_Some {A B} (f : A -> option B) l y :
  find_map f l = Some y -> exists x, x ∈ l /\ f x = Some y.
Proof.
  induction l as [|x l IH]; simpl; [done|]. case_match; intros; simplify_eq.
  - exists x. split; [left|done].
  - destruct IH as (z & ? & ?); [done|]. exists z. split; [by right|done].
Qed.

Lemma find_map_None {A B} (f : A -> option B) l :
  find_map f l = None <-> forall x, x ∈ l -> f x = None.
Proof.
  induction l as [|x l IH]; simpl.
  - split; [intros _ x Hx; inversion Hx|done].
  - case_match.
    + split; [done|]. intros H'. rewrite H' in H; [done|left].
    + rewrite IH. split.
      * intros Hl z [->|Hz]%elem_of_cons; [done|auto].
      * intros Hl z Hz. apply Hl. by right.
Qed.

Lemma find_map_app {A B} (f : A -> option B) l1 l2 :
  find_map f (l1 ++ l2) =
  match find_map f l1 with Some y => Some y | None => find_map f l2 end.
Proof. induction l1 as [|x l1 IH]; simpl; [done|]. by destruct (f x). Qed.

Lemma seqN_S a n : seqN a (S n) = seqN a n ++ [a + N.of_nat n].
Proof. unfold seqN. by rewrite seq_S, fmap_app. Qed.

Lemma seqN_cons a n : seqN a (S n) = a :: seqN (a + 1) n.
Proof.
  unfold seqN. simpl. f_equal; [lia|]. rewrite <- fmap_S_seq, <- list_fmap_compose.
  apply list_fmap_ext. intros. simpl. lia.
Qed.

(** [(a..=b).rev().find(f)] finds the greatest index that satisfies [f]. *)
Lemma find_rev_range_Some f a b x :
  List.find f (reverse (range_incl a b)) = Some x ->
  a <= x <= b /\ f x = true /\ forall y, x < y <= b -> f y = false.
Proof.
  unfold range_incl. intros Hf.
  assert (forall n, List.find f (reverse (seqN a n)) = Some x ->
    a <= x < a + N.of_nat n /\ f x = true /\
    forall y, x < y < a + N.of_nat n -> f y = false) as Hgen.
  { clear Hf. induction n as [|n IH]; [done|].
    rewrite seqN_S, reverse_snoc. simpl. destruct (f (a + N.of_nat n)) eqn:E.
    - intros. simplify_eq. split_and!; [lia|lia|done|]. intros; lia.
    - intros Hf. destruct (IH Hf) as (H1 & H2 & H3). split_and!; [lia|lia|done|].
      intros y Hy. destruct (decide (y = a + N.of_nat n)) as [->|]; [done|]. apply H3. lia. }
  apply Hgen in Hf as (H1 & H2 & H3). split_and!; [lia|lia|done|]. intros. apply H3. lia.
Qed.

Lemma find_rev_range_None f a b :
  List.find f (reverse (range_incl a b)) = None -> forall y, a <= y <= b -> f y = false.
Proof.
  intros Hf y Hy. apply (find_none _ _ Hf). apply list_elem_of_In.
  by rewrite elem_of_reverse, elem_of_range_incl.
Qed.

Lemma prefix_snoc_inv {A} (l k : list A) x :
  l `prefix_of` k ++ [x] -> l `prefix_of` k \/ l = k ++ [x].
Proof.
  intros [r Hr]. destruct r as [|y r _] using rev_ind; [right; by rewrite Hr, app_nil_r|].
  left. rewrite app_assoc in Hr. apply app_inj_tail in Hr as [-> _]. by exists r.
Qed.

(** ** Byte strings *)

(** [starts_with] of a string or a slice. *)
Fixpoint starts_with (s prefix : bytes) : bool :=
  match prefix, s with
  | [], _ => true
  | p :: prefix', x :: s' => bool_decide (p = x) && starts_with s' prefix'
  | _, [] => false
  end.

(** ** Decimal digits *)

Definition digit (d : N) : Byte.byte := default Byte.x30 (Byte.of_N (48 + d)).

Definition digit_value (b : Byte.byte) : N := Byte.to_N b - 48.
Definition parse_from (v : N) (bs : bytes) : N := foldl (fun v b => 10 * v + digit_value b) v bs.

Lemma digit_value_digit d : d < 10 -> digit_value (digit d) = d.
Proof.
  intros Hd. assert (d = 0 \/ d = 1 \/ d = 2 \/ d = 3 \/ d = 4 \/ d = 5 \/ d = 6 \/ d = 7 \/
    d = 8 \/ d = 9) as Hc by lia.
  destruct_or! Hc; subst; reflexivity.
Qed.

Lemma div_mod_10 n : 10 * (n / 10) + n mod 10 = n /\ n mod 10 < 10.
Proof. split; [symmetry; apply N.div_mod'|apply N.mod_lt; lia]. Qed.
