(* ===== verification/Types.v ===== *)
(** * Types: the crate-level types of [basisdb-raft]

    Models [consensus/basisdb-raft/src/lib.rs]: node identities, log indices,
    terms, commands, committed entries, the static [ReplicaConfig] and the
    error types of the public API. *)

From S2P Require Import Prelude.

(** [NodeId(pub u64)], [LogIndex = u64] and [Term = u64] are all [N]. *)

(** [Command(pub Vec<u8>)]. *)
Definition Command : Type := list Byte.byte.

#[global] Instance Command_eq_dec : EqDecision Command.
Proof. unfold Command. apply _. Defined.

(** A committed log entry ready to be applied to the state machine. *)
Record CommittedEntry : Type := mkCommittedEntry {
  ce_index : N;
  ce_term : N;
  ce_command : Command
}.

(** Configuration of a replica group. *)
Record ReplicaConfig : Type := mkReplicaConfig {
  rc_voters : list N;
  rc_learners : list N
}.

Definition ReplicaConfig_new (voters : list N) : ReplicaConfig :=
  mkReplicaConfig voters [].

Definition quorum_size (rc : ReplicaConfig) : nat :=
  (length (rc_voters rc) / 2 + 1)%nat.

Definition rc_is_voter (rc : ReplicaConfig) (id : N) : bool :=
  bool_decide (id ∈ rc_voters rc).

Definition rc_is_learner (rc : ReplicaConfig) (id : N) : bool :=
  bool_decide (id ∈ rc_learners rc).

Definition rc_all_nodes (rc : ReplicaConfig) : list N :=
  rc_voters rc ++ rc_learners rc.

(** Errors of [propose]. *)
Inductive ProposeError : Type :=
| NotLeader (leader_hint : option N)
| Throttled.

(** Errors of [request_read_index]. *)
Inductive ReadIndexError : Type :=
| ReadNotLeader (leader_hint : option N)
| CurrentTermNotCommitted
| ReadInProgress (read_index : N).

(** Errors of [transfer_leadership]. *)
Inductive TransferError : Type :=
| TransferNotLeader
| TargetNotVoter
| TargetLagging (match_index last_index : N)
| TargetIsSelf.
