(* ===== verification/Kv.v ===== *)
(** * Kv: the replicated key-value state machine

    Models [basisdb-node/src/command.rs]: sessions that make retried mutations
    idempotent, generations and etags, conditional puts and deletes.  A Rust
    [String] is its UTF-8 bytes, which is what [len] counts and [==] compares.
    The generated protobuf responses are records of the fields the code sets. *)

From S2P Require Import Prelude.

(** ** Strings and errors *)

Definition is_empty_str (s : bytes) : bool := match s with [] => true | _ => false end.
Definition str_len (s : bytes) : N := N.of_nat (length s).

(** The error classes of [connectrpc] the code uses, with their messages. *)
Inductive ConnectError : Type :=
| invalid_argument (msg : string)
| resource_exhausted (msg : string)
| failed_precondition (msg : string)
| aborted (msg : string)
| internal (msg : string)
| unavailable (msg : string)
| not_found (msg : string).

#[global] Instance ConnectError_eq_dec : EqDecision ConnectError.
Proof. solve_decision. Defined.

Definition MAX_VALUE_BYTES : N := 64 * 1024.
Definition MAX_NAMESPACE_BYTES : N := 255.
Definition MAX_KEY_BYTES : N := 1024.
Definition MAX_ETAG_BYTES : N := 128.

(** ** Commands, responses and state *)

Inductive KvCommand : Type :=
| RegisterSession
| ReadBarrier
| Put (client_id sequence : N) (namespace key : bytes) (body : bytes) (if_match : bytes)
      (if_none_match : bool)
| Delete (client_id sequence : N) (namespace key : bytes) (if_match : bytes).

Record PutResponse : Type := mkPutResponse {
  pr_namespace : bytes;
  pr_key : bytes;
  pr_etag : bytes;
  pr_generation : N;
  pr_size : N
}.

Record DeleteResponse : Type := mkDeleteResponse {
  dr_namespace : bytes;
  dr_key : bytes;
  dr_etag : bytes;
  dr_generation : N;
  dr_deleted : bool
}.

Inductive KvApplyResult : Type :=
| RegisteredSession (client_id : N)
| PutDone (r : PutResponse)
| DeleteDone (r : DeleteResponse)
| ReadBarrierDone.

Record KvName : Type := mkKvName {
  n_namespace : bytes;
  n_key : bytes
}.

#[global] Instance KvName_eq_dec : EqDecision KvName.
Proof. solve_decision. Defined.
#[global] Instance KvName_countable : Countable KvName.
Proof.
  apply (inj_countable' (fun n => (n_namespace n, n_key n)) (fun p => mkKvName p.1 p.2)).
  by intros [].
Defined.

Record KvRecord : Type := mkKvRecord {
  body : bytes;
  etag : bytes;
  generation : N
}.

Inductive MutationRequest : Type :=
| PutRequest (name : KvName) (body if_match : bytes) (if_none_match : bool)
| DeleteRequest (name : KvName) (if_match : bytes).

#[global] Instance MutationRequest_eq_dec : EqDecision MutationRequest.
Proof. solve_decision. Defined.

Inductive MutationRejection : Type :=
| KeyExists
| EtagMismatch
| GenerationExhausted.

Inductive MutationResult : Type :=
| PutResult (r : PutResponse)
| DeleteResult (r : DeleteResponse)
| Rejected (r : MutationRejection).

Record SessionState : Type := mkSessionState {
  s_sequence : N;
  s_request : option MutationRequest;
  s_result : option MutationResult
}.

Definition SessionState_default : SessionState := mkSessionState 0 None None.

Record KvState : Type := mkKvState {
  next_client_id_field : N;
  next_generation_field : N;
  entries : gmap KvName KvRecord;
  sessions : gmap N SessionState
}.

Definition new : KvState := mkKvState 1 1 ∅ ∅.

Definition set_entries (st : KvState) (es : gmap KvName KvRecord) : KvState :=
  mkKvState (next_client_id_field st) (next_generation_field st) es (sessions st).
Definition set_sessions (st : KvState) (ss : gmap N SessionState) : KvState :=
  mkKvState (next_client_id_field st) (next_generation_field st) (entries st) ss.
Definition set_next_generation (st : KvState) (g : N) : KvState :=
  mkKvState (next_client_id_field st) g (entries st) (sessions st).

(** ** Validation *)

Definition KvName_new (namespace key : bytes) : result KvName ConnectError :=
  if is_empty_str namespace then Err (invalid_argument "namespace must not be empty")
  else if MAX_NAMESPACE_BYTES <? str_len namespace
  then Err (invalid_argument "namespace exceeds 255-byte limit")
  else if is_empty_str key then Err (invalid_argument "key must not be empty")
  else if MAX_KEY_BYTES <? str_len key then Err (invalid_argument "key exceeds 1024-byte limit")
  else Ok (mkKvName namespace key).

Definition validate_mutation_request (client_id sequence : N) : result unit ConnectError :=
  if client_id =? 0 then Err (invalid_argument "client_id must be registered")
  else if sequence =? 0 then Err (invalid_argument "sequence must be positive")
  else Ok tt.

Definition validate_etag (e : bytes) : result unit ConnectError :=
  if MAX_ETAG_BYTES <? str_len e then Err (invalid_argument "ETag exceeds 128-byte limit")
  else Ok tt.

Definition validate_put_preconditions (if_match : bytes) (if_none_match : bool)
  : result unit ConnectError :=
  let? _ := validate_etag if_match in
  if negb (is_empty_str if_match) && if_none_match
  then Err (invalid_argument "if_match and if_none_match are mutually exclusive")
  else Ok tt.

Definition validate_value (b : bytes) : result unit ConnectError :=
  if MAX_VALUE_BYTES <? str_len b then Err (resource_exhausted "value exceeds 65536-byte limit")
  else Ok tt.

Definition connect_error (r : MutationRejection) : ConnectError :=
  match r with
  | KeyExists => failed_precondition "key already exists"
  | EtagMismatch => failed_precondition "ETag precondition failed"
  | GenerationExhausted => resource_exhausted "kv generation space exhausted"
  end.

Definition check_put_preconditions (current : option KvRecord) (if_match : bytes)
    (if_none_match : bool) : result unit MutationRejection :=
  if if_none_match && is_some current then Err KeyExists
  else if negb (is_empty_str if_match) then
    match current with
    | Some record => if bool_decide (etag record = if_match) then Ok tt else Err EtagMismatch
    | None => Err EtagMismatch
    end
  else Ok tt.

(** ** Decimal etags *)

(** The decimal digits of [n], most significant first; 20 digits are enough for a
    [u64]. *)
Fixpoint decimal_loop (fuel : nat) (n : N) (acc : bytes) : bytes :=
  match fuel with
  | O => acc
  | S fuel' =>
      let acc := digit (n mod 10) :: acc in
      if n / 10 =? 0 then acc else decimal_loop fuel' (n / 10) acc
  end.

Definition decimal (n : N) : bytes := decimal_loop 20 n [].

(** [format!] of a double quote, [c9-], the generation and a double quote. *)
Definition etag_for (g : N) : bytes :=
  [Byte.x22; Byte.x63; Byte.x39; Byte.x2d] ++ decimal g ++ [Byte.x22].

(** [u64::try_from(body.len())], which cannot fail on 64-bit targets. *)
Definition body_len (b : bytes) : result N ConnectError := Ok (str_len b).

Definition key_not_found : ConnectError := not_found "key not found".

(** ** Sessions *)

Definition record_session (sequence : N) (request : MutationRequest) (res : MutationResult)
  : SessionState := mkSessionState sequence (Some request) (Some res).

Definition session (st : KvState) (client_id : N) : result SessionState ConnectError :=
  match sessions st !! client_id with
  | Some s => Ok s
  | None => Err (invalid_argument "unknown client session")
  end.

(** [self.session_mut(client_id)?.record(...)]. *)
Definition record (st : KvState) (client_id sequence : N) (request : MutationRequest)
    (res : MutationResult) : KvState * result unit ConnectError :=
  match session st client_id with
  | Err e => (st, Err e)
  | Ok _ => (set_sessions st (<[client_id := record_session sequence request res]> (sessions st)),
             Ok tt)
  end.

Definition cached_mutation (s : SessionState) (sequence : N) (request : MutationRequest)
  : result (option MutationResult) ConnectError :=
  match N.compare sequence (s_sequence s) with
  | Lt => Err (aborted "stale client sequence")
  | Gt => Ok None
  | Eq =>
      match s_request s, s_result s with
      | Some cached, Some res =>
          if bool_decide (cached = request) then Ok (Some res)
          else Err (aborted "sequence reused for different request")
      | None, None => Err (internal "session cache is incomplete")
      | _, _ => Err (internal "session cache is inconsistent")
      end
  end.

Definition cached_put (st : KvState) (client_id sequence : N) (request : MutationRequest)
  : result (option PutResponse) ConnectError :=
  let? s := session st client_id in
  let? res := cached_mutation s sequence request in
  match res with
  | Some (PutResult response) => Ok (Some response)
  | Some (Rejected rejection) => Err (connect_error rejection)
  | Some (DeleteResult _) => Err (internal "session result mismatch")
  | None => Ok None
  end.

Definition cached_delete (st : KvState) (client_id sequence : N) (request : MutationRequest)
  : result (option DeleteResponse) ConnectError :=
  let? s := session st client_id in
  let? res := cached_mutation s sequence request in
  match res with
  | Some (DeleteResult response) => Ok (Some response)
  | Some (Rejected rejection) => Err (connect_error rejection)
  | Some (PutResult _) => Err (internal "session result mismatch")
  | None => Ok None
  end.

(** ** Applying commands *)

Definition next_client_id (st : KvState) : KvState * result N ConnectError :=
  let client_id := next_client_id_field st in
  match checked_add client_id 1 with
  | None => (st, Err (resource_exhausted "client id space exhausted"))
  | Some next =>
      (mkKvState next (next_generation_field st) (entries st)
         (<[client_id := SessionState_default]> (sessions st)), Ok client_id)
  end.

Definition next_generation (st : KvState) : KvState * result N MutationRejection :=
  let g := next_generation_field st in
  match checked_add g 1 with
  | None => (st, Err GenerationExhausted)
  | Some next => (set_next_generation st next, Ok g)
  end.

Definition reject (st : KvState) (client_id sequence : N) (request : MutationRequest)
    (rejection : MutationRejection) : KvState * result KvApplyResult ConnectError :=
  let '(st, r) := record st client_id sequence request (Rejected rejection) in
  match r with
  | Err e => (st, Err e)
  | Ok _ => (st, Err (connect_error rejection))
  end.

(** The part of [apply_put] after the cache check. *)
Definition execute_put (st : KvState) (client_id sequence : N) (name : KvName) (b : bytes)
    (if_match : bytes) (if_none_match : bool) : KvState * result KvApplyResult ConnectError :=
  let request := PutRequest name b if_match if_none_match in
  match check_put_preconditions (entries st !! name) if_match if_none_match with
  | Err rejection => reject st client_id sequence request rejection
  | Ok _ =>
      match body_len b with
      | Err e => (st, Err e)
      | Ok size =>
          let '(st, g) := next_generation st in
          match g with
          | Err rejection => reject st client_id sequence request rejection
          | Ok g =>
              let e := etag_for g in
              let response := mkPutResponse (n_namespace name) (n_key name) e g size in
              let st := set_entries st (<[name := mkKvRecord b e g]> (entries st)) in
              let '(st, r) := record st client_id sequence request (PutResult response) in
              match r with
              | Err e => (st, Err e)
              | Ok _ => (st, Ok (PutDone response))
              end
          end
      end
  end.

Definition apply_put (st : KvState) (client_id sequence : N) (namespace key : bytes) (b : bytes)
    (if_match : bytes) (if_none_match : bool) : KvState * result KvApplyResult ConnectError :=
  match (let? _ := validate_mutation_request client_id sequence in
         let? _ := validate_put_preconditions if_match if_none_match in
         let? _ := validate_value b in
         KvName_new namespace key) with
  | Err e => (st, Err e)
  | Ok name =>
      match cached_put st client_id sequence (PutRequest name b if_match if_none_match) with
      | Err e => (st, Err e)
      | Ok (Some response) => (st, Ok (PutDone response))
      | Ok None => execute_put st client_id sequence name b if_match if_none_match
      end
  end.

(** The part of [apply_delete] after the cache check. *)
Definition execute_delete (st : KvState) (client_id sequence : N) (name : KvName)
    (if_match : bytes) : KvState * result KvApplyResult ConnectError :=
  let request := DeleteRequest name if_match in
  let mismatch := match entries st !! name with
                  | Some r => negb (bool_decide (if_match = etag r))
                  | None => true
                  end in
  if negb (is_empty_str if_match) && mismatch
  then reject st client_id sequence request EtagMismatch
  else
    let removed := entries st !! name in
    let st := set_entries st (delete name (entries st)) in
    let response :=
      match removed with
      | Some r => mkDeleteResponse (n_namespace name) (n_key name) (etag r) (generation r) true
      | None => mkDeleteResponse (n_namespace name) (n_key name) [] 0 false
      end in
    let '(st, r) := record st client_id sequence request (DeleteResult response) in
    match r with
    | Err e => (st, Err e)
    | Ok _ => (st, Ok (DeleteDone response))
    end.

Definition apply_delete (st : KvState) (client_id sequence : N) (namespace key : bytes)
    (if_match : bytes) : KvState * result KvApplyResult ConnectError :=
  match (let? _ := validate_mutation_request client_id sequence in
         let? _ := validate_etag if_match in
         KvName_new namespace key) with
  | Err e => (st, Err e)
  | Ok name =>
      match cached_delete st client_id sequence (DeleteRequest name if_match) with
      | Err e => (st, Err e)
      | Ok (Some response) => (st, Ok (DeleteDone response))
      | Ok None => execute_delete st client_id sequence name if_match
      end
  end.

Definition apply (st : KvState) (cmd : KvCommand) : KvState * result KvApplyResult ConnectError :=
  match cmd with
  | RegisterSession =>
      let '(st, r) := next_client_id st in
      match r with
      | Err e => (st, Err e)
      | Ok client_id => (st, Ok (RegisteredSession client_id))
      end
  | ReadBarrier => (st, Ok ReadBarrierDone)
  | Put c s ns k b im inm => apply_put st c s ns k b im inm
  | Delete c s ns k im => apply_delete st c s ns k im
  end.

(** ** Etags identify generations *)

(** Reading the printed digits gives the number back. *)
Lemma parse_decimal_loop fuel n acc :
  n < 10 ^ N.of_nat fuel -> parse_from 0 (decimal_loop fuel n acc) = parse_from n acc.
Proof.
  revert n acc. induction fuel as [|fuel IH]; intros n acc Hn.
  - simpl in Hn. assert (n = 0) as -> by lia. done.
  - destruct (div_mod_10 n) as [Hdm Hm]. simpl.
    destruct (N.eqb_spec (n / 10) 0) as [H0|H0].
    + simpl. rewrite digit_value_digit by done. do 2 f_equal. lia.
    + rewrite IH.
      * simpl. rewrite digit_value_digit by done. by rewrite Hdm.
      * rewrite Nat2N.inj_succ, N.pow_succ_r' in Hn.
        apply N.Div0.div_lt_upper_bound. lia.
Qed.

Lemma decimal_inj n m : u64 n -> u64 m -> decimal n = decimal m -> n = m.
Proof.
  intros Hn Hm Heq. unfold u64 in *.
  assert (two64 <= 10 ^ N.of_nat 20) as Hb by (by vm_compute).
  assert (forall x, x < two64 -> parse_from 0 (decimal x) = x) as Hp.
  { intros x Hx. unfold decimal. rewrite parse_decimal_loop; [done|].
    by eapply N.lt_le_trans. }
  rewrite <- (Hp n Hn), <- (Hp m Hm). by rewrite Heq.
Qed.

Lemma etag_for_inj n m : u64 n -> u64 m -> etag_for n = etag_for m -> n = m.
Proof.
  intros Hn Hm Heq. unfold etag_for in Heq. apply app_inv_head in Heq.
  apply app_inj_tail in Heq as [Heq _]. by apply decimal_inj.
Qed.

(** ** Sessions record what was answered *)

Lemma record_Ok st c s req res st' r :
  record st c s req res = (st', r) ->
  (is_Some (sessions st !! c) /\ r = Ok tt /\
   st' = set_sessions st (<[c := record_session s req res]> (sessions st))) \/
  (sessions st !! c = None /\ st' = st /\ is_ok r = false).
Proof.
  unfold record, session. destruct (sessions st !! c); intros; simplify_eq; [left|right]; eauto.
Qed.

(** The answer that a recorded result stands for. *)
Definition answer (res : MutationResult) : result KvApplyResult ConnectError :=
  match res with
  | PutResult r => Ok (PutDone r)
  | DeleteResult r => Ok (DeleteDone r)
  | Rejected rej => Err (connect_error rej)
  end.

(** A result fits a request when it is of its kind and names its record. *)
Definition response_fits (req : MutationRequest) (res : MutationResult) : Prop :=
  match req, res with
  | PutRequest name b _ _, PutResult r =>
      pr_namespace r = n_namespace name /\ pr_key r = n_key name /\ pr_size r = str_len b
  | DeleteRequest name _, DeleteResult r =>
      dr_namespace r = n_namespace name /\ dr_key r = n_key name
  | _, Rejected _ => True
  | PutRequest _ _ _ _, DeleteResult _ | DeleteRequest _ _, PutResult _ => False
  end.

(** Executing a mutation of a live session records its answer, and only touches the
    session of its client. *)
Definition executed (st : KvState) (c s : N) (req : MutationRequest) (st' : KvState)
    (r : result KvApplyResult ConnectError) : Prop :=
  exists res, r = answer res /\
    sessions st' = <[c := record_session s req res]> (sessions st) /\
    next_client_id_field st' = next_client_id_field st /\ response_fits req res.

Lemma reject_executed st st0 c s req rej st' r :
  is_Some (sessions st !! c) -> sessions st = sessions st0 ->
  next_client_id_field st = next_client_id_field st0 ->
  reject st c s req rej = (st', r) -> executed st0 c s req st' r.
Proof.
  intros Hs Heq Hn. unfold reject. destruct (record st c s req (Rejected rej)) as [st1 r1] eqn:E.
  apply record_Ok in E as [(_ & -> & ->)|(Hnone & _)]; [|by rewrite Hnone in Hs; destruct Hs].
  intros. simplify_eq. exists (Rejected rej). simpl. rewrite Heq. split_and!; try done. by destruct req.
Qed.

Lemma execute_put_executed st c s name b im inm st' r :
  is_Some (sessions st !! c) -> execute_put st c s name b im inm = (st', r) ->
  executed st c s (PutRequest name b im inm) st' r.
Proof.
  intros Hs. unfold execute_put, body_len, next_generation.
  destruct (check_put_preconditions _ _ _); [|by apply reject_executed].
  destruct (checked_add _ _) as [g|]; [|by apply reject_executed].
  match goal with |- context [record ?x _ _ _ ?y] =>
    destruct (record x c s (PutRequest name b im inm) y) as [st1 r1] eqn:E end.
  apply record_Ok in E as [(_ & -> & ->)|(Hnone & _)];
    [|simpl in Hnone; by rewrite Hnone in Hs; destruct Hs].
  intros. simplify_eq. by eexists (PutResult _).
Qed.

Lemma execute_delete_executed st c s name im st' r :
  is_Some (sessions st !! c) -> execute_delete st c s name im = (st', r) ->
  executed st c s (DeleteRequest name im) st' r.
Proof.
  intros Hs. unfold execute_delete. case_match; [by apply reject_executed|].
  match goal with |- context [record ?x _ _ _ ?y] =>
    destruct (record x c s (DeleteRequest name im) y) as [st1 r1] eqn:E end.
  apply record_Ok in E as [(_ & -> & ->)|(Hnone & _)];
    [|simpl in Hnone; by rewrite Hnone in Hs; destruct Hs].
  intros. simplify_eq. eexists (DeleteResult _). split_and!; [done..|]. simpl. by case_match.
Qed.

(** The client and request of a mutation. *)
Definition mutation (cmd : KvCommand) : option (N * N * MutationRequest) :=
  match cmd with
  | Put c s ns k b im inm => Some (c, s, PutRequest (mkKvName ns k) b im inm)
  | Delete c s ns k im => Some (c, s, DeleteRequest (mkKvName ns k) im)
  | _ => None
  end.

Lemma KvName_new_eq ns k name : KvName_new ns k = Ok name -> name = mkKvName ns k.
Proof. unfold KvName_new. intros. repeat case_match; by simplify_eq. Qed.

(** The validation steps at the head of [apply_put] and [apply_delete]. *)
Definition validation (cmd : KvCommand) : result KvName ConnectError :=
  match cmd with
  | Put c s ns k b im inm =>
      let? _ := validate_mutation_request c s in
      let? _ := validate_put_preconditions im inm in
      let? _ := validate_value b in
      KvName_new ns k
  | Delete c s ns k im =>
      let? _ := validate_mutation_request c s in
      let? _ := validate_etag im in
      KvName_new ns k
  | _ => Err (internal "not a mutation")
  end.

Lemma validation_name cmd name c s req :
  validation cmd = Ok name -> mutation cmd = Some (c, s, req) ->
  req = match cmd with
        | Put _ _ _ _ b im inm => PutRequest name b im inm
        | Delete _ _ _ _ im => DeleteRequest name im
        | _ => req
        end.
Proof.
  intros Hv Hm. destruct cmd as [| |c0 s0 ns k b im inm|c0 s0 ns k im]; try done;
    simpl in Hm; simplify_eq/=; f_equal; symmetry; apply KvName_new_eq;
    repeat case_match; by simplify_eq.
Qed.

(** Either a mutation changes nothing, or it is executed and recorded. *)
Lemma apply_mutation_cases st cmd c s req st' r :
  mutation cmd = Some (c, s, req) -> apply st cmd = (st', r) ->
  st' = st \/ (is_Some (sessions st !! c) /\ is_ok (validation cmd) = true /\
               executed st c s req st' r).
Proof.
  intros Hm Ha. destruct (validation cmd) as [name|e] eqn:Ev.
  2:{ left. destruct cmd; try done; simpl in Ha; unfold apply_put, apply_delete in Ha;
      simpl in Ev; rewrite Ev in Ha; by simplify_eq. }
  pose proof (validation_name _ _ _ _ _ Ev Hm) as Hreq.
  destruct cmd as [| |c0 s0 ns k b im inm|c0 s0 ns k im]; try done; simpl in Hm, Ha, Ev, Hreq;
    assert (c0 = c /\ s0 = s) as [-> ->] by (by injection Hm); clear Hm; subst req.
  - unfold apply_put in Ha. rewrite Ev in Ha.
    destruct (cached_put _ _ _ _) as [[resp|]|] eqn:Ec; [left; by simplify_eq| |left; by simplify_eq].
    assert (is_Some (sessions st !! c)) as Hs.
    { unfold cached_put, session in Ec. destruct (sessions st !! c); [eauto|done]. }
    right. split_and!; [done|done|]. by apply execute_put_executed.
  - unfold apply_delete in Ha. rewrite Ev in Ha.
    destruct (cached_delete _ _ _ _) as [[resp|]|] eqn:Ec; [left; by simplify_eq| |left; by simplify_eq].
    assert (is_Some (sessions st !! c)) as Hs.
    { unfold cached_delete, session in Ec. destruct (sessions st !! c); [eauto|done]. }
    right. split_and!; [done|done|]. by apply execute_delete_executed.
Qed.

Lemma cached_recorded s req res : cached_mutation (record_session s req res) s req = Ok (Some res).
Proof.
  unfold cached_mutation. simpl. rewrite N.compare_refl. by rewrite bool_decide_eq_true_2.
Qed.

(** A recorded answer is returned again, and nothing else happens. *)
Lemma apply_recorded st cmd c s req res :
  mutation cmd = Some (c, s, req) -> is_ok (validation cmd) = true -> response_fits req res ->
  sessions st !! c = Some (record_session s req res) -> apply st cmd = (st, answer res).
Proof.
  intros Hm Hv Hk Hs. destruct (validation cmd) as [name|] eqn:Ev; [|done].
  pose proof (validation_name _ _ _ _ _ Ev Hm) as Hreq.
  destruct cmd as [| |c0 s0 ns k b im inm|c0 s0 ns k im]; try done; simpl in Hm, Ev, Hreq |- *;
    assert (c0 = c /\ s0 = s) as [-> ->] by (by injection Hm); clear Hm; subst req.
  - unfold apply_put. rewrite Ev. unfold cached_put, session. rewrite Hs, cached_recorded.
    by destruct res.
  - unfold apply_delete. rewrite Ev. unfold cached_delete, session. rewrite Hs, cached_recorded.
    by destruct res.
Qed.

(** ** The state invariant *)

Record kv_wf (st : KvState) : Prop := mkKvWf {
  wf_sessions : forall c, is_Some (sessions st !! c) -> c < next_client_id_field st;
  wf_generation : u64 (next_generation_field st);
  wf_entries : forall name r, entries st !! name = Some r ->
     etag r = etag_for (generation r) /\ generation r < next_generation_field st;
  wf_distinct : forall n1 n2 r1 r2, entries st !! n1 = Some r1 -> entries st !! n2 = Some r2 ->
     generation r1 = generation r2 -> n1 = n2
}.

Lemma kv_wf_new : kv_wf new.
Proof. split; simpl; try done; intros *; rewrite ?lookup_empty; try done. Qed.

(** Recording an answer for a live session keeps the invariant. *)
Lemma record_wf st c s req res st' r :
  kv_wf st -> record st c s req res = (st', r) -> kv_wf st'.
Proof.
  intros Hwf Hr. apply record_Ok in Hr as [(Hs & _ & ->)|(_ & -> & _)]; [|done].
  destruct Hwf as [H1 H2 H3 H4]. split; simpl; try done.
  intros c' Hc'. destruct (decide (c' = c)) as [->|Hne]; [by apply H1|].
  rewrite lookup_insert_ne in Hc' by done. by apply H1.
Qed.

Lemma reject_wf st c s req rej st' r : kv_wf st -> reject st c s req rej = (st', r) -> kv_wf st'.
Proof.
  intros Hwf. unfold reject. destruct (record _ _ _ _ _) as [st1 r1] eqn:E.
  apply record_wf in E; [|done]. destruct r1; intros; by simplify_eq.
Qed.

(** A put under a fresh generation keeps etags distinct. *)
Lemma put_entry_wf st name b next :
  kv_wf st -> checked_add (next_generation_field st) 1 = Some next ->
  kv_wf (set_entries (set_next_generation st next)
     (<[name := mkKvRecord b (etag_for (next_generation_field st)) (next_generation_field st)]>
        (entries st))).
Proof.
  intros [H1 H2 H3 H4] [-> Hlt]%checked_add_Some. split; simpl; try done.
  - intros n r. destruct (decide (n = name)) as [->|Hne].
    + rewrite lookup_insert_eq. intros [= <-]. simpl. split; [done|lia].
    + rewrite lookup_insert_ne by done. intros [? ?]%H3. split; [done|lia].
  - intros n1 n2 r1 r2.
    destruct (decide (n1 = name)) as [->|Hn1], (decide (n2 = name)) as [->|Hn2]; try done;
      rewrite ?lookup_insert_eq, ?lookup_insert_ne by done; try (by apply H4).
    + intros [= <-] [_ Hg]%H3 Heq. simpl in Heq. lia.
    + intros [_ Hg]%H3 [= <-] Heq. simpl in Heq. lia.
Qed.

Lemma delete_entry_wf st name : kv_wf st -> kv_wf (set_entries st (delete name (entries st))).
Proof.
  intros [H1 H2 H3 H4]. split; simpl; try done.
  - intros n r [_ Hr]%lookup_delete_Some. by apply (H3 n).
  - intros n1 n2 r1 r2 [_ Hr1]%lookup_delete_Some [_ Hr2]%lookup_delete_Some. by apply H4.
Qed.

Lemma apply_wf st cmd : kv_wf st -> kv_wf (fst (apply st cmd)).
Proof.
  intros Hwf. destruct (apply st cmd) as [st' r] eqn:Ha. simpl.
  destruct cmd as [| |c s ns k b im inm|c s ns k im]; simpl in Ha.
  - unfold next_client_id in Ha. destruct (checked_add _ _) as [n|] eqn:E; simplify_eq; [|done].
    apply checked_add_Some in E as [-> _]. destruct Hwf as [H1 H2 H3 H4]. split; simpl; try done.
    intros c. destruct (decide (c = next_client_id_field st)) as [->|Hne]; [lia|].
    rewrite lookup_insert_ne by done. intros Hc. specialize (H1 c Hc). lia.
  - by simplify_eq.
  - unfold apply_put in Ha. destruct (let? _ := _ in _); [|by simplify_eq].
    destruct (cached_put _ _ _ _) as [[]|]; [by simplify_eq| |by simplify_eq].
    unfold execute_put, body_len, next_generation in Ha.
    destruct (check_put_preconditions _ _ _); [|by eapply reject_wf].
    destruct (checked_add _ _) as [g|] eqn:Eg; [|by eapply reject_wf].
    match type of Ha with context [record ?x ?c ?s ?q ?y] =>
      destruct (record x c s q y) as [st1 r1] eqn:E end.
    apply record_wf in E; [|exact (put_entry_wf _ _ _ _ Hwf Eg)]. destruct r1; by simplify_eq.
  - unfold apply_delete in Ha. destruct (let? _ := _ in _); [|by simplify_eq].
    destruct (cached_delete _ _ _ _) as [[]|]; [by simplify_eq| |by simplify_eq].
    unfold execute_delete in Ha. case_match; [by eapply reject_wf|].
    match type of Ha with context [record ?x ?c ?s ?q ?y] =>
      destruct (record x c s q y) as [st1 r1] eqn:E end.
    apply record_wf in E; [|by apply delete_entry_wf]. destruct r1; by simplify_eq.
Qed.

(** A sequence of commands. *)
Definition run (st : KvState) (cmds : list KvCommand) : KvState :=
  foldl (fun st cmd => fst (apply st cmd)) st cmds.

Lemma run_wf st cmds : kv_wf st -> kv_wf (run st cmds).
Proof.
  revert st. induction cmds as [|cmd cmds IH]; intros st Hwf; [done|]. simpl.
  by apply IH, apply_wf.
Qed.

(** A command of another client leaves a session alone. *)
Definition of_other_client (c : N) (cmd : KvCommand) : Prop :=
  match mutation cmd with Some (c', _, _) => c' <> c | None => True end.

Lemma other_client_keeps_session st cmd c :
  kv_wf st -> is_Some (sessions st !! c) -> of_other_client c cmd ->
  sessions (fst (apply st cmd)) !! c = sessions st !! c.
Proof.
  intros Hwf Hs Ho. destruct (apply st cmd) as [st' r] eqn:Ha. simpl.
  unfold of_other_client in Ho. destruct (mutation cmd) as [[[c' s] req]|] eqn:Em.
  - destruct (apply_mutation_cases _ _ _ _ _ _ _ Em Ha) as [->|(_ & _ & res & _ & Hse & _)];
      [done|]. rewrite Hse. by rewrite lookup_insert_ne.
  - destruct cmd; try done; simpl in Ha; [|by simplify_eq].
    unfold next_client_id in Ha. destruct (checked_add _ _); simplify_eq; [|done]. simpl.
    apply lookup_insert_ne. intros Heq. pose proof (wf_sessions _ Hwf c Hs). lia.
Qed.

Lemma run_other_clients st cmds c :
  kv_wf st -> is_Some (sessions st !! c) -> Forall (of_other_client c) cmds ->
  sessions (run st cmds) !! c = sessions st !! c.
Proof.
  revert st. induction cmds as [|cmd cmds IH]; intros st Hwf Hs Ho; [done|]. simpl.
  apply Forall_cons in Ho as [Ho Hos].
  pose proof (other_client_keeps_session _ _ _ Hwf Hs Ho) as Heq.
  rewrite IH; [done|by apply apply_wf|by rewrite Heq|done].
Qed.

(** Sessions are fresh or remember one request with a fitting result. *)
Definition session_ok (s : SessionState) : Prop :=
  s = SessionState_default \/
  exists seq req res, 0 < seq /\ s = record_session seq req res /\ response_fits req res.

Definition sessions_ok (st : KvState) : Prop :=
  forall c s, sessions st !! c = Some s -> session_ok s.

Lemma validation_sequence cmd c s req :
  mutation cmd = Some (c, s, req) -> is_ok (validation cmd) = true -> 0 < s.
Proof.
  destruct cmd; simpl; try done; intros [= -> -> _]; unfold validate_mutation_request;
    destruct (c =? 0); try done; destruct (N.eqb_spec s 0); try done; lia.
Qed.

Lemma apply_sessions_ok st cmd : sessions_ok st -> sessions_ok (fst (apply st cmd)).
Proof.
  intros Hok. destruct (apply st cmd) as [st' r] eqn:Ha. simpl.
  destruct (mutation cmd) as [[[c s] req]|] eqn:Em.
  - destruct (apply_mutation_cases _ _ _ _ _ _ _ Em Ha) as [-> | (_ & Hv & res & _ & Hse & _ & Hf)];
      [done|].
    intros c' s'. rewrite Hse. destruct (decide (c' = c)) as [-> | Hne].
    + rewrite lookup_insert_eq. intros [= <-]. right. exists s, req, res.
      split; [by eapply validation_sequence|done].
    + rewrite lookup_insert_ne by done. apply Hok.
  - destruct cmd; try done; simpl in Ha; [|by simplify_eq].
    unfold next_client_id in Ha. destruct (checked_add _ _); simplify_eq; [|done].
    intros c s. simpl. destruct (decide (c = next_client_id_field st)) as [-> | Hne].
    + rewrite lookup_insert_eq. intros [= <-]. by left.
    + rewrite lookup_insert_ne by done. apply Hok.
Qed.

(** What a command may be answered with: never an internal error, and on success the
    response of its own kind for its own key. *)
Definition answer_fits (cmd : KvCommand) (r : result KvApplyResult ConnectError) : Prop :=
  match r with
  | Err (internal _) => False
  | Err _ => True
  | Ok (RegisteredSession _) => cmd = RegisterSession
  | Ok ReadBarrierDone => cmd = ReadBarrier
  | Ok (PutDone p) =>
      match cmd with
      | Put _ _ ns k b _ _ => pr_namespace p = ns /\ pr_key p = k /\ pr_size p = str_len b
      | _ => False
      end
  | Ok (DeleteDone d) =>
      match cmd with
      | Delete _ _ ns k _ => dr_namespace d = ns /\ dr_key d = k
      | _ => False
      end
  end.

Lemma answer_of_mutation_fits cmd c s req res :
  mutation cmd = Some (c, s, req) -> response_fits req res -> answer_fits cmd (answer res).
Proof. destruct cmd; try done; intros [= -> -> <-]; destruct res as [| |[]]; simpl; tauto. Qed.

Lemma validation_Err cmd c s req e :
  mutation cmd = Some (c, s, req) -> validation cmd = Err e -> answer_fits cmd (Err e).
Proof.
  destruct cmd; try done; intros _; simpl;
    unfold validate_mutation_request, validate_put_preconditions, validate_etag, validate_value,
      KvName_new; repeat case_match; intros; by simplify_eq.
Qed.

(** The cache answers with a fitting result or a refusal. *)
Lemma cached_mutation_fits s seq req :
  session_ok s -> 0 < seq ->
  match cached_mutation s seq req with
  | Ok (Some res) => response_fits req res
  | Ok None => True
  | Err e => match e with internal _ => False | _ => True end
  end.
Proof.
  intros [-> | (q & req' & res & _ & -> & Hf)] Hseq; unfold cached_mutation; simpl.
  - destruct (N.compare_spec seq 0); [lia|lia|done].
  - destruct (N.compare_spec seq q); [|done|done]. by case_bool_decide; subst.
Qed.

Lemma cached_put_fits st c s name b im inm :
  sessions_ok st -> 0 < s ->
  match cached_put st c s (PutRequest name b im inm) with
  | Ok (Some r) => response_fits (PutRequest name b im inm) (PutResult r)
  | Ok None => True
  | Err e => match e with internal _ => False | _ => True end
  end.
Proof.
  intros Hok Hs. unfold cached_put, session. destruct (sessions st !! c) as [se|] eqn:E; [|done].
  pose proof (cached_mutation_fits se s (PutRequest name b im inm) (Hok _ _ E) Hs) as Hc.
  destruct (cached_mutation _ _ _) as [[[| |[]]|]|]; done.
Qed.

Lemma cached_delete_fits st c s name im :
  sessions_ok st -> 0 < s ->
  match cached_delete st c s (DeleteRequest name im) with
  | Ok (Some r) => response_fits (DeleteRequest name im) (DeleteResult r)
  | Ok None => True
  | Err e => match e with internal _ => False | _ => True end
  end.
Proof.
  intros Hok Hs. unfold cached_delete, session. destruct (sessions st !! c) as [se|] eqn:E; [|done].
  pose proof (cached_mutation_fits se s (DeleteRequest name im) (Hok _ _ E) Hs) as Hc.
  destruct (cached_mutation _ _ _) as [[[| |[]]|]|]; done.
Qed.

Lemma apply_answer_fits st cmd : sessions_ok st -> answer_fits cmd (snd (apply st cmd)).
Proof.
  intros Hok. destruct (mutation cmd) as [[[c s] req]|] eqn:Em.
  2: { destruct cmd; try done. simpl. unfold next_client_id. by destruct (checked_add _ _). }
  destruct (validation cmd) as [name|e] eqn:Ev.
  2: { apply (validation_Err _ _ _ _ _ Em) in Ev as Hf. destruct cmd; try done; simpl in *;
       unfold apply_put, apply_delete; by rewrite Ev. }
  pose proof (validation_sequence _ _ _ _ Em ltac:(by rewrite Ev)) as Hs.
  pose proof (validation_name _ _ _ _ _ Ev Em) as Hreq.
  destruct cmd as [| |c0 s0 ns k b im inm|c0 s0 ns k im]; try done;
    assert (c0 = c /\ s0 = s) as [-> ->] by (by injection Em); simpl in Ev; cbn [apply];
    unfold apply_put, apply_delete; rewrite Ev; subst req.
  - pose proof (cached_put_fits st c s name b im inm Hok Hs) as Hc.
    destruct (cached_put _ _ _ _) as [[r|]|e] eqn:Ec; simpl; [| |by destruct e].
    + exact (answer_of_mutation_fits _ _ _ _ (PutResult r) Em Hc).
    + destruct (execute_put _ _ _ _ _ _ _) as [st' r] eqn:Ee.
      apply execute_put_executed in Ee as (res & -> & _ & _ & Hf);
        [by eapply answer_of_mutation_fits|].
      unfold cached_put, session in Ec. by destruct (sessions st !! c).
  - pose proof (cached_delete_fits st c s name im Hok Hs) as Hc.
    destruct (cached_delete _ _ _ _) as [[r|]|e] eqn:Ec; simpl; [| |by destruct e].
    + exact (answer_of_mutation_fits _ _ _ _ (DeleteResult r) Em Hc).
    + destruct (execute_delete _ _ _ _ _) as [st' r] eqn:Ee.
      apply execute_delete_executed in Ee as (res & -> & _ & _ & Hf);
        [by eapply answer_of_mutation_fits|].
      unfold cached_delete, session in Ec. by destruct (sessions st !! c).
Qed.

(** ** Properties *)

(** C28. Exactly-once mutations: once a put or delete of a session has been executed,
    then after any commands of other clients a retry with the same client id,
    sequence and arguments returns the very same answer, success or rejection, and
    changes nothing. *)
Theorem mutation_is_exactly_once st cmd c s req st1 r cmds
    (Hwf : kv_wf st) (Hm : mutation cmd = Some (c, s, req))
    (Ha : apply st cmd = (st1, r)) (Hnew : st1 <> st)
    (Ho : Forall (of_other_client c) cmds) :
  apply (run st1 cmds) cmd = (run st1 cmds, r).
Proof.
  destruct (apply_mutation_cases _ _ _ _ _ _ _ Hm Ha) as [?|(Hs & Hv & res & -> & Hse & _ & Hk)];
    [done|].
  assert (sessions st1 !! c = Some (record_session s req res)) as Hc
    by (rewrite Hse; apply lookup_insert_eq).
  apply (apply_recorded _ _ c s req); [done..|].
  rewrite run_other_clients; [done| |by rewrite Hc|done].
  pose proof (apply_wf st cmd Hwf) as H. by rewrite Ha in H.
Qed.

Definition demo_kv : KvState := fst (apply new RegisterSession).
Definition demo_put : KvCommand :=
  Put 1 1 [Byte.x6e] [Byte.x6b] [Byte.x76] [] false.

Lemma mutation_is_exactly_once_witness :
  let st1 := fst (apply demo_kv demo_put) in
  apply (run st1 [RegisterSession; ReadBarrier]) demo_put =
  (run st1 [RegisterSession; ReadBarrier], snd (apply demo_kv demo_put)).
Proof.
  apply (mutation_is_exactly_once demo_kv demo_put 1 1
    (PutRequest (mkKvName [Byte.x6e] [Byte.x6b]) [Byte.x76] [] false)).
  - apply apply_wf, kv_wf_new.
  - reflexivity.
  - apply surjective_pairing.
  - intros H. apply (f_equal next_generation_field) in H. vm_compute in H. discriminate.
  - repeat constructor.
Defined.

(** C29. Etags identify versions: after any sequence of commands from the initial
    state, two stored records that carry the same etag are one and the same record of
    one key. *)
Theorem etags_are_unique cmds n1 n2 r1 r2
    (H1 : entries (run new cmds) !! n1 = Some r1)
    (H2 : entries (run new cmds) !! n2 = Some r2)
    (He : etag r1 = etag r2) :
  n1 = n2 /\ r1 = r2.
Proof.
  pose proof (run_wf new cmds kv_wf_new) as [_ Hu Hent Hd].
  destruct (Hent _ _ H1) as [E1 G1], (Hent _ _ H2) as [E2 G2]. unfold u64 in Hu.
  assert (generation r1 = generation r2) as Hg
    by (apply etag_for_inj; [unfold u64; lia..|congruence]).
  pose proof (Hd _ _ _ _ H1 H2 Hg). subst n2. split; [done|congruence].
Qed.

Lemma etags_are_unique_witness :
  exists r, entries (run new [RegisterSession; demo_put]) !! mkKvName [Byte.x6e] [Byte.x6b] = Some r /\
    forall n2 r2, entries (run new [RegisterSession; demo_put]) !! n2 = Some r2 ->
      etag r = etag r2 -> mkKvName [Byte.x6e] [Byte.x6b] = n2.
Proof.
  destruct (entries (run new [RegisterSession; demo_put]) !! mkKvName [Byte.x6e] [Byte.x6b])
    as [r|] eqn:E; [|vm_compute in E; discriminate].
  exists r. split; [reflexivity|]. intros n2 r2 H2 He.
  exact (proj1 (etags_are_unique [RegisterSession; demo_put] _ _ r r2 E H2 He)).
Defined.

(** What a put that is not answered from the cache does. *)
Lemma fresh_put_effect st c s ns k b im inm st1 resp :
  apply st (Put c s ns k b im inm) = (st1, Ok (PutDone resp)) ->
  cached_put st c s (PutRequest (mkKvName ns k) b im inm) = Ok None ->
  check_put_preconditions (entries st !! mkKvName ns k) im inm = Ok tt /\
  pr_etag resp = etag_for (next_generation_field st) /\
  entries st1 = <[mkKvName ns k := mkKvRecord b (pr_etag resp) (pr_generation resp)]> (entries st).
Proof.
  simpl. unfold apply_put. destruct (let? _ := _ in _) as [name|] eqn:Ev; [|done].
  assert (name = mkKvName ns k) as ->.
  { apply KvName_new_eq. repeat case_match; by simplify_eq. }
  intros Ha Hc. rewrite Hc in Ha. unfold execute_put, body_len, next_generation, reject, record in Ha.
  destruct (check_put_preconditions _ _ _) as [[]|]; [|repeat case_match; by simplify_eq].
  destruct (checked_add _ _); [|repeat case_match; by simplify_eq].
  destruct (session _ c); simplify_eq/=. done.
Qed.

(** C30. Conditional puts are compare-and-swap: of two clients that read the same etag
    and write back under it, the one applied second is rejected with an etag
    mismatch and the first client's value stays. *)
Theorem conditional_put_prevents_lost_update st c1 s1 c2 s2 ns k b1 b2 e st1 resp
    (Hwf : kv_wf st) (He : e <> [])
    (H1 : apply st (Put c1 s1 ns k b1 e false) = (st1, Ok (PutDone resp)))
    (Hfresh1 : cached_put st c1 s1 (PutRequest (mkKvName ns k) b1 e false) = Ok None)
    (Hv2 : is_ok (validation (Put c2 s2 ns k b2 e false)) = true)
    (Hfresh2 : cached_put st1 c2 s2 (PutRequest (mkKvName ns k) b2 e false) = Ok None) :
  let '(st2, r2) := apply st1 (Put c2 s2 ns k b2 e false) in
  r2 = Err (connect_error EtagMismatch) /\ entries st2 = entries st1 /\
  entries st2 !! mkKvName ns k = Some (mkKvRecord b1 (pr_etag resp) (pr_generation resp)).
Proof.
  destruct (fresh_put_effect _ _ _ _ _ _ _ _ _ _ H1 Hfresh1) as (Hpre & Het & Hent).
  assert (is_empty_str e = false) as Hne by (by destruct e).
  assert (pr_etag resp <> e) as Hdiff.
  { unfold check_put_preconditions in Hpre. rewrite Hne in Hpre. simpl in Hpre.
    destruct (entries st !! mkKvName ns k) as [old|] eqn:Eo; [|done].
    destruct (bool_decide_reflect (etag old = e)) as [Hold|]; [|done].
    destruct (wf_entries _ Hwf _ _ Eo) as [Heo Hg]. pose proof (wf_generation _ Hwf) as Hu.
    intros Heq. rewrite Het, <- Hold, Heo in Heq. unfold u64 in Hu.
    apply etag_for_inj in Heq; [lia|exact Hu|unfold u64; lia]. }
  simpl. unfold apply_put. simpl in Hv2. destruct (let? _ := _ in _) as [name|] eqn:Ev; [|done].
  assert (name = mkKvName ns k) as ->.
  { apply KvName_new_eq. repeat case_match; by simplify_eq. }
  rewrite Hfresh2. unfold execute_put, check_put_preconditions.
  rewrite Hent, lookup_insert_eq, Hne. simpl. rewrite bool_decide_eq_false_2 by done.
  unfold reject. destruct (record _ _ _ _ _) as [st2 r2] eqn:Er. apply record_Ok in Er.
  destruct Er as [(_ & -> & ->)|(Hnone & _)].
  - simpl. rewrite Hent, lookup_insert_eq. done.
  - unfold cached_put, session in Hfresh2. by rewrite Hnone in Hfresh2.
Qed.

Definition two_sessions : KvState := run new [RegisterSession; RegisterSession; demo_put].
Definition first_etag : bytes := etag_for 1.

Definition winner : KvCommand := Put 1 2 [Byte.x6e] [Byte.x6b] [Byte.x61] first_etag false.
Definition loser : KvCommand := Put 2 1 [Byte.x6e] [Byte.x6b] [Byte.x62] first_etag false.

Lemma conditional_put_prevents_lost_update_witness :
  snd (apply (fst (apply two_sessions winner)) loser) = Err (connect_error EtagMismatch).
Proof.
  assert (snd (apply two_sessions winner) =
          Ok (PutDone (mkPutResponse [Byte.x6e] [Byte.x6b] (etag_for 2) 2 1))) as Hr
    by (vm_compute; reflexivity).
  pose proof (surjective_pairing (apply two_sessions winner)) as E. rewrite Hr in E.
  pose proof (conditional_put_prevents_lost_update two_sessions 1 2 2 1 [Byte.x6e] [Byte.x6b]
    [Byte.x61] [Byte.x62] first_etag _ _ (run_wf _ _ kv_wf_new) ltac:(discriminate) E
    ltac:(vm_compute; reflexivity) ltac:(vm_compute; reflexivity) ltac:(vm_compute; reflexivity)) as H.
  fold loser in H. destruct (apply (fst (apply two_sessions winner)) loser) as [st2 r2].
  apply H.
Defined.
