(* ===== verification/Browse.v ===== *)
(** * Browse: pages of the key-value state in name order

    Models [basisdb-node/src/browse.rs].  The [BTreeMap] of entries iterates in the order of
    [KvName]: namespaces, then keys, compared byte by byte; here the map is listed and
    sorted by that order.  Indexing past the end of a vector panics and is [None]. *)

From S2P Require Import Prelude.
From S2P Require Import Kv.

(** ** The order of names *)

(** [str::cmp]. *)
Fixpoint bytes_compare (a b : bytes) : comparison :=
  match a, b with
  | [], [] => Eq
  | [], _ => Lt
  | _, [] => Gt
  | x :: a', y :: b' =>
      match N.compare (Byte.to_N x) (Byte.to_N y) with
      | Eq => bytes_compare a' b'
      | c => c
      end
  end.

(** The derived order of [KvName]. *)
Definition name_compare (m n : KvName) : comparison :=
  match bytes_compare (n_namespace m) (n_namespace n) with
  | Eq => bytes_compare (n_key m) (n_key n)
  | c => c
  end.

Definition bytes_leb (a b : bytes) : bool :=
  match bytes_compare a b with Gt => false | _ => true end.
Definition name_leb (m n : KvName) : bool :=
  match name_compare m n with Gt => false | _ => true end.

Definition item_le (x y : KvName * KvRecord) : Prop := name_leb x.1 y.1 = true.

#[global] Instance item_le_dec : RelDecision item_le.
Proof. intros x y. unfold item_le. apply _. Defined.

(** The entries in map order, and those from [start] on. *)
Definition sorted_entries (st : KvState) : list (KvName * KvRecord) :=
  merge_sort item_le (map_to_list (entries st)).
Definition range_from (start : KvName) (l : list (KvName * KvRecord)) : list (KvName * KvRecord) :=
  List.filter (fun x => name_leb start x.1) l.

(** [str::max]. *)
Definition bytes_max (a b : bytes) : bytes := if bytes_leb a b then b else a.

(** ** Requests *)

Definition page_limit (limit : N) : result nat ConnectError :=
  if limit =? 0 then Ok 50%nat
  else if limit <=? 100 then Ok (N.to_nat limit)
  else Err (invalid_argument "page limit must not exceed 100").

Definition validate_namespace_cursor (cursor : bytes) : result unit ConnectError :=
  if MAX_NAMESPACE_BYTES <? str_len cursor
  then Err (invalid_argument "namespace cursor exceeds 255-byte limit") else Ok tt.

Definition validate_list (namespace prefix start_after : bytes) : result unit ConnectError :=
  if is_empty_str namespace || (MAX_NAMESPACE_BYTES <? str_len namespace)
  then Err (invalid_argument "namespace must contain 1 to 255 bytes")
  else if (MAX_KEY_BYTES <? str_len prefix) || (MAX_KEY_BYTES <? str_len start_after)
  then Err (invalid_argument "prefix and cursor must not exceed 1024 bytes")
  else Ok tt.

(** The fields of the generated responses that the code sets. *)
Record HeadResponse : Type := mkHeadResponse {
  h_namespace : bytes;
  h_key : bytes;
  h_etag : bytes;
  h_generation : N;
  h_size : N
}.

Record Namespace : Type := mkNamespace {
  ns_name : bytes;
  key_count : N
}.

(** ** Listing keys *)

(** The loop of [entries]; [None] is a panic. *)
Fixpoint entries_loop (namespace prefix start_after : bytes) (limit : nat)
    (l : list (KvName * KvRecord)) (page : list HeadResponse)
  : option (result (list HeadResponse * bytes) ConnectError) :=
  match l with
  | [] => Some (Ok (page, []))
  | (name, record) :: l' =>
      if negb (bool_decide (n_namespace name = namespace)) || negb (starts_with (n_key name) prefix)
      then Some (Ok (page, []))
      else if bytes_leb (n_key name) start_after
      then entries_loop namespace prefix start_after limit l' page
      else if (length page =? limit)%nat
      then match limit with
           | O => None
           | S i => match page !! i with
                    | Some last => Some (Ok (page, h_key last))
                    | None => None
                    end
           end
      else
        match body_len (body record) with
        | Err e => Some (Err e)
        | Ok size =>
            entries_loop namespace prefix start_after limit l'
              (page ++ [mkHeadResponse (n_namespace name) (n_key name) (etag record)
                          (generation record) size])
        end
  end.

(** The source's [entries]. *)
Definition list_entries (st : KvState) (namespace prefix start_after : bytes) (limit : nat)
  : option (result (list HeadResponse * bytes) ConnectError) :=
  let start := mkKvName namespace (bytes_max prefix start_after) in
  entries_loop namespace prefix start_after limit (range_from start (sorted_entries st)) [].

(** ** Listing namespaces *)

Fixpoint namespaces_loop (start_after : bytes) (limit : nat) (l : list (KvName * KvRecord))
    (page : list Namespace) : option (result (list Namespace * bytes) ConnectError) :=
  match l with
  | [] => Some (Ok (page, []))
  | (name, _) :: l' =>
      if bool_decide (n_namespace name = start_after)
      then namespaces_loop start_after limit l' page
      else
        let fresh := match last page with
                     | Some last => negb (bool_decide (ns_name last = n_namespace name))
                     | None => true
                     end in
        if fresh && (length page =? limit)%nat
        then match limit with
             | O => None
             | S i => match page !! i with
                      | Some last => Some (Ok (page, ns_name last))
                      | None => None
                      end
             end
        else
          let page := if fresh then page ++ [mkNamespace (n_namespace name) 0] else page in
          let index := pred (length page) in
          match page !! index with
          | None => None
          | Some ns =>
              match checked_add (key_count ns) 1 with
              | None => Some (Err (resource_exhausted "namespace key count overflow"))
              | Some n => namespaces_loop start_after limit l'
                            (<[index := mkNamespace (ns_name ns) n]> page)
              end
          end
  end.

Definition namespaces (st : KvState) (start_after : bytes) (limit : nat)
  : option (result (list Namespace * bytes) ConnectError) :=
  namespaces_loop start_after limit (range_from (mkKvName start_after []) (sorted_entries st)) [].

(** With a positive limit neither listing panics on a page position. *)
Lemma namespaces_loop_total start_after limit l page :
  (0 < limit)%nat -> (length page <= limit)%nat ->
  is_Some (namespaces_loop start_after limit l page).
Proof.
  intros Hl. revert page. induction l as [|[name r] l IH]; intros page Hp; simpl; [eauto|].
  case_bool_decide; [by apply IH|].
  set (fresh := match last page with Some _ => _ | None => _ end).
  destruct (fresh && (length page =? limit)%nat) eqn:Ef.
  - apply andb_true_iff in Ef as [_ Ef%Nat.eqb_eq]. destruct limit as [|i]; [lia|].
    destruct (page !! i) eqn:E; [eauto|]. apply lookup_ge_None in E. lia.
  - set (page' := if fresh then _ else page).
    assert ((0 < length page')%nat /\ (length page' <= limit)%nat) as [Hpos Hle].
    { unfold page'. destruct fresh eqn:E; simpl in Ef.
      - apply Nat.eqb_neq in Ef. rewrite length_app. simpl. lia.
      - unfold fresh in E. destruct page; [done|]. simpl in *. lia. }
    destruct (page' !! pred (length page')) as [ns|] eqn:E;
      [|apply lookup_ge_None in E; lia].
    destruct (checked_add _ _); [|eauto]. apply IH. by rewrite length_insert.
Qed.

(** ** The order is total *)

Lemma byte_to_N_inj x y : Byte.to_N x = Byte.to_N y -> x = y.
Proof. intros H. apply (f_equal Byte.of_N) in H. rewrite !Byte.of_to_N in H. by simplify_eq. Qed.

Lemma bytes_compare_eq a b : bytes_compare a b = Eq <-> a = b.
Proof.
  revert b. induction a as [|x a IH]; intros [|y b]; simpl; try done.
  destruct (N.compare_spec (Byte.to_N x) (Byte.to_N y)) as [H|H|H].
  - rewrite IH. apply byte_to_N_inj in H as ->. split; [by intros ->|by intros [= ->]].
  - split; [done|]. intros [= -> ->]. lia.
  - split; [done|]. intros [= -> ->]. lia.
Qed.

Lemma bytes_compare_antisym a b : bytes_compare b a = CompOpp (bytes_compare a b).
Proof.
  revert b. induction a as [|x a IH]; intros [|y b]; simpl; try done.
  rewrite (N.compare_antisym (Byte.to_N x) (Byte.to_N y)).
  destruct (Byte.to_N x ?= Byte.to_N y)%N; simpl; [apply IH|done|done].
Qed.

Lemma bytes_compare_trans a b c :
  bytes_compare a b = Lt -> bytes_compare b c = Lt -> bytes_compare a c = Lt.
Proof.
  revert b c. induction a as [|x a IH]; intros [|y b] [|z c]; simpl; try done.
  destruct (N.compare_spec (Byte.to_N x) (Byte.to_N y)) as [H1|H1|H1]; try done;
    destruct (N.compare_spec (Byte.to_N y) (Byte.to_N z)) as [H2|H2|H2]; try done; intros Ha Hb;
    destruct (N.compare_spec (Byte.to_N x) (Byte.to_N z)) as [H3|H3|H3]; try done; try lia.
  by eapply IH.
Qed.

Lemma name_compare_eq m n : name_compare m n = Eq <-> m = n.
Proof.
  unfold name_compare. destruct m as [a k], n as [b k']; simpl.
  destruct (bytes_compare a b) eqn:E.
  - apply bytes_compare_eq in E as ->. rewrite bytes_compare_eq. split; [by intros ->|by intros [= ->]].
  - split; [done|]. intros [= -> ->]. by rewrite (proj2 (bytes_compare_eq b b)) in E.
  - split; [done|]. intros [= -> ->]. by rewrite (proj2 (bytes_compare_eq b b)) in E.
Qed.

Lemma name_compare_antisym m n : name_compare n m = CompOpp (name_compare m n).
Proof.
  unfold name_compare. rewrite (bytes_compare_antisym (n_namespace m)).
  destruct (bytes_compare (n_namespace m) (n_namespace n)); simpl; [apply bytes_compare_antisym|done|done].
Qed.

Lemma name_compare_trans l m n :
  name_compare l m = Lt -> name_compare m n = Lt -> name_compare l n = Lt.
Proof.
  unfold name_compare. destruct l as [a k], m as [b k'], n as [c k'']; simpl.
  destruct (bytes_compare a b) eqn:E1; [|destruct (bytes_compare b c) eqn:E2|]; try done.
  - apply bytes_compare_eq in E1 as ->. destruct (bytes_compare b c) eqn:E2; try done.
    apply bytes_compare_trans.
  - apply bytes_compare_eq in E2 as ->. by rewrite E1.
  - by rewrite (bytes_compare_trans _ _ _ E1 E2).
Qed.

(** Both orders are [<=]: less or equal. *)
Lemma name_leb_cases m n : name_leb m n = true <-> name_compare m n = Lt \/ m = n.
Proof.
  unfold name_leb. rewrite <- name_compare_eq. destruct (name_compare m n); naive_solver.
Qed.

Lemma bytes_leb_cases a b : bytes_leb a b = true <-> bytes_compare a b = Lt \/ a = b.
Proof.
  unfold bytes_leb. rewrite <- bytes_compare_eq. destruct (bytes_compare a b); naive_solver.
Qed.

Lemma bytes_leb_false a b : bytes_leb a b = false <-> bytes_compare b a = Lt.
Proof.
  unfold bytes_leb. rewrite (bytes_compare_antisym a b).
  destruct (bytes_compare a b); simpl; naive_solver.
Qed.

Lemma bytes_leb_trans a b c : bytes_leb a b = true -> bytes_leb b c = true -> bytes_leb a c = true.
Proof.
  rewrite !bytes_leb_cases. intros [H1|<-] [H2|<-]; eauto using bytes_compare_trans.
Qed.

#[global] Instance item_le_total : Total item_le.
Proof.
  intros x y. unfold item_le, name_leb. rewrite (name_compare_antisym x.1 y.1).
  destruct (name_compare x.1 y.1); simpl; auto.
Qed.

#[global] Instance item_le_trans : Transitive item_le.
Proof.
  intros x y z. unfold item_le. rewrite !name_leb_cases.
  intros [H1|H1] [H2|H2]; [left; by eapply name_compare_trans|left; congruence|left; congruence|right; congruence].
Qed.

(** ** Prefixes *)

Lemma starts_with_leb s prefix : starts_with s prefix = true -> bytes_leb prefix s = true.
Proof.
  revert s. unfold bytes_leb. induction prefix as [|p prefix IH]; intros [|x s]; simpl; try done.
  intros [Hp Hs]%andb_true_iff. apply bool_decide_eq_true in Hp as ->. rewrite N.compare_refl. by apply IH.
Qed.

(** The strings with a prefix are an interval. *)
Lemma starts_with_convex prefix k k' :
  bytes_leb prefix k = true -> bytes_leb k k' = true -> starts_with k' prefix = true ->
  starts_with k prefix = true.
Proof.
  revert k k'. unfold bytes_leb.
  induction prefix as [|p prefix IH]; intros [|x k] [|y k']; simpl; try done.
  intros H1 H2 [Hp Hs]%andb_true_iff. apply bool_decide_eq_true in Hp as ->.
  destruct (N.compare_spec (Byte.to_N y) (Byte.to_N x)) as [E|E|E]; try done.
  - apply byte_to_N_inj in E as ->. rewrite N.compare_refl in H2.
    rewrite bool_decide_eq_true_2 by done. simpl. by eapply IH.
  - rewrite (proj2 (N.compare_gt_iff _ _)) in H2 by done. done.
Qed.

(** ** Listing keys against its specification *)

(** What a listing asks for. *)
Definition in_scope (namespace prefix : bytes) (x : KvName * KvRecord) : bool :=
  bool_decide (n_namespace x.1 = namespace) && starts_with (n_key x.1) prefix.
Definition matching (namespace prefix start_after : bytes) (x : KvName * KvRecord) : bool :=
  in_scope namespace prefix x && negb (bytes_leb (n_key x.1) start_after).

Definition head_of (x : KvName * KvRecord) : HeadResponse :=
  mkHeadResponse (n_namespace x.1) (n_key x.1) (etag x.2) (generation x.2) (str_len (body x.2)).

(** A page: the first [limit] results, and the last of them as cursor if there are more. *)
Definition page_of (limit : nat) (full : list HeadResponse) : list HeadResponse * bytes :=
  (take limit full,
   if (limit <? length full)%nat then default [] (h_key <$> full !! pred limit) else []).

Lemma page_of_short limit full : (length full <= limit)%nat -> page_of limit full = (full, []).
Proof.
  intros H. unfold page_of. by rewrite take_ge, (proj2 (Nat.ltb_ge _ _)) by lia.
Qed.

(** Past the first entry out of scope nothing is in scope. *)
Lemma out_of_scope_after namespace prefix k x y :
  name_leb (mkKvName namespace k) x.1 = true -> bytes_leb prefix k = true -> item_le x y ->
  in_scope namespace prefix x = false -> in_scope namespace prefix y = false.
Proof.
  intros Hx Hk Hxy Hout. apply not_true_is_false. intros [Hns Hpre]%andb_true_iff.
  apply bool_decide_eq_true in Hns. apply not_true_iff_false in Hout. apply Hout.
  unfold item_le in Hxy. destruct x as [[nx kx] rx], y as [[ny ky] ry]; simpl in *. subst ny.
  unfold name_leb, name_compare in Hx, Hxy. simpl in *.
  rewrite (bytes_compare_antisym namespace nx) in Hxy.
  destruct (bytes_compare namespace nx) eqn:E; simpl in Hxy; try done.
  apply bytes_compare_eq in E as ->. unfold in_scope. simpl. rewrite bool_decide_eq_true_2 by done. simpl.
  apply starts_with_convex with ky; [|done|done]. eapply bytes_leb_trans; [exact Hk|]. exact Hx.
Qed.

Lemma filter_all_false {A} (f : A -> bool) l :
  (forall x, x ∈ l -> f x = false) -> List.filter f l = [].
Proof.
  induction l as [|x l IH]; intros H; simpl; [done|]. rewrite H by left. apply IH. intros. apply H. by right.
Qed.

Lemma filter_all_true {A} (f : A -> bool) l :
  (forall x, x ∈ l -> f x = true) -> List.filter f l = l.
Proof.
  induction l as [|x l IH]; intros H; simpl; [done|]. rewrite H by left. f_equal. apply IH. intros.
  apply H. by right.
Qed.

Lemma entries_loop_spec namespace prefix start_after limit k l page :
  bytes_leb prefix k = true -> StronglySorted item_le l ->
  Forall (fun x => name_leb (mkKvName namespace k) x.1 = true) l ->
  (0 < limit)%nat -> (length page <= limit)%nat ->
  entries_loop namespace prefix start_after limit l page =
  Some (Ok (page_of limit
    (page ++ (head_of <$> List.filter (matching namespace prefix start_after) l)))).
Proof.
  intros Hk Hs. revert page. induction Hs as [|x l Hs IH Hx]; intros page Hge Hlim Hlen.
  { simpl. rewrite app_nil_r. by rewrite page_of_short. }
  apply Forall_cons in Hge as [Hgx Hge]. destruct x as [name record]. cbn [entries_loop].
  rewrite <- negb_andb.
  change (bool_decide (n_namespace name = namespace) && starts_with (n_key name) prefix)
    with (in_scope namespace prefix (name, record)).
  destruct (in_scope namespace prefix (name, record)) eqn:Esc; simpl negb; cbv iota.
  2:{ rewrite filter_all_false; [simpl; by rewrite app_nil_r, page_of_short|].
      intros y [->|Hy]%elem_of_cons; unfold matching; [by rewrite Esc|].
      rewrite (out_of_scope_after _ _ k (name, record)); try done. rewrite Forall_forall in Hx. by apply Hx. }
  cbn [List.filter]. unfold matching at 1. rewrite Esc. cbn [fst andb].
  destruct (bytes_leb (n_key name) start_after); cbn [negb]; [by apply IH|].
  destruct (Nat.eqb_spec (length page) limit) as [He|He].
  - destruct limit as [|i]; [lia|]. destruct (lookup_lt_is_Some_2 page i) as [h Hh]; [lia|].
    rewrite Hh. unfold page_of. rewrite take_app_le, take_ge by lia.
    rewrite (proj2 (Nat.ltb_lt _ _)) by (rewrite length_app; simpl; lia).
    cbn [pred]. by rewrite lookup_app_l, Hh by lia.
  - unfold body_len. rewrite IH; [|done|done|rewrite length_app; simpl; lia].
    by rewrite <- app_assoc.
Qed.

(** All results of a listing, in order. *)
Definition results (st : KvState) (namespace prefix start_after : bytes) : list HeadResponse :=
  head_of <$> List.filter (matching namespace prefix start_after) (sorted_entries st).

Lemma sorted_entries_sorted st : StronglySorted item_le (sorted_entries st).
Proof. apply (StronglySorted_merge_sort item_le). Qed.

Lemma filter_sorted {A} (R : A -> A -> Prop) f l :
  StronglySorted R l -> StronglySorted R (List.filter f l).
Proof.
  induction 1 as [|x l Hs IH Hx]; simpl; [constructor|]. destruct (f x); [|done].
  constructor; [done|]. apply Forall_forall. intros y Hy. rewrite Forall_forall in Hx. apply Hx.
  apply list_elem_of_In in Hy. apply filter_In in Hy as [Hy _]. by apply list_elem_of_In.
Qed.

Lemma filter_filter_imp {A} (f g : A -> bool) l :
  (forall x, f x = true -> g x = true) -> List.filter f (List.filter g l) = List.filter f l.
Proof.
  intros H. induction l as [|x l IH]; simpl; [done|]. destruct (g x) eqn:Eg; simpl.
  - by rewrite IH.
  - destruct (f x) eqn:Ef; [|done]. by rewrite H in Eg.
Qed.

Lemma bytes_max_ge a b : bytes_leb a (bytes_max a b) = true.
Proof.
  unfold bytes_max. destruct (bytes_leb a b) eqn:E; [done|]. apply bytes_leb_cases. by right.
Qed.

(** What matches lies in the range that is scanned. *)
Lemma matching_in_range namespace prefix start_after x :
  matching namespace prefix start_after x = true ->
  name_leb (mkKvName namespace (bytes_max prefix start_after)) x.1 = true.
Proof.
  unfold matching, in_scope. rewrite !andb_true_iff, bool_decide_eq_true, negb_true_iff.
  destruct x as [[ns k] r]; simpl. intros [[-> Hp] Hs]. unfold name_leb, name_compare. simpl.
  rewrite (proj2 (bytes_compare_eq namespace namespace)) by done.
  fold (bytes_leb (bytes_max prefix start_after) k). unfold bytes_max.
  destruct (bytes_leb prefix start_after) eqn:E; [|by apply starts_with_leb].
  apply bytes_leb_cases. left. by apply bytes_leb_false.
Qed.

(** The specification of a listing. *)
Lemma list_entries_spec st namespace prefix start_after limit : (0 < limit)%nat ->
  list_entries st namespace prefix start_after limit =
  Some (Ok (page_of limit (results st namespace prefix start_after))).
Proof.
  intros Hl. unfold list_entries, results.
  rewrite (entries_loop_spec _ _ _ _ (bytes_max prefix start_after));
    [|apply bytes_max_ge|apply filter_sorted, sorted_entries_sorted| |done|simpl; lia].
  - simpl. unfold range_from. rewrite filter_filter_imp; [done|]. intros x. apply matching_in_range.
  - apply Forall_forall. intros x Hx. apply list_elem_of_In in Hx. by apply filter_In in Hx as [_ Hx].
Qed.

(** ** Paging *)

(** A client that asks for page after page until the cursor is empty. *)
Fixpoint list_pages (fuel : nat) (st : KvState) (namespace prefix start_after : bytes) (limit : nat)
  : option (list HeadResponse) :=
  match fuel with
  | O => None
  | S fuel' =>
      match list_entries st namespace prefix start_after limit with
      | Some (Ok (page, [])) => Some page
      | Some (Ok (page, next)) => app page <$> list_pages fuel' st namespace prefix next limit
      | _ => None
      end
  end.

(** The results are listed in strictly ascending key order. *)
Definition key_lt (x y : HeadResponse) : Prop := bytes_compare (h_key x) (h_key y) = Lt.

Lemma sorted_entries_nodup st : NoDup (sorted_entries st).*1.
Proof.
  unfold sorted_entries. rewrite merge_sort_Permutation. apply NoDup_fst_map_to_list.
Qed.

Lemma matching_strict namespace prefix start_after l :
  StronglySorted item_le l -> NoDup l.*1 ->
  StronglySorted key_lt (head_of <$> List.filter (matching namespace prefix start_after) l).
Proof.
  induction 1 as [|x l Hs IH Hx]; simpl; intros Hnd; [constructor|].
  apply NoDup_cons in Hnd as [Hni Hnd]. destruct (matching _ _ _ x) eqn:Em; [|by apply IH].
  simpl. constructor; [by apply IH|]. apply Forall_forall. intros h Hh.
  apply list_elem_of_fmap in Hh as (y & -> & Hy). apply list_elem_of_In, filter_In in Hy as [Hy Hmy].
  apply list_elem_of_In in Hy. rewrite Forall_forall in Hx. specialize (Hx _ Hy).
  unfold matching, in_scope in Em, Hmy. rewrite !andb_true_iff, bool_decide_eq_true in Em, Hmy.
  destruct Em as [[Ex _] _], Hmy as [[Ey _] _]. unfold item_le in Hx. apply name_leb_cases in Hx.
  unfold key_lt. simpl. destruct Hx as [Hx|Hx].
  - unfold name_compare in Hx. by rewrite Ex, Ey, (proj2 (bytes_compare_eq namespace namespace)) in Hx.
  - exfalso. apply Hni. rewrite Hx. by apply list_elem_of_fmap_2.
Qed.

Lemma filter_after l i h : StronglySorted key_lt l -> l !! i = Some h ->
  List.filter (fun x => negb (bytes_leb (h_key x) (h_key h))) l = drop (S i) l.
Proof.
  intros Hs. revert i. induction Hs as [|x l Hs IH Hx]; intros [|i] Hi; simplify_eq/=.
  - rewrite (proj2 (bytes_leb_cases _ _)) by (by right). simpl. apply filter_all_true.
    intros y Hy. rewrite Forall_forall in Hx. apply negb_true_iff, bytes_leb_false. by apply Hx.
  - rewrite (proj2 (bytes_leb_cases _ _)); [simpl; by apply IH|]. left.
    rewrite Forall_forall in Hx. apply Hx. by eapply list_elem_of_lookup_2.
Qed.

(** Moving the cursor forward filters the results. *)
Lemma results_next st namespace prefix start_after next :
  bytes_leb start_after next = true ->
  results st namespace prefix next =
  List.filter (fun h => negb (bytes_leb (h_key h) next)) (results st namespace prefix start_after).
Proof.
  intros Hle. unfold results. induction (sorted_entries st) as [|x l IH]; [done|].
  cbn [List.filter].
  assert (matching namespace prefix next x =
          matching namespace prefix start_after x && negb (bytes_leb (n_key x.1) next)) as ->.
  { unfold matching. destruct (in_scope namespace prefix x); [|done]. cbn [andb].
    destruct (bytes_leb (n_key x.1) start_after) eqn:E; [|done].
    by rewrite (bytes_leb_trans _ _ _ E Hle). }
  destruct (matching namespace prefix start_after x); [|done]. cbn [andb].
  rewrite fmap_cons. cbn [List.filter head_of h_key].
  destruct (bytes_leb (n_key x.1) next); cbn [negb]; [done|]. by rewrite fmap_cons, IH.
Qed.

Lemma results_after_page st namespace prefix start_after i h :
  results st namespace prefix start_after !! i = Some h ->
  h_key h <> [] /\ results st namespace prefix (h_key h) = drop (S i) (results st namespace prefix start_after).
Proof.
  intros Hi. assert (bytes_compare start_after (h_key h) = Lt) as Hlt.
  { apply list_elem_of_lookup_2, list_elem_of_fmap in Hi as (x & -> & Hx).
    apply list_elem_of_In, filter_In in Hx as [_ Hx]. unfold matching in Hx.
    rewrite andb_true_iff, negb_true_iff, bytes_leb_false in Hx. apply Hx. }
  split; [intros E; rewrite E in Hlt; by destruct start_after|].
  rewrite (results_next _ _ _ start_after) by (apply bytes_leb_cases; by left).
  apply filter_after; [|done]. apply matching_strict; [apply sorted_entries_sorted|apply sorted_entries_nodup].
Qed.

Lemma list_pages_spec fuel st namespace prefix start_after limit :
  (0 < limit)%nat -> (length (results st namespace prefix start_after) < fuel)%nat ->
  list_pages fuel st namespace prefix start_after limit =
  Some (results st namespace prefix start_after).
Proof.
  intros Hl. revert start_after. induction fuel as [|fuel IH]; intros sa Hf; [lia|].
  cbn [list_pages]. rewrite list_entries_spec by done. unfold page_of.
  destruct (Nat.ltb_spec limit (length (results st namespace prefix sa))) as [Hlt|Hge].
  - destruct (lookup_lt_is_Some_2 (results st namespace prefix sa) (pred limit)) as [h Hh]; [lia|].
    destruct (results_after_page _ _ _ _ _ _ Hh) as [Hne Hd]. rewrite Hh. cbn [fmap option_fmap option_map default].
    destruct limit as [|i]; [lia|]. cbn [pred] in *.
    unfold from_option, id.
    destruct (h_key h) as [|b k] eqn:Ek; [done|]. rewrite IH.
    + rewrite Hd. simpl. f_equal. apply take_drop.
    + rewrite Hd, length_drop. lia.
  - by rewrite take_ge by done.
Qed.

(** C34. Paging is exact: for every page size of at least one, asking for page after page until
    the cursor is empty ends, never panics, and returns every stored key of the
    namespace with the prefix that follows the starting cursor, each exactly once and in
    ascending order, and nothing else. *)
Theorem paging_lists_every_key st namespace prefix start_after limit (Hl : (0 < limit)%nat) :
  exists xs, list_pages (S (size (entries st))) st namespace prefix start_after limit = Some xs /\
    StronglySorted key_lt xs /\
    forall h, h ∈ xs <->
      exists r, entries st !! mkKvName namespace (h_key h) = Some r /\
        starts_with (h_key h) prefix = true /\ bytes_compare start_after (h_key h) = Lt /\
        h = head_of (mkKvName namespace (h_key h), r).
Proof.
  exists (results st namespace prefix start_after). split_and!.
  - apply list_pages_spec; [done|]. unfold results. rewrite length_fmap.
    apply Nat.lt_succ_r. etrans; [apply filter_length_le|]. unfold sorted_entries.
    rewrite merge_sort_Permutation. by rewrite length_map_to_list.
  - apply matching_strict; [apply sorted_entries_sorted|apply sorted_entries_nodup].
  - intros h. unfold results. rewrite list_elem_of_fmap. split.
    + intros (x & -> & Hx). apply list_elem_of_In, filter_In in Hx as [Hx Hm].
      apply list_elem_of_In in Hx. unfold sorted_entries in Hx. rewrite merge_sort_Permutation in Hx.
      destruct x as [[ns k] r]. apply elem_of_map_to_list in Hx. unfold matching, in_scope in Hm.
      rewrite !andb_true_iff, bool_decide_eq_true, negb_true_iff, bytes_leb_false in Hm.
      simpl in *. destruct Hm as [[-> Hp] Hs]. by exists r.
    + intros (r & Hr & Hp & Hs & Heq). exists (mkKvName namespace (h_key h), r). split; [done|].
      apply list_elem_of_In, filter_In. split.
      * apply list_elem_of_In. unfold sorted_entries. rewrite merge_sort_Permutation.
        by apply elem_of_map_to_list.
      * unfold matching, in_scope. simpl. rewrite bool_decide_eq_true_2, Hp by done. simpl.
        by apply negb_true_iff, bytes_leb_false.
Qed.

Lemma paging_lists_every_key_witness :
  exists h, list_pages 2 two_sessions [Byte.x6e] [] [] 1 = Some [h] /\ h_key h = [Byte.x6b].
Proof.
  destruct (paging_lists_every_key two_sessions [Byte.x6e] [] [] 1 ltac:(lia)) as (xs & E & _ & _).
  assert (h_key <$> xs = [[Byte.x6b]]) as Hx.
  { assert (fmap (M := option) (fmap h_key) (Some xs) = Some [[Byte.x6b]]) as H
      by (rewrite <- E; vm_compute; reflexivity). by injection H. }
  destruct xs as [|h [|h' xs]]; [discriminate Hx| |discriminate Hx]. exists h.
  split; [exact E|]. by injection Hx.
Defined.

(** ** Listing namespaces against its specification *)

(** The loop without the limit: one entry more for a namespace. *)
Definition absorb (page : list Namespace) (x : KvName * KvRecord) : list Namespace :=
  match last page with
  | Some ns => if bool_decide (ns_name ns = n_namespace x.1)
               then <[pred (length page) := mkNamespace (ns_name ns) (key_count ns + 1)]> page
               else page ++ [mkNamespace (n_namespace x.1) 1]
  | None => page ++ [mkNamespace (n_namespace x.1) 1]
  end.

Definition beyond (start_after : bytes) (x : KvName * KvRecord) : bool :=
  negb (bool_decide (n_namespace x.1 = start_after)).

Definition namespace_page (limit : nat) (full : list Namespace) : list Namespace * bytes :=
  (take limit full,
   if (limit <? length full)%nat then default [] (ns_name <$> full !! pred limit) else []).

Lemma absorb_snoc p ns x :
  absorb (p ++ [ns]) x =
  if bool_decide (ns_name ns = n_namespace x.1) then p ++ [mkNamespace (ns_name ns) (key_count ns + 1)]
  else (p ++ [ns]) ++ [mkNamespace (n_namespace x.1) 1].
Proof.
  unfold absorb. rewrite last_snoc. destruct (bool_decide _); [|done].
  rewrite length_app. simpl. rewrite Nat.add_1_r. simpl.
  rewrite <- (Nat.add_0_r (length p)) at 1. by rewrite insert_app_r.
Qed.

(** All but the last element of the page are final. *)
Lemma absorb_keeps l p ns : exists y ys, foldl absorb (p ++ [ns]) l = p ++ y :: ys.
Proof.
  revert p ns. induction l as [|x l IH]; intros p ns; simpl; [by do 2 eexists|].
  rewrite absorb_snoc. destruct (bool_decide _); [apply IH|].
  destruct (IH (p ++ [ns]) (mkNamespace (n_namespace x.1) 1)) as (y & ys & E). rewrite E.
  exists ns, (y :: ys). by rewrite <- app_assoc.
Qed.

Lemma last_is_Some_snoc {A} (l : list A) x : last l = Some x -> exists p, l = p ++ [x].
Proof.
  destruct l as [|y l _] using rev_ind; [done|]. rewrite last_snoc. intros [= ->]. by exists l.
Qed.

(** The counts on the page stay below the number of entries still to come. *)
Lemma namespaces_loop_spec start_after limit l page :
  (0 < limit)%nat -> (length page <= limit)%nat ->
  (forall ns, last page = Some ns -> key_count ns + N.of_nat (length l) < two64) ->
  N.of_nat (length l) + 1 < two64 ->
  namespaces_loop start_after limit l page =
  Some (Ok (namespace_page limit (foldl absorb page (List.filter (beyond start_after) l)))).
Proof.
  intros Hl. revert page. induction l as [|[name r] l IH]; intros page Hlen Hb Hb1.
  { simpl. unfold namespace_page. by rewrite take_ge, (proj2 (Nat.ltb_ge _ _)) by lia. }
  cbn [namespaces_loop List.filter length] in *. unfold beyond at 1. cbn [fst].
  destruct (bool_decide (n_namespace name = start_after)); cbn [negb].
  { apply IH; [done| |lia]. intros ns Hns. specialize (Hb _ Hns). lia. }
  cbn [foldl]. destruct (last page) as [ns|] eqn:El.
  - apply last_is_Some_snoc in El as [p ->]. specialize (Hb _ eq_refl). rewrite absorb_snoc. cbn [fst].
    rewrite length_app in *. simpl in Hlen. destruct (bool_decide (ns_name ns = n_namespace name)) eqn:Ed;
      cbn [negb andb].
    + rewrite length_app. cbn [length]. rewrite Nat.add_1_r. cbn [pred].
      rewrite lookup_app_r, Nat.sub_diag by lia. cbn [lookup list_lookup].
      unfold checked_add. rewrite (proj2 (N.ltb_lt _ _)) by lia.
      rewrite <- (Nat.add_0_r (length p)) at 1. rewrite insert_app_r. cbn [insert list_insert].
      apply IH; [rewrite length_app; simpl; lia| |lia].
      intros ns'. rewrite last_snoc. intros [= <-]. simpl. lia.
    + cbn [length]. destruct (Nat.eqb_spec (length p + 1) limit) as [He|He]; cbn [andb].
      * destruct limit as [|i]; [lia|]. assert (i = length p) as -> by lia.
        rewrite lookup_app_r, Nat.sub_diag by lia. cbn [lookup list_lookup].
        destruct (absorb_keeps (List.filter (beyond start_after) l) (p ++ [ns])
          (mkNamespace (n_namespace name) 1)) as (y & ys & ->).
        unfold namespace_page. rewrite (proj2 (Nat.ltb_lt _ _)) by (rewrite !length_app; simpl; lia).
        rewrite take_app_length' by (rewrite length_app; simpl; lia). cbn [pred].
        rewrite <- app_assoc, lookup_app_r, Nat.sub_diag by lia. done.
      * rewrite (length_app (p ++ [ns])), length_app. cbn [length].
        replace (pred (length p + 1 + 1)) with (length (p ++ [ns]) + 0)%nat by (rewrite length_app; simpl; lia).
        rewrite lookup_app_r, Nat.add_0_r, Nat.sub_diag by lia. cbn [lookup list_lookup].
        unfold checked_add. rewrite (proj2 (N.ltb_lt _ _)) by (simpl; lia).
        rewrite <- (Nat.add_0_r (length (p ++ [ns]))). rewrite insert_app_r. cbn [insert list_insert].
        apply IH; [rewrite !length_app; simpl; lia| |lia].
        intros ns'. rewrite last_snoc. intros [= <-]. simpl. lia.
  - apply last_None in El as ->. cbn [length andb negb]. destruct limit as [|i]; [lia|].
    cbn [Nat.eqb]. apply IH; [simpl; lia| |lia]. intros ns' [= <-]. simpl. lia.
Qed.

Definition ns_lt (a b : Namespace) : Prop := bytes_compare (ns_name a) (ns_name b) = Lt.

(** The number of entries of a namespace. *)
Definition count (n : bytes) (l : list (KvName * KvRecord)) : N :=
  N.of_nat (length (List.filter (fun x => bool_decide (n_namespace x.1 = n)) l)).

Lemma count_snoc n l x :
  count n (l ++ [x]) = count n l + (if bool_decide (n_namespace x.1 = n) then 1 else 0).
Proof.
  unfold count. rewrite List.filter_app, length_app. simpl. destruct (bool_decide _); simpl; lia.
Qed.

Lemma count_pos n l : 0 < count n l -> exists x, x ∈ l /\ n_namespace x.1 = n.
Proof.
  unfold count. destruct (List.filter _ l) as [|x xs] eqn:E; simpl; [lia|]. intros _. exists x.
  assert (In x (List.filter (fun x => bool_decide (n_namespace x.1 = n)) l)) as Hin by (rewrite E; by left).
  apply filter_In in Hin as [Hin Hn]. apply bool_decide_eq_true in Hn. by rewrite list_elem_of_In.
Qed.

Lemma item_le_namespace x y : item_le x y ->
  bytes_compare (n_namespace x.1) (n_namespace y.1) = Lt \/ n_namespace x.1 = n_namespace y.1.
Proof.
  unfold item_le, name_leb, name_compare. rewrite <- bytes_compare_eq.
  destruct (bytes_compare (n_namespace x.1) (n_namespace y.1)); auto. done.
Qed.

(** The grouping of a sorted list: one element per namespace, in order, with its count. *)
Definition grouped (l : list (KvName * KvRecord)) (g : list Namespace) : Prop :=
  StronglySorted ns_lt g /\
  (forall ns, ns ∈ g <-> key_count ns = count (ns_name ns) l /\ 0 < key_count ns) /\
  (forall ns, last g = Some ns -> exists x, last l = Some x /\ n_namespace x.1 = ns_name ns) /\
  (last g = None -> l = []).

Lemma ns_lt_irrefl ns c : ~ ns_lt ns (mkNamespace (ns_name ns) c).
Proof. unfold ns_lt. simpl. by rewrite (proj2 (bytes_compare_eq _ _)). Qed.

(** Another entry of the last namespace. *)
Lemma grouped_bump l p ns x :
  grouped l (p ++ [ns]) -> n_namespace x.1 = ns_name ns ->
  grouped (l ++ [x]) (p ++ [mkNamespace (ns_name ns) (key_count ns + 1)]).
Proof.
  intros (Hs & Hm & Hl & _) Hx. apply StronglySorted_app in Hs as (Hlt & Hs & _).
  assert (ns ∈ p ++ [ns]) as Hin by (rewrite elem_of_app; right; left).
  pose proof (proj1 (Hm ns) Hin) as [Hc Hpos].
  assert (forall n, n ∈ p -> ns_name n <> ns_name ns) as Hne.
  { intros n Hn E. specialize (Hlt n ns Hn ltac:(left)). unfold ns_lt in Hlt.
    by rewrite (proj2 (bytes_compare_eq _ _) E) in Hlt. }
  split_and!.
  - apply StronglySorted_app. split_and!; [|done|repeat constructor].
    intros a b Ha Hb. apply list_elem_of_singleton in Hb as ->. apply (Hlt a ns Ha). left.
  - intros n. rewrite elem_of_app, list_elem_of_singleton, count_snoc, Hx. split.
    + intros [Hn | ->]; simpl.
      * rewrite bool_decide_eq_false_2 by (intros E; by apply (Hne n)). rewrite N.add_0_r. apply Hm.
        rewrite elem_of_app. by left.
      * rewrite bool_decide_eq_true_2 by done. lia.
    + destruct (decide (ns_name ns = ns_name n)) as [E|E].
      * rewrite bool_decide_eq_true_2 by done. intros [Hn _]. right. destruct n as [nm c]; simpl in *. subst nm.
        f_equal. lia.
      * rewrite bool_decide_eq_false_2, N.add_0_r by done. intros Hn. apply Hm in Hn.
        apply elem_of_app in Hn as [Hn | ->%list_elem_of_singleton]; [by left|done].
  - intros n. rewrite last_snoc. intros [= <-]. exists x. by rewrite last_snoc.
  - by rewrite last_snoc.
Qed.

(** An entry of a later namespace. *)
Lemma grouped_fresh l g x :
  grouped l g -> (forall y, y ∈ l -> item_le y x) ->
  (forall ns, last g = Some ns -> ns_name ns <> n_namespace x.1) ->
  grouped (l ++ [x]) (g ++ [mkNamespace (n_namespace x.1) 1]).
Proof.
  intros (Hs & Hm & Hl & Hn) Hle Hfresh.
  assert (forall a, a ∈ g -> bytes_compare (ns_name a) (n_namespace x.1) = Lt) as Hlt.
  { intros a Ha. destruct (last g) as [z|] eqn:El; [|apply last_None in El; subst; by apply elem_of_nil in Ha].
    destruct (Hl z eq_refl) as (y & Hy & Hyz).
    assert (bytes_compare (ns_name z) (n_namespace x.1) = Lt) as Hz.
    { destruct (item_le_namespace y x) as [H|H].
      - apply Hle. by apply last_Some_elem_of.
      - by rewrite <- Hyz.
      - exfalso. apply (Hfresh z eq_refl). congruence. }
    apply last_is_Some_snoc in El as [p ->]. apply elem_of_app in Ha as [Ha | ->%list_elem_of_singleton]; [|done].
    apply StronglySorted_app in Hs as (Hsz & _). specialize (Hsz a z Ha ltac:(left)).
    by eapply bytes_compare_trans. }
  assert (count (n_namespace x.1) l = 0) as Hc0.
  { destruct (N.eq_0_gt_0_cases (count (n_namespace x.1) l)) as [|Hp]; [done|].
    assert (mkNamespace (n_namespace x.1) (count (n_namespace x.1) l) ∈ g) as Hin by (by apply Hm).
    apply Hlt in Hin. simpl in Hin. by rewrite (proj2 (bytes_compare_eq _ _)) in Hin. }
  split_and!.
  - apply StronglySorted_app. split_and!; [|done|repeat constructor].
    intros a b Ha Hb. apply list_elem_of_singleton in Hb as ->. by apply Hlt.
  - intros n. rewrite elem_of_app, list_elem_of_singleton, count_snoc. split.
    + intros [Ha | ->]; simpl; [|rewrite bool_decide_eq_true_2 by done; lia].
      rewrite bool_decide_eq_false_2; [rewrite N.add_0_r; by apply Hm|].
      intros E. apply Hlt in Ha. by rewrite (proj2 (bytes_compare_eq _ _) (eq_sym E)) in Ha.
    + destruct (decide (n_namespace x.1 = ns_name n)) as [E|E].
      * rewrite bool_decide_eq_true_2 by done. intros [Ha _]. right. destruct n as [nm c]; simpl in *. subst nm.
        f_equal. lia.
      * rewrite bool_decide_eq_false_2, N.add_0_r by done. intros Ha. left. by apply Hm.
  - intros n. rewrite last_snoc. intros [= <-]. exists x. by rewrite last_snoc.
  - by rewrite last_snoc.
Qed.

Lemma absorb_groups l : StronglySorted item_le l -> grouped l (foldl absorb [] l).
Proof.
  induction l as [|x l IH] using rev_ind; intros Hs.
  { split_and!; [constructor| |done|done]. intros ns. split; [intros H; by apply elem_of_nil in H|].
    intros [H H']. unfold count in H. simpl in H. lia. }
  apply StronglySorted_app in Hs as (Hle & Hs & _). specialize (IH Hs). rewrite foldl_app. cbn [foldl].
  assert (forall y, y ∈ l -> item_le y x) as Hle' by (intros; apply Hle; [done|left]).
  destruct (last (foldl absorb [] l)) as [ns|] eqn:El.
  - pose proof El as El'. apply last_is_Some_snoc in El' as [p E]. rewrite E in *. rewrite absorb_snoc.
    destruct (bool_decide_reflect (ns_name ns = n_namespace x.1)) as [Ens|Ens].
    + by apply grouped_bump.
    + apply grouped_fresh; [done..|]. intros ns'. rewrite El. intros [= <-]. done.
  - unfold absorb at 1. rewrite El. apply grouped_fresh; [done..|]. by rewrite El.
Qed.

(** The entries the loop counts are those of the namespaces after the cursor. *)
Definition after (start_after : bytes) (x : KvName * KvRecord) : bool :=
  bool_decide (bytes_compare start_after (n_namespace x.1) = Lt).

Lemma beyond_range start_after l :
  List.filter (beyond start_after) (range_from (mkKvName start_after []) l) =
  List.filter (after start_after) l.
Proof.
  induction l as [|x l IH]; simpl; [done|].
  assert (after start_after x = name_leb (mkKvName start_after []) x.1 && beyond start_after x) as ->.
  { unfold after, beyond, name_leb, name_compare. simpl.
    destruct (bytes_compare start_after (n_namespace x.1)) eqn:E.
    - apply bytes_compare_eq in E. rewrite (bool_decide_eq_true_2 (_ = start_after)) by done.
      by rewrite andb_false_r.
    - rewrite (bool_decide_eq_false_2 (_ = start_after)); [done|]. intros E'.
      by rewrite (proj2 (bytes_compare_eq _ _) (eq_sym E')) in E.
    - done. }
  destruct (name_leb _ x.1); simpl; [|done]. by rewrite IH.
Qed.

Lemma count_after n start_after l :
  count n (List.filter (after start_after) l) =
  if bool_decide (bytes_compare start_after n = Lt) then count n l else 0.
Proof.
  induction l as [|x l IH] using rev_ind; [by destruct (bool_decide _)|].
  rewrite List.filter_app, (count_snoc n l). cbn [List.filter].
  destruct (decide (n_namespace x.1 = n)) as [<-|Hne].
  - unfold after at 2. destruct (bool_decide (bytes_compare start_after (n_namespace x.1) = Lt)) eqn:E.
    + rewrite count_snoc, IH, (bool_decide_eq_true_2 (_ = _)) by done. done.
    + by rewrite app_nil_r, IH.
  - rewrite (bool_decide_eq_false_2 (n_namespace x.1 = n)), N.add_0_r by done.
    destruct (after start_after x); [rewrite count_snoc|by rewrite app_nil_r].
    by rewrite IH, (bool_decide_eq_false_2 (n_namespace x.1 = n)), N.add_0_r by done.
Qed.

Lemma count_perm n l l' : l ≡ₚ l' -> count n l = count n l'.
Proof.
  intros H. unfold count. f_equal. induction H; simpl; repeat case_match; simpl; congruence.
Qed.

(** Namespace listing is exact: with fewer than 2^64 - 1 entries a page holds, in ascending
    order, the first [limit] namespaces after the cursor, each with its exact number of keys; the
    cursor is empty exactly when the page is the last one, and is otherwise its last name. *)
Theorem namespaces_are_counted st start_after limit
    (Hl : (0 < limit)%nat) (Hb : N.of_nat (size (entries st)) + 1 < two64) :
  exists full, namespaces st start_after limit = Some (Ok (namespace_page limit full)) /\
    StronglySorted ns_lt full /\
    forall ns, ns ∈ full <-> 0 < key_count ns /\ bytes_compare start_after (ns_name ns) = Lt /\
      key_count ns = count (ns_name ns) (map_to_list (entries st)).
Proof.
  set (F := List.filter (after start_after) (sorted_entries st)).
  assert (length (range_from (mkKvName start_after []) (sorted_entries st)) <= size (entries st))%nat as Hlen.
  { etrans; [apply filter_length_le|]. unfold sorted_entries.
    by rewrite merge_sort_Permutation, length_map_to_list. }
  exists (foldl absorb [] F).
  destruct (absorb_groups F) as (Hs & Hm & _); [apply filter_sorted, sorted_entries_sorted|].
  split_and!; [|done|].
  - unfold namespaces. rewrite namespaces_loop_spec; [by rewrite beyond_range|done|simpl; lia|done|lia].
  - intros ns. rewrite Hm. unfold F. rewrite count_after.
    rewrite (count_perm _ (sorted_entries st) (map_to_list (entries st))) by apply merge_sort_Permutation.
    destruct (bool_decide_reflect (bytes_compare start_after (ns_name ns) = Lt)); [naive_solver|].
    split; [lia|]. intros (_ & ? & _). done.
Qed.

Lemma namespaces_are_counted_witness :
  namespaces two_sessions [] 1 = Some (Ok ([mkNamespace [Byte.x6e] 1], [])).
Proof.
  destruct (namespaces_are_counted two_sessions [] 1 ltac:(lia) ltac:(vm_compute; reflexivity))
    as (full & E & _ & _).
  rewrite E. assert (Some (Ok (namespace_page 1 full)) =
    Some (Ok (E := ConnectError) ([mkNamespace [Byte.x6e] 1], []))) as H
    by (rewrite <- E; vm_compute; reflexivity). exact H.
Defined.
