(* ===== verification/WalFormat.v ===== *)
(** * WalFormat: the on-disk record format of the write-ahead log

    Models [basisdb-wal/src/record.rs], [error.rs] and [format.rs]: a record is a
    32-byte little-endian header (magic, version, kind, payload length, payload
    checksum, header checksum) and its payload.  CRC-32 comes from the [crc32fast]
    package and is the parameter [crc32] of class [Crc32]; all that is relied on is
    that it is a 32-bit value ([Crc32Laws]).  [usize] is 64 bits wide. *)

From S2P Require Import Prelude.

(** ** record.rs *)

Record Lsn : Type := mkLsn {
  segment_id : N;
  offset : N
}.

(** [RecordKind] is a non-zero [u16]. *)
Definition RecordKind : Type := N.

(** The source's [Record]. *)
Record WalRecord : Type := mkWalRecord {
  kind : RecordKind;
  payload : bytes
}.

Record StoredRecord : Type := mkStoredRecord {
  sr_lsn : Lsn;
  sr_record : WalRecord
}.

(** ** error.rs *)

Inductive Corruption : Type :=
| BadMagic (found : N)
| UnsupportedVersion (found : N)
| CorruptRecordKind
| HeaderChecksum
| PayloadChecksum
| CorruptRecordTooLarge (len segment_size : N)
| SegmentTooLarge (len segment_size : N)
| IncompleteRecord.

(** Paths are file names within the log's directory; the operating system's error
    is left out. *)
Inductive WalError : Type :=
| Io (path : bytes)
| ReservedRecordKind
| SegmentTooSmall (segment_size header_len : N)
| RecordTooLarge (len segment_size : N)
| WalFull (len max_size : N)
| PayloadTooLarge (len : N)
| SegmentIdExhausted
| CorruptRecord (lsn : Lsn) (reason : Corruption)
| BadSegmentName (path : bytes)
| MissingSegment (expected found : N)
| Locked
| Poisoned.

#[global] Instance Lsn_eq_dec : EqDecision Lsn.
Proof. solve_decision. Defined.
#[global] Instance WalRecord_eq_dec : EqDecision WalRecord.
Proof. solve_decision. Defined.
#[global] Instance StoredRecord_eq_dec : EqDecision StoredRecord.
Proof. solve_decision. Defined.

Definition RecordKind_new (value : N) : result RecordKind WalError :=
  if value =? 0 then Err ReservedRecordKind else Ok value.

(** ** Little-endian integers *)

Definition two32 : N := 4294967296.

Definition byte_of (n : N) : Byte.byte := default Byte.x00 (Byte.of_N (n mod 256)).

(** [to_le_bytes] of a [k]-byte integer. *)
Fixpoint to_le_bytes (k : nat) (n : N) : bytes :=
  match k with
  | O => []
  | S k' => byte_of n :: to_le_bytes k' (n / 256)
  end.

(** [from_le_bytes]. *)
Definition from_le_bytes (bs : bytes) : N := foldr (fun b v => Byte.to_N b + 256 * v) 0 bs.

Definition read_u16 (bs : bytes) (start : nat) : N := from_le_bytes (take 2 (drop start bs)).
Definition read_u32 (bs : bytes) (start : nat) : N := from_le_bytes (take 4 (drop start bs)).

(** ** format.rs *)

Definition MAGIC : N := 0x4339574c.
Definition VERSION : N := 1.
Definition HEADER_LEN : N := 32.
Definition HEADER_CRC_END : nat := 28.

(** [crc32fast]. *)
Class Crc32 : Type := crc32 : bytes -> N.
Class Crc32Laws `{Crc32} : Prop := crc32_u32 : forall bs, crc32 bs < two32.

Inductive ReadOne : Type :=
| ReadRecord (record : WalRecord) (next_offset : N)
| Eof
| Incomplete.

Inductive ReadExact : Type :=
| ReadComplete
| ReadEof
| ReadIncomplete.

(** The reader is a regular file: the bytes after its position.  The loop fills the
    buffer unless the file ends first; an interrupted read is retried. *)
Definition read_exact_or_tail (rest : bytes) (n : nat) : ReadExact * bytes * bytes :=
  if (n <=? length rest)%nat then (ReadComplete, take n rest, drop n rest)
  else match rest with
       | [] => (ReadEof, [], [])
       | _ => (ReadIncomplete, rest, [])
       end.

Definition encoded_len (payload_len : N) : result N WalError :=
  if two32 <=? payload_len then Err (PayloadTooLarge payload_len)
  else match checked_add HEADER_LEN payload_len with
       | Some len => Ok len
       | None => Err (PayloadTooLarge payload_len)
       end.

Section Format.

Context `{Crc : Crc32}.

(** The first 28 bytes of the header; bytes 16 to 27 stay zero. *)
Definition header_fields (k : RecordKind) (p : bytes) : bytes :=
  to_le_bytes 4 MAGIC ++ to_le_bytes 2 VERSION ++ to_le_bytes 2 k ++
  to_le_bytes 4 (N.of_nat (length p)) ++ to_le_bytes 4 (crc32 p) ++ replicate 12 Byte.x00.

Definition header (k : RecordKind) (p : bytes) : bytes :=
  header_fields k p ++ to_le_bytes 4 (crc32 (header_fields k p)).

Definition encode_record (k : RecordKind) (p : bytes) : result bytes WalError :=
  let? _ := encoded_len (N.of_nat (length p)) in
  if two32 <=? N.of_nat (length p) then Err (PayloadTooLarge (N.of_nat (length p)))
  else Ok (header k p ++ p).

Definition decode_header (h : bytes) (lsn : Lsn) : result RecordKind WalError :=
  let magic := read_u32 h 0 in
  if negb (magic =? MAGIC) then Err (CorruptRecord lsn (BadMagic magic))
  else
    let version := read_u16 h 4 in
    if negb (version =? VERSION) then Err (CorruptRecord lsn (UnsupportedVersion version))
    else if negb (crc32 (take HEADER_CRC_END h) =? read_u32 h 28)
    then Err (CorruptRecord lsn HeaderChecksum)
    else match RecordKind_new (read_u16 h 6) with
         | Ok k => Ok k
         | Err _ => Err (CorruptRecord lsn CorruptRecordKind)
         end.

(** Returns the outcome and the reader after it. *)
Definition read_one (rest : bytes) (lsn : Lsn) (segment_size physical_len : N)
  : result (ReadOne * bytes) WalError :=
  let '(r, h, rest) := read_exact_or_tail rest (N.to_nat HEADER_LEN) in
  match r with
  | ReadEof => Ok (Eof, rest)
  | ReadIncomplete => Ok (Incomplete, rest)
  | ReadComplete =>
      let? k := decode_header h lsn in
      let payload_len := read_u32 h 8 in
      match checked_add HEADER_LEN payload_len with
      | None => Err (CorruptRecord lsn (CorruptRecordTooLarge u64_max segment_size))
      | Some record_len =>
          if segment_size <? record_len
          then Err (CorruptRecord lsn (CorruptRecordTooLarge record_len segment_size))
          else
            match checked_add (offset lsn) record_len with
            | None => Err (CorruptRecord lsn (SegmentTooLarge u64_max segment_size))
            | Some next_offset =>
                if segment_size <? next_offset
                then Err (CorruptRecord lsn (SegmentTooLarge next_offset segment_size))
                else if physical_len <? next_offset then Ok (Incomplete, rest)
                else
                  let '(r, p, rest) := read_exact_or_tail rest (N.to_nat payload_len) in
                  match r with
                  | ReadComplete =>
                      if negb (crc32 p =? read_u32 h 12)
                      then Err (CorruptRecord lsn PayloadChecksum)
                      else Ok (ReadRecord (mkWalRecord k p) next_offset, rest)
                  | _ => Ok (Incomplete, rest)
                  end
            end
      end
  end.

End Format.

(** ** Integer lemmas *)

Lemma byte_of_to_N n : Byte.to_N (byte_of n) = n mod 256.
Proof.
  unfold byte_of. pose proof (N.mod_lt n 256 ltac:(lia)) as Hlt.
  destruct (Byte.of_N (n mod 256)) as [b|] eqn:E; simpl.
  - by apply Byte.to_of_N.
  - apply Byte.of_N_None_iff in E. lia.
Qed.

Lemma from_to_le_bytes k n : n < 256 ^ N.of_nat k -> from_le_bytes (to_le_bytes k n) = n.
Proof.
  unfold from_le_bytes. revert n. induction k as [|k IH]; intros n Hn.
  - simpl in *. lia.
  - cbn [to_le_bytes foldr]. rewrite byte_of_to_N, IH.
    + symmetry. rewrite N.add_comm. apply N.div_mod'.
    + rewrite Nat2N.inj_succ, N.pow_succ_r' in Hn. apply N.Div0.div_lt_upper_bound. lia.
Qed.

Lemma to_le_bytes_length k n : length (to_le_bytes k n) = k.
Proof. revert n. induction k as [|k IH]; intros n; simpl; [done|]. by rewrite IH. Qed.

(** ** Reading back what was encoded *)

(** A record the format can represent. *)
Definition valid_record (r : WalRecord) : Prop :=
  1 <= kind r < 65536 /\ N.of_nat (length (payload r)) < two32.

Definition record_len (r : WalRecord) : N := HEADER_LEN + N.of_nat (length (payload r)).

Section Facts.

Context {Crc : Crc32} {HCrc : Crc32Laws}.

Definition encoding (r : WalRecord) : bytes := header (kind r) (payload r) ++ payload r.

Lemma header_length k p : length (header k p) = 32%nat.
Proof. reflexivity. Qed.

Lemma encoding_length r : N.of_nat (length (encoding r)) = record_len r.
Proof. unfold encoding, record_len, HEADER_LEN. rewrite length_app, header_length. lia. Qed.

Lemma encode_record_Ok r : valid_record r ->
  encode_record (kind r) (payload r) = Ok (encoding r) /\
  encoded_len (N.of_nat (length (payload r))) = Ok (record_len r).
Proof.
  intros [_ Hl]. unfold encode_record, encoded_len. rewrite (proj2 (N.leb_gt _ _)) by done.
  unfold checked_add, record_len.
  rewrite (proj2 (N.ltb_lt _ _)) by (unfold HEADER_LEN, two32, two64 in *; lia). done.
Qed.

Lemma encode_record_inv k p bs : encode_record k p = Ok bs ->
  N.of_nat (length p) < two32 /\ bs = encoding (mkWalRecord k p).
Proof.
  unfold encode_record, encoded_len. destruct (N.leb_spec two32 (N.of_nat (length p))); [done|].
  destruct (checked_add _ _); intros; by simplify_eq.
Qed.

Lemma decode_header_Ok r lsn : valid_record r ->
  decode_header (header (kind r) (payload r)) lsn = Ok (kind r).
Proof.
  intros [[Hk Hk'] _]. unfold decode_header.
  change (read_u32 (header (kind r) (payload r)) 0) with MAGIC.
  change (read_u16 (header (kind r) (payload r)) 4) with VERSION.
  change (take HEADER_CRC_END (header (kind r) (payload r))) with (header_fields (kind r) (payload r)).
  change (read_u32 (header (kind r) (payload r)) 28)
    with (from_le_bytes (to_le_bytes 4 (crc32 (header_fields (kind r) (payload r))))).
  change (read_u16 (header (kind r) (payload r)) 6) with (from_le_bytes (to_le_bytes 2 (kind r))).
  rewrite !from_to_le_bytes by (apply crc32_u32 || done).
  rewrite !N.eqb_refl. unfold RecordKind_new. simpl.
  by rewrite (proj2 (N.eqb_neq _ _)) by lia.
Qed.

Lemma header_payload_len r : valid_record r ->
  read_u32 (header (kind r) (payload r)) 8 = N.of_nat (length (payload r)).
Proof.
  intros [_ Hl].
  change (read_u32 (header (kind r) (payload r)) 8)
    with (from_le_bytes (to_le_bytes 4 (N.of_nat (length (payload r))))).
  by apply from_to_le_bytes.
Qed.

Lemma header_payload_crc k p : read_u32 (header k p) 12 = crc32 p.
Proof.
  change (read_u32 (header k p) 12) with (from_le_bytes (to_le_bytes 4 (crc32 p))).
  apply from_to_le_bytes, crc32_u32.
Qed.

Lemma read_exact_app n (a b : bytes) :
  length a = n -> read_exact_or_tail (a ++ b) n = (ReadComplete, a, b).
Proof.
  intros <-. unfold read_exact_or_tail. rewrite (proj2 (Nat.leb_le _ _)) by (rewrite length_app; lia).
  by rewrite take_app_length, drop_app_length.
Qed.

(** Behind a whole header of [r], the rest of [read_one] depends on the lengths only. *)
Lemma read_one_header r rest lsn size physical : valid_record r ->
  offset lsn + record_len r <= size -> size < two64 ->
  read_one (header (kind r) (payload r) ++ rest) lsn size physical =
  if physical <? offset lsn + record_len r then Ok (Incomplete, rest)
  else let '(x, p, rest') := read_exact_or_tail rest (length (payload r)) in
       match x with
       | ReadComplete => if negb (crc32 p =? crc32 (payload r))
                         then Err (CorruptRecord lsn PayloadChecksum)
                         else Ok (ReadRecord (mkWalRecord (kind r) p) (offset lsn + record_len r), rest')
       | _ => Ok (Incomplete, rest')
       end.
Proof.
  intros Hv Hfit Hsize. unfold read_one.
  rewrite (read_exact_app (N.to_nat HEADER_LEN)) by reflexivity.
  rewrite (decode_header_Ok r lsn Hv), (header_payload_len r Hv), header_payload_crc.
  fold (record_len r). unfold checked_add. fold (record_len r).
  rewrite (proj2 (N.ltb_lt _ _)) by lia.
  rewrite (proj2 (N.ltb_ge _ _)) by lia. rewrite (proj2 (N.ltb_lt _ _)) by lia.
  rewrite (proj2 (N.ltb_ge size _)) by lia. by rewrite Nat2N.id.
Qed.

(** A whole record is read back. *)
Lemma read_one_encoding r rest lsn size physical : valid_record r ->
  offset lsn + record_len r <= size -> size < two64 -> offset lsn + record_len r <= physical ->
  read_one (encoding r ++ rest) lsn size physical =
  Ok (ReadRecord r (offset lsn + record_len r), rest).
Proof.
  intros Hv Hfit Hsize Hp. unfold encoding. rewrite <- app_assoc, read_one_header by done.
  rewrite (proj2 (N.ltb_ge _ _)) by lia. rewrite read_exact_app by done.
  rewrite N.eqb_refl. by destruct r.
Qed.

(** A record cut short is reported as incomplete, never as corrupt. *)
Lemma read_one_torn r n lsn size physical : valid_record r ->
  offset lsn + record_len r <= size -> size < two64 ->
  (0 < n < length (encoding r))%nat -> physical = offset lsn + N.of_nat n ->
  exists rest, read_one (take n (encoding r)) lsn size physical = Ok (Incomplete, rest).
Proof.
  intros Hv Hfit Hsize Hn ->. destruct (Nat.lt_ge_cases n 32) as [Hlt|Hge].
  - unfold read_one, read_exact_or_tail.
    rewrite (proj2 (Nat.leb_gt _ _)) by (rewrite length_take; change (N.to_nat HEADER_LEN) with 32%nat; lia).
    destruct (take n (encoding r)) eqn:E; [|eauto].
    apply (f_equal length) in E. rewrite length_take in E. simpl in E. lia.
  - unfold encoding. rewrite take_app_ge by (rewrite header_length; lia).
    rewrite read_one_header by done. pose proof (encoding_length r).
    rewrite (proj2 (N.ltb_lt _ _)) by lia. eauto.
Qed.

Lemma read_one_nil lsn size physical : read_one [] lsn size physical = Ok (Eof, []).
Proof. reflexivity. Qed.

End Facts.

(** C26. The record format: encoding a record with a non-zero 16-bit kind and a payload
    shorter than 4 GiB succeeds with a length of 32 plus the payload's; reading it back
    where it fits its segment gives the same record, the offset after it and the bytes
    after it; a record cut anywhere is end-of-file or incomplete, never a record and
    never an error; and a payload of the right length with another checksum is an error. *)
Theorem record_format_roundtrip `{HL : Crc32Laws} r lsn size rest
    (Hv : valid_record r) (Hfit : offset lsn + record_len r <= size) (Hsize : size < two64) :
  exists bs, encode_record (kind r) (payload r) = Ok bs /\ N.of_nat (length bs) = record_len r /\
    (forall physical, offset lsn + record_len r <= physical ->
       read_one (bs ++ rest) lsn size physical =
       Ok (ReadRecord r (offset lsn + record_len r), rest)) /\
    (forall n, (n < length bs)%nat ->
       exists rest', read_one (take n bs) lsn size (offset lsn + N.of_nat n) =
                     Ok (match n with O => Eof | _ => Incomplete end, rest')) /\
    (forall p physical, length p = length (payload r) -> crc32 p <> crc32 (payload r) ->
       offset lsn + record_len r <= physical ->
       read_one (take 32 bs ++ p ++ rest) lsn size physical =
       Err (CorruptRecord lsn PayloadChecksum)).
Proof.
  exists (encoding r). split_and!.
  - by apply encode_record_Ok.
  - apply encoding_length.
  - intros. by apply read_one_encoding.
  - intros [|n] Hn; [exists []; apply read_one_nil|]. by eapply read_one_torn; [| | |lia|].
  - intros p physical Hl Hc Hp. unfold encoding.
    rewrite (take_app_le _ _ 32), take_ge by (rewrite header_length; lia).
    rewrite read_one_header by done. rewrite (proj2 (N.ltb_ge _ _)) by lia.
    rewrite read_exact_app by done. by rewrite (proj2 (N.eqb_neq _ _)) by done.
Qed.

(** CRC-32 of IEEE 802.3 (the polynomial [crc32fast] documents), bit by bit, as the
    checksum of the witnesses. *)
Fixpoint crc_bits (k : nat) (v : N) : N :=
  match k with
  | O => v
  | S k' => crc_bits k' (if N.testbit v 0 then N.lxor (N.shiftr v 1) 0xEDB88320 else N.shiftr v 1)
  end.

Definition ieee_crc32 (bs : bytes) : N :=
  N.lxor (foldl (fun v b => crc_bits 8 (N.lxor v (Byte.to_N b))) 0xFFFFFFFF bs) 0xFFFFFFFF mod two32.

#[export] Instance ieee_crc : Crc32 := ieee_crc32.
#[export] Instance ieee_crc_laws : Crc32Laws.
Proof. intros bs. apply N.mod_lt. discriminate. Qed.

Definition demo_record : WalRecord := mkWalRecord 7 [Byte.x61; Byte.x62; Byte.x63].

Lemma record_format_roundtrip_witness :
  crc32 (payload demo_record) = 0x352441C2 /\
  exists bs, encode_record 7 (payload demo_record) = Ok bs /\
    read_one (bs ++ [Byte.x00]) (mkLsn 0 0) 64 36 = Ok (ReadRecord demo_record 35, [Byte.x00]).
Proof.
  split; [vm_compute; reflexivity|].
  destruct (record_format_roundtrip demo_record (mkLsn 0 0) 64 [Byte.x00]) as (bs & He & _ & Hr & _).
  - split; [split; [discriminate|reflexivity]|reflexivity].
  - vm_compute. discriminate.
  - reflexivity.
  - exists bs. split; [exact He|]. apply Hr. vm_compute. discriminate.
Defined.
