(* ===== verification/Segment.v ===== *)
(** * Segment: segment files, their directory and its recovery

    Models [basisdb-wal/src/segment.rs].  The log's directory is a map from file
    names to files.  A file has its contents, the number of bytes that have reached
    stable storage and whether its directory entry has.  Which input/output calls fail
    is an explicit argument ([Faults]).  Creating the directory and making paths
    absolute are left out. *)

From S2P Require Import Prelude.
From S2P Require Import WalFormat.

(** ** The directory *)

Record WalFile : Type := mkWalFile {
  data : bytes;
  stable : nat;   (* bytes on stable storage *)
  linked : bool   (* the directory entry is on stable storage *)
}.

Abbreviation Dir := (gmap bytes WalFile).

(** Which calls of an operation succeed; [write_limit] is the number of bytes written
    before a write fails. *)
Record Faults : Type := mkFaults {
  rotate_sync_ok : bool;
  create_ok : bool;
  sync_dir_ok : bool;
  write_limit : option nat;
  sync_ok : bool;
  truncate_ok : bool
}.

Definition no_faults : Faults := mkFaults true true true None true true.

(** ** File names *)

Definition dot : Byte.byte := Byte.x2e.
Definition SEGMENT_SUFFIX : bytes := [Byte.x77; Byte.x61; Byte.x6c].
Definition LOCK_FILE : bytes := [Byte.x4c; Byte.x4f; Byte.x43; Byte.x4b].

(** The parts before and after the last dot. *)
Fixpoint rsplit_dot (name : bytes) : option (bytes * bytes) :=
  match name with
  | [] => None
  | b :: name' =>
      match rsplit_dot name' with
      | Some (x, y) => Some (b :: x, y)
      | None => if bool_decide (b = dot) then Some ([], name') else None
      end
  end.

(** [Path::extension] and [Path::file_stem]. *)
Definition extension (name : bytes) : option bytes :=
  match rsplit_dot name with
  | Some (_ :: _, ext) => Some ext
  | _ => None
  end.

Definition file_stem (name : bytes) : bytes :=
  match rsplit_dot name with
  | Some ((_ :: _) as stem, _) => stem
  | _ => name
  end.

(** [str::parse::<u64>]: an optional plus sign and at least one digit. *)
Fixpoint parse_digits (v : N) (bs : bytes) : option N :=
  match bs with
  | [] => Some v
  | b :: bs' =>
      if (48 <=? Byte.to_N b) && (Byte.to_N b <=? 57) then
        let v' := 10 * v + digit_value b in
        if v' <? two64 then parse_digits v' bs' else None
      else None
  end.

Definition parse_u64 (bs : bytes) : option N :=
  match bs with
  | [] => None
  | b :: bs' =>
      if bool_decide (b = Byte.x2b) then
        match bs' with [] => None | _ => parse_digits 0 bs' end
      else parse_digits 0 bs
  end.

(** [format!] with [{:020}]. *)
Fixpoint pad_digits (k : nat) (n : N) : bytes :=
  match k with
  | O => []
  | S k' => pad_digits k' (n / 10) ++ [digit (n mod 10)]
  end.

Definition segment_path (id : N) : bytes := pad_digits 20 id ++ dot :: SEGMENT_SUFFIX.

(** The source's [segment_id]. *)
Definition parse_segment_id (name : bytes) : result N WalError :=
  match parse_u64 (file_stem name) with
  | Some id => Ok id
  | None => Err (BadSegmentName name)
  end.

(** The loop of [segment_ids] over the directory. *)
Fixpoint collect_ids (names : list bytes) : result (list N) WalError :=
  match names with
  | [] => Ok []
  | name :: names' =>
      if bool_decide (extension name = Some SEGMENT_SUFFIX) then
        let? id := parse_segment_id name in
        let? ids := collect_ids names' in
        Ok (id :: ids)
      else collect_ids names'
  end.

(** Its loop over the sorted ids. *)
Fixpoint check_ids (expected : N) (ids : list N) : result unit WalError :=
  match ids with
  | [] => Ok tt
  | found :: ids' =>
      if negb (found =? expected) then Err (MissingSegment expected found)
      else check_ids (expected + 1) ids'
  end.

Definition segment_ids (dir : Dir) : result (list N) WalError :=
  let? ids := collect_ids (map_to_list dir).*1 in
  let ids := merge_sort N.le ids in
  let? _ := check_ids 0 ids in
  Ok ids.

(** ** File operations *)

Definition new_file : WalFile := mkWalFile [] 0 false.

Definition open_segment (dir : Dir) (id : N) (ok : bool) : Dir * result unit WalError :=
  let path := segment_path id in
  if ok then
    (match dir !! path with Some _ => dir | None => <[path := new_file]> dir end, Ok tt)
  else (dir, Err (Io path)).

Definition link (f : WalFile) : WalFile := mkWalFile (data f) (stable f) true.

Definition sync_dir (dir : Dir) (ok : bool) : Dir * result unit WalError :=
  if ok then (link <$> dir, Ok tt) else (dir, Err (Io [])).

(** [File::sync_all]. *)
Definition sync_all (f : WalFile) : WalFile := mkWalFile (data f) (length (data f)) (linked f).

Definition truncate_segment (dir : Dir) (id len : N) (f : Faults) : Dir * result unit WalError :=
  let path := segment_path id in
  match dir !! path with
  | None => (dir, Err (Io path))
  | Some file =>
      if truncate_ok f then
        let file := mkWalFile (take (N.to_nat len) (data file))
                      (stable file `min` N.to_nat len) (linked file) in
        if sync_ok f then (<[path := sync_all file]> dir, Ok tt)
        else (<[path := file]> dir, Err (Io path))
      else (dir, Err (Io path))
  end.

Definition segment_len (dir : Dir) (id : N) : result N WalError :=
  match dir !! segment_path id with
  | Some f => Ok (N.of_nat (length (data f)))
  | None => Err (Io (segment_path id))
  end.

(** The [try_fold] of [total_len]. *)
Fixpoint sum_lens (dir : Dir) (total : N) (ids : list N) : result N WalError :=
  match ids with
  | [] => Ok total
  | id :: ids' =>
      let? len := segment_len dir id in
      match checked_add total len with
      | Some total => sum_lens dir total ids'
      | None => Err (WalFull u64_max u64_max)
      end
  end.

Definition total_len (dir : Dir) : result N WalError :=
  let? ids := segment_ids dir in sum_lens dir 0 ids.

(** [lock]: the lock file is created, and held by at most one writer. *)
Definition lock (dir : Dir) (held : bool) (ok : bool) : Dir * result unit WalError :=
  if ok then
    let dir := match dir !! LOCK_FILE with Some _ => dir | None => <[LOCK_FILE := new_file]> dir end in
    (dir, if held then Err Locked else Ok tt)
  else (dir, Err (Io LOCK_FILE)).

(** ** Scanning *)

Inductive SegmentScan : Type :=
| Clean (len : N)
| IncompleteTail (len : N).

Record SegmentReader : Type := mkSegmentReader {
  r_segment_id : N;
  r_segment_size : N;
  physical_len : N;
  r_offset : N;
  file : bytes
}.

Section Scan.

Context `{Crc : Crc32}.

(** The loop of [valid_len]; every record consumes at least its header. *)
Fixpoint scan (fuel : nat) (rest : bytes) (id offset segment_size physical : N)
  : result SegmentScan WalError :=
  match fuel with
  | O => Ok (Clean offset)
  | S fuel' =>
      let? r := read_one rest (mkLsn id offset) segment_size physical in
      match r with
      | (ReadRecord _ next_offset, rest') => scan fuel' rest' id next_offset segment_size physical
      | (Eof, _) => Ok (Clean offset)
      | (Incomplete, _) => Ok (IncompleteTail offset)
      end
  end.

Definition valid_len (dir : Dir) (id segment_size : N) : result SegmentScan WalError :=
  match dir !! segment_path id with
  | None => Err (Io (segment_path id))
  | Some f => scan (S (length (data f))) (data f) id 0 segment_size (N.of_nat (length (data f)))
  end.

(** [SegmentReader::open] and [next_record]. *)
Definition reader_open (dir : Dir) (id segment_size : N) : result SegmentReader WalError :=
  match dir !! segment_path id with
  | None => Err (Io (segment_path id))
  | Some f => Ok (mkSegmentReader id segment_size (N.of_nat (length (data f))) 0 (data f))
  end.

Definition next_record (s : SegmentReader) : SegmentReader * result (option StoredRecord) WalError :=
  let lsn := mkLsn (r_segment_id s) (r_offset s) in
  match read_one (file s) lsn (r_segment_size s) (physical_len s) with
  | Err e => (s, Err e)
  | Ok (ReadRecord record next_offset, rest) =>
      (mkSegmentReader (r_segment_id s) (r_segment_size s) (physical_len s) next_offset rest,
       Ok (Some (mkStoredRecord lsn record)))
  | Ok (Eof, _) => (s, Ok None)
  | Ok (Incomplete, _) => (s, Err (CorruptRecord lsn IncompleteRecord))
  end.

(** The loop of [recover] over the segments. *)
Fixpoint recover_loop (dir : Dir) (ids : list N) (segment_size : N) (f : Faults)
  : Dir * result (option (N * N)) WalError :=
  match ids with
  | [] => (dir, Ok None)
  | id :: ids' =>
      match valid_len dir id segment_size with
      | Err e => (dir, Err e)
      | Ok (Clean len) =>
          match ids' with
          | [] => (dir, Ok (Some (id, len)))
          | _ => recover_loop dir ids' segment_size f
          end
      | Ok (IncompleteTail len) =>
          match ids' with
          | [] =>
              let '(dir, r) := truncate_segment dir id len f in
              (dir, let? _ := r in Ok (Some (id, len)))
          | _ => (dir, Err (CorruptRecord (mkLsn id len) IncompleteRecord))
          end
      end
  end.

(** The creation of the first segment. *)
Definition create_first (dir : Dir) (f : Faults) : Dir * result unit WalError :=
  if create_ok f then sync_dir (<[segment_path 0 := new_file]> dir) (sync_dir_ok f)
  else (dir, Err (Io (segment_path 0))).

Definition recover (dir : Dir) (segment_size : N) (f : Faults) : Dir * result (N * N) WalError :=
  match segment_ids dir with
  | Err e => (dir, Err e)
  | Ok ids =>
      let '(dir, created) := match ids with [] => create_first dir f | _ => (dir, Ok tt) end in
      let ids := match ids with [] => [0] | _ => ids end in
      match created with
      | Err e => (dir, Err e)
      | Ok _ =>
          let '(dir, r) := recover_loop dir ids segment_size f in
          (dir, let? found := r in
                match found with
                | Some x => Ok x
                | None =>
                    match last ids with
                    | None => Err SegmentIdExhausted
                    | Some id => let? len := segment_len dir id in Ok (id, len)
                    end
                end)
      end
  end.

End Scan.

(** ** Segment names *)

Definition is_digit (b : Byte.byte) : bool := (48 <=? Byte.to_N b) && (Byte.to_N b <=? 57).

Lemma digit_is_digit d : d < 10 -> is_digit (digit d) = true.
Proof.
  intros Hd. assert (d = 0 \/ d = 1 \/ d = 2 \/ d = 3 \/ d = 4 \/ d = 5 \/ d = 6 \/ d = 7 \/
    d = 8 \/ d = 9) as Hc by lia.
  destruct_or! Hc; subst; reflexivity.
Qed.

Lemma pad_digits_digits k n : Forall (fun b => is_digit b = true) (pad_digits k n).
Proof.
  revert n. induction k as [|k IH]; intros n; simpl; [constructor|].
  apply Forall_app. split; [apply IH|]. constructor; [|constructor].
  apply digit_is_digit, div_mod_10.
Qed.

Lemma pad_digits_length k n : length (pad_digits k n) = k.
Proof. revert n. induction k; intros n; simpl; [done|]. rewrite length_app, IHk. simpl. lia. Qed.

Lemma parse_digits_app v a b :
  parse_digits v (a ++ b) = match parse_digits v a with Some v' => parse_digits v' b | None => None end.
Proof.
  revert v. induction a as [|x a IH]; intros v; [done|]. cbn [parse_digits app].
  destruct (_ && _); [|done]. cbv zeta. destruct (_ <? _); [apply IH|done].
Qed.

Lemma parse_pad_digits k n :
  n < 10 ^ N.of_nat k -> u64 n -> parse_digits 0 (pad_digits k n) = Some n.
Proof.
  unfold u64. revert n. induction k as [|k IH]; intros n Hn Hu.
  - simpl in *. f_equal. lia.
  - cbn [pad_digits]. destruct (div_mod_10 n) as [Hdm Hm].
    rewrite parse_digits_app, IH; [|..].
    + cbn [parse_digits]. fold (is_digit (digit (n mod 10))). rewrite digit_is_digit by done.
      cbv zeta. rewrite digit_value_digit by done. rewrite Hdm, (proj2 (N.ltb_lt _ _)); done.
    + rewrite Nat2N.inj_succ, N.pow_succ_r' in Hn. apply N.Div0.div_lt_upper_bound. lia.
    + eapply N.le_lt_trans; [|exact Hu]. apply N.Div0.div_le_upper_bound. lia.
Qed.

Lemma rsplit_dot_None name : Forall (fun b => b <> dot) name -> rsplit_dot name = None.
Proof.
  induction 1 as [|b name Hb _ IH]; [done|]. simpl. rewrite IH. by rewrite bool_decide_eq_false_2.
Qed.

Lemma rsplit_dot_app a b :
  Forall (fun b => b <> dot) b -> rsplit_dot (a ++ dot :: b) = Some (a, b).
Proof.
  intros Hb. induction a as [|x a IH]; simpl.
  - rewrite rsplit_dot_None by done. done.
  - by rewrite IH.
Qed.

Lemma segment_path_split id : rsplit_dot (segment_path id) = Some (pad_digits 20 id, SEGMENT_SUFFIX).
Proof. apply rsplit_dot_app. repeat constructor; discriminate. Qed.

Lemma segment_path_extension id : extension (segment_path id) = Some SEGMENT_SUFFIX.
Proof.
  unfold extension. rewrite segment_path_split. pose proof (pad_digits_length 20 id).
  by destruct (pad_digits 20 id).
Qed.

(** The name printed for a segment is read back as its id. *)
Lemma parse_segment_path id : u64 id -> parse_segment_id (segment_path id) = Ok id.
Proof.
  intros Hu. unfold parse_segment_id, file_stem. rewrite segment_path_split.
  pose proof (pad_digits_length 20 id) as Hl. pose proof (pad_digits_digits 20 id) as Hd.
  assert (parse_digits 0 (pad_digits 20 id) = Some id) as Hp.
  { apply parse_pad_digits; [|done]. eapply N.lt_le_trans; [exact Hu|]. by vm_compute. }
  destruct (pad_digits 20 id) as [|b bs] eqn:E; [done|].
  unfold parse_u64. rewrite bool_decide_eq_false_2; [by rewrite Hp|].
  intros ->. apply Forall_cons in Hd as [Hd _]. discriminate.
Qed.

Lemma segment_path_inj i j : u64 i -> u64 j -> segment_path i = segment_path j -> i = j.
Proof.
  intros Hi Hj Heq. pose proof (parse_segment_path i Hi) as H1.
  rewrite Heq, parse_segment_path in H1 by done. by simplify_eq.
Qed.

Lemma LOCK_FILE_extension : extension LOCK_FILE = None.
Proof. reflexivity. Qed.

(** ** The segment files of a directory

    [dir_holds dir fs]: the segment files of [dir] are [fs], numbered from 0. *)
Record dir_holds (dir : Dir) (fs : list WalFile) : Prop := mkDirHolds {
  holds_files : forall i f, fs !! i = Some f -> dir !! segment_path (N.of_nat i) = Some f;
  holds_names : forall name, extension name = Some SEGMENT_SUFFIX -> is_Some (dir !! name) ->
    exists i, (i < length fs)%nat /\ name = segment_path (N.of_nat i);
  holds_bound : N.of_nat (length fs) <= two64
}.

Lemma check_ids_seqN a n : check_ids a (seqN a n) = Ok tt.
Proof.
  revert a. induction n as [|n IH]; intros a; [done|].
  rewrite seqN_cons. simpl. rewrite N.eqb_refl. apply IH.
Qed.

Lemma seqN_sorted a n : Sorted N.le (seqN a n).
Proof.
  apply StronglySorted_Sorted. revert a. induction n as [|n IH]; intros a; [constructor|].
  rewrite seqN_S. apply StronglySorted_app_2; [|apply IH|repeat constructor].
  intros x y Hx Hy. apply elem_of_seqN in Hx. apply list_elem_of_singleton in Hy. lia.
Qed.

Lemma collect_ids_filter names ids :
  filter (fun name => extension name = Some SEGMENT_SUFFIX) names = segment_path <$> ids ->
  Forall u64 ids -> collect_ids names = Ok ids.
Proof.
  revert ids. induction names as [|name names IH]; intros ids Heq Hu; simpl.
  - by destruct ids.
  - rewrite filter_cons in Heq. case_decide as Hd.
    + rewrite bool_decide_eq_true_2 by done.
      destruct ids as [|id ids]; [done|]. simpl in Heq. injection Heq as -> Heq.
      apply Forall_cons in Hu as [Hi Hu]. by rewrite parse_segment_path, (IH ids).
    + rewrite bool_decide_eq_false_2 by done. by apply IH.
Qed.

(** [segment_ids] lists exactly the segments. *)
Lemma segment_ids_Ok dir fs : dir_holds dir fs -> segment_ids dir = Ok (seqN 0 (length fs)).
Proof.
  intros [Hf Hn Hb].
  assert (filter (fun name => extension name = Some SEGMENT_SUFFIX) (map_to_list dir).*1 ≡ₚ
          segment_path <$> seqN 0 (length fs)) as Hp.
  { apply NoDup_Permutation.
    - apply NoDup_filter, NoDup_fst_map_to_list.
    - apply NoDup_fmap_2_strong.
      + intros x y Hx Hy. apply elem_of_seqN in Hx, Hy. apply segment_path_inj; unfold u64; lia.
      + apply NoDup_fmap_2, NoDup_seq. intros x y. lia.
    - intros name. rewrite list_elem_of_filter, !list_elem_of_fmap. split.
      + intros (He & [nm f] & -> & Hin). apply elem_of_map_to_list in Hin.
        destruct (Hn nm He) as (i & Hi & ->); [by eexists|]. exists (N.of_nat i).
        rewrite elem_of_seqN. split; [done|lia].
      + intros (i & -> & Hi). rewrite elem_of_seqN in Hi. split; [apply segment_path_extension|].
        destruct (lookup_lt_is_Some_2 fs (N.to_nat i)) as [f Hlk]; [lia|].
        apply Hf in Hlk. rewrite N2Nat.id in Hlk. exists (segment_path i, f).
        split; [done|]. by apply elem_of_map_to_list. }
  apply Permutation_map_inv in Hp as (ids & Heq & Hids).
  unfold segment_ids. rewrite (collect_ids_filter _ ids).
  - assert (merge_sort N.le ids = seqN 0 (length fs)) as ->.
    { apply (Sorted_unique N.le); [apply Sorted_merge_sort; apply _|apply seqN_sorted|].
      by rewrite merge_sort_Permutation, Hids. }
    by rewrite check_ids_seqN.
  - done.
  - apply Forall_forall. intros i Hi. rewrite <- Hids in Hi. apply elem_of_seqN in Hi. unfold u64. lia.
Qed.

Lemma dir_holds_lookup dir fs i f :
  dir_holds dir fs -> fs !! N.to_nat i = Some f -> dir !! segment_path i = Some f.
Proof. intros H Hi. apply (holds_files _ _ H) in Hi. by rewrite N2Nat.id in Hi. Qed.

(** Writing a segment file. *)
Lemma dir_holds_insert dir fs i f :
  dir_holds dir fs -> (N.to_nat i < length fs)%nat ->
  dir_holds (<[segment_path i := f]> dir) (<[N.to_nat i := f]> fs).
Proof.
  intros [Hf Hn Hb] Hi. constructor.
  - intros j g Hj. destruct (decide (j = N.to_nat i)) as [->|Hne].
    + rewrite list_lookup_insert_eq in Hj by done. rewrite N2Nat.id, lookup_insert_eq. congruence.
    + rewrite list_lookup_insert_ne in Hj by done. rewrite lookup_insert_ne; [by apply Hf|].
      intros Heq. apply segment_path_inj in Heq; [lia|unfold u64; lia|].
      apply lookup_lt_Some in Hj. unfold u64. lia.
  - intros name He Hs. rewrite length_insert.
    destruct (decide (name = segment_path i)) as [->|Hne].
    + exists (N.to_nat i). by rewrite N2Nat.id.
    + rewrite lookup_insert_ne in Hs by done. by apply Hn.
  - by rewrite length_insert.
Qed.

(** Creating the next segment file. *)
Lemma dir_holds_create dir fs f :
  dir_holds dir fs -> N.of_nat (length fs) < two64 ->
  dir_holds (<[segment_path (N.of_nat (length fs)) := f]> dir) (fs ++ [f]).
Proof.
  intros [Hf Hn Hb] Hb'. constructor.
  - intros j g Hj. apply lookup_snoc_Some in Hj as [[Hlt Hj]|[-> ->]].
    + rewrite lookup_insert_ne; [by apply Hf|]. intros Heq.
      apply segment_path_inj in Heq; [lia|unfold u64; lia..].
    + by rewrite lookup_insert_eq.
  - intros name He Hs. rewrite length_app. simpl.
    destruct (decide (name = segment_path (N.of_nat (length fs)))) as [->|Hne].
    + exists (length fs). split; [lia|done].
    + rewrite lookup_insert_ne in Hs by done. destruct (Hn name He Hs) as (i & Hi & ->).
      exists i. split; [lia|done].
  - rewrite length_app. simpl. lia.
Qed.

Lemma dir_holds_absent dir fs :
  dir_holds dir fs -> N.of_nat (length fs) < two64 ->
  dir !! segment_path (N.of_nat (length fs)) = None.
Proof.
  intros [Hf Hn Hb] Hb'. apply eq_None_not_Some. intros Hs.
  destruct (Hn _ (segment_path_extension _) Hs) as (i & Hi & Heq).
  apply segment_path_inj in Heq; [lia|unfold u64; lia..].
Qed.

Lemma dir_holds_link dir fs : dir_holds dir fs -> dir_holds (link <$> dir) (link <$> fs).
Proof.
  intros [Hf Hn Hb]. constructor.
  - intros i f Hi. rewrite list_lookup_fmap, fmap_Some in Hi. destruct Hi as (g & Hg & ->).
    by rewrite lookup_fmap, (Hf _ _ Hg).
  - intros name He Hs. rewrite lookup_fmap, fmap_is_Some in Hs. rewrite length_fmap. by apply Hn.
  - by rewrite length_fmap.
Qed.

Lemma dir_holds_other dir fs name f :
  dir_holds dir fs -> extension name <> Some SEGMENT_SUFFIX -> dir_holds (<[name := f]> dir) fs.
Proof.
  intros [Hf Hn Hb] He. constructor; [| |done].
  - intros i g Hi. rewrite lookup_insert_ne; [by apply Hf|]. intros ->.
    apply He, segment_path_extension.
  - intros nm Hnm Hs. rewrite lookup_insert_ne in Hs by (intros ->; done). by apply Hn.
Qed.

(** ** Segments of whole records *)

Section Contents.

Context {Crc : Crc32} {HCrc : Crc32Laws}.

Definition seg_data (rs : list WalRecord) : bytes := concat (encoding <$> rs).
Definition seg_len (rs : list WalRecord) : N := foldr (fun r n => record_len r + n) 0 rs.

Lemma seg_data_cons r rs tail : seg_data (r :: rs) ++ tail = encoding r ++ seg_data rs ++ tail.
Proof. unfold seg_data. cbn [fmap list_fmap concat]. by rewrite <- app_assoc. Qed.

Lemma seg_data_length rs : N.of_nat (length (seg_data rs)) = seg_len rs.
Proof.
  induction rs as [|r rs IH]; [done|]. rewrite <- (app_nil_r (seg_data _)), seg_data_cons, app_nil_r.
  rewrite length_app, Nat2N.inj_add, encoding_length, IH. done.
Qed.

Lemma seg_data_app rs1 rs2 : seg_data (rs1 ++ rs2) = seg_data rs1 ++ seg_data rs2.
Proof. unfold seg_data. by rewrite fmap_app, concat_app. Qed.

Lemma seg_len_app rs1 rs2 : seg_len (rs1 ++ rs2) = seg_len rs1 + seg_len rs2.
Proof. induction rs1 as [|r rs1 IH]; [done|]. simpl. lia. Qed.

Lemma seg_len_cons r rs : seg_len (r :: rs) = record_len r + seg_len rs.
Proof. done. Qed.

Lemma record_len_pos r : 32 <= record_len r.
Proof. unfold record_len, HEADER_LEN. lia. Qed.

(** What a write that stopped half-way leaves behind whole records: nothing, or a
    strict prefix of one record that would have fit. *)
Definition torn (size o : N) (tail : bytes) : Prop :=
  tail = [] \/ exists r n, valid_record r /\ o + record_len r <= size /\
                           (0 < n < length (encoding r))%nat /\ tail = take n (encoding r).

(** The scan finds the end of the last whole record. *)
Lemma scan_spec rs tail id o size fuel physical :
  Forall valid_record rs -> o + seg_len rs <= size -> size < two64 ->
  torn size (o + seg_len rs) tail -> physical = o + N.of_nat (length (seg_data rs ++ tail)) ->
  (length (seg_data rs ++ tail) < fuel)%nat ->
  scan fuel (seg_data rs ++ tail) id o size physical =
  Ok (if bool_decide (tail = []) then Clean (o + seg_len rs) else IncompleteTail (o + seg_len rs)).
Proof.
  revert o fuel. induction rs as [|r rs IH]; intros o fuel Hv Hfit Hsize Ht Hp Hfuel.
  - destruct fuel as [|fuel]; [simpl in Hfuel; lia|]. simpl in *. rewrite N.add_0_r in *.
    destruct Ht as [->|(r & n & Hr & Hfr & Hn & ->)]; [done|].
    assert (length (take n (encoding r)) = n) as Hl by (rewrite length_take; lia).
    destruct (read_one_torn r n (mkLsn id o) size physical) as [rest E]; [done..|by rewrite Hp, Hl|].
    rewrite E, bool_decide_eq_false_2; [done|]. intros E'. rewrite E' in Hl. simpl in Hl. lia.
  - apply Forall_cons in Hv as [Hr Hv]. rewrite seg_len_cons in *.
    rewrite seg_data_cons in *. rewrite length_app, Nat2N.inj_add, encoding_length in Hp.
    rewrite length_app in Hfuel. pose proof (encoding_length r). pose proof (record_len_pos r).
    destruct fuel as [|fuel]; [lia|]. cbn [scan].
    rewrite read_one_encoding by (simpl; done || lia). cbn [offset].
    rewrite IH; [by rewrite N.add_assoc|done|lia|done|by rewrite <- N.add_assoc|lia|lia].
Qed.

(** Any cut of whole records and a torn tail is again of that form, and keeps every
    record that ends before the cut. *)
Lemma take_seg_data size o rs tail n :
  Forall valid_record rs -> o + seg_len rs <= size -> torn size (o + seg_len rs) tail ->
  exists k tail', take n (seg_data rs ++ tail) = seg_data (take k rs) ++ tail' /\
    torn size (o + seg_len (take k rs)) tail' /\
    forall j, seg_len (take j rs) <= N.of_nat n -> (j `min` length rs <= k)%nat.
Proof.
  revert o n. induction rs as [|r rs IH]; intros o n Hv Hfit Ht.
  - exists O, (take n tail). split_and!; [done| |intros; simpl; lia].
    simpl in *. destruct Ht as [->|(r & m & Hr & Hfr & Hm & ->)]; [left; apply take_nil|].
    destruct n as [|n]; [by left|]. right. exists r, (S n `min` m)%nat.
    rewrite take_take. split_and!; [done|done|lia|lia|done].
  - apply Forall_cons in Hv as [Hr Hv]. rewrite seg_len_cons in *.
    rewrite seg_data_cons.
    pose proof (encoding_length r) as He. pose proof (record_len_pos r).
    destruct (Nat.lt_ge_cases n (length (encoding r))) as [Hlt|Hge].
    + exists O, (take n (encoding r)). split_and!.
      * by rewrite take_app_le by lia.
      * simpl. destruct n as [|n]; [by left|]. right. exists r, (S n). split_and!; [done|lia|lia|lia|done].
      * intros [|j]; simpl; lia.
    + destruct (IH (o + record_len r) (n - length (encoding r))%nat) as (k & tail' & E & Ht' & Hk);
        [done|lia|by rewrite <- N.add_assoc|].
      exists (S k), tail'. split_and!.
      * rewrite take_app_ge, E by lia. cbn [take]. by rewrite seg_data_cons.
      * simpl. by rewrite N.add_assoc.
      * intros [|j]; simpl; [lia|]. intros Hj. specialize (Hk j). lia.
Qed.

End Contents.

(** ** The scan terminates on any contents *)

Lemma read_exact_rest rest n r h rest' :
  read_exact_or_tail rest n = (r, h, rest') ->
  (length rest' <= length rest)%nat /\ (r = ReadComplete -> length rest = n + length rest')%nat.
Proof.
  unfold read_exact_or_tail. destruct (Nat.leb_spec n (length rest)).
  - intros. simplify_eq. rewrite length_drop. split; [lia|]. intros. lia.
  - destruct rest; intros; simplify_eq; simpl; (split; [lia|done]).
Qed.

Lemma read_one_progress {Crc : Crc32} rest lsn size physical r next rest' :
  read_one rest lsn size physical = Ok (ReadRecord r next, rest') ->
  (length rest' + 32 <= length rest)%nat.
Proof.
  unfold read_one. destruct (read_exact_or_tail rest _) as [[x h] rest1] eqn:E1.
  apply read_exact_rest in E1 as [_ E1]. destruct x; [|done..].
  specialize (E1 eq_refl). change (N.to_nat HEADER_LEN) with 32%nat in E1.
  destruct (decode_header h lsn); [|done]. case_match; [|done]. case_match; [done|].
  case_match; [|done]. case_match; [done|]. case_match; [done|].
  destruct (read_exact_or_tail rest1 _) as [[y q] rest2] eqn:E2.
  apply read_exact_rest in E2 as [E2 _]. destruct y; [|done..]. case_match; [done|].
  intros. simplify_eq. lia.
Qed.

(** With more fuel than bytes the result does not depend on the fuel, whatever the file
    contains: the loop of [valid_len] ends. *)
Lemma scan_terminates {Crc : Crc32} rest id o size physical fuel1 fuel2 :
  (length rest < fuel1)%nat -> (length rest < fuel2)%nat ->
  scan fuel1 rest id o size physical = scan fuel2 rest id o size physical.
Proof.
  revert rest o fuel2. induction fuel1 as [|fuel1 IH]; intros rest o [|fuel2] H1 H2; [lia..|].
  cbn [scan]. destruct (read_one rest _ _ _) as [[[r next| |] rest']|] eqn:E; try done.
  apply read_one_progress in E. apply IH; lia.
Qed.
