(* ===== verification/Wal.v ===== *)
(** * Wal: the segmented write-ahead log

    Models [basisdb-wal/src/wal.rs].  The directory is part of the handle's state (the
    lock makes the handle its only writer); the active file is the directory's file
    of the active id, opened for appending.  Faults of the operating system are the
    argument [Faults]; a crash keeps, of every file, its stable bytes and any
    part of what follows them. *)

From S2P Require Import Prelude.
From S2P Require Import WalFormat.
From S2P Require Import Segment.

Definition DEFAULT_SEGMENT_SIZE : N := 64 * 1024 * 1024.
Definition DEFAULT_MAX_SIZE : N := 4 * 1024 * 1024 * 1024.

Record WalOptions : Type := mkWalOptions {
  segment_size : N;
  max_size : N;
  sync_on_append : bool
}.

Definition WalOptions_default : WalOptions :=
  mkWalOptions DEFAULT_SEGMENT_SIZE DEFAULT_MAX_SIZE false.

Record Wal : Type := mkWal {
  dir : Dir;
  options : WalOptions;
  active_id : N;
  active_len : N;
  w_total_len : N;
  poisoned : bool
}.

(** The iterator over the records. *)
Record Records : Type := mkRecords {
  rec_dir : Dir;
  rec_segment_size : N;
  rec_ids : list N;
  rec_segment : option SegmentReader;
  rec_done : bool
}.

Definition set_dir (w : Wal) (d : Dir) : Wal :=
  mkWal d (options w) (active_id w) (active_len w) (w_total_len w) (poisoned w).
Definition poison (w : Wal) : Wal :=
  mkWal (dir w) (options w) (active_id w) (active_len w) (w_total_len w) true.

Definition ensure_healthy (w : Wal) : result unit WalError :=
  if poisoned w then Err Poisoned else Ok tt.

Definition validate_options (o : WalOptions) : result unit WalError :=
  if (segment_size o <? HEADER_LEN) || (max_size o <? HEADER_LEN)
  then Err (SegmentTooSmall (N.min (segment_size o) (max_size o)) HEADER_LEN)
  else Ok tt.

Definition checked_add_len (offset len : N) : result N WalError :=
  match checked_add offset len with
  | Some n => Ok n
  | None => Err (RecordTooLarge u64_max u64_max)
  end.

(** [write_all] on the active file: all bytes, or as many as [limit] before it fails. *)
Definition write_or_poison (w : Wal) (bs : bytes) (limit : option nat) : Wal * result unit WalError :=
  let path := segment_path (active_id w) in
  match dir w !! path with
  | None => (poison w, Err (Io path))
  | Some f =>
      match limit with
      | None => (set_dir w (<[path := mkWalFile (data f ++ bs) (stable f) (linked f)]> (dir w)), Ok tt)
      | Some n =>
          (poison (set_dir w (<[path := mkWalFile (data f ++ take (n `min` pred (length bs)) bs)
                                          (stable f) (linked f)]> (dir w))), Err (Io path))
      end
  end.

Definition sync (w : Wal) (ok : bool) : Wal * result unit WalError :=
  match ensure_healthy w with
  | Err e => (w, Err e)
  | Ok _ =>
      let path := segment_path (active_id w) in
      match dir w !! path with
      | Some f => if ok then (set_dir w (<[path := sync_all f]> (dir w)), Ok tt)
                  else (poison w, Err (Io path))
      | None => (poison w, Err (Io path))
      end
  end.

Definition rotate_if_needed (w : Wal) (record_len : N) (f : Faults) : Wal * result unit WalError :=
  let size := segment_size (options w) in
  if size <? record_len then (w, Err (RecordTooLarge record_len size))
  else
    match checked_add (active_len w) record_len with
    | None => (w, Err (RecordTooLarge u64_max size))
    | Some next_len =>
        if negb (active_len w =? 0) && (size <? next_len) then
          let '(w, r) := sync w (rotate_sync_ok f) in
          match r with
          | Err e => (w, Err e)
          | Ok _ =>
              match checked_add (active_id w) 1 with
              | None => (w, Err SegmentIdExhausted)
              | Some id =>
                  let '(d, r) := open_segment (dir w) id (create_ok f) in
                  match r with
                  | Err e => (set_dir w d, Err e)
                  | Ok _ =>
                      let '(d, r) := sync_dir d (sync_dir_ok f) in
                      match r with
                      | Err e => (set_dir w d, Err e)
                      | Ok _ => (mkWal d (options w) id 0 (w_total_len w) (poisoned w), Ok tt)
                      end
                  end
              end
          end
        else (w, Ok tt)
    end.

Section WalOperations.

Context `{Crc : Crc32}.

Definition append (w : Wal) (k : RecordKind) (p : bytes) (f : Faults) : Wal * result Lsn WalError :=
  match (let? _ := ensure_healthy w in
         let? record_len := encoded_len (N.of_nat (length p)) in
         let? next_total := checked_add_len (w_total_len w) record_len in
         if max_size (options w) <? next_total
         then Err (WalFull next_total (max_size (options w)))
         else Ok (record_len, next_total)) with
  | Err e => (w, Err e)
  | Ok (record_len, next_total) =>
      let '(w, r) := rotate_if_needed w record_len f in
      match (let? _ := r in
             let? encoded := encode_record k p in
             let? next_len := checked_add_len (active_len w) (N.of_nat (length encoded)) in
             Ok (encoded, next_len)) with
      | Err e => (w, Err e)
      | Ok (encoded, next_len) =>
          let lsn := mkLsn (active_id w) (active_len w) in
          let '(w, r) := write_or_poison w encoded (write_limit f) in
          match r with
          | Err e => (w, Err e)
          | Ok _ =>
              let w := mkWal (dir w) (options w) (active_id w) next_len next_total (poisoned w) in
              if sync_on_append (options w) then
                let '(w, r) := sync w (sync_ok f) in
                (w, let? _ := r in Ok lsn)
              else (w, Ok lsn)
          end
      end
  end.

(** [Wal::open]; [held] says that another handle holds the directory's lock. *)
Definition open (d : Dir) (held : bool) (o : WalOptions) (f : Faults) : Dir * result Wal WalError :=
  match validate_options o with
  | Err e => (d, Err e)
  | Ok _ =>
      let '(d, r) := lock d held true in
      match r with
      | Err e => (d, Err e)
      | Ok _ =>
          let '(d, r) := recover d (segment_size o) f in
          match (let? active := r in
                 let? total := total_len d in
                 if max_size o <? total then Err (WalFull total (max_size o))
                 else Ok (active, total)) with
          | Err e => (d, Err e)
          | Ok ((id, len), total) =>
              let '(d, r) := open_segment d id (create_ok f) in
              (d, let? _ := r in Ok (mkWal d o id len total false))
          end
      end
  end.

(** [Wal::records]. *)
Definition records (w : Wal) : result Records WalError :=
  let? _ := ensure_healthy w in
  let? ids := segment_ids (dir w) in
  Ok (mkRecords (dir w) (segment_size (options w)) ids None false).

(** The loop of [Records::next]: read from the open segment, or open the next one. *)
Fixpoint next_loop (d : Dir) (size : N) (ids : list N) (segment : option SegmentReader)
  : Records * option (result StoredRecord WalError) :=
  let advance :=
    match ids with
    | [] => (mkRecords d size [] None true, None)
    | id :: ids' =>
        match reader_open d id size with
        | Ok s => next_loop d size ids' (Some s)
        | Err e => (mkRecords d size ids' None true, Some (Err e))
        end
    end in
  match segment with
  | None => advance
  | Some s =>
      match next_record s with
      | (s, Ok (Some record)) => (mkRecords d size ids (Some s) false, Some (Ok record))
      | (_, Ok None) => advance
      | (s, Err e) => (mkRecords d size ids (Some s) true, Some (Err e))
      end
  end.

Definition next (r : Records) : Records * option (result StoredRecord WalError) :=
  if rec_done r then (r, None)
  else next_loop (rec_dir r) (rec_segment_size r) (rec_ids r) (rec_segment r).

(** A [for] loop over the iterator that stops at the first error. *)
Fixpoint collect (fuel : nat) (r : Records) : result (list StoredRecord) WalError :=
  match fuel with
  | O => Ok []
  | S fuel' =>
      match next r with
      | (_, None) => Ok []
      | (_, Some (Err e)) => Err e
      | (r, Some (Ok x)) => let? xs := collect fuel' r in Ok (x :: xs)
      end
  end.

End WalOperations.

(** Every stored record; each takes at least one byte of [w_total_len], which bounds the
    iteration. *)
Definition all_records `{Crc : Crc32} (w : Wal) : result (list StoredRecord) WalError :=
  let? r := records w in collect (S (N.to_nat (w_total_len w))) r.

(** ** Crashes *)

(** What a crash may leave of a directory: of every file its stable bytes and any part
    of what follows, and no file whose directory entry was not yet stable, or all of it. *)
Definition crashed (d d' : Dir) : Prop :=
  forall name, match d !! name, d' !! name with
               | None, None => True
               | None, Some _ => False
               | Some f, None => linked f = false
               | Some f, Some f' => exists n, (stable f <= n <= length (data f))%nat /\
                                              f' = mkWalFile (take n (data f)) n true
               end.

(** ** The layout of the log on disk

    [closed] are the records of the full segments, [a1 ++ a2] those of the active one,
    [a1] of them on stable storage, followed by the torn bytes of a failed write.  [ex] is the
    next segment when a rotation was cut short. *)

Definition closed_file `{Crc : Crc32} (f : WalFile) (rs : list WalRecord) : Prop :=
  data f = seg_data rs /\ stable f = length (data f) /\ linked f = true.

Record layout `{Crc : Crc32} (size : N) (d : Dir) (closed : list (list WalRecord))
    (a1 a2 : list WalRecord) (tail : bytes) (cfs : list WalFile) (act : WalFile)
    (ex : list WalFile) : Prop := mkLayout {
  lay_dir : dir_holds d (cfs ++ act :: ex);
  lay_closed : Forall2 closed_file cfs closed;
  lay_act : data act = seg_data (a1 ++ a2) ++ tail;
  lay_stable : seg_len a1 <= N.of_nat (stable act);
  lay_stable_le : (stable act <= length (data act))%nat;
  lay_linked : linked act = true;
  lay_torn : torn size (seg_len (a1 ++ a2)) tail;
  lay_valid : Forall (Forall valid_record) closed;
  lay_valid_active : Forall valid_record (a1 ++ a2);
  lay_fit : Forall (fun rs => seg_len rs <= size) closed;
  lay_fit_active : seg_len (a1 ++ a2) <= size;
  lay_extra : ex = [] \/
    (a2 = [] /\ tail = [] /\ stable act = length (data act) /\ exists b, ex = [mkWalFile [] 0 b])
}.

(** Records with their positions. *)
Fixpoint place (id o : N) (rs : list WalRecord) : list StoredRecord :=
  match rs with
  | [] => []
  | r :: rs' => mkStoredRecord (mkLsn id o) r :: place id (o + record_len r) rs'
  end.

Fixpoint place_segments (id : N) (rss : list (list WalRecord)) : list StoredRecord :=
  match rss with
  | [] => []
  | rs :: rss' => place id 0 rs ++ place_segments (id + 1) rss'
  end.

(** The stable records, and those written after them. *)
Definition stable_records (closed : list (list WalRecord)) (a1 : list WalRecord)
  : list StoredRecord :=
  place_segments 0 closed ++ place (N.of_nat (length closed)) 0 a1.
Definition pending_records (closed : list (list WalRecord)) (a1 a2 : list WalRecord)
  : list StoredRecord :=
  place (N.of_nat (length closed)) (seg_len a1) a2.

Definition stored_len (xs : list StoredRecord) : N := seg_len (sr_record <$> xs).

(** The directory stores [s ++ p], of which [s] is on stable storage. *)
Definition disk_repr `{Crc : Crc32} (size : N) (d : Dir) (s p : list StoredRecord) : Prop :=
  exists closed a1 a2 tail cfs act ex,
    layout size d closed a1 a2 tail cfs act ex /\
    s = stable_records closed a1 /\ p = pending_records closed a1 a2.

Definition options_ok (o : WalOptions) : Prop :=
  HEADER_LEN <= segment_size o < two64 /\ HEADER_LEN <= max_size o < two64.

(** The handle is in step with a directory that stores [s ++ p]. *)
Definition wal_repr `{Crc : Crc32} (w : Wal) (s p : list StoredRecord) : Prop :=
  exists closed a1 a2 tail cfs act,
    layout (segment_size (options w)) (dir w) closed a1 a2 tail cfs act [] /\
    s = stable_records closed a1 /\ p = pending_records closed a1 a2 /\
    active_id w = N.of_nat (length closed) /\
    (poisoned w = false ->
       tail = [] /\ active_len w = seg_len (a1 ++ a2) /\ w_total_len w = stored_len (s ++ p)) /\
    options_ok (options w) /\ stored_len (s ++ p) <= max_size (options w).

Lemma wal_repr_disk `{Crc : Crc32} w s p :
  wal_repr w s p -> disk_repr (segment_size (options w)) (dir w) s p.
Proof.
  intros (closed & a1 & a2 & tail & cfs & act & HL & -> & -> & _).
  by exists closed, a1, a2, tail, cfs, act, [].
Qed.

Lemma place_app id o a b : place id o (a ++ b) = place id o a ++ place id (o + seg_len a) b.
Proof.
  revert o. induction a as [|r a IH]; intros o; simpl; [by rewrite N.add_0_r|].
  by rewrite IH, N.add_assoc.
Qed.

Lemma take_place k id o a : take k (place id o a) = place id o (take k a).
Proof. revert k o. induction a as [|r a IH]; intros [|k] o; simpl; [done..|]. by rewrite IH. Qed.

Lemma place_segments_app id x y :
  place_segments id (x ++ y) = place_segments id x ++ place_segments (id + N.of_nat (length x)) y.
Proof.
  revert id. induction x as [|rs x IH]; intros id; simpl; [by rewrite N.add_0_r|].
  rewrite IH, <- app_assoc. do 3 f_equal. lia.
Qed.

Lemma stored_len_app x y : stored_len (x ++ y) = stored_len x + stored_len y.
Proof. unfold stored_len. by rewrite fmap_app, seg_len_app. Qed.

Lemma stored_len_place id o a : stored_len (place id o a) = seg_len a.
Proof. revert o. induction a as [|r a IH]; intros o; [done|]. simpl. rewrite <- (IH (o + record_len r)). done. Qed.

(** Making the pending records stable does not change the sequence. *)
Lemma stable_app_pending closed a1 a2 :
  stable_records closed (a1 ++ a2) = stable_records closed a1 ++ pending_records closed a1 a2.
Proof. unfold stable_records, pending_records. by rewrite place_app, app_assoc, N.add_0_l. Qed.

(** Closing the active segment does not change it either. *)
Lemma stable_records_close closed a : stable_records (closed ++ [a]) [] = stable_records closed a.
Proof.
  unfold stable_records. rewrite place_segments_app. simpl. by rewrite !app_nil_r, N.add_0_l.
Qed.

Section Invariant.

Context {Crc : Crc32} {HCrc : Crc32Laws}.

Lemma lay_length size d closed a1 a2 tail cfs act ex :
  layout size d closed a1 a2 tail cfs act ex -> length cfs = length closed.
Proof. intros H. eapply Forall2_length, lay_closed, H. Qed.

Lemma lay_lookup_act size d closed a1 a2 tail cfs act ex :
  layout size d closed a1 a2 tail cfs act ex ->
  d !! segment_path (N.of_nat (length closed)) = Some act.
Proof.
  intros H. rewrite <- (lay_length _ _ _ _ _ _ _ _ _ H).
  apply (holds_files _ _ (lay_dir _ _ _ _ _ _ _ _ _ H)).
  rewrite lookup_app_r by lia. by rewrite Nat.sub_diag.
Qed.

(** Replacing the active file. *)
Lemma dir_holds_active d cfs act ex act' :
  dir_holds d (cfs ++ act :: ex) ->
  dir_holds (<[segment_path (N.of_nat (length cfs)) := act']> d) (cfs ++ act' :: ex).
Proof.
  intros H. apply (dir_holds_insert _ _ (N.of_nat (length cfs)) act') in H.
  - rewrite Nat2N.id, insert_app_r_alt, Nat.sub_diag in H by lia. exact H.
  - rewrite Nat2N.id, length_app. simpl. lia.
Qed.

(** A successful sync makes everything stable. *)
Lemma layout_sync size d closed a1 a2 tail cfs act ex :
  layout size d closed a1 a2 tail cfs act ex -> tail = [] ->
  layout size (<[segment_path (N.of_nat (length closed)) := sync_all act]> d)
    closed (a1 ++ a2) [] [] cfs (sync_all act) ex.
Proof.
  intros H ->. pose proof (lay_length _ _ _ _ _ _ _ _ _ H) as Hlen. destruct H.
  constructor; simpl; rewrite ?app_nil_r in *; try done.
  - rewrite <- Hlen. by apply dir_holds_active with act.
  - rewrite lay_act0. rewrite seg_data_length. lia.
  - destruct lay_extra0 as [->|(-> & _ & _ & b & ->)]; [by left|]. right. split_and!; [done..|]. by exists b.
Qed.

(** The specification of [sync]: everything written becomes stable, or the handle is
    poisoned. *)
Lemma sync_spec w s p ok w' r :
  wal_repr w s p -> sync w ok = (w', r) ->
  match r with
  | Ok _ => wal_repr w' (s ++ p) [] /\ poisoned w' = false /\ active_id w' = active_id w /\
            active_len w' = active_len w /\ w_total_len w' = w_total_len w
  | Err _ => wal_repr w' s p /\ poisoned w' = true /\ dir w' = dir w
  end /\ options w' = options w.
Proof.
  intros (closed & a1 & a2 & tail & cfs & act & HLay & Hs & Hpd & Hid & Hh & Ho & Hm).
  pose proof (lay_lookup_act _ _ _ _ _ _ _ _ _ HLay) as Hact.
  unfold sync, ensure_healthy. destruct (poisoned w) eqn:Hp.
  { intros. simplify_eq. split; [|done]. split_and!; [|done..].
    exists closed, a1, a2, tail, cfs, act. rewrite Hp. done. }
  destruct (Hh eq_refl) as (-> & Hal & Ht). rewrite Hid, Hact.
  destruct ok; intros Heq; injection Heq as <- <-.
  - split; [|done]. split_and!; [|done..].
    exists closed, (a1 ++ a2), [], [], cfs, (sync_all act). simpl.
    split; [by apply layout_sync with []|]. rewrite !app_nil_r.
    split_and!; try done. by rewrite stable_app_pending, Hs, Hpd.
  - split; [|done]. split_and!; [|done..]. by exists closed, a1, a2, [], cfs, act.
Qed.

(** ** Rotation *)

Lemma layout_create size d closed a cfs act :
  layout size d closed a [] [] cfs act [] -> stable act = length (data act) ->
  N.of_nat (length closed) + 1 < two64 ->
  d !! segment_path (N.of_nat (length closed) + 1) = None /\
  layout size (<[segment_path (N.of_nat (length closed) + 1) := new_file]> d)
    closed a [] [] cfs act [new_file].
Proof.
  intros H Hst Hb. pose proof (lay_length _ _ _ _ _ _ _ _ _ H) as Hlen. destruct H.
  assert (N.of_nat (length closed) + 1 = N.of_nat (length (cfs ++ [act]))) as ->
    by (rewrite length_app; simpl; lia).
  split; [apply dir_holds_absent; [done|]; rewrite length_app; simpl; lia|].
  constructor; try done.
  - replace (cfs ++ [act; new_file]) with ((cfs ++ [act]) ++ [new_file]) by (by rewrite <- app_assoc).
    apply dir_holds_create; [done|]. rewrite length_app. simpl. lia.
  - right. split_and!; [done..|]. by exists false.
Qed.

Lemma closed_file_link f rs : closed_file f rs -> closed_file (link f) rs.
Proof. intros (? & ? & ?). by split_and!. Qed.

Lemma layout_link size d closed a1 a2 tail cfs act ex :
  layout size d closed a1 a2 tail cfs act ex ->
  layout size (link <$> d) closed a1 a2 tail (link <$> cfs) (link act) (link <$> ex).
Proof.
  intros []. constructor; try done.
  - apply dir_holds_link in lay_dir0. by rewrite fmap_app in lay_dir0.
  - apply Forall2_fmap_l. eapply Forall2_impl; [done|]. apply closed_file_link.
  - destruct lay_extra0 as [->|(-> & -> & Hst & b & ->)]; [by left|]. right.
    split_and!; [done..|]. by exists true.
Qed.

(** The next segment becomes the active one. *)
Lemma layout_advance size d closed a cfs act f :
  layout size d closed a [] [] cfs act [f] -> linked f = true ->
  layout size d (closed ++ [a]) [] [] [] (cfs ++ [act]) f [].
Proof.
  intros [] Hl. destruct lay_extra0 as [|(_ & _ & Hst & b & Hf)]; [done|]. injection Hf as ->.
  rewrite !app_nil_r in *. constructor; simpl; try done.
  - by rewrite <- app_assoc.
  - apply Forall2_app; [done|]. by repeat constructor.
  - by left.
  - apply Forall_app. split; [done|]. by constructor.
  - apply Forall_app. split; [done|]. by constructor.
  - lia.
  - by left.
Qed.

(** When every record of the active segment is stable, the whole file is. *)
Lemma layout_full size d closed a cfs act ex :
  layout size d closed a [] [] cfs act ex -> stable act = length (data act).
Proof.
  intros []. rewrite !app_nil_r in *. pose proof (seg_data_length a). rewrite lay_act0 in *. lia.
Qed.

(** What a rotation does to the stored records: none is lost, stable ones stay stable,
    and the handle stays in step unless the directory could not be synced. *)
Definition rotated (w : Wal) (s p : list StoredRecord) (len : N) (dir_ok : bool)
    (w' : Wal) (r : result unit WalError) : Prop :=
  exists s' p', s' ++ p' = s ++ p /\ s `prefix_of` s' /\ options w' = options w /\
    disk_repr (segment_size (options w)) (dir w') s' p' /\
    (dir_ok = true -> wal_repr w' s' p') /\
    (is_ok r = true -> wal_repr w' s' p' /\ poisoned w' = false /\
       active_len w' + len <= segment_size (options w) /\ w_total_len w' = w_total_len w).

Lemma rotated_in_step w s p len ok w' r s' p' :
  wal_repr w' s' p' -> s' ++ p' = s ++ p -> s `prefix_of` s' -> options w' = options w ->
  is_ok r = false -> rotated w s p len ok w' r.
Proof.
  intros Hw Hsp Hpre Ho Hr. exists s', p'. split_and!; try done.
  - rewrite <- Ho. by apply wal_repr_disk.
  - by rewrite Hr.
Qed.

(** The tail of a rotation, after the sync. *)
Lemma advance_spec w s len f :
  wal_repr w s [] -> poisoned w = false -> len <= segment_size (options w) ->
  active_id w + 1 < two64 ->
  let '(d, r) := open_segment (dir w) (active_id w + 1) (create_ok f) in
  match r with
  | Err e => rotated w s [] len (sync_dir_ok f) (set_dir w d) (Err e)
  | Ok _ =>
      let '(d, r) := sync_dir d (sync_dir_ok f) in
      rotated w s [] len (sync_dir_ok f)
        (match r with
         | Err _ => set_dir w d
         | Ok _ => mkWal d (options w) (active_id w + 1) 0 (w_total_len w) (poisoned w)
         end) r
  end.
Proof.
  intros Hw Hp Hlen Hib. unfold open_segment. destruct (create_ok f).
  2:{ apply rotated_in_step with s []; [|done..]. by destruct w. }
  pose proof Hw as (closed & a & a2 & tail & cfs & act & HLay & Hs & Hpd & Hid & Hh & Ho & Hm).
  destruct (Hh Hp) as (-> & Hal & Ht). destruct a2; [|done].
  pose proof (layout_full _ _ _ _ _ _ _ HLay) as Hfull. rewrite Hid in *.
  destruct (layout_create _ _ _ _ _ _ HLay Hfull Hib) as [Habs HLay']. rewrite Habs.
  unfold sync_dir. destruct (sync_dir_ok f); cbv beta iota; exists s, [].
  - apply layout_link in HLay'. apply layout_advance in HLay'; [|done].
    assert (wal_repr (mkWal (link <$> <[segment_path (N.of_nat (length closed) + 1):=new_file]> (dir w))
      (options w) (N.of_nat (length closed) + 1) 0 (w_total_len w) (poisoned w)) s []) as Hw'.
    { exists (closed ++ [a]), [], [], [], ((link <$> cfs) ++ [link act]), (link new_file). simpl.
      rewrite stable_records_close. rewrite !app_nil_r in *.
      split_and!; try done. rewrite length_app. simpl. lia. }
    split_and!; [done..| |done|]; [by apply wal_repr_disk in Hw'|]. intros _. split_and!; [done..|simpl; lia|done].
  - split_and!; [done..| |done|done]. by exists closed, a, [], [], cfs, act, [new_file].
Qed.

(** The specification of [rotate_if_needed]. *)
Lemma rotate_spec w s p len f w' r :
  wal_repr w s p -> poisoned w = false -> rotate_if_needed w len f = (w', r) ->
  rotated w s p len (sync_dir_ok f) w' r.
Proof.
  intros Hw Hp. unfold rotate_if_needed.
  assert (forall e, rotated w s p len (sync_dir_ok f) w (Err e)) as Hsame
    by (intros; by apply rotated_in_step with s p).
  destruct (N.ltb_spec (segment_size (options w)) len); [intros; by simplify_eq|].
  destruct (checked_add (active_len w) len) as [next|] eqn:Ec; [|intros; by simplify_eq].
  apply checked_add_Some in Ec as [-> _].
  destruct (negb _ && _) eqn:Erot.
  2:{ intros. simplify_eq. exists s, p. split_and!; [done..|by apply wal_repr_disk|done|].
      intros _. split_and!; [done..| |done]. apply andb_false_iff in Erot.
      rewrite negb_false_iff, N.eqb_eq, N.ltb_ge in Erot. lia. }
  destruct (sync w (rotate_sync_ok f)) as [w1 r1] eqn:Es.
  pose proof (sync_spec _ _ _ _ _ _ Hw Es) as [Hs Hopt]. destruct r1 as [u|e].
  2:{ intros. simplify_eq. apply rotated_in_step with s p; by destruct Hs. }
  destruct Hs as (Hw1 & Hp1 & _ & _ & Ht1).
  destruct (checked_add (active_id w1) 1) as [id|] eqn:Ei.
  2:{ intros. simplify_eq. apply rotated_in_step with (s ++ p) []; try done.
      - apply app_nil_r.
      - by apply prefix_app_r. }
  apply checked_add_Some in Ei as [-> Hib].
  pose proof (advance_spec w1 (s ++ p) len f Hw1 Hp1 ltac:(by rewrite Hopt) Hib) as Ha.
  assert (forall w2 r2, rotated w1 (s ++ p) [] len (sync_dir_ok f) w2 r2 ->
            rotated w s p len (sync_dir_ok f) w2 r2) as Hlift.
  { intros w2 r2 (s' & p' & Hsp & Hpre & Ho & Hd & Hi & Hok). exists s', p'.
    rewrite app_nil_r in Hsp. rewrite Hopt in *. split_and!; [done| |done|done|done|].
    - eapply prefix_app_l, Hpre.
    - intros Hr. destruct (Hok Hr) as (? & ? & ? & ?). split_and!; [done..|congruence]. }
  destruct (open_segment _ _ _) as [d r2]. destruct r2; [|intros; simplify_eq; by apply Hlift].
  destruct (sync_dir _ _) as [d' r3]. destruct r3; intros; simplify_eq; by apply Hlift.
Qed.

(** ** Appending *)

(** Writing a whole record, or a part of it. *)
Lemma layout_write size d closed a1 a2 cfs act r :
  layout size d closed a1 a2 [] cfs act [] -> valid_record r ->
  seg_len (a1 ++ a2) + record_len r <= size ->
  layout size
    (<[segment_path (N.of_nat (length closed)) :=
       mkWalFile (data act ++ encoding r) (stable act) (linked act)]> d)
    closed a1 (a2 ++ [r]) [] cfs (mkWalFile (data act ++ encoding r) (stable act) (linked act)) [] /\
  forall n, layout size
    (<[segment_path (N.of_nat (length closed)) :=
       mkWalFile (data act ++ take (n `min` pred (length (encoding r))) (encoding r))
         (stable act) (linked act)]> d)
    closed a1 a2 (take (n `min` pred (length (encoding r))) (encoding r)) cfs
    (mkWalFile (data act ++ take (n `min` pred (length (encoding r))) (encoding r))
       (stable act) (linked act)) [].
Proof.
  intros H Hr Hfit. pose proof (lay_length _ _ _ _ _ _ _ _ _ H) as Hlen. destruct H.
  assert (seg_len [r] = record_len r) as Hr1 by (simpl; lia).
  rewrite app_nil_r in lay_act0. split.
  - constructor; simpl; rewrite ?app_assoc, ?seg_len_app, ?Hr1, ?app_nil_r in *; try done; try (by left).
    + rewrite <- Hlen. by apply dir_holds_active with act.
    + rewrite seg_data_app, lay_act0. unfold seg_data at 3. simpl. by rewrite app_nil_r.
    + rewrite length_app. lia.
    + apply Forall_app. split; [done|]. by constructor.
  - intros n. constructor; simpl; try done; try (by left).
    + rewrite <- Hlen. by apply dir_holds_active with act.
    + by rewrite lay_act0.
    + rewrite length_app. lia.
    + pose proof (encoding_length r). pose proof (record_len_pos r).
      destruct n as [|n]; [by left|]. right. exists r, (S n `min` pred (length (encoding r)))%nat.
      split_and!; [done|done|lia|lia|done].
Qed.

Lemma write_spec w s p r lim w' res :
  wal_repr w s p -> poisoned w = false -> valid_record r ->
  active_len w + record_len r <= segment_size (options w) ->
  w_total_len w + record_len r <= max_size (options w) ->
  write_or_poison w (encoding r) lim = (w', res) ->
  match res with
  | Ok _ => wal_repr (mkWal (dir w') (options w') (active_id w') (active_len w + record_len r)
                        (w_total_len w + record_len r) (poisoned w')) s
              (p ++ [mkStoredRecord (mkLsn (active_id w) (active_len w)) r]) /\ poisoned w' = false
  | Err _ => wal_repr w' s p /\ poisoned w' = true
  end /\ options w' = options w.
Proof.
  intros (closed & a1 & a2 & tail & cfs & act & HLay & Hs & Hpd & Hid & Hh & Ho & Hm) Hp Hr Hfit Hmax.
  destruct (Hh Hp) as (-> & Hal & Ht). pose proof (lay_lookup_act _ _ _ _ _ _ _ _ _ HLay) as Hact.
  rewrite Hal in Hfit. destruct (layout_write _ _ _ _ _ _ _ _ HLay Hr Hfit) as [HL1 HL2].
  unfold write_or_poison. rewrite Hid, Hact.
  destruct lim as [n|]; intros Heq; injection Heq as <- <-; (split; [|done]); (split; [|done]).
  - exists closed, a1, a2, (take (n `min` pred (length (encoding r))) (encoding r)), cfs,
      (mkWalFile (data act ++ take (n `min` pred (length (encoding r))) (encoding r))
         (stable act) (linked act)). simpl. split_and!; done || apply HL2.
  - exists closed, a1, (a2 ++ [r]), [], cfs,
      (mkWalFile (data act ++ encoding r) (stable act) (linked act)). simpl.
    assert (stored_len (s ++ p ++ [mkStoredRecord (mkLsn (N.of_nat (length closed)) (active_len w)) r]) =
            w_total_len w + record_len r) as Hl.
    { rewrite app_assoc, stored_len_app, Ht. f_equal. unfold stored_len. simpl. lia. }
    rewrite Hl. split_and!; try done.
    + unfold pending_records in *. rewrite place_app, Hpd, Hal. simpl.
      do 4 f_equal. apply seg_len_app.
    + intros _. split_and!; [done| |done]. rewrite app_assoc, seg_len_app, Hal. simpl. lia.
Qed.

(** The specification of [append]: on success the record follows the earlier ones and the
    returned position is its own; on failure no stored record is lost, and only a failed
    final sync leaves the new one behind. *)
Definition appended (w : Wal) (s p : list StoredRecord) (r : WalRecord) (dir_ok : bool)
    (w' : Wal) (res : result Lsn WalError) : Prop :=
  exists s' p', s `prefix_of` s' /\ options w' = options w /\
    disk_repr (segment_size (options w)) (dir w') s' p' /\
    (dir_ok = true -> wal_repr w' s' p') /\
    match res with
    | Ok lsn => wal_repr w' s' p' /\ poisoned w' = false /\
                s' ++ p' = s ++ p ++ [mkStoredRecord lsn r] /\
                (sync_on_append (options w) = true -> p' = []) /\
                offset lsn + record_len r <= segment_size (options w)
    | Err _ => s' ++ p' = s ++ p \/
               (poisoned w' = true /\ exists lsn, s' ++ p' = s ++ p ++ [mkStoredRecord lsn r])
    end.

(** Appending after the rotation. *)
Lemma append_tail_spec w s p k pl lim ok dir_ok :
  wal_repr w s p -> poisoned w = false -> 1 <= k < 65536 ->
  let r := mkWalRecord k pl in
  valid_record r -> active_len w + record_len r <= segment_size (options w) ->
  w_total_len w + record_len r <= max_size (options w) ->
  let lsn := mkLsn (active_id w) (active_len w) in
  let '(w1, res) := write_or_poison w (encoding r) lim in
  match res with
  | Err e => appended w s p r dir_ok w1 (Err e)
  | Ok _ =>
      let w2 := mkWal (dir w1) (options w1) (active_id w1) (active_len w + record_len r)
                  (w_total_len w + record_len r) (poisoned w1) in
      if sync_on_append (options w2) then
        let '(w3, res) := sync w2 ok in appended w s p r dir_ok w3 (let? _ := res in Ok lsn)
      else appended w s p r dir_ok w2 (Ok lsn)
  end.
Proof.
  intros Hw Hp Hk r Hr Hfit Hmax lsn. destruct (write_or_poison w (encoding r) lim) as [w1 res] eqn:Ew.
  destruct (write_spec _ _ _ _ _ _ _ Hw Hp Hr Hfit Hmax Ew) as [Hres Ho]. destruct res as [u|e].
  2:{ destruct Hres as [Hw1 Hp1]. exists s, p. split_and!; [done..| |done|by left].
      rewrite <- Ho. by apply wal_repr_disk. }
  destruct Hres as [Hw2 Hp1]. cbv zeta. cbn [options].
  set (w2 := mkWal _ _ _ _ _ _) in *. set (p2 := p ++ [mkStoredRecord lsn r]).
  destruct (sync_on_append (options w1)) eqn:Eso.
  2:{ exists s, p2. split_and!; try done.
      - rewrite <- Ho. apply (wal_repr_disk _ _ _ Hw2).
      - intros. congruence. }
  destruct (sync w2 ok) as [w3 res] eqn:Es.
  destruct (sync_spec _ _ _ _ _ _ Hw2 Es) as [Hres3 Ho3]. destruct res as [u3|e3].
  - destruct Hres3 as (Hw3 & Hp3 & _). exists (s ++ p2), []. unfold p2 in *.
    split_and!; try done; rewrite ?app_nil_r; try done.
    + by apply prefix_app_r.
    + by rewrite Ho3.
    + rewrite <- Ho. replace (options w1) with (options w3) by done. by apply wal_repr_disk.
  - destruct Hres3 as (Hw3 & Hp3 & _). exists s, p2. split_and!; try done.
    + by rewrite Ho3.
    + rewrite <- Ho. replace (options w1) with (options w3) by done. by apply wal_repr_disk.
    + right. split; [done|]. by exists lsn.
Qed.

(** An outcome after a rotation is an outcome of the whole append. *)
Lemma appended_after_rotation w s p r ok w1 s1 p1 w2 res :
  appended w1 s1 p1 r ok w2 res -> s1 ++ p1 = s ++ p -> s `prefix_of` s1 ->
  options w1 = options w -> appended w s p r ok w2 res.
Proof.
  intros (s' & p' & Hpre & Ho & Hd & Hw & Hres) Hsp Hpre1 Ho1. exists s', p'.
  rewrite Ho1 in *. split_and!; [by etrans|done..|]. destruct res.
  - by rewrite !app_assoc, Hsp, <- app_assoc in Hres.
  - destruct Hres as [Hres|(Hpz & lsn & Hres)]; [left; congruence|]. right. split; [done|].
    exists lsn. by rewrite Hres, !app_assoc, Hsp.
Qed.

Lemma append_spec w s p k pl f w' res :
  wal_repr w s p -> 1 <= k < 65536 -> append w k pl f = (w', res) ->
  appended w s p (mkWalRecord k pl) (sync_dir_ok f) w' res.
Proof.
  intros Hw Hk. set (r := mkWalRecord k pl). unfold append.
  assert (forall e, appended w s p r (sync_dir_ok f) w (Err e)) as Hsame.
  { intros e. exists s, p. split_and!; [done|done|by apply wal_repr_disk|done|by left]. }
  unfold ensure_healthy. destruct (poisoned w) eqn:Hp; [intros; by simplify_eq|].
  destruct (N.lt_ge_cases (N.of_nat (length pl)) two32) as [Hl|Hl].
  2:{ unfold encoded_len. rewrite (proj2 (N.leb_le _ _)) by done. intros; by simplify_eq. }
  assert (valid_record r) as Hr by done.
  destruct (encode_record_Ok r Hr) as [Henc Hlen]. cbn [payload kind r] in Henc, Hlen.
  rewrite Hlen, Henc. unfold checked_add_len.
  destruct (checked_add (w_total_len w) _) as [nt|] eqn:Et; [|intros; by simplify_eq].
  apply checked_add_Some in Et as [-> _].
  destruct (N.ltb_spec (max_size (options w)) (w_total_len w + record_len r)); [intros; by simplify_eq|].
  destruct (rotate_if_needed w (record_len r) f) as [w1 r1] eqn:Er.
  destruct (rotate_spec _ _ _ _ _ _ _ Hw Hp Er) as (s1 & p1 & Hsp & Hpre & Ho & Hd & Hi & Hok).
  destruct r1 as [u|e].
  2:{ intros Heq. injection Heq as <- <-. exists s1, p1. split_and!; try done. by left. }
  destruct (Hok eq_refl) as (Hw1 & Hp1 & Hfit & Ht1). rewrite encoding_length.
  pose proof Hw1 as (_ & _ & _ & _ & _ & _ & _ & _ & _ & _ & _ & [[_ Hsz] _] & _). rewrite Ho in Hsz.
  unfold checked_add. rewrite (proj2 (N.ltb_lt _ _)) by lia.
  pose proof (append_tail_spec w1 s1 p1 k pl (write_limit f) (sync_ok f) (sync_dir_ok f) Hw1 Hp1 Hk Hr
    ltac:(by rewrite Ho) ltac:(by rewrite Ho, Ht1)) as Hat. cbv zeta in Hat. fold r in Hat.
  rewrite Ht1 in Hat.
  destruct (write_or_poison w1 (encoding r) (write_limit f)) as [w2 r2].
  destruct r2; [|intros; simplify_eq; by eapply appended_after_rotation].
  cbv zeta. destruct (sync_on_append _); [|intros; simplify_eq; by eapply appended_after_rotation].
  destruct (sync _ _) as [w3 r3]. intros; simplify_eq; by eapply appended_after_rotation.
Qed.

(** ** Iterating over the records *)

(** A reader with the records [rs] ahead of it. *)
Definition reader_at (id size o : N) (rs : list WalRecord) : SegmentReader :=
  mkSegmentReader id size (o + seg_len rs) o (seg_data rs).

Lemma next_record_at id size o r rs :
  valid_record r -> o + seg_len (r :: rs) <= size -> size < two64 ->
  next_record (reader_at id size o (r :: rs)) =
  (reader_at id size (o + record_len r) rs, Ok (Some (mkStoredRecord (mkLsn id o) r))).
Proof.
  intros Hr Hfit Hsize. unfold next_record, reader_at. cbn [file r_segment_id r_offset r_segment_size physical_len].
  rewrite <- (app_nil_r (seg_data (r :: rs))), seg_data_cons, app_nil_r.
  rewrite seg_len_cons in *.
  rewrite read_one_encoding; cbn [offset]; try done; try lia.
  by rewrite N.add_assoc.
Qed.

(** Segment [i] of the directory holds exactly the records [rs]. *)
Definition segment_holds (d : Dir) (size i : N) (rs : list WalRecord) : Prop :=
  Forall valid_record rs /\ seg_len rs <= size /\
  exists f, d !! segment_path i = Some f /\ data f = seg_data rs.

(** The segments from [i] on hold [rss]. *)
Fixpoint segments_hold (d : Dir) (size i : N) (rss : list (list WalRecord)) : Prop :=
  match rss with
  | [] => True
  | rs :: rss' => segment_holds d size i rs /\ segments_hold d size (i + 1) rss'
  end.

(** The iterator will yield [xs]. *)
Definition will_yield (d : Dir) (size : N) (r : Records) (xs : list StoredRecord) : Prop :=
  exists i rss id o rs, size < two64 /\ segments_hold d size i rss /\
    Forall valid_record rs /\ o + seg_len rs <= size /\
    (r = mkRecords d size (seqN i (length rss)) (Some (reader_at id size o rs)) false \/
     rs = [] /\ r = mkRecords d size (seqN i (length rss)) None false) /\
    xs = place id o rs ++ place_segments i rss.

Lemma reader_open_at d size i rs :
  segment_holds d size i rs -> reader_open d i size = Ok (reader_at i size 0 rs).
Proof.
  intros (_ & _ & f & Hf & Hd). unfold reader_open, reader_at. rewrite Hf, Hd, seg_data_length. done.
Qed.

(** [next] from a reader, and from between two segments. *)
Lemma next_loop_spec d size rss i id o rs :
  size < two64 -> segments_hold d size i rss -> Forall valid_record rs -> o + seg_len rs <= size ->
  forall seg, seg = Some (reader_at id size o rs) \/ (rs = [] /\ seg = None) ->
  match place id o rs ++ place_segments i rss with
  | [] => exists r', next_loop d size (seqN i (length rss)) seg = (r', None)
  | x :: xs => exists r', next_loop d size (seqN i (length rss)) seg = (r', Some (Ok x)) /\
                          will_yield d size r' xs
  end.
Proof.
  intros Hsize. revert i id o rs. induction rss as [|rs' rss IH]; intros i id o rs Hh Hv Hfit seg Hseg.
  - destruct rs as [|r rs].
    + destruct Hseg as [->|[_ ->]]; simpl; eauto.
    + destruct Hseg as [->|[? _]]; [|done]. apply Forall_cons in Hv as [Hr Hv].
      cbn [next_loop length seqN]. cbn [place app]. eexists. change (seqN i 0) with (@nil N).
      cbn [next_loop]. rewrite next_record_at by done. split; [done|].
      exists i, [], id, (o + record_len r), rs. split_and!; [done..| | |done].
      * rewrite seg_len_cons in Hfit. lia.
      * by left.
  - destruct Hh as [Hh Hhs]. cbn [length]. rewrite seqN_cons.
    assert (next_loop d size (i :: seqN (i + 1) (length rss)) None =
            next_loop d size (seqN (i + 1) (length rss)) (Some (reader_at i size 0 rs'))) as Hadv.
    { cbn [next_loop]. by rewrite (reader_open_at _ _ _ _ Hh). }
    destruct rs as [|r rs].
    + assert (next_loop d size (i :: seqN (i + 1) (length rss)) seg =
              next_loop d size (i :: seqN (i + 1) (length rss)) None) as ->
        by (destruct Hseg as [->|[_ ->]]; done).
      rewrite Hadv. cbn [place place_segments app]. destruct Hh as (Hv' & Hf' & _).
      apply IH; [done|done|lia|by left].
    + destruct Hseg as [->|[? _]]; [|done]. apply Forall_cons in Hv as [Hr Hv].
      cbn [place app]. eexists. cbn [next_loop]. rewrite next_record_at by done. split; [done|].
      exists i, (rs' :: rss), id, (o + record_len r), rs. cbn [length].
      rewrite seqN_cons. split_and!; [done..| | |done].
      * rewrite seg_len_cons in Hfit. lia.
      * by left.
Qed.

Lemma collect_spec d size fuel r xs :
  will_yield d size r xs -> (length xs < fuel)%nat -> collect fuel r = Ok xs.
Proof.
  revert r xs. induction fuel as [|fuel IH]; intros r xs Hy Hf; [lia|]. cbn [collect].
  destruct Hy as (i & rss & id & o & rs & Hsize & Hh & Hv & Hfit & Hr & ->).
  assert (exists seg, (seg = Some (reader_at id size o rs) \/ (rs = [] /\ seg = None)) /\
            next r = next_loop d size (seqN i (length rss)) seg) as (seg & Hseg & ->).
  { destruct Hr as [->|[-> ->]]; [exists (Some (reader_at id size o rs))|exists None]; eauto. }
  pose proof (next_loop_spec d size rss i id o rs Hsize Hh Hv Hfit seg Hseg) as Hn.
  destruct (place id o rs ++ place_segments i rss) as [|x xs].
  - by destruct Hn as [r' ->].
  - destruct Hn as (r' & -> & Hy). simpl in Hf. by rewrite (IH r' xs) by (done || lia).
Qed.

Lemma segments_hold_intro d size i rss :
  (forall j rs, rss !! j = Some rs -> segment_holds d size (i + N.of_nat j) rs) ->
  segments_hold d size i rss.
Proof.
  revert i. induction rss as [|rs rss IH]; intros i H; [done|]. split.
  - rewrite <- (N.add_0_r i). by apply (H O).
  - apply IH. intros j rs' Hj. replace (i + 1 + N.of_nat j) with (i + N.of_nat (S j)) by lia. by apply H.
Qed.

(** The full segments of a layout. *)
Lemma layout_closed_holds size d closed a1 a2 tail cfs act ex j rs :
  layout size d closed a1 a2 tail cfs act ex -> closed !! j = Some rs ->
  segment_holds d size (N.of_nat j) rs.
Proof.
  intros H Hj. destruct (Forall2_lookup_r _ _ _ _ _ (lay_closed _ _ _ _ _ _ _ _ _ H) Hj) as (f & Hf & Hd & _).
  split_and!.
  - eapply (Forall_lookup_1 _ _ _ _ (lay_valid _ _ _ _ _ _ _ _ _ H)), Hj.
  - exact (Forall_lookup_1 _ _ _ _ (lay_fit _ _ _ _ _ _ _ _ _ H) Hj).
  - exists f. split; [|done]. apply (holds_files _ _ (lay_dir _ _ _ _ _ _ _ _ _ H)).
    apply lookup_app_l_Some, Hf.
Qed.

Lemma layout_segments size d closed a1 a2 cfs act ex :
  layout size d closed a1 a2 [] cfs act ex -> segments_hold d size 0 (closed ++ [a1 ++ a2]).
Proof.
  intros H. apply segments_hold_intro. intros j rs Hj. rewrite N.add_0_l.
  apply lookup_snoc_Some in Hj as [[_ Hj]|[-> <-]]; [by eapply layout_closed_holds|].
  split_and!; [apply H..|]. exists act. split; [by eapply lay_lookup_act|].
  rewrite (lay_act _ _ _ _ _ _ _ _ _ H). apply app_nil_r.
Qed.

Lemma stored_len_ge xs : N.of_nat (length xs) <= stored_len xs.
Proof.
  unfold stored_len. induction xs as [|x xs IH]; [done|].
  rewrite fmap_cons, seg_len_cons. cbn [length]. pose proof (record_len_pos (sr_record x)). lia.
Qed.

(** The iteration yields every record with its position. *)
Lemma all_records_spec w s p :
  wal_repr w s p -> poisoned w = false -> all_records w = Ok (s ++ p).
Proof.
  intros (closed & a1 & a2 & tail & cfs & act & HLay & Hs & Hpd & Hid & Hh & Ho & Hm) Hp.
  destruct (Hh Hp) as (-> & _ & Ht). unfold all_records, records, ensure_healthy. rewrite Hp.
  rewrite (segment_ids_Ok _ _ (lay_dir _ _ _ _ _ _ _ _ _ HLay)).
  apply (collect_spec (dir w) (segment_size (options w))).
  - exists 0, (closed ++ [a1 ++ a2]), 0, 0, []. destruct Ho as [[? ?] _].
    split_and!; [done|by eapply layout_segments|done|simpl; lia| |].
    + right. split; [done|]. do 2 f_equal. rewrite !length_app. simpl.
      by rewrite (lay_length _ _ _ _ _ _ _ _ _ HLay).
    + rewrite Hs, Hpd, <- stable_app_pending, <- stable_records_close. unfold stable_records.
      by rewrite app_nil_r.
  - pose proof (stored_len_ge (s ++ p)). lia.
Qed.

(** ** Crashes *)

Lemma crashed_lookup d d' name f :
  crashed d d' -> d !! name = Some f -> linked f = true ->
  exists n, (stable f <= n <= length (data f))%nat /\ d' !! name = Some (mkWalFile (take n (data f)) n true).
Proof.
  intros Hc Hf Hl. specialize (Hc name). rewrite Hf in Hc.
  destruct (d' !! name); [|congruence]. destruct Hc as (n & Hn & ->). eauto.
Qed.

(** A fully stable, linked file survives a crash. *)
Lemma crashed_stable d d' name f :
  crashed d d' -> d !! name = Some f -> linked f = true -> stable f = length (data f) ->
  d' !! name = Some f.
Proof.
  intros Hc Hf Hl Hs. destruct (crashed_lookup _ _ _ _ Hc Hf Hl) as (n & Hn & ->).
  assert (n = length (data f)) as -> by lia. rewrite firstn_all. destruct f. simpl in *. congruence.
Qed.

Lemma crashed_is_Some d d' name : crashed d d' -> is_Some (d' !! name) -> is_Some (d !! name).
Proof. intros Hc [f' Hf]. specialize (Hc name). rewrite Hf in Hc. destruct (d !! name); [eauto|done]. Qed.

Lemma crashed_holds_prefix d d' fs fs' :
  crashed d d' -> dir_holds d fs -> (length fs' <= length fs)%nat ->
  (forall i f, fs' !! i = Some f -> d' !! segment_path (N.of_nat i) = Some f) ->
  (forall i, (length fs' <= i < length fs)%nat -> d' !! segment_path (N.of_nat i) = None) ->
  dir_holds d' fs'.
Proof.
  intros Hc [Hf Hn Hb] Hle Hf' Hgone. constructor; [done| |lia].
  intros name He Hs. destruct (Hn name He) as (i & Hi & ->); [by eapply crashed_is_Some|].
  exists i. split; [|done]. destruct (Nat.lt_ge_cases i (length fs')); [done|].
  rewrite Hgone in Hs by lia. by destruct Hs.
Qed.

(** Of the segment files a crash keeps all but an unlinked last one. *)
Lemma crashed_holds d d' cfs act ex :
  crashed d d' -> dir_holds d (cfs ++ act :: ex) ->
  Forall (fun f => stable f = length (data f) /\ linked f = true) cfs -> linked act = true ->
  ex = [] \/ (exists b, ex = [mkWalFile [] 0 b]) ->
  exists n ex', (stable act <= n <= length (data act))%nat /\
    (ex' = [] \/ ex <> [] /\ ex' = [mkWalFile [] 0 true]) /\
    dir_holds d' (cfs ++ mkWalFile (take n (data act)) n true :: ex').
Proof.
  intros Hc Hd Hcl Hl Hex. pose proof (holds_files _ _ Hd) as Hf.
  assert ((cfs ++ act :: ex) !! length cfs = Some act) as Ha
    by (rewrite lookup_app_r, Nat.sub_diag by lia; done).
  destruct (crashed_lookup _ _ _ _ Hc (Hf _ _ Ha) Hl) as (n & Hnn & Ha').
  assert (forall ex' i f, (cfs ++ mkWalFile (take n (data act)) n true :: ex') !! i = Some f ->
    (i <= length cfs)%nat -> d' !! segment_path (N.of_nat i) = Some f) as Hlow.
  { intros ex' i f Hi Hle. destruct (decide (i = length cfs)) as [->|Hne].
    - rewrite lookup_app_r, Nat.sub_diag in Hi by lia. simpl in Hi. by simplify_eq.
    - rewrite lookup_app_l in Hi by lia. destruct (Forall_lookup_1 _ _ _ _ Hcl Hi).
      eapply crashed_stable; [done| |done..]. apply Hf. by apply lookup_app_l_Some. }
  assert (forall ex', (length ex' <= length ex)%nat ->
    d' !! segment_path (N.of_nat (S (length cfs))) = head ex' \/ ex = [] ->
    dir_holds d' (cfs ++ mkWalFile (take n (data act)) n true :: ex')) as Hall.
  { intros ex' Hlen Hhd. assert (length ex <= 1)%nat as Hlex by (destruct Hex as [->|[b ->]]; simpl; lia).
    apply (crashed_holds_prefix d d' (cfs ++ act :: ex)); [done..| | |].
    - rewrite !length_app. simpl. lia.
    - intros i f Hi. destruct (Nat.le_gt_cases i (length cfs)); [by eapply Hlow|].
      pose proof (lookup_lt_Some _ _ _ Hi) as Hlt. rewrite length_app in Hlt. simpl in Hlt.
      assert (i = S (length cfs)) as -> by lia. rewrite lookup_app_r in Hi by lia.
      replace (S (length cfs) - length cfs)%nat with 1%nat in Hi by lia.
      destruct ex' as [|g ex']; [done|]. simpl in Hi. simplify_eq.
      destruct Hhd as [-> | ->]; [done|simpl in Hlen; lia].
    - intros i. rewrite !length_app. simpl. intros Hi. assert (i = S (length cfs)) as -> by lia.
      destruct Hhd as [-> | ->]; [|simpl in *; lia]. destruct ex'; [done|simpl in *; lia]. }
  exists n. destruct Hex as [->|[b ->]].
  { exists []. split_and!; [lia|lia|by left|]. apply Hall; [done|by right]. }
  assert ((cfs ++ [act; mkWalFile [] 0 b]) !! S (length cfs) = Some (mkWalFile [] 0 b)) as He.
  { rewrite lookup_app_r by lia. by replace (S (length cfs) - length cfs)%nat with 1%nat by lia. }
  apply Hf in He. pose proof (Hc (segment_path (N.of_nat (S (length cfs))))) as Hce. rewrite He in Hce.
  destruct (d' !! segment_path (N.of_nat (S (length cfs)))) as [f'|] eqn:E.
  - destruct Hce as (m & Hm & ->). simpl in Hm. assert (m = 0)%nat as -> by lia.
    exists [mkWalFile [] 0 true]. split_and!; [lia|lia|by right|]. apply Hall; [done|by left].
  - exists []. split_and!; [lia|lia|by left|]. apply Hall; [simpl; lia|by left].
Qed.

(** Every segment file has a stable directory entry, as after a crash. *)
Definition all_linked (d : Dir) : Prop :=
  forall id f, d !! segment_path id = Some f -> linked f = true.

Lemma crashed_all_linked d d' : crashed d d' -> all_linked d'.
Proof.
  intros Hc id f Hf. specialize (Hc (segment_path id)). rewrite Hf in Hc.
  destruct (d !! segment_path id); [|done]. by destruct Hc as (n & _ & ->).
Qed.

(** A crash keeps the stable records and some of those written after them. *)
Lemma crash_spec size d s p d' :
  disk_repr size d s p -> crashed d d' ->
  exists k, disk_repr size d' (s ++ take k p) [] /\ all_linked d'.
Proof.
  intros (closed & a1 & a2 & tail & cfs & act & ex & HLay & -> & ->) Hc. destruct HLay.
  destruct (crashed_holds _ _ _ _ _ Hc lay_dir0) as (n & ex' & Hn & Hex' & Hd').
  { clear - lay_closed0. induction lay_closed0 as [|f rs cfs closed (? & ? & ?)]; constructor; auto. }
  { done. }
  { destruct lay_extra0 as [->|(_ & _ & _ & ?)]; auto. }
  destruct (take_seg_data size 0 (a1 ++ a2) tail n) as (k & tail' & Ed & Ht' & Hk); [done|lia|done|].
  rewrite <- lay_act0 in Ed. rewrite N.add_0_l in Ht'.
  assert (length a1 <= k)%nat as Hka.
  { specialize (Hk (length a1)). rewrite take_app_length, length_app in Hk. lia. }
  assert (take k (a1 ++ a2) = a1 ++ take (k - length a1) a2) as Etk by (by rewrite take_app_ge by lia).
  exists (k - length a1)%nat. split; [|by eapply crashed_all_linked].
  exists closed, (take k (a1 ++ a2)), [], tail', cfs, (mkWalFile (take n (data act)) n true), ex'.
  split; [constructor; simpl; rewrite ?app_nil_r; try done|split; [|done]].
  - pose proof (f_equal length Ed) as El. rewrite length_take, length_app in El.
    pose proof (seg_data_length (take k (a1 ++ a2))). lia.
  - rewrite length_take. lia.
  - by apply Forall_take.
  - rewrite Etk, seg_len_app. rewrite seg_len_app in lay_fit_active0.
    rewrite <- (take_drop (k - length a1) a2), seg_len_app in lay_fit_active0. lia.
  - destruct Hex' as [->|[Hne ->]]; [by left|]. right.
    destruct lay_extra0 as [->|(-> & -> & Hst & _)]; [done|]. rewrite !app_nil_r in *.
    split_and!; [done| |rewrite length_take; lia|by exists true].
    rewrite (take_ge a1 k), (take_ge (data act) n), lay_act0 in Ed by lia.
    rewrite <- (app_nil_r (seg_data a1)) in Ed at 1. by apply app_inv_head in Ed.
  - rewrite Etk, stable_app_pending. unfold pending_records. by rewrite take_place.
Qed.

(** ** Opening *)

Lemma valid_len_spec d id size f rs tail :
  d !! segment_path id = Some f -> data f = seg_data rs ++ tail ->
  Forall valid_record rs -> seg_len rs <= size -> size < two64 -> torn size (seg_len rs) tail ->
  valid_len d id size =
  Ok (if bool_decide (tail = []) then Clean (seg_len rs) else IncompleteTail (seg_len rs)).
Proof.
  intros Hf Hd Hv Hfit Hsize Ht. unfold valid_len. rewrite Hf, Hd.
  rewrite scan_spec by (rewrite ?N.add_0_l; done || lia). by rewrite N.add_0_l.
Qed.

Lemma recover_loop_skip d ids1 ids2 size f :
  (forall id, id ∈ ids1 -> exists len, valid_len d id size = Ok (Clean len)) -> ids2 <> [] ->
  recover_loop d (ids1 ++ ids2) size f = recover_loop d ids2 size f.
Proof.
  induction ids1 as [|id ids1 IH]; intros Hc Hne; [done|]. cbn [app recover_loop].
  destruct (Hc id) as [len ->]; [left|]. destruct (ids1 ++ ids2) eqn:E.
  - by apply app_eq_nil in E as [_ ?].
  - rewrite <- E in *. apply IH; [|done]. intros. apply Hc. by right.
Qed.

(** The directory after a truncation of the active segment's torn tail. *)
Lemma layout_truncate size d closed a1 a2 tail cfs act :
  layout size d closed a1 a2 tail cfs act [] ->
  forall n, (stable act `min` length (seg_data (a1 ++ a2)) <= n <= length (seg_data (a1 ++ a2)))%nat ->
  let act' := mkWalFile (take (N.to_nat (seg_len (a1 ++ a2))) (data act)) n (linked act) in
  layout size (<[segment_path (N.of_nat (length closed)) := act']> d) closed a1 a2 [] cfs act' [].
Proof.
  intros H n Hn act'. pose proof (lay_length _ _ _ _ _ _ _ _ _ H) as Hlen. destruct H.
  pose proof (seg_data_length (a1 ++ a2)) as Hsd. pose proof (seg_len_app a1 a2).
  assert (data act' = seg_data (a1 ++ a2)) as Hd.
  { unfold act'. simpl. rewrite lay_act0. apply take_app_length'. lia. }
  constructor; try done; try (by left).
  - rewrite <- Hlen. by apply dir_holds_active with act.
  - rewrite Hd. by rewrite app_nil_r.
  - simpl. lia.
  - rewrite Hd. simpl. lia.
Qed.

(** What recovery makes of a directory that stores [s ++ p]: a directory that stores the
    same records, in which on success the last segment ends with a whole record. *)
Definition recovered (size : N) (s p : list StoredRecord) (f : Faults) (d' : Dir)
    (r : result (N * N) WalError) : Prop :=
  match r with
  | Ok (id, len) =>
      exists closed a1 a2 cfs act, layout size d' closed a1 a2 [] cfs act [] /\
        s = stable_records closed a1 /\ p = pending_records closed a1 a2 /\
        id = N.of_nat (length closed) /\ len = seg_len (a1 ++ a2)
  | Err _ => disk_repr size d' s p /\ (truncate_ok f && sync_ok f = false)
  end.

Definition loop_recovered (size : N) (s p : list StoredRecord) (f : Faults)
    (x : Dir * result (option (N * N)) WalError) : Prop :=
  match snd x with
  | Ok None => False
  | Ok (Some r) => recovered size s p f (fst x) (Ok r)
  | Err e => recovered size s p f (fst x) (Err e)
  end.

Lemma valid_len_active size d closed a1 a2 tail cfs act ex :
  layout size d closed a1 a2 tail cfs act ex -> size < two64 ->
  valid_len d (N.of_nat (length closed)) size =
  Ok (if bool_decide (tail = []) then Clean (seg_len (a1 ++ a2))
      else IncompleteTail (seg_len (a1 ++ a2))).
Proof. intros H Hsize. eapply valid_len_spec; [by eapply lay_lookup_act|by apply H..|done|apply H]. Qed.

(** The loop skips the full segments. *)
Lemma recover_loop_closed size d closed a1 a2 tail cfs act ex f ids :
  layout size d closed a1 a2 tail cfs act ex -> size < two64 -> ids <> [] ->
  recover_loop d (seqN 0 (length closed) ++ ids) size f = recover_loop d ids size f.
Proof.
  intros HLay Hsize Hne. apply recover_loop_skip; [|done]. intros id Hid. apply elem_of_seqN in Hid.
  destruct (lookup_lt_is_Some_2 closed (N.to_nat id)) as [rs Hrs]; [lia|].
  destruct (layout_closed_holds _ _ _ _ _ _ _ _ _ _ _ HLay Hrs) as (Hv & Hfit & g & Hg & Hd).
  rewrite N2Nat.id in Hg. exists (seg_len rs).
  rewrite (valid_len_spec d id size g rs []); [done|done|by rewrite app_nil_r|done..|by left].
Qed.

(** The active segment is the last one: its torn tail is cut off. *)
Lemma recover_active size d closed a1 a2 tail cfs act f :
  layout size d closed a1 a2 tail cfs act [] -> size < two64 ->
  loop_recovered size (stable_records closed a1) (pending_records closed a1 a2) f
    (recover_loop d [N.of_nat (length closed)] size f).
Proof.
  intros HLay Hsize. pose proof (lay_lookup_act _ _ _ _ _ _ _ _ _ HLay) as Hact.
  cbn [recover_loop]. rewrite (valid_len_active _ _ _ _ _ _ _ _ _ HLay Hsize).
  case_bool_decide as Hne; [subst tail; by exists closed, a1, a2, cfs, act|].
  unfold truncate_segment. rewrite Hact. pose proof (layout_truncate _ _ _ _ _ _ _ _ HLay) as Htr.
  pose proof (seg_data_length (a1 ++ a2)) as Hsd. cbv zeta in Htr. unfold loop_recovered, recovered.
  destruct (truncate_ok f) eqn:Etr; [destruct (sync_ok f) eqn:Esy|]; cbn [fst snd].
  - exists closed, a1, a2, cfs, (sync_all (mkWalFile (take (N.to_nat (seg_len (a1 ++ a2))) (data act))
      (stable act `min` N.to_nat (seg_len (a1 ++ a2))) (linked act))).
    split_and!; try done. apply Htr. cbn [data].
    rewrite length_take, (lay_act _ _ _ _ _ _ _ _ _ HLay), length_app. lia.
  - split; [|done]. do 7 eexists. split; [|done]. apply Htr. lia.
  - split; [|done]. by exists closed, a1, a2, tail, cfs, act, [].
Qed.

(** A leftover next segment becomes the active one. *)
Lemma recover_extra size d closed a1 cfs act b f :
  layout size d closed a1 [] [] cfs act [mkWalFile [] 0 b] -> size < two64 -> all_linked d ->
  loop_recovered size (stable_records closed a1) [] f
    (recover_loop d [N.of_nat (length closed); N.of_nat (length closed) + 1] size f).
Proof.
  intros HLay Hsize Hlk. pose proof (lay_length _ _ _ _ _ _ _ _ _ HLay) as Hlen.
  assert (d !! segment_path (N.of_nat (length closed) + 1) = Some (mkWalFile [] 0 b)) as Hex.
  { rewrite <- Hlen. replace (N.of_nat (length cfs) + 1) with (N.of_nat (length cfs + 1)) by lia.
    apply (holds_files _ _ (lay_dir _ _ _ _ _ _ _ _ _ HLay)).
    rewrite lookup_app_r by lia. by replace (length cfs + 1 - length cfs)%nat with 1%nat by lia. }
  pose proof (Hlk _ _ Hex) as Hb. simpl in Hb. subst b. cbn [recover_loop].
  rewrite (valid_len_active _ _ _ _ _ _ _ _ _ HLay Hsize), bool_decide_eq_true_2 by done.
  rewrite (valid_len_spec d _ size _ [] [] Hex eq_refl) by (done || by left || (simpl; lia)).
  rewrite bool_decide_eq_true_2 by done.
  exists (closed ++ [a1]), [], [], (cfs ++ [act]), (mkWalFile [] 0 true).
  rewrite stable_records_close, length_app. split_and!; try done; [by apply layout_advance|simpl; lia].
Qed.

(** The loop over the segments of a layout. *)
Lemma recover_loop_spec size d closed a1 a2 tail cfs act ex f :
  layout size d closed a1 a2 tail cfs act ex -> size < two64 -> all_linked d ->
  loop_recovered size (stable_records closed a1) (pending_records closed a1 a2) f
    (recover_loop d (seqN 0 (length (cfs ++ act :: ex))) size f).
Proof.
  intros HLay Hsize Hlk. rewrite length_app, (lay_length _ _ _ _ _ _ _ _ _ HLay).
  destruct (lay_extra _ _ _ _ _ _ _ _ _ HLay) as [->|(-> & -> & _ & b & ->)]; cbn [length].
  - rewrite Nat.add_1_r, seqN_S, N.add_0_l, (recover_loop_closed _ _ _ _ _ _ _ _ _ _ _ HLay) by done.
    by eapply recover_active.
  - replace (length closed + 2)%nat with (S (S (length closed))) by lia.
    rewrite seqN_S, seqN_S, !N.add_0_l, <- app_assoc. cbn [app].
    rewrite (recover_loop_closed _ _ _ _ _ _ _ _ _ _ _ HLay) by done.
    replace (N.of_nat (S (length closed))) with (N.of_nat (length closed) + 1) by lia.
    by eapply recover_extra.
Qed.

(** The specification of [recover]. *)
Lemma recover_spec size d s p f d' r :
  disk_repr size d s p -> size < two64 -> all_linked d -> recover d size f = (d', r) ->
  recovered size s p f d' r.
Proof.
  intros (closed & a1 & a2 & tail & cfs & act & ex & HLay & -> & ->) Hsize Hlk.
  unfold recover. rewrite (segment_ids_Ok _ _ (lay_dir _ _ _ _ _ _ _ _ _ HLay)).
  pose proof (recover_loop_spec _ _ _ _ _ _ _ _ _ f HLay Hsize Hlk) as Hr.
  destruct (seqN 0 (length (cfs ++ act :: ex))) as [|i ids] eqn:Es.
  { rewrite length_app in Es. cbn [length] in Es. rewrite Nat.add_succ_r, seqN_cons in Es. done. }
  destruct (recover_loop _ _ _ _) as [d1 [[x|]|e]]; [|done|]; intros; by simplify_eq.
Qed.

Lemma sum_lens_spec d size i rss total :
  segments_hold d size i rss ->
  total + foldr (fun rs n => seg_len rs + n) 0 rss < two64 ->
  sum_lens d total (seqN i (length rss)) = Ok (total + foldr (fun rs n => seg_len rs + n) 0 rss).
Proof.
  revert i total. induction rss as [|rs rss IH]; intros i total Hh Hb.
  - simpl. by rewrite N.add_0_r.
  - destruct Hh as [(_ & _ & f & Hf & Hd) Hh]. cbn [length foldr] in *. rewrite seqN_cons. cbn [sum_lens].
    unfold segment_len. rewrite Hf, Hd, seg_data_length. unfold checked_add.
    rewrite (proj2 (N.ltb_lt _ _)) by lia. rewrite IH; [f_equal; lia|done|lia].
Qed.

Lemma stored_len_segments i rss :
  stored_len (place_segments i rss) = foldr (fun rs n => seg_len rs + n) 0 rss.
Proof.
  revert i. induction rss as [|rs rss IH]; intros i; [done|]. cbn [place_segments foldr].
  by rewrite stored_len_app, stored_len_place, IH.
Qed.

(** The total length of a clean layout. *)
Lemma total_len_spec size d closed a1 a2 cfs act :
  layout size d closed a1 a2 [] cfs act [] ->
  let n := stored_len (stable_records closed a1 ++ pending_records closed a1 a2) in
  n < two64 -> total_len d = Ok n.
Proof.
  intros HLay n Hn. unfold total_len. rewrite (segment_ids_Ok _ _ (lay_dir _ _ _ _ _ _ _ _ _ HLay)).
  assert (length (cfs ++ [act]) = length (closed ++ [a1 ++ a2])) as ->
    by (rewrite !length_app, (lay_length _ _ _ _ _ _ _ _ _ HLay); done).
  assert (n = foldr (fun rs n => seg_len rs + n) 0 (closed ++ [a1 ++ a2])) as Hnn.
  { unfold n. rewrite <- stable_app_pending, <- stable_records_close. unfold stable_records.
    by rewrite app_nil_r, stored_len_segments. }
  rewrite (sum_lens_spec d size); [by rewrite N.add_0_l, Hnn|by eapply layout_segments|].
  by rewrite N.add_0_l, <- Hnn.
Qed.

(** A file that is not a segment does not matter. *)
Lemma layout_other size d closed a1 a2 tail cfs act ex name f :
  layout size d closed a1 a2 tail cfs act ex -> extension name <> Some SEGMENT_SUFFIX ->
  layout size (<[name := f]> d) closed a1 a2 tail cfs act ex.
Proof. intros [] He. constructor; try done. by apply dir_holds_other. Qed.

Lemma lock_spec d d' r : lock d false true = (d', r) -> r = Ok tt /\ (d' = d \/ d' = <[LOCK_FILE := new_file]> d).
Proof. unfold lock. intros. simplify_eq. split; [done|]. destruct (d !! LOCK_FILE); auto. Qed.

Lemma all_linked_lock d f : all_linked d -> all_linked (<[LOCK_FILE := f]> d).
Proof.
  intros H id g Hg. rewrite lookup_insert_ne in Hg; [by eapply H|].
  intros E. pose proof (segment_path_extension id) as He. by rewrite <- E in He.
Qed.

Lemma disk_repr_lock size d s p f : disk_repr size d s p -> disk_repr size (<[LOCK_FILE := f]> d) s p.
Proof.
  intros (closed & a1 & a2 & tail & cfs & act & ex & HLay & ? & ?). do 7 eexists.
  split; [|done]. by apply layout_other.
Qed.

Lemma validate_options_ok o : options_ok o -> validate_options o = Ok tt.
Proof.
  intros [[H1 _] [H2 _]]. unfold validate_options.
  by rewrite (proj2 (N.ltb_ge _ _)), (proj2 (N.ltb_ge _ _)) by done.
Qed.

(** The part of [open] after the recovery. *)
Lemma open_tail_spec o d s p f id len :
  recovered (segment_size o) s p f d (Ok (id, len)) -> options_ok o ->
  stored_len (s ++ p) <= max_size o ->
  total_len d = Ok (stored_len (s ++ p)) /\
  is_Some (d !! segment_path id) /\
  disk_repr (segment_size o) d s p /\
  wal_repr (mkWal d o id len (stored_len (s ++ p)) false) s p.
Proof.
  intros (closed & a1 & a2 & cfs & act & HLay & -> & -> & -> & ->) Ho Hmax.
  assert (stored_len (stable_records closed a1 ++ pending_records closed a1 a2) < two64) as Hb
    by (destruct Ho as [_ [_ ?]]; lia).
  split_and!.
  - by apply (total_len_spec _ _ _ _ _ _ _ HLay).
  - exists act. by eapply lay_lookup_act.
  - by exists closed, a1, a2, [], cfs, act, [].
  - by exists closed, a1, a2, [], cfs, act.
Qed.

(** The specification of [open] on a directory that stores [s ++ p]. *)
Lemma open_spec o d s p f d' r :
  disk_repr (segment_size o) d s p -> options_ok o -> all_linked d -> stored_len (s ++ p) <= max_size o ->
  open d false o f = (d', r) ->
  disk_repr (segment_size o) d' s p /\
  match r with
  | Ok w => wal_repr w s p /\ poisoned w = false /\ dir w = d' /\ options w = o
  | Err _ => truncate_ok f && sync_ok f && create_ok f = false
  end.
Proof.
  intros Hd Ho Hlk Hmax. unfold open. rewrite validate_options_ok by done.
  destruct (lock d false true) as [d1 r1] eqn:El. apply lock_spec in El as [-> Hd1].
  assert (disk_repr (segment_size o) d1 s p /\ all_linked d1) as [Hdr Hlk1].
  { destruct Hd1 as [-> | ->]; [done|]. split; [by apply disk_repr_lock|by apply all_linked_lock]. }
  destruct (recover d1 (segment_size o) f) as [d2 r2] eqn:Er.
  apply (recover_spec _ _ s p) in Er; [|done|apply Ho|done]. destruct r2 as [[id len]|e].
  2:{ destruct Er as [Hd2 Hf]. intros. simplify_eq. rewrite Hf. by split. }
  destruct (open_tail_spec _ _ _ _ _ _ _ Er Ho Hmax) as (-> & [file Hfile] & Hd2 & Hw).
  rewrite (proj2 (N.ltb_ge _ _)) by done. unfold open_segment. rewrite Hfile.
  destruct (create_ok f); intros; simplify_eq; split; try done. by rewrite andb_false_r.
Qed.

(** [open] on an empty directory. *)
Lemma open_fresh o d f d' r :
  dir_holds d [] -> options_ok o -> create_ok f = true -> sync_dir_ok f = true ->
  open d false o f = (d', r) ->
  exists w, r = Ok w /\ wal_repr w [] [] /\ poisoned w = false /\ dir w = d' /\ options w = o.
Proof.
  intros Hd Ho Hc Hs. unfold open. rewrite validate_options_ok by done.
  destruct (lock d false true) as [d1 r1] eqn:El. apply lock_spec in El as [-> Hd1].
  assert (dir_holds d1 []) as Hd1'.
  { destruct Hd1 as [-> | ->]; [done|]. by apply dir_holds_other. }
  clear Hd1. unfold recover. rewrite (segment_ids_Ok _ _ Hd1'). cbn [length].
  change (seqN 0 0) with (@nil N). unfold create_first, sync_dir. rewrite Hc, Hs.
  set (d2 := link <$> <[segment_path 0:=new_file]> d1).
  assert (layout (segment_size o) d2 [] [] [] [] [] (link new_file) []) as HLay.
  { assert (dir_holds d2 [link new_file])
      by (apply (dir_holds_link _ [new_file]); by apply (dir_holds_create d1 [])).
    constructor; simpl; done || (by left) || constructor || lia. }
  pose proof (lay_lookup_act _ _ _ _ _ _ _ _ _ HLay) as Hact. change (N.of_nat (length [])) with 0 in Hact.
  assert (recovered (segment_size o) [] [] f d2 (Ok (0, 0))) as Hrec
    by (by exists [], [], [], [], (link new_file)).
  destruct (open_tail_spec o d2 [] [] f 0 0 Hrec Ho) as (Htl & _ & _ & Hw); [change (stored_len ([] ++ [])) with 0; lia|].
  assert (recover_loop d2 [0] (segment_size o) f = (d2, Ok (Some (0, 0)))) as ->.
  { cbn [recover_loop]. rewrite (valid_len_spec d2 0 (segment_size o) _ [] [] Hact eq_refl);
      [done|done|simpl; lia|apply Ho|by left]. }
  cbv beta iota. change (stored_len ([] ++ [])) with 0 in *. rewrite Htl.
  rewrite (proj2 (N.ltb_ge _ _)) by lia. unfold open_segment. rewrite Hact.
  intros. simplify_eq. eexists. split_and!; done.
Qed.

End Invariant.

(** ** Properties *)

(** C25. Append and read back: on a healthy log in step with its directory, a successful
    append adds exactly the new record, at the returned position, after those that were
    readable before; the record ends within the segment size and the log stays
    within its configured size.  An append that reports an error on a handle that
    stays healthy changes nothing that can be read. *)
Theorem append_reads_back {Crc : Crc32} {HCrc : Crc32Laws} w s p k pl f w' r
    (Hw : wal_repr w s p) (Hp : poisoned w = false) (Hk : 1 <= k < 65536)
    (Hdir : sync_dir_ok f = true) (Ha : append w k pl f = (w', r)) :
  match r with
  | Ok lsn =>
      exists xs, all_records w = Ok xs /\
        all_records w' = Ok (xs ++ [mkStoredRecord lsn (mkWalRecord k pl)]) /\
        offset lsn + record_len (mkWalRecord k pl) <= segment_size (options w) /\
        stored_len (xs ++ [mkStoredRecord lsn (mkWalRecord k pl)]) <= max_size (options w)
  | Err _ => poisoned w' = false -> all_records w' = all_records w
  end.
Proof.
  apply append_spec with (s := s) (p := p) in Ha; [|done..].
  destruct Ha as (s' & p' & _ & Ho & _ & Hw' & Hr). rewrite (all_records_spec w s p) by done.
  destruct r as [lsn|e].
  - destruct Hr as (Hw2 & Hp2 & Hsp & _ & Hfit). exists (s ++ p). rewrite <- app_assoc, <- Hsp.
    split_and!; [done|by apply all_records_spec|done|].
    destruct Hw2 as (_ & _ & _ & _ & _ & _ & _ & _ & _ & _ & _ & _ & Hm). by rewrite <- Ho.
  - intros Hp2. destruct Hr as [Hsp|[? _]]; [|congruence]. rewrite <- Hsp. auto using all_records_spec.
Qed.

(** Operations on an open log, with the records acknowledged so far and those of them
    that were acknowledged by the last successful sync. *)
Inductive WalOp : Type :=
| AppendOp (k : N) (pl : bytes) (f : Faults)
| SyncOp (ok : bool).

Definition Progress : Type := Wal * list StoredRecord * list StoredRecord.

Definition perform `{Crc : Crc32} (st : Progress) (op : WalOp) : Progress :=
  let '(w, acked, synced) := st in
  match op with
  | AppendOp k pl f =>
      match append w k pl f with
      | (w', Ok lsn) =>
          let acked' := acked ++ [mkStoredRecord lsn (mkWalRecord k pl)] in
          (w', acked', if sync_on_append (options w) then acked' else synced)
      | (w', Err _) => (w', acked, synced)
      end
  | SyncOp ok =>
      match sync w ok with
      | (w', Ok _) => (w', acked, acked)
      | (w', Err _) => (w', acked, synced)
      end
  end.

(** The kinds are non-zero 16-bit values and directory syncs succeed. *)
Definition op_ok (op : WalOp) : Prop :=
  match op with
  | AppendOp k _ f => 1 <= k < 65536 /\ sync_dir_ok f = true
  | SyncOp _ => True
  end.

(** The stable records cover what was acknowledged as synced; all that is stored was
    acknowledged, apart from one record whose append reported a failed sync. *)
Definition progress_ok `{Crc : Crc32} (o : WalOptions) (st : Progress) : Prop :=
  let '(w, acked, synced) := st in
  options w = o /\
  exists s p, wal_repr w s p /\ synced `prefix_of` s /\
    (s ++ p = acked \/ (poisoned w = true /\ exists x, s ++ p = acked ++ [x])).

Lemma perform_ok {Crc : Crc32} {HCrc : Crc32Laws} o st op :
  progress_ok o st -> op_ok op -> progress_ok o (perform st op).
Proof.
  destruct st as [[w acked] synced]. intros (Ho & s & p & Hw & Hsy & Hac) Hop.
  destruct op as [k pl f|ok]; simpl in Hop; cbn [perform].
  - destruct (append w k pl f) as [w' r] eqn:Ea. destruct Hop as [Hk Hd].
    assert (poisoned w = true -> w' = w /\ exists e, r = Err e) as Hpz.
    { intros Hp. unfold append, ensure_healthy in Ea. rewrite Hp in Ea. simplify_eq. eauto. }
    destruct (poisoned w) eqn:Hp.
    { destruct (Hpz eq_refl) as [-> [e ->]]. split; [done|]. exists s, p. rewrite Hp. done. }
    destruct Hac as [Hac|[? _]]; [|congruence].
    destruct (append_spec _ _ _ _ _ _ _ _ Hw Hk Ea) as (s' & p' & Hpre & Ho' & _ & Hw' & Hr).
    specialize (Hw' Hd). destruct r as [lsn|e].
    + destruct Hr as (_ & _ & Hsp & Hso & _). split; [congruence|]. exists s', p'.
      assert (s' ++ p' = acked ++ [mkStoredRecord lsn (mkWalRecord k pl)]) as Heq
        by (by rewrite Hsp, app_assoc, Hac).
      split_and!; [done| |by left]. destruct (sync_on_append (options w)).
      * rewrite <- Heq, (Hso eq_refl), app_nil_r. done.
      * by etrans.
    + split; [congruence|]. exists s', p'. split_and!; [done|by etrans|].
      destruct Hr as [Hsp|(Hp' & lsn & Hsp)]; [left; congruence|]. right. split; [done|].
      eexists. by rewrite Hsp, app_assoc, Hac.
  - destruct (sync w ok) as [w' r] eqn:Es. destruct (sync_spec _ _ _ _ _ _ Hw Es) as [Hr Ho'].
    destruct r as [u|e].
    + destruct Hr as (Hw' & Hp' & _). split; [congruence|]. exists (s ++ p), [].
      rewrite app_nil_r. assert (poisoned w = false) as Hp.
      { unfold sync, ensure_healthy in Es. by destruct (poisoned w). }
      destruct Hac as [<-|[? _]]; [|congruence]. split_and!; [done|done|by left].
    + destruct Hr as (Hw' & Hp' & _). split; [congruence|]. exists s, p.
      split_and!; [done..|]. destruct Hac as [->|[_ ?]]; [by left|by right].
Qed.

Lemma performs_ok {Crc : Crc32} {HCrc : Crc32Laws} o st ops :
  progress_ok o st -> Forall op_ok ops -> progress_ok o (foldl perform st ops).
Proof.
  intros Hst Hops. revert st Hst. induction Hops as [|op ops Hop _ IH]; intros st Hst; [done|].
  simpl. apply IH. by apply perform_ok.
Qed.

(** Reopening after a crash: what was acknowledged as synced is read back. *)
Lemma crash_reopens {Crc : Crc32} {HCrc : Crc32Laws} o w acked synced d :
  progress_ok o (w, acked, synced) -> crashed (dir w) d ->
  exists d2 w2 xs, open d false o no_faults = (d2, Ok w2) /\
    all_records w2 = Ok xs /\ wal_repr w2 xs [] /\
    synced `prefix_of` xs /\ (xs `prefix_of` acked \/ exists x, xs = acked ++ [x]).
Proof.
  intros (Ho & s & p & Hw & Hsy & Hac) Hcrash.
  pose proof Hw as (_ & _ & _ & _ & _ & _ & _ & _ & _ & _ & _ & Hopt & Hmax). rewrite Ho in *.
  apply wal_repr_disk in Hw as Hd. rewrite Ho in Hd.
  destruct (crash_spec _ _ _ _ _ Hd Hcrash) as (k & Hd2 & Hlk).
  assert (stored_len ((s ++ take k p) ++ []) <= max_size o) as Hm2.
  { rewrite <- (take_drop k p) in Hmax. rewrite !stored_len_app in *. simpl. unfold stored_len at 3.
    simpl. lia. }
  destruct (open d false o no_faults) as [d2 r] eqn:Eo.
  destruct (open_spec _ _ _ _ _ _ _ Hd2 Hopt Hlk Hm2 Eo) as [_ Hr]. destruct r as [w2|e]; [|done].
  destruct Hr as (Hw2 & Hp2 & _ & _). exists d2, w2, (s ++ take k p).
  split_and!; [done| |done| |].
  - by rewrite (all_records_spec w2 _ _ Hw2 Hp2), app_nil_r.
  - by apply prefix_app_r.
  - assert (s ++ take k p `prefix_of` s ++ p) as Hpre.
    { apply prefix_app. exists (drop k p). by rewrite take_drop. }
    destruct Hac as [Hx|(_ & x & Hx)]; rewrite Hx in Hpre; [by left|].
    apply prefix_snoc_inv in Hpre as [?|?]; [by left|right; eauto].
Qed.

(** C23. Crash recovery: take an open log, any sequence of appends and syncs, with
    failing, short or refused writes and failing syncs of the file, in which the directory
    syncs of rotations succeed ([op_ok]; [failed_directory_sync_loses_records] shows why), and a crash that loses any part of what
    was not synced and may cut a record in two.  Reopening succeeds; every record that a
    successful sync acknowledged is read back, at the position its append returned and in
    order; what else is read back are records appended after them, in order and without gaps,
    the last of which may be one whose append reported a failure. *)
Theorem crash_recovery_keeps_synced {Crc : Crc32} {HCrc : Crc32Laws} w s p ops w' acked synced d
    (Hw : wal_repr w s p) (Hp : poisoned w = false) (Hops : Forall op_ok ops)
    (Hrun : foldl perform (w, s ++ p, s) ops = (w', acked, synced))
    (Hcrash : crashed (dir w') d) :
  exists d2 w2 xs, open d false (options w) no_faults = (d2, Ok w2) /\
    all_records w2 = Ok xs /\ wal_repr w2 xs [] /\
    synced `prefix_of` xs /\ (xs `prefix_of` acked \/ exists x, xs = acked ++ [x]).
Proof.
  eapply crash_reopens; [|exact Hcrash]. rewrite <- Hrun. apply performs_ok; [|done].
  split; [done|]. exists s, p. split_and!; [done..|by left].
Qed.

(** ** Examples *)

Definition small_options : WalOptions := mkWalOptions 80 1024 false.

(** A log on an empty directory. *)
Definition fresh_dir (o : WalOptions) : Dir := fst (open ∅ false o no_faults).
Definition fresh_wal (o : WalOptions) : Wal :=
  match snd (open ∅ false o no_faults) with
  | Ok w => w
  | Err _ => mkWal ∅ o 0 0 0 true
  end.

Lemma empty_holds : dir_holds ∅ [].
Proof.
  constructor; [done| |done]. intros name _ [f Hf]. by rewrite lookup_empty in Hf.
Qed.

Lemma fresh_wal_repr o : options_ok o ->
  wal_repr (fresh_wal o) [] [] /\ poisoned (fresh_wal o) = false /\ options (fresh_wal o) = o.
Proof.
  intros Ho. destruct (open ∅ false o no_faults) as [d r] eqn:E.
  destruct (open_fresh o ∅ no_faults d r empty_holds Ho eq_refl eq_refl E) as (w & -> & Hw & Hp & _ & Hopt).
  unfold fresh_wal. by rewrite E.
Qed.

Lemma small_options_ok : options_ok small_options.
Proof. split; split; (reflexivity || (vm_compute; discriminate)). Qed.

Lemma append_reads_back_witness :
  exists lsn, snd (append (fresh_wal small_options) 7 [Byte.x61] no_faults) = Ok lsn /\
    all_records (fst (append (fresh_wal small_options) 7 [Byte.x61] no_faults)) =
    Ok [mkStoredRecord lsn (mkWalRecord 7 [Byte.x61])].
Proof.
  destruct (fresh_wal_repr _ small_options_ok) as (Hw & Hp & _).
  destruct (append (fresh_wal small_options) 7 [Byte.x61] no_faults) as [w' r] eqn:E.
  pose proof (append_reads_back _ [] [] 7 [Byte.x61] no_faults w' r Hw Hp ltac:(lia) eq_refl E) as H.
  destruct r as [lsn|e].
  - exists lsn. destruct H as (xs & Hx & H & _). rewrite (all_records_spec _ [] [] Hw Hp) in Hx.
    injection Hx as <-. split; [reflexivity|exact H].
  - exfalso. apply (f_equal (fun x => is_ok (snd x))) in E. vm_compute in E. discriminate E.
Defined.

(** A crash that loses everything that was not synced. *)
Definition lose_unsynced (d : Dir) : Dir :=
  omap (fun f => if linked f then Some (mkWalFile (take (stable f) (data f)) (stable f) true)
                 else None) d.

Lemma lose_unsynced_crashed (d : Dir) :
  map_Forall (fun _ f => (stable f <= length (data f))%nat) d -> crashed d (lose_unsynced d).
Proof.
  intros H name. unfold lose_unsynced. rewrite lookup_omap. destruct (d !! name) as [f|] eqn:E; [|done].
  simpl. destruct (linked f) eqn:El; [|done].
  exists (stable f). split; [|done]. specialize (H _ _ E). simpl in H. lia.
Qed.

(** Two records, a sync between them, and a write of the third that stops after 5 bytes. *)
Definition demo_ops : list WalOp :=
  [AppendOp 1 [Byte.x61] no_faults; SyncOp true; AppendOp 1 [Byte.x62] no_faults;
   AppendOp 1 [Byte.x63] (mkFaults true true true (Some 5%nat) true true)].

Definition demo_progress : Progress := foldl perform (fresh_wal small_options, [], []) demo_ops.

Lemma crash_recovery_keeps_synced_witness :
  exists d2 w2 xs,
    open (lose_unsynced (dir demo_progress.1.1)) false small_options no_faults = (d2, Ok w2) /\
    all_records w2 = Ok xs /\
    [mkStoredRecord (mkLsn 0 0) (mkWalRecord 1 [Byte.x61])] `prefix_of` xs.
Proof.
  destruct (fresh_wal_repr _ small_options_ok) as (Hw & Hp & Ho).
  destruct demo_progress as [[w' acked] synced] eqn:E.
  destruct (crash_recovery_keeps_synced (fresh_wal small_options) [] [] demo_ops w' acked synced
    (lose_unsynced (dir w'))) as (d2 & w2 & xs & H1 & H2 & _ & H3 & _).
  - exact Hw.
  - exact Hp.
  - repeat constructor; (reflexivity || (vm_compute; discriminate)).
  - exact E.
  - apply lose_unsynced_crashed. replace w' with demo_progress.1.1 by (rewrite E; reflexivity).
    apply (bool_decide_unpack _). vm_compute. exact I.
  - rewrite Ho in H1. exists d2, w2, xs. split_and!; [exact H1|exact H2|].
    replace synced with demo_progress.2 in H3 by (rewrite E; reflexivity).
    replace demo_progress.2 with [mkStoredRecord (mkLsn 0 0) (mkWalRecord 1 [Byte.x61])] in H3
      by (vm_compute; reflexivity). exact H3.
Defined.

(** ** Directory syncs that fail *)

(** A rotation whose directory sync fails leaves the next segment behind, and the handle
    usable. *)
Definition dir_fault : Faults := mkFaults true true false None true true.
Definition first_record : bytes := replicate 8 Byte.x61.
Definition failed_rotation : list WalOp :=
  [AppendOp 1 first_record no_faults; SyncOp true; AppendOp 1 (replicate 48 Byte.x62) dir_fault].

Definition after_failed_rotation : Progress :=
  foldl perform (fresh_wal small_options, [], []) failed_rotation.

(** A later write into the old segment that stops half-way. *)
Definition torn_write : WalOp :=
  AppendOp 1 first_record (mkFaults true true true (Some 10%nat) true true).
Definition blocked : Progress := perform after_failed_rotation torn_write.

(** A reopened log whose active segment was never synced into the directory. *)
Definition reopened : Progress :=
  match open (dir after_failed_rotation.1.1) false small_options no_faults with
  | (_, Ok w) => foldl perform (w, after_failed_rotation.2, after_failed_rotation.2)
                   [AppendOp 1 first_record no_faults; SyncOp true]
  | (_, Err _) => after_failed_rotation
  end.

Lemma open_computes `{Crc : Crc32} d o (P : Wal -> Prop) :
  match snd (open d false o no_faults) with Ok w => P w | Err _ => False end ->
  exists d2 w2, open d false o no_faults = (d2, Ok w2) /\ P w2.
Proof. destruct (open d false o no_faults) as [d2 [w2|e]]; [eauto|done]. Qed.

(** A failed directory sync during a rotation is not recovered from, although the handle
    reports itself healthy.  First, a torn write to the old segment that follows makes the
    log unopenable, with an incomplete record in a segment that is no longer the last,
    and the synced record before it unreadable.  Second, when the log is reopened instead, the
    leftover segment is used without ever syncing the directory, and a record that was
    appended and synced there is gone after a crash. *)
Theorem failed_directory_sync_loses_records :
  (poisoned after_failed_rotation.1.1 = false /\
   blocked.2 = [mkStoredRecord (mkLsn 0 0) (mkWalRecord 1 first_record)] /\
   snd (open (dir blocked.1.1) false small_options no_faults) =
     Err (CorruptRecord (mkLsn 0 40) IncompleteRecord)) /\
  (reopened.2 = [mkStoredRecord (mkLsn 0 0) (mkWalRecord 1 first_record);
                 mkStoredRecord (mkLsn 1 0) (mkWalRecord 1 first_record)] /\
   exists d d2 w2, crashed (dir reopened.1.1) d /\
     open d false small_options no_faults = (d2, Ok w2) /\
     all_records w2 = Ok [mkStoredRecord (mkLsn 0 0) (mkWalRecord 1 first_record)]).
Proof.
  split; [split_and!; vm_compute; reflexivity|]. split; [vm_compute; reflexivity|].
  exists (lose_unsynced (dir reopened.1.1)).
  destruct (open_computes (lose_unsynced (dir reopened.1.1)) small_options (fun w =>
    all_records w = Ok [mkStoredRecord (mkLsn 0 0) (mkWalRecord 1 first_record)])) as (d2 & w2 & E & H).
  - vm_compute. reflexivity.
  - exists d2, w2. split_and!; [|exact E|exact H].
    apply lose_unsynced_crashed, (bool_decide_unpack _). vm_compute. exact I.
Qed.
