(* ===== verification/Paths.v ===== *)
(** * Paths: the directory of the write-ahead log

    Models [absolute_path] of [basisdb-wal/src/wal.rs], [create_dir_all] and [sync_dir] of
    [basisdb-wal/src/segment.rs] and the beginning of [Wal::open]: the path is made
    absolute, its missing directories are created and their entries synced, and the log
    is opened in the last of them.  A crash loses the directories whose entries were not
    synced, with all that is below them. *)

From S2P Require Import Prelude.
From S2P Require Import WalFormat.
From S2P Require Import Segment.
From S2P Require Import Wal.

(** ** Paths and the tree of directories *)

(** The components of an absolute path, innermost first: the parent is the tail, and the
    root is the empty list.  Components are plain names. *)
Abbreviation path := (list bytes).

(** A path as the caller gives it. *)
Inductive PathBuf : Type :=
| AbsolutePath (p : path)
| RelativePath (p : path).

(** The directories, with whether each one's entry in its parent is on stable storage, and the
    files of each directory. *)
Record Fs : Type := mkFs {
  dirs : gmap path bool;
  files : gmap path Dir
}.

(** Which calls of the operating system succeed. *)
Record DirFaults : Type := mkDirFaults {
  cwd_ok : bool;
  probe_ok : path -> bool;
  mkdir_ok : path -> bool;
  sync_parent_ok : path -> bool
}.

Definition no_dir_faults : DirFaults :=
  mkDirFaults true (fun _ => true) (fun _ => true) (fun _ => true).

(** An I/O error of the operating system names a path; its text is left out. *)
Definition io_error (p : path) : WalError := Io (default [] (head p)).

Definition contents (fs : Fs) (p : path) : Dir := default ∅ (files fs !! p).
Definition set_contents (fs : Fs) (p : path) (d : Dir) : Fs := mkFs (dirs fs) (<[p := d]> (files fs)).

(** ** The operations *)

(** [current_dir().join(path)] of a relative path. *)
Definition absolute_path (cwd : path) (p : PathBuf) (f : DirFaults) : result path WalError :=
  match p with
  | AbsolutePath p => Ok p
  | RelativePath p => if cwd_ok f then Ok (p ++ cwd) else Err (Io [dot])
  end.

(** The [while] loop: the missing directories, innermost first. *)
Fixpoint missing_dirs (fs : Fs) (f : DirFaults) (cursor : path) : result (list path) WalError :=
  if negb (probe_ok f cursor) then Err (io_error cursor)
  else if is_some (dirs fs !! cursor) then Ok []
  else
    match cursor with
    | [] => Err SegmentIdExhausted
    | _ :: parent => let? missing := missing_dirs fs f parent in Ok (cursor :: missing)
    end.

(** [std::fs::create_dir_all]: outermost first, up to the first failure. *)
Fixpoint mkdir_all (fs : Fs) (f : DirFaults) (p : path) : Fs * result unit WalError :=
  if is_some (dirs fs !! p) then (fs, Ok tt)
  else
    match p with
    | [] => (fs, Err (io_error []))
    | _ :: parent =>
        let '(fs, r) := mkdir_all fs f parent in
        match r with
        | Err e => (fs, Err e)
        | Ok _ => if mkdir_ok f p then (mkFs (<[p := false]> (dirs fs)) (files fs), Ok tt)
                  else (fs, Err (io_error p))
        end
    end.

(** [sync_dir] of a directory makes the entries in it stable. *)
Definition sync_children (fs : Fs) (parent : path) : Fs :=
  mkFs (map_imap (fun q b => Some (b || match q with
                                        | [] => false
                                        | _ :: q' => bool_decide (q' = parent)
                                        end)) (dirs fs))
       (alter (fmap link) parent (files fs)).

Fixpoint sync_parents (fs : Fs) (f : DirFaults) (created : list path) : Fs * result unit WalError :=
  match created with
  | [] => (fs, Ok tt)
  | [] :: _ => (fs, Err SegmentIdExhausted)
  | (_ :: parent) :: created' =>
      if sync_parent_ok f parent then sync_parents (sync_children fs parent) f created'
      else (fs, Err (io_error parent))
  end.

Definition create_dir_all (fs : Fs) (p : path) (f : DirFaults) : Fs * result unit WalError :=
  match missing_dirs fs f p with
  | Err e => (fs, Err e)
  | Ok missing =>
      let '(fs, r) := mkdir_all fs f p in
      match r with
      | Err _ => (fs, Err (io_error p))
      | Ok _ => sync_parents fs f (rev missing)
      end
  end.

(** [Wal::open] from the path on; what follows the creation of the directory is
    [Wal.open] on its contents. *)
Definition open_path `{Crc : Crc32} (fs : Fs) (cwd : path) (p : PathBuf) (held : bool)
    (o : WalOptions) (df : DirFaults) (f : Faults) : Fs * result Wal WalError :=
  match (let? _ := validate_options o in absolute_path cwd p df) with
  | Err e => (fs, Err e)
  | Ok p =>
      let '(fs, r) := create_dir_all fs p df in
      match r with
      | Err e => (fs, Err e)
      | Ok _ =>
          let '(d, r) := open (contents fs p) held o f in
          (set_contents fs p d, r)
      end
  end.

(** ** Crashes *)

(** The entries of a directory and of all its ancestors are on stable storage. *)
Fixpoint durable (fs : Fs) (p : path) : bool :=
  match dirs fs !! p with
  | Some true => match p with [] => true | _ :: parent => durable fs parent end
  | _ => false
  end.

(** A crash keeps every durable directory, and of the files in a directory that it keeps
    what [Wal.crashed] allows; a directory that it loses is lost with its files. *)
Definition fs_crashed (fs fs' : Fs) : Prop :=
  (forall p, durable fs p = true -> dirs fs' !! p = Some true) /\
  (forall p b, dirs fs' !! p = Some b -> b = true /\ is_Some (dirs fs !! p)) /\
  (forall p, is_Some (dirs fs' !! p) -> crashed (contents fs p) (contents fs' p)) /\
  (forall p, dirs fs' !! p = None -> contents fs' p = ∅).

(** What exists on the way to [p] is durable. *)
Definition settled (fs : Fs) (p : path) : Prop :=
  dirs fs !! [] = Some true /\
  forall q, q `suffix_of` p -> is_Some (dirs fs !! q) -> durable fs q = true.

(** ** The loops *)

Lemma suffix_tail {A} (c : A) (p : list A) : p `suffix_of` c :: p.
Proof. by exists [c]. Qed.

Lemma suffix_cons_cases {A} (q p : list A) c :
  q `suffix_of` c :: p -> q = c :: p \/ q `suffix_of` p.
Proof.
  intros [[|x l] Hl]; simpl in Hl; [by left|]. injection Hl as -> ->. right. by exists l.
Qed.

Lemma settled_parent fs c p : settled fs (c :: p) -> settled fs p.
Proof. intros [Hr H]. split; [done|]. intros q Hq. apply H. by apply suffix_cons_r. Qed.

(** The loop stops at the innermost existing ancestor [base]. *)
Lemma missing_dirs_spec fs f p missing :
  missing_dirs fs f p = Ok missing ->
  exists names base, p = names ++ base /\ is_Some (dirs fs !! base) /\
    missing = (fun k => drop k p) <$> seq 0 (length names) /\
    Forall (fun q => dirs fs !! q = None) missing.
Proof.
  revert missing. induction p as [|c p IH]; intros missing; simpl;
    (destruct (probe_ok f _); [|done]); cbn [negb].
  - destruct (dirs fs !! []) eqn:E; cbn [is_some]; [|done]. intros [= <-].
    exists [], []. rewrite E. split_and!; [done|eauto|done|constructor].
  - destruct (dirs fs !! (c :: p)) eqn:E; cbn [is_some].
    { intros [= <-]. exists [], (c :: p). rewrite E. split_and!; [done|eauto|done|constructor]. }
    destruct (missing_dirs fs f p) as [m|]; simpl; [|done]. intros [= <-].
    destruct (IH m eq_refl) as (names & base & -> & Hb & -> & Hall).
    exists (c :: names), base. split_and!; [done|done| |by constructor].
    cbn [length seq fmap list_fmap]. f_equal. rewrite <- (fmap_S_seq 0), <- list_fmap_compose. done.
Qed.

(** The root exists, so the loop never runs off it. *)
Lemma missing_dirs_error fs f p :
  is_Some (dirs fs !! []) -> missing_dirs fs f p <> Err SegmentIdExhausted.
Proof.
  intros Hr. induction p as [|c p IH]; simpl; (destruct (probe_ok f _); [|done]); cbn [negb].
  - destruct Hr as [b ->]. done.
  - destruct (dirs fs !! (c :: p)); cbn [is_some]; [done|].
    destruct (missing_dirs fs f p); simpl; congruence.
Qed.

Lemma durable_suffixes fs p :
  durable fs p = true <-> forall q, q `suffix_of` p -> dirs fs !! q = Some true.
Proof.
  induction p as [|c p IH].
  - simpl. split.
    + intros H q Hq. apply suffix_nil_inv in Hq as ->. by destruct (dirs fs !! []) as [[]|].
    + intros H. by rewrite (H []).
  - cbn [durable]. split.
    + destruct (dirs fs !! (c :: p)) as [[]|] eqn:E; try done. rewrite IH. intros H q Hq.
      apply suffix_cons_cases in Hq as [->|Hq]; auto.
    + intros H. rewrite (H (c :: p)) by done. apply IH. intros q Hq. apply H. by apply suffix_cons_r.
Qed.

(** The directories that [create_dir_all] of the standard library adds. *)
Lemma mkdir_all_spec fs f names base fs' :
  is_Some (dirs fs !! base) ->
  Forall (fun q => dirs fs !! q = None) ((fun k => drop k (names ++ base)) <$> seq 0 (length names)) ->
  mkdir_all fs f (names ++ base) = (fs', Ok tt) ->
  fs' = mkFs (foldr (fun q m => <[q := false]> m) (dirs fs)
                ((fun k => drop k (names ++ base)) <$> seq 0 (length names))) (files fs).
Proof.
  intros [b Hb] Hall. revert fs'. induction names as [|c names IH]; intros fs'.
  - destruct base; simpl; rewrite Hb; intros [= <-]; by destruct fs.
  - cbn [length seq fmap list_fmap] in *. rewrite <- (fmap_S_seq 0) in *.
    rewrite <- list_fmap_compose in *. inversion Hall as [|? ? H0 Hrest]; subst. simpl in H0.
    cbn [app mkdir_all]. rewrite H0. cbn [is_some].
    destruct (mkdir_all fs f (names ++ base)) as [fs1 [u|e]]; [|done].
    rewrite (IH Hrest fs1) by (by destruct u).
    destruct (mkdir_ok f _); [|done]. by intros [= <-].
Qed.

Lemma lookup_inserts (m : gmap path bool) (qs : list path) q :
  foldr (fun q m => <[q := false]> m) m qs !! q = if bool_decide (q ∈ qs) then Some false else m !! q.
Proof.
  induction qs as [|x qs IH]; cbn [foldr];
    [by rewrite bool_decide_eq_false_2 by apply not_elem_of_nil|].
  destruct (decide (q = x)) as [->|Hne].
  - rewrite lookup_insert_eq, bool_decide_eq_true_2 by left. done.
  - rewrite lookup_insert_ne, IH by done. repeat case_bool_decide; done || set_solver.
Qed.

Lemma lookup_sync_children fs parent q :
  dirs (sync_children fs parent) !! q =
  (fun b => b || match q with [] => false | _ :: q' => bool_decide (q' = parent) end) <$> dirs fs !! q.
Proof. simpl. rewrite map_lookup_imap. by destruct (dirs fs !! q). Qed.

(** The syncs make the created entries stable and touch the files of their parents only. *)
Lemma sync_parents_spec fs f created fs' :
  sync_parents fs f created = (fs', Ok tt) ->
  (forall q, dirs fs !! q = Some true -> dirs fs' !! q = Some true) /\
  (forall q, q ∈ created -> is_Some (dirs fs !! q) -> dirs fs' !! q = Some true) /\
  (forall q, Forall (fun x => tail x <> q) created -> contents fs' q = contents fs q).
Proof.
  revert fs. induction created as [|[|c parent] created IH]; intros fs; simpl; [|done|].
  { intros [= <-]. split_and!; [done|by intros q ?%elem_of_nil|done]. }
  destruct (sync_parent_ok f parent); [|done]. intros Hs.
  destruct (IH _ Hs) as (Hmono & Hnew & Hfiles). split_and!.
  - intros q Hq. apply Hmono. by rewrite lookup_sync_children, Hq.
  - intros q [->|Hq]%elem_of_cons [b Hb].
    + apply Hmono. rewrite lookup_sync_children, Hb. simpl. f_equal.
      by rewrite bool_decide_eq_true_2, orb_true_r by done.
    + apply Hnew; [done|]. rewrite lookup_sync_children, Hb. by eexists.
  - intros q Hall. inversion Hall as [|? ? Hq Hrest]; subst. rewrite Hfiles by done.
    unfold contents. simpl in *. by rewrite lookup_alter_ne by done.
Qed.

Lemma drop_suffix {A} k (p : list A) : drop k p `suffix_of` p.
Proof. exists (take k p). by rewrite take_drop. Qed.

(** A suffix of [names ++ base] lies within [base] or is one of the longer ones. *)
Lemma suffix_split {A} (q names base : list A) :
  q `suffix_of` names ++ base ->
  q `suffix_of` base \/ exists k, (k < length names)%nat /\ q = drop k (names ++ base).
Proof.
  induction names as [|c names IH]; [by left|]. cbn [app]. intros [->|Hq]%suffix_cons_cases.
  - right. exists 0%nat. split; [simpl; lia|done].
  - destruct (IH Hq) as [?|(k & Hk & ->)]; [by left|right]. exists (S k). split; [simpl; lia|done].
Qed.

Lemma create_dir_all_spec fs p f fs' :
  settled fs p -> create_dir_all fs p f = (fs', Ok tt) ->
  durable fs' p = true /\ contents fs' p = contents fs p.
Proof.
  intros [_ Hset]. unfold create_dir_all.
  destruct (missing_dirs fs f p) as [missing|e] eqn:Em; [|done].
  destruct (missing_dirs_spec _ _ _ _ Em) as (names & base & -> & Hb & -> & Hall).
  destruct (mkdir_all fs f (names ++ base)) as [fs1 [[]|e]] eqn:Ek; [|done].
  rewrite (mkdir_all_spec _ _ _ _ _ Hb Hall Ek) in *. clear Ek fs1.
  intros Hs. apply sync_parents_spec in Hs as (Hmono & Hnew & Hfiles). cbn [dirs] in *. split.
  - apply durable_suffixes. intros q [Hq|(k & Hk & ->)]%suffix_split.
    + assert (dirs fs !! q = Some true) as Hd.
      { apply (durable_suffixes fs base); [|done]. apply Hset; [by eexists|done]. }
      apply Hmono. rewrite lookup_inserts, bool_decide_eq_false_2; [done|].
      rewrite Forall_forall in Hall. intros Hin%Hall. congruence.
    + assert (drop k (names ++ base) ∈ (fun k => drop k (names ++ base)) <$> seq 0 (length names)) as Hin
        by (apply list_elem_of_fmap; exists k; split; [done|apply elem_of_seq; lia]).
      apply Hnew; [by rewrite list_elem_of_In, <- in_rev, <- list_elem_of_In|].
      rewrite lookup_inserts, bool_decide_eq_true_2 by done. by eexists.
  - apply Hfiles. apply Forall_forall. intros x Hx Heq.
    rewrite list_elem_of_In, <- in_rev, <- list_elem_of_In in Hx.
    apply list_elem_of_fmap in Hx as (k & -> & Hk%elem_of_seq).
    apply (f_equal length) in Heq.
    destruct (drop k (names ++ base)) eqn:E; apply (f_equal length) in E;
      rewrite length_drop, length_app in E; simpl in *; rewrite length_app in *; lia.
Qed.

(** ** Errors *)

Lemma sync_parents_error fs f created :
  Forall (fun q => q <> []) created -> snd (sync_parents fs f created) <> Err SegmentIdExhausted.
Proof.
  intros Hall. revert fs. induction Hall as [|[|c q] created Hq _ IH]; intros fs; [done|done|].
  simpl. by destruct (sync_parent_ok f q).
Qed.

(** Below an existing root every failure is an I/O error: the loops never run off the
    path, so the error of exhausted segment ids is not one of [create_dir_all]. *)
Theorem creation_errors_are_io fs p f (Hroot : is_Some (dirs fs !! [])) :
  snd (create_dir_all fs p f) <> Err SegmentIdExhausted.
Proof.
  unfold create_dir_all. destruct (missing_dirs fs f p) as [missing|e] eqn:Em.
  2:{ pose proof (missing_dirs_error fs f p Hroot) as H. rewrite Em in H. simpl. congruence. }
  destruct (mkdir_all fs f p) as [fs1 [u|e]]; [|done]. apply sync_parents_error.
  destruct (missing_dirs_spec _ _ _ _ Em) as (names & base & -> & _ & -> & Hall).
  apply Forall_rev, Forall_forall. intros q Hq ->. rewrite Forall_forall in Hall.
  apply Hall in Hq. destruct Hroot as [b Hb]. congruence.
Qed.

(** ** The log at a path *)

Lemma create_existing fs p : is_Some (dirs fs !! p) -> create_dir_all fs p no_dir_faults = (fs, Ok tt).
Proof. intros [b Hb]. unfold create_dir_all. destruct p; simpl; by rewrite Hb. Qed.

(** [open_path] on a directory that exists. *)
Lemma open_existing `{Crc : Crc32} fs cwd pb p o f :
  absolute_path cwd pb no_dir_faults = Ok p -> options_ok o -> is_Some (dirs fs !! p) ->
  open_path fs cwd pb false o no_dir_faults f =
  let '(d, r) := open (contents fs p) false o f in (set_contents fs p d, r).
Proof.
  intros Hp Ho Hd. unfold open_path. rewrite validate_options_ok by done.
  simpl. rewrite Hp. by rewrite create_existing.
Qed.

(** C24. The log at a path survives a crash: when [Wal::open] has created the missing directories of
    its path, on a file system whose existing directories on the way are durable, and
    records were appended and synced, then after a crash that loses every directory and
    every byte that was not made durable, opening the same path succeeds and reads back
    every synced record in order. *)
Theorem log_at_path_survives_crash {Crc : Crc32} {HCrc : Crc32Laws}
    fs cwd pb p o df fs1 w ops w' acked synced fs2
    (Hp : absolute_path cwd pb df = Ok p) (Hset : settled fs p) (Hfresh : contents fs p = ∅)
    (Ho : options_ok o) (Hopen : open_path fs cwd pb false o df no_faults = (fs1, Ok w))
    (Hops : Forall op_ok ops) (Hrun : foldl perform (w, [], []) ops = (w', acked, synced))
    (Hcrash : fs_crashed (set_contents fs1 p (dir w')) fs2) :
  exists fs3 w2 xs, open_path fs2 cwd pb false o no_dir_faults no_faults = (fs3, Ok w2) /\
    all_records w2 = Ok xs /\ synced `prefix_of` xs /\
    (xs `prefix_of` acked \/ exists x, xs = acked ++ [x]).
Proof.
  assert (absolute_path cwd pb no_dir_faults = Ok p) as Hp'
    by (by destruct pb; simpl in *; destruct (cwd_ok df)).
  unfold open_path in Hopen. rewrite validate_options_ok in Hopen by done. simpl in Hopen.
  rewrite Hp in Hopen. destruct (create_dir_all fs p df) as [fs0 [[]|e]] eqn:Ec; [|done].
  destruct (create_dir_all_spec _ _ _ _ Hset Ec) as [Hdur Hcont]. rewrite Hcont, Hfresh in Hopen.
  destruct (open ∅ false o no_faults) as [d r] eqn:Eo.
  destruct (open_fresh o ∅ no_faults d r empty_holds Ho eq_refl eq_refl Eo)
    as (w0 & -> & Hw & Hpo & _ & Hopt). simplify_eq.
  destruct Hcrash as (Hkeep & _ & Hfiles & _).
  assert (dirs fs2 !! p = Some true) as Hd2.
  { apply Hkeep. rewrite durable_suffixes in *. simpl. done. }
  specialize (Hfiles p ltac:(by eexists)). unfold contents at 1 in Hfiles. simpl in Hfiles.
  rewrite lookup_insert_eq in Hfiles. simpl in Hfiles.
  destruct (crash_reopens (options w) w' acked synced (contents fs2 p))
    as (d2 & w2 & xs & E2 & Hall & _ & Hsy & Hac); [|done|].
  - rewrite <- Hrun. apply performs_ok; [|done]. split; [done|]. exists [], [].
    split_and!; [done|by exists []|by left].
  - exists (set_contents fs2 p d2), w2, xs. split_and!; [|done..].
    rewrite (open_existing _ _ _ p) by (done || by eexists). by rewrite E2.
Qed.

(** ** Examples *)

(** The crash that loses the most. *)
Definition lose_all (fs : Fs) : Fs :=
  mkFs (map_imap (fun q _ => if durable fs q then Some true else None) (dirs fs))
       (map_imap (fun q d => if durable fs q then Some (lose_unsynced d) else None) (files fs)).

Lemma durable_exists fs p : durable fs p = true -> dirs fs !! p = Some true.
Proof. intros H. by apply (proj1 (durable_suffixes fs p)). Qed.

(** No file has more stable bytes than bytes. *)
Definition stable_within (fs : Fs) : bool :=
  bool_decide (map_Forall (fun _ d => map_Forall (fun _ f => (stable f <= length (data f))%nat) d) (files fs)).

Lemma lose_all_crashed fs : stable_within fs = true -> fs_crashed fs (lose_all fs).
Proof.
  intros Hst%bool_decide_eq_true. split_and!.
  - intros p Hp. simpl. rewrite map_lookup_imap, (durable_exists _ _ Hp). simpl. by rewrite Hp.
  - intros p b. simpl. rewrite map_lookup_imap. destruct (dirs fs !! p); simpl; [|done].
    destruct (durable fs p); [|done]. intros [= <-]. split; [done|by eexists].
  - intros p [b Hb]. unfold contents. simpl in *. rewrite map_lookup_imap in Hb. rewrite map_lookup_imap.
    destruct (files fs !! p) as [d|] eqn:E; simpl; [|by intros name].
    destruct (dirs fs !! p); simpl in Hb; [|done]. destruct (durable fs p); [|done]. simpl.
    apply lose_unsynced_crashed. by apply (Hst p).
  - intros p Hp. unfold contents. simpl in *. rewrite map_lookup_imap in Hp. rewrite map_lookup_imap.
    destruct (durable fs p) eqn:Hd; [by rewrite (durable_exists _ _ Hd) in Hp; simpl in Hp; rewrite ?Hd in Hp|].
    by destruct (files fs !! p).
Qed.

(** A file system with nothing but its root, and the path [data/wal] below it. *)
Definition bare_fs : Fs := mkFs {[ [] := true ]} ∅.
Definition data_wal : path := [[Byte.x77; Byte.x61; Byte.x6c]; [Byte.x64; Byte.x61; Byte.x74; Byte.x61]].

Lemma bare_settled p : settled bare_fs p.
Proof.
  split; [reflexivity|]. intros q _ [b Hb]. simpl in Hb.
  apply lookup_singleton_Some in Hb as [<- _]. reflexivity.
Qed.

Definition open_data_wal (fs : Fs) (df : DirFaults) : Fs * result Wal WalError :=
  open_path fs [] (RelativePath data_wal) false small_options df no_faults.

Lemma demo_ops_ok : Forall op_ok demo_ops.
Proof. repeat constructor; vm_compute; congruence. Qed.

Lemma log_at_path_survives_crash_witness :
  exists fs1 w w' acked synced,
    open_data_wal bare_fs no_dir_faults = (fs1, Ok w) /\
    foldl perform (w, [], []) demo_ops = (w', acked, synced) /\ synced <> [] /\
    exists fs3 w2 xs,
      open_data_wal (lose_all (set_contents fs1 data_wal (dir w'))) no_dir_faults = (fs3, Ok w2) /\
      all_records w2 = Ok xs /\ synced `prefix_of` xs.
Proof.
  destruct (open_data_wal bare_fs no_dir_faults) as [fs1 r] eqn:E.
  assert (is_ok (snd (open_data_wal bare_fs no_dir_faults)) = true) as Hok by (vm_compute; reflexivity).
  rewrite E in Hok. destruct r as [w|]; [|discriminate].
  destruct (foldl perform (w, [], []) demo_ops) as [[w' acked] synced] eqn:Er.
  assert (stable_within (set_contents fs1 data_wal (dir w')) = true) as Hst.
  { assert (match open_data_wal bare_fs no_dir_faults with
            | (fs1, Ok w) =>
                stable_within (set_contents fs1 data_wal (dir (foldl perform (w, [], []) demo_ops).1.1))
            | _ => false end = true) as Hs by (vm_compute; reflexivity).
    rewrite E, Er in Hs. exact Hs. }
  exists fs1, w, w', acked, synced. split; [reflexivity|]. split; [exact Er|]. split.
  - assert (match open_data_wal bare_fs no_dir_faults with
            | (_, Ok w) => negb (bool_decide (snd (foldl perform (w, [], []) demo_ops) = []))
            | _ => false end = true) as Hs by (vm_compute; reflexivity).
    rewrite E, Er in Hs. simpl in Hs. intros ->. discriminate.
  - destruct (log_at_path_survives_crash bare_fs [] (RelativePath data_wal) data_wal small_options
      no_dir_faults fs1 w demo_ops w' acked synced _ eq_refl (bare_settled _) eq_refl
      small_options_ok E demo_ops_ok Er (lose_all_crashed (set_contents fs1 data_wal (dir w')) Hst))
      as (fs3 & w2 & xs & H1 & H2 & H3 & _).
    exists fs3, w2, xs. split; [exact H1|]. split; [exact H2|exact H3].
Defined.

(** The first open creates the directories and fails to sync the root. *)
Definition unsynced : DirFaults :=
  mkDirFaults true (fun _ => true) (fun _ => true) (fun p => negb (bool_decide (p = []))).

(** What happens after it: the next open succeeds, a record is appended and synced, and the
    directory is not durable; after a crash it is gone, and the log at the path is empty. *)
Definition first_record_at : StoredRecord := mkStoredRecord (mkLsn 0 0) (mkWalRecord 1 [Byte.x61]).
Definition write_one : list WalOp := [AppendOp 1 [Byte.x61] no_faults; SyncOp true].

Definition forgets (lost : Fs) : bool :=
  match open_data_wal lost no_dir_faults with
  | (_, Ok w) => match all_records w with Ok xs => bool_decide (xs = []) | Err _ => false end
  | (_, Err _) => false
  end.

Definition loses_synced_record (fs1 : Fs) : bool :=
  match open_data_wal fs1 no_dir_faults with
  | (fs2, Ok w) =>
      let '(w2, acked, synced) := foldl perform (w, [], []) write_one in
      let left := set_contents fs2 data_wal (dir w2) in
      bool_decide (synced = [first_record_at]) && negb (durable left data_wal) &&
      stable_within left && forgets (lose_all left)
  | (_, Err _) => false
  end.

Lemma forgets_spec lost : forgets lost = true ->
  exists fs3 w3, open_data_wal lost no_dir_faults = (fs3, Ok w3) /\ all_records w3 = Ok [].
Proof.
  unfold forgets. destruct (open_data_wal lost no_dir_faults) as [fs3 [w3|e]]; [|done].
  destruct (all_records w3) eqn:E; [|done]. intros ->%bool_decide_eq_true. eauto.
Qed.

Lemma loses_synced_record_spec fs1 : loses_synced_record fs1 = true ->
  exists fs2 w w2 acked synced fs' fs3 w3,
    open_data_wal fs1 no_dir_faults = (fs2, Ok w) /\
    foldl perform (w, [], []) write_one = (w2, acked, synced) /\ first_record_at ∈ synced /\
    fs_crashed (set_contents fs2 data_wal (dir w2)) fs' /\
    open_data_wal fs' no_dir_faults = (fs3, Ok w3) /\ all_records w3 = Ok [].
Proof.
  unfold loses_synced_record. destruct (open_data_wal fs1 no_dir_faults) as [fs2 [w|e]]; [|done].
  destruct (foldl perform (w, [], []) write_one) as [[w2 acked] synced] eqn:Er. intros. unbool.
  destruct (forgets_spec _ ltac:(eassumption)) as (fs3 & w3 & H3 & H4).
  eexists fs2, w, w2, acked, synced, _, fs3, w3. split_and!; [done|exact Er| | |exact H3|exact H4].
  - subst. by apply list_elem_of_singleton.
  - by apply lose_all_crashed.
Qed.

(** An interrupted creation is never made up for: when [create_dir_all] is cut short after it
    created the directories, here by a failing sync, the next [Wal::open] finds them and syncs
    nothing.  A record that is then appended and acknowledged by a successful sync is gone
    after a crash, with the whole log. *)
Theorem interrupted_creation_is_never_synced :
  exists fs1 e fs2 w w2 acked synced fs' fs3 w3,
    open_data_wal bare_fs unsynced = (fs1, Err e) /\
    open_data_wal fs1 no_dir_faults = (fs2, Ok w) /\
    foldl perform (w, [], []) write_one = (w2, acked, synced) /\ first_record_at ∈ synced /\
    fs_crashed (set_contents fs2 data_wal (dir w2)) fs' /\
    open_data_wal fs' no_dir_faults = (fs3, Ok w3) /\ all_records w3 = Ok [].
Proof.
  assert (match open_data_wal bare_fs unsynced with
          | (fs1, Err _) => loses_synced_record fs1 | _ => false end = true) as H
    by (vm_compute; reflexivity).
  destruct (open_data_wal bare_fs unsynced) as [fs1 [w|e]] eqn:E; [done|].
  apply loses_synced_record_spec in H as (fs2 & w & w2 & acked & synced & fs' & fs3 & w3 & H).
  exists fs1, e, fs2, w, w2, acked, synced, fs', fs3, w3. by split.
Qed.
