(* ===== verification/Membership.v ===== *)
(** * Membership: cluster configurations and configuration changes

    Models [consensus/basisdb-raft/src/raft/membership.rs].  A Rust
    [BTreeSet<NodeId>] is a [gset N]; its ascending iteration is [iter].  The
    theorems show that quorums of one configuration intersect, and that every
    change [validate] accepts keeps the quorums of the old and the new
    configuration overlapping, in both membership modes. *)

From S2P Require Import Prelude.
From S2P Require Import Types.

(** ** Data *)

Inductive MembershipMode : Type :=
| SingleServer
| JointConsensus.

#[global] Instance MembershipMode_eq_dec : EqDecision MembershipMode.
Proof. solve_decision. Defined.

Inductive Configuration : Type :=
| Simple (voters learners : gset N)
| Joint (old new learners : gset N).

#[global] Instance Configuration_eq_dec : EqDecision Configuration.
Proof. solve_decision. Defined.

(** Ascending iteration over a [BTreeSet]. *)
Definition iter (s : gset N) : list N := merge_sort N.le (elements s).

(** Collecting an iterator into a [BTreeSet]. *)
Definition collect (l : list N) : gset N := list_to_set l.

(** ** [impl Configuration] *)

Definition simple (voters : list N) : Configuration :=
  Simple (collect voters) ∅.

Definition simple_with_learners (voters learners : list N) : Configuration :=
  Simple (collect voters) (collect learners).

Definition joint (old new : list N) : Configuration :=
  Joint (collect old) (collect new) ∅.

Definition joint_with_learners (old new learners : list N) : Configuration :=
  Joint (collect old) (collect new) (collect learners).

Definition voters (c : Configuration) : list N :=
  match c with
  | Simple v _ => iter v
  | Joint old new _ =>
      iter old ++ base.filter (fun id => id ∉ old) (iter new)
  end.

Definition is_voter (c : Configuration) (id : N) : bool :=
  match c with
  | Simple v _ => bool_decide (id ∈ v)
  | Joint old new _ => bool_decide (id ∈ old) || bool_decide (id ∈ new)
  end.

Definition is_learner (c : Configuration) (id : N) : bool :=
  match c with
  | Simple _ l | Joint _ _ l => bool_decide (id ∈ l)
  end.

Definition learners (c : Configuration) : list N :=
  match c with
  | Simple _ l | Joint _ _ l => iter l
  end.

Definition voter_count (c : Configuration) : nat :=
  match c with
  | Simple v _ => size v
  | Joint old new _ =>
      (size old + length (base.filter (fun id => id ∉ old) (iter new)))%nat
  end.

Definition voter_peers (c : Configuration) (me : N) : list N :=
  base.filter (fun id => id ≠ me) (voters c).

Definition all_nodes (c : Configuration) : list N :=
  voters c ++ learners c.

Definition replication_peers (c : Configuration) (me : N) : list N :=
  base.filter (fun id => id ≠ me) (all_nodes c).

Definition is_member (c : Configuration) (id : N) : bool :=
  is_voter c id || is_learner c id.

Definition is_joint (c : Configuration) : bool :=
  match c with Joint _ _ _ => true | Simple _ _ => false end.

Definition quorum_sizes (c : Configuration) : nat * option nat :=
  match c with
  | Simple v _ => ((size v / 2 + 1)%nat, None)
  | Joint old new _ => ((size old / 2 + 1)%nat, Some (size new / 2 + 1)%nat)
  end.

(** [set.iter().filter(|id| has_vote(id)).count()]. *)
Definition count_votes (s : gset N) (has_vote : N -> bool) : nat :=
  length (List.filter has_vote (iter s)).

Definition has_quorum (c : Configuration) (has_vote : N -> bool) : bool :=
  match c with
  | Simple v _ =>
      let votes := count_votes v has_vote in
      (size v / 2 <? votes)%nat
  | Joint old new _ =>
      let old_votes := count_votes old has_vote in
      let new_votes := count_votes new has_vote in
      (size old / 2 <? old_votes)%nat && (size new / 2 <? new_votes)%nat
  end.

(** The loop of [voter_membership] over [new], with the [seen] hash set. *)
Fixpoint membership_new (l : list N) (seen : gset N) : list (N * bool * bool) :=
  match l with
  | [] => []
  | id :: l' =>
      if bool_decide (id ∈ seen) then membership_new l' seen
      else (id, false, true) :: membership_new l' ({[id]} ∪ seen)
  end.

Definition voter_membership (c : Configuration) : list (N * bool * bool) :=
  match c with
  | Simple v _ => (fun id => (id, true, true)) <$> iter v
  | Joint old new _ =>
      ((fun id => (id, true, bool_decide (id ∈ new))) <$> iter old)
      ++ membership_new (iter new) old
  end.

Definition transition_target (c : Configuration) : option Configuration :=
  match c with
  | Simple _ _ => None
  | Joint _ new l => Some (Simple new l)
  end.

(** [impl Default for Configuration]. *)
Definition Configuration_default : Configuration := Simple ∅ ∅.

(** ** Errors *)

Inductive ConfigChangeError : Type :=
| ChangeInProgress
| AlreadyVoter (id : N)
| AlreadyLearner (id : N)
| Overlap (id : N)
| PromoteRequiresLearner (id : N)
| LearnerNotCaughtUp (id have need : N)
| NotVoter (id : N)
| NotLearner (id : N)
| WouldBeEmpty
| NoChange
| NotSingleChange (added removed : nat)
| ChangeNotLeader.

(** ** [Members]: a canonical membership set *)

Record Members : Type := mkMembers {
  m_voters : list N;
  m_learners : list N
}.

(** The learner loop of [Members::new], which stops at the first overlap. *)
Fixpoint collect_learners (voter_set learner_set : gset N) (l : list N)
  : result (gset N) ConfigChangeError :=
  match l with
  | [] => Ok learner_set
  | id :: l' =>
      if bool_decide (id ∈ voter_set) then Err (Overlap id)
      else collect_learners voter_set ({[id]} ∪ learner_set) l'
  end.

Definition Members_new (vs ls : list N) : result Members ConfigChangeError :=
  let voter_set := collect vs in
  let? learner_set := collect_learners voter_set ∅ ls in
  Ok (mkMembers (iter voter_set) (iter learner_set)).

(** ** Configuration changes *)

Inductive ConfigChange : Type :=
| AddVoter (id : N)
| RemoveVoter (id : N)
| AddLearner (id : N)
| RemoveLearner (id : N)
| SetMembers (members : Members).

(** The [SetMembers] arm of [validate]. *)
Definition validate_set_members (vs ls new_voters new_learners : gset N)
    (mode : MembershipMode) : result unit ConfigChangeError :=
  if bool_decide (new_voters = vs) && bool_decide (new_learners = ls)
  then Err NoChange
  else
    let added := base.filter (fun id => id ∉ vs) (iter new_voters) in
    let removed := base.filter (fun id => id ∉ new_voters) (iter vs) in
    if bool_decide (mode = SingleServer)
       && (1 <? length added + length removed)%nat
    then Err (NotSingleChange (length added) (length removed))
    else if bool_decide (new_voters = ∅) then Err WouldBeEmpty
    else
      match List.find (fun id => bool_decide (id ∈ new_learners)) (iter new_voters) with
      | Some id => Err (AlreadyVoter id)
      | None => Ok tt
      end.

Definition validate (change : ConfigChange) (current : Configuration)
    (mode : MembershipMode) : result unit ConfigChangeError :=
  match current with
  | Joint _ _ _ => Err ChangeInProgress
  | Simple vs ls =>
      match change with
      | AddVoter id =>
          if bool_decide (id ∈ vs) then Err (AlreadyVoter id)
          else if bool_decide (id ∈ ls) then Ok tt
          else Err (PromoteRequiresLearner id)
      | RemoveVoter id =>
          if bool_decide (id ∈ vs)
          then if (size vs =? 1)%nat then Err WouldBeEmpty else Ok tt
          else Err (NotVoter id)
      | AddLearner id =>
          if bool_decide (id ∈ vs) then Err (AlreadyVoter id)
          else if bool_decide (id ∈ ls) then Err (AlreadyLearner id)
          else Ok tt
      | RemoveLearner id =>
          if bool_decide (id ∈ ls) then Ok tt else Err (NotLearner id)
      | SetMembers m =>
          validate_set_members vs ls (collect (m_voters m)) (collect (m_learners m)) mode
      end
  end.

Definition apply (change : ConfigChange) (current : Configuration)
    (mode : MembershipMode) : Configuration :=
  let '(vs, ls) :=
    match current with
    | Simple v l => (v, l)
    | Joint _ new l => (new, l)
    end in
  match change with
  | AddVoter id => Simple ({[id]} ∪ vs) (ls ∖ {[id]})
  | RemoveVoter id => Simple (vs ∖ {[id]}) ls
  | AddLearner id => Simple vs ({[id]} ∪ ls)
  | RemoveLearner id => Simple vs (ls ∖ {[id]})
  | SetMembers m =>
      let new_voters := collect (m_voters m) in
      let new_learners := collect (m_learners m) in
      if bool_decide (mode = JointConsensus) && negb (bool_decide (vs = new_voters))
      then Joint vs new_voters new_learners
      else Simple new_voters new_learners
  end.

(** ** Iteration *)

#[global] Instance N_le_total : Total N.le.
Proof. intros x y. lia. Qed.

#[global] Instance N_le_trans : Transitive N.le.
Proof. intros x y z. lia. Qed.

Lemma iter_perm s : iter s ≡ₚ elements s.
Proof. apply merge_sort_Permutation. Qed.

Lemma elem_of_iter s x : x ∈ iter s <-> x ∈ s.
Proof. by rewrite iter_perm, elem_of_elements. Qed.

Lemma iter_nodup s : NoDup (iter s).
Proof. rewrite iter_perm. apply NoDup_elements. Qed.

Lemma iter_length s : length (iter s) = size s.
Proof. by rewrite iter_perm. Qed.

(** A [BTreeSet] is enumerated in strictly ascending order. *)
Lemma iter_sorted s : StronglySorted N.lt (iter s).
Proof.
  pose proof (StronglySorted_merge_sort N.le (elements s)) as Hs.
  fold (iter s) in Hs. pose proof (iter_nodup s) as Hd. revert Hd.
  induction Hs as [|x l Hs IH Hall]; intros Hd; constructor.
  - apply IH. by apply NoDup_cons in Hd as [??].
  - apply NoDup_cons in Hd as [Hx _]. rewrite Forall_forall in Hall |- *.
    intros y Hy. specialize (Hall y Hy). assert (x ≠ y) by (by intros ->). lia.
Qed.

Lemma iter_insert s x : x ∉ s -> iter ({[x]} ∪ s) ≡ₚ x :: iter s.
Proof. intros Hx. rewrite !iter_perm. by rewrite elements_union_singleton. Qed.

Lemma elem_of_collect l x : x ∈ collect l <-> x ∈ l.
Proof. unfold collect. by rewrite elem_of_list_to_set. Qed.

#[export] Hint Rewrite elem_of_iter elem_of_collect : basis_rw.

(** ** Counting votes *)

Lemma count_votes_le s f : (count_votes s f <= size s)%nat.
Proof. unfold count_votes. rewrite <- iter_length. apply filter_length_le. Qed.

Lemma filter_perm_length {A} (f : A -> bool) l1 l2 :
  l1 ≡ₚ l2 -> length (List.filter f l1) = length (List.filter f l2).
Proof.
  induction 1; simpl; repeat case_match; simpl; congruence.
Qed.

Lemma count_votes_insert s x f :
  x ∉ s -> count_votes ({[x]} ∪ s) f = ((if f x then 1 else 0) + count_votes s f)%nat.
Proof.
  intros Hx. unfold count_votes.
  rewrite (filter_perm_length f _ _ (iter_insert s x Hx)). simpl. by destruct (f x).
Qed.

(** Inclusion-exclusion on one list. *)
Lemma filter_overlap {A} (f g : A -> bool) l :
  (length (List.filter f l) + length (List.filter g l)
   <= length l + length (List.filter (fun x => f x && g x) l))%nat.
Proof.
  induction l as [|x l IH]; simpl; [done|].
  destruct (f x), (g x); simpl; lia.
Qed.

(** Two vote counts that exceed the set share a voter. *)
Lemma votes_intersect s f g :
  (size s < count_votes s f + count_votes s g)%nat ->
  exists id, id ∈ s /\ f id = true /\ g id = true.
Proof.
  unfold count_votes. rewrite <- iter_length. intros Hc.
  pose proof (filter_overlap f g (iter s)).
  destruct (List.filter (fun x => f x && g x) (iter s)) as [|id l] eqn:E;
    [simpl in *; lia|].
  assert (In id (List.filter (fun x => f x && g x) (iter s))) as Hin by (rewrite E; by left).
  apply filter_In in Hin as [Hin Hfg]. unbool.
  exists id. by rewrite <- elem_of_iter, list_elem_of_In.
Qed.

(** Voter sets that differ by at most one member. *)
Definition one_apart (v v' : gset N) : Prop :=
  v = v' \/ exists id, ((id ∉ v) /\ v' = {[id]} ∪ v) \/ ((id ∉ v') /\ v = {[id]} ∪ v').

Lemma majorities_of_one_apart v v' f g :
  one_apart v v' ->
  (size v / 2 < count_votes v f)%nat -> (size v' / 2 < count_votes v' g)%nat ->
  exists id, id ∈ v /\ id ∈ v' /\ f id = true /\ g id = true.
Proof.
  intros [->|(x & [[Hx ->]|[Hx ->]])] Hf Hg.
  - destruct (votes_intersect v' f g) as (id & ? & ? & ?); [|naive_solver].
    pose proof (Nat.div_mod_eq (size v') 2). pose proof (Nat.mod_upper_bound (size v') 2). lia.
  - rewrite count_votes_insert in Hg by done.
    rewrite size_union, size_singleton in Hg by set_solver.
    destruct (votes_intersect v f g) as (id & ? & ? & ?); [|set_solver].
    pose proof (Nat.div_mod_eq (size v) 2). pose proof (Nat.mod_upper_bound (size v) 2).
    pose proof (Nat.div_mod_eq (1 + size v) 2). pose proof (Nat.mod_upper_bound (1 + size v) 2).
    destruct (g x); lia.
  - rewrite count_votes_insert in Hf by done.
    rewrite size_union, size_singleton in Hf by set_solver.
    destruct (votes_intersect v' f g) as (id & ? & ? & ?); [|set_solver].
    pose proof (Nat.div_mod_eq (size v') 2). pose proof (Nat.mod_upper_bound (size v') 2).
    pose proof (Nat.div_mod_eq (1 + size v') 2). pose proof (Nat.mod_upper_bound (1 + size v') 2).
    destruct (f x); lia.
Qed.

(** ** Quorums of one configuration *)

Lemma has_quorum_simple v l f :
  has_quorum (Simple v l) f = true <-> (size v / 2 < count_votes v f)%nat.
Proof. unfold has_quorum. apply Nat.ltb_lt. Qed.

Lemma has_quorum_joint o n l f :
  has_quorum (Joint o n l) f = true <->
  (size o / 2 < count_votes o f)%nat /\ (size n / 2 < count_votes n f)%nat.
Proof. unfold has_quorum. by rewrite andb_true_iff, !Nat.ltb_lt. Qed.

(** The voter sets a configuration counts majorities in. *)
Definition voter_sets (c : Configuration) : list (gset N) :=
  match c with
  | Simple v _ => [v]
  | Joint o n _ => [o; n]
  end.

Lemma has_quorum_sets c f :
  has_quorum c f = true <->
  Forall (fun s => size s / 2 < count_votes s f)%nat (voter_sets c).
Proof.
  destruct c; simpl voter_sets.
  - rewrite has_quorum_simple. by rewrite Forall_singleton.
  - rewrite has_quorum_joint, !Forall_cons, Forall_nil. tauto.
Qed.

Lemma is_voter_sets c id :
  is_voter c id = true <-> exists s, s ∈ voter_sets c /\ id ∈ s.
Proof.
  destruct c; simpl.
  - rewrite bool_decide_eq_true. set_solver.
  - rewrite orb_true_iff, !bool_decide_eq_true. set_solver.
Qed.

#[global] Arguments has_quorum : simpl never.
#[global] Arguments is_voter : simpl never.

(** Whenever some voter set of [c] is one member apart from some voter set of
    [c'], a quorum of [c] and a quorum of [c'] share a voter. *)
Lemma quorums_overlap c c' s s' f g :
  s ∈ voter_sets c -> s' ∈ voter_sets c' -> one_apart s s' ->
  has_quorum c f = true -> has_quorum c' g = true ->
  exists id, is_voter c id = true /\ is_voter c' id = true /\ f id = true /\ g id = true.
Proof.
  rewrite !has_quorum_sets, !Forall_forall. intros Hs Hs' Ha Hf Hg.
  destruct (majorities_of_one_apart s s' f g Ha (Hf s Hs) (Hg s' Hs'))
    as (id & ? & ? & ? & ?).
  exists id. rewrite !is_voter_sets. eauto 10.
Qed.

(** Any two quorums of the same configuration, simple or joint, share a
    voter, so two candidates cannot both collect a quorum of exclusive votes. *)
Theorem quorums_intersect c f g
    (Hf : has_quorum c f = true) (Hg : has_quorum c g = true) :
  exists id, is_voter c id = true /\ f id = true /\ g id = true.
Proof.
  assert (exists s, s ∈ voter_sets c) as [s Hs]
    by (destruct c; eexists; left).
  destruct (quorums_overlap c c s s f g) as (id & ? & _ & ? & ?);
    [done..|by left|done|done|]. eauto.
Qed.

Lemma quorums_intersect_witness :
  exists id, is_voter (joint [0; 1; 2] [1; 2; 3]) id = true /\
             (id <? 3) = true /\ (0 <? id) = true.
Proof.
  apply (quorums_intersect (joint [0; 1; 2] [1; 2; 3])
           (fun id => id <? 3) (fun id => 0 <? id)); vm_compute; reflexivity.
Defined.

(** ** Configuration changes keep quorums overlapping *)

Lemma one_apart_refl v : one_apart v v.
Proof. by left. Qed.
#[export] Hint Resolve one_apart_refl : basis.

Lemma one_apart_add v id : one_apart v ({[id]} ∪ v).
Proof.
  destruct (decide (id ∈ v)) as [Hin|]; [|right; naive_solver].
  left. set_solver.
Qed.

Lemma one_apart_remove v id : one_apart v (v ∖ {[id]}).
Proof.
  destruct (decide (id ∈ v)) as [Hin|]; [|left; set_solver].
  right. exists id. right. split; [set_solver|].
  apply set_eq. intros x. destruct (decide (x = id)); set_solver.
Qed.
#[export] Hint Resolve one_apart_add one_apart_remove : basis.

(** Members of [s] outside [t], as the code enumerates them. *)
Lemma filter_iter_nil s t :
  base.filter (fun id => id ∉ t) (iter s) = [] -> s ⊆ t.
Proof.
  intros Hn x Hx. destruct (decide (x ∈ t)); [done|].
  assert (x ∈ base.filter (fun id => id ∉ t) (iter s)) as Hin
    by (apply list_elem_of_filter; by rewrite elem_of_iter).
  rewrite Hn in Hin. by apply elem_of_nil in Hin.
Qed.

Lemma filter_iter_one s t x :
  base.filter (fun id => id ∉ t) (iter s) = [x] -> s ⊆ {[x]} ∪ t /\ x ∈ s /\ (x ∉ t).
Proof.
  intros Hn.
  assert (x ∈ base.filter (fun id => id ∉ t) (iter s)) as Hin by (rewrite Hn; left).
  apply list_elem_of_filter in Hin. rewrite elem_of_iter in Hin.
  split; [|tauto]. intros y Hy. destruct (decide (y ∈ t)); [set_solver|].
  assert (y ∈ base.filter (fun id => id ∉ t) (iter s)) as Hin'
    by (apply list_elem_of_filter; by rewrite elem_of_iter).
  rewrite Hn in Hin'. set_solver.
Qed.

(** At most one addition or removal in total means the sets are one apart. *)
Lemma single_change_one_apart v v' :
  (length (base.filter (fun id => id ∉ v) (iter v'))
   + length (base.filter (fun id => id ∉ v') (iter v)) <= 1)%nat ->
  one_apart v v'.
Proof.
  intros Hl.
  destruct (base.filter (fun id => id ∉ v) (iter v')) as [|a [|??]] eqn:Ea;
  destruct (base.filter (fun id => id ∉ v') (iter v)) as [|r [|??]] eqn:Er;
    simpl in Hl; try lia.
  - apply filter_iter_nil in Ea, Er. left. set_solver.
  - apply filter_iter_nil in Ea. apply filter_iter_one in Er as (? & ? & ?).
    right. exists r. right. split; [done|]. set_solver.
  - apply filter_iter_one in Ea as (? & ? & ?). apply filter_iter_nil in Er.
    right. exists a. left. split; [done|]. set_solver.
Qed.

Lemma validate_simple change current mode :
  validate change current mode = Ok tt -> exists v l, current = Simple v l.
Proof. destruct current; simpl; [eauto|done]. Qed.

(** What the [SetMembers] arm of [validate] has checked on success. *)
Lemma validate_set_members_ok v l v' l' mode :
  validate_set_members v l v' l' mode = Ok tt ->
  v' ≠ ∅ /\ v' ## l' /\ (mode = SingleServer -> one_apart v v').
Proof.
  unfold validate_set_members. intros Hv. repeat case_match; simplify_eq; unbool.
  all: try match goal with
  | H : List.find _ _ = None |- _ => pose proof (find_none _ _ H) as Hn
  end.
  all: split; [done|]; split.
  all: try (intros x Hx Hl;
    specialize (Hn x ltac:(rewrite <- list_elem_of_In; by apply elem_of_iter));
    by apply bool_decide_eq_false in Hn).
  all: intros Hm; apply single_change_one_apart;
    match goal with H : _ \/ _ |- _ => destruct H end; unbool; congruence || lia.
Qed.

Lemma change_overlap change current mode f g :
  validate change current mode = Ok tt ->
  has_quorum current f = true -> has_quorum (apply change current mode) g = true ->
  exists id, is_voter current id = true /\
             is_voter (apply change current mode) id = true /\
             f id = true /\ g id = true.
Proof.
  intros Hv Hf Hg.
  destruct (validate_simple _ _ _ Hv) as (v & l & ->).
  destruct change as [id|id|id|id|m]; simpl in Hv; unfold apply in Hg |- *.
  1-4: eapply quorums_overlap; [left|left| |done|done]; auto with basis.
  apply validate_set_members_ok in Hv as (_ & _ & Hone).
  case_match; eapply quorums_overlap; [left|left|by left|done|done|left|left| |done|done].
  unbool. destruct mode; [by apply Hone|]. left.
  match goal with H : _ \/ _ |- _ => destruct H end; unbool; done.
Qed.

(** C16. Every change that [validate] accepts, in either membership mode, leads
    to a configuration each of whose quorums shares a voter with each quorum of
    the configuration it replaces, so old and new majorities cannot decide
    independently. *)
Theorem change_keeps_quorums_overlapping change current mode f g
    (Hv : validate change current mode = Ok tt)
    (Hf : has_quorum current f = true)
    (Hg : has_quorum (apply change current mode) g = true) :
  exists id, is_voter current id = true /\
             is_voter (apply change current mode) id = true /\
             f id = true /\ g id = true.
Proof. by apply change_overlap. Qed.

Lemma change_keeps_quorums_overlapping_witness :
  exists id, is_voter (simple [0; 1; 2]) id = true /\
             is_voter (Joint {[0; 1; 2]} {[2; 3; 4]} ∅) id = true /\
             (id <? 2) = true /\ (negb (id =? 0)) = true.
Proof.
  apply (change_keeps_quorums_overlapping
           (SetMembers (mkMembers [2; 3; 4] [])) (simple [0; 1; 2]) JointConsensus
           (fun id => id <? 2) (fun id => negb (id =? 0))); vm_compute; reflexivity.
Defined.

(** The final configuration of a joint change, the one the leader appends
    when the joint configuration commits, has quorums that overlap those of the
    joint configuration. *)
Theorem joint_exit_keeps_quorums_overlapping c target f g
    (Ht : transition_target c = Some target)
    (Hf : has_quorum c f = true) (Hg : has_quorum target g = true) :
  exists id, is_voter c id = true /\ is_voter target id = true /\
             f id = true /\ g id = true.
Proof.
  destruct c as [|o n l]; simpl in Ht; simplify_eq.
  eapply (quorums_overlap (Joint o n l) (Simple n l) n n); [right; left|left|by left|done|done].
Qed.

Lemma joint_exit_keeps_quorums_overlapping_witness :
  exists id, is_voter (joint [0; 1; 2] [2; 3; 4]) id = true /\
             is_voter (simple [2; 3; 4]) id = true /\
             (negb (id =? 0)) = true /\ (id <? 4) = true.
Proof.
  apply (joint_exit_keeps_quorums_overlapping (joint [0; 1; 2] [2; 3; 4])
           (simple [2; 3; 4]) (fun id => negb (id =? 0)) (fun id => id <? 4));
    vm_compute; reflexivity.
Defined.

(** ** Well-formed configurations *)

(** Every voter set is non-empty, and no current or future voter is a learner. *)
Definition config_wf (c : Configuration) : Prop :=
  match c with
  | Simple v l => v ≠ ∅ /\ v ## l
  | Joint o n l => o ≠ ∅ /\ n ≠ ∅ /\ n ## l
  end.

(** Every change that [validate] accepts turns a well-formed configuration
    into a well-formed one: no voter set becomes empty and no voter is also
    listed as a learner. *)
Theorem apply_preserves_wf change current mode
    (Hv : validate change current mode = Ok tt) (Hwf : config_wf current) :
  config_wf (apply change current mode).
Proof.
  destruct (validate_simple _ _ _ Hv) as (v & l & ->). destruct Hwf as [Hne Hd].
  destruct change as [id|id|id|id|m]; simpl in Hv; unfold apply.
  - split; set_solver.
  - repeat case_match; simplify_eq; unbool. split; [|set_solver].
    intros He. assert (v = {[id]}) as -> by (apply set_eq; intros x; destruct (decide (x = id)); set_solver).
    by rewrite size_singleton in *.
  - repeat case_match; simplify_eq; unbool. split; set_solver.
  - split; set_solver.
  - apply validate_set_members_ok in Hv as (? & ? & _).
    case_match; simpl; auto.
Qed.

Lemma apply_preserves_wf_witness :
  config_wf (apply (AddVoter 3) (Simple {[0; 1; 2]} {[3]}) SingleServer).
Proof.
  apply (apply_preserves_wf (AddVoter 3) (Simple {[0; 1; 2]} {[3]}) SingleServer).
  - vm_compute; reflexivity.
  - split; set_solver.
Defined.

(** The joint phase is the only way out of a simple configuration in joint mode
    when the voters change, and [transition_target] leads back. *)
Lemma transition_target_wf c t :
  config_wf c -> transition_target c = Some t -> config_wf t.
Proof. destruct c; simpl; intros; simplify_eq. simpl. tauto. Qed.

(** ** Voters, members and peers *)

Lemma elem_of_voters c id : id ∈ voters c <-> is_voter c id = true.
Proof.
  destruct c as [v l|o n l]; unfold is_voter; simpl.
  - by rewrite elem_of_iter, bool_decide_eq_true.
  - rewrite elem_of_app, list_elem_of_filter, !elem_of_iter, orb_true_iff, !bool_decide_eq_true.
    destruct (decide (id ∈ o)); tauto.
Qed.

Lemma voters_nodup c : NoDup (voters c).
Proof.
  destruct c as [v l|o n l]; simpl; [apply iter_nodup|].
  apply NoDup_app. split; [apply iter_nodup|]. split.
  - intros x Hx [Hn _]%list_elem_of_filter. by rewrite elem_of_iter in Hx.
  - apply NoDup_filter, iter_nodup.
Qed.

Lemma voter_count_voters c : voter_count c = length (voters c).
Proof.
  destruct c; simpl; [by rewrite iter_length|]. by rewrite length_app, iter_length.
Qed.

Lemma elem_of_voter_peers c me id :
  id ∈ voter_peers c me <-> id ≠ me /\ is_voter c id = true.
Proof. unfold voter_peers. by rewrite list_elem_of_filter, elem_of_voters. Qed.

Lemma elem_of_all_nodes c id : id ∈ all_nodes c <-> is_member c id = true.
Proof.
  unfold all_nodes, is_member. rewrite elem_of_app, elem_of_voters, orb_true_iff.
  destruct c; simpl; by rewrite elem_of_iter, bool_decide_eq_true.
Qed.

Lemma elem_of_replication_peers c me id :
  id ∈ replication_peers c me <-> id ≠ me /\ is_member c id = true.
Proof. unfold replication_peers. by rewrite list_elem_of_filter, elem_of_all_nodes. Qed.

(** A quorum needs only the votes of the configuration's voters. *)
Lemma has_quorum_ext c f g :
  (forall id, is_voter c id = true -> f id = g id) -> has_quorum c f = has_quorum c g.
Proof.
  intros Hfg. apply eq_true_iff_eq. rewrite !has_quorum_sets, !Forall_forall.
  assert (forall s, s ∈ voter_sets c -> count_votes s f = count_votes s g) as Hc.
  { intros s Hs. unfold count_votes. f_equal. apply filter_ext_in. intros id Hid.
    apply Hfg, is_voter_sets. exists s. split; [done|]. by apply elem_of_iter, list_elem_of_In. }
  split; intros Hq s Hs; specialize (Hq s Hs); rewrite Hc in * by done; done.
Qed.

(** More votes keep a quorum. *)
Lemma has_quorum_mono c f g :
  (forall id, is_voter c id = true -> f id = true -> g id = true) ->
  has_quorum c f = true -> has_quorum c g = true.
Proof.
  intros Hfg. rewrite !has_quorum_sets, !Forall_forall. intros Hq s Hs.
  specialize (Hq s Hs). eapply Nat.lt_le_trans; [exact Hq|].
  assert (forall id, id ∈ iter s -> f id = true -> g id = true) as Hi.
  { intros id Hid. apply Hfg, is_voter_sets. exists s. by rewrite <- elem_of_iter. }
  unfold count_votes. induction (iter s) as [|x l IH]; simpl; [done|].
  destruct (f x) eqn:Ef; simpl.
  - rewrite (Hi x) by (done || left). simpl. apply le_n_S, IH. intros; apply Hi; by (done || right).
  - transitivity (length (List.filter g l)); [apply IH; intros; apply Hi; by (done || right)|].
    destruct (g x); simpl; lia.
Qed.

(** ** [Members::new] *)

Lemma collect_learners_spec vs acc ls :
  match collect_learners vs acc ls with
  | Ok s => s = collect ls ∪ acc /\ collect ls ## vs
  | Err e => exists id, e = Overlap id /\ id ∈ ls /\ id ∈ vs
  end.
Proof.
  revert acc. induction ls as [|id ls IH]; intros acc; simpl.
  - split; set_solver.
  - case_bool_decide; [exists id; set_solver|]. specialize (IH ({[id]} ∪ acc)).
    destruct (collect_learners _ _ _); [|set_solver].
    destruct IH as [-> ?]. unfold collect. simpl. split; set_solver.
Qed.

(** [Members::new] canonicalises its arguments: on success both lists are
    strictly ascending, contain exactly the given nodes and are disjoint; it
    fails only with [Overlap] of a node given in both roles. *)
Theorem Members_new_canonical vs ls :
  match Members_new vs ls with
  | Ok m =>
      StronglySorted N.lt (m_voters m) /\ StronglySorted N.lt (m_learners m) /\
      (forall id, id ∈ m_voters m <-> id ∈ vs) /\
      (forall id, id ∈ m_learners m <-> id ∈ ls) /\
      (forall id, id ∈ m_voters m -> id ∈ m_learners m -> False)
  | Err e => exists id, e = Overlap id /\ id ∈ vs /\ id ∈ ls
  end.
Proof.
  unfold Members_new. pose proof (collect_learners_spec (collect vs) ∅ ls) as Hs.
  destruct (collect_learners _ _ _) as [s|e]; simpl.
  - destruct Hs as [-> Hd]. setoid_rewrite elem_of_iter.
    setoid_rewrite elem_of_union. setoid_rewrite elem_of_collect.
    split; [apply iter_sorted|]. split; [apply iter_sorted|]. set_solver.
  - destruct Hs as (id & -> & Hl & Hv%elem_of_collect). eauto.
Qed.
