(* ===== verification/Log.v ===== *)
(** * Log: the replicated log

    Models [consensus/basisdb-raft/src/raft/log.rs].  The vector of entries is a
    list; [u64]-to-[usize] conversions cannot fail on the 64-bit targets the
    crate supports, so [to_vec_index] only fails for compacted indices.  The
    theorems give each operation its meaning in terms of [get], and show that the
    invariant of the [Log] doc comment (entries contiguous after the snapshot) is
    kept by every mutation. *)

From S2P Require Import Prelude.
From S2P Require Import Types.
From S2P Require Import Membership.

(** ** Data *)

Inductive EntryPayload : Type :=
| CommandPayload (c : Command)
| ConfigPayload (c : Configuration).

Definition is_config (p : EntryPayload) : bool :=
  match p with ConfigPayload _ => true | CommandPayload _ => false end.

Definition as_config (p : EntryPayload) : option Configuration :=
  match p with ConfigPayload c => Some c | CommandPayload _ => None end.

Record Entry : Type := mkEntry {
  e_term : N;
  e_index : N;
  e_payload : EntryPayload
}.

Record Log : Type := mkLog {
  entries : list Entry;
  snapshot_index : N;
  snapshot_term : N;
  snapshot_config : option Configuration
}.

#[global] Instance EntryPayload_eq_dec : EqDecision EntryPayload.
Proof. solve_decision. Defined.
#[global] Instance Entry_eq_dec : EqDecision Entry.
Proof. solve_decision. Defined.
#[global] Instance Log_eq_dec : EqDecision Log.
Proof. solve_decision. Defined.

(** [#[derive(Default)]]. *)
Definition Log_default : Log := mkLog [] 0 0 None.

(** ** Accessors *)

Definition first_index (l : Log) : N := snapshot_index l +u 1.

Definition last_index (l : Log) : N :=
  match last (entries l) with
  | Some e => e_index e
  | None => snapshot_index l
  end.

Definition last_term (l : Log) : N :=
  match last (entries l) with
  | Some e => e_term e
  | None => snapshot_term l
  end.

Definition to_vec_index (l : Log) (index : N) : option nat :=
  if index <=? snapshot_index l then None
  else Some (N.to_nat (index - snapshot_index l - 1)).

(** [self.to_vec_index(index).and_then(|i| self.entries.get(i))]. *)
Definition vec_get (l : Log) (index : N) : option Entry :=
  match to_vec_index l index with
  | Some i => entries l !! i
  | None => None
  end.

Definition term_at (l : Log) (index : N) : N :=
  if (index =? 0) || (index <? snapshot_index l) then 0
  else if index =? snapshot_index l then snapshot_term l
  else match vec_get l index with Some e => e_term e | None => 0 end.

Definition get (l : Log) (index : N) : option Entry :=
  if (index =? 0) || (index <=? snapshot_index l) then None
  else vec_get l index.

(** ** Queries *)

Definition is_empty (l : Log) : bool :=
  match entries l with [] => true | _ => false end.

Definition len (l : Log) : nat := length (entries l).

Definition config_at (l : Log) (index : N) : option Configuration :=
  if index <=? snapshot_index l then snapshot_config l
  else
    let end_vec_idx :=
      match to_vec_index l index with
      | Some i => Nat.min (i + 1) (length (entries l))
      | None => length (entries l)
      end in
    match find_map (fun e => as_config (e_payload e))
                   (reverse (take end_vec_idx (entries l))) with
    | Some c => Some c
    | None => snapshot_config l
    end.

Definition pending_config_index (l : Log) (commit_index : N) : option N :=
  e_index <$> List.find (fun e => is_config (e_payload e) && (commit_index <? e_index e))
                        (reverse (entries l)).

Definition snapshot_matches_prefix (l : Log) (index term : N) : bool :=
  (snapshot_index l <? index) && (term_at l index =? term).

(** ** Mutations *)

Definition append (l : Log) (e : Entry) : Log :=
  mkLog (entries l ++ [e]) (snapshot_index l) (snapshot_term l) (snapshot_config l).

Definition set_entries (l : Log) (es : list Entry) : Log :=
  mkLog es (snapshot_index l) (snapshot_term l) (snapshot_config l).

Definition truncate_after (l : Log) (index : N) : Log :=
  if index <=? snapshot_index l then set_entries l []
  else match to_vec_index l index with
       | Some vec_idx => set_entries l (take (vec_idx + 1) (entries l))
       | None => l
       end.

Definition truncate_prefix (l : Log) (index term : N) : Log :=
  if index <=? snapshot_index l then l
  else
    let config := config_at l index in
    let entries_to_remove := N.to_nat (index - snapshot_index l) in
    let es := if (length (entries l) <=? entries_to_remove)%nat then []
              else drop entries_to_remove (entries l) in
    mkLog es index term config.

Definition install_snapshot (l : Log) (index term : N) (config : Configuration) : Log :=
  let l' :=
    if (snapshot_index l <? index) && (term_at l index =? term)
    then truncate_prefix l index term
    else mkLog [] index term (snapshot_config l) in
  mkLog (entries l') (snapshot_index l') (snapshot_term l') (Some config).

(** ** Slicing *)

Definition slice (l : Log) (start end_ : N) : list Entry :=
  let actual_start := N.max start (snapshot_index l +u 1) in
  if (end_ <? actual_start) || is_empty l then []
  else match to_vec_index l actual_start with
       | None => []
       | Some s =>
           let e := match to_vec_index l (N.min end_ (last_index l)) with
                    | Some i => (i + 1)%nat
                    | None => length (entries l)
                    end in
           if (length (entries l) <=? s)%nat || (e <=? s)%nat then []
           else drop s (take e (entries l))
       end.

(** ** The invariant: entries are contiguous after the snapshot *)

Definition contiguous (base : N) (es : list Entry) : Prop :=
  forall i e, es !! i = Some e -> e_index e = base + 1 + N.of_nat i.

Definition log_wf (l : Log) : Prop :=
  contiguous (snapshot_index l) (entries l) /\
  snapshot_index l + N.of_nat (length (entries l)) < two64.

Lemma contiguous_nil b : contiguous b [].
Proof. intros i e H. by rewrite lookup_nil in H. Qed.

Lemma contiguous_cons b e es :
  contiguous b (e :: es) <-> e_index e = b + 1 /\ contiguous (b + 1) es.
Proof.
  split.
  - intros H. split.
    + specialize (H 0%nat e eq_refl). lia.
    + intros i e' Hi. specialize (H (S i) e' Hi). lia.
  - intros [He Hc] [|i] e' Hi; simpl in Hi; simplify_eq; [lia|].
    specialize (Hc i e' Hi). lia.
Qed.

Lemma contiguous_app b es1 es2 :
  contiguous b (es1 ++ es2) <->
  contiguous b es1 /\ contiguous (b + N.of_nat (length es1)) es2.
Proof.
  revert b. induction es1 as [|e es1 IH]; intros b; simpl.
  - rewrite N.add_0_r. split; [intros; split; [apply contiguous_nil|done]|tauto].
  - rewrite !contiguous_cons, IH.
    replace (b + N.of_nat (S (length es1))) with (b + 1 + N.of_nat (length es1)) by lia.
    tauto.
Qed.

Lemma contiguous_singleton b e : contiguous b [e] <-> e_index e = b + 1.
Proof. rewrite contiguous_cons. split; [tauto|]. intros; split; [done|apply contiguous_nil]. Qed.

Lemma contiguous_take b es n : contiguous b es -> contiguous b (take n es).
Proof.
  intros H i e Hi. apply H. apply lookup_take_Some in Hi. tauto.
Qed.

Lemma contiguous_drop b es n :
  (n <= length es)%nat -> contiguous b es -> contiguous (b + N.of_nat n) (drop n es).
Proof.
  intros Hn H i e Hi. rewrite lookup_drop in Hi. specialize (H _ _ Hi). lia.
Qed.

Lemma contiguous_lookup b es j e :
  contiguous b es -> e ∈ es -> e_index e = j -> b < j /\ es !! N.to_nat (j - b - 1) = Some e.
Proof.
  intros H [i Hi]%list_elem_of_lookup Hj. specialize (H _ _ Hi). split; [lia|].
  replace (N.to_nat (j - b - 1)) with i by lia. done.
Qed.

Lemma log_wf_default : log_wf Log_default.
Proof. split; [apply contiguous_nil|reflexivity]. Qed.
#[export] Hint Resolve log_wf_default contiguous_nil : basis.

(** ** Reading the log *)

Lemma last_index_wf l :
  log_wf l -> last_index l = snapshot_index l + N.of_nat (length (entries l)).
Proof.
  intros [Hc _]. unfold last_index. rewrite last_lookup.
  destruct (entries l !! pred (length (entries l))) as [e|] eqn:E.
  - specialize (Hc _ _ E). apply lookup_lt_Some in E. lia.
  - apply lookup_ge_None in E. assert (length (entries l) = 0)%nat as -> by lia. lia.
Qed.

Lemma last_index_u64 l : log_wf l -> u64 (last_index l).
Proof. intros H. rewrite last_index_wf by done. destruct H. unfold u64. lia. Qed.

Lemma snapshot_le_last l : log_wf l -> snapshot_index l <= last_index l.
Proof. intros H. rewrite last_index_wf by done. lia. Qed.

(** [get] as a lookup in the entry vector. *)
Lemma get_alt l i :
  get l i = if snapshot_index l <? i
            then entries l !! N.to_nat (i - snapshot_index l - 1) else None.
Proof.
  unfold get, vec_get, to_vec_index.
  destruct (N.eqb_spec i 0), (N.leb_spec i (snapshot_index l)),
    (N.ltb_spec (snapshot_index l) i); simpl; done || lia.
Qed.

Lemma get_elem l i e : get l i = Some e -> e ∈ entries l.
Proof.
  rewrite get_alt. case_match; [|done]. intros. apply list_elem_of_lookup. eauto.
Qed.

Lemma get_index l i e : log_wf l -> get l i = Some e -> e_index e = i.
Proof.
  intros [Hc _]. rewrite get_alt. case_match; [|done]. unbool.
  intros Hi. rewrite (Hc _ _ Hi). lia.
Qed.

Lemma get_is_Some l i :
  log_wf l -> is_Some (get l i) <-> snapshot_index l < i <= last_index l.
Proof.
  intros H. rewrite last_index_wf, get_alt by done. case_match; unbool.
  - rewrite lookup_lt_is_Some. lia.
  - split; [intros [? ?]; done|lia].
Qed.

Lemma get_entry l e : log_wf l -> e ∈ entries l -> get l (e_index e) = Some e.
Proof.
  intros [Hc _] He. destruct (contiguous_lookup _ _ (e_index e) e Hc He eq_refl).
  rewrite get_alt. case_match; unbool; [done|lia].
Qed.

Lemma get_None_above l i : log_wf l -> last_index l < i -> get l i = None.
Proof.
  intros H Hi. apply eq_None_not_Some. rewrite get_is_Some by done. lia.
Qed.

Lemma get_None_below l i : i <= snapshot_index l -> get l i = None.
Proof. intros. rewrite get_alt. case_match; unbool; [lia|done]. Qed.

Lemma term_at_get l i e : get l i = Some e -> term_at l i = e_term e.
Proof.
  unfold get, term_at. destruct (i =? 0); simpl; [done|].
  destruct (N.leb_spec i (snapshot_index l)); [done|]. intros Hv.
  destruct (N.ltb_spec i (snapshot_index l)), (N.eqb_spec i (snapshot_index l));
    simpl; try lia. by rewrite Hv.
Qed.

Lemma term_at_None l i : i ≠ snapshot_index l -> get l i = None -> term_at l i = 0.
Proof.
  intros Hne. unfold get, term_at. destruct (i =? 0); simpl; [done|].
  destruct (N.leb_spec i (snapshot_index l)).
  - destruct (N.ltb_spec i (snapshot_index l)); simpl; [done|]. lia.
  - destruct (N.ltb_spec i (snapshot_index l)), (N.eqb_spec i (snapshot_index l));
      simpl; try lia. by intros ->.
Qed.

Lemma term_at_above l i : log_wf l -> last_index l < i -> term_at l i = 0.
Proof.
  intros H Hi. pose proof (snapshot_le_last l H).
  apply term_at_None; [lia|]. by apply get_None_above.
Qed.

(** The last term is the term at the last index. *)
Lemma last_term_at l : log_wf l -> 0 < last_index l -> last_term l = term_at l (last_index l).
Proof.
  intros Hwf Hpos. destruct (last (entries l)) as [e|] eqn:E.
  - assert (e ∈ entries l) as He.
    { rewrite last_lookup in E. apply list_elem_of_lookup. eauto. }
    unfold last_term, last_index. rewrite E. symmetry. apply term_at_get. by apply get_entry.
  - unfold last_term, last_index, term_at in *. rewrite E in *.
    rewrite N.ltb_irrefl, N.eqb_refl. destruct (N.eqb_spec (snapshot_index l) 0); [lia|done].
Qed.

(** ** Mutations *)

(** The precondition of [append]'s [debug_assert]. *)
Definition appendable (l : Log) (e : Entry) : Prop :=
  e_index e = last_index l + 1 /\ u64 (e_index e).

Lemma append_wf l e : log_wf l -> appendable l e -> log_wf (append l e).
Proof.
  intros Hwf [He Hu]. rewrite last_index_wf in He by done. destruct Hwf as [Hc Hb].
  split; simpl.
  - apply contiguous_app. split; [done|]. apply contiguous_singleton. lia.
  - rewrite length_app. simpl. unfold u64 in Hu. lia.
Qed.

Lemma append_last_index l e : last_index (append l e) = e_index e.
Proof. unfold last_index, append. simpl. by rewrite last_snoc. Qed.

Lemma append_last_term l e : last_term (append l e) = e_term e.
Proof. unfold last_term, append. simpl. by rewrite last_snoc. Qed.

Lemma append_get l e i :
  log_wf l -> appendable l e ->
  get (append l e) i = if i =? e_index e then Some e else get l i.
Proof.
  intros Hwf [He Hu]. rewrite last_index_wf in He by done. rewrite !get_alt. simpl.
  destruct (N.ltb_spec (snapshot_index l) i), (N.eqb_spec i (e_index e)); try lia; try done.
  - apply lookup_app_Some. right. split; [lia|].
    replace (_ - length (entries l))%nat with 0%nat by lia. done.
  - destruct (decide (N.to_nat (i - snapshot_index l - 1) < length (entries l))%nat).
    + by rewrite lookup_app_l.
    + rewrite !lookup_ge_None_2; [done|lia|rewrite length_app; simpl; lia].
Qed.

Lemma set_entries_get l es i :
  get (set_entries l es) i =
  if snapshot_index l <? i then es !! N.to_nat (i - snapshot_index l - 1) else None.
Proof. by rewrite get_alt. Qed.

Lemma truncate_after_entries l i :
  entries (truncate_after l i) = take (N.to_nat (i - snapshot_index l)) (entries l).
Proof.
  unfold truncate_after, to_vec_index.
  destruct (N.leb_spec i (snapshot_index l)); simpl.
  - replace (N.to_nat (i - snapshot_index l)) with 0%nat by lia. done.
  - f_equal. lia.
Qed.

Lemma truncate_after_snapshot l i :
  snapshot_index (truncate_after l i) = snapshot_index l /\
  snapshot_term (truncate_after l i) = snapshot_term l /\
  snapshot_config (truncate_after l i) = snapshot_config l.
Proof. unfold truncate_after. repeat case_match; done. Qed.

Lemma truncate_after_wf l i : log_wf l -> log_wf (truncate_after l i).
Proof.
  intros [Hc Hb]. unfold log_wf. rewrite truncate_after_entries.
  destruct (truncate_after_snapshot l i) as (-> & _ & _). split.
  - by apply contiguous_take.
  - rewrite length_take. lia.
Qed.

Lemma truncate_after_get l i j :
  get (truncate_after l i) j = if j <=? i then get l j else None.
Proof.
  rewrite !get_alt, truncate_after_entries.
  destruct (truncate_after_snapshot l i) as (-> & _ & _).
  destruct (N.ltb_spec (snapshot_index l) j), (N.leb_spec j i); try done.
  - by rewrite lookup_take_lt by lia.
  - rewrite lookup_take_ge by lia. done.
Qed.

Lemma truncate_after_last_index l i :
  log_wf l -> last_index (truncate_after l i) = N.max (snapshot_index l) (N.min i (last_index l)).
Proof.
  intros Hwf. rewrite !last_index_wf by auto using truncate_after_wf.
  rewrite truncate_after_entries, length_take.
  destruct (truncate_after_snapshot l i) as (-> & _ & _). lia.
Qed.

Lemma truncate_prefix_entries l i t :
  entries (truncate_prefix l i t) = drop (N.to_nat (i - snapshot_index l)) (entries l).
Proof.
  unfold truncate_prefix. destruct (N.leb_spec i (snapshot_index l)); simpl.
  - replace (N.to_nat (i - snapshot_index l)) with 0%nat by lia. done.
  - case_match; unbool; [|done]. by rewrite drop_ge.
Qed.

Lemma truncate_prefix_snapshot l i t :
  snapshot_index (truncate_prefix l i t) = N.max i (snapshot_index l).
Proof.
  unfold truncate_prefix. destruct (N.leb_spec i (snapshot_index l)); simpl; lia.
Qed.

Lemma truncate_prefix_wf l i t : log_wf l -> u64 i -> log_wf (truncate_prefix l i t).
Proof.
  intros [Hc Hb] Hi. unfold log_wf, u64 in *.
  rewrite truncate_prefix_entries, truncate_prefix_snapshot, length_drop. split; [|lia].
  destruct (N.leb_spec i (snapshot_index l)).
  - replace (N.to_nat (i - snapshot_index l)) with 0%nat by lia. by rewrite N.max_r by lia.
  - rewrite N.max_l by lia.
    destruct (decide (N.to_nat (i - snapshot_index l) <= length (entries l))%nat).
    + replace i with (snapshot_index l + N.of_nat (N.to_nat (i - snapshot_index l))) at 1 by lia.
      by apply contiguous_drop.
    + rewrite drop_ge by lia. apply contiguous_nil.
Qed.

(** Compaction keeps every entry above the snapshot and nothing below it. *)
Lemma truncate_prefix_get l i t j :
  get (truncate_prefix l i t) j = if N.max i (snapshot_index l) <? j then get l j else None.
Proof.
  rewrite !get_alt, truncate_prefix_snapshot, truncate_prefix_entries.
  destruct (N.ltb_spec (N.max i (snapshot_index l)) j); [|done].
  destruct (N.ltb_spec (snapshot_index l) j); [|lia].
  rewrite lookup_drop. f_equal. lia.
Qed.

Lemma install_snapshot_snapshot l i t c :
  snapshot_index (install_snapshot l i t c) = i /\
  snapshot_config (install_snapshot l i t c) = Some c.
Proof.
  unfold install_snapshot. case_match; simpl; [|done]. unbool.
  rewrite truncate_prefix_snapshot. split; [lia|done].
Qed.

Lemma install_snapshot_wf l i t c : log_wf l -> u64 i -> log_wf (install_snapshot l i t c).
Proof.
  intros Hwf Hi. unfold install_snapshot. case_match.
  - destruct (truncate_prefix_wf l i t Hwf Hi). done.
  - split; simpl; [apply contiguous_nil|]. unfold u64 in Hi. lia.
Qed.

Lemma install_snapshot_get l i t c j :
  get (install_snapshot l i t c) j =
  if snapshot_matches_prefix l i t && (i <? j) then get l j else None.
Proof.
  unfold install_snapshot, snapshot_matches_prefix.
  destruct ((snapshot_index l <? i) && (term_at l i =? t)) eqn:E; rewrite get_alt; simpl.
  - pose proof (truncate_prefix_get l i t j) as Hg. rewrite get_alt in Hg. rewrite Hg.
    unbool. by rewrite N.max_l by lia.
  - by case_match.
Qed.

Lemma install_snapshot_last_index l i t c :
  log_wf l -> u64 i ->
  last_index (install_snapshot l i t c) =
  if snapshot_matches_prefix l i t then N.max i (last_index l) else i.
Proof.
  intros Hwf Hi. rewrite !last_index_wf by auto using install_snapshot_wf.
  destruct (install_snapshot_snapshot l i t c) as [-> _].
  unfold install_snapshot, snapshot_matches_prefix.
  destruct ((snapshot_index l <? i) && (term_at l i =? t)) eqn:E; simpl; [|lia].
  unbool. rewrite truncate_prefix_entries, length_drop. lia.
Qed.

(** ** Slices *)

Lemma contiguous_filter b es s e :
  contiguous b es ->
  base.filter (fun en => s <= e_index en <= e) es =
  drop (N.to_nat (s - b - 1)) (take (N.to_nat (e - b)) es).
Proof.
  revert b. induction es as [|x es IH]; intros b Hc.
  - by rewrite take_nil, drop_nil.
  - apply contiguous_cons in Hc as [Hx Hc]. rewrite filter_cons, (IH (b + 1)) by done.
    destruct (N.le_gt_cases e b) as [He|He].
    + replace (N.to_nat (e - b)) with 0%nat by lia. replace (N.to_nat (e - (b + 1))) with 0%nat by lia.
      rewrite !take_0, !drop_nil. case_decide; [lia|done].
    + replace (N.to_nat (e - b)) with (S (N.to_nat (e - (b + 1)))) by lia. simpl.
      destruct (N.le_gt_cases s (b + 1)) as [Hs|Hs].
      * replace (N.to_nat (s - b - 1)) with 0%nat by lia.
        replace (N.to_nat (s - (b + 1) - 1)) with 0%nat by lia.
        case_decide; [done|lia].
      * replace (N.to_nat (s - b - 1)) with (S (N.to_nat (s - (b + 1) - 1))) by lia.
        case_decide; [lia|done].
Qed.

(** The clamped index arithmetic of [slice] agrees with filtering the log. *)
Lemma slice_filter l start end_ :
  log_wf l ->
  slice l start end_ = base.filter (fun e => start <= e_index e <= end_) (entries l).
Proof.
  intros Hwf.
  pose proof (last_index_wf l Hwf) as Hli. destruct Hwf as [Hc Hb].
  rewrite (contiguous_filter _ _ _ _ Hc). unfold slice, is_empty.
  destruct (entries l) as [|x es] eqn:E.
  { by rewrite orb_true_r, take_nil, drop_nil. }
  rewrite orb_false_r. rewrite wadd_small by (simpl in Hb; lia).
  set (n := length (x :: es)) in *.
  destruct (N.ltb_spec end_ (N.max start (snapshot_index l + 1))) as [Hlt|Hge].
  { rewrite drop_ge; [done|]. rewrite length_take. lia. }
  assert (1 <= n)%nat by (unfold n; simpl; lia). unfold to_vec_index.
  rewrite (proj2 (N.leb_gt (N.max _ _) _)), (proj2 (N.leb_gt (N.min _ _) _)) by lia.
  assert (forall k, (N.to_nat (end_ - snapshot_index l) <= k)%nat \/ (n <= k)%nat ->
            drop k (take (N.to_nat (end_ - snapshot_index l)) (x :: es)) = []) as Hnil.
  { intros k Hk. apply drop_ge. rewrite length_take. fold n. lia. }
  case_match; unbool.
  - symmetry. apply Hnil.
    match goal with H : _ \/ _ |- _ => destruct H end; unbool; lia.
  - destruct (N.le_gt_cases end_ (last_index l)) as [Hel|Hel].
    + rewrite N.min_l by lia.
      f_equal; [lia|]. f_equal. lia.
    + rewrite N.min_r by lia. f_equal; [lia|].
      rewrite !take_ge by (fold n; lia). done.
Qed.

Lemma slice_contiguous l start end_ :
  log_wf l ->
  contiguous (N.max (start - 1) (snapshot_index l)) (slice l start end_).
Proof.
  intros Hwf. rewrite slice_filter by done. destruct Hwf as [Hc _].
  rewrite (contiguous_filter _ _ _ _ Hc). intros i e Hi.
  rewrite lookup_drop in Hi. apply lookup_take_Some in Hi as [Hi _].
  specialize (Hc _ _ Hi). lia.
Qed.

Lemma elem_of_slice l start end_ e :
  log_wf l -> e ∈ slice l start end_ <-> e ∈ entries l /\ start <= e_index e <= end_.
Proof. intros Hwf. rewrite slice_filter by done. rewrite list_elem_of_filter. tauto. Qed.

(** Cutting a log at [k] and taking the slice after [k] loses nothing. *)
Lemma truncate_slice_entries l k :
  log_wf l -> snapshot_index l <= k ->
  entries (truncate_after l k) ++ slice l (k + 1) (last_index l) = entries l.
Proof.
  intros Hwf Hk. rewrite truncate_after_entries, slice_filter by done.
  rewrite (contiguous_filter (snapshot_index l)) by apply Hwf.
  rewrite (take_ge _ (N.to_nat (last_index l - _))) by (rewrite last_index_wf by done; lia).
  replace (N.to_nat (k + 1 - snapshot_index l - 1))
    with (N.to_nat (k - snapshot_index l)) by lia.
  apply take_drop.
Qed.

Lemma slice_length l k :
  log_wf l -> snapshot_index l <= k <= last_index l ->
  N.of_nat (length (slice l (k + 1) (last_index l))) = last_index l - k.
Proof.
  intros Hwf Hk. pose proof (truncate_slice_entries l k Hwf ltac:(lia)) as Hl.
  apply (f_equal length) in Hl. rewrite length_app, truncate_after_entries, length_take in Hl.
  rewrite last_index_wf in * by done. lia.
Qed.

(** [slice start end] returns exactly the stored entries whose index lies in
    the inclusive range, in log order and without gaps: the index arithmetic that
    clamps the range agrees with filtering the whole log. *)
Theorem slice_is_range_filter l start end_ (Hwf : log_wf l) :
  slice l start end_ =
    base.filter (fun e => start <= e_index e <= end_) (entries l) /\
  contiguous (N.max (start - 1) (snapshot_index l)) (slice l start end_).
Proof. split; [by apply slice_filter|by apply slice_contiguous]. Qed.

Lemma slice_is_range_filter_witness :
  slice (mkLog [mkEntry 1 4 (CommandPayload []); mkEntry 2 5 (CommandPayload [])] 3 1 None) 0 4
  = base.filter (fun e => 0 <= e_index e <= 4)
      [mkEntry 1 4 (CommandPayload []); mkEntry 2 5 (CommandPayload [])].
Proof.
  refine (proj1 (slice_is_range_filter
    (mkLog [mkEntry 1 4 (CommandPayload []); mkEntry 2 5 (CommandPayload [])] 3 1 None) 0 4 _)).
  split; [|reflexivity]. simpl. rewrite !contiguous_cons. repeat split. apply contiguous_nil.
Defined.

(** ** Configurations recorded in the log *)

Lemma config_at_alt l i :
  snapshot_index l < i ->
  config_at l i =
  match find_map (fun e => as_config (e_payload e))
          (reverse (take (N.to_nat (i - snapshot_index l)) (entries l))) with
  | Some c => Some c
  | None => snapshot_config l
  end.
Proof.
  intros Hi. unfold config_at, to_vec_index. rewrite (proj2 (N.leb_gt _ _)) by done.
  replace (take _ (entries l)) with (take (N.to_nat (i - snapshot_index l)) (entries l)); [done|].
  destruct (Nat.le_ge_cases (N.to_nat (i - snapshot_index l)) (length (entries l))).
  - f_equal. lia.
  - rewrite !take_ge by lia. done.
Qed.

Lemma config_at_append_config l e c :
  log_wf l -> appendable l e -> e_payload e = ConfigPayload c ->
  config_at (append l e) (last_index (append l e)) = Some c.
Proof.
  intros Hwf [He Hu] Hp. rewrite append_last_index. rewrite last_index_wf in He by done.
  rewrite config_at_alt by (simpl; lia). simpl.
  rewrite take_ge by (rewrite length_app; simpl; lia).
  rewrite reverse_snoc. simpl. by rewrite Hp.
Qed.

Lemma config_at_append_command l e cmd :
  log_wf l -> appendable l e -> e_payload e = CommandPayload cmd ->
  config_at (append l e) (last_index (append l e)) = config_at l (last_index l).
Proof.
  intros Hwf [He Hu] Hp. rewrite append_last_index. rewrite last_index_wf in * by done.
  rewrite config_at_alt by (simpl; lia). simpl.
  rewrite take_ge by (rewrite length_app; simpl; lia).
  rewrite reverse_snoc. simpl. rewrite Hp. simpl.
  destruct (entries l) as [|x es] eqn:E.
  - simpl. unfold config_at. rewrite (proj2 (N.leb_le _ _)); [done|]. simpl. lia.
  - rewrite config_at_alt by (simpl; lia). rewrite E, take_ge; [done|]. simpl. lia.
Qed.

(** Compacting a prefix of the log ([truncate_prefix] at a stored index)
    does not change what can still be read: every entry, every term at or above
    the snapshot and every effective configuration at or above it are as before. *)
Theorem compaction_preserves_suffix l i e
    (Hwf : log_wf l) (Hi : get l i = Some e) :
  let l' := truncate_prefix l i (e_term e) in
  log_wf l' /\ last_index l' = last_index l /\
  forall j, i <= j ->
    (i < j -> get l' j = get l j) /\ term_at l' j = term_at l j /\ config_at l' j = config_at l j.
Proof.
  intros l'. assert (snapshot_index l < i <= last_index l) as Hr
    by (apply get_is_Some; [done|by eexists]).
  assert (log_wf l') as Hwf'.
  { apply truncate_prefix_wf; [done|]. pose proof (last_index_u64 l Hwf). unfold u64 in *. lia. }
  assert (snapshot_index l' = i) as Hs'
    by (unfold l'; rewrite truncate_prefix_snapshot; lia).
  assert (forall j, i < j -> get l' j = get l j) as Hget.
  { intros j Hj. unfold l'. rewrite truncate_prefix_get.
    by rewrite (proj2 (N.ltb_lt _ _)) by lia. }
  split; [done|]. split.
  { rewrite !last_index_wf in * by done. rewrite Hs'. unfold l'.
    rewrite truncate_prefix_entries, length_drop. lia. }
  intros j Hj. split; [auto|]. destruct (decide (j = i)) as [->|Hne].
  - split.
    + rewrite (term_at_get _ _ _ Hi). unfold term_at. rewrite Hs', N.ltb_irrefl, N.eqb_refl.
      destruct (N.eqb_spec i 0); [lia|]. simpl. unfold l', truncate_prefix.
      by rewrite (proj2 (N.leb_gt _ _)) by lia.
    + unfold config_at at 1. rewrite (proj2 (N.leb_le _ _)) by lia. unfold l', truncate_prefix.
      by rewrite (proj2 (N.leb_gt _ _)) by lia.
  - split.
    + destruct (get l j) as [ej|] eqn:Ej.
      * rewrite (term_at_get _ _ _ Ej). apply term_at_get. rewrite Hget by lia. done.
      * rewrite !term_at_None; [done|lia|done|lia|rewrite Hget by lia; done].
    + rewrite !config_at_alt by lia. rewrite Hs'. unfold l' at 1. rewrite truncate_prefix_entries.
      assert (snapshot_config l' = config_at l i) as ->
        by (unfold l', truncate_prefix; by rewrite (proj2 (N.leb_gt _ _)) by lia).
      rewrite config_at_alt by lia.
      replace (N.to_nat (j - snapshot_index l))
        with (N.to_nat (i - snapshot_index l) + N.to_nat (j - i))%nat by lia.
      rewrite <- take_take_drop, reverse_app, find_map_app.
      by destruct (find_map _ (reverse (take (N.to_nat (j - i)) _))).
Qed.

(** A small log used by the witnesses: snapshot up to 2, entries 3 to 5. *)
Definition sample_log : Log :=
  mkLog [mkEntry 1 3 (CommandPayload []);
         mkEntry 2 4 (ConfigPayload (simple [0; 1; 2]));
         mkEntry 2 5 (CommandPayload [])] 2 1 None.

Lemma sample_log_wf : log_wf sample_log.
Proof.
  split; [|reflexivity]. simpl. rewrite !contiguous_cons. repeat split. apply contiguous_nil.
Qed.

Lemma compaction_preserves_suffix_witness :
  config_at (truncate_prefix sample_log 4 2) 5 = config_at sample_log 5 /\
  get (truncate_prefix sample_log 4 2) 5 = get sample_log 5.
Proof.
  destruct (compaction_preserves_suffix sample_log 4
              (mkEntry 2 4 (ConfigPayload (simple [0; 1; 2]))) sample_log_wf eq_refl)
    as (_ & _ & H).
  destruct (H 5 ltac:(lia)) as (Hg & _ & Hc). split; [exact Hc|apply Hg; lia].
Defined.

(** The log's documented invariant (entry [i] after the snapshot carries index
    [snapshot_index + 1 + i], and indices fit in 64 bits) is kept by every
    mutation: by [append] of the next index, by truncation on either side and by
    the installation of a snapshot. *)
Theorem log_mutations_keep_contiguity l (Hwf : log_wf l) :
  (forall e, appendable l e -> log_wf (append l e)) /\
  (forall i, log_wf (truncate_after l i)) /\
  (forall i t, u64 i -> log_wf (truncate_prefix l i t)) /\
  (forall i t c, u64 i -> log_wf (install_snapshot l i t c)).
Proof.
  eauto 10 using append_wf, truncate_after_wf, truncate_prefix_wf, install_snapshot_wf.
Qed.

Lemma log_mutations_keep_contiguity_witness :
  log_wf (append sample_log (mkEntry 3 6 (CommandPayload []))).
Proof.
  apply (log_mutations_keep_contiguity sample_log sample_log_wf). split; reflexivity.
Defined.

(** The abstract log: a partial map from indices to entries. *)
Definition abs_log : Type := N -> option Entry.

Definition abs_append (m : abs_log) (e : Entry) : abs_log :=
  fun j => if j =? e_index e then Some e else m j.
Definition abs_keep_upto (m : abs_log) (i : N) : abs_log :=
  fun j => if j <=? i then m j else None.
Definition abs_keep_after (m : abs_log) (i : N) : abs_log :=
  fun j => if i <? j then m j else None.

(** C37. The vector-with-offset log refines a partial map from indices to entries:
    after each mutation, [get] is the corresponding update of that map.  Installing
    a snapshot keeps the suffix only when the snapshot's last entry is in the log. *)
Theorem log_refines_index_map l (Hwf : log_wf l) :
  (forall e j, appendable l e -> get (append l e) j = abs_append (get l) e j) /\
  (forall i j, get (truncate_after l i) j = abs_keep_upto (get l) i j) /\
  (forall i t j, snapshot_index l < i ->
     get (truncate_prefix l i t) j = abs_keep_after (get l) i j) /\
  (forall i t c j,
     get (install_snapshot l i t c) j =
     if snapshot_matches_prefix l i t then abs_keep_after (get l) i j else None).
Proof.
  unfold abs_append, abs_keep_upto, abs_keep_after. repeat split.
  - intros. by apply append_get.
  - intros. apply truncate_after_get.
  - intros i t j Hi. rewrite truncate_prefix_get. by rewrite N.max_l by lia.
  - intros. rewrite install_snapshot_get. by destruct (snapshot_matches_prefix l i t).
Qed.

Lemma log_refines_index_map_witness :
  get (append sample_log (mkEntry 3 6 (CommandPayload []))) 6 =
  Some (mkEntry 3 6 (CommandPayload [])) /\ get (truncate_after sample_log 3) 4 = None.
Proof.
  destruct (log_refines_index_map sample_log sample_log_wf) as (Ha & Ht & _ & _).
  split; [rewrite Ha by (split; reflexivity); reflexivity|rewrite Ht; reflexivity].
Defined.

(** ** Latest configuration and pending configuration change *)

Lemma find_map_reverse_Some {A B} (f : A -> option B) es c :
  find_map f (reverse es) = Some c ->
  exists i x, es !! i = Some x /\ f x = Some c /\
    forall k y, (i < k)%nat -> es !! k = Some y -> f y = None.
Proof.
  induction es as [|x es IH] using rev_ind; [done|].
  rewrite reverse_snoc. simpl. case_match eqn:E; intros; simplify_eq.
  - exists (length es), x. rewrite lookup_app_r, Nat.sub_diag by lia. split_and!; [done..|].
    intros k y Hk Hy. apply lookup_lt_Some in Hy. rewrite length_app in Hy. simpl in Hy. lia.
  - destruct IH as (i & z & Hi & Hz & Hlater); [done|]. pose proof (lookup_lt_Some _ _ _ Hi).
    exists i, z. split_and!; [by rewrite lookup_app_l|done|]. intros k y Hk Hy.
    destruct (decide (k < length es)%nat).
    + rewrite lookup_app_l in Hy by done. eauto.
    + pose proof (lookup_lt_Some _ _ _ Hy) as Hlt. rewrite length_app in Hlt. simpl in Hlt.
      rewrite lookup_app_r in Hy by lia. replace (k - length es)%nat with 0%nat in Hy by lia.
      simpl in Hy. by simplify_eq.
Qed.

(** [config_at] returns the configuration of the latest configuration entry at
    or before the index, and falls back to the snapshot's configuration exactly
    when no stored entry up to the index carries one. *)
Theorem config_at_is_latest l i (Hwf : log_wf l) (Hi : snapshot_index l < i) :
  (exists j e c, j <= i /\ get l j = Some e /\ e_payload e = ConfigPayload c /\
     config_at l i = Some c /\
     forall k e', j < k <= i -> get l k = Some e' -> is_config (e_payload e') = false) \/
  (config_at l i = snapshot_config l /\
     forall k e', k <= i -> get l k = Some e' -> is_config (e_payload e') = false).
Proof.
  assert (forall e, as_config (e_payload e) = None -> is_config (e_payload e) = false) as Hn
    by (intros e; by destruct (e_payload e)).
  rewrite config_at_alt by done. case_match eqn:E.
  - left. apply find_map_reverse_Some in E as (n & e & Hl & Hc & Hlater).
    apply lookup_take_Some in Hl as [Hl Hlt].
    exists (snapshot_index l + 1 + N.of_nat n), e, c. split; [lia|]. split.
    { rewrite get_alt, (proj2 (N.ltb_lt _ _)) by lia. rewrite <- Hl. f_equal. lia. }
    split; [destruct (e_payload e); by simplify_eq/=|]. split; [done|].
    intros k e' Hk Hg. rewrite get_alt, (proj2 (N.ltb_lt _ _)) in Hg by lia.
    apply Hn, (Hlater (N.to_nat (k - snapshot_index l - 1))); [lia|].
    by rewrite lookup_take_lt by lia.
  - right. split; [done|]. intros k e' Hk Hg. apply Hn.
    rewrite find_map_None in E. apply E. rewrite elem_of_reverse.
    rewrite get_alt in Hg. case_match; [|done]. unbool.
    apply list_elem_of_lookup. exists (N.to_nat (k - snapshot_index l - 1)).
    by rewrite lookup_take_lt by lia.
Qed.

Lemma config_at_is_latest_witness :
  exists c, config_at sample_log 5 = Some c.
Proof.
  destruct (config_at_is_latest sample_log 5 sample_log_wf eq_refl)
    as [(j & e & c & _ & _ & _ & Hc & _)|[_ Hnone]].
  - exists c. exact Hc.
  - discriminate (Hnone 4 _ ltac:(lia) eq_refl).
Defined.

Lemma pending_config_Some l ci j :
  log_wf l -> pending_config_index l ci = Some j ->
  ci < j /\ exists e, get l j = Some e /\ is_config (e_payload e) = true.
Proof.
  intros Hwf. unfold pending_config_index.
  destruct (List.find _ _) as [e|] eqn:E; simpl; [|done]. intros; simplify_eq.
  apply find_some in E as [He Hb]. unbool. split; [done|]. exists e. split; [|done].
  apply get_entry; [done|]. by rewrite <- elem_of_reverse, list_elem_of_In.
Qed.

Lemma pending_config_None l ci :
  log_wf l -> pending_config_index l ci = None <->
  forall j e, ci < j -> get l j = Some e -> is_config (e_payload e) = false.
Proof.
  intros Hwf. unfold pending_config_index. rewrite fmap_None. split.
  - intros Hf j e Hj Hg. pose proof (find_none _ _ Hf e) as Hn. simpl in Hn.
    rewrite (get_index _ _ _ Hwf Hg), (proj2 (N.ltb_lt _ _)) in Hn by done.
    rewrite andb_true_r in Hn. apply Hn. rewrite <- list_elem_of_In, elem_of_reverse.
    by eapply get_elem.
  - intros Hall. destruct (List.find _ _) as [e|] eqn:E; [|done]. exfalso.
    apply find_some in E as [He Hb]. unbool.
    assert (e ∈ entries l) by (by rewrite <- elem_of_reverse, list_elem_of_In).
    rewrite (Hall (e_index e) e) in *; [done|done|by apply get_entry].
Qed.
