(* ===== verification/Event.v ===== *)
(** * Event: events, messages and effects of the automaton

    Models [consensus/basisdb-raft/src/raft/event.rs] and the [Transition] and
    [StepResult] types of [raft/mod.rs]. *)

From S2P Require Import Prelude.
From S2P Require Import Types.
From S2P Require Import Membership.
From S2P Require Import Log.

(** ** Message bodies *)

Record PreVoteRequest : Type := mkPreVoteRequest {
  pv_next_term : N;
  pv_last_log_index : N;
  pv_last_log_term : N
}.

Record PreVoteResponse : Type := mkPreVoteResponse {
  pvr_term : N;
  pvr_granted : bool
}.

Record VoteRequest : Type := mkVoteRequest {
  vr_last_log_index : N;
  vr_last_log_term : N
}.

Record VoteResponse : Type := mkVoteResponse {
  vresp_granted : bool
}.

Record AppendRequest : Type := mkAppendRequest {
  ar_prev_log_index : N;
  ar_prev_log_term : N;
  ar_entries : list Entry;
  ar_leader_commit : N
}.

Record AppendResponse : Type := mkAppendResponse {
  aresp_success : bool;
  aresp_last_log_index : N
}.

Record ReadIndexRequest : Type := mkReadIndexRequest {
  ri_id : N;
  ri_read_index : N
}.

Record ReadIndexResponse : Type := mkReadIndexResponse {
  rir_id : N;
  rir_read_index : N
}.

Record InstallSnapshotRequest : Type := mkInstallSnapshotRequest {
  is_last_included_index : N;
  is_last_included_term : N;
  is_configuration : Configuration
}.

Record InstallSnapshotResponse : Type := mkInstallSnapshotResponse {
  isr_success : bool;
  isr_last_included_index : N
}.

Inductive Payload : Type :=
| PreVoteReq (r : PreVoteRequest)
| PreVoteResp (r : PreVoteResponse)
| VoteReq (r : VoteRequest)
| VoteResp (r : VoteResponse)
| AppendReq (r : AppendRequest)
| AppendResp (r : AppendResponse)
| InstallSnapshotReq (r : InstallSnapshotRequest)
| InstallSnapshotResp (r : InstallSnapshotResponse)
| ReadIndexReq (r : ReadIndexRequest)
| ReadIndexResp (r : ReadIndexResponse)
| TimeoutNow.

Record Message : Type := mkMessage {
  msg_from : N;
  msg_to : N;
  msg_term : N;
  msg_payload : Payload
}.

Inductive Event : Type :=
| Tick
| MessageEvent (m : Message)
| DiskWriteComplete (index : N).

(** ** Effects *)

Record SendSnapshot : Type := mkSendSnapshot {
  ss_to : N;
  ss_last_included_index : N;
  ss_last_included_term : N;
  ss_configuration : Configuration
}.

Record Effects : Type := mkEffects {
  persist : bool;
  messages : list Message;
  send_snapshots : list SendSnapshot
}.

Definition none : Effects := mkEffects false [] [].

Definition with_persist (e : Effects) : Effects :=
  mkEffects true (messages e) (send_snapshots e).

Definition with_message (e : Effects) (m : Message) : Effects :=
  mkEffects (persist e) (messages e ++ [m]) (send_snapshots e).

Definition with_messages (e : Effects) (ms : list Message) : Effects :=
  mkEffects (persist e) (messages e ++ ms) (send_snapshots e).

Definition with_send_snapshot (e : Effects) (s : SendSnapshot) : Effects :=
  mkEffects (persist e) (messages e) (send_snapshots e ++ [s]).

Definition merge (e other : Effects) : Effects :=
  mkEffects (persist e || persist other) (messages e ++ messages other)
            (send_snapshots e ++ send_snapshots other).

(** ** Transitions and step results *)

Inductive Transition : Type :=
| Stay
| ToFollower (leader : option N)
| ToFollowerAfterContact (leader : option N)
| ToPreCandidate
| ToCandidate
| ToLeader.

Record StepResult : Type := mkStepResult {
  transition : Transition;
  effects : Effects
}.

Definition stay (e : Effects) : StepResult := mkStepResult Stay e.
Definition step_none : StepResult := stay none.
Definition to_follower (leader : option N) (e : Effects) : StepResult :=
  mkStepResult (ToFollower leader) e.
Definition to_follower_after_contact (leader : option N) (e : Effects) : StepResult :=
  mkStepResult (ToFollowerAfterContact leader) e.
Definition to_precandidate (e : Effects) : StepResult := mkStepResult ToPreCandidate e.
Definition to_candidate (e : Effects) : StepResult := mkStepResult ToCandidate e.
Definition to_leader (e : Effects) : StepResult := mkStepResult ToLeader e.

(** ** Effects form a monoid under [merge] *)

Lemma merge_none_l e : merge none e = e.
Proof. by destruct e. Qed.

Lemma merge_none_r e : merge e none = e.
Proof. destruct e; unfold merge; simpl. by rewrite orb_false_r, !app_nil_r. Qed.

Lemma merge_assoc e1 e2 e3 : merge e1 (merge e2 e3) = merge (merge e1 e2) e3.
Proof. unfold merge. simpl. by rewrite orb_assoc, !app_assoc. Qed.

#[export] Hint Rewrite merge_none_l merge_none_r : basis_rw.

Lemma merge_persist_false e1 e2 :
  persist (merge e1 e2) = false <-> persist e1 = false /\ persist e2 = false.
Proof. apply orb_false_iff. Qed.

Lemma elem_of_merge_messages e1 e2 m :
  m ∈ messages (merge e1 e2) <-> m ∈ messages e1 \/ m ∈ messages e2.
Proof. apply elem_of_app. Qed.
