(* ===== verification/Core.v ===== *)
(** * Core: the state shared by all roles

    Models [consensus/basisdb-raft/src/raft/core.rs]: the static [Config], the
    [Persistent] state of section 3.8 of the dissertation, and [Core] with its
    term, vote, timeout and configuration operations.

    An election timeout range must be non-empty ([min < max]): with
    [min >= max] the Rust code divides by zero or underflows and panics. *)

From S2P Require Import Prelude.
From S2P Require Import Types.
From S2P Require Import Membership.
From S2P Require Import Log.

(** ** [Config] *)

Record Config : Type := mkConfig {
  cfg_id : N;
  election_timeout : N * N;
  heartbeat_interval : N;
  max_entries_per_msg : N;
  max_uncommitted_entries : N;
  max_uncommitted_bytes : N;
  membership_mode : MembershipMode;
  prevote : bool;
  parallel_disk_write : bool;
  pipelining : bool
}.

Definition Config_new (id : N) : Config :=
  mkConfig id (150, 300) 75 100 1024 (64 * 1024 * 1024) SingleServer true true true.

Definition with_membership_mode (c : Config) (mode : MembershipMode) : Config :=
  mkConfig (cfg_id c) (election_timeout c) (heartbeat_interval c) (max_entries_per_msg c)
    (max_uncommitted_entries c) (max_uncommitted_bytes c) mode (prevote c)
    (parallel_disk_write c) (pipelining c).

Definition with_election_timeout (c : Config) (lo hi : N) : Config :=
  mkConfig (cfg_id c) (lo, hi) (heartbeat_interval c) (max_entries_per_msg c)
    (max_uncommitted_entries c) (max_uncommitted_bytes c) (membership_mode c) (prevote c)
    (parallel_disk_write c) (pipelining c).

Definition with_heartbeat_interval (c : Config) (interval : N) : Config :=
  mkConfig (cfg_id c) (election_timeout c) interval (max_entries_per_msg c)
    (max_uncommitted_entries c) (max_uncommitted_bytes c) (membership_mode c) (prevote c)
    (parallel_disk_write c) (pipelining c).

Definition with_prevote (c : Config) (enabled : bool) : Config :=
  mkConfig (cfg_id c) (election_timeout c) (heartbeat_interval c) (max_entries_per_msg c)
    (max_uncommitted_entries c) (max_uncommitted_bytes c) (membership_mode c) enabled
    (parallel_disk_write c) (pipelining c).

Definition with_parallel_disk_write (c : Config) (enabled : bool) : Config :=
  mkConfig (cfg_id c) (election_timeout c) (heartbeat_interval c) (max_entries_per_msg c)
    (max_uncommitted_entries c) (max_uncommitted_bytes c) (membership_mode c) (prevote c)
    enabled (pipelining c).

Definition with_pipelining (c : Config) (enabled : bool) : Config :=
  mkConfig (cfg_id c) (election_timeout c) (heartbeat_interval c) (max_entries_per_msg c)
    (max_uncommitted_entries c) (max_uncommitted_bytes c) (membership_mode c) (prevote c)
    (parallel_disk_write c) enabled.

(** [impl Default for Config]. *)
Definition Config_default : Config := Config_new 0.

(** ** [Persistent] *)

Record Persistent : Type := mkPersistent {
  p_term : N;
  voted_for : option N;
  p_log : Log;
  bootstrap_config : Configuration
}.

#[global] Instance Persistent_eq_dec : EqDecision Persistent.
Proof. solve_decision. Defined.

Definition Persistent_default : Persistent :=
  mkPersistent 0 None Log_default Configuration_default.

(** ** [Core] *)

Record Core : Type := mkCore {
  config : Config;
  persistent : Persistent;
  commit_index : N;
  last_applied : N;
  ticks : N;
  rng : N
}.

Definition id (c : Core) : N := cfg_id (config c).
Definition term (c : Core) : N := p_term (persistent c).
Definition log (c : Core) : Log := p_log (persistent c).

(** Field assignment. *)
Definition set_persistent (c : Core) (p : Persistent) : Core :=
  mkCore (config c) p (commit_index c) (last_applied c) (ticks c) (rng c).
Definition set_log (c : Core) (l : Log) : Core :=
  set_persistent c (mkPersistent (term c) (voted_for (persistent c)) l
                                 (bootstrap_config (persistent c))).
Definition set_vote (c : Core) (t : N) (v : option N) : Core :=
  set_persistent c (mkPersistent t v (log c) (bootstrap_config (persistent c))).
Definition set_commit_index (c : Core) (i : N) : Core :=
  mkCore (config c) (persistent c) i (last_applied c) (ticks c) (rng c).
Definition set_last_applied (c : Core) (i : N) : Core :=
  mkCore (config c) (persistent c) (commit_index c) i (ticks c) (rng c).
Definition set_ticks (c : Core) (t : N) : Core :=
  mkCore (config c) (persistent c) (commit_index c) (last_applied c) t (rng c).
Definition set_rng (c : Core) (r : N) : Core :=
  mkCore (config c) (persistent c) (commit_index c) (last_applied c) (ticks c) r.

(** The generator's seed: [id.wrapping_mul(0x5DEECE66D).wrapping_add(0xB)]. *)
Definition seed (id : N) : N := wrapping_mul id 0x5DEECE66D +u 0xB.

Definition Core_new (cfg : Config) (vs : list N) : Core :=
  let bootstrap := simple vs in
  let p := mkPersistent 0 None Log_default bootstrap in
  mkCore cfg p 0 0 0 (seed (cfg_id cfg)).

Definition Core_restore (cfg : Config) (p : Persistent) : Core :=
  mkCore cfg p 0 0 0 (seed (cfg_id cfg)).

(** The [try_fold] over the byte lengths of uncommitted commands. *)
Definition sum_checked (ns : list N) : option N :=
  foldl (fun acc n => match acc with Some t => checked_add t n | None => None end) (Some 0) ns.

Definition payload_bytes (p : EntryPayload) : option N :=
  match p with
  | CommandPayload c => Some (N.of_nat (length c))
  | ConfigPayload _ => None
  end.

(** [proposal_limit_exceeded]; [None] is the failing [assert!]. *)
Definition proposal_limit_exceeded (c : Core) (cmd : Command) : option bool :=
  let last_index := Log.last_index (log c) in
  if last_index <? commit_index c then None
  else
    let es := slice (log c) (commit_index c +u 1) last_index in
    if max_uncommitted_entries (config c) <=? N.of_nat (length es) then Some true
    else
      let lens := omap (fun e => payload_bytes (e_payload e)) es
                  ++ [N.of_nat (length cmd)] in
      match sum_checked lens with
      | None => Some true
      | Some bytes => Some (max_uncommitted_bytes (config c) <? bytes)
      end.

Definition maybe_update_term (c : Core) (t : N) : Core * bool :=
  if term c <? t then (set_vote c t None, true) else (c, false).

Definition config_at (c : Core) (index : N) : Configuration :=
  match Log.config_at (log c) index with
  | Some cfg => cfg
  | None => bootstrap_config (persistent c)
  end.

Definition effective_config (c : Core) : Configuration :=
  config_at c (last_index (log c)).

Definition is_voter (c : Core) : bool := Membership.is_voter (effective_config c) (id c).

Definition start_election (c : Core) : Core :=
  let can_vote_for_self := is_voter c in
  set_vote c (term c +u 1) (if can_vote_for_self then Some (id c) else None).

Definition vote_for (c : Core) (candidate : N) : Core :=
  set_vote c (term c) (Some candidate).

Definition can_vote_for (c : Core) (candidate : N) : bool :=
  match voted_for (persistent c) with
  | None => true
  | Some v => v =? candidate
  end.

(** Lexicographic [(last_term, last_index) >= (our_term, our_index)]. *)
Definition log_is_up_to_date (c : Core) (lt li : N) : bool :=
  let our_term := last_term (log c) in
  let our_index := last_index (log c) in
  (our_term <? lt) || ((our_term =? lt) && (our_index <=? li)).

(** One xorshift64 round on a 64-bit state. *)
Definition xorshift64 (r0 : N) : N :=
  let r1 := N.lxor r0 (wrap64 (N.shiftl r0 13)) in
  let r2 := N.lxor r1 (N.shiftr r1 7) in
  N.lxor r2 (wrap64 (N.shiftl r2 17)).

Definition rand (c : Core) : Core * N :=
  let r := xorshift64 (rng c) in (set_rng c r, r).

Definition random_election_timeout (c : Core) : Core * N :=
  let '(lo, hi) := election_timeout (config c) in
  let '(c', r) := rand c in
  (c', lo +u (r mod (hi -u lo))).

Definition has_pending_config (c : Core) : bool :=
  is_some (Log.pending_config_index (log c) (commit_index c)).

Definition pending_config_index (c : Core) : option N :=
  Log.pending_config_index (log c) (commit_index c).

(** ** Field updates *)

Lemma set_log_term c l : term (set_log c l) = term c.
Proof. done. Qed.
Lemma set_log_log c l : log (set_log c l) = l.
Proof. done. Qed.
Lemma set_commit_index_persistent c i : persistent (set_commit_index c i) = persistent c.
Proof. done. Qed.
#[export] Hint Rewrite set_log_term set_log_log set_commit_index_persistent : basis_rw.

(** The random timeout only advances the generator. *)
Lemma random_election_timeout_core c :
  fst (random_election_timeout c) = set_rng c (xorshift64 (rng c)).
Proof. unfold random_election_timeout. by destruct (election_timeout (config c)). Qed.

(** ** Election timeouts *)

Definition timeout_range_ok (cfg : Config) : Prop :=
  let '(lo, hi) := election_timeout cfg in lo < hi /\ u64 hi.

Lemma random_election_timeout_range c :
  timeout_range_ok (config c) ->
  fst (election_timeout (config c)) <= snd (random_election_timeout c) <
  snd (election_timeout (config c)).
Proof.
  unfold timeout_range_ok, random_election_timeout, u64.
  destruct (election_timeout (config c)) as [lo hi] eqn:E. intros [Hlt Hu]. simpl.
  rewrite wsub_small by lia.
  pose proof (N.mod_lt (xorshift64 (rng c)) (hi - lo) ltac:(lia)) as H.
  revert H. generalize (xorshift64 (rng c) `mod` (hi - lo)). intros m Hm.
  rewrite wadd_small by lia. lia.
Qed.

Lemma wrap64_bound x : u64 (wrap64 x).
Proof. apply N.mod_lt. by vm_compute. Qed.

Lemma wrap64_testbit x i : N.testbit (wrap64 x) i = (i <? 64) && N.testbit x i.
Proof.
  unfold wrap64, two64. change 18446744073709551616 with (2 ^ 64).
  destruct (N.ltb_spec i 64); simpl.
  - by apply N.mod_pow2_bits_low.
  - by apply N.mod_pow2_bits_high.
Qed.

Lemma u64_testbit x : u64 x <-> forall i, 64 <= i -> N.testbit x i = false.
Proof.
  split.
  - intros Hx i Hi. replace x with (wrap64 x) by (apply N.mod_small; exact Hx).
    rewrite wrap64_testbit. by rewrite (proj2 (N.ltb_ge _ _)) by lia.
  - intros H. replace x with (wrap64 x); [apply wrap64_bound|].
    apply N.bits_inj. intros i. rewrite wrap64_testbit.
    destruct (N.ltb_spec i 64); simpl; [done|]. by rewrite H.
Qed.

Lemma lxor_u64 x y : u64 x -> u64 y -> u64 (N.lxor x y).
Proof. rewrite !u64_testbit. intros Hx Hy i Hi. by rewrite N.lxor_spec, Hx, Hy. Qed.

(** Xoring a shifted copy of itself never sends a non-zero word to zero: the
    lowest set bit survives a left shift, the highest a right shift. *)
Lemma xor_shl_nonzero x k : u64 x -> x <> 0 -> 0 < k -> N.lxor x (wrap64 (N.shiftl x k)) <> 0.
Proof.
  intros Hx Hnz Hk H0. apply N.lxor_eq in H0. apply Hnz, N.bits_inj_0.
  intros i. induction i as [i IH] using (well_founded_induction N.lt_wf_0).
  rewrite H0, wrap64_testbit. destruct (N.ltb_spec i 64); simpl; [|done].
  destruct (N.lt_ge_cases i k).
  - by apply N.shiftl_spec_low.
  - rewrite N.shiftl_spec_high by lia. apply IH. lia.
Qed.

Lemma xor_shr_nonzero x k : u64 x -> x <> 0 -> 0 < k -> N.lxor x (N.shiftr x k) <> 0.
Proof.
  intros Hx Hnz Hk H0. apply N.lxor_eq in H0. apply Hnz, N.bits_inj_0.
  assert (forall n i, i + N.of_nat n >= 64 -> N.testbit x i = false) as Hall.
  { induction n as [|n IH]; intros i Hi.
    - apply (proj1 (u64_testbit x) Hx). lia.
    - rewrite H0, N.shiftr_spec by lia. apply IH. lia. }
  intros i. apply (Hall 64%nat). lia.
Qed.

Lemma shiftr_u64 x k : u64 x -> u64 (N.shiftr x k).
Proof.
  rewrite !u64_testbit. intros Hx i Hi. rewrite N.shiftr_spec by lia. apply Hx. lia.
Qed.

Lemma xorshift64_ok r : u64 r -> r <> 0 -> u64 (xorshift64 r) /\ xorshift64 r <> 0.
Proof.
  intros Hu Hnz. unfold xorshift64.
  set (r1 := N.lxor r (wrap64 (N.shiftl r 13))).
  assert (u64 r1) by (apply lxor_u64; [done|apply wrap64_bound]).
  assert (r1 <> 0) by (by apply xor_shl_nonzero).
  set (r2 := N.lxor r1 (N.shiftr r1 7)).
  assert (u64 r2) by (apply lxor_u64; [done|by apply shiftr_u64]).
  assert (r2 <> 0) by (by apply xor_shr_nonzero).
  split; [apply lxor_u64; [done|apply wrap64_bound]|by apply xor_shl_nonzero].
Qed.

(** The [n]-th generator state after drawing [n] timeouts. *)
Fixpoint draw (n : nat) (c : Core) : Core :=
  match n with
  | O => c
  | S n' => fst (random_election_timeout (draw n' c))
  end.

(** Every election timeout ever drawn lies in [min, max) of a configured
    non-empty range, and the xorshift64 generator, once seeded with a non-zero
    word, never degenerates to the absorbing zero state. *)
Theorem election_timeouts_stay_in_range c n
    (Hrange : timeout_range_ok (config c)) (Hrng : u64 (rng c)) (Hnz : rng c <> 0) :
  let c' := draw n c in
  fst (election_timeout (config c)) <= snd (random_election_timeout c') <
    snd (election_timeout (config c)) /\
  u64 (rng c') /\ rng c' <> 0 /\ persistent c' = persistent c.
Proof.
  assert (config (draw n c) = config c /\ persistent (draw n c) = persistent c /\
          u64 (rng (draw n c)) /\ rng (draw n c) <> 0) as (Hc & Hp & Hu & Hz).
  { induction n as [|n (Hc & Hp & Hu & Hz)]; [done|]. simpl.
    rewrite random_election_timeout_core. simpl. destruct (xorshift64_ok _ Hu Hz). done. }
  simpl. rewrite <- Hc. split_and!; [apply random_election_timeout_range..|done|done|done];
    by rewrite Hc.
Qed.

Lemma election_timeouts_stay_in_range_witness :
  150 <= snd (random_election_timeout (draw 5 (Core_new (Config_new 1) [1; 2; 3]))) < 300.
Proof.
  apply (election_timeouts_stay_in_range (Core_new (Config_new 1) [1; 2; 3]) 5);
    [split; reflexivity|reflexivity|vm_compute; discriminate].
Defined.

(** ** Backpressure *)

Definition uncommitted (c : Core) : list Entry :=
  base.filter (fun e => commit_index c < e_index e) (entries (log c)).

(** The exact byte total, without machine arithmetic. *)
Definition uncommitted_bytes (c : Core) : N :=
  foldr N.add 0 (omap (fun e => payload_bytes (e_payload e)) (uncommitted c)).

Lemma sum_checked_spec ns :
  sum_checked ns =
  if foldr N.add 0 ns <? two64 then Some (foldr N.add 0 ns) else None.
Proof.
  unfold sum_checked.
  assert (forall ns a, a < two64 ->
    foldl (fun acc n => match acc with Some t => checked_add t n | None => None end) (Some a) ns =
    if a + foldr N.add 0 ns <? two64 then Some (a + foldr N.add 0 ns) else None) as Hgen.
  { clear ns. induction ns as [|n ns IH]; intros a Ha; simpl.
    - rewrite N.add_0_r. by rewrite (proj2 (N.ltb_lt _ _)).
    - unfold checked_add at 2. destruct (N.ltb_spec (a + n) two64).
      + rewrite IH by done. by rewrite N.add_assoc.
      + rewrite (proj2 (N.ltb_ge _ _)) by lia.
        clear. induction ns as [|m ns IH]; [done|exact IH]. }
  by rewrite Hgen by reflexivity.
Qed.

Lemma slice_uncommitted c :
  log_wf (log c) -> last_index (log c) + 1 < two64 -> commit_index c <= last_index (log c) ->
  slice (log c) (commit_index c +u 1) (last_index (log c)) = uncommitted c.
Proof.
  intros Hwf Hroom Hci. rewrite slice_filter, wadd_small by (done || lia).
  unfold uncommitted.
  assert (forall e, e ∈ entries (log c) -> e_index e <= last_index (log c)) as Hle.
  { intros e He. apply (get_entry _ _ Hwf) in He.
    by destruct (proj1 (get_is_Some _ _ Hwf) (ex_intro _ _ He)). }
  induction (entries (log c)) as [|e es IH]; [done|]. rewrite !filter_cons.
  rewrite IH by (intros; apply Hle; by right). specialize (Hle e ltac:(left)).
  repeat case_decide; done || lia.
Qed.

Lemma foldr_add_app ns a : foldr N.add 0 (ns ++ [a]) = foldr N.add 0 ns + a.
Proof. induction ns as [|n ns IH]; simpl; lia. Qed.

(** The leader's backpressure test is exact: it throttles when the number of
    uncommitted entries has reached the limit or when the bytes of uncommitted
    commands plus the new one exceed theirs, as integers; the checked 64-bit
    accumulation never gives another answer. *)
Theorem proposal_limit_is_exact c cmd
    (Hwf : log_wf (log c)) (Hroom : last_index (log c) + 1 < two64)
    (Hci : commit_index c <= last_index (log c)) (Hmax : u64 (max_uncommitted_bytes (config c))) :
  proposal_limit_exceeded c cmd =
  Some ((max_uncommitted_entries (config c) <=? N.of_nat (length (uncommitted c)))
        || (max_uncommitted_bytes (config c) <? uncommitted_bytes c + N.of_nat (length cmd))).
Proof.
  unfold proposal_limit_exceeded. rewrite (proj2 (N.ltb_ge _ _)) by done.
  rewrite slice_uncommitted by done. destruct (_ <=? _); [done|]. simpl.
  rewrite sum_checked_spec, foldr_add_app. fold (uncommitted_bytes c).
  destruct (N.ltb_spec (uncommitted_bytes c + N.of_nat (length cmd)) two64); [done|].
  f_equal. symmetry. apply N.ltb_lt. unfold u64 in Hmax. lia.
Qed.

Lemma proposal_limit_is_exact_witness :
  proposal_limit_exceeded (Core_new (Config_new 1) [1]) [Byte.x00] = Some false.
Proof.
  rewrite (proposal_limit_is_exact (Core_new (Config_new 1) [1]) [Byte.x00]);
    [reflexivity|apply log_wf_default|reflexivity|vm_compute; discriminate|reflexivity].
Defined.
