(* ===== verification/Follower.v ===== *)
(** * Follower: the follower role

    Models [consensus/basisdb-raft/src/raft/follower.rs].  A handler takes the
    role state and the shared [Core] and returns both with a [StepResult]. *)

From S2P Require Import Prelude.
From S2P Require Import Types.
From S2P Require Import Membership.
From S2P Require Import Log.
From S2P Require Import Event.
From S2P Require Import Core.

Record Follower : Type := mkFollower {
  leader : option N;
  election_deadline : N;
  last_contact_tick : option N
}.

Definition set_leader (f : Follower) (l : option N) : Follower :=
  mkFollower l (election_deadline f) (last_contact_tick f).
Definition set_deadline (f : Follower) (d : N) : Follower :=
  mkFollower (leader f) d (last_contact_tick f).
Definition set_contact (f : Follower) (t : option N) : Follower :=
  mkFollower (leader f) (election_deadline f) t.

(** [Follower::new]. *)
Definition new (c : Core) (l : option N) : Core * Follower :=
  let '(c', timeout) := random_election_timeout c in
  (c', mkFollower l (ticks c' +u timeout) None).

Definition after_leader_contact (c : Core) (l : option N) : Core * Follower :=
  let '(c', f) := new c l in
  (c', set_contact f (Some (ticks c'))).

Definition ticks_until_deadline (f : Follower) (t : N) : N :=
  saturating_sub (election_deadline f) t.

Definition reset_deadline (f : Follower) (c : Core) : Follower * Core :=
  let '(c', timeout) := random_election_timeout c in
  (set_deadline f (ticks c' +u timeout), c').

Definition record_contact (f : Follower) (c : Core) : Follower :=
  set_contact f (Some (ticks c)).

Definition recently_heard_from_leader (f : Follower) (c : Core) : bool :=
  match leader f with
  | None => false
  | Some _ =>
      match last_contact_tick f with
      | None => false
      | Some t => saturating_sub (ticks c) t <? fst (election_timeout (config c))
      end
  end.

Definition handle_tick (f : Follower) (c : Core) : Follower * Core * StepResult :=
  let c := set_ticks c (ticks c +u 1) in
  if election_deadline f <=? ticks c then
    if prevote (config c) then (f, c, to_precandidate none)
    else (f, c, to_candidate none)
  else (f, c, step_none).

Definition handle_vote_request (f : Follower) (c : Core) (from : N) (req : VoteRequest)
  : Follower * Core * StepResult :=
  let dominated := log_is_up_to_date c (vr_last_log_term req) (vr_last_log_index req) in
  let candidate_is_voter := Membership.is_voter (effective_config c) from in
  let can_vote := can_vote_for c from in
  let granted := candidate_is_voter && can_vote && dominated in
  let '(f', c', eff) :=
    if granted then
      let c1 := vote_for c from in
      let '(f1, c2) := reset_deadline f c1 in
      (f1, c2, with_persist none)
    else (f, c, none) in
  let resp := mkMessage (id c') from (term c') (VoteResp (mkVoteResponse granted)) in
  (f', c', stay (with_message eff resp)).

(** One iteration of the append loop: truncate a conflicting suffix, then append
    if the entry is beyond the log.  The flag is [persist]. *)
Definition append_one (acc : Log * bool) (e : Entry) : Log * bool :=
  let '(l, persist) := acc in
  let existing_term := term_at l (e_index e) in
  let l := if negb (existing_term =? 0) && negb (existing_term =? e_term e)
           then truncate_after l (e_index e -u 1) else l in
  if last_index l <? e_index e then
    (append l (mkEntry (e_term e) (e_index e) (e_payload e)), true)
  else (l, persist).

Definition append_entries (l : Log) (es : list Entry) : Log * bool :=
  foldl append_one (l, false) es.

(** The consistency check of section 3.5. *)
Definition consistent (l : Log) (req : AppendRequest) : bool :=
  negb ((0 <? ar_prev_log_index req)
        && negb (term_at l (ar_prev_log_index req) =? ar_prev_log_term req)).

Definition append_response (c : Core) (to : N) (success : bool) : Message :=
  mkMessage (id c) to (term c) (AppendResp (mkAppendResponse success (last_index (log c)))).

Definition handle_append_request (f : Follower) (c : Core) (from : N) (req : AppendRequest)
  : Follower * Core * StepResult :=
  let f := set_leader f (Some from) in
  let f := record_contact f c in
  let '(f, c) := reset_deadline f c in
  if negb (consistent (log c) req) then
    (f, c, stay (with_message none (append_response c from false)))
  else
    let '(l, persist) := append_entries (log c) (ar_entries req) in
    let c := set_log c l in
    let c := if commit_index c <? ar_leader_commit req
             then set_commit_index c (N.min (ar_leader_commit req) (last_index (log c)))
             else c in
    let eff := if persist then with_persist none else none in
    (f, c, stay (with_message eff (append_response c from true))).

Definition handle_read_index_request (f : Follower) (c : Core) (from : N)
    (req : ReadIndexRequest) : Follower * Core * StepResult :=
  let f := set_leader f (Some from) in
  let f := record_contact f c in
  let '(f, c) := reset_deadline f c in
  let resp := mkMessage (id c) from (term c)
    (ReadIndexResp (mkReadIndexResponse (ri_id req) (ri_read_index req))) in
  (f, c, stay (with_message none resp)).

Definition snapshot_response (c : Core) (to : N) (success : bool) (index : N) : Message :=
  mkMessage (id c) to (term c) (InstallSnapshotResp (mkInstallSnapshotResponse success index)).

Definition handle_install_snapshot (f : Follower) (c : Core) (from : N)
    (req : InstallSnapshotRequest) : Follower * Core * StepResult :=
  let f := set_leader f (Some from) in
  let f := record_contact f c in
  let '(f, c) := reset_deadline f c in
  let index := is_last_included_index req in
  let current_snapshot_index := snapshot_index (log c) in
  if index <=? current_snapshot_index then
    (f, c, stay (with_message none (snapshot_response c from false index)))
  else if (index <? commit_index c)
          && negb (snapshot_matches_prefix (log c) index (is_last_included_term req)) then
    (f, c, stay (with_message none (snapshot_response c from false index)))
  else
    let c := set_log c (install_snapshot (log c) index (is_last_included_term req)
                                         (is_configuration req)) in
    let c := if commit_index c <? index then set_commit_index c index else c in
    let c := if last_applied c <? index then set_last_applied c index else c in
    (f, c, stay (with_message (with_persist none) (snapshot_response c from true index))).

Definition reject_stale (c : Core) (msg : Message) : Effects :=
  let reply p := with_message none (mkMessage (id c) (msg_from msg) (term c) p) in
  match msg_payload msg with
  | VoteReq _ => reply (VoteResp (mkVoteResponse false))
  | AppendReq _ => reply (AppendResp (mkAppendResponse false (last_index (log c))))
  | ReadIndexReq req =>
      reply (ReadIndexResp (mkReadIndexResponse (ri_id req) (ri_read_index req)))
  | _ => none
  end.

Definition reject_due_to_active_leader (c : Core) (msg : Message) : Effects :=
  let reply p := with_message none (mkMessage (id c) (msg_from msg) (term c) p) in
  match msg_payload msg with
  | PreVoteReq _ => reply (PreVoteResp (mkPreVoteResponse (term c) false))
  | VoteReq _ => reply (VoteResp (mkVoteResponse false))
  | _ => none
  end.

Definition handle_prevote_request (c : Core) (from msg_term : N) (req : PreVoteRequest)
  : Effects :=
  let dominated := log_is_up_to_date c (pv_last_log_term req) (pv_last_log_index req) in
  let candidate_is_voter := Membership.is_voter (effective_config c) from in
  let term_ok := term c <? pv_next_term req in
  let granted := candidate_is_voter && term_ok && dominated in
  with_message none
    (mkMessage (id c) from msg_term (PreVoteResp (mkPreVoteResponse (term c) granted))).

(** [matches!(payload, VoteRequest(_) | PreVoteRequest(_))]. *)
Definition is_vote_or_prevote (p : Payload) : bool :=
  match p with VoteReq _ | PreVoteReq _ => true | _ => false end.

(** [matches!(payload, AppendRequest(_) | ReadIndexRequest(_))]. *)
Definition names_leader (p : Payload) : bool :=
  match p with AppendReq _ | ReadIndexReq _ => true | _ => false end.

(** The dispatch on the payload once the term has been dealt with. *)
Definition dispatch (f : Follower) (c : Core) (msg : Message) : Follower * Core * StepResult :=
  match msg_payload msg with
  | VoteReq req => handle_vote_request f c (msg_from msg) req
  | AppendReq req => handle_append_request f c (msg_from msg) req
  | ReadIndexReq req => handle_read_index_request f c (msg_from msg) req
  | InstallSnapshotReq req => handle_install_snapshot f c (msg_from msg) req
  | TimeoutNow => (f, c, to_candidate none)
  | _ => (f, c, step_none)
  end.

(** The higher-term prologue of [step]. *)
Definition adopt_term (f : Follower) (c : Core) (msg : Message) : Follower * Core * bool :=
  if term c <? msg_term msg then
    let '(c1, updated) := maybe_update_term c (msg_term msg) in
    let '(f1, c2) := reset_deadline f c1 in
    let f2 := if names_leader (msg_payload msg) then set_leader f1 (Some (msg_from msg)) else f1 in
    (f2, c2, updated)
  else (f, c, false).

Definition step_message (f : Follower) (c : Core) (msg : Message) : Follower * Core * StepResult :=
  if is_vote_or_prevote (msg_payload msg) && recently_heard_from_leader f c then
    (f, c, stay (reject_due_to_active_leader c msg))
  else
    match msg_payload msg with
    | PreVoteReq req =>
        (f, c, stay (handle_prevote_request c (msg_from msg) (msg_term msg) req))
    | _ =>
        let '(f, c, term_updated) := adopt_term f c msg in
        if msg_term msg <? term c then (f, c, stay (reject_stale c msg))
        else
          let '(f, c, r) := dispatch f c msg in
          let eff := if term_updated then with_persist (effects r) else effects r in
          (f, c, mkStepResult (transition r) eff)
    end.

Definition step (f : Follower) (c : Core) (ev : Event) : Follower * Core * StepResult :=
  match ev with
  | Tick => handle_tick f c
  | DiskWriteComplete _ => (f, c, step_none)
  | MessageEvent msg => step_message f c msg
  end.

(** ** The append loop *)

(** Every stored entry has a real term, so [term_at] is 0 only for absent ones. *)
Definition terms_ok (es : list Entry) : Prop := Forall (fun e => 1 <= e_term e /\ u64 (e_index e)) es.

(** The reference definition of section 3.5: keep the entries that already match,
    and from the first mismatch on replace the rest of the log. *)
Fixpoint merge_entries (l : Log) (es : list Entry) : Log :=
  match es with
  | [] => l
  | e :: es' =>
      if term_at l (e_index e) =? e_term e then merge_entries l es'
      else set_entries l (entries (truncate_after l (e_index e - 1)) ++ es)
  end.

(** Does the log lack one of the entries? *)
Definition has_new (l : Log) (es : list Entry) : bool :=
  existsb (fun e => negb (term_at l (e_index e) =? e_term e)) es.

(** The loop's state at the start of a suffix of the request. *)
Definition append_pre (l : Log) (base : N) (es : list Entry) : Prop :=
  log_wf l /\ terms_ok (entries l) /\ contiguous base es /\ terms_ok es /\
  snapshot_index l <= base <= last_index l.

Lemma entry_eta e : mkEntry (e_term e) (e_index e) (e_payload e) = e.
Proof. by destruct e. Qed.

(** Entries just past the end are appended one after the other. *)
Lemma append_past_end l es p :
  log_wf l -> contiguous (last_index l) es -> terms_ok es ->
  foldl append_one (l, p) es =
  (set_entries l (entries l ++ es), match es with [] => p | _ => true end).
Proof.
  revert l p. induction es as [|e es IH]; intros l p Hwf Hc Ht; simpl.
  { rewrite app_nil_r. by destruct l. }
  apply contiguous_cons in Hc as [He Hc]. apply Forall_cons in Ht as [[Ht Hu] Hts].
  rewrite (term_at_above l (e_index e)) by (done || lia). simpl.
  rewrite (proj2 (N.ltb_lt _ _)), entry_eta by lia.
  rewrite IH; [|apply append_wf; done|by rewrite append_last_index, He|done].
  unfold set_entries, append. simpl. rewrite <- app_assoc. by destruct es.
Qed.

(** An entry of the request that the log stores has a real term there. *)
Lemma term_at_stored l i :
  log_wf l -> terms_ok (entries l) -> snapshot_index l < i <= last_index l -> 1 <= term_at l i.
Proof.
  intros Hwf Ht Hi. destruct (proj2 (get_is_Some _ _ Hwf) Hi) as [e He].
  rewrite (term_at_get _ _ _ He). apply get_elem in He.
  unfold terms_ok in Ht. rewrite Forall_forall in Ht. by apply Ht.
Qed.

Lemma append_loop_spec l base es p :
  append_pre l base es ->
  foldl append_one (l, p) es = (merge_entries l es, p || has_new l es).
Proof.
  revert base. induction es as [|e es IH]; intros base (Hwf & Htl & Hc & Hte & Hb); simpl.
  { by rewrite orb_false_r. }
  apply contiguous_cons in Hc as [He Hc]. apply Forall_cons in Hte as [[Ht Hu] Hts].
  destruct (N.eqb_spec (term_at l (e_index e)) (e_term e)) as [Heq|Hne].
  - rewrite andb_false_r. simpl.
    destruct (N.ltb_spec (last_index l) (e_index e)) as [Hlt|Hge].
    { rewrite term_at_above in Heq by done. lia. }
    apply (IH (base + 1)). split_and!; try done; lia.
  - simpl. rewrite orb_true_r.
    set (l1 := if negb (term_at l (e_index e) =? 0) && true
               then truncate_after l (e_index e -u 1) else l).
    assert (l1 = truncate_after l (e_index e - 1)) as ->.
    { subst l1. rewrite andb_true_r. destruct (N.eqb_spec (term_at l (e_index e)) 0) as [H0|H0];
        simpl; [|rewrite wsub_small by (unfold u64 in *; lia); done].
      assert (e_index e = last_index l + 1) as Hlast.
      { destruct (N.le_gt_cases (e_index e) (last_index l)); [|lia].
        pose proof (term_at_stored l (e_index e) Hwf Htl ltac:(lia)). lia. }
      pose proof (last_index_wf l Hwf) as Hli. pose proof (truncate_after_entries l (e_index e - 1)) as Hes.
      rewrite take_ge in Hes by lia.
      destruct (truncate_after_snapshot l (e_index e - 1)) as (? & ? & ?).
      destruct l, (truncate_after _ _). simpl in *. congruence. }
    pose proof (truncate_after_last_index l (e_index e - 1) Hwf) as Htli.
    rewrite (proj2 (N.ltb_lt _ _)), entry_eta by lia.
    pose proof (truncate_after_wf l (e_index e - 1) Hwf) as Hwt.
    rewrite append_past_end; [|apply append_wf; [done|split; [lia|done]]
                              |by rewrite append_last_index, He|done].
    destruct (truncate_after_snapshot l (e_index e - 1)) as (Hs1 & Hs2 & Hs3).
    unfold set_entries, append. simpl. rewrite Hs1, Hs2, Hs3, <- app_assoc. by destruct es.
Qed.

Lemma has_new_false l es :
  has_new l es = false <-> forall e, e ∈ es -> term_at l (e_index e) = e_term e.
Proof.
  unfold has_new. induction es as [|e es IH]; simpl.
  - split; [intros _ e He; inversion He|done].
  - rewrite orb_false_iff, negb_false_iff, N.eqb_eq, IH. setoid_rewrite elem_of_cons.
    split; [intros [? ?] ? [->|?]; auto|auto].
Qed.

Lemma merge_entries_same l es : has_new l es = false -> merge_entries l es = l.
Proof.
  unfold has_new. induction es as [|e es IH]; simpl; [done|].
  destruct (term_at l (e_index e) =? e_term e); simpl; [done|discriminate].
Qed.

(** The first entry the log lacks, if any, is where the log is rewritten. *)
Lemma merge_entries_split l es :
  has_new l es = true ->
  exists es1 e es2, es = es1 ++ e :: es2 /\
    (forall e', e' ∈ es1 -> term_at l (e_index e') = e_term e') /\
    term_at l (e_index e) <> e_term e /\
    merge_entries l es =
      set_entries l (entries (truncate_after l (e_index e - 1)) ++ e :: es2).
Proof.
  induction es as [|e es IH]; simpl; [discriminate|].
  destruct (N.eqb_spec (term_at l (e_index e)) (e_term e)); simpl.
  - intros Hn. destruct (IH Hn) as (es1 & e' & es2 & -> & H1 & H2 & H3).
    exists (e :: es1), e', es2. split_and!; try done.
    intros x [->|?]%elem_of_cons; auto.
  - intros _. exists [], e, es. split_and!; try done. intros x Hx. inversion Hx.
Qed.

(** Contiguous entries spliced in after a cut. *)
Lemma splice_get l i es j :
  log_wf l -> snapshot_index l <= i <= last_index l -> contiguous i es ->
  get (set_entries l (entries (truncate_after l i) ++ es)) j =
  if j <=? i then get l j else es !! N.to_nat (j - i - 1).
Proof.
  intros Hwf Hi Hc. rewrite set_entries_get, truncate_after_entries, get_alt.
  rewrite last_index_wf in Hi by done.
  assert (length (take (N.to_nat (i - snapshot_index l)) (entries l)) =
          N.to_nat (i - snapshot_index l)) as Hlen by (rewrite length_take; lia).
  destruct (N.leb_spec j i), (N.ltb_spec (snapshot_index l) j); try done; try lia.
  - rewrite lookup_app_l by lia. by rewrite lookup_take_lt by lia.
  - rewrite lookup_app_r by lia. f_equal. lia.
Qed.

Lemma splice_wf l i es :
  log_wf l -> snapshot_index l <= i <= last_index l -> contiguous i es ->
  Forall (fun e => u64 (e_index e)) es ->
  log_wf (set_entries l (entries (truncate_after l i) ++ es)).
Proof.
  intros Hwf Hi Hc Hu. pose proof Hi as Hi'. rewrite last_index_wf in Hi' by done.
  destruct Hwf as [Hcl Hb]. rewrite truncate_after_entries.
  assert (length (take (N.to_nat (i - snapshot_index l)) (entries l)) =
          N.to_nat (i - snapshot_index l)) as Hlen by (rewrite length_take; lia).
  split; simpl.
  - apply contiguous_app. split; [by apply contiguous_take|]. rewrite Hlen.
    replace (snapshot_index l + N.of_nat (N.to_nat (i - snapshot_index l))) with i by lia. done.
  - rewrite length_app, Hlen. destruct (last es) as [e|] eqn:El.
    + rewrite last_lookup in El. specialize (Hc _ _ El).
      pose proof (lookup_lt_Some _ _ _ El).
      assert (u64 (e_index e)) as He by (eapply (proj1 (Forall_lookup _ _) Hu); exact El).
      unfold u64 in He. lia.
    + apply last_None in El. subst. simpl. lia.
Qed.

Section AppendSpec.

Context (l : Log) (base : N) (es : list Entry) (Hpre : append_pre l base es).
Let l' := merge_entries l es.

(** The rewritten log: where it comes from at each index. *)
Lemma merge_entries_cases :
  (has_new l es = false /\ l' = l) \/
  has_new l es = true /\ exists es1 e es2, es = es1 ++ e :: es2 /\
    (forall e', e' ∈ es1 -> term_at l (e_index e') = e_term e' /\ e_index e' < e_index e) /\
    term_at l (e_index e) <> e_term e /\ base < e_index e <= last_index l + 1 /\
    snapshot_index l <= e_index e - 1 <= last_index l /\ contiguous (e_index e - 1) (e :: es2) /\
    l' = set_entries l (entries (truncate_after l (e_index e - 1)) ++ e :: es2).
Proof.
  destruct Hpre as (Hwf & Htl & Hc & Hte & Hb). subst l'.
  destruct (has_new l es) eqn:Hn; [|left; split; [done|]; by apply merge_entries_same].
  right. split; [done|]. apply merge_entries_split in Hn as (es1 & e & es2 & -> & H1 & H2 & H3).
  exists es1, e, es2. apply contiguous_app in Hc as [Hc1 Hc2].
  pose proof (proj1 (proj1 (contiguous_cons _ _ _) Hc2)) as He.
  assert (forall e', e' ∈ es1 -> e_index e' < e_index e /\ e_index e' <= last_index l) as Hes1.
  { intros e' He'. destruct (contiguous_lookup _ _ (e_index e') e' Hc1 He' eq_refl) as [_ Hl].
    apply lookup_lt_Some in Hl. split; [lia|].
    destruct (N.le_gt_cases (e_index e') (last_index l)); [done|].
    specialize (H1 e' He'). rewrite term_at_above in H1 by done.
    apply Forall_app in Hte as [Hte _]. unfold terms_ok in Hte. rewrite Forall_forall in Hte.
    destruct (Hte e' He'). lia. }
  assert (base + N.of_nat (length es1) <= last_index l) as Hlen.
  { destruct (last es1) as [e'|] eqn:El; [|apply last_None in El; subst; simpl; lia].
    rewrite last_lookup in El. pose proof (Hc1 _ _ El). pose proof (lookup_lt_Some _ _ _ El).
    destruct (Hes1 e'); [apply list_elem_of_lookup; eauto|]. lia. }
  split_and!; try done; try lia.
  - intros e' He'. split; [auto|]. by apply Hes1.
  - replace (e_index e - 1) with (base + N.of_nat (length es1)) by lia. done.
Qed.

Lemma merge_entries_wf : log_wf l' /\ terms_ok (entries l').
Proof.
  destruct merge_entries_cases as [[_ ->]|(_ & es1 & e & es2 & Hes & _ & _ & _ & Hi & Hc & ->)];
    destruct Hpre as (Hwf & Htl & _ & Hte & _); [done|].
  rewrite Hes in Hte. apply Forall_app in Hte as [_ Hte]. split.
  - apply splice_wf; [done..|]. eapply Forall_impl; [exact Hte|]. by intros ? [].
  - simpl. apply Forall_app. split; [|done]. rewrite truncate_after_entries. by apply Forall_take.
Qed.

Lemma merge_entries_below j : j <= base -> get l' j = get l j.
Proof.
  intros Hj. destruct merge_entries_cases as [[_ ->]|(_ & es1 & e & es2 & _ & _ & _ & He & Hi & Hc & ->)];
    [done|]. destruct Hpre as (Hwf & _). rewrite splice_get by done.
  by rewrite (proj2 (N.leb_le _ _)) by lia.
Qed.

Lemma merge_entries_has e :
  e ∈ es -> exists e', get l' (e_index e) = Some e' /\ e_term e' = e_term e.
Proof.
  intros Hin. pose proof Hpre as (Hwf & Htl & Hc & Hte & Hb).
  assert (forall e, e ∈ es -> base < e_index e) as Hlow.
  { intros x Hx. by destruct (contiguous_lookup _ _ (e_index x) x Hc Hx eq_refl). }
  assert (forall e, e ∈ es -> term_at l (e_index e) = e_term e ->
          exists e', get l (e_index e) = Some e' /\ e_term e' = e_term e) as Hold.
  { intros x Hx Ht. specialize (Hlow x Hx). unfold terms_ok in Hte. rewrite Forall_forall in Hte.
    destruct (Hte x Hx) as [H1 _].
    destruct (N.le_gt_cases (e_index x) (last_index l)); [|rewrite term_at_above in Ht by done; lia].
    destruct (proj2 (get_is_Some _ (e_index x) Hwf)) as [e' He']; [lia|].
    exists e'. rewrite (term_at_get _ _ _ He') in Ht. done. }
  destruct merge_entries_cases
    as [[Hn ->]|(_ & es1 & x & es2 & Hes & H1 & Hx & Hxi & Hi & Hcx & ->)].
  { apply Hold; [done|]. by apply (proj1 (has_new_false l es)). }
  setoid_rewrite splice_get; [|done..]. rewrite Hes in Hin. apply elem_of_app in Hin as [Hin|Hin].
  - destruct (H1 e Hin) as [Ht Hlt]. rewrite (proj2 (N.leb_le _ _)) by lia.
    apply Hold; [|done]. rewrite Hes. apply elem_of_app. by left.
  - destruct (contiguous_lookup _ _ (e_index e) e Hcx Hin eq_refl) as [Hlt Hl].
    rewrite (proj2 (N.leb_gt _ _)) by lia. eauto.
Qed.

(** Without a conflict nothing the log holds is lost. *)
Lemma merge_entries_keeps j :
  (forall e, e ∈ es -> e_index e <= last_index l -> term_at l (e_index e) = e_term e) ->
  j <= last_index l -> get l' j = get l j.
Proof.
  intros Hno Hj. destruct merge_entries_cases
    as [[_ ->]|(_ & es1 & x & es2 & Hes & _ & Hx & Hxi & Hi & Hcx & ->)]; [done|].
  destruct Hpre as (Hwf & _). rewrite splice_get by done.
  destruct (N.leb_spec j (e_index x - 1)); [done|]. exfalso. apply Hx, Hno; [|lia].
  rewrite Hes. apply elem_of_app. right. by left.
Qed.

(** After a conflict the log ends with the request. *)
Lemma merge_entries_last :
  has_new l es = true -> last_index l' = base + N.of_nat (length es).
Proof.
  intros Hnew. destruct merge_entries_cases
    as [[? _]|(_ & es1 & x & es2 & Hes & _ & _ & Hxi & Hi & Hcx & Hl)]; [congruence|].
  destruct merge_entries_wf as [Hwf' _]. destruct Hpre as (Hwf & _ & Hc & _).
  rewrite last_index_wf by done. rewrite Hl. simpl.
  rewrite Hes in Hc. apply contiguous_app in Hc as [_ Hc]. apply contiguous_cons in Hc as [Hx _].
  rewrite Hes, !length_app, truncate_after_entries, length_take. simpl.
  rewrite last_index_wf in Hi by done. lia.
Qed.

End AppendSpec.

Lemma append_entries_eq l base es :
  append_pre l base es -> append_entries l es = (merge_entries l es, has_new l es).
Proof. apply append_loop_spec. Qed.

(** A request whose previous entry the log holds meets the loop's precondition. *)
Lemma append_pre_again l base es :
  append_pre l base es -> append_pre (merge_entries l es) base es.
Proof.
  intros Hpre. pose proof (merge_entries_wf _ _ _ Hpre) as [Hwf' Ht'].
  pose proof Hpre as (Hwf & Htl & Hc & Hte & Hb). split_and!; try done.
  - destruct (merge_entries_cases _ _ _ Hpre)
      as [[_ ->]|(_ & es1 & e & es2 & _ & _ & _ & _ & _ & _ & ->)]; [lia|simpl; lia].
  - destruct (has_new l es) eqn:Hn.
    + rewrite (merge_entries_last _ _ _ Hpre) by done. lia.
    + rewrite merge_entries_same by done. lia.
Qed.

(** A log of two entries and a request that conflicts with the second. *)
Definition demo_log : Log :=
  mkLog [mkEntry 1 1 (CommandPayload [Byte.x61]); mkEntry 1 2 (CommandPayload [Byte.x62])] 0 0 None.
Definition demo_entries : list Entry :=
  [mkEntry 1 1 (CommandPayload [Byte.x61]); mkEntry 2 2 (CommandPayload [Byte.x63]);
   mkEntry 2 3 (CommandPayload [Byte.x64])].

Lemma demo_append_pre : append_pre demo_log 0 demo_entries.
Proof.
  split_and!; [split; [|reflexivity]| | | |vm_compute; discriminate|vm_compute; discriminate].
  1,3: unfold demo_log, demo_entries; simpl; rewrite !contiguous_cons; repeat split; apply contiguous_nil.
  all: unfold terms_ok, demo_log, demo_entries; simpl; repeat (apply Forall_cons; split; [split; [vm_compute; discriminate|reflexivity]|]);
    by apply Forall_nil.
Qed.

(** C17. The follower's append loop (skip what matches, truncate at the first
    conflict, append the rest, report whether anything was written) computes the
    reference merge of section 3.5, and its persistence flag is set exactly when
    the log lacked one of the entries. *)
Theorem append_loop_is_merge l base es (Hpre : append_pre l base es) :
  append_entries l es = (merge_entries l es, has_new l es) /\
  (snd (append_entries l es) = false -> fst (append_entries l es) = l).
Proof.
  rewrite (append_entries_eq _ _ _ Hpre). split; [done|]. apply merge_entries_same.
Qed.

Lemma append_loop_is_merge_witness :
  snd (append_entries demo_log demo_entries) = true.
Proof.
  rewrite (proj1 (append_loop_is_merge demo_log 0 demo_entries demo_append_pre)). reflexivity.
Defined.

(** Appending a request whose previous entry the log holds keeps the log
    contiguous, keeps everything up to the previous entry, stores every entry of
    the request under its index with its term, loses nothing when there is no
    conflict, ends the log with the request when something was new, and is
    idempotent under retransmission. *)
Theorem append_installs_request l base es (Hpre : append_pre l base es) :
  let l' := fst (append_entries l es) in
  log_wf l' /\
  (forall j, j <= base -> get l' j = get l j) /\
  (forall e, e ∈ es -> exists e', get l' (e_index e) = Some e' /\ e_term e' = e_term e) /\
  ((forall e, e ∈ es -> e_index e <= last_index l -> term_at l (e_index e) = e_term e) ->
     forall j, j <= last_index l -> get l' j = get l j) /\
  (snd (append_entries l es) = true -> last_index l' = base + N.of_nat (length es)) /\
  append_entries l' es = (l', false).
Proof.
  intros l'. unfold l'. rewrite (append_entries_eq _ _ _ Hpre). simpl.
  pose proof (append_pre_again _ _ _ Hpre) as Hpre'. split_and!.
  - apply (merge_entries_wf _ _ _ Hpre).
  - apply (merge_entries_below _ _ _ Hpre).
  - apply (merge_entries_has _ _ _ Hpre).
  - intros Hno j. by apply (merge_entries_keeps _ _ _ Hpre).
  - apply (merge_entries_last _ _ _ Hpre).
  - rewrite (append_entries_eq _ _ _ Hpre').
    assert (has_new (merge_entries l es) es = false) as Hn.
    { apply has_new_false. intros e He.
      destruct (merge_entries_has _ _ _ Hpre e He) as (e' & Hg & <-). by apply term_at_get. }
    by rewrite Hn, merge_entries_same.
Qed.

Lemma append_installs_request_witness :
  last_index (fst (append_entries demo_log demo_entries)) = 3.
Proof.
  destruct (append_installs_request demo_log 0 demo_entries demo_append_pre)
    as (_ & _ & _ & _ & Hl & _). apply Hl. vm_compute. reflexivity.
Defined.

(** What a snapshot request has to pass: it is newer than the follower's snapshot and does
    not contradict a committed prefix. *)
Definition snapshot_admissible (c : Core) (req : InstallSnapshotRequest) : bool :=
  (snapshot_index (log c) <? is_last_included_index req)
  && ((commit_index c <=? is_last_included_index req)
      || snapshot_matches_prefix (log c) (is_last_included_index req) (is_last_included_term req)).

Lemma handle_install_snapshot_refused f c from req : snapshot_admissible c req = false ->
  let '(_, c', r) := handle_install_snapshot f c from req in
  c' = set_rng c (xorshift64 (rng c)) /\
  r = stay (with_message none (snapshot_response c from false (is_last_included_index req))).
Proof.
  unfold snapshot_admissible, handle_install_snapshot, reset_deadline. intros Ha.
  pose proof (random_election_timeout_core c) as Hr.
  destruct (random_election_timeout c) as [c1 t]. simpl in Hr. subst c1.
  change (log (set_rng c (xorshift64 (rng c)))) with (log c).
  destruct (N.leb_spec (is_last_included_index req) (snapshot_index (log c))) as [|Hs]; [done|].
  rewrite (proj2 (N.ltb_lt _ _) Hs) in Ha. simpl in Ha. apply orb_false_iff in Ha as [Hc Hm].
  change (commit_index (set_rng c (xorshift64 (rng c)))) with (commit_index c).
  rewrite Hm, (proj2 (N.ltb_lt _ _)) by (by apply N.leb_gt). done.
Qed.

Lemma handle_install_snapshot_installs f c from req : snapshot_admissible c req = true ->
  let '(_, c', r) := handle_install_snapshot f c from req in
  log c' = install_snapshot (log c) (is_last_included_index req) (is_last_included_term req)
             (is_configuration req) /\
  commit_index c' = N.max (commit_index c) (is_last_included_index req) /\
  last_applied c' = N.max (last_applied c) (is_last_included_index req) /\
  effects r = with_message (with_persist none)
                (snapshot_response c from true (is_last_included_index req)).
Proof.
  unfold snapshot_admissible, handle_install_snapshot, reset_deadline. intros [Hs Hm]%andb_true_iff.
  pose proof (random_election_timeout_core c) as Hr.
  destruct (random_election_timeout c) as [c1 t]. simpl in Hr. subst c1.
  change (log (set_rng c (xorshift64 (rng c)))) with (log c).
  rewrite (proj2 (N.leb_gt _ _)) by (by apply N.ltb_lt).
  change (commit_index (set_rng c (xorshift64 (rng c)))) with (commit_index c).
  assert ((is_last_included_index req <? commit_index c) &&
    negb (snapshot_matches_prefix (log c) (is_last_included_index req) (is_last_included_term req))
    = false) as -> by (apply andb_false_iff; apply orb_true_iff in Hm as [Hm|Hm];
      [left; by apply N.ltb_ge, N.leb_le|right; by rewrite Hm]).
  cbn. destruct (N.ltb_spec (commit_index c) (is_last_included_index req)); cbn;
    destruct (N.ltb_spec (last_applied c) (is_last_included_index req)); cbn;
    split_and!; done || lia.
Qed.

(** C38. Installing a snapshot never loses committed state.  A request is refused exactly when it
    is not newer than the snapshot the follower has or contradicts a committed prefix; of the
    core a refusal changes nothing but the random generator of the new election deadline.
    An accepted one raises the commit and applied indices to the snapshot's where they are
    lower and nothing else, leaves a contiguous log that reaches the commit index, and keeps
    every committed entry above the snapshot. *)
Theorem install_snapshot_keeps_commit f c from req
    (Hwf : log_wf (log c)) (Hu : u64 (is_last_included_index req))
    (Hci : commit_index c <= last_index (log c)) :
  let i := is_last_included_index req in
  let '(_, c', r) := handle_install_snapshot f c from req in
  persist (effects r) = snapshot_admissible c req /\
  messages (effects r) = [snapshot_response c from (snapshot_admissible c req) i] /\
  log_wf (log c') /\ commit_index c' <= last_index (log c') /\
  (snapshot_admissible c req = false -> c' = set_rng c (rng c')) /\
  (snapshot_admissible c req = true ->
     commit_index c' = N.max (commit_index c) i /\ last_applied c' = N.max (last_applied c) i /\
     snapshot_index (log c') = i /\ snapshot_config (log c') = Some (is_configuration req) /\
     forall j, i < j <= commit_index c -> get (log c') j = get (log c) j).
Proof.
  cbn zeta. set (i := is_last_included_index req). destruct (snapshot_admissible c req) eqn:Ea.
  - pose proof (handle_install_snapshot_installs f c from req Ea) as H.
    destruct (handle_install_snapshot f c from req) as [[f' c'] r]. destruct H as (Hl & Hc & Ha & ->).
    fold i in Hl, Hc, Ha. rewrite Hl, Hc, Ha.
    assert (forall j, i < j <= commit_index c ->
      snapshot_matches_prefix (log c) i (is_last_included_term req) = true) as Hm.
    { intros j Hj. unfold snapshot_admissible in Ea. fold i in Ea.
      apply andb_true_iff in Ea as [_ [Ea%N.leb_le|Ea]%orb_true_iff]; [lia|done]. }
    destruct (install_snapshot_snapshot (log c) i (is_last_included_term req) (is_configuration req))
      as [Hsi Hsc].
    split_and!; [done|done|by apply install_snapshot_wf| |done|].
    + rewrite install_snapshot_last_index by done. destruct (snapshot_matches_prefix _ _ _) eqn:Em; [lia|].
      destruct (N.le_gt_cases (commit_index c) i); [lia|]. discriminate (Hm (i + 1)). lia.
    + intros _. split_and!; [done..|]. intros j Hj.
      by rewrite install_snapshot_get, (Hm j Hj), (proj2 (N.ltb_lt _ _)) by lia.
  - pose proof (handle_install_snapshot_refused f c from req Ea) as H.
    destruct (handle_install_snapshot f c from req) as [[f' c'] r]. destruct H as [-> ->]. by split_and!.
Qed.

Lemma install_snapshot_keeps_commit_witness :
  let c := set_commit_index (set_log (Core_new (Config_new 1) [1; 2; 3]) demo_log) 2 in
  let '(_, c', _) := handle_install_snapshot (mkFollower None 0 None) c 2
      (mkInstallSnapshotRequest 1 (term_at demo_log 1) (simple [1; 2; 3])) in
  get (log c') 2 = get demo_log 2.
Proof.
  pose proof (install_snapshot_keeps_commit (mkFollower None 0 None)
      (set_commit_index (set_log (Core_new (Config_new 1) [1; 2; 3]) demo_log) 2) 2
      (mkInstallSnapshotRequest 1 (term_at demo_log 1) (simple [1; 2; 3]))
      (proj1 demo_append_pre) eq_refl ltac:(vm_compute; discriminate)) as H.
  cbn zeta in *. destruct (handle_install_snapshot _ _ _ _) as [[f' c'] r].
  destruct H as (_ & _ & _ & _ & _ & H). apply H; [reflexivity|]. simpl. lia.
Defined.
