(* ===== verification/PreCandidate.v ===== *)
(** * PreCandidate: the pre-vote role

    Models [consensus/basisdb-raft/src/raft/precandidate.rs]. *)

From S2P Require Import Prelude.
From S2P Require Import Types.
From S2P Require Import Membership.
From S2P Require Import Log.
From S2P Require Import Event.
From S2P Require Import Core.

Record PreCandidate : Type := mkPreCandidate {
  pre_votes : gset N;
  election_deadline : N;
  last_contact_tick : N
}.

(** [PreCandidate::new]. *)
Definition new (c : Core) : Core * PreCandidate * Effects :=
  let '(c, timeout) := random_election_timeout c in
  let votes := if is_voter c then {[id c]} else ∅ in
  let p := mkPreCandidate votes (ticks c +u timeout)
             (saturating_sub (ticks c) (fst (election_timeout (config c)))) in
  let cfg := effective_config c in
  if (voter_count cfg =? 1)%nat && Membership.is_voter cfg (id c) then (c, p, none)
  else
    let req := mkPreVoteRequest (term c +u 1) (last_index (log c)) (last_term (log c)) in
    let ms := (fun peer => mkMessage (id c) peer (term c) (PreVoteReq req))
              <$> voter_peers cfg (id c) in
    (c, p, with_messages none ms).

Definition ticks_until_deadline (p : PreCandidate) (t : N) : N :=
  saturating_sub (election_deadline p) t.

Definition has_quorum (p : PreCandidate) (c : Core) : bool :=
  Membership.has_quorum (effective_config c) (fun voter => bool_decide (voter ∈ pre_votes p)).

Definition recently_heard_from_leader (p : PreCandidate) (c : Core) : bool :=
  saturating_sub (ticks c) (last_contact_tick p) <? fst (election_timeout (config c)).

Definition handle_tick (p : PreCandidate) (c : Core) : PreCandidate * Core * StepResult :=
  let c := set_ticks c (ticks c +u 1) in
  if recently_heard_from_leader p c then
    let '(c, timeout) := random_election_timeout c in
    (mkPreCandidate (pre_votes p) (ticks c +u timeout) (last_contact_tick p), c, step_none)
  else if election_deadline p <=? ticks c then (p, c, to_precandidate none)
  else (p, c, step_none).

Definition handle_prevote_response (p : PreCandidate) (c : Core) (from : N)
    (resp : PreVoteResponse) : PreCandidate * Core * StepResult :=
  if term c <? pvr_term resp then
    let '(c, _) := maybe_update_term c (pvr_term resp) in
    (p, c, to_follower None (with_persist none))
  else if pvr_term resp <? term c then (p, c, step_none)
  else if negb (pvr_granted resp) then (p, c, step_none)
  else
    let p := mkPreCandidate ({[from]} ∪ pre_votes p) (election_deadline p)
               (last_contact_tick p) in
    if has_quorum p c then (p, c, to_candidate none) else (p, c, step_none).

Definition handle_append_request (p : PreCandidate) (c : Core) (from : N)
  : PreCandidate * Core * StepResult :=
  let p := mkPreCandidate (pre_votes p) (election_deadline p) (ticks c) in
  (p, c, to_follower_after_contact (Some from) none).

Definition handle_prevote_request (c : Core) (from msg_term : N) (req : PreVoteRequest)
  : StepResult :=
  let dominated := log_is_up_to_date c (pv_last_log_term req) (pv_last_log_index req) in
  let candidate_is_voter := Membership.is_voter (effective_config c) from in
  let term_ok := term c <? pv_next_term req in
  let granted := candidate_is_voter && term_ok && dominated in
  stay (with_message none
    (mkMessage (id c) from msg_term (PreVoteResp (mkPreVoteResponse (term c) granted)))).

Definition handle_vote_request (c : Core) (from : N) : StepResult :=
  stay (with_message none (mkMessage (id c) from (term c) (VoteResp (mkVoteResponse false)))).

Definition deny_vote (c : Core) (msg : Message) : Effects :=
  let reply p := with_message none (mkMessage (id c) (msg_from msg) (term c) p) in
  match msg_payload msg with
  | PreVoteReq _ => reply (PreVoteResp (mkPreVoteResponse (term c) false))
  | VoteReq _ => reply (VoteResp (mkVoteResponse false))
  | _ => none
  end.

Definition is_vote_or_prevote (p : Payload) : bool :=
  match p with VoteReq _ | PreVoteReq _ => true | _ => false end.

Definition leader_hint (msg : Message) : option N :=
  match msg_payload msg with AppendReq _ => Some (msg_from msg) | _ => None end.

Definition step_message (p : PreCandidate) (c : Core) (msg : Message)
  : PreCandidate * Core * StepResult :=
  if is_vote_or_prevote (msg_payload msg) && recently_heard_from_leader p c then
    (p, c, stay (deny_vote c msg))
  else if term c <? msg_term msg then
    let '(c, _) := maybe_update_term c (msg_term msg) in
    (p, c, to_follower (leader_hint msg) (with_persist none))
  else
    match msg_payload msg with
    | PreVoteResp resp => handle_prevote_response p c (msg_from msg) resp
    | AppendReq _ => handle_append_request p c (msg_from msg)
    | PreVoteReq req => (p, c, handle_prevote_request c (msg_from msg) (msg_term msg) req)
    | VoteReq _ => (p, c, handle_vote_request c (msg_from msg))
    | TimeoutNow => (p, c, to_candidate none)
    | _ => (p, c, step_none)
    end.

Definition step (p : PreCandidate) (c : Core) (ev : Event) : PreCandidate * Core * StepResult :=
  match ev with
  | Tick => handle_tick p c
  | DiskWriteComplete _ => (p, c, step_none)
  | MessageEvent msg => step_message p c msg
  end.
