(* ===== verification/Candidate.v ===== *)
(** * Candidate: the candidate role

    Models [consensus/basisdb-raft/src/raft/candidate.rs]. *)

From S2P Require Import Prelude.
From S2P Require Import Types.
From S2P Require Import Membership.
From S2P Require Import Log.
From S2P Require Import Event.
From S2P Require Import Core.

Record Candidate : Type := mkCandidate {
  votes : gset N;
  election_deadline : N;
  last_contact_tick : N
}.

(** [Candidate::new]: start an election. *)
Definition new (c : Core) : Core * Candidate * Effects :=
  let c := start_election c in
  let '(c, timeout) := random_election_timeout c in
  let votes := if is_voter c then {[id c]} else ∅ in
  let cand := mkCandidate votes (ticks c +u timeout)
                (saturating_sub (ticks c) (fst (election_timeout (config c)))) in
  let cfg := effective_config c in
  if (voter_count cfg =? 1)%nat && Membership.is_voter cfg (id c)
  then (c, cand, with_persist none)
  else
    let req := mkVoteRequest (last_index (log c)) (last_term (log c)) in
    let ms := (fun peer => mkMessage (id c) peer (term c) (VoteReq req))
              <$> voter_peers cfg (id c) in
    (c, cand, with_messages (with_persist none) ms).

Definition ticks_until_deadline (cand : Candidate) (t : N) : N :=
  saturating_sub (election_deadline cand) t.

Definition has_quorum (cand : Candidate) (c : Core) : bool :=
  Membership.has_quorum (effective_config c) (fun voter => bool_decide (voter ∈ votes cand)).

Definition recently_heard_from_leader (cand : Candidate) (c : Core) : bool :=
  saturating_sub (ticks c) (last_contact_tick cand) <? fst (election_timeout (config c)).

Definition handle_tick (cand : Candidate) (c : Core) : Candidate * Core * StepResult :=
  let c := set_ticks c (ticks c +u 1) in
  if recently_heard_from_leader cand c then
    let '(c, timeout) := random_election_timeout c in
    (mkCandidate (votes cand) (ticks c +u timeout) (last_contact_tick cand), c, step_none)
  else if election_deadline cand <=? ticks c then (cand, c, to_candidate none)
  else (cand, c, step_none).

Definition handle_vote_response (cand : Candidate) (c : Core) (from : N) (resp : VoteResponse)
  : Candidate * Core * StepResult :=
  if negb (vresp_granted resp) then (cand, c, step_none)
  else
    let cand := mkCandidate ({[from]} ∪ votes cand) (election_deadline cand)
                  (last_contact_tick cand) in
    if has_quorum cand c then (cand, c, to_leader none) else (cand, c, step_none).

Definition handle_append_request (cand : Candidate) (c : Core) (from : N)
  : Candidate * Core * StepResult :=
  let cand := mkCandidate (votes cand) (election_deadline cand) (ticks c) in
  (cand, c, to_follower_after_contact (Some from) none).

Definition handle_vote_request (c : Core) (from : N) : StepResult :=
  stay (with_message none (mkMessage (id c) from (term c) (VoteResp (mkVoteResponse false)))).

Definition deny_vote (c : Core) (msg : Message) : Effects :=
  let reply p := with_message none (mkMessage (id c) (msg_from msg) (term c) p) in
  match msg_payload msg with
  | PreVoteReq _ => reply (PreVoteResp (mkPreVoteResponse (term c) false))
  | VoteReq _ => reply (VoteResp (mkVoteResponse false))
  | _ => none
  end.

Definition handle_prevote_request (c : Core) (from msg_term : N) (req : PreVoteRequest)
  : Effects :=
  let dominated := log_is_up_to_date c (pv_last_log_term req) (pv_last_log_index req) in
  let candidate_is_voter := Membership.is_voter (effective_config c) from in
  let term_ok := term c <? pv_next_term req in
  let granted := candidate_is_voter && term_ok && dominated in
  with_message none
    (mkMessage (id c) from msg_term (PreVoteResp (mkPreVoteResponse (term c) granted))).

Definition reject_stale (c : Core) (msg : Message) : Effects :=
  let reply p := with_message none (mkMessage (id c) (msg_from msg) (term c) p) in
  match msg_payload msg with
  | VoteReq _ => reply (VoteResp (mkVoteResponse false))
  | AppendReq _ => reply (AppendResp (mkAppendResponse false (last_index (log c))))
  | _ => none
  end.

Definition is_vote_or_prevote (p : Payload) : bool :=
  match p with VoteReq _ | PreVoteReq _ => true | _ => false end.

Definition leader_hint (msg : Message) : option N :=
  match msg_payload msg with AppendReq _ => Some (msg_from msg) | _ => None end.

(** The equal-term dispatch. *)
Definition dispatch (cand : Candidate) (c : Core) (msg : Message)
  : Candidate * Core * StepResult :=
  match msg_payload msg with
  | VoteResp resp => handle_vote_response cand c (msg_from msg) resp
  | AppendReq _ => handle_append_request cand c (msg_from msg)
  | VoteReq _ => (cand, c, handle_vote_request c (msg_from msg))
  | TimeoutNow => (cand, c, to_candidate none)
  | _ => (cand, c, step_none)
  end.

Definition step_message (cand : Candidate) (c : Core) (msg : Message)
  : Candidate * Core * StepResult :=
  if is_vote_or_prevote (msg_payload msg) && recently_heard_from_leader cand c then
    (cand, c, stay (deny_vote c msg))
  else
    match msg_payload msg with
    | PreVoteReq req =>
        (cand, c, stay (handle_prevote_request c (msg_from msg) (msg_term msg) req))
    | _ =>
        if term c <? msg_term msg then
          let '(c, _) := maybe_update_term c (msg_term msg) in
          (cand, c, to_follower (leader_hint msg) (with_persist none))
        else if msg_term msg <? term c then (cand, c, stay (reject_stale c msg))
        else dispatch cand c msg
    end.

Definition step (cand : Candidate) (c : Core) (ev : Event) : Candidate * Core * StepResult :=
  match ev with
  | Tick => handle_tick cand c
  | DiskWriteComplete _ => (cand, c, step_none)
  | MessageEvent msg => step_message cand c msg
  end.
