(* ===== verification/Leader.v ===== *)
(** * Leader: the leader role

    Models [consensus/basisdb-raft/src/raft/leader.rs].  The three [BTreeMap]s are
    only read and written by key, so they are [gmap]s.  The [loop] of
    [maybe_commit] runs on fuel; [maybe_commit_terminates] shows that the fuel
    used is always enough. *)

From S2P Require Import Prelude.
From S2P Require Import Types.
From S2P Require Import Membership.
From S2P Require Import Log.
From S2P Require Import Event.
From S2P Require Import Core.

(** ** State *)

Record PendingReadIndex : Type := mkPendingReadIndex {
  pr_id : N;
  pr_read_index : N;
  pr_configuration : Configuration;
  pr_acks : gset N
}.

Record Leader : Type := mkLeader {
  next_index : gmap N N;
  match_index : gmap N N;
  heartbeat_deadline : N;
  sent_index : gmap N N;
  next_read_id : N;
  pending_read_index : option PendingReadIndex;
  confirmed_read_index : N
}.

Definition set_next_index (l : Leader) (m : gmap N N) : Leader :=
  mkLeader m (match_index l) (heartbeat_deadline l) (sent_index l) (next_read_id l)
    (pending_read_index l) (confirmed_read_index l).
Definition set_match_index (l : Leader) (m : gmap N N) : Leader :=
  mkLeader (next_index l) m (heartbeat_deadline l) (sent_index l) (next_read_id l)
    (pending_read_index l) (confirmed_read_index l).
Definition set_sent_index (l : Leader) (m : gmap N N) : Leader :=
  mkLeader (next_index l) (match_index l) (heartbeat_deadline l) m (next_read_id l)
    (pending_read_index l) (confirmed_read_index l).
Definition set_heartbeat_deadline (l : Leader) (d : N) : Leader :=
  mkLeader (next_index l) (match_index l) d (sent_index l) (next_read_id l)
    (pending_read_index l) (confirmed_read_index l).
Definition set_read_state (l : Leader) (next : N) (p : option PendingReadIndex) (ci : N) : Leader :=
  mkLeader (next_index l) (match_index l) (heartbeat_deadline l) (sent_index l) next p ci.

(** [map.get(&id).copied().unwrap_or(0)]. *)
Definition match_of (l : Leader) (id : N) : N := default 0 (match_index l !! id).

(** [map.insert(id, v)]. *)
Definition insert_match (l : Leader) (id v : N) : Leader :=
  set_match_index l (<[id := v]> (match_index l)).
Definition insert_next (l : Leader) (id v : N) : Leader :=
  set_next_index l (<[id := v]> (next_index l)).

(** [map.entry(id).or_insert(v)]. *)
Definition or_insert (m : gmap N N) (id v : N) : gmap N N :=
  match m !! id with Some _ => m | None => <[id := v]> m end.

(** ** Replication *)

Definition send_append_to (l : Leader) (c : Core) (to : N) : Leader * Effects :=
  let next := default 1 (next_index l !! to) in
  let snap := snapshot_index (log c) in
  if next <=? snap then
    (l, with_send_snapshot none
          (mkSendSnapshot to snap (snapshot_term (log c)) (config_at c snap)))
  else
    let prev_index := saturating_sub next 1 in
    let prev_term :=
      if (prev_index <=? snap) && (0 <? prev_index) then snapshot_term (log c)
      else term_at (log c) prev_index in
    let last_log := last_index (log c) in
    let end_ := N.min (next +u max_entries_per_msg (config c)) (last_log +u 1) in
    let es := slice (log c) next end_ in
    let sent_up_to := match last es with Some e => e_index e +u 1 | None => next end in
    let l := if pipelining (config c) && (next <? sent_up_to)
             then insert_next l to sent_up_to else l in
    let msg := mkMessage (id c) to (term c)
      (AppendReq (mkAppendRequest prev_index prev_term es (commit_index c))) in
    (l, with_message none msg).

(** [fold] of [send_append_to] over the replication peers. *)
Definition broadcast_append (l : Leader) (c : Core) : Leader * Effects :=
  foldl (fun '(l, eff) peer =>
           let '(l', e) := send_append_to l c peer in (l', merge eff e))
        (l, none) (replication_peers (effective_config c) (id c)).

Definition reinit_progress (l : Leader) (c : Core) : Leader :=
  let last := last_index (log c) in
  let l := foldl (fun l id =>
      let l := set_next_index l (or_insert (next_index l) id (last +u 1)) in
      let l := set_match_index l (or_insert (match_index l) id 0) in
      set_sent_index l (or_insert (sent_index l) id 0))
    l (all_nodes (effective_config c)) in
  if parallel_disk_write (config c) then l else insert_match l (id c) last.

(** [Leader::new]. *)
Definition new (c : Core) : Core * Leader * Effects :=
  let last := last_index (log c) in
  let nodes := all_nodes (effective_config c) in
  let next := foldl (fun m id => <[id := last +u 1]> m) ∅ nodes in
  let zeros := foldl (fun m id => <[id := 0]> m) ∅ nodes in
  let matches := if parallel_disk_write (config c) then zeros else <[id c := last]> zeros in
  let l := mkLeader next matches (ticks c +u heartbeat_interval (config c)) zeros 1 None 0 in
  let '(l, eff) := broadcast_append l c in
  (c, l, eff).

Definition ticks_until_deadline (l : Leader) (t : N) : N :=
  saturating_sub (heartbeat_deadline l) t.

(** ** Commitment *)

(** Does a quorum of [cfg] store the log up to [candidate]? *)
Definition quorum_at (l : Leader) (cfg : Configuration) (candidate : N) : bool :=
  has_quorum cfg (fun voter => candidate <=? match_of l voter).

Definition advance_commit_index (l : Leader) (c : Core) : Core :=
  let cfg := effective_config c in
  let max_possible := last_index (log c) in
  match List.find (fun candidate => (term_at (log c) candidate =? term c)
                                    && quorum_at l cfg candidate)
                  (reverse (range_incl (commit_index c +u 1) max_possible)) with
  | Some candidate => set_commit_index c candidate
  | None => c
  end.

(** The scan of [try_auto_transfer] for a caught-up voter. *)
Fixpoint best_target (l : Leader) (me last : N) (best : option (N * N)) (vs : list N)
  : option (N * N) :=
  match vs with
  | [] => best
  | voter :: vs' =>
      if voter =? me then best_target l me last best vs'
      else
        let match_idx := match_of l voter in
        if last <=? match_idx then Some (voter, match_idx)
        else
          let best := match best with
                      | None => Some (voter, match_idx)
                      | Some (_, best_idx) =>
                          if best_idx <? match_idx then Some (voter, match_idx) else best
                      end in
          best_target l me last best vs'
  end.

Definition try_auto_transfer (l : Leader) (c : Core) (new_config : Configuration) : Effects :=
  let last := last_index (log c) in
  match best_target l (id c) last None (voters new_config) with
  | Some (target, match_idx) =>
      if last <=? match_idx
      then with_message none (mkMessage (id c) target (term c) TimeoutNow)
      else none
  | None => none
  end.

Definition append_transition_target (l : Leader) (c : Core) (target : Configuration)
  : Leader * Core * Effects :=
  let new_index := last_index (log c) +u 1 in
  let c := set_log c (append (log c) (mkEntry (term c) new_index (ConfigPayload target))) in
  let l := reinit_progress l c in
  let '(l, eff) := broadcast_append l c in
  (l, c, with_persist eff).

Inductive ConfigCommitResult : Type :=
| Continue (e : Effects)
| StepDown (e : Effects)
| Done.

(** The loop of [process_committed_configs] over the newly committed indices. *)
Fixpoint process_configs (l : Leader) (c : Core) (idxs : list N)
  : Leader * Core * ConfigCommitResult :=
  match idxs with
  | [] => (l, c, Done)
  | idx :: idxs' =>
      match get (log c) idx with
      | None => process_configs l c idxs'
      | Some entry =>
          match e_payload entry with
          | CommandPayload _ => process_configs l c idxs'
          | ConfigPayload cfg =>
              if negb (Membership.is_voter cfg (id c)) then
                (l, c, StepDown (try_auto_transfer l c cfg))
              else
                match transition_target cfg with
                | Some target =>
                    let '(l, c, eff) := append_transition_target l c target in
                    (l, c, Continue eff)
                | None => process_configs l c idxs'
                end
          end
      end
  end.

Definition process_committed_configs (l : Leader) (c : Core) (old_commit : N)
  : Leader * Core * ConfigCommitResult :=
  process_configs l c (range_incl (old_commit +u 1) (commit_index c)).

(** The [loop] of [maybe_commit]; [None] means the fuel ran out. *)
Fixpoint maybe_commit_loop (fuel : nat) (l : Leader) (c : Core) (eff : Effects)
  : option (Leader * Core * Effects * bool) :=
  match fuel with
  | O => None
  | S fuel' =>
      let old_commit := commit_index c in
      let c := advance_commit_index l c in
      if commit_index c =? old_commit then Some (l, c, eff, false)
      else
        let '(l, c, r) := process_committed_configs l c old_commit in
        match r with
        | Continue e => maybe_commit_loop fuel' l c (merge eff e)
        | StepDown e => Some (l, c, merge eff e, true)
        | Done => Some (l, c, eff, false)
        end
  end.

(** Each continuation commits a joint configuration, of which the log holds at
    most [length (entries (log c))]. *)
Definition commit_fuel (c : Core) : nat := S (S (length (entries (log c)))).

Definition maybe_commit (l : Leader) (c : Core) : Leader * Core * Effects * bool :=
  match maybe_commit_loop (commit_fuel c) l c none with
  | Some r => r
  | None => (l, c, none, false)
  end.

(** ** Client operations *)

Definition propose (l : Leader) (c : Core) (cmd : Command)
  : Leader * Core * (N * Effects * bool) :=
  let index := last_index (log c) +u 1 in
  let c := set_log c (append (log c) (mkEntry (term c) index (CommandPayload cmd))) in
  let l := if parallel_disk_write (config c) then l else insert_match l (id c) index in
  let '(l, c, commit_effects, should_step_down) := maybe_commit l c in
  let '(l, eff) := broadcast_append l c in
  (l, c, (index, merge (with_persist eff) commit_effects, should_step_down)).

(** The learner catch-up check of [propose_config_change]. *)
Definition check_promotion (l : Leader) (c : Core) (current : Configuration)
    (change : ConfigChange) : result unit ConfigChangeError :=
  match change with
  | AddVoter id =>
      if is_learner current id then
        let progressed := match_of l id in
        let need := last_index (log c) in
        if progressed <? need then Err (LearnerNotCaughtUp id progressed need) else Ok tt
      else Err (PromoteRequiresLearner id)
  | _ => Ok tt
  end.

Definition propose_config_change (l : Leader) (c : Core) (change : ConfigChange)
  : Leader * Core * result (N * Effects * bool) ConfigChangeError :=
  let current := effective_config c in
  match validate change current (membership_mode (config c)) with
  | Err e => (l, c, Err e)
  | Ok _ =>
      match check_promotion l c current change with
      | Err e => (l, c, Err e)
      | Ok _ =>
          if has_pending_config c then (l, c, Err ChangeInProgress)
          else
            let new_config := apply change current (membership_mode (config c)) in
            let index := last_index (log c) +u 1 in
            let c := set_log c (append (log c)
                       (mkEntry (term c) index (ConfigPayload new_config))) in
            let l := if parallel_disk_write (config c) then l
                     else insert_match l (id c) index in
            let l := reinit_progress l c in
            let '(l, c, commit_effects, should_step_down) := maybe_commit l c in
            let '(l, eff) := broadcast_append l c in
            (l, c, Ok (index, merge (with_persist eff) commit_effects, should_step_down))
      end
  end.

Definition transfer_leadership (l : Leader) (c : Core) (target : N)
  : result Effects TransferError :=
  if target =? id c then Err TargetIsSelf
  else if negb (Membership.is_voter (effective_config c) target) then Err TargetNotVoter
  else
    let last := last_index (log c) in
    let m := match_of l target in
    if m <? last then Err (TargetLagging m last)
    else Ok (with_message none (mkMessage (id c) target (term c) TimeoutNow)).

(** ** Linearizable reads (section 6.4) *)

(** The descending scan of [current_term_commit_index]. *)
Fixpoint scan_current_term (lg : Log) (t : N) (idxs : list N) : option N :=
  match idxs with
  | [] => None
  | idx :: idxs' =>
      if term_at lg idx =? t then Some idx
      else if term_at lg idx <? t then None
      else scan_current_term lg t idxs'
  end.

Definition current_term_commit_index (c : Core) : option N :=
  scan_current_term (log c) (term c) (reverse (range_incl 1 (commit_index c))).

Definition can_serve_reads (l : Leader) (c : Core) : bool :=
  is_some (current_term_commit_index c)
  && (commit_index c <=? confirmed_read_index l)
  && (commit_index c <=? last_applied c).

Definition read_index (l : Leader) : N := confirmed_read_index l.

Definition read_index_ready (l : Leader) (c : Core) (ri : N) : bool :=
  (ri <=? confirmed_read_index l) && (ri <=? last_applied c).

Definition read_index_requests (c : Core) (p : PendingReadIndex) : Effects :=
  with_messages none
    ((fun to => mkMessage (id c) to (term c)
        (ReadIndexReq (mkReadIndexRequest (pr_id p) (pr_read_index p))))
     <$> voter_peers (pr_configuration p) (id c)).

Definition acks_quorum (p : PendingReadIndex) : bool :=
  has_quorum (pr_configuration p) (fun voter => bool_decide (voter ∈ pr_acks p)).

Definition request_read_index (l : Leader) (c : Core)
  : Leader * result (N * Effects) ReadIndexError :=
  match pending_read_index l with
  | Some p => (l, Err (ReadInProgress (pr_read_index p)))
  | None =>
      match current_term_commit_index c with
      | None => (l, Err CurrentTermNotCommitted)
      | Some _ =>
          let ri := commit_index c in
          let rid := next_read_id l in
          let next := rid +u 1 in
          let p := mkPendingReadIndex rid ri (effective_config c) {[id c]} in
          if acks_quorum p then
            (set_read_state l next None (N.max (confirmed_read_index l) ri), Ok (ri, none))
          else
            (set_read_state l next (Some p) (confirmed_read_index l),
             Ok (ri, read_index_requests c p))
      end
  end.

(** ** Events *)

Definition step_down_or_stay (eff : Effects) (should_step_down : bool) : StepResult :=
  if should_step_down then to_follower None eff else stay eff.

Definition handle_disk_write_complete (l : Leader) (c : Core) (index : N)
  : Leader * Core * StepResult :=
  let current := match_of l (id c) in
  if current <? index then
    let l := insert_match l (id c) index in
    let '(l, c, eff, down) := maybe_commit l c in
    (l, c, step_down_or_stay eff down)
  else (l, c, step_none).

Definition handle_tick (l : Leader) (c : Core) : Leader * Core * StepResult :=
  let c := set_ticks c (ticks c +u 1) in
  if heartbeat_deadline l <=? ticks c then
    let l := set_heartbeat_deadline l (ticks c +u heartbeat_interval (config c)) in
    let '(l, eff) := broadcast_append l c in
    let eff := match pending_read_index l with
               | Some p => merge eff (read_index_requests c p)
               | None => eff
               end in
    (l, c, stay eff)
  else (l, c, step_none).

Definition handle_append_response (l : Leader) (c : Core) (from : N) (resp : AppendResponse)
  : Leader * Core * StepResult :=
  if negb (is_member (effective_config c) from) then (l, c, step_none)
  else if aresp_success resp then
    let l := insert_match l from (aresp_last_log_index resp) in
    let l := if pipelining (config c) then l
             else insert_next l from (aresp_last_log_index resp +u 1) in
    let '(l, c, eff, down) := maybe_commit l c in
    (l, c, step_down_or_stay eff down)
  else
    let match_idx := match_of l from in
    let hinted := N.max (aresp_last_log_index resp +u 1) 1 in
    let new_next := if pipelining (config c) then N.max hinted (match_idx +u 1) else hinted in
    let l := insert_next l from new_next in
    let '(l, eff) := send_append_to l c from in
    (l, c, stay eff).

Definition handle_install_snapshot_response (l : Leader) (c : Core) (from : N)
    (resp : InstallSnapshotResponse) : Leader * Core * StepResult :=
  if negb (isr_success resp) || negb (is_member (effective_config c) from)
  then (l, c, step_none)
  else
    let current_match := match_of l from in
    if isr_last_included_index resp <=? current_match then (l, c, step_none)
    else
      let l := insert_match l from (isr_last_included_index resp) in
      let l := insert_next l from (isr_last_included_index resp +u 1) in
      let '(l, c, eff, down) := maybe_commit l c in
      (l, c, step_down_or_stay eff down).

Definition handle_read_index_response (l : Leader) (from : N) (resp : ReadIndexResponse)
  : Leader * StepResult :=
  match pending_read_index l with
  | None => (l, step_none)
  | Some p =>
      if negb (Membership.is_voter (pr_configuration p) from) then (l, step_none)
      else if negb (pr_id p =? rir_id resp) || negb (pr_read_index p =? rir_read_index resp)
      then (l, step_none)
      else
        let p := mkPendingReadIndex (pr_id p) (pr_read_index p) (pr_configuration p)
                   ({[from]} ∪ pr_acks p) in
        if acks_quorum p then
          (set_read_state l (next_read_id l) None
             (N.max (confirmed_read_index l) (pr_read_index p)), step_none)
        else (set_read_state l (next_read_id l) (Some p) (confirmed_read_index l), step_none)
  end.

Definition handle_vote_request (c : Core) (from : N) : StepResult :=
  stay (with_message none (mkMessage (id c) from (term c) (VoteResp (mkVoteResponse false)))).

Definition deny_prevote (c : Core) (from : N) : Effects :=
  with_message none
    (mkMessage (id c) from (term c) (PreVoteResp (mkPreVoteResponse (term c) false))).

Definition reject_stale (c : Core) (msg : Message) : Effects :=
  let reply p := with_message none (mkMessage (id c) (msg_from msg) (term c) p) in
  match msg_payload msg with
  | VoteReq _ => reply (VoteResp (mkVoteResponse false))
  | AppendReq _ => reply (AppendResp (mkAppendResponse false (last_index (log c))))
  | _ => none
  end.

Definition leader_hint (msg : Message) : option N :=
  match msg_payload msg with AppendReq _ => Some (msg_from msg) | _ => None end.

(** The equal-term dispatch. *)
Definition dispatch (l : Leader) (c : Core) (msg : Message) : Leader * Core * StepResult :=
  match msg_payload msg with
  | AppendResp resp => handle_append_response l c (msg_from msg) resp
  | InstallSnapshotResp resp => handle_install_snapshot_response l c (msg_from msg) resp
  | ReadIndexResp resp =>
      let '(l, r) := handle_read_index_response l (msg_from msg) resp in (l, c, r)
  | VoteReq _ => (l, c, handle_vote_request c (msg_from msg))
  | _ => (l, c, step_none)
  end.

Definition step_message (l : Leader) (c : Core) (msg : Message) : Leader * Core * StepResult :=
  match msg_payload msg with
  | PreVoteReq _ => (l, c, stay (deny_prevote c (msg_from msg)))
  | _ =>
      if term c <? msg_term msg then
        let '(c, _) := maybe_update_term c (msg_term msg) in
        (l, c, to_follower (leader_hint msg) (with_persist none))
      else if msg_term msg <? term c then (l, c, stay (reject_stale c msg))
      else dispatch l c msg
  end.

Definition step (l : Leader) (c : Core) (ev : Event) : Leader * Core * StepResult :=
  match ev with
  | Tick => handle_tick l c
  | DiskWriteComplete index => handle_disk_write_complete l c index
  | MessageEvent msg => step_message l c msg
  end.

(** ** Commitment *)

(** A candidate for the commit index: an entry of the leader's term that a quorum
    of the effective configuration is known to store. *)
Definition committable (l : Leader) (c : Core) (i : N) : bool :=
  (term_at (log c) i =? term c) && quorum_at l (effective_config c) i.

(** What [advance_commit_index] does. *)
Lemma advance_commit_cases l c :
  commit_index c + 1 < two64 ->
  (advance_commit_index l c = c /\
   forall j, commit_index c < j <= last_index (log c) -> committable l c j = false) \/
  (exists i, advance_commit_index l c = set_commit_index c i /\
     commit_index c < i <= last_index (log c) /\ committable l c i = true /\
     forall j, i < j <= last_index (log c) -> committable l c j = false).
Proof.
  intros Hb. unfold advance_commit_index. rewrite wadd_small by done.
  fold (committable l c). destruct (List.find _ _) as [i|] eqn:E.
  - apply find_rev_range_Some in E as (H1 & H2 & H3). right. exists i. split_and!; done || lia.
  - left. split; [done|]. intros j Hj. apply (find_rev_range_None _ _ _ E). lia.
Qed.

(** Uncommitted joint configurations in the log. *)
Definition is_joint_entry (e : Entry) : bool :=
  match e_payload e with ConfigPayload cfg => is_joint cfg | _ => false end.

Definition joints_after (c : Core) : nat :=
  length (List.filter (fun e => (commit_index c <? e_index e) && is_joint_entry e)
                      (entries (log c))).

Lemma filter_length_lt {A} (f g : A -> bool) l x :
  (forall y, g y = true -> f y = true) -> x ∈ l -> f x = true -> g x = false ->
  (length (List.filter g l) < length (List.filter f l))%nat.
Proof.
  intros Hgf Hx Hf Hg. assert (forall l, length (List.filter g l) <= length (List.filter f l))%nat as Hle.
  { induction l0 as [|y l0 IH]; simpl; [done|]. destruct (g y) eqn:E.
    - rewrite (Hgf y E). simpl. lia.
    - destruct (f y); simpl; lia. }
  induction l as [|y l IH]; [inversion Hx|]. simpl. apply elem_of_cons in Hx as [->|Hx].
  - rewrite Hf, Hg. simpl. specialize (Hle l). lia.
  - specialize (IH Hx). destruct (g y) eqn:E; [rewrite (Hgf y E); simpl; lia|].
    destruct (f y); simpl; lia.
Qed.

(** The loop over newly committed entries: if it asks to continue, it committed a
    joint configuration and appended the simple one it leads to. *)
Lemma process_configs_continue l c idxs l' c' e :
  process_configs l c idxs = (l', c', Continue e) ->
  exists idx en cfg target, idx ∈ idxs /\ get (log c) idx = Some en /\
    e_payload en = ConfigPayload cfg /\ transition_target cfg = Some target /\
    c' = set_log c (append (log c)
           (mkEntry (term c) (last_index (log c) +u 1) (ConfigPayload target))).
Proof.
  induction idxs as [|i idxs IH]; simpl; [done|].
  assert (process_configs l c idxs = (l', c', Continue e) ->
    exists idx en cfg target, idx ∈ i :: idxs /\ get (log c) idx = Some en /\
      e_payload en = ConfigPayload cfg /\ transition_target cfg = Some target /\
      c' = set_log c (append (log c)
             (mkEntry (term c) (last_index (log c) +u 1) (ConfigPayload target)))) as Hskip.
  { intros H. destruct (IH H) as (idx & en & cfg & t & Hin & ?).
    exists idx, en, cfg, t. split; [by right|done]. }
  destruct (get (log c) i) as [en|] eqn:Eg; [|done].
  destruct (e_payload en) as [|cfg] eqn:Ep; [done|]. destruct (negb _); [done|].
  destruct (transition_target cfg) as [t|] eqn:Et; [|done].
  unfold append_transition_target. destruct (broadcast_append _ _). intros. simplify_eq.
  exists i, en, cfg, t. split; [by left|done].
Qed.

Lemma transition_target_joint cfg t :
  transition_target cfg = Some t -> is_joint cfg = true /\ is_joint t = false.
Proof. destruct cfg; simpl; intros; by simplify_eq. Qed.

Definition commit_room (c : Core) : Prop :=
  log_wf (log c) /\ commit_index c + 1 < two64 /\
  last_index (log c) + N.of_nat (joints_after c) + 1 < two64.

(** One continuing iteration consumes an uncommitted joint configuration. *)
Lemma continue_consumes_joint l c i l' c' e :
  commit_room c -> commit_index c < i <= last_index (log c) ->
  process_committed_configs l (set_commit_index c i) (commit_index c) = (l', c', Continue e) ->
  commit_room c' /\ (joints_after c' < joints_after c)%nat.
Proof.
  intros (Hwf & Hb & Hroom) Hi. unfold process_committed_configs. simpl.
  rewrite wadd_small by done. intros Hp.
  apply process_configs_continue in Hp as (idx & en & cfg & t & Hin & Hg & Hpay & Ht & ->).
  change (log (set_commit_index c i)) with (log c) in *. apply elem_of_range_incl in Hin.
  pose proof (get_index _ _ _ Hwf Hg) as Hidx. apply get_elem in Hg.
  apply transition_target_joint in Ht as [Hj Ht].
  set (new := mkEntry (term (set_commit_index c i)) (last_index (log c) +u 1) (ConfigPayload t)).
  assert (joints_after (set_log (set_commit_index c i) (append (log c) new)) < joints_after c)%nat as Hlt.
  { unfold joints_after, log. simpl. rewrite List.filter_app. simpl.
    unfold is_joint_entry at 2. simpl. rewrite Ht, andb_false_r, app_nil_r.
    apply (filter_length_lt _ _ _ en); [|done| |].
    - intros y Hy. unbool. rewrite (proj2 (N.ltb_lt _ _)) by lia. done.
    - rewrite Hidx, (proj2 (N.ltb_lt _ _)) by lia. unfold is_joint_entry. by rewrite Hpay.
    - rewrite Hidx, (proj2 (N.ltb_ge _ _)) by lia. done. }
  split; [|done]. split_and!.
  - change (log_wf (append (log c) new)). apply append_wf; [done|]. split; simpl;
      rewrite wadd_small by lia; [lia|unfold u64; lia].
  - simpl. lia.
  - change (log (set_log (set_commit_index c i) (append (log c) new))) with (append (log c) new).
    rewrite append_last_index. simpl. rewrite wadd_small by lia. lia.
Qed.

Lemma maybe_commit_loop_total fuel l c e :
  commit_room c -> (joints_after c < fuel)%nat -> is_Some (maybe_commit_loop fuel l c e).
Proof.
  revert l c e. induction fuel as [|fuel IH]; intros l c e Hroom Hf; [lia|]. simpl.
  pose proof Hroom as (_ & Hb & _).
  destruct (advance_commit_cases l c Hb) as [[-> _]|(i & -> & Hi & _)].
  - rewrite N.eqb_refl. eauto.
  - change (commit_index (set_commit_index c i)) with i.
    destruct (N.eqb_spec i (commit_index c)); [eauto|].
    destruct (process_committed_configs _ _ _) as [[l1 c1] r] eqn:Ep.
    destruct r; [|eauto..].
    destruct (continue_consumes_joint _ _ _ _ _ _ Hroom Hi Ep) as [Hr1 Hj1].
    apply IH; [done|]. lia.
Qed.

(** C19. The commit loop always terminates within the fuel of [maybe_commit]: each
    further round has just committed a joint configuration, and the log holds at
    most as many of those as entries, so the model's result is the loop's. *)
Theorem maybe_commit_terminates l c (Hroom : commit_room c) :
  exists r, maybe_commit_loop (commit_fuel c) l c none = Some r /\ maybe_commit l c = r.
Proof.
  destruct (maybe_commit_loop_total (commit_fuel c) l c none Hroom) as [r Hr].
  { unfold commit_fuel, joints_after.
    pose proof (List.filter_length_le (fun e => (commit_index c <? e_index e) && is_joint_entry e)
                  (entries (log c))). lia. }
  exists r. split; [done|]. unfold maybe_commit. by rewrite Hr.
Qed.

(** A two-server joint configuration, committed by its leader at once. *)
Definition joint_core : Core :=
  set_log (set_vote (Core_new (Config_new 1) [1; 2]) 1 (Some 1))
    (mkLog [mkEntry 1 1 (ConfigPayload (joint [1; 2] [1; 3]))] 0 0 None).
Definition joint_leader : Leader :=
  mkLeader ∅ (list_to_map [(1, 1); (2, 1); (3, 1)]) 0 ∅ 1 None 0.

Lemma joint_core_wf : log_wf (log joint_core).
Proof. split; [|reflexivity]. apply contiguous_singleton. reflexivity. Qed.

Lemma maybe_commit_terminates_witness :
  exists r, maybe_commit_loop (commit_fuel joint_core) joint_leader joint_core none = Some r /\
            is_joint (effective_config (snd (fst (fst r)))) = false.
Proof.
  destruct (maybe_commit_terminates joint_leader joint_core) as (r & Hr & Hm).
  - split_and!; [apply joint_core_wf|reflexivity|reflexivity].
  - exists r. split; [exact Hr|]. rewrite <- Hm. vm_compute. reflexivity.
Defined.

(** C18. The leader moves its commit index to the highest index of its log that
    holds an entry of its own term and is stored, according to its match indices,
    by a quorum of the effective configuration; otherwise it leaves it alone.  The
    commit index never decreases and the persistent state is untouched. *)
Theorem commit_advances_to_highest_quorum l c (Hb : commit_index c + 1 < two64) :
  let c' := advance_commit_index l c in
  commit_index c <= commit_index c' /\ persistent c' = persistent c /\
  (commit_index c' <> commit_index c ->
     commit_index c' <= last_index (log c) /\ term_at (log c) (commit_index c') = term c /\
     has_quorum (effective_config c) (fun v => commit_index c' <=? match_of l v) = true) /\
  (forall j, commit_index c' < j <= last_index (log c) -> committable l c j = false).
Proof.
  simpl. destruct (advance_commit_cases l c Hb) as [[-> Hn]|(i & -> & Hi & Hc & Hn)].
  - split_and!; [lia|done|done|done].
  - unfold committable in Hc. simpl. unbool. split_and!; [lia|done| |done].
    intros _. split_and!; [lia|done|done].
Qed.

Lemma commit_advances_to_highest_quorum_witness :
  commit_index joint_core <= commit_index (advance_commit_index joint_leader joint_core).
Proof.
  apply (commit_advances_to_highest_quorum joint_leader joint_core). reflexivity.
Defined.

(** ** The leader only appends *)

(** [l'] is [l] with entries added at the end. *)
Definition log_extends (l l' : Log) : Prop :=
  snapshot_index l' = snapshot_index l /\ snapshot_term l' = snapshot_term l /\
  snapshot_config l' = snapshot_config l /\ exists es, entries l' = entries l ++ es.

#[global] Instance log_extends_preorder : PreOrder log_extends.
Proof.
  split.
  - intros l. split_and!; try done. exists []. by rewrite app_nil_r.
  - intros x y z (? & ? & ? & es1 & Hxy) (? & ? & ? & es2 & Hyz). split_and!; try congruence.
    exists (es1 ++ es2). by rewrite Hyz, Hxy, app_assoc.
Qed.

Lemma append_extends l e : log_extends l (append l e).
Proof. split_and!; try done. by exists [e]. Qed.

Lemma extends_get l l' j e : log_extends l l' -> get l j = Some e -> get l' j = Some e.
Proof.
  intros (Hs & _ & _ & es & He). rewrite !get_alt, Hs, He. case_match; [|done].
  apply lookup_app_l_Some.
Qed.

Lemma advance_commit_log l c : log (advance_commit_index l c) = log c.
Proof. unfold advance_commit_index. by case_match. Qed.

Lemma process_configs_extends l c idxs l' c' r :
  process_configs l c idxs = (l', c', r) -> log_extends (log c) (log c').
Proof.
  induction idxs as [|i idxs IH]; simpl; [intros; by simplify_eq|].
  destruct (get (log c) i) as [en|]; [|done]. destruct (e_payload en) as [|cfg]; [done|].
  destruct (negb _); [intros; by simplify_eq|]. destruct (transition_target cfg); [|done].
  unfold append_transition_target. destruct (broadcast_append _ _). intros. simplify_eq.
  apply append_extends.
Qed.

Lemma maybe_commit_loop_extends fuel l c e l' c' e' b :
  maybe_commit_loop fuel l c e = Some (l', c', e', b) -> log_extends (log c) (log c').
Proof.
  revert l c e. induction fuel as [|fuel IH]; intros l c e; simpl; [done|].
  rewrite <- (advance_commit_log l c). case_match; [intros; by simplify_eq|].
  destruct (process_committed_configs _ _ _) as [[l1 c1] r] eqn:Ep.
  apply process_configs_extends in Ep. destruct r; intros Hm; simplify_eq; try done.
  apply IH in Hm. by etrans.
Qed.

Lemma maybe_commit_extends l c l' c' e b :
  maybe_commit l c = (l', c', e, b) -> log_extends (log c) (log c').
Proof.
  unfold maybe_commit. case_match eqn:E; intros; simplify_eq; [|done].
  by eapply maybe_commit_loop_extends.
Qed.

Lemma dispatch_extends l c msg l' c' r :
  dispatch l c msg = (l', c', r) -> log_extends (log c) (log c').
Proof.
  unfold dispatch, handle_append_response, handle_install_snapshot_response.
  destruct (msg_payload msg); intros Hs; repeat case_match; simplify_eq; try done;
    match goal with H : maybe_commit _ _ = _ |- _ => by apply maybe_commit_extends in H end.
Qed.

Lemma step_extends l c ev l' c' r :
  step l c ev = (l', c', r) -> log_extends (log c) (log c').
Proof.
  destruct ev as [|msg|i]; simpl.
  - unfold handle_tick. case_match; [destruct (broadcast_append _ _)|]; intros; by simplify_eq.
  - unfold step_message, maybe_update_term. intros Hs.
    repeat case_match; simplify_eq; try done; by apply dispatch_extends in Hs.
  - unfold handle_disk_write_complete. case_match; [|intros; by simplify_eq].
    destruct (maybe_commit _ c) as [[[? ?] ?] ?] eqn:Em. intros. simplify_eq.
    by apply maybe_commit_extends in Em.
Qed.

Lemma propose_extends l c cmd l' c' i e b :
  propose l c cmd = (l', c', (i, e, b)) ->
  log_extends (append (log c) (mkEntry (term c) (last_index (log c) +u 1) (CommandPayload cmd)))
    (log c') /\ i = last_index (log c) +u 1.
Proof.
  unfold propose. destruct (maybe_commit _ _) as [[[l1 c1] e1] b1] eqn:Em.
  destruct (broadcast_append _ _). intros. simplify_eq. split; [|done].
  by apply maybe_commit_extends in Em.
Qed.

Lemma propose_config_change_Ok l c ch l' c' i e b :
  propose_config_change l c ch = (l', c', Ok (i, e, b)) ->
  validate ch (effective_config c) (membership_mode (config c)) = Ok tt /\
  check_promotion l c (effective_config c) ch = Ok tt /\
  has_pending_config c = false /\ i = last_index (log c) +u 1 /\
  log_extends (append (log c) (mkEntry (term c) i
      (ConfigPayload (apply ch (effective_config c) (membership_mode (config c))))))
    (log c').
Proof.
  unfold propose_config_change. destruct (validate _ _ _) as [[]|]; [|done].
  destruct (check_promotion _ _ _ _) as [[]|]; [|done].
  destruct (has_pending_config c); [done|].
  destruct (maybe_commit _ _) as [[[l1 c1] e1] b1] eqn:Em.
  destruct (broadcast_append _ _). intros. simplify_eq. split_and!; try done.
  by apply maybe_commit_extends in Em.
Qed.

(** C20. Leader append-only: no event and no client operation makes a leader
    overwrite or delete an entry of its log; every entry it holds is still there,
    unchanged, after a step, a proposal or a configuration change. *)
Theorem leader_is_append_only l c j en (Hj : get (log c) j = Some en) :
  (forall ev l' c' r, step l c ev = (l', c', r) -> get (log c') j = Some en) /\
  (forall cmd l' c' x, propose l c cmd = (l', c', x) -> get (log c') j = Some en) /\
  (forall ch l' c' x, propose_config_change l c ch = (l', c', x) -> get (log c') j = Some en).
Proof.
  split_and!.
  - intros ev l' c' r Hs. eapply extends_get; [by eapply step_extends|done].
  - intros cmd l' c' [[i e] b] Hp. apply propose_extends in Hp as [Hp _].
    eapply extends_get; [|exact Hj]. etrans; [apply append_extends|exact Hp].
  - intros ch l' c' [[[i e] b]|err] Hp.
    + apply propose_config_change_Ok in Hp as (_ & _ & _ & _ & Hp).
      eapply extends_get; [|exact Hj]. etrans; [apply append_extends|exact Hp].
    + unfold propose_config_change in Hp. repeat case_match; by simplify_eq.
Qed.

Lemma leader_is_append_only_witness :
  let '(_, c', _) := propose joint_leader joint_core [] in
  get (log c') 1 = Some (mkEntry 1 1 (ConfigPayload (joint [1; 2] [1; 3]))).
Proof.
  destruct (leader_is_append_only joint_leader joint_core 1
    (mkEntry 1 1 (ConfigPayload (joint [1; 2] [1; 3]))) eq_refl) as (_ & Hp & _).
  destruct (propose joint_leader joint_core []) as [[l' c'] x] eqn:E.
  exact (Hp [] l' c' x E).
Defined.

(** A configuration change that the leader accepts was valid for the effective
    configuration, met the learner catch-up check and had no other configuration
    entry pending; it is stored at the index returned, and the quorums of the new
    configuration overlap those of the one it replaces. *)
Theorem accepted_change_is_safe l c ch l' c' i e b
    (Hwf : log_wf (log c)) (Hroom : last_index (log c) + 1 < two64)
    (Hok : propose_config_change l c ch = (l', c', Ok (i, e, b))) :
  let old := effective_config c in
  let new := apply ch old (membership_mode (config c)) in
  i = last_index (log c) + 1 /\
  get (log c') i = Some (mkEntry (term c) i (ConfigPayload new)) /\
  (forall j en, commit_index c < j -> get (log c) j = Some en -> is_config (e_payload en) = false) /\
  (forall id, ch = AddVoter id -> is_learner old id = true /\ last_index (log c) <= match_of l id) /\
  (forall f g, has_quorum old f = true -> has_quorum new g = true ->
     exists id, Membership.is_voter old id = true /\ Membership.is_voter new id = true /\
                f id = true /\ g id = true).
Proof.
  apply propose_config_change_Ok in Hok as (Hv & Hpr & Hpend & Hi & Hext).
  rewrite wadd_small in Hi by done. simpl. split_and!; [done|..].
  - eapply extends_get; [exact Hext|]. rewrite append_get; [|done|].
    + simpl. by rewrite N.eqb_refl.
    + split; simpl; [done|]. unfold u64. lia.
  - unfold has_pending_config in Hpend.
    destruct (Log.pending_config_index _ _) eqn:E; [done|].
    by apply (pending_config_None _ _ Hwf).
  - intros id ->. simpl in Hpr. destruct (is_learner _ id); [|done]. split; [done|].
    case_match; [done|]. by unbool.
  - intros f g. by apply change_overlap.
Qed.

Definition lone_core : Core := set_vote (Core_new (Config_new 1) [1]) 1 (Some 1).
Definition lone_leader : Leader := snd (fst (new lone_core)).

Lemma accepted_change_is_safe_witness :
  let '(_, c', _) := propose_config_change lone_leader lone_core (AddLearner 2) in
  get (log c') 1 = Some (mkEntry 1 1 (ConfigPayload (Simple {[1]} {[2]}))).
Proof.
  destruct (propose_config_change lone_leader lone_core (AddLearner 2)) as [[l' c'] r] eqn:E.
  destruct r as [[[i e] b]|err]; [|vm_compute in E; discriminate].
  destruct (accepted_change_is_safe lone_leader lone_core (AddLearner 2) l' c' i e b
    log_wf_default eq_refl E) as (Hi & Hg & _).
  rewrite Hi in Hg. exact Hg.
Defined.

(** ** Replication requests *)

(** The request a leader sends a peer whose next index is not compacted. *)
Definition request_for (l : Leader) (c : Core) (to : N) : option AppendRequest :=
  match messages (snd (send_append_to l c to)) with
  | [mkMessage _ _ _ (AppendReq r)] => Some r
  | _ => None
  end.

(** Every append message of [send_append_to] describes a segment of the log. *)
Lemma send_append_to_message l c to l' e m :
  log_wf (log c) -> send_append_to l c to = (l', e) -> m ∈ messages e ->
  exists r, m = mkMessage (id c) to (term c) (AppendReq r) /\
    contiguous (ar_prev_log_index r) (ar_entries r) /\
    (forall en, en ∈ ar_entries r -> en ∈ entries (log c)) /\
    ar_leader_commit r = commit_index c /\
    snapshot_index (log c) <= ar_prev_log_index r /\
    ar_prev_log_term r = term_at (log c) (ar_prev_log_index r) /\
    (ar_entries r <> [] -> ar_prev_log_index r < last_index (log c)).
Proof.
  intros Hwf. unfold send_append_to. set (next := default 1 (next_index l !! to)).
  destruct (N.leb_spec next (snapshot_index (log c))) as [Hle|Hgt].
  { intros ? Hm. simplify_eq. inversion Hm. }
  intros ? Hm. simplify_eq. apply list_elem_of_singleton in Hm as ->.
  eexists. split; [done|]. simpl.
  set (es := slice (log c) next _).
  assert (contiguous (next - 1) es) as Hc.
  { pose proof (slice_contiguous (log c) next
      (N.min (next +u max_entries_per_msg (config c)) (last_index (log c) +u 1)) Hwf) as Hs.
    by replace (N.max (next - 1) (snapshot_index (log c))) with (next - 1) in Hs by lia. }
  assert (forall en, en ∈ es -> en ∈ entries (log c)) as Hin.
  { intros en Hen. by apply elem_of_slice in Hen as [? _]. }
  split_and!; [done|done|done|unfold saturating_sub; lia| |].
  - unfold saturating_sub. destruct (N.leb_spec (next - 1) (snapshot_index (log c))); simpl; [|done].
    destruct (N.ltb_spec 0 (next - 1)); [|done]. unfold term_at.
    assert (next - 1 = snapshot_index (log c)) as -> by lia.
    rewrite N.ltb_irrefl, N.eqb_refl. destruct (N.eqb_spec (snapshot_index (log c)) 0); [lia|done].
  - intros Hne. destruct es as [|en es']; [done|].
    assert (en ∈ entries (log c)) as He by (apply Hin; by left).
    apply contiguous_cons in Hc as [Hi _]. apply get_entry in He; [|done].
    destruct (proj1 (get_is_Some _ _ Hwf) (ex_intro _ _ He)). unfold saturating_sub. lia.
Qed.

(** A replication request is a faithful excerpt of the leader's log: its
    previous index and term are the log's, its entries are entries of the log
    numbered consecutively after the previous index, and it carries the leader's
    commit index. *)
Theorem append_request_is_log_excerpt l c to r
    (Hwf : log_wf (log c)) (Hr : request_for l c to = Some r) :
  ar_prev_log_term r = term_at (log c) (ar_prev_log_index r) /\
  contiguous (ar_prev_log_index r) (ar_entries r) /\
  (forall en, en ∈ ar_entries r -> get (log c) (e_index en) = Some en) /\
  ar_leader_commit r = commit_index c.
Proof.
  unfold request_for in Hr. destruct (send_append_to l c to) as [l' e] eqn:Es. simpl in Hr.
  destruct (messages e) as [|m [|]] eqn:Em; [done| |by repeat case_match].
  destruct (send_append_to_message l c to l' e m Hwf Es) as (r' & -> & Hc & Hin & Hl & _ & Ht & _);
    [rewrite Em; by left|]. simplify_eq. split_and!; try done.
  intros en Hen. apply get_entry; auto.
Qed.

Definition stocked_core : Core :=
  set_log lone_core (mkLog [mkEntry 1 1 (CommandPayload [Byte.x61]);
    mkEntry 1 2 (CommandPayload [Byte.x62]); mkEntry 1 3 (CommandPayload [Byte.x63])] 0 0 None).

Lemma stocked_core_wf : log_wf (log stocked_core).
Proof. split; [|reflexivity]. simpl. rewrite !contiguous_cons. repeat split. apply contiguous_nil. Qed.

Lemma append_request_is_log_excerpt_witness :
  exists r, request_for (insert_next lone_leader 2 2) stocked_core 2 = Some r /\
            ar_prev_log_term r = 1.
Proof.
  destruct (request_for (insert_next lone_leader 2 2) stocked_core 2) as [r|] eqn:E;
    [|vm_compute in E; discriminate].
  exists r. split; [reflexivity|].
  rewrite (proj1 (append_request_is_log_excerpt _ _ _ r stocked_core_wf E)).
  vm_compute in E. injection E as <-. reflexivity.
Defined.

(** The batch limit is off by one: when the peer is at least [max] entries
    behind the last one, a request carries [max_entries_per_msg + 1] entries, one
    more than the documented maximum, because the slice includes its end. *)
Theorem append_batch_exceeds_limit l c to next
    (Hwf : log_wf (log c)) (Hroom : last_index (log c) + 1 < two64)
    (Hn : next_index l !! to = Some next) (Hs : snapshot_index (log c) < next)
    (Hlen : next + max_entries_per_msg (config c) <= last_index (log c)) :
  exists r, request_for l c to = Some r /\
    N.of_nat (length (ar_entries r)) = max_entries_per_msg (config c) + 1.
Proof.
  unfold request_for, send_append_to. rewrite Hn. simpl.
  rewrite (proj2 (N.leb_gt _ _)) by done. simpl. eexists. split; [done|]. simpl.
  rewrite !wadd_small by lia. rewrite N.min_l by lia.
  rewrite slice_filter, (contiguous_filter (snapshot_index (log c))) by apply Hwf || done.
  rewrite length_drop, length_take. rewrite last_index_wf in Hlen by done. lia.
Qed.

Definition one_per_message : Config :=
  mkConfig 1 (150, 300) 75 1 1024 1024 SingleServer true false true.

Lemma append_batch_exceeds_limit_witness :
  exists r, request_for (insert_next lone_leader 2 1)
              (mkCore one_per_message (persistent stocked_core) 0 0 0 1) 2 = Some r /\
            N.of_nat (length (ar_entries r)) = 2.
Proof.
  apply (append_batch_exceeds_limit (insert_next lone_leader 2 1)
    (mkCore one_per_message (persistent stocked_core) 0 0 0 1) 2 1);
    [apply stocked_core_wf|reflexivity..|vm_compute; discriminate].
Defined.

(** ** Leadership transfer *)

(** A leader hands leadership over exactly to another voter of the effective
    configuration that is known to store its whole log, and then sends that voter
    a single [TimeoutNow] of its term; otherwise it answers the matching error. *)
Theorem transfer_only_to_caught_up_voter l c target :
  (transfer_leadership l c target =
     Ok (with_message none (mkMessage (id c) target (term c) TimeoutNow)) <->
   target <> id c /\ Membership.is_voter (effective_config c) target = true /\
   last_index (log c) <= match_of l target) /\
  (forall e, transfer_leadership l c target = Ok e ->
     messages e = [mkMessage (id c) target (term c) TimeoutNow] /\ persist e = false) /\
  (transfer_leadership l c target = Err TargetIsSelf <-> target = id c) /\
  (transfer_leadership l c target = Err TargetNotVoter <->
   target <> id c /\ Membership.is_voter (effective_config c) target = false).
Proof.
  unfold transfer_leadership. destruct (N.eqb_spec target (id c)) as [->|Hne].
  { split_and!; [split; [done|tauto]|done|done|split; [done|tauto]]. }
  destruct (Membership.is_voter (effective_config c) target); simpl.
  2:{ split_and!; [split; [done|]|done|split; [done|by intros ->]|done].
      by intros (_ & ? & _). }
  destruct (N.ltb_spec (match_of l target) (last_index (log c))).
  - split_and!; [split; [done|]|done|split; [done|by intros ->]|split; [done|by intros []]].
    intros (_ & _ & ?). lia.
  - split_and!; [done|intros e [=<-]; done|split; [done|by intros ->]|split; [done|by intros []]].
Qed.

(** ** Linearizable reads *)

(** A read index is confirmed only by a quorum: whenever a response raises the
    confirmed read index, it answers the pending read by id and index, its sender
    is a voter of the configuration the read was issued under, the senders counted
    so far with this one form a quorum of that configuration, the confirmed index
    becomes the pending one, and the read is no longer pending. *)
Theorem confirmed_read_has_quorum l from resp l' r
    (Hs : handle_read_index_response l from resp = (l', r))
    (Hinc : confirmed_read_index l < confirmed_read_index l') :
  exists p, pending_read_index l = Some p /\ pr_id p = rir_id resp /\
    pr_read_index p = rir_read_index resp /\
    Membership.is_voter (pr_configuration p) from = true /\
    has_quorum (pr_configuration p)
      (fun v => bool_decide (v ∈ ({[from]} ∪ pr_acks p : gset N))) = true /\
    confirmed_read_index l' = pr_read_index p /\ pending_read_index l' = None.
Proof.
  unfold handle_read_index_response in Hs.
  destruct (pending_read_index l) as [p|] eqn:Ep; [|simplify_eq; lia].
  destruct (Membership.is_voter _ from) eqn:Ev; simpl in Hs; [|simplify_eq; lia].
  destruct (N.eqb_spec (pr_id p) (rir_id resp)), (N.eqb_spec (pr_read_index p) (rir_read_index resp));
    simpl in Hs; [|simplify_eq; lia..].
  destruct (acks_quorum _) eqn:Eq; simplify_eq; simpl in Hinc; [|lia].
  exists p. unfold acks_quorum in Eq. simpl in *. split_and!; try done. lia.
Qed.

Definition pending_leader : Leader :=
  set_read_state lone_leader 2 (Some (mkPendingReadIndex 1 7 (simple [1; 2; 3]) {[1]})) 0.

Lemma confirmed_read_has_quorum_witness :
  has_quorum (simple [1; 2; 3]) (fun v => bool_decide (v ∈ ({[2]} ∪ {[1]} : gset N))) = true.
Proof.
  destruct (confirmed_read_has_quorum pending_leader 2 (mkReadIndexResponse 1 7)
    (fst (handle_read_index_response pending_leader 2 (mkReadIndexResponse 1 7)))
    (snd (handle_read_index_response pending_leader 2 (mkReadIndexResponse 1 7))))
    as (p & Hp & _ & _ & _ & Hq & _);
    [apply surjective_pairing|vm_compute; reflexivity|].
  injection Hp as <-. exact Hq.
Defined.

(** The committed prefix has non-decreasing terms, none above the current one. *)
Definition committed_terms_sorted (c : Core) : Prop :=
  (forall i j, 1 <= i <= j -> j <= commit_index c -> term_at (log c) i <= term_at (log c) j) /\
  (forall i, 1 <= i <= commit_index c -> term_at (log c) i <= term c).

Lemma scan_current_term_sound lg t idxs i :
  scan_current_term lg t idxs = Some i -> i ∈ idxs /\ term_at lg i = t.
Proof.
  induction idxs as [|x idxs IH]; simpl; [done|].
  destruct (N.eqb_spec (term_at lg x) t); [intros; simplify_eq; split; [left|done]|].
  destruct (_ <? _); [done|]. intros H. destruct (IH H). split; [by right|done].
Qed.

Lemma scan_current_term_none lg t n :
  (forall i j, 1 <= i <= j -> j <= N.of_nat n -> term_at lg i <= term_at lg j) ->
  (forall i, 1 <= i <= N.of_nat n -> term_at lg i <= t) ->
  scan_current_term lg t (reverse (seqN 1 n)) = None ->
  forall i, 1 <= i <= N.of_nat n -> term_at lg i <> t.
Proof.
  induction n as [|n IH]; intros Hm Hle; [lia|]. rewrite seqN_S, reverse_snoc. simpl.
  replace (1 + N.of_nat n) with (N.of_nat (S n)) by lia.
  destruct (N.eqb_spec (term_at lg (N.of_nat (S n))) t); [done|].
  destruct (N.ltb_spec (term_at lg (N.of_nat (S n))) t).
  - intros _ i Hi. pose proof (Hm i (N.of_nat (S n)) ltac:(lia) ltac:(lia)). lia.
  - pose proof (Hle (N.of_nat (S n)) ltac:(lia)). lia.
Qed.

(** The guard of linearizable reads is exact: on a committed prefix with
    sorted terms, the descending scan with its early exit finds a committed entry
    of the current term exactly when there is one, so a read is admitted exactly
    when the leader has committed in its own term and no read is pending. *)
Theorem read_guard_is_exact l c (Hsorted : committed_terms_sorted c) :
  (is_some (current_term_commit_index c) = true <->
   exists i, 1 <= i <= commit_index c /\ term_at (log c) i = term c) /\
  (is_ok (snd (request_read_index l c)) = true <->
   pending_read_index l = None /\
   exists i, 1 <= i <= commit_index c /\ term_at (log c) i = term c).
Proof.
  assert (is_some (current_term_commit_index c) = true <->
    exists i, 1 <= i <= commit_index c /\ term_at (log c) i = term c) as Hg.
  { unfold current_term_commit_index, range_incl. destruct Hsorted as [Hm Hle].
    replace (commit_index c + 1 - 1) with (commit_index c) by lia.
    destruct (scan_current_term _ _ _) as [i|] eqn:E; simpl.
    - split; [|done]. intros _. apply scan_current_term_sound in E as [Hi Ht].
      rewrite elem_of_reverse, elem_of_seqN in Hi. exists i. split; [lia|done].
    - split; [done|]. intros (i & Hi & Ht). exfalso. revert Ht.
      eapply scan_current_term_none; [| |exact E|]; rewrite ?N2Nat.id; eauto. }
  split; [exact Hg|]. rewrite <- Hg. unfold request_read_index.
  destruct (pending_read_index l); [simpl; split; [done|by intros []]|].
  destruct (current_term_commit_index c); simpl; [|split; [done|by intros []]].
  destruct (acks_quorum _); done.
Qed.

Lemma read_guard_is_exact_witness :
  is_ok (snd (request_read_index lone_leader (set_commit_index stocked_core 2))) = true.
Proof.
  apply (read_guard_is_exact lone_leader (set_commit_index stocked_core 2)).
  - assert (forall i, 1 <= i <= 2 -> term_at (log stocked_core) i = 1) as Ht.
    { intros i Hi. assert (i = 1 \/ i = 2) as [-> | ->] by lia; reflexivity. }
    split; simpl; intros; change (log (set_commit_index stocked_core 2)) with (log stocked_core);
      rewrite !Ht by lia; vm_compute; discriminate.
  - split; [reflexivity|]. exists 1. split; [simpl; lia|reflexivity].
Defined.
