(* ===== verification/Node.v ===== *)
(** * Node: the public automaton [RaftNode]

    Models [consensus/basisdb-raft/src/raft/mod.rs]: the role sum type, event
    dispatch with role transitions, and the client-facing operations. *)

From S2P Require Import Prelude.
From S2P Require Import Types.
From S2P Require Import Membership.
From S2P Require Import Log.
From S2P Require Import Event.
From S2P Require Import Core.
From S2P Require Import Follower.
From S2P Require Import PreCandidate.
From S2P Require Import Candidate.
From S2P Require Import Leader.

Inductive RoleState : Type :=
| RFollower (f : Follower)
| RPreCandidate (p : PreCandidate)
| RCandidate (k : Candidate)
| RLeader (l : Leader).

Definition role_is_leader (r : RoleState) : bool :=
  match r with RLeader _ => true | _ => false end.
Definition role_is_candidate (r : RoleState) : bool :=
  match r with RCandidate _ => true | _ => false end.
Definition role_is_precandidate (r : RoleState) : bool :=
  match r with RPreCandidate _ => true | _ => false end.
Definition role_is_follower (r : RoleState) : bool :=
  match r with RFollower _ => true | _ => false end.

Record RaftNode : Type := mkRaftNode {
  core : Core;
  role : RoleState
}.

Definition new (cfg : Config) (vs : list N) : RaftNode :=
  let '(c, f) := Follower.new (Core_new cfg vs) None in
  mkRaftNode c (RFollower f).

Definition restore (cfg : Config) (p : Persistent) : RaftNode :=
  let '(c, f) := Follower.new (Core_restore cfg p) None in
  mkRaftNode c (RFollower f).

Definition node_id (n : RaftNode) : N := Core.id (core n).
Definition node_term (n : RaftNode) : N := term (core n).
Definition is_leader (n : RaftNode) : bool := role_is_leader (role n).
Definition is_follower (n : RaftNode) : bool := role_is_follower (role n).
Definition is_candidate (n : RaftNode) : bool := role_is_candidate (role n).
Definition is_precandidate (n : RaftNode) : bool := role_is_precandidate (role n).

Definition leader (n : RaftNode) : option N :=
  match role n with
  | RLeader _ => Some (Core.id (core n))
  | RFollower f => Follower.leader f
  | RPreCandidate _ | RCandidate _ => None
  end.

Definition node_commit_index (n : RaftNode) : N := commit_index (core n).
Definition node_persistent (n : RaftNode) : Persistent := persistent (core n).

Definition ticks_until_deadline (n : RaftNode) : N :=
  match role n with
  | RFollower f => Follower.ticks_until_deadline f (ticks (core n))
  | RPreCandidate p => PreCandidate.ticks_until_deadline p (ticks (core n))
  | RCandidate k => Candidate.ticks_until_deadline k (ticks (core n))
  | RLeader l => Leader.ticks_until_deadline l (ticks (core n))
  end.

(** ** Transitions *)

(** The part of [apply_transition] shared by [ToPreCandidate] and [ToCandidate]:
    a candidate that already has a quorum becomes leader at once. *)
Definition become_candidate (c : Core) : RaftNode * Effects :=
  let '(c, cand, candidate_effects) := Candidate.new c in
  if Candidate.has_quorum cand c then
    let '(c, l, leader_effects) := Leader.new c in
    (mkRaftNode c (RLeader l), merge candidate_effects leader_effects)
  else (mkRaftNode c (RCandidate cand), candidate_effects).

Definition apply_transition (n : RaftNode) (t : Transition) : RaftNode * Effects :=
  match t with
  | Stay => (n, none)
  | ToFollower ldr =>
      let '(c, f) := Follower.new (core n) ldr in (mkRaftNode c (RFollower f), none)
  | ToFollowerAfterContact ldr =>
      let '(c, f) := after_leader_contact (core n) ldr in (mkRaftNode c (RFollower f), none)
  | ToPreCandidate =>
      let '(c, p, eff) := PreCandidate.new (core n) in
      if PreCandidate.has_quorum p c then
        let '(n', eff') := become_candidate c in (n', merge eff eff')
      else (mkRaftNode c (RPreCandidate p), eff)
  | ToCandidate => become_candidate (core n)
  | ToLeader =>
      let '(c, l, eff) := Leader.new (core n) in (mkRaftNode c (RLeader l), eff)
  end.

Definition step_role (n : RaftNode) (ev : Event) : RaftNode * StepResult :=
  match role n with
  | RFollower f =>
      let '(f, c, r) := Follower.step f (core n) ev in (mkRaftNode c (RFollower f), r)
  | RPreCandidate p =>
      let '(p, c, r) := PreCandidate.step p (core n) ev in (mkRaftNode c (RPreCandidate p), r)
  | RCandidate k =>
      let '(k, c, r) := Candidate.step k (core n) ev in (mkRaftNode c (RCandidate k), r)
  | RLeader l =>
      let '(l, c, r) := Leader.step l (core n) ev in (mkRaftNode c (RLeader l), r)
  end.

Definition step_event (n : RaftNode) (ev : Event) : RaftNode * Effects :=
  let '(n, r) := step_role n ev in
  match transition r with
  | Stay => (n, effects r)
  | t => let '(n, eff) := apply_transition n t in (n, merge (effects r) eff)
  end.

Definition tick (n : RaftNode) : RaftNode * Effects := step_event n Tick.
Definition step (n : RaftNode) (m : Message) : RaftNode * Effects :=
  step_event n (MessageEvent m).
Definition disk_write_complete (n : RaftNode) (index : N) : RaftNode * Effects :=
  step_event n (DiskWriteComplete index).

(** ** Client operations *)

(** Step down to follower when a committed configuration removed this node. *)
Definition maybe_step_down (c : Core) (l : Leader) (should_step_down : bool) : RaftNode :=
  if should_step_down then
    let '(c, f) := Follower.new c None in mkRaftNode c (RFollower f)
  else mkRaftNode c (RLeader l).

(** [propose]; the outer [None] is the failing assertion of
    [proposal_limit_exceeded]. *)
Definition propose (n : RaftNode) (cmd : Command)
  : option (RaftNode * result (N * Effects) ProposeError) :=
  match role n with
  | RLeader l =>
      match proposal_limit_exceeded (core n) cmd with
      | None => None
      | Some true => Some (n, Err Throttled)
      | Some false =>
          let '(l, c, (index, eff, down)) := Leader.propose l (core n) cmd in
          Some (maybe_step_down c l down, Ok (index, eff))
      end
  | _ => Some (n, Err (NotLeader (leader n)))
  end.

Definition request_read_index (n : RaftNode) : RaftNode * result (N * Effects) ReadIndexError :=
  match role n with
  | RLeader l =>
      let '(l, r) := Leader.request_read_index l (core n) in
      (mkRaftNode (core n) (RLeader l), r)
  | _ => (n, Err (ReadNotLeader (leader n)))
  end.

Definition read_index_ready (n : RaftNode) (ri : N) : bool :=
  match role n with
  | RLeader l => Leader.read_index_ready l (core n) ri
  | _ => false
  end.

Definition propose_config_change (n : RaftNode) (change : ConfigChange)
  : RaftNode * result (N * Effects) ConfigChangeError :=
  match role n with
  | RLeader l =>
      let '(l, c, r) := Leader.propose_config_change l (core n) change in
      match r with
      | Err e => (mkRaftNode c (RLeader l), Err e)
      | Ok (index, eff, down) => (maybe_step_down c l down, Ok (index, eff))
      end
  | _ => (n, Err ChangeNotLeader)
  end.

Definition transfer_leadership (n : RaftNode) (target : N) : result Effects TransferError :=
  match role n with
  | RLeader l => Leader.transfer_leadership l (core n) target
  | _ => Err TransferNotLeader
  end.

Definition committed_at (lg : Log) (idx : N) : option CommittedEntry :=
  match get lg idx with
  | Some e =>
      match e_payload e with
      | CommandPayload cmd => Some (mkCommittedEntry (e_index e) (e_term e) cmd)
      | ConfigPayload _ => None
      end
  | None => None
  end.

Definition committed (n : RaftNode) : list CommittedEntry :=
  omap (committed_at (log (core n)))
       (range (last_applied (core n) +u 1) (commit_index (core n) +u 1)).

Definition advance (n : RaftNode) (applied_to : N) : RaftNode :=
  mkRaftNode (set_last_applied (core n) applied_to) (role n).
