(* ===== verification/Store.v ===== *)
(** * Store: durable Raft state as deltas over the write-ahead log

    Models [basisdb-node/src/store.rs].  A save writes the hard state and the
    changed log suffix as one record; recovery replays the records.  The
    write-ahead log is used through the interface [WalOps] with the law
    [WalLaws]; the JSON codec of [PersistentDelta] is third-party code and is a
    pair of functions with the round trip as hypothesis. *)

From S2P Require Import Prelude.
From S2P Require Import Types.
From S2P Require Import Membership.
From S2P Require Import Log.
From S2P Require Import Core.

(** ** Deltas *)

Record PersistentDelta : Type := mkPersistentDelta {
  d_term : N;
  d_voted_for : option N;
  d_bootstrap_config : Configuration;
  d_truncate_after : N;
  d_entries : list Entry
}.

Inductive StoreError : Type :=
| WalFailed
| EncodeFailed
| DecodeFailed
| UnexpectedKind (found : N)
| TermRegression (previous next : N)
| InvalidTruncation (index last_index : N)
| NoncontiguousEntry (expected found : N)
| SnapshotUnsupported.

(** The [while] loop of [common_prefix]; [index] steps of fuel are enough because
    each iteration decrements [index] and the floor is at least 0. *)
Fixpoint back_up (fuel : nat) (durable current : Log) (floor index : N) : N :=
  match fuel with
  | O => index
  | S fuel' =>
      if (floor <? index) && negb (term_at durable index =? term_at current index)
      then back_up fuel' durable current floor (index - 1)
      else index
  end.

Definition common_prefix (durable current : Persistent) : N :=
  let floor := N.max (snapshot_index (p_log durable)) (snapshot_index (p_log current)) in
  let index := N.min (last_index (p_log durable)) (last_index (p_log current)) in
  back_up (N.to_nat index) (p_log durable) (p_log current) floor index.

(** The append loop of [apply_delta]. *)
Fixpoint append_delta_entries (l : Log) (es : list Entry) : result Log StoreError :=
  match es with
  | [] => Ok l
  | e :: es' =>
      let expected := last_index l +u 1 in
      if negb (e_index e =? expected) then Err (NoncontiguousEntry expected (e_index e))
      else append_delta_entries (append l e) es'
  end.

Definition apply_delta (state : Persistent) (delta : PersistentDelta)
  : result Persistent StoreError :=
  if d_term delta <? p_term state then Err (TermRegression (p_term state) (d_term delta))
  else
    let last := last_index (p_log state) in
    if last <? d_truncate_after delta then Err (InvalidTruncation (d_truncate_after delta) last)
    else
      let? l := append_delta_entries (truncate_after (p_log state) (d_truncate_after delta))
                  (d_entries delta) in
      Ok (mkPersistent (d_term delta) (d_voted_for delta) l (d_bootstrap_config delta)).

(** The delta [save] writes. *)
Definition make_delta (durable current : Persistent) : PersistentDelta :=
  let k := common_prefix durable current in
  mkPersistentDelta (p_term current) (voted_for current) (bootstrap_config current) k
    (slice (p_log current) (k +u 1) (last_index (p_log current))).

(** ** The store over a write-ahead log *)

(** What the store uses of [basisdb_wal::Wal]. *)
Class WalOps (W : Type) : Type := mkWalOps {
  wal_append : W -> N -> list Byte.byte -> option W;
  wal_sync : W -> option W;
  wal_records : W -> option (list (N * list Byte.byte))
}.

(** What it relies on: a record appended and synced is read back after the
    earlier ones. *)
Class WalLaws (W : Type) `{WalOps W} : Prop := mkWalLaws {
  wal_append_synced : forall w k p w1 w2 rs,
    wal_append w k p = Some w1 -> wal_sync w1 = Some w2 -> wal_records w = Some rs ->
    wal_records w2 = Some (rs ++ [(k, p)])
}.

Definition RAFT_STATE_KIND : N := 1.

Section WithWal.

Context {W : Type} `{WalOps W}.
Context (encode : PersistentDelta -> option (list Byte.byte)).
Context (decode : list Byte.byte -> option PersistentDelta).

Record RaftStore : Type := mkRaftStore {
  wal : W;
  durable : Persistent
}.

(** The loop of [recover] over the stored records. *)
Fixpoint replay (state : Persistent) (rs : list (N * list Byte.byte))
  : result Persistent StoreError :=
  match rs with
  | [] => Ok state
  | (kind, payload) :: rs' =>
      if negb (kind =? RAFT_STATE_KIND) then Err (UnexpectedKind kind)
      else match decode payload with
           | None => Err DecodeFailed
           | Some delta => let? state := apply_delta state delta in replay state rs'
           end
  end.

(** [RaftStore::open] on an already opened log. *)
Definition open (w : W) (initial : Persistent) : result RaftStore StoreError :=
  match wal_records w with
  | None => Err WalFailed
  | Some rs => let? d := replay initial rs in Ok (mkRaftStore w d)
  end.

(** [RaftStore::save]. *)
Definition save (s : RaftStore) (current : Persistent) : result RaftStore StoreError :=
  if negb (snapshot_index (p_log current) =? snapshot_index (p_log (durable s)))
  then Err SnapshotUnsupported
  else match encode (make_delta (durable s) current) with
       | None => Err EncodeFailed
       | Some bytes =>
           match wal_append (wal s) RAFT_STATE_KIND bytes with
           | None => Err WalFailed
           | Some w1 =>
               match wal_sync w1 with
               | None => Err WalFailed
               | Some w2 => Ok (mkRaftStore w2 current)
               end
           end
       end.

End WithWal.

Arguments RaftStore W : clear implicits.

(** ** The delta of a save reproduces the saved state *)

(** Two logs agree below any index where they hold the same term (the log
    matching property of section 3.5) and share their snapshot. *)
Definition logs_match (l1 l2 : Log) : Prop :=
  (snapshot_index l1 = snapshot_index l2 /\ snapshot_term l1 = snapshot_term l2 /\
   snapshot_config l1 = snapshot_config l2) /\
  forall i e1 e2, get l1 i = Some e1 -> get l2 i = Some e2 -> e_term e1 = e_term e2 ->
    forall j, j <= i -> get l1 j = get l2 j.

(** [c] may be saved over [d]. *)
Definition successor (d c : Persistent) : Prop :=
  log_wf (p_log d) /\ log_wf (p_log c) /\ p_term d <= p_term c /\
  last_index (p_log c) + 1 < two64 /\ logs_match (p_log d) (p_log c).

Lemma back_up_spec fuel d c floor index :
  (N.to_nat index <= fuel)%nat ->
  let k := back_up fuel d c floor index in
  k <= index /\ (floor < k -> term_at d k = term_at c k) /\ (floor <= index -> floor <= k).
Proof.
  revert index. induction fuel as [|fuel IH]; intros index Hf; simpl.
  - split_and!; [lia|lia|lia].
  - destruct (N.ltb_spec floor index); simpl; [|split_and!; lia].
    destruct (N.eqb_spec (term_at d index) (term_at c index)); simpl; [split_and!; lia || done|].
    destruct (IH (index - 1)) as (H1 & H2 & H3); [lia|]. split_and!; [lia|done|]. intros. apply H3. lia.
Qed.

Lemma entries_eq_get l1 l2 :
  log_wf l1 -> log_wf l2 -> snapshot_index l1 = snapshot_index l2 ->
  (forall j, get l1 j = get l2 j) -> entries l1 = entries l2.
Proof.
  intros _ _ Hs Hg. apply list_eq. intros i.
  specialize (Hg (snapshot_index l1 + 1 + N.of_nat i)).
  rewrite !get_alt, <- Hs in Hg. rewrite (proj2 (N.ltb_lt _ _)) in Hg by lia.
  by replace (N.to_nat (snapshot_index l1 + 1 + N.of_nat i - snapshot_index l1 - 1)) with i
    in Hg by lia.
Qed.

Lemma append_delta_entries_ok l es :
  log_wf l -> contiguous (last_index l) es ->
  last_index l + N.of_nat (length es) + 1 < two64 ->
  append_delta_entries l es = Ok (set_entries l (entries l ++ es)).
Proof.
  revert l. induction es as [|e es IH]; intros l Hwf Hc Hb; simpl.
  - rewrite app_nil_r. by destruct l.
  - apply contiguous_cons in Hc as [He Hc]. simpl in Hb.
    rewrite wadd_small, (proj2 (N.eqb_eq _ _)) by lia. simpl.
    rewrite IH.
    + unfold set_entries, append. simpl. by rewrite <- app_assoc.
    + apply append_wf; [done|]. split; [done|]. unfold u64. lia.
    + by rewrite append_last_index, He.
    + rewrite append_last_index. lia.
Qed.

Section Delta.

Context (d c : Persistent) (Hsucc : successor d c).
Let k := common_prefix d c.

Lemma common_prefix_spec :
  k <= last_index (p_log d) /\ k <= last_index (p_log c) /\ snapshot_index (p_log d) <= k /\
  forall j, j <= k -> get (p_log d) j = get (p_log c) j.
Proof.
  destruct Hsucc as (Hd & Hc & _ & _ & (Hs & _ & _) & Hm).
  pose proof (snapshot_le_last _ Hd). pose proof (snapshot_le_last _ Hc).
  destruct (back_up_spec (N.to_nat (N.min (last_index (p_log d)) (last_index (p_log c))))
              (p_log d) (p_log c)
              (N.max (snapshot_index (p_log d)) (snapshot_index (p_log c)))
              (N.min (last_index (p_log d)) (last_index (p_log c)))) as (H1 & H2 & H3); [done|].
  fold (common_prefix d c) in H1, H2, H3. fold k in H1, H2, H3.
  rewrite Hs, N.max_id in *. split_and!; [lia|lia|lia|].
  intros j Hj. destruct (N.lt_ge_cases (snapshot_index (p_log c)) k) as [Hlt|Hge].
  - destruct (proj2 (get_is_Some _ k Hd)) as [e1 E1]; [lia|].
    destruct (proj2 (get_is_Some _ k Hc)) as [e2 E2]; [lia|].
    apply (Hm k e1 e2); [done..| |done].
    rewrite <- (term_at_get _ _ _ E1), <- (term_at_get _ _ _ E2). by apply H2.
  - rewrite !get_None_below by lia. done.
Qed.

(** Replaying the delta of a save on the durable state gives the saved state. *)
Lemma apply_make_delta : apply_delta d (make_delta d c) = Ok c.
Proof.
  destruct common_prefix_spec as (Hkd & Hkc & Hsk & Hag).
  destruct Hsucc as (Hd & Hc & Ht & Hroom & (Hs & Hst & Hsc) & _).
  unfold apply_delta, make_delta. simpl. fold k.
  rewrite (proj2 (N.ltb_ge _ _)), (proj2 (N.ltb_ge _ _)) by lia.
  rewrite (wadd_small k 1) by lia.
  pose proof (truncate_after_wf _ k Hd) as Hwt. pose proof (truncate_after_last_index _ k Hd) as Hlt.
  destruct (truncate_after_snapshot (p_log d) k) as (Hts & Htt & Htc).
  pose proof (slice_contiguous _ (k + 1) (last_index (p_log c)) Hc) as Hcs.
  assert (N.max (k + 1 - 1) (snapshot_index (p_log c)) = k) as Hk by lia. rewrite Hk in Hcs.
  assert (last_index (truncate_after (p_log d) k) = k) as Hlk by (rewrite Hlt; lia).
  pose proof (slice_length _ k Hc ltac:(lia)) as Hlen.
  rewrite append_delta_entries_ok; [|done|by rewrite Hlk|rewrite Hlk; lia].
  assert (entries (truncate_after (p_log d) k) = entries (truncate_after (p_log c) k)) as ->.
  { destruct (truncate_after_snapshot (p_log c) k) as (Hcs' & _).
    apply entries_eq_get; [done|by apply truncate_after_wf|congruence|].
    intros j. rewrite !truncate_after_get. destruct (N.leb_spec j k); [auto|done]. }
  rewrite truncate_slice_entries by (done || lia).
  destruct c as [? ? lc ?], (truncate_after (p_log d) k), lc.
  unfold set_entries. simpl in *. congruence.
Qed.

End Delta.

(** ** Recovery *)

Lemma replay_app decode st rs1 rs2 :
  replay decode st (rs1 ++ rs2) =
  let? st' := replay decode st rs1 in replay decode st' rs2.
Proof.
  revert st. induction rs1 as [|[kind p] rs1 IH]; intros st; simpl; [done|].
  destruct (negb _); [done|]. destruct (decode p); [|done].
  destruct (apply_delta st _); [apply IH|done].
Qed.

Section Recovery.

Context {W : Type} `{WalLaws W}.
Context (encode : PersistentDelta -> option (list Byte.byte)).
Context (decode : list Byte.byte -> option PersistentDelta).

(** A sequence of saves that all succeed. *)
Fixpoint save_all (s : RaftStore W) (cs : list Persistent) : result (RaftStore W) StoreError :=
  match cs with
  | [] => Ok s
  | c :: cs' => let? s' := save encode s c in save_all s' cs'
  end.

(** Each saved state may follow the one saved before it. *)
Fixpoint successors (d : Persistent) (cs : list Persistent) : Prop :=
  match cs with
  | [] => True
  | c :: cs' => successor d c /\ successors c cs'
  end.

Context (Hcodec : forall d bytes, encode d = Some bytes -> decode bytes = Some d).

Lemma save_open s c s' initial :
  open decode (wal s) initial = Ok s -> successor (durable s) c -> save encode s c = Ok s' ->
  open decode (wal s') initial = Ok s' /\ durable s' = c.
Proof.
  unfold open, save. destruct (wal_records (wal s)) as [rs|] eqn:Er; [|done].
  destruct (replay decode initial rs) as [d|] eqn:Ep; [|done]. intros Hop Hsucc Hs.
  assert (durable s = d) as Hd by (destruct s; by simplify_eq/=).
  case_match; [done|]. destruct (encode _) as [bytes|] eqn:Ee; [|done].
  destruct (wal_append _ _ _) as [w1|] eqn:Ea; [|done].
  destruct (wal_sync w1) as [w2|] eqn:Ew; [|done]. simplify_eq/=.
  rewrite (wal_append_synced _ _ _ _ _ _ Ea Ew Er), replay_app, Ep. simpl.
  rewrite (Hcodec _ _ Ee), (apply_make_delta _ _ Hsucc). done.
Qed.

Lemma save_all_open s cs s' initial :
  open decode (wal s) initial = Ok s -> successors (durable s) cs -> save_all s cs = Ok s' ->
  open decode (wal s') initial = Ok s' /\ durable s' = default (durable s) (last cs).
Proof.
  revert s. induction cs as [|c cs IH]; intros s Hopen Hsucc Hsave.
  - simpl in *. by simplify_eq.
  - simpl in Hsucc, Hsave. destruct Hsucc as [Hc Hsucc].
    destruct (save encode s c) as [s1|] eqn:Es; [|done].
    destruct (save_open _ _ _ _ Hopen Hc Es) as [Ho Hd].
    destruct (IH s1 Ho) as [Ho' Hd']; [by rewrite Hd|done|]. split; [done|].
    rewrite Hd', last_cons, Hd. by destruct (last cs).
Qed.

End Recovery.

(** C21. Recovery returns exactly the last saved state: from any store whose log
    replays to its durable state, after any sequence of successful saves, each of
    a state whose log matches the previous one, reopening the write-ahead log
    gives back the state of the last save. *)
Theorem recovery_returns_last_save {W : Type} `{HL : WalLaws W} encode decode
    (Hcodec : forall d bytes, encode d = Some bytes -> decode bytes = Some d)
    (s s' : RaftStore W) cs initial
    (Hopen : open decode (wal s) initial = Ok s)
    (Hsucc : successors (durable s) cs)
    (Hsave : save_all encode s cs = Ok s') :
  open decode (wal s') initial = Ok s' /\ durable s' = default (durable s) (last cs).
Proof.
  by apply (save_all_open encode).
Qed.

(** An in-memory log, and a codec for the one delta of the witness. *)
#[local] Instance list_wal_ops : WalOps (list (N * list Byte.byte)) :=
  mkWalOps _ (fun w k p => Some (w ++ [(k, p)])) Some Some.

#[local] Instance list_wal_laws : WalLaws (list (N * list Byte.byte)).
Proof. constructor. simpl. intros. by simplify_eq. Qed.

Definition demo_initial : Persistent := mkPersistent 0 None Log_default (simple [1; 2; 3]).
Definition demo_state : Persistent :=
  mkPersistent 1 (Some 2) (mkLog [mkEntry 1 1 (CommandPayload [Byte.x61])] 0 0 None)
    (simple [1; 2; 3]).
Definition demo_delta : PersistentDelta := make_delta demo_initial demo_state.

#[global] Instance PersistentDelta_eq_dec : EqDecision PersistentDelta.
Proof. solve_decision. Defined.

Definition demo_encode (d : PersistentDelta) : option (list Byte.byte) :=
  if decide (d = demo_delta) then Some [Byte.x7b] else None.
Definition demo_decode (bs : list Byte.byte) : option PersistentDelta :=
  if decide (bs = [Byte.x7b]) then Some demo_delta else None.

Lemma demo_codec d bytes : demo_encode d = Some bytes -> demo_decode bytes = Some d.
Proof. unfold demo_encode, demo_decode. case_decide; [|done]. intros. by simplify_eq. Qed.

Lemma demo_successors : successors demo_initial [demo_state].
Proof.
  split; [|exact I]. split_and!; [apply log_wf_default| |vm_compute; discriminate|reflexivity|].
  - split; [|reflexivity]. apply contiguous_singleton. reflexivity.
  - split; [split_and!; reflexivity|]. intros i e1 e2 H1. rewrite get_alt in H1.
    simpl in H1. rewrite lookup_nil in H1. by destruct (0 <? i).
Qed.

Lemma recovery_returns_last_save_witness :
  exists s', open (W := list (N * list Byte.byte)) demo_decode (wal s') demo_initial = Ok s' /\
             durable s' = demo_state.
Proof.
  destruct (save_all demo_encode (mkRaftStore (W := list (N * list Byte.byte)) [] demo_initial)
              [demo_state]) as [s'|e] eqn:Es.
  - exists s'. apply (recovery_returns_last_save demo_encode demo_decode demo_codec) with
      (s := mkRaftStore (W := list (N * list Byte.byte)) [] demo_initial) (cs := [demo_state]).
    + reflexivity.
    + exact demo_successors.
    + exact Es.
  - vm_compute in Es. discriminate.
Defined.
