(* ===== verification/DurableStore.v ===== *)
(** * DurableStore: the Raft store on the real write-ahead log

    Discharges the interface [Store.WalLaws] with the log of [Wal], and composes the
    two: a Raft state that was saved survives a crash.  The operating system's faults come
    from a list, one per operation. *)

From S2P Require Import Prelude.
From S2P Require Import Types.
From S2P Require Import Membership.
From S2P Require Import Log.
From S2P Require Import Core.
From S2P Require Import WalFormat.
From S2P Require Import Segment.
From S2P Require Import Wal.
From S2P Require Import Store.

Section Device.

Context {Crc : Crc32} {HCrc : Crc32Laws}.

(** An open log in step with its directory, and the faults to come. *)
Record Device : Type := mkDevice {
  dev_wal : Wal;
  dev_faults : list Faults;
  dev_ok : exists s p, wal_repr dev_wal s p
}.

Definition next_fault (fs : list Faults) : Faults * list Faults :=
  match fs with [] => (no_faults, []) | f :: fs' => (f, fs') end.

Lemma append_keeps w k pl f w' lsn :
  (exists s p, wal_repr w s p) -> 1 <= k < 65536 -> Wal.append w k pl f = (w', Ok lsn) ->
  exists s p, wal_repr w' s p.
Proof.
  intros (s & p & Hw) Hk Ha. destruct (append_spec _ _ _ _ _ _ _ _ Hw Hk Ha) as (s' & p' & Hr).
  destruct Hr as (_ & _ & _ & _ & Hw' & _). by exists s', p'.
Qed.

Lemma sync_keeps w ok w' u :
  (exists s p, wal_repr w s p) -> sync w ok = (w', Ok u) -> exists s p, wal_repr w' s p.
Proof.
  intros (s & p & Hw) Hs. destruct (sync_spec _ _ _ _ _ _ Hw Hs) as [[Hw' _] _]. by exists (s ++ p), [].
Qed.

Definition device_append (d : Device) (k : N) (pl : bytes) : option Device :=
  let '(f, fs) := next_fault (dev_faults d) in
  match decide (1 <= k < 65536) with
  | right _ => None
  | left Hk =>
      match Wal.append (dev_wal d) k pl f as r return Wal.append (dev_wal d) k pl f = r -> option Device with
      | (w, Ok _) => fun E => Some (mkDevice w fs (append_keeps _ _ _ _ _ _ (dev_ok d) Hk E))
      | (_, Err _) => fun _ => None
      end eq_refl
  end.

Definition device_sync (d : Device) : option Device :=
  let '(f, fs) := next_fault (dev_faults d) in
  match sync (dev_wal d) (sync_ok f) as r return sync (dev_wal d) (sync_ok f) = r -> option Device with
  | (w, Ok _) => fun E => Some (mkDevice w fs (sync_keeps _ _ _ _ (dev_ok d) E))
  | (_, Err _) => fun _ => None
  end eq_refl.

Definition contents (xs : list StoredRecord) : list (N * bytes) :=
  (fun x => (kind (sr_record x), payload (sr_record x))) <$> xs.

Definition device_records (d : Device) : option (list (N * bytes)) :=
  match all_records (dev_wal d) with
  | Ok xs => Some (contents xs)
  | Err _ => None
  end.

#[export] Instance device_ops : WalOps Device :=
  mkWalOps Device device_append device_sync device_records.

Lemma device_append_Some d k pl d1 : device_append d k pl = Some d1 ->
  1 <= k < 65536 /\ exists f lsn, Wal.append (dev_wal d) k pl f = (dev_wal d1, Ok lsn).
Proof.
  unfold device_append. destruct (next_fault (dev_faults d)) as [f fs].
  destruct (decide (1 <= k < 65536)) as [Hk|]; [|done]. intros H. split; [done|]. exists f. revert H.
  assert (forall r (E : Wal.append (dev_wal d) k pl f = r),
    match r as r return Wal.append (dev_wal d) k pl f = r -> option Device with
    | (w, Ok _) => fun E => Some (mkDevice w fs (append_keeps _ _ _ _ _ _ (dev_ok d) Hk E))
    | (_, Err _) => fun _ => None
    end E = Some d1 -> exists lsn, r = (dev_wal d1, Ok lsn)) as H.
  { intros [w [lsn|e]] E; [|done]. intros. simplify_eq/=. by exists lsn. }
  apply (H _ eq_refl).
Qed.

Lemma device_sync_Some d d1 : device_sync d = Some d1 ->
  exists ok, sync (dev_wal d) ok = (dev_wal d1, Ok tt).
Proof.
  unfold device_sync. destruct (next_fault (dev_faults d)) as [f fs]. intros H. exists (sync_ok f).
  revert H.
  assert (forall r (E : sync (dev_wal d) (sync_ok f) = r),
    match r as r return sync (dev_wal d) (sync_ok f) = r -> option Device with
    | (w, Ok _) => fun E => Some (mkDevice w fs (sync_keeps _ _ _ _ (dev_ok d) E))
    | (_, Err _) => fun _ => None
    end E = Some d1 -> r = (dev_wal d1, Ok tt)) as H.
  { intros [w [[]|e]] E; [|done]. intros. by simplify_eq/=. }
  apply (H _ eq_refl).
Qed.

(** Only a healthy handle lists its records. *)
Lemma device_records_Some d s p rs : wal_repr (dev_wal d) s p -> device_records d = Some rs ->
  poisoned (dev_wal d) = false /\ rs = contents (s ++ p).
Proof.
  intros Hw. unfold device_records. destruct (poisoned (dev_wal d)) eqn:Hp.
  - unfold all_records, records, ensure_healthy. by rewrite Hp.
  - rewrite (all_records_spec _ _ _ Hw Hp). intros. by simplify_eq.
Qed.

(** The log implements the interface the store relies on. *)
#[export] Instance device_laws : WalLaws Device.
Proof.
  constructor. intros d k pl d1 d2 rs Ha Hs Hr.
  destruct (device_append_Some _ _ _ _ Ha) as (Hk & f & lsn & Ha').
  destruct (device_sync_Some _ _ Hs) as (ok & Hs').
  destruct (dev_ok d) as (s & p & Hw). destruct (device_records_Some _ _ _ _ Hw Hr) as [Hp ->].
  destruct (append_spec _ _ _ _ _ _ _ _ Hw Hk Ha') as (s1 & p1 & _ & _ & _ & _ & Hw1 & Hp1 & Hsp & _).
  destruct (sync_spec _ _ _ _ _ _ Hw1 Hs') as [(Hw2 & Hp2 & _) _].
  simpl. unfold device_records. rewrite (all_records_spec _ _ _ Hw2 Hp2), app_nil_r, Hsp.
  unfold contents. by rewrite app_assoc, fmap_app.
Qed.

(** After a save every record of the log is on stable storage. *)
Lemma save_is_synced encode (s s' : RaftStore Device) c :
  save encode s c = Ok s' ->
  exists xs, wal_repr (dev_wal (wal s')) xs [] /\ poisoned (dev_wal (wal s')) = false /\
             options (dev_wal (wal s')) = options (dev_wal (wal s)).
Proof.
  unfold save. case_match; [done|]. destruct (encode _) as [bs|]; [|done].
  destruct (wal_append _ _ _) as [d1|] eqn:Ea; [|done].
  destruct (wal_sync d1) as [d2|] eqn:Es; [|done]. intros. simplify_eq/=.
  destruct (device_append_Some _ _ _ _ Ea) as (Hk & f & lsn & Ha').
  destruct (device_sync_Some _ _ Es) as (ok & Hs'). destruct (dev_ok (wal s)) as (x & p & Hw).
  destruct (append_spec _ _ _ _ _ _ _ _ Hw Hk Ha') as (s1 & p1 & _ & Ho1 & _ & _ & Hw1 & _).
  destruct (sync_spec _ _ _ _ _ _ Hw1 Hs') as [(Hw2 & Hp2 & _) Ho2].
  exists (s1 ++ p1). split_and!; [done|done|congruence].
Qed.

Lemma save_all_is_synced encode (s s' : RaftStore Device) cs :
  save_all encode s cs = Ok s' -> cs <> [] ->
  exists xs, wal_repr (dev_wal (wal s')) xs [] /\ poisoned (dev_wal (wal s')) = false /\
             options (dev_wal (wal s')) = options (dev_wal (wal s)).
Proof.
  revert s. induction cs as [|c cs IH]; intros s Hs Hne; [done|]. simpl in Hs.
  destruct (save encode s c) as [s1|] eqn:E; [|done].
  destruct (save_is_synced _ _ _ _ E) as (xs & Hw & Hp & Ho). destruct cs as [|c' cs].
  - simpl in Hs. simplify_eq. by exists xs.
  - destruct (IH s1 Hs) as (ys & ? & ? & ?); [done|]. exists ys. split_and!; [done|done|congruence].
Qed.

(** The log after a crash of a fully synced one: the same records. *)
Lemma reopen_synced w xs d :
  wal_repr w xs [] -> crashed (dir w) d ->
  exists d2 w2, Wal.open d false (options w) no_faults = (d2, Ok w2) /\
    wal_repr w2 xs [] /\ poisoned w2 = false.
Proof.
  intros Hw Hc. pose proof Hw as (_ & _ & _ & _ & _ & _ & _ & _ & _ & _ & _ & Hopt & Hmax).
  destruct (crash_spec _ _ _ _ _ (wal_repr_disk _ _ _ Hw) Hc) as (k & Hd & Hlk).
  rewrite take_nil, app_nil_r in Hd. rewrite app_nil_r in Hmax.
  destruct (Wal.open d false (options w) no_faults) as [d2 r] eqn:E.
  destruct (open_spec (options w) d xs [] no_faults d2 r) as [_ Hr]; [done..|by rewrite app_nil_r|done|].
  destruct r as [w2|]; [|done]. destruct Hr as (Hw2 & Hp2 & _). by exists d2, w2.
Qed.

End Device.

(** C22. A saved Raft state survives a crash: on the write-ahead log, after any sequence of
    successful saves, whatever operations failed before and whatever a crash does to the
    unsynced bytes of the files, the log reopens and replaying it gives back exactly the
    term, vote and log entries of the last save. *)
Theorem saved_state_survives_crash {Crc : Crc32} {HCrc : Crc32Laws} encode decode
    (Hcodec : forall d bs, encode d = Some bs -> decode bs = Some d)
    (s s' : RaftStore Device) cs c initial d
    (Hopen : Store.open decode (wal s) initial = Ok s)
    (Hsucc : successors (durable s) (cs ++ [c]))
    (Hsave : save_all encode s (cs ++ [c]) = Ok s')
    (Hcrash : crashed (dir (dev_wal (wal s'))) d) :
  exists d2 w2, Wal.open d false (options (dev_wal (wal s'))) no_faults = (d2, Ok w2) /\
    forall dev, dev_wal dev = w2 ->
      exists s2, Store.open decode dev initial = Ok s2 /\ durable s2 = c.
Proof.
  destruct (save_all_open encode decode Hcodec s (cs ++ [c]) s' initial) as [Ho Hd]; [done..|].
  rewrite last_snoc in Hd. simpl in Hd.
  destruct (save_all_is_synced _ _ _ _ Hsave) as (xs & Hw & Hp & _); [by destruct cs|].
  destruct (reopen_synced _ _ _ Hw Hcrash) as (d2 & w2 & E & Hw2 & Hp2). exists d2, w2.
  split; [done|]. intros dev <-. unfold Store.open in *. simpl in *. unfold device_records in *.
  rewrite (all_records_spec _ _ _ Hw Hp) in Ho. rewrite (all_records_spec _ _ _ Hw2 Hp2).
  destruct (replay decode initial (contents (xs ++ []))) as [st|]; [|done].
  eexists. split; [done|]. destruct s'. by simplify_eq/=.
Qed.

Lemma default_options_ok : options_ok WalOptions_default.
Proof. split; split; (reflexivity || (vm_compute; discriminate)). Qed.

Lemma fresh_device_ok : exists s p, wal_repr (fresh_wal WalOptions_default) s p.
Proof. exists [], []. apply fresh_wal_repr, default_options_ok. Qed.

Definition demo_store : RaftStore Device :=
  mkRaftStore (mkDevice (fresh_wal WalOptions_default) [] fresh_device_ok) demo_initial.

Lemma demo_opens : Store.open demo_decode (wal demo_store) demo_initial = Ok demo_store.
Proof.
  destruct (fresh_wal_repr _ default_options_ok) as (Hw & Hp & _).
  unfold Store.open, demo_store. cbn [wal wal_records device_ops]. unfold device_records.
  cbn [dev_wal]. by rewrite (all_records_spec _ _ _ Hw Hp).
Qed.

(** The directory after the save of the example. *)
Definition saved_dir : Dir :=
  match save_all demo_encode demo_store [demo_state] with
  | Ok s => dir (dev_wal (wal s))
  | Err _ => ∅
  end.

Lemma saved_state_survives_crash_witness :
  exists d2 w2, Wal.open (lose_unsynced saved_dir) false WalOptions_default no_faults = (d2, Ok w2) /\
    forall dev, dev_wal dev = w2 ->
      exists s2, Store.open demo_decode dev demo_initial = Ok s2 /\ durable s2 = demo_state.
Proof.
  assert (map_Forall (fun _ f => (stable f <= length (data f))%nat) saved_dir) as Hst
    by (apply (bool_decide_unpack _); vm_compute; exact I).
  unfold saved_dir in *. destruct (save_all demo_encode demo_store [demo_state]) as [s'|e] eqn:E.
  2:{ apply (f_equal is_ok) in E. vm_compute in E. discriminate E. }
  destruct (save_all_is_synced _ _ _ _ E) as (_ & _ & _ & Ho); [discriminate|].
  destruct (saved_state_survives_crash demo_encode demo_decode demo_codec demo_store s' [] demo_state
    demo_initial (lose_unsynced (dir (dev_wal (wal s'))))) as (d2 & w2 & H1 & H2).
  - apply demo_opens.
  - exact demo_successors.
  - exact E.
  - apply lose_unsynced_crashed, Hst.
  - rewrite Ho in H1. exists d2, w2. split; [|exact H2].
    replace (options (dev_wal (wal demo_store))) with WalOptions_default in H1; [exact H1|].
    symmetry. apply fresh_wal_repr, default_options_ok.
Defined.
