(* ===== verification/HardState.v ===== *)
(** * HardState: term and vote discipline of every handler

    The hard state of section 3.8 is the pair of current term and vote.  This
    file shows, handler by handler for the roles of [follower.rs],
    [precandidate.rs], [candidate.rs] and [leader.rs] and then for the whole
    automaton of [mod.rs], that the term never decreases, that a vote cast in a
    term is never changed in that term, that a change of the hard state is
    always announced by [Effects::persist], and that a granted vote response
    only leaves a node whose hard state records the vote. *)

From S2P Require Import Prelude.
From S2P Require Import Types.
From S2P Require Import Membership.
From S2P Require Import Log.
From S2P Require Import Event.
From S2P Require Import Core.
From S2P Require Import Follower.
From S2P Require Import PreCandidate.
From S2P Require Import Candidate.
From S2P Require Import Leader.
From S2P Require Import Node.

(** ** The hard state and its order *)

Definition vote (c : Core) : option N := voted_for (persistent c).
Definition hard_state (c : Core) : N * option N := (term c, vote c).

(** [c'] may follow [c]: the term does not decrease and a vote stays. *)
Definition hs_le (c c' : Core) : Prop :=
  term c <= term c' /\ (term c' = term c -> vote c = None \/ vote c' = vote c).

(** What no handler changes: the static configuration and the bootstrap set. *)
Definition same_identity (c c' : Core) : Prop :=
  config c' = config c /\ bootstrap_config (persistent c') = bootstrap_config (persistent c).

#[global] Instance same_identity_preorder : PreOrder same_identity.
Proof. unfold same_identity. split; [done|]. intros ? ? ? [] []. split; congruence. Qed.

#[global] Instance hs_le_preorder : PreOrder hs_le.
Proof.
  unfold hs_le. split.
  - split; [lia|by right].
  - intros x y z [H1 H2] [H3 H4]. split; [lia|]. intros Heq.
    destruct H2 as [->|H2]; [lia|by left|]. destruct H4 as [H4|H4]; [lia|left; congruence|].
    right. congruence.
Qed.

Lemma hs_eq_le c c' : hard_state c' = hard_state c -> hs_le c c'.
Proof. unfold hard_state, hs_le. intros [=]. split; [lia|by right]. Qed.

Lemma id_same c c' : same_identity c c' -> id c' = id c.
Proof. unfold same_identity, id. by intros [-> _]. Qed.

(** A message that grants a vote. *)
Definition granted (m : Message) : bool :=
  match msg_payload m with VoteResp r => vresp_granted r | _ => false end.

(** A message that asks for a vote. *)
Definition solicits (m : Message) : bool :=
  match msg_payload m with VoteReq _ => true | _ => false end.

(** Messages of a handler all name their sender, and none grants a vote or asks for
    one. *)
Definition plain_sends (c : Core) (e : Effects) : Prop :=
  forall m, m ∈ messages e -> msg_from m = id c /\ granted m = false /\ solicits m = false.

(** Messages of a campaign that ends in [c']: a request for a vote is made in the
    term of [c'], and a voter has voted for itself by then. *)
Definition campaign_sends (c c' : Core) (e : Effects) : Prop :=
  forall m, m ∈ messages e -> msg_from m = id c /\ granted m = false /\
    (solicits m = true -> persist e = true /\ msg_term m = term c' /\
       (is_voter c' = true -> vote c' = Some (id c'))).

(** The contract of a role handler that goes from [c] to [c']. *)
Record step_ok (c c' : Core) (r : StepResult) : Prop := mkStepOk {
  so_identity : same_identity c c';
  so_hs : hs_le c c';
  so_persist : persist (effects r) = false -> hard_state c' = hard_state c;
  so_from : forall m, m ∈ messages (effects r) -> msg_from m = id c;
  so_granted : forall m, m ∈ messages (effects r) -> granted m = true ->
     transition r = Stay /\ msg_term m = term c' /\ vote c' = Some (msg_to m);
  so_solicits : forall m, m ∈ messages (effects r) -> solicits m = false;
  so_electoral : forall m, m ∈ messages (effects r) -> granted m = true -> persist (effects r) = true
}.

(** ** Building step contracts *)

Lemma plain_none c : plain_sends c none.
Proof. intros m Hm. inversion Hm. Qed.

Lemma plain_merge c e1 e2 : plain_sends c e1 -> plain_sends c e2 -> plain_sends c (merge e1 e2).
Proof. intros H1 H2 m [Hm|Hm]%elem_of_merge_messages; auto. Qed.

Lemma plain_persist c e : plain_sends c e -> plain_sends c (with_persist e).
Proof. done. Qed.

Lemma plain_one c e to t p :
  plain_sends c e -> granted (mkMessage (id c) to t p) = false ->
  solicits (mkMessage (id c) to t p) = false ->
  plain_sends c (with_message e (mkMessage (id c) to t p)).
Proof. intros He Hg Hs m [Hm| ->%list_elem_of_singleton]%elem_of_app; auto. Qed.

Lemma plain_many c e (f : N -> Message) ids :
  plain_sends c e -> (forall x, msg_from (f x) = id c /\ granted (f x) = false /\ solicits (f x) = false) ->
  plain_sends c (with_messages e (f <$> ids)).
Proof.
  intros He Hf m [Hm|Hm]%elem_of_app; [by apply He|].
  apply list_elem_of_fmap in Hm as (x & -> & _). apply Hf.
Qed.

Lemma plain_send_snapshot c e s : plain_sends c e -> plain_sends c (with_send_snapshot e s).
Proof. done. Qed.

Lemma plain_core c c' e : id c = id c' -> plain_sends c e -> plain_sends c' e.
Proof. unfold plain_sends. intros Heq H m Hm. rewrite <- Heq. by apply H. Qed.

Lemma plain_campaign c c' e : plain_sends c e -> campaign_sends c c' e.
Proof. intros Hp m Hm. destruct (Hp m Hm) as (? & ? & ?). split_and!; [done..|congruence]. Qed.

Lemma campaign_merge c c' e1 e2 :
  campaign_sends c c' e1 -> campaign_sends c c' e2 -> campaign_sends c c' (merge e1 e2).
Proof.
  intros H1 H2 m [Hm|Hm]%elem_of_merge_messages; [destruct (H1 m Hm) as (? & ? & Hs)|
    destruct (H2 m Hm) as (? & ? & Hs)]; (split_and!; [done..|]);
    intros (Hp & ? & ?)%Hs; simpl; rewrite Hp, ?orb_true_r; done.
Qed.

#[export] Hint Resolve plain_none plain_merge plain_persist plain_send_snapshot plain_one
  plain_many : basis.

(** A handler that keeps the hard state and sends plain messages. *)
Lemma step_ok_quiet c c' r :
  same_identity c c' -> hard_state c' = hard_state c -> plain_sends c (effects r) ->
  step_ok c c' r.
Proof.
  intros Hid Hhs Hp. split; [done|by apply hs_eq_le|done|..].
  - intros m Hm. by apply Hp.
  - intros m Hm Hg. destruct (Hp m Hm) as (_ & Hn & _). congruence.
  - intros m Hm. by apply Hp.
  - intros m Hm Hg. destruct (Hp m Hm) as (_ & Hn & _). congruence.
Qed.

(** Close a handler branch that keeps the hard state. *)
Ltac quiet := intros; simplify_eq; apply step_ok_quiet; [done|done|simpl; auto with basis].

(** A handler that adopts a higher term and announces it. *)
Lemma step_ok_adopt c t r :
  term c < t -> persist (effects r) = true -> plain_sends c (effects r) ->
  step_ok c (set_vote c t None) r.
Proof.
  intros Ht Hpe Hp. split; [done|split; simpl; unfold term; simpl; [unfold term in Ht; lia|]|..].
  - unfold term in Ht. simpl. lia.
  - congruence.
  - intros m Hm. by apply Hp.
  - intros m Hm Hg. destruct (Hp m Hm) as (_ & Hn & _). congruence.
  - intros m Hm. by apply Hp.
  - intros m Hm Hg. destruct (Hp m Hm) as (_ & Hn & _). congruence.
Qed.

Lemma maybe_update_term_alt c t :
  term c < t -> maybe_update_term c t = (set_vote c t None, true).
Proof. intros H. unfold maybe_update_term. by rewrite (proj2 (N.ltb_lt _ _)). Qed.

(** Drawing a timeout leaves everything but the generator alone. *)
Lemma reset_deadline_core f c f' c' :
  reset_deadline f c = (f', c') ->
  c' = set_rng c (xorshift64 (rng c)).
Proof.
  unfold reset_deadline. pose proof (random_election_timeout_core c) as H.
  destruct (random_election_timeout c). simpl in H. intros. by simplify_eq.
Qed.

(** ** Follower *)

Lemma follower_vote_request_ok f c from req f' c' r :
  Follower.handle_vote_request f c from req = (f', c', r) -> step_ok c c' r.
Proof.
  unfold Follower.handle_vote_request.
  destruct (_ && can_vote_for c from && _) eqn:Eg; intros Hs.
  - destruct (reset_deadline f (vote_for c from)) as [f1 c1] eqn:Er.
    apply reset_deadline_core in Er. simplify_eq/=. unbool.
    assert (vote c = None \/ vote c = Some from) as Hv.
    { match goal with H : can_vote_for c from = true |- _ => revert H end.
      unfold can_vote_for, vote. case_match; [|by left]. intros; unbool. subst. by right. }
    split; simpl; [done| |done|..].
    + split; [apply N.le_refl|]. intros _. destruct Hv; [by left|by right].
    + by intros m ->%list_elem_of_singleton.
    + by intros m ->%list_elem_of_singleton.
    + by intros m ->%list_elem_of_singleton.
    + done.
  - simplify_eq/=. apply step_ok_quiet; [done..|]. simpl. auto with basis.
Qed.

Lemma append_entries_set_log f c from req f' c' r :
  Follower.handle_append_request f c from req = (f', c', r) -> step_ok c c' r.
Proof.
  unfold Follower.handle_append_request. destruct (reset_deadline _ c) as [f1 c1] eqn:Er.
  apply reset_deadline_core in Er. subst c1. intros Hs.
  destruct (negb _).
  - simplify_eq/=. apply step_ok_quiet; [done..|]. by intros m ->%list_elem_of_singleton.
  - destruct (append_entries _ _) as [l p]. simplify_eq/=.
    apply step_ok_quiet; [by case_match|by case_match|].
    simpl. unfold append_response. intros m Hm. destruct p; simpl in Hm;
      apply list_elem_of_singleton in Hm as ->; simpl; by case_match.
Qed.

Lemma follower_read_index_ok f c from req f' c' r :
  Follower.handle_read_index_request f c from req = (f', c', r) -> step_ok c c' r.
Proof.
  unfold Follower.handle_read_index_request. destruct (reset_deadline _ c) as [f1 c1] eqn:Er.
  apply reset_deadline_core in Er. intros. simplify_eq/=.
  apply step_ok_quiet; [done..|]. by intros m ->%list_elem_of_singleton.
Qed.

Lemma follower_install_snapshot_ok f c from req f' c' r :
  Follower.handle_install_snapshot f c from req = (f', c', r) -> step_ok c c' r.
Proof.
  unfold Follower.handle_install_snapshot. destruct (reset_deadline _ c) as [f1 c1] eqn:Er.
  apply reset_deadline_core in Er. subst c1. intros Hs.
  repeat case_match; simplify_eq/=; apply step_ok_quiet; try done;
    intros m ->%list_elem_of_singleton; done.
Qed.

Lemma follower_dispatch_ok f c msg f' c' r :
  Follower.dispatch f c msg = (f', c', r) -> step_ok c c' r.
Proof.
  unfold Follower.dispatch. destruct (msg_payload msg);
    eauto using follower_vote_request_ok, append_entries_set_log, follower_read_index_ok,
      follower_install_snapshot_ok;
    quiet.
Qed.

Lemma reject_stale_plain c msg : plain_sends c (Follower.reject_stale c msg).
Proof. unfold Follower.reject_stale. case_match; auto with basis. Qed.
#[export] Hint Resolve reject_stale_plain : basis.

(** The term prologue either leaves the core alone or adopts the term. *)
Lemma adopt_term_cases f c msg f' c' b :
  adopt_term f c msg = (f', c', b) ->
  (b = false /\ c' = c /\ msg_term msg <= term c) \/
  (b = true /\ term c < msg_term msg /\
   exists r, c' = set_rng (set_vote c (msg_term msg) None) r).
Proof.
  unfold adopt_term. destruct (N.ltb_spec (term c) (msg_term msg)) as [Hlt|Hge].
  - rewrite maybe_update_term_alt by done. destruct (reset_deadline _ _) as [f1 c1] eqn:Er.
    apply reset_deadline_core in Er. intros. simplify_eq. right. eauto.
  - intros. simplify_eq. by left.
Qed.

(** Composing the prologue with the dispatch. *)
Lemma step_ok_after_adopt c c1 c' r rr :
  term c < term c1 -> same_identity c c1 -> step_ok c1 c' r ->
  transition rr = transition r -> effects rr = with_persist (effects r) ->
  step_ok c c' rr.
Proof.
  intros Hlt Hid [Hi [Ht _] Hp Hf Hg Hso Hel] Htr He. split.
  - by etrans.
  - split; [lia|]. lia.
  - by rewrite He.
  - rewrite He. simpl. intros m Hm. rewrite (Hf m Hm). by apply id_same.
  - rewrite He, Htr. simpl. auto.
  - rewrite He. exact Hso.
  - by rewrite He.
Qed.

Lemma follower_message_ok f c msg f' c' r :
  Follower.step_message f c msg = (f', c', r) -> step_ok c c' r.
Proof.
  unfold Follower.step_message. destruct (_ && _).
  { intros. simplify_eq. apply step_ok_quiet; [done..|]. simpl.
    unfold Follower.reject_due_to_active_leader. case_match; auto with basis. }
  intros Hs.
  assert (forall f' c' r, (let '(f, c, term_updated) := adopt_term f c msg in
        if msg_term msg <? term c then (f, c, stay (Follower.reject_stale c msg))
        else
          let '(f, c, r) := Follower.dispatch f c msg in
          (f, c, mkStepResult (transition r)
                   (if term_updated : bool then with_persist (effects r) else effects r)))
        = (f', c', r) -> step_ok c c' r) as Hmain.
  { clear. intros f' c' r. destruct (adopt_term f c msg) as [[f1 c1] b] eqn:Ea.
    apply adopt_term_cases in Ea as [(-> & -> & Hle)|(-> & Hlt & rn & ->)].
    - case_match; [quiet|].
      destruct (Follower.dispatch f1 c msg) as [[f2 c2] r2] eqn:Ed. intros. simplify_eq.
      apply follower_dispatch_ok in Ed. by destruct r2.
    - unfold term at 1. simpl. rewrite N.ltb_irrefl.
      destruct (Follower.dispatch _ _ msg) as [[f2 c2] r2] eqn:Ed. intros. simplify_eq.
      apply follower_dispatch_ok in Ed. eapply step_ok_after_adopt; [..|exact Ed|done|done];
        done. }
  destruct (msg_payload msg) eqn:Ep; try (by eapply Hmain; exact Hs).
  simplify_eq. apply step_ok_quiet; [done..|]. simpl. apply plain_one; auto with basis.
Qed.

Lemma follower_step_ok f c ev f' c' r :
  Follower.step f c ev = (f', c', r) -> step_ok c c' r.
Proof.
  destruct ev; simpl; [|apply follower_message_ok|].
  - unfold Follower.handle_tick. intros. repeat case_match; quiet.
  - quiet.
Qed.

(** ** PreCandidate *)

Lemma random_election_timeout_eq c c' t :
  random_election_timeout c = (c', t) -> c' = set_rng c (xorshift64 (rng c)).
Proof. intros H. pose proof (random_election_timeout_core c) as Hc. by rewrite H in Hc. Qed.

Lemma precandidate_message_ok p c msg p' c' r :
  PreCandidate.step_message p c msg = (p', c', r) -> step_ok c c' r.
Proof.
  unfold PreCandidate.step_message. destruct (_ && _).
  { intros. simplify_eq. apply step_ok_quiet; [done..|]. simpl.
    unfold PreCandidate.deny_vote. case_match; auto with basis. }
  destruct (N.ltb_spec (term c) (msg_term msg)) as [Hlt|Hge].
  { rewrite maybe_update_term_alt by done. intros. simplify_eq.
    apply step_ok_adopt; simpl; auto with basis. }
  destruct (msg_payload msg) eqn:Ep; intros Hs;
    try (by quiet).
  - unfold PreCandidate.handle_prevote_response in Hs.
    destruct (N.ltb_spec (term c) (pvr_term r0)) as [Hlt|_].
    + rewrite maybe_update_term_alt in Hs by done. simplify_eq.
      apply step_ok_adopt; simpl; auto with basis.
    + repeat case_match; quiet.
  - unfold PreCandidate.handle_append_request in Hs. quiet.
Qed.

Lemma precandidate_step_ok p c ev p' c' r :
  PreCandidate.step p c ev = (p', c', r) -> step_ok c c' r.
Proof.
  destruct ev; simpl; [|apply precandidate_message_ok|].
  - unfold PreCandidate.handle_tick. intros Hs. case_match.
    + destruct (random_election_timeout _) as [c1 t] eqn:Er.
      apply random_election_timeout_eq in Er. quiet.
    + case_match; quiet.
  - quiet.
Qed.

(** ** Candidate *)

Lemma candidate_reject_plain c msg : plain_sends c (Candidate.reject_stale c msg).
Proof. unfold Candidate.reject_stale. case_match; auto with basis. Qed.
#[export] Hint Resolve candidate_reject_plain : basis.

Lemma candidate_message_ok k c msg k' c' r :
  Candidate.step_message k c msg = (k', c', r) -> step_ok c c' r.
Proof.
  unfold Candidate.step_message. destruct (_ && _).
  { intros. simplify_eq. apply step_ok_quiet; [done..|]. simpl.
    unfold Candidate.deny_vote. case_match; auto with basis. }
  destruct (msg_payload msg) eqn:Ep; intros Hs.
  { simplify_eq. apply step_ok_quiet; [done..|]. apply plain_one; auto with basis. }
  all: destruct (N.ltb_spec (term c) (msg_term msg)) as [Hlt|Hge];
    [rewrite maybe_update_term_alt in Hs by done; simplify_eq;
     apply step_ok_adopt; simpl; auto with basis|].
  all: destruct (msg_term msg <? term c);
    [quiet|].
  all: unfold Candidate.dispatch in Hs; rewrite Ep in Hs; simpl in Hs;
    try (by quiet).
  - unfold Candidate.handle_vote_response in Hs. repeat case_match; quiet.
  - unfold Candidate.handle_append_request in Hs. quiet.
Qed.

Lemma candidate_step_ok k c ev k' c' r :
  Candidate.step k c ev = (k', c', r) -> step_ok c c' r.
Proof.
  destruct ev; simpl; [|apply candidate_message_ok|].
  - unfold Candidate.handle_tick. intros Hs. case_match.
    + destruct (random_election_timeout _) as [c1 t] eqn:Er.
      apply random_election_timeout_eq in Er. quiet.
    + case_match; quiet.
  - quiet.
Qed.

(** ** Leader

    A leader only changes its log, commit index and clock. *)

(** [c'] has the identity and hard state of [c]. *)
Definition same_hard (c c' : Core) : Prop :=
  same_identity c c' /\ hard_state c' = hard_state c.

#[global] Instance same_hard_preorder : PreOrder same_hard.
Proof.
  split; [done|]. intros x y z [H1 H2] [H3 H4]. split; [by etrans|congruence].
Qed.

Lemma same_hard_id c c' : same_hard c c' -> id c' = id c.
Proof. intros [H _]. by apply id_same. Qed.

Lemma plain_same_hard c c' e : same_hard c c' -> plain_sends c' e -> plain_sends c e.
Proof. intros H%same_hard_id. by apply plain_core. Qed.

Lemma step_ok_same_hard c c' r :
  same_hard c c' -> plain_sends c (effects r) -> step_ok c c' r.
Proof. intros [? ?]. by apply step_ok_quiet. Qed.

Lemma send_append_to_plain l c to l' e :
  send_append_to l c to = (l', e) -> plain_sends c e.
Proof.
  unfold send_append_to. case_match; intros; simplify_eq; auto with basis.
Qed.

Lemma broadcast_append_plain l c l' e :
  broadcast_append l c = (l', e) -> plain_sends c e.
Proof.
  unfold broadcast_append. generalize (replication_peers (effective_config c) (id c)).
  assert (forall ps l0 e0 l' e, plain_sends c e0 ->
    foldl (fun '(l, eff) peer => let '(l1, e1) := send_append_to l c peer in (l1, merge eff e1))
      (l0, e0) ps = (l', e) -> plain_sends c e) as Hgen.
  { clear. induction ps as [|p ps IH]; simpl; intros l0 e0 l' e He0 Hf; [by simplify_eq|].
    destruct (send_append_to l0 c p) as [l1 e1] eqn:Es. apply send_append_to_plain in Es.
    eapply IH; [|exact Hf]. auto with basis. }
  intros ps. apply Hgen. auto with basis.
Qed.

Lemma advance_commit_index_hard l c : same_hard c (advance_commit_index l c).
Proof. unfold advance_commit_index. by case_match. Qed.

Lemma try_auto_transfer_plain l c cfg : plain_sends c (try_auto_transfer l c cfg).
Proof. unfold try_auto_transfer. repeat case_match; auto with basis. Qed.

Lemma append_transition_target_hard l c target l' c' e :
  append_transition_target l c target = (l', c', e) -> same_hard c c' /\ plain_sends c e.
Proof.
  unfold append_transition_target. destruct (broadcast_append _ _) as [l1 e1] eqn:Eb.
  apply broadcast_append_plain in Eb. intros. simplify_eq. done.
Qed.

Definition result_effects (r : ConfigCommitResult) : Effects :=
  match r with Continue e | StepDown e => e | Done => none end.

Lemma process_configs_hard l c idxs l' c' r :
  process_configs l c idxs = (l', c', r) -> same_hard c c' /\ plain_sends c (result_effects r).
Proof.
  induction idxs as [|i idxs IH]; simpl; [intros; simplify_eq; split; [done|apply plain_none]|].
  destruct (get (log c) i) as [e|]; [|done]. destruct (e_payload e) as [|cfg]; [done|].
  destruct (negb _); [intros; simplify_eq; split; [done|apply try_auto_transfer_plain]|].
  destruct (transition_target cfg) as [t|]; [|done].
  destruct (append_transition_target l c t) as [[l1 c1] e1] eqn:Ea.
  apply append_transition_target_hard in Ea. intros. by simplify_eq.
Qed.

Lemma maybe_commit_loop_hard fuel l c e l' c' e' b :
  maybe_commit_loop fuel l c e = Some (l', c', e', b) ->
  same_hard c c' /\ (plain_sends c e -> plain_sends c e').
Proof.
  revert l c e. induction fuel as [|fuel IH]; intros l c e; simpl; [done|].
  pose proof (advance_commit_index_hard l c) as Ha.
  case_match; [intros; by simplify_eq|].
  destruct (process_committed_configs _ _ _) as [[l1 c1] r] eqn:Ep.
  apply process_configs_hard in Ep as [Hh Hp]. pose proof (transitivity Ha Hh) as Hc1.
  destruct r as [e1|e1|]; intros Hm; simplify_eq/=.
  - apply IH in Hm as [Hc Hpl]. split; [by etrans|]. intros He.
    eapply plain_same_hard; [exact Hc1|]. apply Hpl, plain_merge.
    + eapply plain_core; [symmetry; exact (same_hard_id _ _ Hc1)|exact He].
    + eapply plain_core; [symmetry; exact (same_hard_id _ _ Hh)|exact Hp].
  - split; [done|]. intros He. apply plain_merge; [done|].
    eapply plain_same_hard; [exact Ha|done].
  - by split.
Qed.

Lemma maybe_commit_hard l c l' c' e b :
  maybe_commit l c = (l', c', e, b) -> same_hard c c' /\ plain_sends c e.
Proof.
  unfold maybe_commit. case_match eqn:E; intros; simplify_eq.
  - apply maybe_commit_loop_hard in E as [? Hp]. split; [done|]. auto with basis.
  - split; [done|apply plain_none].
Qed.

Lemma step_down_or_stay_effects e b : effects (step_down_or_stay e b) = e.
Proof. by destruct b. Qed.

(** Close a leader branch that ends in [maybe_commit]. *)
Lemma commit_step_ok c c0 l l' c' e b :
  same_hard c c0 -> maybe_commit l c0 = (l', c', e, b) ->
  step_ok c c' (step_down_or_stay e b).
Proof.
  intros H0 [Hc Hp]%maybe_commit_hard. apply step_ok_same_hard; [by etrans|].
  rewrite step_down_or_stay_effects. by eapply plain_same_hard.
Qed.

Lemma leader_append_response_ok l c from resp l' c' r :
  Leader.handle_append_response l c from resp = (l', c', r) -> step_ok c c' r.
Proof.
  unfold Leader.handle_append_response. case_match; [quiet|]. case_match.
  - destruct (maybe_commit _ c) as [[[l1 c1] e] b] eqn:Em. intros. simplify_eq.
    by eapply commit_step_ok; [|exact Em].
  - destruct (send_append_to _ c from) as [l1 e] eqn:Es. apply send_append_to_plain in Es. quiet.
Qed.

Lemma leader_snapshot_response_ok l c from resp l' c' r :
  Leader.handle_install_snapshot_response l c from resp = (l', c', r) -> step_ok c c' r.
Proof.
  unfold Leader.handle_install_snapshot_response. case_match; [quiet|]. case_match; [quiet|].
  destruct (maybe_commit _ c) as [[[l1 c1] e] b] eqn:Em. intros. simplify_eq.
  by eapply commit_step_ok; [|exact Em].
Qed.

Lemma read_index_response_effects l from resp l' r :
  Leader.handle_read_index_response l from resp = (l', r) -> r = step_none.
Proof. unfold Leader.handle_read_index_response. intros. repeat case_match; by simplify_eq. Qed.

Lemma leader_reject_plain c msg : plain_sends c (Leader.reject_stale c msg).
Proof. unfold Leader.reject_stale. case_match; auto with basis. Qed.
#[export] Hint Resolve leader_reject_plain : basis.

Lemma leader_dispatch_ok l c msg l' c' r :
  Leader.dispatch l c msg = (l', c', r) -> step_ok c c' r.
Proof.
  unfold Leader.dispatch. destruct (msg_payload msg);
    eauto using leader_append_response_ok, leader_snapshot_response_ok; try (by quiet).
  destruct (Leader.handle_read_index_response _ _ _) as [l1 r1] eqn:E.
  apply read_index_response_effects in E as ->. quiet.
Qed.

Lemma leader_message_ok l c msg l' c' r :
  Leader.step_message l c msg = (l', c', r) -> step_ok c c' r.
Proof.
  unfold Leader.step_message. destruct (msg_payload msg) eqn:Ep; intros Hs.
  { simplify_eq. apply step_ok_quiet; [done..|]. apply plain_one; auto with basis. }
  all: destruct (N.ltb_spec (term c) (msg_term msg)) as [Hlt|Hge];
    [rewrite maybe_update_term_alt in Hs by done; simplify_eq;
     apply step_ok_adopt; simpl; auto with basis|].
  all: destruct (msg_term msg <? term c); [quiet|]; by apply leader_dispatch_ok in Hs.
Qed.

Lemma read_index_requests_plain c p : plain_sends c (read_index_requests c p).
Proof. by apply plain_many; auto with basis. Qed.

Lemma leader_step_ok l c ev l' c' r :
  Leader.step l c ev = (l', c', r) -> step_ok c c' r.
Proof.
  destruct ev as [|msg|i]; simpl; [|apply leader_message_ok|].
  - unfold Leader.handle_tick. case_match; [|quiet].
    destruct (broadcast_append _ _) as [l1 e] eqn:Eb. apply broadcast_append_plain in Eb.
    intros. simplify_eq. apply step_ok_quiet; [done..|]. simpl.
    case_match; [|done]. apply plain_merge; [done|].
    eapply plain_core; [|apply read_index_requests_plain]; done.
  - unfold Leader.handle_disk_write_complete. case_match; [|quiet].
    destruct (maybe_commit _ c) as [[[l1 c1] e] b] eqn:Em. intros. simplify_eq.
    by eapply commit_step_ok; [|exact Em].
Qed.

(** ** Elections *)

Lemma start_election_hs c :
  term c < u64_max ->
  term (start_election c) = term c + 1 /\
  vote (start_election c) = if is_voter c then Some (id c) else None.
Proof.
  intros Ht. unfold start_election. split; [|done].
  change (term c +u 1 = term c + 1). apply wadd_small. unfold u64_max in Ht.
  pose proof two64_pos. lia.
Qed.

Lemma precandidate_new_core c c' p e :
  PreCandidate.new c = (c', p, e) ->
  c' = set_rng c (xorshift64 (rng c)) /\ persist e = false /\ plain_sends c e.
Proof.
  unfold PreCandidate.new. destruct (random_election_timeout c) as [c1 t] eqn:Er.
  apply random_election_timeout_eq in Er. subst c1. case_match; intros; simplify_eq.
  - split_and!; auto with basis.
  - split_and!; [done..|]. by apply plain_many; auto with basis.
Qed.

Lemma candidate_new_core c c' k e :
  Candidate.new c = (c', k, e) ->
  c' = set_rng (start_election c) (xorshift64 (rng c)) /\ persist e = true /\ campaign_sends c c' e /\
  votes k = (if is_voter c' then {[id c]} else ∅).
Proof.
  unfold Candidate.new. destruct (random_election_timeout (start_election c)) as [c1 t] eqn:Er.
  apply random_election_timeout_eq in Er. subst c1. case_match; intros; simplify_eq.
  - split_and!; [done..| |done]. apply plain_campaign. auto with basis.
  - split_and!; [done..| |done].
    intros m Hm. simpl in Hm. apply list_elem_of_fmap in Hm as (x & -> & _).
    split_and!; [done..|]. intros _. split_and!; [done..|].
    intros Hv. change (is_voter c = true) in Hv.
    change ((if is_voter c then Some (id c) else None) = Some (id c)). by rewrite Hv.
Qed.

Lemma leader_new_core c c' l e :
  Leader.new c = (c', l, e) -> c' = c /\ plain_sends c e.
Proof.
  unfold Leader.new. destruct (broadcast_append _ c) as [l1 e1] eqn:Eb.
  apply broadcast_append_plain in Eb. intros. by simplify_eq.
Qed.

Lemma broadcast_append_persist l c l' e :
  broadcast_append l c = (l', e) -> persist e = false.
Proof.
  unfold broadcast_append. generalize (replication_peers (effective_config c) (id c)).
  assert (forall ps l0 e0 l' e, persist e0 = false ->
    foldl (fun '(l, eff) peer => let '(l1, e1) := send_append_to l c peer in (l1, merge eff e1))
      (l0, e0) ps = (l', e) -> persist e = false) as Hgen.
  { clear. induction ps as [|p ps IH]; simpl; intros l0 e0 l' e He0 Hf; [by simplify_eq|].
    destruct (send_append_to l0 c p) as [l1 e1] eqn:Es.
    eapply IH; [|exact Hf]. apply merge_persist_false. split; [done|].
    unfold send_append_to in Es. by case_match; simplify_eq. }
  intros ps. by apply Hgen.
Qed.

(** Starting an election: the term goes up by one, the change is announced, and a
    granted vote never leaves the node. *)
Lemma become_candidate_ok c n' e :
  term c < u64_max -> become_candidate c = (n', e) ->
  same_identity c (core n') /\ term (core n') = term c + 1 /\
  vote (core n') = (if is_voter c then Some (id c) else None) /\
  log (core n') = log c /\ persist e = true /\ campaign_sends c (core n') e /\
  match role n' with
  | RCandidate k => votes k = if is_voter c then {[id c]} else ∅
  | RLeader _ => Membership.has_quorum (effective_config c)
                   (fun v => bool_decide (v ∈ (if is_voter c then {[id c]} else ∅ : gset N))) = true
  | _ => False
  end.
Proof.
  intros Ht. destruct (start_election_hs c Ht) as [Hs Hv]. unfold become_candidate.
  destruct (Candidate.new c) as [[c1 k] e1] eqn:Ec.
  apply candidate_new_core in Ec as (-> & Hp1 & Hpl1 & Hvotes).
  change (is_voter (set_rng (start_election c) (xorshift64 (rng c)))) with (is_voter c) in Hvotes.
  destruct (Candidate.has_quorum _ _) eqn:Eq.
  - destruct (Leader.new _) as [[c2 l] e2] eqn:El. apply leader_new_core in El as [-> Hpl2].
    intros. simplify_eq. simpl. split_and!; try done.
    + by rewrite Hp1.
    + apply campaign_merge; [done|]. apply plain_campaign. by eapply plain_core; [|exact Hpl2].
    + unfold Candidate.has_quorum in Eq. by rewrite Hvotes in Eq.
  - intros. simplify_eq. simpl. by split_and!.
Qed.

(** ** The whole automaton *)

(** The contract of one step of a node. *)
Record node_ok (n n' : RaftNode) (e : Effects) : Prop := mkNodeOk {
  no_identity : same_identity (core n) (core n');
  no_hs : hs_le (core n) (core n');
  no_persist : persist e = false -> hard_state (core n') = hard_state (core n);
  no_from : forall m, m ∈ messages e -> msg_from m = id (core n);
  no_granted : forall m, m ∈ messages e -> granted m = true ->
     msg_term m = term (core n') /\ vote (core n') = Some (msg_to m);
  no_solicits : forall m, m ∈ messages e -> solicits m = true ->
     persist e = true /\ msg_term m = term (core n') /\
     (is_voter (core n') = true -> vote (core n') = Some (id (core n')));
  no_electoral : forall m, m ∈ messages e -> granted m = true -> persist e = true
}.

Lemma step_role_ok n ev n' r :
  step_role n ev = (n', r) -> step_ok (core n) (core n') r.
Proof.
  unfold step_role. destruct (role n) as [f|p|k|l].
  - destruct (Follower.step f (core n) ev) as [[f1 c1] r1] eqn:E.
    intros. simplify_eq. by eapply follower_step_ok.
  - destruct (PreCandidate.step p (core n) ev) as [[f1 c1] r1] eqn:E.
    intros. simplify_eq. by eapply precandidate_step_ok.
  - destruct (Candidate.step k (core n) ev) as [[f1 c1] r1] eqn:E.
    intros. simplify_eq. by eapply candidate_step_ok.
  - destruct (Leader.step l (core n) ev) as [[f1 c1] r1] eqn:E.
    intros. simplify_eq. by eapply leader_step_ok.
Qed.

Lemma follower_new_core c ldr c' f :
  Follower.new c ldr = (c', f) -> c' = set_rng c (xorshift64 (rng c)).
Proof.
  unfold Follower.new. destruct (random_election_timeout c) eqn:E.
  apply random_election_timeout_eq in E. intros. by simplify_eq.
Qed.

Lemma after_contact_core c ldr c' f :
  after_leader_contact c ldr = (c', f) -> c' = set_rng c (xorshift64 (rng c)).
Proof.
  unfold after_leader_contact. destruct (Follower.new c ldr) eqn:E.
  apply follower_new_core in E. intros. by simplify_eq.
Qed.

(** A transition that increments the term. *)
Definition starts_election (t : Transition) : bool :=
  match t with ToPreCandidate | ToCandidate => true | _ => false end.

(** The step does not increment a term that is already [u64::MAX]. *)
Definition no_term_overflow (n : RaftNode) (ev : Event) : bool :=
  let '(n1, r) := step_role n ev in
  negb (starts_election (transition r)) || (term (core n1) <? u64_max).

(** Role changes keep the discipline and never grant a vote. *)
Lemma apply_transition_ok n t n' e :
  (starts_election t = true -> term (core n) < u64_max) -> apply_transition n t = (n', e) ->
  same_identity (core n) (core n') /\ hs_le (core n) (core n') /\
  (persist e = false -> hard_state (core n') = hard_state (core n)) /\
  campaign_sends (core n) (core n') e.
Proof.
  intros Ht. destruct t; simpl; intros Ha.
  - simplify_eq. split_and!; [done|reflexivity|done|apply plain_campaign; auto with basis].
  - destruct (Follower.new _ _) eqn:E. apply follower_new_core in E. simplify_eq/=.
    split_and!; [done|by apply hs_eq_le|done|apply plain_campaign; auto with basis].
  - destruct (after_leader_contact _ _) eqn:E. apply after_contact_core in E. simplify_eq/=.
    split_and!; [done|by apply hs_eq_le|done|apply plain_campaign; auto with basis].
  - destruct (PreCandidate.new (core n)) as [[c1 p] e1] eqn:Ep.
    apply precandidate_new_core in Ep as (-> & Hpe & Hpl). destruct (PreCandidate.has_quorum _ _).
    + destruct (become_candidate _) as [n1 e2] eqn:Eb. simplify_eq.
      apply become_candidate_ok in Eb as (Hid & Htm & _ & _ & Hp2 & Hpl2 & _); [|by apply Ht].
      split_and!.
      * exact Hid.
      * split; [rewrite Htm|rewrite Htm]; unfold term; simpl; lia.
      * simpl. rewrite Hp2, orb_true_r. done.
      * apply campaign_merge; [by apply plain_campaign|exact Hpl2].
    + simplify_eq. split_and!; [done|by apply hs_eq_le|done|by apply plain_campaign].
  - apply become_candidate_ok in Ha as (Hid & Htm & _ & _ & Hp2 & Hpl2 & _); [|by apply Ht].
    split_and!; [done| |by rewrite Hp2|done]. split; lia.
  - destruct (Leader.new (core n)) as [[c1 l] e1] eqn:El.
    apply leader_new_core in El as [-> Hpl]. simplify_eq/=.
    split_and!; [done..|by apply plain_campaign].
Qed.

Lemma step_event_ok n ev n' e :
  no_term_overflow n ev = true -> step_event n ev = (n', e) -> node_ok n n' e.
Proof.
  unfold step_event, no_term_overflow. destruct (step_role n ev) as [n1 r] eqn:Er. intros Hb Hs.
  apply step_role_ok in Er as [Hi Hh Hp Hf Hg Hso Hel].
  assert ((transition r = Stay /\ n' = n1 /\ e = effects r) \/
          (transition r <> Stay /\ exists n2 e2, apply_transition n1 (transition r) = (n2, e2) /\
             n' = n2 /\ e = merge (effects r) e2)) as [(Ht & -> & ->)|(Ht & n2 & e2 & Ha & -> & ->)].
  { destruct (transition r); simplify_eq; try (by left); right; (split; [done|]);
      destruct (apply_transition _ _) as [n2 e2]; simplify_eq; eauto. }
  - split; [done..| | |done].
    + intros m Hm Hgm. by destruct (Hg m Hm Hgm) as (_ & ? & ?).
    + intros m Hm. rewrite (Hso m Hm). done.
  - apply apply_transition_ok in Ha as (Hi2 & Hh2 & Hp2 & Hpl2);
      [|intros Hst; rewrite Hst in Hb; simpl in Hb; by unbool].
    split.
    + by etrans.
    + by etrans.
    + intros [H1 H2]%merge_persist_false. rewrite Hp2 by done. auto.
    + intros m [Hm|Hm]%elem_of_merge_messages; [auto|]. rewrite (proj1 (Hpl2 m Hm)).
      by apply id_same.
    + intros m [Hm|Hm]%elem_of_merge_messages Hgm; [by destruct (Hg m Hm Hgm)|].
      destruct (Hpl2 m Hm) as (_ & ? & _). congruence.
    + intros m [Hm|Hm]%elem_of_merge_messages Hsm; [rewrite (Hso m Hm) in Hsm; done|].
      destruct (Hpl2 m Hm) as (_ & _ & Hs2). destruct (Hs2 Hsm) as (H2 & ? & ?). simpl.
      by rewrite H2, orb_true_r.
    + intros m [Hm|Hm]%elem_of_merge_messages Hgm; [simpl; by rewrite (Hel m Hm Hgm)|].
      destruct (Hpl2 m Hm) as (_ & ? & _). congruence.
Qed.

(** ** Where votes and leaders come from *)

(** A vote counted for node [n'] after event [ev]: its own, one it had already
    counted in this term, or the granted response being delivered. *)
Definition vote_source (n : RaftNode) (ev : Event) (n' : RaftNode) (v : N) : Prop :=
  (v = id (core n') /\ vote (core n') = Some v) \/
  (exists k, role n = RCandidate k /\ term (core n') = term (core n) /\ v ∈ votes k) \/
  (exists m, ev = MessageEvent m /\ granted m = true /\ msg_term m = term (core n') /\
             msg_from m = v).

Lemma follower_never_leads f c ev f' c' r :
  Follower.step f c ev = (f', c', r) -> transition r <> ToLeader.
Proof.
  destruct ev as [|msg|]; simpl.
  - unfold Follower.handle_tick. intros. by repeat case_match; simplify_eq.
  - unfold Follower.step_message, Follower.dispatch, Follower.handle_vote_request,
      Follower.handle_append_request, Follower.handle_read_index_request,
      Follower.handle_install_snapshot.
    intros. by repeat case_match; simplify_eq.
  - intros. by simplify_eq.
Qed.

Lemma precandidate_never_leads p c ev p' c' r :
  PreCandidate.step p c ev = (p', c', r) -> transition r <> ToLeader.
Proof.
  destruct ev as [|msg|]; simpl.
  - unfold PreCandidate.handle_tick. intros. by repeat case_match; simplify_eq.
  - unfold PreCandidate.step_message, PreCandidate.handle_prevote_response,
      PreCandidate.handle_append_request.
    intros. by repeat case_match; simplify_eq.
  - intros. by simplify_eq.
Qed.

Lemma leader_never_campaigns l c ev l' c' r :
  Leader.step l c ev = (l', c', r) ->
  (transition r = Stay /\ hard_state c' = hard_state c) \/ exists h, transition r = ToFollower h.
Proof.
  assert (forall l c l' c' e b, maybe_commit l c = (l', c', e, b) ->
    (transition (step_down_or_stay e b) = Stay /\ hard_state c' = hard_state c) \/
    exists h, transition (step_down_or_stay e b) = ToFollower h) as Hmc.
  { clear. intros l c l' c' e b [[_ Hh] _]%maybe_commit_hard. destruct b; simpl; eauto. }
  destruct ev as [|msg|i]; simpl.
  - unfold Leader.handle_tick. case_match; [destruct (broadcast_append _ _)|];
      intros; simplify_eq; by left.
  - unfold Leader.step_message. destruct (msg_payload msg) eqn:Ep; [intros; simplify_eq; by left|..].
    all: case_match; [destruct (maybe_update_term _ _); intros; simplify_eq; right; by eexists|].
    all: case_match; [intros; simplify_eq; by left|].
    all: unfold Leader.dispatch; rewrite Ep; try (intros; simplify_eq; by left).
    + unfold Leader.handle_append_response. case_match; [intros; simplify_eq; by left|].
      case_match.
      * destruct (maybe_commit _ c) as [[[? ?] ?] ?] eqn:Em. intros. simplify_eq. eauto.
      * destruct (send_append_to _ _ _). intros. simplify_eq. by left.
    + unfold Leader.handle_install_snapshot_response. case_match; [intros; simplify_eq; by left|].
      case_match; [intros; simplify_eq; by left|].
      destruct (maybe_commit _ c) as [[[? ?] ?] ?] eqn:Em. intros. simplify_eq. eauto.
    + destruct (Leader.handle_read_index_response _ _ _) eqn:E.
      apply read_index_response_effects in E as ->. intros. simplify_eq. by left.
  - unfold Leader.handle_disk_write_complete. case_match; [|intros; simplify_eq; by left].
    destruct (maybe_commit _ c) as [[[? ?] ?] ?] eqn:Em. intros. simplify_eq. eauto.
Qed.

(** A candidate counts only granted responses of its own term, and leads only
    with a quorum of counted votes. *)
Lemma candidate_votes k c ev k' c' r :
  Candidate.step k c ev = (k', c', r) ->
  (exists h, transition r = ToFollower h \/ transition r = ToFollowerAfterContact h) \/
  transition r = ToCandidate \/
  (term c' = term c /\ log c' = log c /\
   (transition r = Stay \/ (transition r = ToLeader /\ Candidate.has_quorum k' c' = true)) /\
   forall v, v ∈ votes k' -> v ∈ votes k \/
     exists m, ev = MessageEvent m /\ granted m = true /\ msg_term m = term c /\ msg_from m = v).
Proof.
  destruct ev as [|msg|i]; simpl.
  - unfold Candidate.handle_tick. case_match.
    + destruct (random_election_timeout _) eqn:E. apply random_election_timeout_eq in E.
      intros. simplify_eq/=. right. right. split_and!; [done..|by left|by left].
    + case_match; intros; simplify_eq; [by right; left|]. right. right.
      split_and!; [done..|by left|by left].
  - unfold Candidate.step_message. case_match.
    { intros; simplify_eq. right; right. split_and!; [done..|by left|by left]. }
    destruct (msg_payload msg) eqn:Ep.
    { intros; simplify_eq. right; right. split_and!; [done..|by left|by left]. }
    all: case_match; [destruct (maybe_update_term _ _); intros; simplify_eq; left; by eexists; left|].
    all: case_match; [intros; simplify_eq; right; right; split_and!; [done..|by left|by left]|].
    all: unfold Candidate.dispatch; rewrite Ep;
      try (intros; simplify_eq; right; right; split_and!; [done..|by left|by left]).
    + unfold Candidate.handle_vote_response. case_match;
        [intros; simplify_eq; right; right; split_and!; [done..|by left|by left]|].
      unbool.
      assert (forall v, v ∈ ({[msg_from msg]} ∪ votes k : gset N) -> v ∈ votes k \/
        exists m, MessageEvent msg = MessageEvent m /\ granted m = true /\
                  msg_term m = term c /\ msg_from m = v) as Hv.
      { intros v [->%elem_of_singleton|Hv]%elem_of_union; [|by left]. right. exists msg.
        unfold granted. rewrite Ep. split_and!; [done|done|lia|done]. }
      case_match; intros; simplify_eq; right; right; (split_and!; [done..| |exact Hv]); auto.
    + unfold Candidate.handle_append_request. intros; simplify_eq. left. eexists. by right.
    + intros; simplify_eq. by right; left.
  - intros; simplify_eq. right; right. split_and!; [done..|by left|by left].
Qed.

(** The election state reached by a step is backed by sourced votes. *)
Definition election_backed (n : RaftNode) (ev : Event) (n' : RaftNode) : Prop :=
  match role n' with
  | RCandidate k => forall v, v ∈ votes k -> vote_source n ev n' v
  | RLeader _ =>
      (is_leader n = true /\ term (core n') = term (core n)) \/
      (exists S : gset N,
         Membership.has_quorum (effective_config (core n')) (fun v => bool_decide (v ∈ S)) = true /\
         forall v, v ∈ S -> vote_source n ev n' v)
  | _ => True
  end.

Lemma effective_config_same_log c c' :
  same_identity c c' -> log c' = log c -> effective_config c' = effective_config c.
Proof.
  intros [_ Hb] Hl. unfold effective_config, config_at. by rewrite Hl, Hb.
Qed.

Lemma become_candidate_backed n ev c n' e :
  term c < u64_max -> become_candidate c = (n', e) -> election_backed n ev n'.
Proof.
  intros Ht Hb. apply become_candidate_ok in Hb as (Hid & _ & Hv & Hl & _ & _ & Hr); [|done].
  assert (forall v, v ∈ (if is_voter c then {[id c]} else ∅ : gset N) -> vote_source n ev n' v) as Hs.
  { intros v Hin. left. rewrite (id_same _ _ Hid). destruct (is_voter c); [|set_solver].
    apply elem_of_singleton in Hin. by subst. }
  unfold election_backed. destruct (role n') as [| |k|l]; [done|done| |].
  - rewrite Hr. exact Hs.
  - right. exists (if is_voter c then {[id c]} else ∅).
    rewrite (effective_config_same_log c _ Hid Hl). done.
Qed.

Lemma campaign_backed n ev n1 t n' e :
  starts_election t = true -> term (core n1) < u64_max ->
  apply_transition n1 t = (n', e) -> election_backed n ev n'.
Proof.
  intros Hst Ht. destruct t; try done; simpl.
  - destruct (PreCandidate.new (core n1)) as [[c1 p] e1] eqn:Ep.
    apply precandidate_new_core in Ep as (-> & _ & _). case_match; [|intros; by simplify_eq].
    destruct (become_candidate _) as [n2 e2] eqn:Eb. intros. simplify_eq.
    eapply become_candidate_backed; [|exact Eb]. done.
  - by apply become_candidate_backed.
Qed.

Lemma retreat_backed n ev n1 t n' e :
  (exists h, t = ToFollower h \/ t = ToFollowerAfterContact h) ->
  apply_transition n1 t = (n', e) -> election_backed n ev n'.
Proof.
  intros [h [-> | ->]]; simpl.
  - destruct (Follower.new _ _). intros. by simplify_eq.
  - destruct (after_leader_contact _ _). intros. by simplify_eq.
Qed.

Lemma step_event_cases n ev n' e n1 r :
  step_role n ev = (n1, r) -> step_event n ev = (n', e) ->
  (transition r = Stay /\ n' = n1 /\ e = effects r) \/
  (transition r <> Stay /\ exists e2, apply_transition n1 (transition r) = (n', e2) /\
     e = merge (effects r) e2).
Proof.
  unfold step_event. intros ->. destruct (transition r); intros Hs; simplify_eq;
    try (by left); right; (split; [done|]);
    destruct (apply_transition _ _) as [n2 e2]; simplify_eq; eauto.
Qed.

(** A candidate's step: its counted votes and its victory are backed. *)
Lemma candidate_backed n k ev n' e :
  role n = RCandidate k -> no_term_overflow n ev = true -> step_event n ev = (n', e) ->
  election_backed n ev n'.
Proof.
  unfold no_term_overflow. intros Hr Hb Hs. destruct (step_role n ev) as [n1 r] eqn:Er.
  pose proof (step_event_cases _ _ _ _ _ _ Er Hs) as Hc. unfold step_role in Er. rewrite Hr in Er.
  destruct (Candidate.step k (core n) ev) as [[k1 c1] r1] eqn:Ec. simplify_eq/=.
  pose proof (candidate_step_ok _ _ _ _ _ _ Ec) as Hok.
  assert (forall v, (v ∈ votes k \/ exists m, ev = MessageEvent m /\ granted m = true /\
            msg_term m = term (core n) /\ msg_from m = v) ->
          term (core n') = term (core n) -> vote_source n ev n' v) as Hsrc.
  { intros v [Hv|(m & ? & ? & ? & ?)] Ht; right; [left; eauto|right].
    exists m. split_and!; congruence. }
  apply candidate_votes in Ec as [Hf|[Hcand|(Ht & Hl & Htr & Hv)]].
  - destruct Hc as [(Hst & _)|(_ & e2 & Ha & _)]; [destruct Hf as [h [Hf|Hf]]; congruence|].
    by eapply retreat_backed.
  - destruct Hc as [(Hst & _)|(_ & e2 & Ha & _)]; [congruence|]. rewrite Hcand in *.
    simpl in Hb. unbool. by eapply campaign_backed; [| |exact Ha].
  - destruct Htr as [Htr|[Htr Hq]]; rewrite Htr in *.
    + destruct Hc as [(_ & -> & _)|(? & _)]; [|done]. simpl. intros v Hin. auto.
    + destruct Hc as [(? & _)|(_ & e2 & Ha & _)]; [done|]. simpl in Ha.
      destruct (Leader.new c1) as [[c2 l] e3] eqn:El. apply leader_new_core in El as [-> _].
      simplify_eq. right. exists (votes k1). split; [exact Hq|]. auto.
Qed.

Lemma step_event_backed n ev n' e :
  no_term_overflow n ev = true -> step_event n ev = (n', e) -> election_backed n ev n'.
Proof.
  intros Hb Hs. destruct (role n) as [f|p|k|l] eqn:Hr; [| |by eapply candidate_backed|];
    unfold no_term_overflow in Hb; destruct (step_role n ev) as [n1 r] eqn:Er;
    pose proof (step_event_cases _ _ _ _ _ _ Er Hs) as Hc; unfold step_role in Er;
    rewrite Hr in Er.
  - destruct (Follower.step f (core n) ev) as [[f1 c1] r1] eqn:Ef. simplify_eq/=.
    apply follower_never_leads in Ef.
    destruct Hc as [(_ & -> & _)|(Hns & e2 & Ha & _)]; [done|].
    destruct (transition r) eqn:Et; try done; simpl in Hb; unbool;
      solve [eapply retreat_backed; [|exact Ha]; eauto
            |by eapply campaign_backed; [| |exact Ha]].
  - destruct (PreCandidate.step p (core n) ev) as [[f1 c1] r1] eqn:Ef. simplify_eq/=.
    apply precandidate_never_leads in Ef.
    destruct Hc as [(_ & -> & _)|(Hns & e2 & Ha & _)]; [done|].
    destruct (transition r) eqn:Et; try done; simpl in Hb; unbool;
      solve [eapply retreat_backed; [|exact Ha]; eauto
            |by eapply campaign_backed; [| |exact Ha]].
  - destruct (Leader.step l (core n) ev) as [[l1 c1] r1] eqn:Ef. simplify_eq/=.
    apply leader_never_campaigns in Ef as [[Hst Hh]|[h Hst]]; rewrite Hst in Hc.
    + destruct Hc as [(_ & -> & _)|(? & _)]; [|done]. left. unfold is_leader. rewrite Hr.
      simpl. split; [done|]. by inversion Hh.
    + destruct Hc as [(? & _)|(_ & e2 & Ha & _)]; [done|].
      eapply retreat_backed; [|exact Ha]. eauto.
Qed.

(** ** Where a recorded vote comes from *)

(** A handler that keeps the hard state, or adopts a term in which it has not voted. *)
Definition keeps_vote (c c' : Core) : Prop := hard_state c' = hard_state c \/ vote c' = None.

Lemma precandidate_keeps_vote p c ev p' c' r :
  PreCandidate.step p c ev = (p', c', r) -> keeps_vote c c'.
Proof.
  unfold keeps_vote. destruct ev as [|msg|]; simpl.
  - unfold PreCandidate.handle_tick, random_election_timeout, rand. intros.
    repeat case_match; simplify_eq; by left.
  - unfold PreCandidate.step_message, PreCandidate.handle_prevote_response,
      PreCandidate.handle_append_request, maybe_update_term.
    intros. repeat case_match; simplify_eq; try (by left); by right.
  - intros. simplify_eq. by left.
Qed.

Lemma candidate_keeps_vote k c ev k' c' r :
  Candidate.step k c ev = (k', c', r) -> keeps_vote c c'.
Proof.
  unfold keeps_vote. destruct ev as [|msg|]; simpl.
  - unfold Candidate.handle_tick, random_election_timeout, rand. intros.
    repeat case_match; simplify_eq; by left.
  - unfold Candidate.step_message, Candidate.dispatch, Candidate.handle_vote_response,
      Candidate.handle_append_request, maybe_update_term.
    intros. repeat case_match; simplify_eq; try (by left); by right.
  - intros. simplify_eq. by left.
Qed.

Lemma leader_keeps_vote l c ev l' c' r :
  Leader.step l c ev = (l', c', r) -> keeps_vote c c'.
Proof.
  unfold keeps_vote. destruct ev as [|msg|i]; simpl.
  - unfold Leader.handle_tick. intros. repeat case_match; simplify_eq; by left.
  - unfold Leader.step_message, maybe_update_term.
    destruct (msg_payload msg) eqn:Ep; [intros; simplify_eq; by left|..].
    all: case_match; [intros; simplify_eq; by right|].
    all: case_match; [intros; simplify_eq; by left|].
    all: unfold Leader.dispatch; rewrite Ep; try (intros; simplify_eq; by left).
    + unfold Leader.handle_append_response. case_match; [intros; simplify_eq; by left|].
      case_match.
      * destruct (maybe_commit _ c) as [[[? ?] ?] ?] eqn:Em.
        apply maybe_commit_hard in Em as [[_ Hh] _]. intros [= _ <- _]. by left.
      * destruct (send_append_to _ _ _). intros. simplify_eq. by left.
    + unfold Leader.handle_install_snapshot_response. case_match; [intros; simplify_eq; by left|].
      case_match; [intros; simplify_eq; by left|].
      destruct (maybe_commit _ c) as [[[? ?] ?] ?] eqn:Em.
      apply maybe_commit_hard in Em as [[_ Hh] _]. intros [= _ <- _]. by left.
    + destruct (Leader.handle_read_index_response _ _ _). intros. simplify_eq. by left.
  - unfold Leader.handle_disk_write_complete. case_match; [|intros; simplify_eq; by left].
    destruct (maybe_commit _ c) as [[[? ?] ?] ?] eqn:Em.
    apply maybe_commit_hard in Em as [[_ Hh] _]. intros [= _ <- _]. by left.
Qed.

(** The request a follower answers with its vote. *)
Definition requested (ev : Event) (k t : N) : Prop :=
  exists m, ev = MessageEvent m /\ solicits m = true /\ msg_from m = k /\ msg_term m = t.

Lemma follower_dispatch_vote f c msg f' c' r :
  Follower.dispatch f c msg = (f', c', r) -> msg_term msg = term c ->
  keeps_vote c c' \/ (forall k, vote c' = Some k -> requested (MessageEvent msg) k (term c')).
Proof.
  unfold Follower.dispatch. destruct (msg_payload msg) eqn:Ep.
  3: { unfold Follower.handle_vote_request. destruct (_ && can_vote_for c _ && _).
    - destruct (reset_deadline f (vote_for c _)) as [f1 c1] eqn:Er. apply reset_deadline_core in Er.
      intros. simplify_eq/=. right. intros k. unfold vote. simpl. intros [= <-].
      exists msg. unfold solicits. by rewrite Ep.
    - intros. simplify_eq. left. by left. }
  all: unfold Follower.handle_append_request, Follower.handle_read_index_request,
    Follower.handle_install_snapshot; try (intros; simplify_eq; left; by left).
  all: destruct (reset_deadline _ c) as [f1 c1] eqn:Er; apply reset_deadline_core in Er; subst c1.
  all: intros; repeat case_match; simplify_eq; left; by left.
Qed.

(** Where the vote recorded after a step comes from. *)
Definition vote_cause (c : Core) (ev : Event) (c' : Core) : Prop :=
  forall k, vote c' = Some k ->
    (vote c = Some k /\ term c' = term c) \/ k = id c' \/ requested ev k (term c').

Lemma keeps_vote_cause c ev c' : keeps_vote c c' -> vote_cause c ev c'.
Proof.
  intros [Hh|Hn] k Hk; [|congruence]. left. unfold hard_state in Hh. injection Hh as Ht Hv.
  by rewrite <- Hv.
Qed.

Lemma follower_vote_cause f c ev f' c' r :
  Follower.step f c ev = (f', c', r) -> vote_cause c ev c'.
Proof.
  destruct ev as [|msg|]; simpl.
  - unfold Follower.handle_tick. intros. apply keeps_vote_cause. left.
    by repeat case_match; simplify_eq.
  - assert (forall f' c' r, (let '(f, c, term_updated) := adopt_term f c msg in
        if msg_term msg <? term c then (f, c, stay (Follower.reject_stale c msg))
        else
          let '(f, c, r) := Follower.dispatch f c msg in
          (f, c, mkStepResult (transition r)
                   (if term_updated : bool then with_persist (effects r) else effects r)))
        = (f', c', r) -> vote_cause c (MessageEvent msg) c') as Hmain.
    { clear. intros f' c' r. destruct (adopt_term f c msg) as [[f1 c1] b] eqn:Ea.
      apply adopt_term_cases in Ea as [(-> & -> & Hle)|(-> & Hlt & rn & ->)].
      - destruct (N.ltb_spec (msg_term msg) (term c)) as [|Hge];
          [intros; simplify_eq; apply keeps_vote_cause; by left|].
        destruct (Follower.dispatch f1 c msg) as [[f2 c2] r2] eqn:Ed. intros. simplify_eq.
        destruct (follower_dispatch_vote _ _ _ _ _ _ Ed ltac:(lia)) as [Hk|Hk];
          [by apply keeps_vote_cause|]. intros k Hv. right. right. auto.
      - unfold term at 1. simpl. rewrite N.ltb_irrefl.
        destruct (Follower.dispatch _ _ msg) as [[f2 c2] r2] eqn:Ed. intros. simplify_eq.
        destruct (follower_dispatch_vote _ _ _ _ _ _ Ed eq_refl) as [[Hh|Hn]|Hk].
        + intros k Hv. unfold hard_state in Hh. injection Hh as _ Hh. unfold vote in Hh at 2.
          simpl in Hh. congruence.
        + intros k Hv. congruence.
        + intros k Hv. right. right. auto. }
    unfold Follower.step_message.
    destruct (_ && _); [intros; simplify_eq; apply keeps_vote_cause; by left|].
    destruct (msg_payload msg) eqn:Ep; try (apply Hmain).
    intros; simplify_eq; apply keeps_vote_cause; by left.
  - intros. simplify_eq. apply keeps_vote_cause. by left.
Qed.

Lemma step_role_vote n ev n1 r :
  step_role n ev = (n1, r) -> vote_cause (core n) ev (core n1).
Proof.
  unfold step_role. destruct (role n) as [f|p|k|l].
  - destruct (Follower.step f (core n) ev) as [[f1 c1] r1] eqn:E. intros. simplify_eq.
    by eapply follower_vote_cause.
  - destruct (PreCandidate.step p (core n) ev) as [[f1 c1] r1] eqn:E. intros. simplify_eq.
    by eapply keeps_vote_cause, precandidate_keeps_vote.
  - destruct (Candidate.step k (core n) ev) as [[f1 c1] r1] eqn:E. intros. simplify_eq.
    by eapply keeps_vote_cause, candidate_keeps_vote.
  - destruct (Leader.step l (core n) ev) as [[f1 c1] r1] eqn:E. intros. simplify_eq.
    by eapply keeps_vote_cause, leader_keeps_vote.
Qed.

Lemma apply_transition_vote n t n' e :
  (starts_election t = true -> term (core n) < u64_max) -> apply_transition n t = (n', e) ->
  hard_state (core n') = hard_state (core n) \/
  vote (core n') = None \/ vote (core n') = Some (id (core n')).
Proof.
  assert (forall c e', term c < u64_max -> become_candidate c = (n', e') ->
    vote (core n') = None \/ vote (core n') = Some (id (core n'))) as Hbc.
  { intros c e' Ht Hb. apply become_candidate_ok in Hb as (Hid & _ & Hv & _); [|done].
    rewrite (id_same _ _ Hid), Hv. case_match; auto. }
  intros Ht. destruct t; simpl; intros Ha.
  - simplify_eq. by left.
  - destruct (Follower.new _ _) eqn:E. apply follower_new_core in E. simplify_eq. by left.
  - destruct (after_leader_contact _ _) eqn:E. apply after_contact_core in E. simplify_eq. by left.
  - destruct (PreCandidate.new (core n)) as [[c1 p] e1] eqn:Ep.
    apply precandidate_new_core in Ep as (-> & _). case_match; [|simplify_eq; by left].
    destruct (become_candidate _) as [n1 e2] eqn:Eb. simplify_eq. right.
    eapply Hbc; [|exact Eb]. by apply Ht.
  - right. eapply Hbc; [|exact Ha]. by apply Ht.
  - destruct (Leader.new (core n)) as [[c1 l] e1] eqn:El.
    apply leader_new_core in El as [-> _]. simplify_eq. by left.
Qed.

Lemma step_event_vote n ev n' e :
  no_term_overflow n ev = true -> step_event n ev = (n', e) -> vote_cause (core n) ev (core n').
Proof.
  unfold no_term_overflow. destruct (step_role n ev) as [n1 r] eqn:Er. intros Hb Hs.
  pose proof (step_role_vote _ _ _ _ Er) as Hv.
  destruct (step_event_cases _ _ _ _ _ _ Er Hs) as [(_ & -> & _)|(_ & e2 & Ha & _)]; [done|].
  assert (starts_election (transition r) = true -> term (core n1) < u64_max) as Hst.
  { intros Hst. rewrite Hst in Hb. simpl in Hb. by unbool. }
  pose proof (apply_transition_ok _ _ _ _ Hst Ha) as (Hid & _).
  destruct (apply_transition_vote _ _ _ _ Hst Ha) as [Hh|[Hn|Hn]]; intros k Hk.
  - unfold hard_state in Hh. injection Hh as Ht Hvt.
    rewrite Ht, (id_same _ _ Hid). apply Hv. congruence.
  - congruence.
  - right. left. congruence.
Qed.

(** ** Client operations *)

(** Appending to the log, committing and replicating, as every proposal does. *)
Lemma append_commit_hard l c lg l1 c1 e1 b1 l2 e2 :
  maybe_commit l (set_log c lg) = (l1, c1, e1, b1) -> broadcast_append l1 c1 = (l2, e2) ->
  same_hard c c1 /\ plain_sends c (merge (with_persist e2) e1).
Proof.
  intros [Hh Hp]%maybe_commit_hard Eb%broadcast_append_plain.
  assert (same_hard c (set_log c lg)) as H0 by done.
  split; [by etrans|]. apply plain_merge; [|exact (plain_same_hard _ _ _ H0 Hp)].
  exact (plain_same_hard _ _ _ (transitivity H0 Hh) Eb).
Qed.

Lemma leader_propose_hard l c cmd l' c' i e b :
  Leader.propose l c cmd = (l', c', (i, e, b)) ->
  same_hard c c' /\ plain_sends c e /\ persist e = true.
Proof.
  unfold Leader.propose. destruct (maybe_commit _ _) as [[[l1 c1] e1] b1] eqn:Em.
  destruct (broadcast_append l1 c1) as [l2 e2] eqn:Eb. intros. simplify_eq.
  destruct (append_commit_hard _ _ _ _ _ _ _ _ _ Em Eb). done.
Qed.

Lemma leader_change_hard l c change l' c' r :
  Leader.propose_config_change l c change = (l', c', r) ->
  match r with
  | Ok (_, e, _) => same_hard c c' /\ plain_sends c e /\ persist e = true
  | Err _ => l' = l /\ c' = c
  end.
Proof.
  unfold Leader.propose_config_change.
  destruct (validate _ _ _); [|intros; by simplify_eq].
  destruct (check_promotion _ _ _ _); [|intros; by simplify_eq].
  destruct (has_pending_config c); [intros; by simplify_eq|].
  destruct (maybe_commit _ _) as [[[l1 c1] e1] b1] eqn:Em.
  destruct (broadcast_append l1 c1) as [l2 e2] eqn:Eb. intros. simplify_eq.
  destruct (append_commit_hard _ _ _ _ _ _ _ _ _ Em Eb). done.
Qed.

(** A client operation of a leader: it keeps the hard state, sends nothing that
    grants a vote, and leaves the node leader in the same term or a follower. *)
Definition leader_op (n n' : RaftNode) (e : Effects) : Prop :=
  same_hard (core n) (core n') /\ plain_sends (core n) e /\ is_leader n = true /\
  (role_is_leader (role n') = true \/ role_is_follower (role n') = true).

Lemma maybe_step_down_op n c l b e :
  same_hard (core n) c -> plain_sends (core n) e -> is_leader n = true ->
  leader_op n (maybe_step_down c l b) e.
Proof.
  intros Hh Hp Hl. unfold maybe_step_down. destruct b; [|by split_and!; auto].
  destruct (Follower.new c None) eqn:E. apply follower_new_core in E. subst. split_and!; auto.
Qed.

Lemma node_propose_hard n cmd n' i e :
  Node.propose n cmd = Some (n', Ok (i, e)) -> leader_op n n' e /\ persist e = true.
Proof.
  unfold Node.propose. destruct (role n) as [| | |l] eqn:Hr; try done.
  destruct (proposal_limit_exceeded _ _) as [[|]|]; try done.
  destruct (Leader.propose l (core n) cmd) as [[l1 c1] [[i1 e1] b]] eqn:Ep. intros. simplify_eq.
  apply leader_propose_hard in Ep as (Hh & Hp & Hpe). split; [|done].
  apply maybe_step_down_op; [done|done|]. unfold is_leader. by rewrite Hr.
Qed.

Lemma node_change_hard n change n' r :
  Node.propose_config_change n change = (n', r) ->
  match r with
  | Ok (_, e) => leader_op n n' e /\ persist e = true
  | Err _ => n' = n
  end.
Proof.
  unfold Node.propose_config_change. destruct (role n) as [| | |l] eqn:Hr; try by intros; simplify_eq.
  destruct (Leader.propose_config_change l (core n) change) as [[l1 c1] r1] eqn:Ep.
  apply leader_change_hard in Ep. destruct r1 as [[[i e] b]|err]; intros; simplify_eq.
  - destruct Ep as (Hh & Hp & Hpe). split; [|done].
    apply maybe_step_down_op; [done|done|]. unfold is_leader. by rewrite Hr.
  - destruct Ep as [-> ->], n; simpl in *. by subst.
Qed.

Lemma leader_op_ok n n' e ev :
  leader_op n n' e -> node_ok n n' e /\ election_backed n ev n'.
Proof.
  intros ([Hid Hh] & Hpl & Hlead & Hr). split.
  - split; [done|by apply hs_eq_le|done|..].
    + intros m Hm. by apply Hpl.
    + intros m Hm Hg. destruct (Hpl m Hm) as (_ & ? & _). congruence.
    + intros m Hm Hg. destruct (Hpl m Hm) as (_ & _ & ?). congruence.
    + intros m Hm Hg. destruct (Hpl m Hm) as (_ & ? & _). congruence.
  - unfold election_backed. destruct (role n') as [| |k|l] eqn:Er; try done; simpl in *.
    + by destruct Hr.
    + left. split; [done|]. unfold hard_state in Hh. by simplify_eq.
Qed.

Lemma node_propose_backed n cmd n' idx e :
  Node.propose n cmd = Some (n', Ok (idx, e)) -> node_ok n n' e /\ election_backed n Tick n'.
Proof. intros [H _]%node_propose_hard. by apply leader_op_ok. Qed.

(** ** Properties *)

(** C13. In every step of a node, whatever its role and the event, except an election that is
    started at term [u64::MAX], the term does not decrease, and a vote cast in the current
    term is never withdrawn or changed while the term stays.
    [election_at_max_term_wraps] shows that the exception is real. *)
Theorem term_monotone_vote_once n ev n' e
    (Hov : no_term_overflow n ev = true) (Hs : step_event n ev = (n', e)) :
  node_term n <= node_term n' /\
  (node_term n' = node_term n -> forall k, voted_for (node_persistent n) = Some k ->
     voted_for (node_persistent n') = Some k).
Proof.
  destruct (no_hs _ _ _ (step_event_ok _ _ _ _ Hov Hs)) as [Ht Hv]. split; [done|].
  intros Heq k Hk. destruct (Hv Heq) as [Hn|Hn]; unfold vote, node_persistent in *; congruence.
Qed.

(** A three-node follower that has voted for node 2 in term 5. *)
Definition voter_node : RaftNode :=
  Node.restore (Config_new 1) (mkPersistent 5 (Some 2) Log_default (simple [1; 2; 3])).

Definition rival_request : Message :=
  mkMessage 3 1 5 (VoteReq (mkVoteRequest 9 4)).

Lemma term_monotone_vote_once_witness :
  let n' := fst (Node.step voter_node rival_request) in
  5 <= node_term n' /\ voted_for (node_persistent n') = Some 2.
Proof.
  destruct (term_monotone_vote_once voter_node (MessageEvent rival_request)
              (fst (Node.step voter_node rival_request))
              (snd (Node.step voter_node rival_request)))
    as [Ht Hv]; [vm_compute; reflexivity|apply surjective_pairing|].
  split; [exact Ht|]. apply Hv; vm_compute; reflexivity.
Defined.

(** A step whose effects do not ask for persistence leaves the term and the
    vote as they were: the driver that syncs only on [Effects::persist] never
    loses a hard-state change. *)
Theorem persist_announces_hard_state n ev n' e
    (Hov : no_term_overflow n ev = true) (Hs : step_event n ev = (n', e))
    (Hp : persist e = false) :
  node_term n' = node_term n /\
  voted_for (node_persistent n') = voted_for (node_persistent n).
Proof.
  pose proof (no_persist _ _ _ (step_event_ok _ _ _ _ Hov Hs) Hp) as Hh.
  unfold hard_state, vote in Hh. by simplify_eq.
Qed.

Lemma persist_announces_hard_state_witness :
  node_term (fst (Node.step voter_node rival_request)) = 5.
Proof.
  destruct (persist_announces_hard_state voter_node (MessageEvent rival_request)
              (fst (Node.step voter_node rival_request))
              (snd (Node.step voter_node rival_request))) as [Ht _];
    [vm_compute; reflexivity|apply surjective_pairing|vm_compute; reflexivity|].
  exact Ht.
Defined.

(** A granted vote response leaves a node only in its current term and only
    when its hard state, after the step, records the vote for the addressee; and
    the same step asks for persistence. *)
Theorem granted_votes_are_recorded n ev n' e m
    (Hov : no_term_overflow n ev = true) (Hs : step_event n ev = (n', e))
    (Hm : m ∈ messages e) (Hg : granted m = true) :
  msg_term m = node_term n' /\ voted_for (node_persistent n') = Some (msg_to m) /\
  persist e = true.
Proof.
  pose proof (step_event_ok _ _ _ _ Hov Hs) as Hok.
  destruct (no_granted _ _ _ Hok m Hm Hg) as [Ht Hv]. split_and!; [done..|].
  by eapply no_electoral.
Qed.

Definition fresh_voter : RaftNode := Node.new (Config_new 1) [1; 2; 3].
Definition first_request : Message := mkMessage 2 1 1 (VoteReq (mkVoteRequest 0 0)).

Lemma granted_votes_are_recorded_witness :
  voted_for (node_persistent (fst (Node.step fresh_voter first_request))) = Some 2.
Proof.
  destruct (granted_votes_are_recorded fresh_voter (MessageEvent first_request)
              (fst (Node.step fresh_voter first_request))
              (snd (Node.step fresh_voter first_request))
              (mkMessage 1 2 1 (VoteResp (mkVoteResponse true)))) as (_ & Hv & _);
    [vm_compute; reflexivity|apply surjective_pairing| |reflexivity|exact Hv].
  assert (messages (snd (Node.step fresh_voter first_request)) =
          [mkMessage 1 2 1 (VoteResp (mkVoteResponse true))]) as -> by (vm_compute; reflexivity).
  apply list_elem_of_singleton. reflexivity.
Defined.

(** The term increment of an election is unchecked: a node whose term is
    [u64::MAX] that starts an election wraps to term 0, so the term monotonicity
    documented on [maybe_update_term] fails exactly there. *)
Theorem election_at_max_term_wraps c (Hmax : term c = u64_max) :
  term (start_election c) = 0 /\ term (start_election c) < term c.
Proof.
  assert (term (start_election c) = 0) as ->.
  { change (term c +u 1 = 0). rewrite Hmax. apply wadd_succ_overflow. }
  split; [done|]. by rewrite Hmax.
Qed.

Lemma election_at_max_term_wraps_witness :
  term (start_election (Core_restore (Config_new 1)
          (mkPersistent u64_max None Log_default (simple [1; 2; 3])))) = 0.
Proof.
  apply (election_at_max_term_wraps (Core_restore (Config_new 1)
    (mkPersistent u64_max None Log_default (simple [1; 2; 3])))). reflexivity.
Defined.
