(* ===== verification/Group.v ===== *)
(** * Group: Raft nodes whose membership changes

    The consensus crate is a library: a caller drives a [RaftNode] and must make
    its persistent state durable before it sends the messages of a step
    ([lib.rs], [raft/event.rs]).  A group is a set of nodes driven that way over a
    network that loses, duplicates, delays and reorders messages, with every
    operation of [raft/mod.rs]: ticks, messages, completed disk writes, proposals,
    configuration changes, reads, leadership transfers, and with crashes at any
    point.  The environment may inject any message that does not grant a vote, such as
    the snapshots that the caller of the library ships.

    Unlike [Cluster], which follows the runtime of the shipped server and its fixed
    membership, a group lets every node act under the configuration at the end of
    its own log.  A won election is recorded with that configuration.  Elections of a
    term whose configurations overlap elect one node
    ([overlapping_elections_agree]); [Reconfiguration] shows what happens when they do
    not. *)

From S2P Require Import Prelude.
From S2P Require Import Types.
From S2P Require Import Membership.
From S2P Require Import Log.
From S2P Require Import Event.
From S2P Require Import Core.
From S2P Require Import Follower.
From S2P Require Import Candidate.
From S2P Require Import Leader.
From S2P Require Import Node.
From S2P Require Import HardState.

(** ** The operations of a node *)

Inductive Operation : Type :=
| OpEvent (ev : Event)
| OpPropose (cmd : Command)
| OpChange (change : ConfigChange)
| OpRead
| OpTransfer (target : N).

(** The effects of a result; a refused operation has none. *)
Definition effects_of {A E : Type} (r : result (A * Effects) E) : Effects :=
  match r with Ok (_, e) => e | Err _ => none end.

(** [None]: the term is [u64::MAX], or a size check of the proposal panics. *)
Definition perform (n : RaftNode) (op : Operation) : option (RaftNode * Effects) :=
  match op with
  | OpEvent ev => if no_term_overflow n ev then Some (step_event n ev) else None
  | OpPropose cmd =>
      match Node.propose n cmd with
      | Some (n', r) => Some (n', effects_of r)
      | None => None
      end
  | OpChange change =>
      let '(n', r) := Node.propose_config_change n change in Some (n', effects_of r)
  | OpRead => let '(n', r) := Node.request_read_index n in Some (n', effects_of r)
  | OpTransfer target =>
      match Node.transfer_leadership n target with
      | Ok e => Some (n, e)
      | Err _ => Some (n, none)
      end
  end.

(** ** The group *)

(** A node with what its caller has made durable. *)
Record Member : Type := mkMember {
  m_node : RaftNode;
  m_disk : Persistent
}.

(** A won election: the term, the winner and the configuration it acted under. *)
Record Election : Type := mkElection {
  el_term : N;
  el_leader : N;
  el_config : Configuration
}.

Record Group : Type := mkGroup {
  members : gmap N Member;
  wire : list Message;
  elections : list Election
}.

Inductive GroupAction : Type :=
| GOperate (i : N) (op : Operation)
| GDeliver (k : nat)
| GInject (m : Message)
| GCrash (i : N).

(** Does the step make the node leader of a term it did not lead? *)
Definition won (n n' : RaftNode) : bool :=
  is_leader n' && negb (is_leader n && (node_term n =? node_term n')).

Definition election_of (i : N) (n n' : RaftNode) : list Election :=
  if won n n' then [mkElection (node_term n') i (effective_config (core n'))] else [].

(** The caller saves what must be saved, then sends. *)
Definition settle (g : Group) (i : N) (m : Member) (n' : RaftNode) (e : Effects) : Group :=
  let disk := if persist e then node_persistent n' else m_disk m in
  mkGroup (<[i := mkMember n' disk]> (members g)) (wire g ++ messages e)
    (elections g ++ election_of i (m_node m) n').

Definition operate (g : Group) (i : N) (op : Operation) : option Group :=
  match members g !! i with
  | Some m =>
      match perform (m_node m) op with
      | Some (n', e) => Some (settle g i m n' e)
      | None => None
      end
  | None => None
  end.

(** A message reaches the node only as a delivery. *)
Definition is_message (op : Operation) : bool :=
  match op with OpEvent (MessageEvent _) => true | _ => false end.

Definition group_exec (g : Group) (a : GroupAction) : option Group :=
  match a with
  | GOperate i op => if is_message op then None else operate g i op
  | GDeliver k =>
      match wire g !! k with
      | Some m => operate g (msg_to m) (OpEvent (MessageEvent m))
      | None => None
      end
  | GInject m =>
      if granted m then None else Some (mkGroup (members g) (wire g ++ [m]) (elections g))
  | GCrash i =>
      match members g !! i with
      | Some m =>
          let n' := restore (config (core (m_node m))) (m_disk m) in
          Some (mkGroup (<[i := mkMember n' (m_disk m)]> (members g)) (wire g) (elections g))
      | None => None
      end
  end.

Fixpoint group_run (g : Group) (acts : list GroupAction) : option Group :=
  match acts with
  | [] => Some g
  | a :: acts' => match group_exec g a with Some g' => group_run g' acts' | None => None end
  end.

(** A new node of a group, which starts from the given voters. *)
Definition new_member (cfg : Config) (vs : list N) : Member :=
  let n := Node.new cfg vs in mkMember n (node_persistent n).

(** The nodes of a group need not start from the same voters. *)
Definition group_initial (cfgs : gmap N (Config * list N)) : Group :=
  mkGroup ((fun '(cfg, vs) => new_member cfg vs) <$> cfgs) [] [].

Definition well_named (cfgs : gmap N (Config * list N)) : Prop :=
  forall i cfg vs, cfgs !! i = Some (cfg, vs) -> cfg_id cfg = i.

(** ** One operation *)

Lemma read_index_op n n' r :
  Node.request_read_index n = (n', r) ->
  leader_op n n' (effects_of r) \/ (n' = n /\ effects_of r = none).
Proof.
  unfold Node.request_read_index.
  destruct (role n) as [| | |l] eqn:Hr; try (intros; simplify_eq; by right).
  destruct (Leader.request_read_index l (core n)) as [l' r'] eqn:Eq. intros. simplify_eq. left.
  assert (plain_sends (core n) (effects_of r)) as Hp.
  { revert Eq. unfold Leader.request_read_index.
    repeat case_match; intros; simplify_eq/=; auto using read_index_requests_plain with basis. }
  split_and!; [done|done| |by left]. unfold is_leader. by rewrite Hr.
Qed.

Lemma transfer_plain n target e :
  Node.transfer_leadership n target = Ok e -> plain_sends (core n) e.
Proof.
  unfold Node.transfer_leadership, Leader.transfer_leadership.
  repeat case_match; intros; simplify_eq; auto with basis.
Qed.

(** A node that does not move. *)
Lemma node_ok_idle n e : plain_sends (core n) e -> node_ok n n e.
Proof.
  intros Hp. split; [done|done|done|by apply Hp|..];
    intros m Hm Hg; destruct (Hp m Hm) as (_ & ? & ?); congruence.
Qed.

Lemma backed_idle n ev : election_backed n ev n.
Proof.
  unfold election_backed. destruct (role n) as [| |k|l] eqn:Hr; try done.
  - intros v Hv. right. left. by exists k.
  - left. unfold is_leader. by rewrite Hr.
Qed.

(** The event of an operation, as far as the origin of votes is concerned. *)
Definition op_event (op : Operation) : Event :=
  match op with OpEvent ev => ev | _ => Tick end.

Lemma operation_ok n op n' e :
  perform n op = Some (n', e) -> node_ok n n' e /\ election_backed n (op_event op) n'.
Proof.
  assert (node_ok n n none /\ election_backed n (op_event op) n) as Hidle
    by (split; [apply node_ok_idle; auto with basis|apply backed_idle]).
  destruct op as [ev|cmd|change| |target]; simpl.
  - destruct (no_term_overflow n ev) eqn:Hov; [|done]. intros [= Hs].
    split; [by eapply step_event_ok|by eapply step_event_backed].
  - destruct (Node.propose n cmd) as [[n1 [[i e1]|err]]|] eqn:Ep; intros; simplify_eq.
    + by eapply node_propose_backed.
    + unfold Node.propose in Ep. by repeat case_match; simplify_eq.
  - destruct (Node.propose_config_change n change) as [n1 [[i e1]|err]] eqn:Ep; intros; simplify_eq;
      apply node_change_hard in Ep.
    + destruct Ep as [Ep _]. by apply leader_op_ok.
    + by subst.
  - destruct (Node.request_read_index n) as [n1 r] eqn:Ep. intros. simplify_eq.
    destruct (read_index_op _ _ _ Ep) as [Hop|[-> ->]]; [by apply leader_op_ok|done].
  - destruct (Node.transfer_leadership n target) as [e1|err] eqn:Et; intros; simplify_eq; [|done].
    split; [|apply backed_idle]. by eapply node_ok_idle, transfer_plain.
Qed.

(** ** The invariant *)

Abbreviation mterm m := (term (core (m_node m))).
Abbreviation mvote m := (vote (core (m_node m))).

(** The disk records the term and the vote the node acts under. *)
Definition member_ok (i : N) (m : Member) : Prop :=
  id (core (m_node m)) = i /\ p_term (m_disk m) = mterm m /\ voted_for (m_disk m) = mvote m.

(** [B v t k]: node [v] has cast its vote of term [t] for [k]. *)
Record group_inv (B : N -> N -> N -> Prop) (g : Group) : Prop := mkGroupInv {
  gi_member : forall i m, members g !! i = Some m -> member_ok i m;
  gi_ballot : forall v t k, B v t k -> exists m, members g !! v = Some m /\
     t <= mterm m /\ (t = mterm m -> mvote m = Some k);
  gi_vote : forall i m k, members g !! i = Some m -> mvote m = Some k -> B i (mterm m) k;
  gi_once : forall v t k k', B v t k -> B v t k' -> k = k';
  gi_granted : forall m, m ∈ wire g -> granted m = true -> B (msg_from m) (msg_term m) (msg_to m);
  gi_cand : forall i m k v, members g !! i = Some m -> role (m_node m) = RCandidate k ->
     v ∈ votes k -> B v (mterm m) i;
  gi_lead : forall i m, members g !! i = Some m -> is_leader (m_node m) = true ->
     exists c, mkElection (mterm m) i c ∈ elections g;
  gi_election : forall el, el ∈ elections g -> exists S : gset N,
     Membership.has_quorum (el_config el) (fun v => bool_decide (v ∈ S)) = true /\
     forall v, v ∈ S -> B v (el_term el) (el_leader el)
}.

Section Step.

Context (B : N -> N -> N -> Prop) (g : Group) (Hinv : group_inv B g).
Context (i : N) (m : Member) (Hm : members g !! i = Some m) (n' : RaftNode) (e : Effects).
Context (Hok : node_ok (m_node m) n' e) (ev : Event) (Hbk : election_backed (m_node m) ev n').
Context (Hev : forall msg, ev = MessageEvent msg -> msg ∈ wire g /\ msg_to msg = i).

(** The ballots after the step. *)
Definition ballots : N -> N -> N -> Prop := fun v t k =>
  B v t k \/ (v = i /\ t = term (core n') /\ vote (core n') = Some k).

Lemma settled_id : id (core n') = i.
Proof using Hinv Hm Hok.
  rewrite (id_same _ _ (no_identity _ _ _ Hok)). by destruct (gi_member _ _ Hinv _ _ Hm).
Qed.

Lemma settled_member : member_ok i (mkMember n' (if persist e then node_persistent n' else m_disk m)).
Proof using Hinv Hm Hok.
  destruct (gi_member _ _ Hinv _ _ Hm) as (_ & Ht & Hv). split; [apply settled_id|]. simpl.
  destruct (persist e) eqn:Ep; [done|]. pose proof (no_persist _ _ _ Hok Ep) as Hh.
  unfold hard_state in Hh. split; congruence.
Qed.

Lemma ballots_recorded v t k :
  ballots v t k -> exists m1, members (settle g i m n' e) !! v = Some m1 /\
    t <= mterm m1 /\ (t = mterm m1 -> mvote m1 = Some k).
Proof using Hinv Hm Hok.
  intros [HB|(-> & -> & Hv)]; simpl.
  - destruct (gi_ballot _ _ Hinv _ _ _ HB) as (m0 & H0 & Ht & Hk).
    destruct (decide (v = i)) as [->|Hne]; [|rewrite lookup_insert_ne by done; eauto].
    rewrite lookup_insert_eq. eexists. split; [done|]. simpl. assert (m0 = m) as -> by congruence.
    destruct (no_hs _ _ _ Hok) as [Hle Hstay]. split; [lia|]. intros Heq.
    destruct Hstay as [Hn|Hs]; [lia| |]; rewrite Hk in * by lia; done.
  - rewrite lookup_insert_eq. eexists. split; [done|]. simpl. split; [lia|done].
Qed.

Lemma ballots_once v t k k' : ballots v t k -> ballots v t k' -> k = k'.
Proof using Hinv Hm Hok.
  assert (forall k0, ballots i (term (core n')) k0 -> vote (core n') = Some k0) as Hown.
  { intros k0 H0. destruct (ballots_recorded _ _ _ H0) as (m1 & Hm1 & _ & Hk1).
    simpl in Hm1. rewrite lookup_insert_eq in Hm1. simplify_eq. by apply Hk1. }
  intros H1 H2. pose proof H1 as H1'. pose proof H2 as H2'.
  destruct H1 as [H1|(-> & -> & Hv1)], H2 as [H2|(Hi & Ht & Hv2)]; subst.
  - by eapply gi_once.
  - apply Hown in H1'. congruence.
  - apply Hown in H2'. congruence.
  - congruence.
Qed.

Lemma sourced_ballot v : vote_source (m_node m) ev n' v -> ballots v (term (core n')) i.
Proof using Hinv Hm Hok Hev.
  intros [[-> Hv]|[(k & Hr & Ht & Hv)|(msg & Hmsg & Hg & Ht & Hfr)]].
  - right. rewrite settled_id in *. done.
  - left. rewrite Ht. by eapply gi_cand.
  - left. destruct (Hev _ Hmsg) as [Hin <-]. rewrite <- Ht, <- Hfr. by eapply gi_granted.
Qed.

Lemma still_leading :
  is_leader n' = true -> won (m_node m) n' = false ->
  is_leader (m_node m) = true /\ mterm m = term (core n').
Proof.
  unfold won, node_term. intros ->. simpl. rewrite negb_false_iff. intros. by unbool.
Qed.

Lemma won_quorum :
  won (m_node m) n' = true -> exists S : gset N,
    Membership.has_quorum (effective_config (core n')) (fun v => bool_decide (v ∈ S)) = true /\
    forall v, v ∈ S -> ballots v (term (core n')) i.
Proof using Hinv Hm Hok Hbk Hev.
  unfold won, node_term. intros Hw. apply andb_true_iff in Hw as [Hl Hnew].
  unfold election_backed, is_leader in *. destruct (role n'); try done.
  destruct Hbk as [[Hold Ht]|(S & Hq & HS)].
  - rewrite Hold, Ht, N.eqb_refl in Hnew. done.
  - exists S. split; [done|]. intros v Hv. by apply sourced_ballot, HS.
Qed.

Lemma settle_inv : group_inv ballots (settle g i m n' e).
Proof using Hinv Hm Hok Hbk Hev.
  split; simpl.
  - intros j m1. destruct (decide (j = i)) as [->|Hne].
    + rewrite lookup_insert_eq. intros [= <-]. apply settled_member.
    + rewrite lookup_insert_ne by done. apply Hinv.
  - apply ballots_recorded.
  - intros j m1 k. destruct (decide (j = i)) as [->|Hne].
    + rewrite lookup_insert_eq. intros [= <-] Hv. by right.
    + rewrite lookup_insert_ne by done. intros H1 Hv. left. by eapply gi_vote.
  - apply ballots_once.
  - intros msg [Hin|Hin]%elem_of_app Hg; [left; by eapply gi_granted|]. right.
    destruct (no_granted _ _ _ Hok _ Hin Hg) as [-> Hv]. split_and!; [|done|done].
    rewrite (no_from _ _ _ Hok _ Hin). by destruct (gi_member _ _ Hinv _ _ Hm).
  - intros j m1 k v. destruct (decide (j = i)) as [->|Hne].
    + rewrite lookup_insert_eq. intros [= <-] Hr Hv. apply sourced_ballot.
      simpl in Hr. unfold election_backed in Hbk. rewrite Hr in Hbk. auto.
    + rewrite lookup_insert_ne by done. intros H1 Hr Hv. left. by eapply gi_cand.
  - intros j m1. destruct (decide (j = i)) as [->|Hne].
    + rewrite lookup_insert_eq. intros [= <-] Hl. simpl in *. unfold election_of.
      destruct (won (m_node m) n') eqn:Hw.
      * eexists. apply elem_of_app. right. by left.
      * destruct (still_leading Hl Hw) as [Hl0 Ht].
        destruct (gi_lead _ _ Hinv _ _ Hm Hl0) as [c Hc]. exists c. rewrite <- Ht.
        apply elem_of_app. by left.
    + rewrite lookup_insert_ne by done. intros H1 Hl.
      destruct (gi_lead _ _ Hinv _ _ H1 Hl) as [c Hc]. exists c. apply elem_of_app. by left.
  - intros el [Hel|Hel]%elem_of_app.
    + destruct (gi_election _ _ Hinv _ Hel) as (S & Hq & HS). exists S. split; [done|].
      intros v Hv. left. auto.
    + unfold election_of in Hel. destruct (won (m_node m) n') eqn:Hw; [|inversion Hel].
      apply list_elem_of_singleton in Hel as ->. by apply won_quorum.
Qed.

End Step.

(** A restarted node remembers its term and its vote and leads nothing. *)
Lemma restored_hard cfg d :
  term (core (restore cfg d)) = p_term d /\ vote (core (restore cfg d)) = voted_for d /\
  id (core (restore cfg d)) = cfg_id cfg /\ role_is_follower (role (restore cfg d)) = true.
Proof.
  unfold restore. destruct (Follower.new _ _) as [c f] eqn:Ef. apply follower_new_core in Ef. by subst.
Qed.

Lemma crash_inv B g i m :
  group_inv B g -> members g !! i = Some m ->
  group_inv B (mkGroup (<[i := mkMember (restore (config (core (m_node m))) (m_disk m)) (m_disk m)]>
    (members g)) (wire g) (elections g)).
Proof.
  intros Hinv Hm. destruct (gi_member _ _ Hinv _ _ Hm) as (Hid & Ht & Hv).
  destruct (restored_hard (config (core (m_node m))) (m_disk m)) as (Ht' & Hv' & Hid' & Hr).
  fold (id (core (m_node m))) in Hid'. rewrite Ht in Ht'. rewrite Hv in Hv'. destruct Hinv as [H1 H2 H3 H4 H5 H6 H7 H8].
  set (m' := mkMember _ _). split; simpl; [| | |done|done| | |done].
  - intros j m1. destruct (decide (j = i)) as [->|Hne]; [|rewrite lookup_insert_ne by done; auto].
    rewrite lookup_insert_eq. intros [= <-]. unfold member_ok. simpl. split_and!; congruence.
  - intros v t k (m1 & Hm1 & ?)%H2. destruct (decide (v = i)) as [->|Hne];
      [|rewrite lookup_insert_ne by done; eauto].
    rewrite lookup_insert_eq. simplify_eq. exists m'. unfold m'. simpl. by rewrite Ht', Hv'.
  - intros j m1 k. destruct (decide (j = i)) as [->|Hne]; [|rewrite lookup_insert_ne by done; auto].
    rewrite lookup_insert_eq. intros [= <-]. unfold m'. simpl. rewrite Ht', Hv'. auto.
  - intros j m1 k v. destruct (decide (j = i)) as [->|Hne]; [|rewrite lookup_insert_ne by done; eauto].
    rewrite lookup_insert_eq. intros [= <-] Hk. unfold m' in Hk. simpl in Hk. by rewrite Hk in Hr.
  - intros j m1. destruct (decide (j = i)) as [->|Hne]; [|rewrite lookup_insert_ne by done; eauto].
    rewrite lookup_insert_eq. intros [= <-] Hl. unfold m', is_leader in Hl. simpl in Hl.
    by destruct (role _).
Qed.

Lemma inject_inv B g m :
  group_inv B g -> granted m = false -> group_inv B (mkGroup (members g) (wire g ++ [m]) (elections g)).
Proof.
  intros [] Hg. split; try done. simpl.
  intros m' [Hin|Hin]%elem_of_app; [auto|]. apply list_elem_of_singleton in Hin as ->. congruence.
Qed.

Lemma operate_inv B g i op g' :
  group_inv B g -> operate g i op = Some g' ->
  (forall msg, op_event op = MessageEvent msg -> msg ∈ wire g /\ msg_to msg = i) ->
  exists B', group_inv B' g'.
Proof.
  intros Hinv Ho Hev. unfold operate in Ho. destruct (members g !! i) as [m|] eqn:Hm; [|done].
  destruct (perform (m_node m) op) as [[n' e]|] eqn:Ep; [|done]. simplify_eq.
  destruct (operation_ok _ _ _ _ Ep). eexists. by eapply settle_inv.
Qed.

Lemma group_exec_inv B g a g' :
  group_inv B g -> group_exec g a = Some g' -> exists B', group_inv B' g'.
Proof.
  intros Hinv. destruct a as [i op|k|m|i]; simpl.
  - destruct (is_message op) eqn:Hmsg; [done|]. intros Ho. eapply operate_inv; [done|exact Ho|].
    by destruct op as [[]| | | |].
  - destruct (wire g !! k) as [m|] eqn:Hk; [|done]. intros Ho.
    eapply operate_inv; [done|exact Ho|]. intros msg [= <-]. split; [|done].
    apply list_elem_of_lookup. eauto.
  - destruct (granted m) eqn:Hg; [done|]. intros [= <-]. exists B. by apply inject_inv.
  - destruct (members g !! i) as [m|] eqn:Hm; [|done]. intros [= <-]. exists B. by apply crash_inv.
Qed.

Lemma group_run_inv B g acts g' :
  group_inv B g -> group_run g acts = Some g' -> exists B', group_inv B' g'.
Proof.
  revert B g. induction acts as [|a acts IH]; intros B g Hinv; simpl; [intros [= <-]; eauto|].
  destruct (group_exec g a) as [g1|] eqn:Ea; [|done].
  destruct (group_exec_inv _ _ _ _ Hinv Ea) as [B1 H1]. by apply (IH B1).
Qed.

Lemma group_initial_inv cfgs :
  well_named cfgs -> group_inv (fun _ _ _ => False) (group_initial cfgs).
Proof.
  intros Hnames.
  assert (forall i m, members (group_initial cfgs) !! i = Some m ->
    member_ok i m /\ mvote m = None /\ role_is_follower (role (m_node m)) = true) as Hnew.
  { intros i m. simpl. rewrite lookup_fmap. destruct (cfgs !! i) as [[cfg vs]|] eqn:Ec; [|done].
    intros [= <-]. unfold new_member, Node.new. destruct (Follower.new _ _) as [c f] eqn:Ef.
    apply follower_new_core in Ef. subst. unfold member_ok. simpl. split_and!; try done.
    by apply Hnames in Ec. }
  split; simpl; try done.
  - intros i m Hm. by apply Hnew.
  - intros i m k Hm Hv. destruct (Hnew _ _ Hm) as (_ & Hn & _). congruence.
  - intros m Hm. inversion Hm.
  - intros i m k v Hm Hr. destruct (Hnew _ _ Hm) as (_ & _ & Hf). by rewrite Hr in Hf.
  - intros i m Hm Hl. destruct (Hnew _ _ Hm) as (_ & _ & Hf). unfold is_leader in Hl. by destruct (role _).
  - intros el Hel. inversion Hel.
Qed.

(** Configurations one accepted step apart: the same, before and after a change that
    [validate] accepts, or a joint configuration and its target. *)
Inductive adjacent : Configuration -> Configuration -> Prop :=
| adjacent_same c : adjacent c c
| adjacent_change change mode c :
    validate change c mode = Ok tt -> adjacent c (apply change c mode)
| adjacent_exit c target : transition_target c = Some target -> adjacent c target.

Lemma adjacent_overlap c c' f f' :
  adjacent c c' -> Membership.has_quorum c f = true -> Membership.has_quorum c' f' = true ->
  exists v, f v = true /\ f' v = true.
Proof.
  intros [c0|change mode c0 Hv|c0 target Ht] Hf Hf'.
  - assert (exists s, s ∈ voter_sets c0) as [s Hs] by (destruct c0; eexists; left).
    destruct (quorums_overlap c0 c0 s s f f') as (v & _ & _ & ? & ?); [done..|by left|done|done|]. eauto.
  - destruct (change_overlap _ _ _ _ _ Hv Hf Hf') as (v & _ & _ & ? & ?). eauto.
  - destruct c0 as [|o n l]; simpl in Ht; simplify_eq.
    destruct (quorums_overlap (Joint o n l) (Simple n l) n n f f') as (v & _ & _ & ? & ?);
      [right; left|left|by left|done|done|]. eauto.
Qed.

(** Every quorum of one configuration shares a node with every quorum of the other. *)
Definition overlapping (c c' : Configuration) : Prop :=
  forall f f', Membership.has_quorum c f = true -> Membership.has_quorum c' f' = true ->
    exists v, f v = true /\ f' v = true.

Lemma elections_agree B g e1 e2 :
  group_inv B g -> e1 ∈ elections g -> e2 ∈ elections g -> el_term e1 = el_term e2 ->
  overlapping (el_config e1) (el_config e2) -> el_leader e1 = el_leader e2.
Proof.
  intros Hinv H1 H2 Ht Hmeet.
  destruct (gi_election _ _ Hinv _ H1) as (S1 & Hq1 & HS1).
  destruct (gi_election _ _ Hinv _ H2) as (S2 & Hq2 & HS2).
  destruct (Hmeet _ _ Hq1 Hq2) as (v & Hv1 & Hv2). unbool.
  eapply (gi_once _ _ Hinv); [by apply HS1|]. rewrite Ht. by apply HS2.
Qed.

(** C4. Election safety while the membership changes: in every execution of a group,
    with every operation of the library, message loss, duplication and reordering,
    crashes, and injected messages other than granted votes, a node that leads a term
    has won an election recorded with the configuration it acted under, and two
    elections of one term have the same winner if the quorums of their configurations
    overlap.  They do if the configurations are the same, or one accepted change or one
    end of a joint change apart.  [Reconfiguration] shows that the code does not keep the
    configurations of a term that close. *)
Theorem overlapping_elections_agree cfgs acts g
    (Hnames : well_named cfgs) (Hrun : group_run (group_initial cfgs) acts = Some g) :
  (forall i m, members g !! i = Some m -> is_leader (m_node m) = true ->
     exists c, mkElection (node_term (m_node m)) i c ∈ elections g) /\
  (forall e1 e2, e1 ∈ elections g -> e2 ∈ elections g -> el_term e1 = el_term e2 ->
     overlapping (el_config e1) (el_config e2) -> el_leader e1 = el_leader e2) /\
  (forall c c', adjacent c c' -> overlapping c c').
Proof.
  destruct (group_run_inv _ _ _ _ (group_initial_inv _ Hnames) Hrun) as [B Hinv].
  split; [by apply Hinv|]. split.
  - intros e1 e2 H1 H2 Ht Hov. by eapply elections_agree.
  - intros c c' Hadj f f'. by apply adjacent_overlap.
Qed.

(** A group of three nodes elects node 1. *)
Definition trio_group : gmap N (Config * list N) :=
  list_to_map ((fun i => (i, (Config_new i, [1; 2; 3]))) <$> [1; 2; 3]).

Lemma trio_group_named : well_named trio_group.
Proof.
  intros i cfg vs H. apply elem_of_list_to_map_2 in H.
  apply list_elem_of_fmap in H as (j & [= -> -> ->] & _). done.
Qed.

Definition elect_first : list GroupAction :=
  replicate 236 (GOperate 1 (OpEvent Tick)) ++ (GDeliver <$> [0; 2; 3; 5]%nat).

Lemma overlapping_elections_agree_witness :
  exists g m c, group_run (group_initial trio_group) elect_first = Some g /\
    members g !! 1 = Some m /\ is_leader (m_node m) = true /\
    mkElection (node_term (m_node m)) 1 c ∈ elections g /\
    forall e, e ∈ elections g -> el_term e = node_term (m_node m) -> el_config e = c -> el_leader e = 1.
Proof.
  destruct (group_run (group_initial trio_group) elect_first) as [g|] eqn:E;
    [|vm_compute in E; discriminate E].
  destruct (overlapping_elections_agree trio_group elect_first g trio_group_named E)
    as (Hlead & Hsame & Hadj).
  assert (is_Some (members g !! 1)) as [m Hm] by (vm_compute in E; injection E as <-; eexists; reflexivity).
  assert (is_leader (m_node m) = true) as Hl.
  { vm_compute in E. injection E as <-. vm_compute in Hm. injection Hm as <-. reflexivity. }
  destruct (Hlead 1 m Hm Hl) as [c Hc]. exists g, m, c.
  split_and!; [reflexivity|exact Hm|exact Hl|exact Hc|]. intros e He Ht Hec.
  apply (Hsame e _ He Hc Ht). apply Hadj. rewrite Hec. apply adjacent_same.
Defined.
