(* ===== verification/Reconfiguration.v ===== *)
(** * Reconfiguration: membership changes that go wrong

    Three behaviours of the membership changes of [raft/leader.rs], as theorems about the
    groups of [Group], in the default configuration of the library except for the
    membership mode.

    [propose_config_change] refuses a change while the log holds an uncommitted
    configuration, but does not wait until the leader has committed an entry of its own
    term.  A leader can therefore change the configuration it was elected under while
    a change of an earlier leader is still stored on another node, and the two changed
    configurations need not overlap: two nodes lead one term, and commit different
    entries ([single_changes_elect_two_leaders]).

    [process_committed_configs] completes every joint configuration that the commit index
    passes, and the commit index starts at 0 after a restart, so a leader that has
    restarted completes a joint change a second time and undoes every later change
    ([restart_reverts_membership]).

    Conversely a leader that learned as a follower that a joint configuration is
    committed never completes it, and refuses every other change
    ([committed_joint_is_never_left]). *)

From S2P Require Import Prelude.
From S2P Require Import Types.
From S2P Require Import Membership.
From S2P Require Import Log.
From S2P Require Import Event.
From S2P Require Import Core.
From S2P Require Import Follower.
From S2P Require Import Leader.
From S2P Require Import Node.
From S2P Require Import HardState.
From S2P Require Import Group.

(** ** Running a group *)

Definition group_checks (cfgs : gmap N (Config * list N)) (acts : list GroupAction)
    (p : Group -> bool) : bool :=
  match group_run (group_initial cfgs) acts with Some g => p g | None => false end.

Lemma group_checks_run cfgs acts p :
  group_checks cfgs acts p = true ->
  exists g, group_run (group_initial cfgs) acts = Some g /\ p g = true.
Proof. unfold group_checks. destruct (group_run _ _) as [g|]; [eauto|done]. Qed.

Definition ticks_at (i : N) (k : nat) : list GroupAction := replicate k (GOperate i (OpEvent Tick)).
Definition deliver_all (ks : list nat) : list GroupAction := GDeliver <$> ks.
Definition synced_to (i index : N) : GroupAction := GOperate i (OpEvent (DiskWriteComplete index)).
Definition asks (i : N) (cmd : Command) : GroupAction := GOperate i (OpPropose cmd).
Definition changes (i : N) (change : ConfigChange) : GroupAction := GOperate i (OpChange change).

Definition at_member {A} (g : Group) (i : N) (f : RaftNode -> A) : option A :=
  (fun m => f (m_node m)) <$> members g !! i.

(** The entry node [i] has committed at [k]. *)
Definition committed_entry (g : Group) (i k : N) : option Entry :=
  match members g !! i with
  | Some m => if k <=? node_commit_index (m_node m) then get (log (core (m_node m))) k else None
  | None => None
  end.

(** Nodes with the library's default configuration in a membership mode. *)
Definition fresh_group (mode : MembershipMode) (ids : list N) : gmap N (Config * list N) :=
  list_to_map ((fun i => (i, (with_membership_mode (Config_new i) mode, ids))) <$> ids).

(** ** Two single-server changes *)

(** Node 1 leads term 1 and removes node 4; nobody hears of it. *)
Definition remove_4 : list GroupAction :=
  ticks_at 1 236 ++ deliver_all [0; 1; 3; 4; 5; 6; 7; 8; 9]%nat ++ [changes 1 (RemoveVoter 4)].

(** Node 2 leads term 2, elected by nodes 3 and 4, removes node 1 and commits that and
    a command with node 4. *)
Definition remove_1 : list GroupAction :=
  ticks_at 2 211 ++ deliver_all [17; 18; 19; 20; 21; 22; 23; 24; 25]%nat ++
  [changes 2 (RemoveVoter 1); synced_to 2 1; GDeliver 30; GDeliver 31;
   asks 2 [Byte.x62]; synced_to 2 2; GDeliver 33; GDeliver 34].

(** In term 3 node 1 is elected by node 3, and node 4, to which node 2 hands over, by
    node 2. *)
Definition two_elections : list GroupAction :=
  [GOperate 2 (OpTransfer 4); GDeliver 35] ++ ticks_at 1 199 ++
  deliver_all [39; 40; 42; 43; 36; 36; 46]%nat.

(** Node 1 commits another command with node 3. *)
Definition commit_rival : list GroupAction :=
  [GDeliver 45; asks 1 [Byte.x61]; synced_to 1 2; GDeliver 49; GDeliver 52; GDeliver 53].

(** C5. Two leaders in one term: in a group of four nodes with the library's default
    configuration, two membership changes that [propose_config_change] accepts in
    succession lead to a term that two nodes lead at the same time, and to two
    different entries committed at the same index. *)
Theorem single_changes_elect_two_leaders :
  exists g, group_run (group_initial (fresh_group SingleServer [1; 2; 3; 4]))
    (remove_4 ++ remove_1 ++ two_elections ++ commit_rival) = Some g /\
    at_member g 1 is_leader = Some true /\ at_member g 1 node_term = Some 3 /\
    at_member g 4 is_leader = Some true /\ at_member g 4 node_term = Some 3 /\
    committed_entry g 1 2 = Some (mkEntry 3 2 (CommandPayload [Byte.x61])) /\
    committed_entry g 2 2 = Some (mkEntry 2 2 (CommandPayload [Byte.x62])).
Proof.
  destruct (group_checks_run (fresh_group SingleServer [1; 2; 3; 4])
    (remove_4 ++ remove_1 ++ two_elections ++ commit_rival)
    (fun g => bool_decide (at_member g 1 is_leader = Some true /\ at_member g 1 node_term = Some 3 /\
       at_member g 4 is_leader = Some true /\ at_member g 4 node_term = Some 3 /\
       committed_entry g 1 2 = Some (mkEntry 3 2 (CommandPayload [Byte.x61])) /\
       committed_entry g 2 2 = Some (mkEntry 2 2 (CommandPayload [Byte.x62])))))
    as (g & Hr & Hp); [vm_compute; reflexivity|].
  exists g. split; [done|]. by apply bool_decide_eq_true in Hp.
Qed.

(** ** A restart undoes later changes *)

(** Node 1 leads nodes 1, 2 and 3, shrinks the group to nodes 1 and 2 by a joint
    change, then takes node 3 back, as a learner and as a voter.  Everything is
    committed. *)
Definition shrink_and_grow : list GroupAction :=
  ticks_at 1 236 ++ deliver_all [0; 2; 3; 5]%nat ++
  [changes 1 (SetMembers (mkMembers [1; 2] [])); synced_to 1 1; GDeliver 8; GDeliver 10;
   synced_to 1 2; GDeliver 11; GDeliver 12;
   changes 1 (AddLearner 3); synced_to 1 3] ++ deliver_all [13; 15; 9; 16; 14; 17]%nat ++
  [changes 1 (AddVoter 3); synced_to 1 4; GDeliver 18; GDeliver 20].

(** Node 1 restarts, leads term 2 and commits one command. *)
Definition restart_and_commit : list GroupAction :=
  [GCrash 1] ++ ticks_at 1 236 ++ ticks_at 2 160 ++ deliver_all [21; 23; 24; 26]%nat ++
  [asks 1 [Byte.x61]; synced_to 1 5; GDeliver 29; GDeliver 31].

Definition is_change (a : GroupAction) : bool :=
  match a with GOperate _ (OpChange _) => true | _ => false end.

(** C39. A restart reverts the membership: node 1 has committed the configuration of voters
    1, 2 and 3; after it restarts, is elected and commits one command, with no change
    requested, its configuration is the voters 1 and 2 of an earlier change. *)
Theorem restart_reverts_membership :
  exists g1 g2,
    group_run (group_initial (fresh_group JointConsensus [1; 2; 3])) shrink_and_grow = Some g1 /\
    at_member g1 1 (fun n => effective_config (core n)) = Some (Simple {[1; 2; 3]} ∅) /\
    at_member g1 1 node_commit_index = Some 4 /\
    at_member g1 1 (fun n => last_index (log (core n))) = Some 4 /\
    group_run g1 restart_and_commit = Some g2 /\ existsb is_change restart_and_commit = false /\
    at_member g2 1 is_leader = Some true /\
    at_member g2 1 (fun n => effective_config (core n)) = Some (Simple {[1; 2]} ∅).
Proof.
  destruct (group_checks_run (fresh_group JointConsensus [1; 2; 3]) shrink_and_grow
    (fun g1 => bool_decide (
       at_member g1 1 (fun n => effective_config (core n)) = Some (Simple {[1; 2; 3]} ∅) /\
       at_member g1 1 node_commit_index = Some 4 /\
       at_member g1 1 (fun n => last_index (log (core n))) = Some 4) &&
       match group_run g1 restart_and_commit with
       | Some g2 => bool_decide (at_member g2 1 is_leader = Some true /\
           at_member g2 1 (fun n => effective_config (core n)) = Some (Simple {[1; 2]} ∅))
       | None => false
       end)) as (g1 & Hr & Hp); [vm_compute; reflexivity|].
  apply andb_true_iff in Hp as [H1 H2]. apply bool_decide_eq_true in H1 as (? & ? & ?).
  destruct (group_run g1 restart_and_commit) as [g2|] eqn:E2; [|done].
  apply bool_decide_eq_true in H2 as [? ?]. exists g1, g2. split_and!; done.
Qed.

(** ** A committed joint configuration *)

(** No configuration follows the commit index: [cfg] is committed. *)
Record parked (cfg : Configuration) (c : Core) : Prop := mkParked {
  pk_wf : log_wf (log c);
  pk_room : last_index (log c) + 1 < two64;
  pk_commit : commit_index c <= last_index (log c);
  pk_config : effective_config c = cfg;
  pk_tail : has_pending_config c = false
}.

Lemma parked_tail cfg c j e :
  parked cfg c -> commit_index c < j -> get (log c) j = Some e -> is_config (e_payload e) = false.
Proof.
  intros [Hwf _ _ _ Ht]. unfold has_pending_config in Ht.
  apply (pending_config_None (log c) (commit_index c)); [done|].
  by destruct (Log.pending_config_index _ _).
Qed.

(** Cores that agree on log, bootstrap set and commit index. *)
Lemma parked_same cfg c c' :
  parked cfg c -> log c' = log c -> commit_index c' = commit_index c ->
  bootstrap_config (persistent c') = bootstrap_config (persistent c) -> parked cfg c'.
Proof.
  intros [] Hl Hc Hb. split; unfold effective_config, config_at, has_pending_config in *;
    by rewrite ?Hl, ?Hc, ?Hb.
Qed.

Lemma process_configs_parked cfg l c idxs c0 :
  parked cfg c0 -> log c = log c0 -> Forall (fun i => commit_index c0 < i) idxs ->
  process_configs l c idxs = (l, c, Done).
Proof.
  intros Hp Hl. induction 1 as [|i idxs Hi _ IH]; simpl; [done|].
  destruct (get (log c) i) as [e|] eqn:Eg; [|done]. rewrite Hl in Eg.
  pose proof (parked_tail _ _ _ _ Hp Hi Eg) as Hc. by destruct (e_payload e).
Qed.

Lemma maybe_commit_parked cfg l c l' c' e b :
  parked cfg c -> maybe_commit l c = (l', c', e, b) -> parked cfg c' /\ b = false.
Proof.
  intros Hp. pose proof Hp as [Hwf Hroom Hcm _ Htail].
  assert (parked cfg (advance_commit_index l c) /\
          commit_index c <= commit_index (advance_commit_index l c)) as [Hadv Hle].
  { destruct (advance_commit_cases l c ltac:(lia)) as [[-> _]|(i & -> & Hi & _)]; [by split|].
    split; [|simpl; lia]. split; [done|done|simpl; change (log (set_commit_index c i)) with (log c); lia|apply Hp|].
    unfold has_pending_config. change (log (set_commit_index c i)) with (log c). simpl.
    rewrite (proj2 (pending_config_None (log c) i Hwf)); [done|].
    intros j en Hj. apply (parked_tail _ _ _ _ Hp). lia. }
  assert (process_committed_configs l (advance_commit_index l c) (commit_index c) =
          (l, advance_commit_index l c, Done)) as Hproc.
  { apply (process_configs_parked cfg _ _ _ c); [done|apply advance_commit_log|].
    apply Forall_forall. intros i. rewrite elem_of_range_incl, wadd_small by lia. lia. }
  unfold maybe_commit, commit_fuel. cbn [maybe_commit_loop]. rewrite Hproc.
  destruct (_ =? _); intros; by simplify_eq.
Qed.

Lemma leader_dispatch_parked cfg l c msg l' c' r :
  parked cfg c -> Leader.dispatch l c msg = (l', c', r) -> parked cfg c'.
Proof.
  intros Hp. unfold Leader.dispatch, Leader.handle_append_response, handle_install_snapshot_response.
  destruct (msg_payload msg); intros Hs; repeat case_match; simplify_eq; try done;
    match goal with H : maybe_commit _ _ = _ |- _ => by apply (maybe_commit_parked cfg) in H as [? _] end.
Qed.

Lemma leader_step_parked cfg l c ev l' c' r :
  parked cfg c -> Leader.step l c ev = (l', c', r) -> parked cfg c'.
Proof.
  intros Hp. destruct ev as [|msg|i]; simpl.
  - unfold Leader.handle_tick. repeat case_match; intros; simplify_eq; by eapply parked_same.
  - unfold Leader.step_message, maybe_update_term. intros Hs.
    repeat case_match; simplify_eq; try done; try (by eapply parked_same);
      by eapply leader_dispatch_parked.
  - unfold handle_disk_write_complete. case_match; [|intros; by simplify_eq].
    destruct (maybe_commit _ c) as [[[? ?] ?] ?] eqn:Em. intros. simplify_eq.
    by apply (maybe_commit_parked cfg) in Em as [? _].
Qed.

Lemma leader_propose_parked cfg l c cmd l' c' i e b :
  parked cfg c -> last_index (log c) + 2 < two64 ->
  Leader.propose l c cmd = (l', c', (i, e, b)) -> parked cfg c' /\ b = false.
Proof.
  intros Hp Hroom. pose proof Hp as [Hwf Hr Hcm Hcfg Htail]. unfold Leader.propose.
  rewrite wadd_small by lia. set (en := mkEntry _ _ _).
  assert (appendable (log c) en) as Happ by (split; [done|unfold u64; simpl; lia]).
  assert (parked cfg (set_log c (append (log c) en))) as Hp1.
  { split; autorewrite with basis_rw.
    - by apply append_wf.
    - rewrite append_last_index. simpl. lia.
    - rewrite append_last_index. simpl. lia.
    - rewrite <- Hcfg. unfold effective_config, config_at. autorewrite with basis_rw.
      by rewrite (config_at_append_command _ _ cmd).
    - unfold has_pending_config. autorewrite with basis_rw. simpl.
      rewrite (proj2 (pending_config_None _ _ (append_wf _ _ Hwf Happ))); [done|].
      intros j e0 Hj. rewrite append_get by done. case_match; [intros [= <-]; done|].
      by apply (parked_tail _ _ _ _ Hp). }
  destruct (maybe_commit _ _) as [[[l1 c1] e1] b1] eqn:Em.
  destruct (broadcast_append l1 c1) as [l2 e2]. intros. simplify_eq.
  by apply (maybe_commit_parked (effective_config c)) in Em.
Qed.

(** The operations [ops] of a leader, as long as it leads its term and its log has
    room. *)
Fixpoint lead_run (n : RaftNode) (ops : list Operation) : option RaftNode :=
  match ops with
  | [] => Some n
  | op :: ops' =>
      match perform n op with
      | Some (n', _) =>
          if is_leader n' && (node_term n' =? node_term n) && (last_index (log (core n)) + 2 <? two64)
          then lead_run n' ops' else None
      | None => None
      end
  end.

Lemma joint_change_refused n o w ls change :
  is_leader n = true -> effective_config (core n) = Joint o w ls ->
  Node.propose_config_change n change = (n, Err ChangeInProgress).
Proof.
  unfold is_leader, Node.propose_config_change. destruct n as [c r]. simpl.
  destruct r as [| | |l]; try done. intros _ Hc. unfold Leader.propose_config_change.
  by rewrite Hc.
Qed.

Lemma lead_op_parked n op n' e o w ls :
  is_leader n = true -> is_leader n' = true -> last_index (log (core n)) + 2 < two64 ->
  parked (Joint o w ls) (core n) -> perform n op = Some (n', e) -> parked (Joint o w ls) (core n').
Proof.
  intros Hl Hl' Hroom Hp. pose proof Hp as [_ _ _ Hcfg _].
  destruct op as [ev|cmd|change| |target]; simpl.
  - destruct (no_term_overflow n ev); [|done]. unfold step_event, step_role.
    unfold is_leader in Hl. destruct (role n) as [| | |l]; try done.
    destruct (Leader.step l (core n) ev) as [[l1 c1] r] eqn:Es.
    pose proof (leader_step_parked _ _ _ _ _ _ _ Hp Es) as Hp1.
    apply leader_never_campaigns in Es as [[Ht _]|[h Ht]]; rewrite Ht;
      [intros; by simplify_eq|]. unfold is_leader in Hl'.
    simpl. destruct (Follower.new _ _). intros. by simplify_eq.
  - unfold Node.propose, is_leader in *. destruct (role n) as [| | |l]; try done.
    destruct (proposal_limit_exceeded _ _) as [[|]|]; try done; [intros; by simplify_eq|].
    destruct (Leader.propose l (core n) cmd) as [[l1 c1] [[i e1] b]] eqn:Ep. intros.
    destruct (leader_propose_parked _ _ _ _ _ _ _ _ _ Hp Hroom Ep) as [? ->]. by simplify_eq.
  - rewrite (joint_change_refused _ _ _ _ _ Hl Hcfg). intros. by simplify_eq.
  - unfold Node.request_read_index. destruct (role n); intros; repeat case_match; by simplify_eq/=.
  - destruct (Node.transfer_leadership n target); intros; by simplify_eq.
Qed.

Lemma lead_run_parked n ops n' o w ls :
  is_leader n = true -> parked (Joint o w ls) (core n) -> lead_run n ops = Some n' ->
  is_leader n' = true /\ parked (Joint o w ls) (core n').
Proof.
  revert n. induction ops as [|op ops IH]; intros n Hl Hp; simpl; [by intros [= <-]|].
  destruct (perform n op) as [[n1 e]|] eqn:Ep; [|done].
  destruct (is_leader n1) eqn:Hl1; [|done]. simpl. destruct (_ =? _); [|done]. simpl.
  destruct (N.ltb_spec (last_index (log (core n)) + 2) two64); [|done].
  apply IH; [done|]. by apply (lead_op_parked n op n1 e).
Qed.

(** C40. A leader that starts with a committed joint configuration stays in it: whatever
    operations it performs while it leads its term, its configuration is that joint
    configuration, and every change requested is refused as already in progress. *)
Theorem committed_joint_is_never_left n ops n' o w ls change
    (Hl : is_leader n = true) (Hp : parked (Joint o w ls) (core n))
    (Hrun : lead_run n ops = Some n') :
  effective_config (core n') = Joint o w ls /\
  Node.propose_config_change n' change = (n', Err ChangeInProgress).
Proof.
  destruct (lead_run_parked _ _ _ _ _ _ Hl Hp Hrun) as [Hl' Hp'].
  split; [apply Hp'|]. apply (joint_change_refused _ o w ls); [done|apply Hp'].
Qed.

(** ** An execution that ends in a committed joint configuration *)

Definition contiguous_b (base : N) (es : list Entry) : bool :=
  bool_decide (e_index <$> es = seqN (base + 1) (length es)).

Lemma contiguous_b_spec base es : contiguous_b base es = true -> contiguous base es.
Proof.
  unfold contiguous_b. intros Hb%bool_decide_eq_true i e Hi.
  assert ((e_index <$> es) !! i = Some (e_index e)) as He by (by rewrite list_lookup_fmap, Hi).
  rewrite Hb in He. unfold seqN in He. rewrite list_lookup_fmap in He.
  apply lookup_lt_Some in Hi. rewrite lookup_seq_lt in He by done. simpl in He. by simplify_eq.
Qed.

Definition parked_b (cfg : Configuration) (c : Core) : bool :=
  contiguous_b (snapshot_index (log c)) (entries (log c)) &&
  (snapshot_index (log c) + N.of_nat (length (entries (log c))) <? two64) &&
  (last_index (log c) + 1 <? two64) && (commit_index c <=? last_index (log c)) &&
  bool_decide (effective_config c = cfg) && negb (has_pending_config c).

Lemma parked_b_spec cfg c : parked_b cfg c = true -> parked cfg c.
Proof.
  unfold parked_b. intros H. repeat (apply andb_true_iff in H as [H ?]). unbool.
  split; [split; [by apply contiguous_b_spec|done]|done..].
Qed.

(** Node 1 leads nodes 1 to 5 and proposes a hundred commands and a joint change that
    removes node 5; nodes 2 and 4 store them all, node 1 commits, and node 3 is sent the
    first 101 entries with the commit index. *)
Definition commit_joint : list GroupAction :=
  ticks_at 1 236 ++ deliver_all (seq 0 14) ++ replicate 100 (asks 1 [Byte.x61]) ++
  [changes 1 (SetMembers (mkMembers [1; 2; 3; 4] []))] ++ ticks_at 1 75 ++
  deliver_all [424; 426; 428; 429; 430; 431]%nat ++ [synced_to 1 101] ++
  deliver_all [432; 433; 425; 437; 438]%nat.

(** Node 1 crashes; node 3 is elected by nodes 2 and 4. *)
Definition elect_3 : list GroupAction :=
  [GCrash 1] ++ ticks_at 2 150 ++ ticks_at 4 150 ++ ticks_at 3 300 ++
  deliver_all [441; 442; 444; 445; 447; 448; 450; 451]%nat.

Lemma committed_joint_is_never_left_witness :
  exists g m n', group_run (group_initial (fresh_group JointConsensus [1; 2; 3; 4; 5]))
      (commit_joint ++ elect_3) = Some g /\
    members g !! 3 = Some m /\ lead_run (m_node m) [OpPropose [Byte.x62]] = Some n' /\
    effective_config (core n') = Joint {[1; 2; 3; 4; 5]} {[1; 2; 3; 4]} ∅ /\
    Node.propose_config_change n' (RemoveVoter 5) = (n', Err ChangeInProgress).
Proof.
  set (joint := Joint {[1; 2; 3; 4; 5]} {[1; 2; 3; 4]} ∅).
  destruct (group_checks_run (fresh_group JointConsensus [1; 2; 3; 4; 5]) (commit_joint ++ elect_3)
    (fun g => match members g !! 3 with
              | Some m => is_leader (m_node m) && parked_b joint (core (m_node m)) &&
                  is_some (lead_run (m_node m) [OpPropose [Byte.x62]])
              | None => false
              end)) as (g & Hr & Hc); [vm_compute; reflexivity|].
  destruct (members g !! 3) as [m|] eqn:Hm; [|discriminate Hc].
  apply andb_true_iff in Hc as [Hc Hs]. apply andb_true_iff in Hc as [Hl Hp].
  destruct (lead_run (m_node m) [OpPropose [Byte.x62]]) as [n'|] eqn:En; [|discriminate Hs].
  destruct (committed_joint_is_never_left (m_node m) [OpPropose [Byte.x62]] n'
    {[1; 2; 3; 4; 5]} {[1; 2; 3; 4]} ∅ (RemoveVoter 5) Hl (parked_b_spec _ _ Hp) En) as [He Hch].
  exists g, m, n'. split_and!; [exact Hr|exact Hm|exact En|exact He|exact Hch].
Defined.
