(* ===== verification/Static.v ===== *)
(** * Static: a node under static membership

    The shipped node proposes no configuration change and ships no snapshot, so
    every log holds commands only and every effective configuration is the
    bootstrap one.  This file shows that the handlers of the automaton keep it
    so, that they keep the log contiguous with real terms, that every message
    they emit is well formed, and that a step that does not ask for persistence
    leaves the whole persistent state, log included, unchanged. *)

From S2P Require Import Prelude.
From S2P Require Import Types.
From S2P Require Import Membership.
From S2P Require Import Log.
From S2P Require Import Event.
From S2P Require Import Core.
From S2P Require Import Follower.
From S2P Require Import PreCandidate.
From S2P Require Import Candidate.
From S2P Require Import Leader.
From S2P Require Import Node.
From S2P Require Import HardState.

(** ** Well-formed logs, messages and nodes *)

Definition entry_ok (e : Entry) : Prop :=
  is_config (e_payload e) = false /\ 1 <= e_term e /\ u64 (e_index e).

Definition log_ok (l : Log) : Prop :=
  log_wf l /\ snapshot_index l = 0 /\ snapshot_config l = None /\ Forall entry_ok (entries l).

Definition request_ok (r : AppendRequest) : Prop :=
  contiguous (ar_prev_log_index r) (ar_entries r) /\ Forall entry_ok (ar_entries r) /\
  (ar_entries r <> [] -> ar_prev_log_index r = 0 \/ 1 <= ar_prev_log_term r).

Definition msg_ok (m : Message) : Prop :=
  match msg_payload m with
  | AppendReq r => request_ok r
  | InstallSnapshotReq _ | InstallSnapshotResp _ => False
  | _ => True
  end.

Definition event_ok (ev : Event) : Prop :=
  match ev with MessageEvent m => msg_ok m | _ => True end.

(** The event of a node: the message delivered, or a tick. *)
Definition event_of (om : option Message) : Event :=
  match om with Some m => MessageEvent m | None => Tick end.

Lemma event_of_message (om : option Message) m : event_of om = MessageEvent m -> om = Some m.
Proof. destruct om; [by intros [= ->]|done]. Qed.

(** A request repeats entries of the log [l] and the term before them. *)
Definition excerpt (l : Log) (r : AppendRequest) : Prop :=
  contiguous (ar_prev_log_index r) (ar_entries r) /\
  (forall e, e ∈ ar_entries r -> e ∈ entries l) /\
  ar_prev_log_term r = term_at l (ar_prev_log_index r).

(** What a node with log [l] may send. *)
Definition sent_ok (l : Log) (m : Message) : Prop :=
  match msg_payload m with
  | AppendReq r => request_ok r /\ excerpt l r
  | InstallSnapshotReq _ | InstallSnapshotResp _ => False
  | _ => True
  end.

Definition ok_sends (l : Log) (e : Effects) : Prop := forall m, m ∈ messages e -> sent_ok l m.

Lemma sent_ok_msg l m : sent_ok l m -> msg_ok m.
Proof. unfold sent_ok, msg_ok. destruct (msg_payload m); tauto. Qed.

(** A campaigning or leading node has a real term. *)
Definition node_ok_static (n : RaftNode) : Prop :=
  log_ok (log (core n)) /\ (role_is_candidate (role n) || role_is_leader (role n) = true ->
    1 <= term (core n)).

Lemma log_ok_default : log_ok Log_default.
Proof. split_and!; [apply log_wf_default|done|done|by apply Forall_nil]. Qed.

Lemma log_ok_terms l : log_ok l -> terms_ok (entries l).
Proof. intros (_ & _ & _ & H). eapply Forall_impl; [exact H|]. by intros ? (_ & ? & ?). Qed.

(** No configuration is ever recorded in the log. *)
Lemma log_ok_config_at l i : log_ok l -> Log.config_at l i = None.
Proof.
  intros (Hwf & Hs & Hc & He).
  assert (forall es, Forall entry_ok es ->
            find_map (fun e => as_config (e_payload e)) (reverse es) = None) as Hnone.
  { intros es Hes. apply find_map_None. intros e. rewrite elem_of_reverse.
    intros Hin. rewrite Forall_forall in Hes. destruct (Hes e Hin) as [Hcfg _].
    by destruct (e_payload e). }
  unfold Log.config_at. case_match; [done|]. rewrite Hnone; [done|]. by apply Forall_take.
Qed.

Lemma effective_config_static c :
  log_ok (log c) -> effective_config c = bootstrap_config (persistent c).
Proof. intros H. unfold effective_config, config_at. by rewrite log_ok_config_at. Qed.

Lemma ok_none l : ok_sends l none.
Proof. intros m Hm. inversion Hm. Qed.

Lemma ok_persist l e : ok_sends l e -> ok_sends l (with_persist e).
Proof. done. Qed.

Lemma ok_merge l e1 e2 : ok_sends l e1 -> ok_sends l e2 -> ok_sends l (merge e1 e2).
Proof. intros H1 H2 m [Hm|Hm]%elem_of_merge_messages; auto. Qed.

Lemma ok_one l e m : ok_sends l e -> sent_ok l m -> ok_sends l (with_message e m).
Proof. intros He Hok m' [Hm| ->%list_elem_of_singleton]%elem_of_app; auto. Qed.

Lemma ok_many l e (f : N -> Message) ids :
  ok_sends l e -> (forall x, sent_ok l (f x)) -> ok_sends l (with_messages e (f <$> ids)).
Proof.
  intros He Hf m [Hm|Hm]%elem_of_app; [by apply He|].
  apply list_elem_of_fmap in Hm as (x & -> & _). apply Hf.
Qed.

#[export] Hint Resolve ok_none ok_persist ok_merge ok_one : basis.

(** ** The contract of a role handler *)

(** The log stays as it is, or the request in the message [om] is merged into it. *)
Definition moves (om : option Message) (c c' : Core) (r : StepResult) : Prop :=
  log c' = log c \/
  (transition r = Stay /\ exists m req, om = Some m /\ msg_payload m = AppendReq req /\
     consistent (log c) req = true /\ log c' = fst (append_entries (log c) (ar_entries req))).

Definition static_ok (om : option Message) (c c' : Core) (r : StepResult) : Prop :=
  log_ok (log c') /\ (persist (effects r) = false -> log c' = log c) /\
  ok_sends (log c') (effects r) /\ moves om c c' r.

(** A branch that leaves the log alone. *)
Lemma static_same om c c' r :
  log_ok (log c) -> log c' = log c -> ok_sends (log c) (effects r) -> static_ok om c c' r.
Proof. intros Hl Heq Hs. unfold static_ok. rewrite Heq. split_and!; [done..|by left]. Qed.

Ltac same_log := intros; simplify_eq; apply static_same; [assumption|reflexivity|];
  simpl; auto with basis; try (apply ok_one; [auto with basis|exact I]).

(** ** Follower *)

Lemma consistent_prev_stored l r :
  log_ok l -> request_ok r -> consistent l r = true -> ar_entries r <> [] ->
  ar_prev_log_index r <= last_index l.
Proof.
  intros (Hwf & _) (_ & _ & Hprev) Hc Hne. unfold consistent in Hc. apply negb_true_iff in Hc.
  destruct (N.ltb_spec 0 (ar_prev_log_index r)); [|lia]. simpl in Hc. unbool.
  destruct (Hprev Hne) as [?|Ht]; [lia|].
  destruct (N.le_gt_cases (ar_prev_log_index r) (last_index l)); [done|].
  rewrite term_at_above in Hc by done. lia.
Qed.

Lemma request_append_pre l r :
  log_ok l -> request_ok r -> consistent l r = true -> ar_entries r <> [] ->
  append_pre l (ar_prev_log_index r) (ar_entries r).
Proof.
  intros Hl Hr Hc Hne. pose proof (consistent_prev_stored _ _ Hl Hr Hc Hne).
  pose proof (log_ok_terms _ Hl). destruct Hl as (Hwf & Hs & _), Hr as (Hct & He & _).
  split_and!; try done; [|lia]. eapply Forall_impl; [exact He|]. by intros ? (_ & ? & ?).
Qed.

Lemma merge_entries_ok l base es :
  append_pre l base es -> log_ok l -> Forall entry_ok es -> log_ok (merge_entries l es).
Proof.
  intros Hpre (Hwf & Hs & Hc & He) Hes. destruct (merge_entries_wf _ _ _ Hpre) as [Hwf' _].
  destruct (merge_entries_cases _ _ _ Hpre)
    as [[_ ->]|(_ & es1 & e & es2 & -> & _ & _ & _ & _ & _ & Heq)]; [done|].
  split; [done|]. rewrite Heq. split_and!; [done|done|]. simpl.
  apply Forall_app in Hes as [_ Hes]. apply Forall_app. split; [|done].
  rewrite truncate_after_entries. by apply Forall_take.
Qed.

Lemma append_entries_static l r :
  log_ok l -> request_ok r -> consistent l r = true ->
  log_ok (fst (append_entries l (ar_entries r))) /\
  (snd (append_entries l (ar_entries r)) = false -> fst (append_entries l (ar_entries r)) = l).
Proof.
  intros Hl Hr Hc. destruct (ar_entries r) as [|e es] eqn:E; [done|].
  assert (ar_entries r <> []) as Hne by (by rewrite E). rewrite <- E.
  pose proof (request_append_pre _ _ Hl Hr Hc Hne) as Hpre.
  rewrite (append_entries_eq _ _ _ Hpre). simpl. split.
  - eapply merge_entries_ok; [done|done|apply Hr].
  - apply merge_entries_same.
Qed.

Lemma follower_append_static f c from req f' c' r :
  log_ok (log c) -> request_ok req ->
  Follower.handle_append_request f c from req = (f', c', r) ->
  forall m, msg_payload m = AppendReq req -> static_ok (Some m) c c' r.
Proof.
  intros Hl Hr Hh m Hm. revert Hh. unfold Follower.handle_append_request.
  destruct (reset_deadline _ c) as [f1 c1] eqn:Er. apply reset_deadline_core in Er. subst c1.
  change (log (set_rng c (xorshift64 (rng c)))) with (log c).
  destruct (consistent (log c) req) eqn:Ec; simpl.
  - destruct (append_entries_static _ _ Hl Hr Ec) as [Hl' Hp].
    destruct (append_entries _ _) as [l p] eqn:Ea. simpl in Hl', Hp. intros. simplify_eq.
    match goal with |- static_ok _ _ ?x _ => assert (log x = l) as Hx by (by case_match) end.
    unfold static_ok, moves. rewrite Hx. split_and!; [done| | |].
    + destruct p; simpl; [done|]. auto.
    + simpl. apply ok_one; [|exact I]. destruct p; auto with basis.
    + right. split; [done|]. exists m, req. by rewrite Ea.
  - same_log.
Qed.

Lemma follower_dispatch_static f c msg f' c' r :
  log_ok (log c) -> msg_ok msg ->
  Follower.dispatch f c msg = (f', c', r) -> static_ok (Some msg) c c' r.
Proof.
  intros Hl. unfold Follower.dispatch, msg_ok.
  destruct (msg_payload msg) eqn:Ep; try done; intros Hm; try (by same_log).
  - unfold Follower.handle_vote_request. destruct (_ && _ && _).
    + destruct (reset_deadline _ _) eqn:Er. apply reset_deadline_core in Er. subst. same_log.
    + same_log.
  - intros Hh. by eapply follower_append_static.
  - unfold Follower.handle_read_index_request.
    destruct (reset_deadline _ _) eqn:Er. apply reset_deadline_core in Er. subst. same_log.
Qed.

Lemma static_after_adopt om c c1 c' r rr :
  log c1 = log c -> static_ok om c1 c' r -> effects rr = with_persist (effects r) ->
  transition rr = transition r -> static_ok om c c' rr.
Proof.
  intros Hl (H1 & H2 & H3 & H4) He Ht. unfold static_ok, moves in *.
  rewrite He, Ht, <- Hl. by split_and!.
Qed.

Lemma follower_reject_ok l c msg : ok_sends l (Follower.reject_stale c msg).
Proof. unfold Follower.reject_stale. case_match; auto with basis; by apply ok_one; auto with basis. Qed.
#[export] Hint Resolve follower_reject_ok : basis.

Lemma follower_step_static f c ev f' c' r :
  log_ok (log c) -> event_ok ev -> Follower.step f c ev = (f', c', r) ->
  static_ok (match ev with MessageEvent m => Some m | _ => None end) c c' r.
Proof.
  intros Hl Hev. destruct ev as [|msg|i]; simpl in *.
  - unfold Follower.handle_tick. repeat case_match; same_log.
  - unfold Follower.step_message. case_match.
    { intros. simplify_eq. apply static_same; [done..|]. simpl.
      unfold Follower.reject_due_to_active_leader.
      case_match; auto with basis; by apply ok_one; auto with basis. }
    intros Hs. destruct (adopt_term f c msg) as [[f1 c1] b] eqn:Ea.
    assert (static_ok (Some msg) c c' r \/ (
      (if msg_term msg <? term c1 then (f1, c1, stay (Follower.reject_stale c1 msg))
       else let '(f, c, r) := Follower.dispatch f1 c1 msg in
         (f, c, mkStepResult (transition r)
            (if b then with_persist (effects r) else effects r))) = (f', c', r))) as [?|Hm].
    { destruct (msg_payload msg); auto. left. revert Hs. unfold Follower.handle_prevote_request. same_log. }
    { done. }
    clear Hs. apply adopt_term_cases in Ea as [(-> & -> & Hle)|(-> & Hlt & rn & ->)].
    + case_match; [by same_log|].
      destruct (Follower.dispatch f1 c msg) as [[f2 c2] r2] eqn:Ed. simplify_eq.
      apply follower_dispatch_static in Ed; [|done..]. exact Ed.
    + unfold term at 1 in Hm. simpl in Hm. rewrite N.ltb_irrefl in Hm.
      destruct (Follower.dispatch _ _ msg) as [[f2 c2] r2] eqn:Ed. simplify_eq.
      apply follower_dispatch_static in Ed; [|done..].
      eapply static_after_adopt; [|exact Ed| |]; done.
  - same_log.
Qed.

(** ** PreCandidate and Candidate *)

Lemma precandidate_step_static p c ev p' c' r :
  log_ok (log c) -> PreCandidate.step p c ev = (p', c', r) -> static_ok None c c' r.
Proof.
  intros Hl. destruct ev as [|msg|i]; simpl.
  - unfold PreCandidate.handle_tick. case_match.
    + destruct (random_election_timeout _) eqn:Er. apply random_election_timeout_eq in Er.
      subst. same_log.
    + case_match; same_log.
  - unfold PreCandidate.step_message. case_match.
    { intros. simplify_eq. apply static_same; [done..|]. simpl. unfold PreCandidate.deny_vote.
      case_match; auto with basis; by apply ok_one; auto with basis. }
    unfold maybe_update_term. case_match; [by same_log|].
    destruct (msg_payload msg); try (by same_log).
    + unfold PreCandidate.handle_prevote_response, maybe_update_term.
      repeat case_match; by same_log.
    + unfold PreCandidate.handle_append_request. same_log.
  - same_log.
Qed.

Lemma candidate_step_static k c ev k' c' r :
  log_ok (log c) -> Candidate.step k c ev = (k', c', r) -> static_ok None c c' r.
Proof.
  intros Hl. destruct ev as [|msg|i]; simpl.
  - unfold Candidate.handle_tick. case_match.
    + destruct (random_election_timeout _) eqn:Er. apply random_election_timeout_eq in Er.
      subst. same_log.
    + case_match; same_log.
  - unfold Candidate.step_message. case_match.
    { intros. simplify_eq. apply static_same; [done..|]. simpl. unfold Candidate.deny_vote.
      case_match; auto with basis; by apply ok_one; auto with basis. }
    destruct (msg_payload msg) eqn:Ep.
    { intros. simplify_eq. apply static_same; [done..|]. apply ok_one; [apply ok_none|exact I]. }
    all: unfold maybe_update_term; case_match; [by same_log|].
    all: case_match; [intros; simplify_eq; apply static_same; [done..|]; simpl;
      unfold Candidate.reject_stale; rewrite Ep; auto with basis;
      by apply ok_one; auto with basis|].
    all: unfold Candidate.dispatch; rewrite Ep; try (by same_log).
    + unfold Candidate.handle_vote_response. repeat case_match; by same_log.
    + unfold Candidate.handle_append_request. same_log.
  - same_log.
Qed.

(** ** Leader *)

Lemma send_append_to_ok l c to l' e :
  log_ok (log c) -> send_append_to l c to = (l', e) -> ok_sends (log c) e.
Proof.
  intros (Hwf & Hs & Hcf & Hes) Hsend m Hm.
  destruct (send_append_to_message _ _ _ _ _ _ Hwf Hsend Hm)
    as (r & -> & Hc & Hin & _ & _ & Ht & Hlast). split; [|by split_and!]. split_and!; [done| |].
  - apply Forall_forall. intros en Hen. rewrite Forall_forall in Hes. auto.
  - intros Hne. destruct (N.eq_0_gt_0_cases (ar_prev_log_index r)) as [|Hpos]; [by left|].
    right. rewrite Ht. apply term_at_stored; [done|..].
    + by apply log_ok_terms.
    + specialize (Hlast Hne). lia.
Qed.

Lemma broadcast_append_ok l c l' e :
  log_ok (log c) -> broadcast_append l c = (l', e) -> ok_sends (log c) e.
Proof.
  intros Hl. unfold broadcast_append.
  generalize (replication_peers (effective_config c) (id c)).
  assert (forall ps l0 e0 l' e, ok_sends (log c) e0 ->
    foldl (fun '(l, eff) peer => let '(l1, e1) := send_append_to l c peer in (l1, merge eff e1))
      (l0, e0) ps = (l', e) -> ok_sends (log c) e) as Hgen.
  { clear -Hl. induction ps as [|p ps IH]; simpl; intros l0 e0 l' e He0 Hf; [by simplify_eq|].
    destruct (send_append_to l0 c p) as [l1 e1] eqn:Es. apply send_append_to_ok in Es; [|done].
    eapply IH; [|exact Hf]. auto with basis. }
  intros ps. apply Hgen. apply ok_none.
Qed.

(** Without configuration entries the loop over committed entries does nothing. *)
Lemma process_configs_static l c idxs :
  log_ok (log c) -> process_configs l c idxs = (l, c, Done).
Proof.
  intros Hl. induction idxs as [|i idxs IH]; simpl; [done|].
  destruct (get (log c) i) as [e|] eqn:Eg; [|done]. destruct (e_payload e) eqn:Ep; [done|].
  apply get_elem in Eg. destruct Hl as (_ & _ & _ & He). rewrite Forall_forall in He.
  destruct (He e Eg) as [Hc _]. by rewrite Ep in Hc.
Qed.

(** ... so committing is one advance of the commit index. *)
Lemma maybe_commit_static l c :
  log_ok (log c) -> maybe_commit l c = (l, advance_commit_index l c, none, false).
Proof.
  intros Hl. unfold maybe_commit, commit_fuel, process_committed_configs. simpl.
  case_match; case_match; simplify_eq; try done.
  all: unfold process_committed_configs in *;
    rewrite process_configs_static in * by (by rewrite advance_commit_log); by simplify_eq.
Qed.

Lemma leader_commit_static l c0 c l' c' e b :
  log_ok (log c) -> log c0 = log c -> maybe_commit l c0 = (l', c', e, b) ->
  static_ok None c c' (step_down_or_stay e b).
Proof.
  intros Hl Heq. rewrite maybe_commit_static by (by rewrite Heq). intros. simplify_eq.
  apply static_same; [done| |apply ok_none]. by rewrite advance_commit_log.
Qed.

Lemma leader_dispatch_static l c msg l' c' r :
  log_ok (log c) -> Leader.dispatch l c msg = (l', c', r) -> static_ok None c c' r.
Proof.
  intros Hl. unfold Leader.dispatch. destruct (msg_payload msg); try (by same_log).
  - unfold Leader.handle_append_response. case_match; [by same_log|]. case_match.
    + destruct (maybe_commit _ c) as [[[? ?] ?] ?] eqn:Em. intros. simplify_eq.
      by eapply leader_commit_static; [| |exact Em].
    + destruct (send_append_to _ c _) as [l1 e1] eqn:Es. apply send_append_to_ok in Es; [|done].
      intros. simplify_eq. by apply static_same.
  - unfold Leader.handle_install_snapshot_response. case_match; [by same_log|].
    case_match; [by same_log|].
    destruct (maybe_commit _ c) as [[[? ?] ?] ?] eqn:Em. intros. simplify_eq.
    by eapply leader_commit_static; [| |exact Em].
  - destruct (Leader.handle_read_index_response _ _ _) eqn:E.
    apply read_index_response_effects in E as ->. by same_log.
Qed.

Lemma leader_step_static l c ev l' c' r :
  log_ok (log c) -> Leader.step l c ev = (l', c', r) -> static_ok None c c' r.
Proof.
  intros Hl. destruct ev as [|msg|i]; simpl.
  - unfold Leader.handle_tick. case_match; [|by same_log].
    destruct (broadcast_append _ _) as [l1 e1] eqn:Eb.
    apply broadcast_append_ok in Eb; [|done]. intros. simplify_eq.
    apply static_same; [done..|]. simpl. case_match; [|done]. apply ok_merge; [done|].
    by apply ok_many; auto with basis.
  - unfold Leader.step_message. destruct (msg_payload msg) eqn:Ep.
    { intros. simplify_eq. apply static_same; [done..|]. apply ok_one; [apply ok_none|exact I]. }
    all: unfold maybe_update_term; case_match; [by same_log|].
    all: case_match; [intros; simplify_eq; apply static_same; [done..|]; simpl;
      unfold Leader.reject_stale; rewrite Ep; auto with basis;
      by apply ok_one; auto with basis|].
    all: by apply leader_dispatch_static.
  - unfold Leader.handle_disk_write_complete. case_match; [|by same_log].
    destruct (maybe_commit _ c) as [[[? ?] ?] ?] eqn:Em. intros. simplify_eq.
    by eapply leader_commit_static; [| |exact Em].
Qed.

(** ** The automaton *)

Lemma step_role_static n ev n1 r :
  log_ok (log (core n)) -> event_ok ev -> step_role n ev = (n1, r) ->
  static_ok (match role n, ev with RFollower _, MessageEvent m => Some m | _, _ => None end)
    (core n) (core n1) r.
Proof.
  intros Hl Hev. unfold step_role. destruct (role n) as [f|p|k|l].
  - destruct (Follower.step _ _ _) as [[? ?] ?] eqn:E. intros. simplify_eq.
    by eapply follower_step_static.
  - destruct (PreCandidate.step _ _ _) as [[? ?] ?] eqn:E. intros. simplify_eq.
    by eapply precandidate_step_static.
  - destruct (Candidate.step _ _ _) as [[? ?] ?] eqn:E. intros. simplify_eq.
    by eapply candidate_step_static.
  - destruct (Leader.step _ _ _) as [[? ?] ?] eqn:E. intros. simplify_eq.
    by eapply leader_step_static.
Qed.

Lemma leader_new_ok c c' l e : log_ok (log c) -> Leader.new c = (c', l, e) -> ok_sends (log c) e.
Proof.
  intros Hl. unfold Leader.new. destruct (broadcast_append _ c) eqn:Eb.
  apply broadcast_append_ok in Eb; [|done]. intros. by simplify_eq.
Qed.

Lemma become_candidate_static c n' e :
  log_ok (log c) -> become_candidate c = (n', e) -> log (core n') = log c /\ ok_sends (log c) e.
Proof.
  intros Hl. unfold become_candidate. destruct (Candidate.new c) as [[c1 k] e1] eqn:Ec.
  assert (ok_sends (log c) e1) as He1.
  { unfold Candidate.new in Ec. destruct (random_election_timeout _).
    case_match; simplify_eq; auto with basis. by apply ok_many; auto with basis. }
  apply candidate_new_core in Ec as (-> & _). case_match.
  - destruct (Leader.new _) as [[c2 l] e2] eqn:El. 
    pose proof (leader_new_ok (set_rng (start_election c) (xorshift64 (rng c))) _ _ _ Hl El) as He2.
    change (ok_sends (log c) e2) in He2.
    apply leader_new_core in El as [-> _]. intros. simplify_eq. auto with basis.
  - intros. by simplify_eq.
Qed.

Lemma apply_transition_static n t n' e :
  log_ok (log (core n)) -> apply_transition n t = (n', e) ->
  log (core n') = log (core n) /\ ok_sends (log (core n)) e.
Proof.
  intros Hl. destruct t; simpl.
  - intros. simplify_eq. auto with basis.
  - destruct (Follower.new _ _) eqn:E. apply follower_new_core in E. intros. simplify_eq.
    auto with basis.
  - destruct (after_leader_contact _ _) eqn:E. apply after_contact_core in E. intros. simplify_eq.
    auto with basis.
  - destruct (PreCandidate.new (core n)) as [[c1 p] e1] eqn:Ep.
    assert (ok_sends (log (core n)) e1) as He1.
    { unfold PreCandidate.new in Ep. destruct (random_election_timeout _).
      case_match; simplify_eq; auto with basis. by apply ok_many; auto with basis. }
    apply precandidate_new_core in Ep as (-> & _). case_match; [|intros; by simplify_eq].
    destruct (become_candidate _) as [n2 e2] eqn:Eb. apply become_candidate_static in Eb as [? ?]; [|done].
    intros. simplify_eq. auto with basis.
  - by apply become_candidate_static.
  - destruct (Leader.new _) as [[c2 l] e2] eqn:El. pose proof (leader_new_ok _ _ _ _ Hl El).
    apply leader_new_core in El as [-> _]. intros. simplify_eq. auto with basis.
Qed.

(** The role after a step: campaigning in a fresh term, or as before. *)
Lemma step_event_role n ev n' e :
  no_term_overflow n ev = true -> step_event n ev = (n', e) ->
  role_is_candidate (role n') || role_is_leader (role n') = true ->
  1 <= term (core n') \/ role_is_candidate (role n) || role_is_leader (role n) = true.
Proof.
  unfold no_term_overflow. intros Hov Hs Hrole. destruct (step_role n ev) as [n1 r] eqn:Er.
  pose proof (step_event_cases _ _ _ _ _ _ Er Hs) as Hc.
  assert (forall c e', term c < u64_max -> become_candidate c = (n', e') ->
            1 <= term (core n')) as Hbc.
  { intros c e' Ht Hb. apply become_candidate_ok in Hb as (_ & -> & _); done || lia. }
  unfold step_role in Er.
  destruct Hc as [(Hst & -> & ->)|(Hst & e2 & Ha & ->)].
  - right. destruct (role n) as [f|p|k|l]; [..|done|done].
    + destruct (Follower.step _ _ _) as [[? ?] ?]. by simplify_eq.
    + destruct (PreCandidate.step _ _ _) as [[? ?] ?]. by simplify_eq.
  - destruct (transition r) eqn:Et; [done|..]; simpl in Ha.
    + destruct (Follower.new _ _). by simplify_eq.
    + destruct (after_leader_contact _ _). by simplify_eq.
    + left. destruct (PreCandidate.new _) as [[c1 p] e1] eqn:Ep.
      apply precandidate_new_core in Ep as (-> & _). simpl in Hov. unbool.
      case_match; [|simplify_eq; by destruct Hrole].
      destruct (become_candidate _) as [n2 e3] eqn:Eb. simplify_eq.
      eapply Hbc; [|exact Eb]. done.
    + left. simpl in Hov. unbool. by eapply Hbc; [|exact Ha].
    + right. destruct (role n) as [f|p|k|l]; [..|done|done].
      * destruct (Follower.step _ _ _) as [[? ?] ?] eqn:Ef.
        apply follower_never_leads in Ef. by simplify_eq.
      * destruct (PreCandidate.step _ _ _) as [[? ?] ?] eqn:Ef.
        apply precandidate_never_leads in Ef. by simplify_eq.
Qed.

Lemma persistent_eta p q :
  p_term p = p_term q -> voted_for p = voted_for q -> p_log p = p_log q ->
  bootstrap_config p = bootstrap_config q -> p = q.
Proof. destruct p, q; simpl; congruence. Qed.

(** A step keeps the log, or merges the request it was given and stays a follower. *)
Definition log_moves (n : RaftNode) (ev : Event) (n' : RaftNode) : Prop :=
  log (core n') = log (core n) \/
  (role_is_follower (role n') = true /\
   exists m req, ev = MessageEvent m /\ msg_payload m = AppendReq req /\
     consistent (log (core n)) req = true /\
     log (core n') = fst (append_entries (log (core n)) (ar_entries req))).

(** One step of a node under static membership. *)
Lemma step_event_static n ev n' e :
  node_ok_static n -> event_ok ev -> no_term_overflow n ev = true -> step_event n ev = (n', e) ->
  node_ok_static n' /\ ok_sends (log (core n')) e /\
  (persist e = false -> node_persistent n' = node_persistent n) /\ log_moves n ev n'.
Proof.
  intros [Hl Hr] Hev Hov Hs. pose proof (step_event_ok _ _ _ _ Hov Hs) as [Hid [Ht _] Hp _ _].
  pose proof (step_event_role _ _ _ _ Hov Hs) as Hrole.
  destruct (step_role n ev) as [n1 r] eqn:Er.
  pose proof (step_role_static _ _ _ _ Hl Hev Er) as (Hl1 & Hp1 & Hok1 & Hmv).
  assert (log_ok (log (core n')) /\ ok_sends (log (core n')) e /\
          (persist e = false -> log (core n') = log (core n)) /\ log_moves n ev n')
    as (Hl' & Hok & Hlp & Hmoves).
  { destruct (step_event_cases _ _ _ _ _ _ Er Hs) as [(_ & -> & ->)|(Hns & e2 & Ha & ->)].
    - split_and!; [done..|]. destruct Hmv as [?|(_ & m & req & Hm & Hrest)]; [by left|right].
      unfold step_role in Er. destruct (role n), ev; simplify_eq.
      destruct (Follower.step _ _ _) as [[? ?] ?]. simplify_eq. split; [done|]. by exists m, req.
    - apply apply_transition_static in Ha as [Heq Hok2]; [|done]. unfold log_moves. rewrite Heq.
      split_and!; [done|auto with basis|..]; [intros [H1 _]%merge_persist_false; auto|].
      destruct Hmv as [?|[? _]]; [by left|done]. }
  split_and!; [|done| |done].
  - split; [done|]. intros H. destruct (Hrole H) as [?|H0]; [done|]. specialize (Hr H0). lia.
  - intros Hpf. specialize (Hp Hpf). specialize (Hlp Hpf). unfold hard_state, vote in Hp.
    simplify_eq. destruct Hid as [_ Hb]. by apply persistent_eta.
Qed.

(** Proposing a command under static membership. *)
Lemma node_propose_static n cmd n' i e :
  node_ok_static n -> last_index (log (core n)) + 1 < two64 ->
  Node.propose n cmd = Some (n', Ok (i, e)) ->
  node_ok_static n' /\ ok_sends (log (core n')) e /\ i = last_index (log (core n)) + 1 /\
  log (core n') = append (log (core n)) (mkEntry (term (core n)) i (CommandPayload cmd)).
Proof.
  intros [Hl Hr] Hroom Hp. pose proof (node_propose_hard _ _ _ _ _ Hp) as [([_ Hh] & _ & Hlead & _) _].
  unfold Node.propose in Hp. destruct (role n) as [| | |l] eqn:Er; try done.
  destruct (proposal_limit_exceeded _ _) as [[|]|]; try done.
  unfold Leader.propose in Hp. rewrite wadd_small in Hp by done.
  set (en := mkEntry (term (core n)) (last_index (log (core n)) + 1) (CommandPayload cmd)) in *.
  set (c0 := set_log (core n) (append (log (core n)) en)) in *.
  specialize (Hr eq_refl).
  assert (log_ok (log c0)) as Hl0.
  { destruct Hl as (Hwf & Hs & Hc & He).
    split_and!; [|done|done|].
    - apply append_wf; [done|]. split; [done|]. simpl. unfold u64. lia.
    - simpl. apply Forall_app. split; [done|]. apply Forall_singleton.
      split_and!; [done|done|]. simpl. unfold u64. lia. }
  rewrite maybe_commit_static in Hp by done.
  match type of Hp with context [broadcast_append ?l ?c] =>
    destruct (broadcast_append l c) as [l2 e2] eqn:Eb end.
  apply broadcast_append_ok in Eb; [|by rewrite advance_commit_log]. simpl in Hp. simplify_eq.
  unfold maybe_step_down. simpl. rewrite advance_commit_log in *.
  split_and!; [|auto with basis|done|done]. split; simpl; [by rewrite advance_commit_log|].
  intros _. rewrite Hh. exact Hr.
Qed.

(** Under static membership (a well-formed node that never compacted its log, received
    requests that are well formed and carry commands only, no snapshot request, no election at
    term [u64::MAX]) every step of a node keeps its log contiguous, with
    real terms and commands only, emits only well-formed requests that are excerpts
    of its log, changes its log only by merging a request it received as a follower,
    and announces every change of the persistent state, log included: if the effects
    do not ask for persistence, the persistent state is exactly what it was. *)
Theorem static_step_is_sound n ev n' e
    (Hn : node_ok_static n) (Hev : event_ok ev) (Hov : no_term_overflow n ev = true)
    (Hs : step_event n ev = (n', e)) :
  node_ok_static n' /\ ok_sends (log (core n')) e /\
  (persist e = false -> node_persistent n' = node_persistent n) /\ log_moves n ev n'.
Proof. by eapply step_event_static. Qed.

Definition demo_append : Message :=
  mkMessage 2 1 3 (AppendReq (mkAppendRequest 0 0 demo_entries 1)).

Lemma static_step_is_sound_witness :
  node_ok_static (fst (Node.step fresh_voter demo_append)).
Proof.
  apply (static_step_is_sound fresh_voter (MessageEvent demo_append)
    (fst (Node.step fresh_voter demo_append)) (snd (Node.step fresh_voter demo_append))).
  - split; [apply log_ok_default|vm_compute; discriminate].
  - unfold event_ok, demo_append. simpl. split_and!.
    + apply demo_append_pre.
    + repeat (apply Forall_cons; split; [split_and!; [reflexivity|vm_compute; discriminate|reflexivity]|]).
      apply Forall_nil. exact I.
    + left. reflexivity.
  - vm_compute. reflexivity.
  - apply surjective_pairing.
Defined.
