(* ===== verification/Progress.v ===== *)
(** * Progress: what a step does to votes, acknowledgements and the commit index

    The contract of one step of the automaton under static membership, as the
    argument about committed entries needs it: which requests and acknowledgements
    leave the node and with what they say, when a vote is given and to whom, where
    the match indices of a leader come from, and how the commit index moves. *)

From S2P Require Import Prelude.
From S2P Require Import Types.
From S2P Require Import Membership.
From S2P Require Import Log.
From S2P Require Import Event.
From S2P Require Import Core.
From S2P Require Import Follower.
From S2P Require Import PreCandidate.
From S2P Require Import Candidate.
From S2P Require Import Leader.
From S2P Require Import Node.
From S2P Require Import HardState.
From S2P Require Import Static.

(** ** Steps that do nothing of interest *)

(** Neither a request to append or to vote, nor a positive acknowledgement. *)
Definition quiet_message (m : Message) : bool :=
  match msg_payload m with
  | AppendReq _ | VoteReq _ => false
  | AppendResp r => negb (aresp_success r)
  | _ => true
  end.

Definition quiet_sends (e : Effects) : Prop := forall m, m ∈ messages e -> quiet_message m = true.

(** The vote stays within a term and is dropped with it. *)
Definition vote_kept (c c' : Core) : Prop :=
  (term c' = term c /\ vote c' = vote c) \/ (term c < term c' /\ vote c' = None).

Record idle (c c' : Core) (e : Effects) : Prop := mkIdle {
  idle_log : log c' = log c;
  idle_commit : commit_index c' = commit_index c;
  idle_applied : last_applied c' = last_applied c;
  idle_vote : vote_kept c c';
  idle_sends : quiet_sends e
}.

Lemma quiet_none : quiet_sends none.
Proof. intros m Hm. inversion Hm. Qed.

Lemma quiet_one e m : quiet_sends e -> quiet_message m = true -> quiet_sends (with_message e m).
Proof. intros He Hm m' [Hin| ->%list_elem_of_singleton]%elem_of_app; auto. Qed.

Lemma quiet_many e (f : N -> Message) ids :
  quiet_sends e -> (forall x, quiet_message (f x) = true) -> quiet_sends (with_messages e (f <$> ids)).
Proof.
  intros He Hf m [Hm|Hm]%elem_of_app; [by apply He|].
  apply list_elem_of_fmap in Hm as (x & -> & _). apply Hf.
Qed.

Lemma quiet_merge e1 e2 : quiet_sends e1 -> quiet_sends e2 -> quiet_sends (merge e1 e2).
Proof. intros H1 H2 m [Hm|Hm]%elem_of_merge_messages; auto. Qed.

Lemma quiet_persist e : quiet_sends e -> quiet_sends (with_persist e).
Proof. done. Qed.

Lemma vote_kept_refl c c' : persistent c' = persistent c -> vote_kept c c'.
Proof. intros H. left. unfold term, vote. by rewrite H. Qed.

Lemma vote_kept_adopt c c' t :
  term c < t -> persistent c' = persistent (set_vote c t None) -> vote_kept c c'.
Proof. intros Ht H. right. unfold term, vote. rewrite H. split; [exact Ht|done]. Qed.

(** A branch that leaves the persistent state and the commit index alone. *)
Lemma idle_same c c' e :
  persistent c' = persistent c -> commit_index c' = commit_index c ->
  last_applied c' = last_applied c -> quiet_sends e -> idle c c' e.
Proof. intros Hp Hc Ha He. split; [|done|done|by apply vote_kept_refl|done]. unfold log. by rewrite Hp. Qed.

(** A branch that only adopts a higher term. *)
Lemma idle_adopt c c' t e :
  term c < t -> persistent c' = persistent (set_vote c t None) ->
  commit_index c' = commit_index c -> last_applied c' = last_applied c -> quiet_sends e -> idle c c' e.
Proof.
  intros Ht Hp Hc Ha He. split; [|done|done|by eapply vote_kept_adopt|done]. unfold log. by rewrite Hp.
Qed.

#[export] Hint Resolve quiet_none quiet_one quiet_merge quiet_persist : basis.

Ltac quiet_branch := intros; simplify_eq; apply idle_same; [reflexivity..|];
  simpl; auto with basis.

(** ** Follower *)

(** The request in [m] is consistent with the log, merged and followed. *)
Definition accepts (c : Core) (m : Message) (c' : Core) : Prop :=
  exists req, msg_payload m = AppendReq req /\ consistent (log c) req = true /\
    log c' = fst (append_entries (log c) (ar_entries req)) /\ term c' = msg_term m /\
    last_applied c' = last_applied c /\
    commit_index c' = (if commit_index c <? ar_leader_commit req
                       then N.min (ar_leader_commit req) (last_index (log c'))
                       else commit_index c).

(** The candidate that sent [m] gets the vote. *)
Definition votes_for (c : Core) (m : Message) (c' : Core) : Prop :=
  exists req, msg_payload m = VoteReq req /\ msg_term m = term c' /\
    log c' = log c /\ commit_index c' = commit_index c /\ last_applied c' = last_applied c /\
    vote c' = Some (msg_from m) /\
    log_is_up_to_date c (vr_last_log_term req) (vr_last_log_index req) = true.

Definition follower_did (c : Core) (m : Message) (c' : Core) (r : StepResult) : Prop :=
  idle c c' (effects r) \/
  (transition r = Stay /\ votes_for c m c' /\ quiet_sends (effects r)) \/
  (transition r = Stay /\ accepts c m c' /\ vote_kept c c' /\
   forall m', m' ∈ messages (effects r) <-> m' = append_response c' (msg_from m) true).

Lemma follower_dispatch_did f c msg f' c' r :
  msg_ok msg -> msg_term msg = term c -> Follower.dispatch f c msg = (f', c', r) ->
  follower_did c msg c' r.
Proof.
  intros Hok Ht. unfold Follower.dispatch, msg_ok in *.
  destruct (msg_payload msg) eqn:Ep; try done; try (left; by quiet_branch).
  - unfold Follower.handle_vote_request. destruct (_ && _ && _) eqn:Eg.
    + destruct (reset_deadline _ _) eqn:Er. apply reset_deadline_core in Er. intros. simplify_eq.
      right. left. split; [done|]. split; [|by apply quiet_one; auto with basis].
      unbool. by exists r0.
    + left. by quiet_branch.
  - unfold Follower.handle_append_request.
    destruct (reset_deadline _ c) as [f1 c1] eqn:Er. apply reset_deadline_core in Er. subst c1.
    change (log (set_rng c (xorshift64 (rng c)))) with (log c).
    destruct (consistent (log c) r0) eqn:Ec; simpl; [|left; by quiet_branch].
    destruct (append_entries _ _) as [l p] eqn:Ea. intros. simplify_eq. right. right.
    split; [done|]. split_and!.
    + exists r0. rewrite Ea. simpl. split_and!; try done; case_match; done.
    + case_match; by left.
    + intros m'. simpl. destruct p; simpl; by rewrite list_elem_of_singleton.
  - unfold Follower.handle_read_index_request.
    destruct (reset_deadline _ _) eqn:Er. apply reset_deadline_core in Er. subst.
    left. by quiet_branch.
Qed.

Lemma vote_kept_trans c c1 c' : vote_kept c c1 -> vote_kept c1 c' -> vote_kept c c'.
Proof.
  intros [[H1 H2]|[H1 H2]] [[H3 H4]|[H3 H4]]; unfold vote_kept;
    rewrite ?H4, ?H2, ?H3; first [left; by split | right; split; [lia|done]].
Qed.

Lemma follower_did_adopt c c1 m c' r eff :
  log c1 = log c -> commit_index c1 = commit_index c -> last_applied c1 = last_applied c ->
  vote_kept c c1 -> follower_did c1 m c' r ->
  messages eff = messages (effects r) -> follower_did c m c' (mkStepResult (transition r) eff).
Proof.
  intros Hl Hc Hla Hv Hd He. unfold follower_did, votes_for, accepts, quiet_sends, log_is_up_to_date in *.
  rewrite <- Hl, <- Hc, <- Hla. simpl. rewrite He.
  destruct Hd as [[Hi1 Hi2 Hi3 Hi4 Hi5]|[Hd|(H1 & H2 & H3 & H4)]].
  - left. split; [congruence|congruence|congruence|by eapply vote_kept_trans|].
    unfold quiet_sends. simpl. by rewrite He.
  - right. left. done.
  - right. right. split_and!; [done|done|by eapply vote_kept_trans|done].
Qed.

Lemma follower_step_did f c m f' c' r :
  msg_ok m -> Follower.step f c (MessageEvent m) = (f', c', r) -> follower_did c m c' r.
Proof.
  intros Hok. simpl. unfold Follower.step_message. case_match.
  { intros. simplify_eq. left. apply idle_same; [done..|]. simpl.
    unfold Follower.reject_due_to_active_leader. case_match; auto with basis. }
  intros Hs. destruct (adopt_term f c m) as [[f1 c1] b] eqn:Ea.
  assert (follower_did c m c' r \/ (
    (if msg_term m <? term c1 then (f1, c1, stay (Follower.reject_stale c1 m))
     else let '(f, c, r) := Follower.dispatch f1 c1 m in
       (f, c, mkStepResult (transition r)
          (if b then with_persist (effects r) else effects r))) = (f', c', r))) as [?|Hm]; [|done|].
  { destruct (msg_payload m) eqn:Ep; auto. left. left. revert Hs.
    unfold Follower.handle_prevote_request. by quiet_branch. }
  clear Hs. apply adopt_term_cases in Ea as [(-> & -> & Hle)|(-> & Hlt & rn & ->)].
  - destruct (N.ltb_spec (msg_term m) (term c)) as [Hs|Hs].
    { left. revert Hm. unfold Follower.reject_stale. intros. simplify_eq.
      apply idle_same; [done..|]. simpl. case_match; auto with basis. }
    destruct (Follower.dispatch f1 c m) as [[f2 c2] r2] eqn:Ed. simplify_eq.
    apply follower_dispatch_did in Ed; [|done|lia]. destruct r2. exact Ed.
  - unfold term at 1 in Hm. simpl in Hm. rewrite N.ltb_irrefl in Hm.
    destruct (Follower.dispatch _ _ m) as [[f2 c2] r2] eqn:Ed. simplify_eq.
    apply follower_dispatch_did in Ed; [|done|done].
    eapply follower_did_adopt; [| | | |exact Ed|]; try done. by right.
Qed.

Lemma follower_tick_idle f c f' c' r :
  Follower.step f c Tick = (f', c', r) -> idle c c' (effects r).
Proof. simpl. unfold Follower.handle_tick. repeat case_match; quiet_branch. Qed.

(** ** PreCandidate and Candidate *)

Lemma precandidate_step_idle p c ev p' c' r :
  PreCandidate.step p c ev = (p', c', r) -> idle c c' (effects r).
Proof.
  destruct ev as [|msg|i]; simpl.
  - unfold PreCandidate.handle_tick. case_match.
    + destruct (random_election_timeout _) eqn:Er. apply random_election_timeout_eq in Er.
      subst. quiet_branch.
    + case_match; quiet_branch.
  - unfold PreCandidate.step_message. case_match.
    { intros. simplify_eq. apply idle_same; [done..|]. simpl. unfold PreCandidate.deny_vote.
      case_match; auto with basis. }
    unfold maybe_update_term. case_match.
    { unbool. intros. simplify_eq. eapply idle_adopt; [done|done|done|done|]. auto with basis. }
    destruct (msg_payload msg) eqn:Ep; try (by quiet_branch).
    + unfold PreCandidate.handle_prevote_response, maybe_update_term. case_match.
      { unbool. intros. simplify_eq. eapply idle_adopt; [done|done|done|done|]. auto with basis. }
      repeat case_match; by quiet_branch.
    + unfold PreCandidate.handle_append_request. by quiet_branch.
  - quiet_branch.
Qed.

Lemma candidate_step_idle k c ev k' c' r :
  Candidate.step k c ev = (k', c', r) -> idle c c' (effects r).
Proof.
  destruct ev as [|msg|i]; simpl.
  - unfold Candidate.handle_tick. case_match.
    + destruct (random_election_timeout _) eqn:Er. apply random_election_timeout_eq in Er.
      subst. quiet_branch.
    + case_match; quiet_branch.
  - unfold Candidate.step_message. case_match.
    { intros. simplify_eq. apply idle_same; [done..|]. simpl. unfold Candidate.deny_vote.
      case_match; auto with basis. }
    destruct (msg_payload msg) eqn:Ep; [unfold Candidate.handle_prevote_request; by quiet_branch|..].
    all: unfold maybe_update_term; case_match;
      [unbool; intros; simplify_eq; eapply idle_adopt; [done|done|done|done|auto with basis]|].
    all: case_match; [intros; simplify_eq; apply idle_same; [done..|]; simpl;
      unfold Candidate.reject_stale; rewrite Ep; auto with basis|].
    all: unfold Candidate.dispatch; rewrite Ep; try (by quiet_branch).
    + unfold Candidate.handle_vote_response. repeat case_match; by quiet_branch.
    + unfold Candidate.handle_append_request. by quiet_branch.
  - quiet_branch.
Qed.

(** ** Leader *)

(** The commit index is at an entry of the leader's term that a quorum matches. *)
Definition commits (l : Leader) (c : Core) : Prop :=
  commit_index c <= last_index (log c) /\ committable l c (commit_index c) = true.

(** A request of a leader says its term and its commit index. *)
Definition lead_message (c : Core) (m : Message) : Prop :=
  quiet_message m = true \/
  exists r, msg_payload m = AppendReq r /\ msg_term m = term c /\ ar_leader_commit r = commit_index c.

Definition lead_sends (c : Core) (e : Effects) : Prop :=
  forall m, m ∈ messages e -> lead_message c m.

Lemma quiet_lead c e : quiet_sends e -> lead_sends c e.
Proof. intros H m Hm. left. by apply H. Qed.

Lemma lead_merge c e1 e2 : lead_sends c e1 -> lead_sends c e2 -> lead_sends c (merge e1 e2).
Proof. intros H1 H2 m [Hm|Hm]%elem_of_merge_messages; auto. Qed.
#[export] Hint Resolve quiet_lead lead_merge : basis.

Lemma advance_commits l c :
  advance_commit_index l c = c \/
  exists i, advance_commit_index l c = set_commit_index c i /\ commit_index c +u 1 <= i /\
    commits l (set_commit_index c i).
Proof.
  unfold advance_commit_index. fold (committable l c).
  destruct (List.find _ _) as [i|] eqn:E; [right|by left].
  apply find_rev_range_Some in E as (H1 & H2 & _). exists i. split; [done|]. split; [lia|]. exact (conj (proj2 H1) H2).
Qed.

Lemma send_append_to_leads l c to l' e :
  send_append_to l c to = (l', e) -> match_index l' = match_index l /\ lead_sends c e.
Proof.
  unfold send_append_to. case_match; intros; simplify_eq.
  - split; [done|]. intros m Hm. inversion Hm.
  - split; [by case_match|]. intros m Hm. apply list_elem_of_singleton in Hm as ->.
    right. eexists. split; [reflexivity|]. done.
Qed.

Lemma broadcast_append_leads l c l' e :
  broadcast_append l c = (l', e) -> match_index l' = match_index l /\ lead_sends c e.
Proof.
  unfold broadcast_append. generalize (replication_peers (effective_config c) (id c)).
  assert (forall ps l0 e0 l' e, lead_sends c e0 ->
    foldl (fun '(l, eff) peer => let '(l1, e1) := send_append_to l c peer in (l1, merge eff e1))
      (l0, e0) ps = (l', e) -> match_index l' = match_index l0 /\ lead_sends c e) as Hgen.
  { clear. induction ps as [|p ps IH]; simpl; intros l0 e0 l' e He0 Hf; [by simplify_eq|].
    destruct (send_append_to l0 c p) as [l1 e1] eqn:Es. apply send_append_to_leads in Es as [Hm He1].
    apply IH in Hf as [-> ?]; [done|]. auto with basis. }
  intros ps. apply Hgen. auto with basis.
Qed.

(** Where a match index of a leader comes from: an earlier one or an acknowledgement. *)
Definition match_step (l : Leader) (om : option Message) (c : Core) (v x : N) : Prop :=
  x = match_of l v \/
  exists m resp, om = Some m /\ msg_payload m = AppendResp resp /\ aresp_success resp = true /\
    msg_from m = v /\ msg_term m = term c /\ x = aresp_last_log_index resp.

Record leads_on (l : Leader) (c : Core) (om : option Message) (l' : Leader) (c' : Core)
    (r : StepResult) : Prop := mkLeadsOn {
  on_stay : transition r = Stay;
  on_same : persistent c' = persistent c;
  on_sends : lead_sends c' (effects r);
  on_match : forall v, match_step l om c v (match_of l' v);
  on_applied : last_applied c' = last_applied c;
  on_commit : commit_index c' = commit_index c \/
     (commit_index c +u 1 <= commit_index c' /\ commits l' c')
}.

Definition same_match (l l' : Leader) : Prop := match_index l' = match_index l.

Lemma leads_on_quiet l c om l' c' e :
  same_match l l' -> persistent c' = persistent c -> commit_index c' = commit_index c ->
  last_applied c' = last_applied c -> lead_sends c' e -> leads_on l c om l' c' (stay e).
Proof.
  intros Hm Hp Hc Ha He. split; try done; [|by left].
  intros v. left. unfold match_of. by rewrite Hm.
Qed.

Lemma leads_on_commit l c l0 l' c' om e b :
  log_ok (log c) -> maybe_commit l0 c = (l', c', e, b) ->
  (forall v, match_step l om c v (match_of l0 v)) ->
  leads_on l c om l' c' (step_down_or_stay e b).
Proof.
  intros Hl. rewrite maybe_commit_static by done. intros. simplify_eq.
  destruct (advance_commits l' c) as [-> | (i & -> & Hi & Hc)].
  - split; simpl; auto with basis.
  - split; simpl; auto with basis.
Qed.

Lemma read_index_response_match l from resp l' r :
  Leader.handle_read_index_response l from resp = (l', r) -> same_match l l' /\ r = step_none.
Proof. unfold Leader.handle_read_index_response. intros. by repeat case_match; simplify_eq. Qed.

Lemma leader_dispatch_on l c m l' c' r :
  log_ok (log c) -> msg_ok m -> msg_term m = term c -> Leader.dispatch l c m = (l', c', r) ->
  leads_on l c (Some m) l' c' r.
Proof.
  intros Hl Hok Ht. unfold Leader.dispatch, msg_ok in *.
  destruct (msg_payload m) eqn:Ep; try done;
    try (intros; simplify_eq; apply leads_on_quiet; auto with basis; done).
  - unfold Leader.handle_append_response.
    case_match; [intros; simplify_eq; apply leads_on_quiet; auto with basis; done|].
    destruct (aresp_success r0) eqn:Es.
    + destruct (maybe_commit _ c) as [[[? ?] ?] ?] eqn:Em. intros. simplify_eq.
      eapply leads_on_commit; [done|exact Em|]. intros v.
      replace (match_of _ v) with (match_of (insert_match l (msg_from m) (aresp_last_log_index r0)) v)
        by (by case_match).
      unfold match_of, insert_match. simpl. destruct (decide (v = msg_from m)) as [-> | Hne].
      * rewrite lookup_insert_eq. right. by exists m, r0.
      * rewrite lookup_insert_ne by done. by left.
    + destruct (send_append_to _ c _) as [l1 e1] eqn:Ea. apply send_append_to_leads in Ea as [Hm He].
      intros. simplify_eq. by apply leads_on_quiet.
  - destruct (Leader.handle_read_index_response _ _ _) eqn:E.
    apply read_index_response_match in E as [Hm ->]. intros. simplify_eq.
    apply leads_on_quiet; auto with basis.
Qed.

(** A leader leads on or gives up its term to a higher one. *)
Lemma leader_step_on l c om l' c' r :
  log_ok (log c) -> (forall m, om = Some m -> msg_ok m) ->
  Leader.step l c (match om with Some m => MessageEvent m | None => Tick end) = (l', c', r) ->
  leads_on l c om l' c' r \/ (idle c c' (effects r) /\ exists h, transition r = ToFollower h).
Proof.
  intros Hl Hok. destruct om as [m|]; simpl.
  - specialize (Hok m eq_refl). unfold Leader.step_message.
    assert (forall l' c' r,
      (if term c <? msg_term m then
        let '(c, _) := maybe_update_term c (msg_term m) in
        (l, c, to_follower (Leader.leader_hint m) (with_persist none))
       else if msg_term m <? term c then (l, c, stay (Leader.reject_stale c m))
       else Leader.dispatch l c m) = (l', c', r) ->
      leads_on l c (Some m) l' c' r \/ (idle c c' (effects r) /\ exists h, transition r = ToFollower h))
      as Hgen.
    { clear l' c' r. intros l' c' r.
      unfold maybe_update_term. destruct (N.ltb_spec (term c) (msg_term m)).
      { intros. simplify_eq. right. split; [|by eexists].
        eapply idle_adopt; [done|done|done|done|]. auto with basis. }
      destruct (N.ltb_spec (msg_term m) (term c)).
      { intros. simplify_eq. left. apply leads_on_quiet; try done. apply quiet_lead.
        unfold Leader.reject_stale. case_match; auto with basis. }
      intros Hd. left. apply leader_dispatch_on in Hd; [done|done|done|lia]. }
    destruct (msg_payload m) eqn:Ep; try apply Hgen.
    intros. simplify_eq. left. apply leads_on_quiet; auto with basis; try done.
    apply quiet_lead. unfold deny_prevote. auto with basis.
  - unfold Leader.handle_tick. case_match.
    + destruct (broadcast_append _ _) as [l1 e1] eqn:Eb. apply broadcast_append_leads in Eb as [Hm He].
      intros. simplify_eq. left. apply leads_on_quiet; try done.
      case_match; [|done]. apply lead_merge; [done|]. apply quiet_lead.
      unfold read_index_requests. apply quiet_many; auto with basis.
    + intros. simplify_eq. left. apply leads_on_quiet; auto with basis; done.
Qed.

(** ** Transitions *)

(** A new leader matches its own log and nothing else. *)
Definition fresh_match (l : Leader) (c : Core) : Prop :=
  forall v, match_of l v = 0 \/ (v = id c /\ match_of l v = last_index (log c)).

(** A request for a vote says the term and the end of the log. *)
Definition ballot_message (c : Core) (m : Message) : Prop :=
  msg_payload m = VoteReq (mkVoteRequest (last_index (log c)) (last_term (log c))) /\
  msg_term m = term c.

Lemma zeros_lookup (ids : list N) (m : gmap N N) v :
  (forall w, default 0 (m !! w) = 0) ->
  default 0 (foldl (fun m id => <[id := 0]> m) m ids !! v) = 0.
Proof.
  revert m. induction ids as [|x ids IH]; intros m Hm; simpl; [done|]. apply IH. intros w.
  destruct (decide (w = x)) as [-> | Hne]; [by rewrite lookup_insert_eq|by rewrite lookup_insert_ne].
Qed.

Lemma leader_new_progress c c' l e :
  Leader.new c = (c', l, e) -> c' = c /\ lead_sends c e /\ fresh_match l c.
Proof.
  unfold Leader.new. destruct (broadcast_append _ c) as [l1 e1] eqn:Eb.
  apply broadcast_append_leads in Eb as [Hm He]. intros. simplify_eq. split_and!; [done|done|].
  intros v. unfold match_of. rewrite Hm. simpl.
  assert (forall w, default 0 (foldl (fun m id => <[id:=0]> m) ∅ (all_nodes (effective_config c')) !! w) = 0)
    as Hz by (intros; by apply zeros_lookup).
  case_match; [left; apply Hz|].
  destruct (decide (v = id c')) as [-> | Hne].
  - rewrite lookup_insert_eq. by right.
  - rewrite lookup_insert_ne by done. left. apply Hz.
Qed.

(** Messages of a node whose state after the step is [n]. *)
Definition campaign_message (n : RaftNode) (m : Message) : Prop :=
  quiet_message m = true \/ ballot_message (core n) m \/
  (is_leader n = true /\ lead_message (core n) m).

Lemma become_candidate_progress c n' e :
  become_candidate c = (n', e) ->
  commit_index (core n') = commit_index c /\ last_applied (core n') = last_applied c /\
  (forall m, m ∈ messages e -> campaign_message n' m) /\
  forall l, role n' = RLeader l -> fresh_match l (core n').
Proof.
  unfold become_candidate. destruct (Candidate.new c) as [[c1 k] e1] eqn:Ec.
  assert (forall m, m ∈ messages e1 -> ballot_message c1 m) as He1.
  { unfold Candidate.new in Ec. destruct (random_election_timeout _).
    case_match; simplify_eq; intros m Hm; [inversion Hm|].
    apply elem_of_app in Hm as [Hm|Hm]; [inversion Hm|].
    by apply list_elem_of_fmap in Hm as (x & -> & _). }
  apply candidate_new_core in Ec as (-> & _). case_match.
  - destruct (Leader.new _) as [[c2 l] e2] eqn:El. apply leader_new_progress in El as (-> & Hs & Hf).
    intros. simplify_eq. split_and!; [done|done| |intros l' [= <-]; done].
    intros m [Hm|Hm]%elem_of_merge_messages; right; [left; by apply He1|right; auto].
  - intros. simplify_eq. split_and!; [done|done| |done]. intros m Hm. right. left. by apply He1.
Qed.

(** What a transition adds to a step. *)
Lemma apply_transition_progress n t n' e :
  (starts_election t = true -> term (core n) < u64_max) ->
  apply_transition n t = (n', e) -> t <> Stay ->
  log (core n') = log (core n) /\ commit_index (core n') = commit_index (core n) /\
  last_applied (core n') = last_applied (core n) /\
  (forall m, m ∈ messages e -> campaign_message n' m) /\
  (forall l, role n' = RLeader l -> fresh_match l (core n')) /\
  ((term (core n') = term (core n) /\ vote (core n') = vote (core n) /\
    forall m, m ∈ messages e -> ~ ballot_message (core n') m) \/
   (term (core n) < term (core n') /\ (vote (core n') = Some (id (core n)) \/ vote (core n') = None))).
Proof.
  assert (forall c n' e, term c < u64_max -> become_candidate c = (n', e) ->
    log (core n') = log c /\ commit_index (core n') = commit_index c /\
    last_applied (core n') = last_applied c /\
    (forall m, m ∈ messages e -> campaign_message n' m) /\
    (forall l, role n' = RLeader l -> fresh_match l (core n')) /\
    (term c < term (core n') /\ (vote (core n') = Some (id c) \/ vote (core n') = None))) as Hbc.
  { clear. intros c n' e Ht Hb.
    pose proof (become_candidate_progress _ _ _ Hb) as (Hc & Hla & Hm & Hf).
    apply become_candidate_ok in Hb as (_ & Htm & Hv & Hl & _); [|done].
    split_and!; [done|done|done|done|done|lia|]. rewrite Hv. case_match; auto. }
  intros Hov. destruct t; simpl in *; intros Ha Hns; [done|..].
  - destruct (Follower.new _ _) eqn:E. apply follower_new_core in E. simplify_eq.
    split_and!; [done|done|done|intros m Hm; inversion Hm|done|]. left. split_and!; try done.
    intros m Hm. inversion Hm.
  - destruct (after_leader_contact _ _) eqn:E. apply after_contact_core in E. simplify_eq.
    split_and!; [done|done|done|intros m Hm; inversion Hm|done|]. left. split_and!; try done.
    intros m Hm. inversion Hm.
  - destruct (PreCandidate.new (core n)) as [[c1 p] e1] eqn:Ep.
    assert (quiet_sends e1) as He1.
    { clear Ha. unfold PreCandidate.new in Ep. destruct (random_election_timeout _).
      case_match; simplify_eq; auto with basis. by apply quiet_many; auto with basis. }
    apply precandidate_new_core in Ep as (-> & _). case_match.
    + destruct (become_candidate _) as [n2 e2] eqn:Eb.
      destruct (Hbc _ _ _ (Hov eq_refl : term (set_rng (core n) (xorshift64 (rng (core n)))) < _) Eb) as (H1 & H2 & H0 & H3 & H4 & H5).
      simplify_eq. split_and!; [done|done|done| |done|by right].
      intros m [Hm|Hm]%elem_of_merge_messages; [left; by apply He1|by apply H3].
    + simplify_eq. split_and!; [done|done|done|intros m Hm; left; by apply He1|done|].
      left. split_and!; try done. intros m Hm [Hb _]. specialize (He1 m Hm).
      unfold quiet_message in He1. by rewrite Hb in He1.
  - destruct (Hbc _ _ _ (Hov eq_refl) Ha) as (H1 & H2 & H0 & H3 & H4 & H5).
    split_and!; [done|done|done|done|done|by right].
  - destruct (Leader.new _) as [[c2 l] e2] eqn:El. apply leader_new_progress in El as (-> & Hs & Hf).
    simplify_eq. split_and!; [done|done|done| |intros l' [= <-]; done|].
    + intros m Hm. right. right. auto.
    + left. split_and!; try done. intros m Hm [Hb _].
      destruct (Hs m Hm) as [Hq|(r & Hr & _)]; [unfold quiet_message in Hq; by rewrite Hb in Hq|].
      congruence.
Qed.

(** ** One step of a node *)

(** A step that delivers the message [om], or a tick if there is none. *)
Record progress (n : RaftNode) (om : option Message) (n' : RaftNode) (e : Effects) : Prop := mkProgress {
  pg_sends : forall m, m ∈ messages e ->
     quiet_message m = true \/
     (is_leader n' = true /\ lead_message (core n') m) \/
     (term (core n) < term (core n') /\ ballot_message (core n') m) \/
     (exists m0, om = Some m0 /\ accepts (core n) m0 (core n') /\
        m = append_response (core n') (msg_from m0) true);
  pg_log : log (core n') = log (core n) \/
     exists m0, om = Some m0 /\ accepts (core n) m0 (core n') /\ role_is_follower (role n') = true;
  pg_vote : forall k, vote (core n') = Some k ->
     (term (core n') = term (core n) /\ vote (core n) = Some k) \/
     (log (core n') = log (core n) /\
      ((k = id (core n) /\ term (core n) < term (core n')) \/
       exists m, om = Some m /\ msg_from m = k /\ votes_for (core n) m (core n')));
  pg_commit : commit_index (core n') = commit_index (core n) \/
     (exists m0, om = Some m0 /\ accepts (core n) m0 (core n') /\ is_leader n' = false /\
        append_response (core n') (msg_from m0) true ∈ messages e) \/
     (commit_index (core n) +u 1 <= commit_index (core n') /\
      exists l, role n' = RLeader l /\ commits l (core n'));
  pg_applied : last_applied (core n') = last_applied (core n);
  pg_match : forall l, role n' = RLeader l ->
     fresh_match l (core n') \/
     (exists l0, role n = RLeader l0 /\ term (core n') = term (core n) /\
        forall v, match_step l0 om (core n) v (match_of l v))
}.

(** A role that did nothing of interest, followed by its transition. *)
Lemma idle_progress n om n1 r n' e :
  idle (core n) (core n1) (effects r) -> same_identity (core n) (core n1) ->
  (transition r = Stay -> role_is_leader (role n1) = false) ->
  (starts_election (transition r) = true -> term (core n1) < u64_max) ->
  (transition r = Stay /\ n' = n1 /\ e = effects r) \/
  (transition r <> Stay /\ exists e2, apply_transition n1 (transition r) = (n', e2) /\
     e = merge (effects r) e2) ->
  progress n om n' e.
Proof.
  intros [Hl Hc Hla Hv Hs] Hid Hr Hov [(Hst & -> & ->)|(Hst & e2 & Ha & ->)].
  - specialize (Hr Hst). split.
    + intros m Hm. left. by apply Hs.
    + by left.
    + intros k Hk. left. destruct Hv as [[? ?]|[_ ?]]; [|congruence]. split; congruence.
    + by left.
    + done.
    + intros l El. by rewrite El in Hr.
  - apply apply_transition_progress in Ha as (Hl2 & Hc2 & Hla2 & Hm2 & Hf2 & Hv2); [|done|done]. split.
    + intros m [Hm|Hm]%elem_of_merge_messages; [left; by apply Hs|].
      destruct (Hm2 m Hm) as [?|[Hb|?]]; [by left| |by right; left].
      right. right. left. split; [|done].
      destruct Hv2 as [(_ & _ & Hnb)|[Hlt _]]; [by destruct (Hnb m Hm)|].
      destruct Hv as [[<- _]|[? _]]; [done|lia].
    + left. congruence.
    + intros k Hk. destruct Hv2 as [(Ht2 & Hk2 & _)|[Hlt [Hk2|Hk2]]]; [| |congruence].
      * left. destruct Hv as [[? ?]|[_ ?]]; [|congruence]. split; congruence.
      * right. split; [congruence|]. left. rewrite (id_same _ _ Hid) in Hk2.
        split; [congruence|]. destruct Hv as [[<- _]|[? _]]; [done|lia].
    + left. congruence.
    + congruence.
    + intros l El. left. by apply Hf2.
Qed.

Lemma leads_on_progress n om l l' c' r :
  role n = RLeader l -> leads_on l (core n) om l' c' r ->
  progress n om (mkRaftNode c' (RLeader l')) (effects r).
Proof.
  intros Hr [Hst Hp Hs Hm Hla Hc].
  assert (term c' = term (core n)) as Ht by (unfold term; by rewrite Hp). split; simpl.
  - intros m Hin. right. left. split; [done|]. by apply Hs.
  - left. unfold log. by rewrite Hp.
  - intros k Hk. left. unfold vote in *. rewrite Hp in Hk. done.
  - destruct Hc as [?|[Hi Hc]]; [by left|]. right. right. split; [done|]. by exists l'.
  - done.
  - intros l1 [= <-]. right. by exists l.
Qed.

Lemma follower_did_progress n om m f' c' r :
  om = Some m -> follower_did (core n) m c' r -> transition r = Stay ->
  progress n om (mkRaftNode c' (RFollower f')) (effects r) \/ idle (core n) c' (effects r).
Proof.
  intros -> [Hi|[(Hst & (req & Hp & Ht & Hl & Hc & Hla & Hv & Hup) & Hs)|(Hst & Ha & Hv & Hm)]] Hstay;
    [by right|left..].
  - split; simpl; [..|done].
    + intros m' Hin. left. by apply Hs.
    + by left.
    + intros k Hk. right. split; [done|]. right. exists m. split_and!; [done|congruence|].
      exists req. split_and!; try done.
    + by left.
    + done.
  - split; simpl; [..|done].
    + intros m' Hin%Hm. right. right. right. eauto.
    + right. eauto.
    + intros k Hk. left. destruct Hv as [[? ?]|[_ ?]]; [|congruence]. split; congruence.
    + right. left. exists m. split_and!; [done|done|done|]. by apply Hm.
    + by destruct Ha as (_ & _ & _ & _ & _ & ? & _).
Qed.

Lemma step_event_progress n om n' e :
  node_ok_static n -> (forall m, om = Some m -> msg_ok m) ->
  no_term_overflow n (event_of om) = true -> step_event n (event_of om) = (n', e) ->
  progress n om n' e.
Proof.
  intros [Hl _] Hok Hov Hs. unfold no_term_overflow in Hov.
  destruct (step_role n (event_of om)) as [n1 r] eqn:Er.
  pose proof (step_event_cases _ _ _ _ _ _ Er Hs) as Hc.
  pose proof (so_identity _ _ _ (step_role_ok _ _ _ _ Er)) as Hid.
  assert (starts_election (transition r) = true -> term (core n1) < u64_max) as Hov'.
  { intros Hse. rewrite Hse in Hov. by apply N.ltb_lt. }
  unfold step_role in Er. destruct (role n) as [f|p|k|l] eqn:Hr.
  - destruct (Follower.step _ _ _) as [[f1 c1] r1] eqn:Ef. simplify_eq.
    destruct om as [m|]; simpl in Ef.
    + pose proof (follower_step_did _ _ _ _ _ _ (Hok m eq_refl) Ef) as Hd.
      destruct Hc as [(Hst & -> & ->)|Hc].
      * destruct (follower_did_progress n (Some m) m f1 c1 r eq_refl Hd Hst) as [?|Hi]; [done|].
        eapply (idle_progress n _ (mkRaftNode c1 (RFollower f1))); [exact Hi|done|done|done|by left].
      * destruct Hd as [Hi|[[Hst _]|[Hst _]]]; [|by destruct Hc..].
        eapply (idle_progress n _ (mkRaftNode c1 (RFollower f1))); [exact Hi|done|done|done|by right].
    + apply follower_tick_idle in Ef. by eapply (idle_progress n _ (mkRaftNode c1 (RFollower f1))).
  - destruct (PreCandidate.step _ _ _) as [[p1 c1] r1] eqn:Ef. simplify_eq.
    apply precandidate_step_idle in Ef. by eapply (idle_progress n _ (mkRaftNode c1 (RPreCandidate p1))).
  - destruct (Candidate.step _ _ _) as [[p1 c1] r1] eqn:Ef. simplify_eq.
    apply candidate_step_idle in Ef. by eapply (idle_progress n _ (mkRaftNode c1 (RCandidate p1))).
  - destruct (Leader.step _ _ _) as [[l1 c1] r1] eqn:Ef. simplify_eq.
    apply leader_step_on in Ef as [Hon|(Hi & h & Ht)]; [..|done|done].
    + destruct Hc as [(_ & -> & ->)|(Hns & _)]; [by eapply leads_on_progress|].
      by destruct (on_stay _ _ _ _ _ _ Hon).
    + eapply (idle_progress n _ (mkRaftNode c1 (RLeader l1))); [exact Hi|done| |done|done]. congruence.
Qed.

(** Proposing a command: the leader matches the new entry itself. *)
Lemma node_propose_progress n cmd n' i e :
  node_ok_static n -> last_index (log (core n)) + 1 < two64 ->
  Node.propose n cmd = Some (n', Ok (i, e)) ->
  exists l l', role n = RLeader l /\ role n' = RLeader l' /\ lead_sends (core n') e /\
    last_applied (core n') = last_applied (core n) /\
    (commit_index (core n') = commit_index (core n) \/
     (commit_index (core n) +u 1 <= commit_index (core n') /\ commits l' (core n'))) /\
    forall v, match_of l' v = match_of l v \/
      (v = id (core n') /\ match_of l' v = last_index (log (core n'))).
Proof.
  intros Hn Hroom Hp.
  destruct (node_propose_static _ _ _ _ _ Hn Hroom Hp) as ([Hl' _] & _ & Hi & Hlog).
  destruct Hn as [(Hwf & _) _].
  assert (last_index (log (core n')) = i) as Hlast.
  { by rewrite Hlog, append_last_index. }
  unfold Node.propose in Hp. destruct (role n) as [| | |l] eqn:Er; try done. exists l.
  destruct (proposal_limit_exceeded _ _) as [[|]|]; try done.
  unfold Leader.propose in Hp. rewrite wadd_small in Hp by done.
  set (c0 := set_log (core n) _) in *.
  set (l0 := if parallel_disk_write (config c0) then l else _) in *.
  destruct (maybe_commit l0 c0) as [[[l1 c1] e1] b] eqn:Em.
  destruct (broadcast_append l1 c1) as [l2 e2] eqn:Eb. simplify_eq.
  apply broadcast_append_leads in Eb as [Hm Hs].
  assert (forall v, match_of l0 v = match_of l v \/
    (v = id c0 /\ match_of l0 v = last_index (log (core n)) + 1)) as Hm0.
  { intros v. unfold l0. case_match; [by left|]. unfold match_of, insert_match. simpl.
    destruct (decide (v = id c0)) as [-> | Hne]; [rewrite lookup_insert_eq; by right|].
    rewrite lookup_insert_ne by done. by left. }
  assert (log_ok (log c0)) as Hl0.
  { unfold c0. rewrite set_log_log, <- Hlog. exact Hl'. }
  rewrite maybe_commit_static in Em by done. injection Em as <- <- <- <-. simpl in *.
  exists l2. split_and!; [done|done| |..].
  - apply lead_merge; [done|]. auto with basis.
  - by destruct (advance_commits l0 c0) as [-> | (j & -> & _)].
  - assert (forall x, committable l2 x = committable l0 x) as Hcm.
    { intros x. unfold committable, quorum_at, match_of. by rewrite Hm. }
    unfold commits. destruct (advance_commits l0 c0) as [-> | (j & -> & Hj & [H1 H2])]; [by left|right].
    split; [done|]. split; [exact H1|]. by rewrite Hcm.
  - intros v. unfold match_of in *. rewrite Hm. destruct (Hm0 v) as [?|[-> Hv]]; [by left|right].
    split; [|congruence]. by destruct (advance_commits l0 c0) as [-> | (j & -> & _)].
Qed.
