(* ===== verification/Auth.v ===== *)
(** * Auth: authentication of peer messages

    Models [basisdb-node/src/auth.rs]: hexadecimal keys and signatures, and the
    HMAC-SHA256 check of a message body.  The [hmac] crate is outside the
    repository: the class [HmacSha256] stands for it, and [HmacLaws] states what
    its documentation promises.  A [String] is its bytes. *)

From S2P Require Import Prelude.

(** ** The message authentication code *)

(** [hmac_tag key body] is [new_from_slice(key)], [update(body)] and [finalize()];
    [None] stands for a key that [new_from_slice] refuses. *)
Class HmacSha256 : Type := hmac_tag : bytes -> bytes -> option bytes.

(** HMAC accepts a key of the block-independent length used here and always
    produces 32 bytes. *)
Class HmacLaws (H : HmacSha256) : Prop :=
  hmac_tag_total : forall key body, length key = 32%nat ->
    exists tag, hmac_tag key body = Some tag /\ length tag = 32%nat.

(** ** Hexadecimal strings *)

Definition KEY_BYTES : nat := 32.
Definition SIGNATURE_BYTES : nat := 32.

(** [checked_mul] and [checked_add] of [u8]. *)
Definition u8_checked_mul (x y : N) : option N := if x * y <? 256 then Some (x * y) else None.
Definition u8_checked_add (x y : N) : option N := if x + y <? 256 then Some (x + y) else None.

Definition nibble (byte : Byte.byte) : option N :=
  let b := Byte.to_N byte in
  if (48 <=? b) && (b <=? 57) then Some (b - 48)
  else if (97 <=? b) && (b <=? 102) then Some (b - 97 + 10)
  else if (65 <=? b) && (b <=? 70) then Some (b - 65 + 10)
  else None.

(** One iteration of the loop of [decode_hex]. *)
Definition decode_pair (hi lo : Byte.byte) : option Byte.byte :=
  h ← nibble hi; h16 ← u8_checked_mul h 16; l ← nibble lo; v ← u8_checked_add h16 l;
  Byte.of_N v.

(** The loop over [chunks_exact(2)], which ignores an odd last byte. *)
Fixpoint decode_chunks (value : bytes) : option bytes :=
  match value with
  | hi :: lo :: value' =>
      b ← decode_pair hi lo; bs ← decode_chunks value'; Some (b :: bs)
  | _ => Some []
  end.

Definition decode_hex (n : nat) (value : bytes) : option bytes :=
  if negb (Nat.eqb (length value) (n * 2)) then None else decode_chunks value.

Definition HEX : bytes :=
  [Byte.x30; Byte.x31; Byte.x32; Byte.x33; Byte.x34; Byte.x35; Byte.x36; Byte.x37;
   Byte.x38; Byte.x39; Byte.x61; Byte.x62; Byte.x63; Byte.x64; Byte.x65; Byte.x66].

Definition hex_digit (v : N) : Byte.byte := default Byte.x00 (HEX !! N.to_nat v).

Definition encode_hex (bs : bytes) : bytes :=
  b ← bs; [hex_digit (N.shiftr (Byte.to_N b) 4); hex_digit (N.land (Byte.to_N b) 15)].

(** ** Keys and signatures *)

Definition RaftKey : Type := bytes.

Inductive InvalidRaftKey : Type := invalid_raft_key.

Definition from_hex (value : bytes) : result RaftKey InvalidRaftKey :=
  match decode_hex KEY_BYTES value with
  | Some key => Ok key
  | None => Err invalid_raft_key
  end.

Section Signature.

Context `{H : HmacSha256}.

Definition signature (key : RaftKey) (body : bytes) : option bytes :=
  tag ← hmac_tag key body; Some (encode_hex tag).

(** [verify_slice] accepts exactly the computed tag. *)
Definition verify (key : RaftKey) (body sig : bytes) : bool :=
  match decode_hex SIGNATURE_BYTES sig with
  | None => false
  | Some sig =>
      match hmac_tag key body with
      | None => false
      | Some tag => bool_decide (tag = sig)
      end
  end.

End Signature.

(** ** Hexadecimal round trips *)

(** [to_ascii_lowercase]. *)
Definition lower (b : Byte.byte) : Byte.byte :=
  let n := Byte.to_N b in
  if (65 <=? n) && (n <=? 90) then default b (Byte.of_N (n + 32)) else b.

(** All bytes, for case analysis by evaluation. *)
Definition all_bytes : list Byte.byte := omap Byte.of_N (seqN 0 256).

Lemma elem_of_all_bytes b : b ∈ all_bytes.
Proof.
  apply list_elem_of_omap. exists (Byte.to_N b). split; [|apply Byte.of_to_N].
  apply elem_of_seqN. pose proof (Byte.to_N_bounded b). lia.
Qed.

Lemma all_bytes_forall (P : Byte.byte -> bool) :
  forallb P all_bytes = true -> forall b, P b = true.
Proof. intros Hf b. eapply forallb_forall; [exact Hf|]. apply list_elem_of_In, elem_of_all_bytes. Qed.

(** A digit is read exactly when its lower-case form is the digit written. *)
Lemma nibble_Some b v : nibble b = Some v <-> v < 16 /\ lower b = hex_digit v.
Proof.
  assert (forall b, forallb (fun v => Bool.eqb (bool_decide (nibble b = Some v))
                              (bool_decide (lower b = hex_digit v))) (seqN 0 16) &&
                    match nibble b with Some v => v <? 16 | None => true end = true) as Ht.
  { apply all_bytes_forall. vm_compute. reflexivity. }
  specialize (Ht b). apply andb_true_iff in Ht as [Hf Hb]. rewrite forallb_forall in Hf.
  assert (v < 16 -> nibble b = Some v <-> lower b = hex_digit v) as Hv.
  { intros Hlt. specialize (Hf v). rewrite <- list_elem_of_In, elem_of_seqN in Hf.
    specialize (Hf ltac:(lia)). apply eqb_prop in Hf. by rewrite !bool_decide_eq_true_iff in Hf
    || (repeat case_bool_decide; naive_solver). }
  split.
  - intros Hn. rewrite Hn in Hb. apply N.ltb_lt in Hb. split; [done|]. by apply Hv.
  - intros [Hlt Hl]. by apply Hv.
Qed.

Lemma of_N_Some v b : Byte.of_N v = Some b <-> v = Byte.to_N b.
Proof. split; [by intros ?%Byte.to_of_N|]. intros ->. apply Byte.of_to_N. Qed.

Lemma decode_pair_Some hi lo b :
  decode_pair hi lo = Some b <-> [lower hi; lower lo] = encode_hex [b].
Proof.
  pose proof (Byte.to_N_bounded b) as Hb. unfold encode_hex. simpl.
  rewrite N.shiftr_div_pow2. change 15 with (N.ones 4). rewrite N.land_ones.
  change (2 ^ 4) with 16. set (n := Byte.to_N b) in *.
  pose proof (N.div_mod n 16 ltac:(lia)) as Hn. pose proof (N.mod_lt n 16 ltac:(lia)) as Hm.
  assert (n / 16 < 16) as Hd by (apply N.Div0.div_lt_upper_bound; lia).
  unfold decode_pair, u8_checked_mul, u8_checked_add. split.
  - intros (h & Hh & Hr)%bind_Some. case_match; simpl in Hr; [|done].
    apply bind_Some in Hr as (l & Hl & Hr). case_match; simpl in Hr; [|done].
    apply of_N_Some in Hr. fold n in Hr.
    apply nibble_Some in Hh as [Hh ->], Hl as [Hl ->].
    assert (n / 16 = h) as -> by (symmetry; apply (N.div_unique _ _ _ l); lia).
    assert (n mod 16 = l) as -> by (symmetry; apply (N.mod_unique _ _ h); lia). done.
  - intros [= Hh Hl].
    rewrite (proj2 (nibble_Some _ _) (conj Hd Hh)), (proj2 (nibble_Some _ _) (conj Hm Hl)). simpl.
    replace (n / 16 * 16 <? 256) with true by (symmetry; apply N.ltb_lt; lia). simpl.
    replace (n / 16 * 16 + n mod 16 <? 256) with true by (symmetry; apply N.ltb_lt; lia). simpl.
    apply of_N_Some. fold n. lia.
Qed.

Lemma encode_hex_cons b bs : encode_hex (b :: bs) = encode_hex [b] ++ encode_hex bs.
Proof. reflexivity. Qed.

Lemma length_encode_hex bs : length (encode_hex bs) = (length bs * 2)%nat.
Proof. induction bs as [|b bs IH]; [done|]. rewrite encode_hex_cons, length_app, IH. simpl. lia. Qed.

Lemma decode_chunks_Some n s bs :
  length s = (n * 2)%nat -> decode_chunks s = Some bs <-> lower <$> s = encode_hex bs.
Proof.
  revert s bs. induction n as [|n IH]; intros s bs Hl.
  { apply length_zero_iff_nil in Hl as ->. destruct bs; split; naive_solver. }
  destruct s as [|hi [|lo s]]; simpl in Hl; [lia|lia|]. cbn [decode_chunks].
  destruct bs as [|b bs].
  { split; [|done]. by intros (? & _ & (? & _ & ?)%bind_Some)%bind_Some. }
  rewrite encode_hex_cons. specialize (IH s bs ltac:(lia)). split.
  - intros (b' & Hp%decode_pair_Some & (bs' & Hc & [= -> ->])%bind_Some)%bind_Some.
    apply IH in Hc. by rewrite <- Hp, <- Hc.
  - intros Hs. assert ([lower hi; lower lo] = encode_hex [b] /\ lower <$> s = encode_hex bs)
      as [Hp%decode_pair_Some Hc%IH] by (injection Hs as E1 E2 E3; simpl; rewrite E1, E2; split; [reflexivity|exact E3]).
    by rewrite Hp, Hc.
Qed.

(** [decode_hex] accepts exactly the spellings of [n] bytes, in either case. *)
Lemma decode_hex_Some n s bs :
  decode_hex n s = Some bs <-> length bs = n /\ lower <$> s = encode_hex bs.
Proof.
  unfold decode_hex. destruct (Nat.eqb_spec (length s) (n * 2)) as [Hl|Hl]; simpl.
  - rewrite (decode_chunks_Some n) by done. split; [|tauto]. intros Hs. split; [|done].
    assert (length s = length bs * 2)%nat by (rewrite <- length_encode_hex, <- Hs; by rewrite length_fmap).
    lia.
  - split; [done|]. intros [<- Hs]. destruct Hl.
    by rewrite <- length_encode_hex, <- Hs, length_fmap.
Qed.

Lemma lower_hex_digit v : lower (hex_digit v) = hex_digit v.
Proof.
  unfold hex_digit. destruct (HEX !! N.to_nat v) as [b|] eqn:E; [|done]. simpl.
  assert (forallb (fun b => bool_decide (lower b = b)) HEX = true) as Hf by (vm_compute; reflexivity).
  rewrite forallb_forall in Hf. apply list_elem_of_lookup_2, list_elem_of_In, Hf in E.
  by apply bool_decide_eq_true in E.
Qed.

Lemma elem_of_encode_hex b bs : b ∈ encode_hex bs -> b ∈ HEX.
Proof.
  intros (x & Hx & _)%list_elem_of_bind. pose proof (Byte.to_N_bounded x) as Hb.
  assert (forall v, v < 16 -> hex_digit v ∈ HEX) as Hd.
  { intros v Hv. unfold hex_digit.
    destruct (HEX !! N.to_nat v) as [d|] eqn:E; [by eapply list_elem_of_lookup_2|].
    apply lookup_ge_None in E. simpl in E. lia. }
  apply elem_of_cons in Hx as [-> | ->%list_elem_of_singleton]; apply Hd.
  - rewrite N.shiftr_div_pow2. apply N.Div0.div_lt_upper_bound. simpl. lia.
  - change 15 with (N.ones 4). rewrite N.land_ones. by apply N.mod_lt.
Qed.

Lemma lower_encode_hex bs : lower <$> encode_hex bs = encode_hex bs.
Proof.
  induction bs as [|b bs IH]; [done|]. rewrite encode_hex_cons, fmap_app, IH. f_equal.
  simpl. by rewrite !lower_hex_digit.
Qed.

Lemma decode_encode_hex bs : decode_hex (length bs) (encode_hex bs) = Some bs.
Proof. apply decode_hex_Some. split; [done|]. apply lower_encode_hex. Qed.

Lemma encode_hex_inj bs bs' : encode_hex bs = encode_hex bs' -> bs = bs'.
Proof.
  intros He. pose proof (f_equal length He) as Hl. rewrite !length_encode_hex in Hl.
  pose proof (decode_encode_hex bs) as Hd. rewrite He in Hd.
  replace (length bs) with (length bs') in Hd by lia. rewrite decode_encode_hex in Hd.
  by injection Hd.
Qed.

(** Keys round-trip through hexadecimal: [from_hex] accepts a string exactly
    when it spells 32 bytes, in upper, lower or mixed case, and then returns those
    bytes; every other string, of any length, is refused with the one error of the
    type. *)
Theorem key_hex_roundtrip (value key : bytes) :
  (from_hex value = Ok key <-> length key = KEY_BYTES /\ lower <$> value = encode_hex key) /\
  (length key = KEY_BYTES -> from_hex (encode_hex key) = Ok key).
Proof.
  unfold from_hex. split.
  - rewrite <- decode_hex_Some. by destruct (decode_hex KEY_BYTES value); naive_solver.
  - intros <-. by rewrite decode_encode_hex.
Qed.

Section Verify.

Context `{H : HmacSha256} `{!HmacLaws H}.

Lemma verify_true (key : RaftKey) (body sig : bytes) :
  length key = KEY_BYTES ->
  verify key body sig = true <->
  exists tag, hmac_tag key body = Some tag /\ lower <$> sig = encode_hex tag.
Proof.
  intros Hk. destruct (hmac_tag_total key body Hk) as (tag & Ht & Hl). unfold verify. rewrite Ht.
  destruct (decode_hex SIGNATURE_BYTES sig) as [t|] eqn:Ed.
  - apply decode_hex_Some in Ed as [_ Hs]. rewrite bool_decide_eq_true, Hs.
    split; [intros ->; eauto|]. intros (? & [= <-] & He). symmetry. by apply encode_hex_inj.
  - split; [done|]. intros (? & [= <-] & He).
    by rewrite (proj2 (decode_hex_Some SIGNATURE_BYTES sig tag) (conj Hl He)) in Ed.
Qed.

Lemma signature_Some (key : RaftKey) (body : bytes) :
  length key = KEY_BYTES ->
  exists tag, hmac_tag key body = Some tag /\ signature key body = Some (encode_hex tag).
Proof.
  intros Hk. destruct (hmac_tag_total key body Hk) as (tag & Ht & Hl). exists tag.
  split; [done|]. unfold signature. by rewrite Ht.
Qed.

Lemma verify_signature_iff (key key' : RaftKey) (body body' sig : bytes) :
  length key = KEY_BYTES -> signature key' body' = Some sig ->
  verify key body sig = true <-> hmac_tag key body = hmac_tag key' body'.
Proof.
  intros Hk Hs. rewrite verify_true by done.
  unfold signature in Hs. apply bind_Some in Hs as (tag & Ht & [= <-]).
  rewrite Ht, lower_encode_hex. split.
  - intros (t & -> & He%encode_hex_inj). by subst.
  - intros ->. eauto.
Qed.

End Verify.

(** Verification accepts exactly the hexadecimal spellings of the message's own
    tag: signing always succeeds, the signature of a body is accepted for that body
    under that key, a signature made with another key or for another body is
    accepted only if the two tags collide, and a string that is not such a spelling
    is refused. *)
Theorem verify_accepts_exactly_own_tag `{H : HmacSha256} `{!HmacLaws H} (key : RaftKey) (body sig : bytes)
    (Hkey : length key = KEY_BYTES) :
  (exists tag, hmac_tag key body = Some tag /\ signature key body = Some (encode_hex tag) /\
     verify key body (encode_hex tag) = true /\
     (verify key body sig = true <-> lower <$> sig = encode_hex tag)) /\
  (forall key' body', signature key' body' = Some sig ->
     verify key body sig = true <-> hmac_tag key body = hmac_tag key' body').
Proof.
  split; [|intros; by apply verify_signature_iff].
  destruct (signature_Some key body Hkey) as (tag & Ht & Hs). exists tag. split_and!; try done.
  - apply verify_true; [done|]. exists tag. by rewrite lower_encode_hex.
  - rewrite verify_true by done. split; [intros (? & ? & ?); by simplify_eq|eauto].
Qed.

(** A code with 32-byte tags, for the witnesses: the first 32 bytes of the body
    followed by the key. *)
Definition toy_tag : HmacSha256 := fun key body => Some (take 32 (body ++ key)).

#[export] Instance toy_tag_laws : HmacLaws toy_tag.
Proof.
  intros key body Hk. exists (take 32 (body ++ key)). split; [done|].
  rewrite length_take, length_app. lia.
Qed.

Lemma verify_accepts_exactly_own_tag_witness :
  let key := repeat Byte.xab 32 in
  @verify toy_tag key [Byte.x4d] (encode_hex (Byte.x4d :: repeat Byte.xab 31)) = true.
Proof.
  destruct (@verify_accepts_exactly_own_tag toy_tag toy_tag_laws (repeat Byte.xab 32) [Byte.x4d] []
    eq_refl) as [(tag & Ht & _ & Hv & _) _].
  vm_compute in Ht. injection Ht as <-. exact Hv.
Defined.
