(* ===== verification/Settings.v ===== *)
(** * Settings: the configuration of a node

    Models [basisdb-node/src/config.rs] and [basisdb-storage/src/lib.rs].  A
    [SharedString] is the bytes of its string, and a [SocketAddr] a number, since
    addresses are only compared. *)

From S2P Require Import Prelude.
From S2P Require Import Core.
From S2P Require Import Auth.

Record StorageOptions : Type := mkStorageOptions {
  so_name : bytes;
  data_dir : bytes
}.

(** The bytes of a string literal. *)
Definition literal (s : string) : bytes := String.list_byte_of_string s.

Definition StorageOptions_default : StorageOptions :=
  mkStorageOptions (literal "default") (literal "/var/lib/basisdb").

Record NodeConfig : Type := mkNodeConfig {
  nc_node_id : N;
  nc_client_addr : N;
  nc_raft_addr : N;
  nc_peers : gmap N N;
  nc_raft_key : RaftKey;
  nc_storage : StorageOptions;
  nc_consensus : Config
}.

(** [Path::join] with a relative component: a separator is added unless the path
    is empty or ends with one. *)
Definition path_join (path component : bytes) : bytes :=
  match last path with
  | None => component
  | Some b => if bool_decide (b = Byte.x2f) then path ++ component
              else path ++ [Byte.x2f] ++ component
  end.

Definition raft_dir (cfg : NodeConfig) : bytes :=
  path_join (data_dir (nc_storage cfg)) (literal "raft").

Definition raft_config (node_id : N) : Config :=
  let c := with_parallel_disk_write (Config_new node_id) false in
  mkConfig (cfg_id c) (election_timeout c) (heartbeat_interval c) 1
    (max_uncommitted_entries c) (max_uncommitted_bytes c) (membership_mode c) (prevote c)
    (parallel_disk_write c) (pipelining c).
