(* ===== verification/Runtime.v ===== *)
(** * Runtime: the driver of one node

    Models [basisdb-node/src/runtime.rs], with the addressing of [PeerTransport]
    in [basisdb-node/src/transport.rs].  A tick, a step and a proposal check the health
    of the runtime first and then wait for the machine's lock.  What they do under the
    lock ([tick_locked], [step_locked], [propose_locked]) is one atomic function from
    state to state; between check and lock the call is one of [rt_entered], and
    another call may fail the runtime meanwhile.  [tick_once], [step] and [propose] are
    the calls that get the lock at once.  Time-outs and cancelled clients appear as the
    separate operations [leave] and [finish_wait].

    The replicated state machine is a parameter: [apply_command] stands for
    decoding a command and [KvState::apply].  The flag [disk_ok] says whether the
    write-ahead log accepts the record of this step. *)

From S2P Require Import Prelude.
From S2P Require Import Types.
From S2P Require Import Membership.
From S2P Require Import Log.
From S2P Require Import Event.
From S2P Require Import Core.
From S2P Require Import Follower.
From S2P Require Import Node.
From S2P Require Import Settings.

(** ** Errors and configuration checks *)

Inductive RuntimeError : Type :=
| IdentityMismatch (node_id consensus_id : N)
| InvalidSelfPeer (node_id raft_addr : N)
| DuplicatePeerAddress (address : N)
| StoreFailed
| SnapshotTransportUnsupported
| UnknownPeer (peer : N)
| RuntimeFailed.

Inductive MessageError : Type :=
| WrongRecipient (expected actual : N)
| UnknownSender (sender : N)
| SelfMessage.

(** The peer ids in the order of the [BTreeMap]. *)
Definition peer_ids (cfg : NodeConfig) : list N := iter (dom (nc_peers cfg)).
Definition peer_addresses (cfg : NodeConfig) : list N :=
  omap (fun p => nc_peers cfg !! p) (peer_ids cfg).

(** The first address that [HashSet::insert] refuses. *)
Fixpoint find_duplicate (seen : gset N) (addrs : list N) : option N :=
  match addrs with
  | [] => None
  | a :: addrs' => if bool_decide (a ∈ seen) then Some a else find_duplicate ({[a]} ∪ seen) addrs'
  end.

Definition validate_config (cfg : NodeConfig) : result unit RuntimeError :=
  if negb (nc_node_id cfg =? cfg_id (nc_consensus cfg))
  then Err (IdentityMismatch (nc_node_id cfg) (cfg_id (nc_consensus cfg)))
  else if negb (bool_decide (nc_peers cfg !! nc_node_id cfg = Some (nc_raft_addr cfg)))
  then Err (InvalidSelfPeer (nc_node_id cfg) (nc_raft_addr cfg))
  else match find_duplicate ∅ (peer_addresses cfg) with
       | Some a => Err (DuplicatePeerAddress a)
       | None => Ok tt
       end.

(** ** Proposals waiting for their entry *)

Record PendingProposal : Type := mkPendingProposal {
  pp_id : N;
  pp_command : Command
}.

(** The answer sent to a waiting client. *)
Inductive Outcome (Out : Type) : Type :=
| Applied (o : Out)
| Superseded.
Arguments Applied {Out} o.
Arguments Superseded {Out}.

Definition complete {Out} (p : PendingProposal) (cmd : Command) (o : Out) : Outcome Out :=
  if bool_decide (pp_command p = cmd) then Applied o else Superseded.

Definition remove_pending (w : gmap N PendingProposal) (index id : N) : gmap N PendingProposal :=
  match w !! index with
  | Some p => if pp_id p =? id then delete index w else w
  | None => w
  end.

(** The calls that run under the machine's lock; a proposal has its id by then. *)
Inductive Call : Type :=
| TickCall
| StepCall (m : Message)
| ProposeCall (id : N) (cmd : Command).

Section Runtime.

Context {St Out : Type} (apply_command : Command -> St -> St * Out).

Record RaftRuntime : Type := mkRaftRuntime {
  rt_config : NodeConfig;
  rt_node : RaftNode;
  rt_durable : Persistent;
  rt_state : St;
  rt_waiters : gmap N PendingProposal;
  rt_next_proposal_id : N;
  rt_failed : bool;
  rt_entered : list Call
}.

Definition set_node (rt : RaftRuntime) (n : RaftNode) : RaftRuntime :=
  mkRaftRuntime (rt_config rt) n (rt_durable rt) (rt_state rt) (rt_waiters rt)
    (rt_next_proposal_id rt) (rt_failed rt) (rt_entered rt).
Definition set_durable (rt : RaftRuntime) (p : Persistent) : RaftRuntime :=
  mkRaftRuntime (rt_config rt) (rt_node rt) p (rt_state rt) (rt_waiters rt)
    (rt_next_proposal_id rt) (rt_failed rt) (rt_entered rt).
Definition set_state (rt : RaftRuntime) (s : St) : RaftRuntime :=
  mkRaftRuntime (rt_config rt) (rt_node rt) (rt_durable rt) s (rt_waiters rt)
    (rt_next_proposal_id rt) (rt_failed rt) (rt_entered rt).
Definition set_waiters (rt : RaftRuntime) (w : gmap N PendingProposal) : RaftRuntime :=
  mkRaftRuntime (rt_config rt) (rt_node rt) (rt_durable rt) (rt_state rt) w
    (rt_next_proposal_id rt) (rt_failed rt) (rt_entered rt).
Definition set_next_proposal_id (rt : RaftRuntime) (i : N) : RaftRuntime :=
  mkRaftRuntime (rt_config rt) (rt_node rt) (rt_durable rt) (rt_state rt) (rt_waiters rt)
    i (rt_failed rt) (rt_entered rt).

Definition set_entered (rt : RaftRuntime) (cs : list Call) : RaftRuntime :=
  mkRaftRuntime (rt_config rt) (rt_node rt) (rt_durable rt) (rt_state rt) (rt_waiters rt)
    (rt_next_proposal_id rt) (rt_failed rt) cs.

(** [fail]: the runtime refuses every later call. *)
Definition fail (rt : RaftRuntime) : RaftRuntime :=
  mkRaftRuntime (rt_config rt) (rt_node rt) (rt_durable rt) (rt_state rt) (rt_waiters rt)
    (rt_next_proposal_id rt) true (rt_entered rt).

(** [open], given the durable state the store recovered. *)
Definition open (cfg : NodeConfig) (st : St) (recovered : Persistent)
  : result RaftRuntime RuntimeError :=
  let? _ := validate_config cfg in
  Ok (mkRaftRuntime cfg (restore (nc_consensus cfg) recovered) recovered st ∅ 1 false []).

(** The persistent state a fresh store starts from. *)
Definition initial_persistent (cfg : NodeConfig) : Persistent :=
  node_persistent (Node.new (nc_consensus cfg) (peer_ids cfg)).

Definition ensure_healthy (rt : RaftRuntime) : result unit RuntimeError :=
  if rt_failed rt then Err RuntimeFailed else Ok tt.

Definition validate_message (rt : RaftRuntime) (m : Message) : result unit MessageError :=
  if negb (msg_to m =? nc_node_id (rt_config rt))
  then Err (WrongRecipient (nc_node_id (rt_config rt)) (msg_to m))
  else if msg_from m =? nc_node_id (rt_config rt) then Err SelfMessage
  else if is_some (nc_peers (rt_config rt) !! msg_from m) then Ok tt
  else Err (UnknownSender (msg_from m)).

(** [RaftStore::save] as the runtime sees it: after a successful save [current] is the
    recovered state.  [Store.recovery_returns_last_save] shows this for saves that are
    successors of what was saved before, and [Safety.saves_are_successors] that every save
    in a cluster of at least two members is. *)
Definition store_save (durable current : Persistent) (disk_ok : bool) : option Persistent :=
  if negb (snapshot_index (p_log current) =? snapshot_index (p_log durable)) then None
  else if disk_ok then Some current else None.

(** What the outside sees of an operation. *)
Record Output : Type := mkOutput {
  sent : list Message;
  completed : list (N * Outcome Out)
}.

Definition no_output : Output := mkOutput [] [].

(** [transport.send] for each message; the table of peers has no entry for the
    node itself.  A full permit queue drops the message, which the network model
    covers as loss. *)
Fixpoint send_messages (cfg : NodeConfig) (ms : list Message) : list Message * option N :=
  match ms with
  | [] => ([], None)
  | m :: ms' =>
      if is_some (delete (nc_node_id cfg) (nc_peers cfg) !! msg_to m)
      then let '(out, err) := send_messages cfg ms' in (m :: out, err)
      else ([], Some (msg_to m))
  end.

Definition complete_waiter (rt : RaftRuntime) (index : N) (cmd : Command) (o : Out)
  : RaftRuntime * list (N * Outcome Out) :=
  match rt_waiters rt !! index with
  | Some p => (set_waiters rt (delete index (rt_waiters rt)), [(pp_id p, complete p cmd o)])
  | None => (rt, [])
  end.

(** One iteration of [apply_committed]. *)
Definition apply_entry (rt : RaftRuntime) (e : CommittedEntry)
  : RaftRuntime * list (N * Outcome Out) :=
  let '(st, o) := apply_command (ce_command e) (rt_state rt) in
  let rt := set_state rt st in
  let rt := set_node rt (advance (rt_node rt) (ce_index e)) in
  complete_waiter rt (ce_index e) (ce_command e) o.

(** The [loop] of [apply_committed], with the completions it sends. *)
Fixpoint apply_loop (fuel : nat) (rt : RaftRuntime)
  : option (RaftRuntime * list (N * Outcome Out)) :=
  match fuel with
  | O => None
  | S fuel' =>
      match head (committed (rt_node rt)) with
      | None => Some (rt, [])
      | Some e =>
          let '(rt, done) := apply_entry rt e in
          match apply_loop fuel' rt with
          | Some (rt', done') => Some (rt', done ++ done')
          | None => None
          end
      end
  end.

Definition apply_committed (rt : RaftRuntime) : RaftRuntime * list (N * Outcome Out) :=
  match apply_loop (S (length (committed (rt_node rt)))) rt with
  | Some r => r
  | None => (rt, [])
  end.

(** [handle_effects]: persist, then send, then apply. *)
Definition handle_effects (rt : RaftRuntime) (e : Effects) (disk_ok : bool)
  : RaftRuntime * Output * result unit RuntimeError :=
  let saved := if persist e
               then store_save (rt_durable rt) (node_persistent (rt_node rt)) disk_ok
               else Some (rt_durable rt) in
  match saved with
  | None => (rt, no_output, Err StoreFailed)
  | Some d =>
      let rt := set_durable rt d in
      match send_snapshots e with
      | _ :: _ => (rt, no_output, Err SnapshotTransportUnsupported)
      | [] =>
          let '(out, err) := send_messages (rt_config rt) (messages e) in
          match err with
          | Some peer => (rt, mkOutput out [], Err (UnknownPeer peer))
          | None =>
              let '(rt, done) := apply_committed rt in
              (rt, mkOutput out done, Ok tt)
          end
      end
  end.

(** The common tail of [step] and [tick_once]. *)
Definition drive (rt : RaftRuntime) (ne : RaftNode * Effects) (disk_ok : bool)
  : RaftRuntime * Output * result unit RuntimeError :=
  let '(n, e) := ne in
  let '(rt, out, r) := handle_effects (set_node rt n) e disk_ok in
  match r with
  | Ok _ => (rt, out, Ok tt)
  | Err err => (fail rt, out, Err err)
  end.

(** *** Under the lock *)

Definition tick_locked (rt : RaftRuntime) (disk_ok : bool)
  : RaftRuntime * Output * result unit RuntimeError :=
  drive rt (tick (rt_node rt)) disk_ok.

Definition step_locked (rt : RaftRuntime) (m : Message) (disk_ok : bool)
  : RaftRuntime * Output * result unit RuntimeError :=
  drive rt (Node.step (rt_node rt) m) disk_ok.

(** What [propose] answers before it waits for its entry. *)
Inductive ProposeReply : Type :=
| Waiting (index id : N)
| RuntimeUnhealthy
| ProposalIdsExhausted
| Refused (e : ProposeError)
| EffectsFailed (e : RuntimeError).

(** The locked part of [propose]; [None] is the failing assertion of the node. *)
Definition propose_locked (rt : RaftRuntime) (id : N) (cmd : Command) (disk_ok : bool)
  : option (RaftRuntime * Output * ProposeReply) :=
  match Node.propose (rt_node rt) cmd with
  | None => None
  | Some (n, Err e) => Some (set_node rt n, no_output, Refused e)
  | Some (n, Ok (index, e)) =>
      let rt := set_node rt n in
      let rt := set_waiters rt (<[index := mkPendingProposal id cmd]> (rt_waiters rt)) in
      let '(rt, out, r) := handle_effects rt e disk_ok in
      match r with
      | Err err =>
          let rt := set_waiters rt (remove_pending (rt_waiters rt) index id) in
          Some (fail rt, out, EffectsFailed err)
      | Ok _ => Some (rt, out, Waiting index id)
      end
  end.

(** *** Before the lock *)

Definition enter_tick (rt : RaftRuntime) : result RaftRuntime RuntimeError :=
  let? _ := ensure_healthy rt in Ok (set_entered rt (rt_entered rt ++ [TickCall])).

Definition enter_step (rt : RaftRuntime) (m : Message) : result RaftRuntime RuntimeError :=
  let? _ := ensure_healthy rt in Ok (set_entered rt (rt_entered rt ++ [StepCall m])).

(** The check and the id of a proposal. *)
Definition enter_propose (rt : RaftRuntime) (cmd : Command) : result RaftRuntime ProposeReply :=
  match ensure_healthy rt with
  | Err _ => Err RuntimeUnhealthy
  | Ok _ =>
      let id := rt_next_proposal_id rt in
      match checked_add id 1 with
      | None => Err ProposalIdsExhausted
      | Some next =>
          Ok (set_entered (set_next_proposal_id rt next) (rt_entered rt ++ [ProposeCall id cmd]))
      end
  end.

(** A waiting call is given up: its future is dropped. *)
Definition leave (rt : RaftRuntime) (k : nat) : RaftRuntime :=
  set_entered rt (delete k (rt_entered rt)).

(** A waiting call gets the lock. *)
Definition run_call (rt : RaftRuntime) (c : Call) (disk_ok : bool)
  : option (RaftRuntime * Output) :=
  match c with
  | TickCall => let '(rt, out, _) := tick_locked rt disk_ok in Some (rt, out)
  | StepCall m => let '(rt, out, _) := step_locked rt m disk_ok in Some (rt, out)
  | ProposeCall id cmd =>
      match propose_locked rt id cmd disk_ok with
      | Some (rt, out, _) => Some (rt, out)
      | None => None
      end
  end.

(** *** Calls that get the lock at once *)

Definition tick_once (rt : RaftRuntime) (disk_ok : bool)
  : RaftRuntime * Output * result unit RuntimeError :=
  match ensure_healthy rt with
  | Err err => (rt, no_output, Err err)
  | Ok _ => tick_locked rt disk_ok
  end.

Definition step (rt : RaftRuntime) (m : Message) (disk_ok : bool)
  : RaftRuntime * Output * result unit RuntimeError :=
  match ensure_healthy rt with
  | Err err => (rt, no_output, Err err)
  | Ok _ => step_locked rt m disk_ok
  end.

(** [propose] up to the wait for its entry. *)
Definition propose (rt : RaftRuntime) (cmd : Command) (disk_ok : bool)
  : option (RaftRuntime * Output * ProposeReply) :=
  match ensure_healthy rt with
  | Err _ => Some (rt, no_output, RuntimeUnhealthy)
  | Ok _ =>
      let id := rt_next_proposal_id rt in
      match checked_add id 1 with
      | None => Some (rt, no_output, ProposalIdsExhausted)
      | Some next => propose_locked (set_next_proposal_id rt next) id cmd disk_ok
      end
  end.

(** The end of a wait (answer, time-out or cancellation): [PendingCleanup]. *)
Definition finish_wait (rt : RaftRuntime) (index id : N) : RaftRuntime :=
  set_waiters rt (remove_pending (rt_waiters rt) index id).

End Runtime.

Arguments RaftRuntime St : clear implicits.
Arguments Output Out : clear implicits.

(** ** Applying committed entries *)

(** [Iterator::filter_map] over a range: taking the first element and restarting
    after its index yields the rest. *)
Lemma omap_seqN_restart {A} (f : N -> option A) (ix : A -> N) a n x xs :
  (forall i y, f i = Some y -> ix y = i) ->
  omap f (seqN a n) = x :: xs ->
  a <= ix x < a + N.of_nat n /\
  omap f (seqN (ix x + 1) (N.to_nat (a + N.of_nat n - (ix x + 1)))) = xs.
Proof.
  intros Hix. revert a. induction n as [|n IH]; intros a; [done|].
  change (seqN a (S n)) with ((a + 0) :: ((fun i => a + N.of_nat i) <$> seq 1 n)).
  rewrite N.add_0_r. rewrite <- fmap_S_seq, <- list_fmap_compose.
  assert ((fun i => a + N.of_nat i) ∘ S <$> seq 0 n = seqN (a + 1) n) as ->.
  { unfold seqN. apply list_fmap_ext. intros i y _. simpl. lia. }
  simpl. destruct (f a) as [y|] eqn:E; simpl.
  - intros [= -> <-]. rewrite (Hix _ _ E). split; [lia|]. do 2 f_equal. lia.
  - intros Ho. destruct (IH _ Ho) as [H1 H2]. split; [lia|]. rewrite <- H2. do 2 f_equal. lia.
Qed.

Lemma committed_at_index lg i e : log_wf lg -> committed_at lg i = Some e -> ce_index e = i.
Proof.
  intros Hwf. unfold committed_at. destruct (get lg i) as [en|] eqn:E; [|done].
  destruct (e_payload en); [|done]. intros. simplify_eq/=. by eapply get_index.
Qed.

(** Acknowledging the first committed entry leaves the others. *)
Lemma committed_advance n e es :
  log_wf (log (core n)) -> commit_index (core n) + 1 < two64 -> last_applied (core n) + 1 < two64 ->
  committed n = e :: es ->
  committed (advance n (ce_index e)) = es /\ ce_index e <= commit_index (core n).
Proof.
  intros Hwf Hc Ha. unfold committed, advance, range. simpl. rewrite !wadd_small by done.
  change (log (set_last_applied (core n) (ce_index e))) with (log (core n)).
  intros Ho. apply (omap_seqN_restart _ ce_index) in Ho as [Hr Ho];
    [|intros; by eapply committed_at_index].
  rewrite wadd_small by lia. split; [|lia]. rewrite <- Ho. do 2 f_equal. lia.
Qed.

Section Apply.

Context {St Out : Type} (apply_command : Command -> St -> St * Out).
Implicit Types (rt : RaftRuntime St).

(** The reference: run a fixed list of entries through [apply_entry]. *)
Fixpoint apply_all rt (es : list CommittedEntry) : RaftRuntime St * list (N * Outcome Out) :=
  match es with
  | [] => (rt, [])
  | e :: es' =>
      let '(rt, done) := apply_entry apply_command rt e in
      let '(rt', done') := apply_all rt es' in
      (rt', done ++ done')
  end.

Definition applicable rt : Prop :=
  log_wf (log (core (rt_node rt))) /\ commit_index (core (rt_node rt)) + 1 < two64 /\
  last_applied (core (rt_node rt)) + 1 < two64.

Lemma apply_entry_node rt e :
  rt_node (fst (apply_entry apply_command rt e)) = advance (rt_node rt) (ce_index e) /\
  rt_state (fst (apply_entry apply_command rt e)) =
    fst (apply_command (ce_command e) (rt_state rt)) /\
  rt_durable (fst (apply_entry apply_command rt e)) = rt_durable rt /\
  rt_failed (fst (apply_entry apply_command rt e)) = rt_failed rt /\
  rt_config (fst (apply_entry apply_command rt e)) = rt_config rt.
Proof.
  unfold apply_entry. destruct (apply_command _ _) as [st o]. unfold complete_waiter.
  by case_match.
Qed.

Lemma apply_loop_spec fuel rt :
  applicable rt -> (length (committed (rt_node rt)) < fuel)%nat ->
  apply_loop apply_command fuel rt = Some (apply_all rt (committed (rt_node rt))) /\
  committed (rt_node (fst (apply_all rt (committed (rt_node rt))))) = [].
Proof.
  revert rt. induction fuel as [|fuel IH]; intros rt (Hwf & Hc & Ha) Hf; [lia|]. simpl.
  destruct (committed (rt_node rt)) as [|e es] eqn:E; [done|]. simpl.
  destruct (committed_advance _ _ _ Hwf Hc Ha E) as [Hadv Hle].
  pose proof (apply_entry_node rt e) as (Hn & _).
  destruct (apply_entry apply_command rt e) as [rt1 d1]. simpl in Hn.
  destruct (IH rt1) as [Hl Hnil].
  - unfold applicable. rewrite Hn. simpl. split_and!; [done|done|lia].
  - rewrite Hn, Hadv. simpl in Hf. lia.
  - rewrite Hl. rewrite Hn, Hadv in Hnil |- *. by destruct (apply_all rt1 es).
Qed.

Lemma apply_committed_eq rt :
  applicable rt ->
  apply_committed apply_command rt = apply_all rt (committed (rt_node rt)) /\
  committed (rt_node (fst (apply_committed apply_command rt))) = [].
Proof.
  intros Hap. unfold apply_committed.
  destruct (apply_loop_spec (S (length (committed (rt_node rt)))) rt Hap ltac:(lia)) as [-> Hn].
  done.
Qed.

Lemma apply_all_state rt es :
  rt_state (fst (apply_all rt es)) =
  foldl (fun st e => fst (apply_command (ce_command e) st)) (rt_state rt) es.
Proof.
  revert rt. induction es as [|e es IH]; intros rt; [done|]. simpl.
  pose proof (apply_entry_node rt e) as (_ & Hs & _).
  destruct (apply_entry apply_command rt e) as [rt1 d1]. simpl in Hs.
  specialize (IH rt1). destruct (apply_all rt1 es). simpl in *. by rewrite IH, Hs.
Qed.

Lemma apply_all_waiters rt es i p :
  rt_waiters (fst (apply_all rt es)) !! i = Some p -> rt_waiters rt !! i = Some p.
Proof.
  revert rt. induction es as [|e es IH]; intros rt; [done|]. simpl.
  destruct (apply_entry apply_command rt e) as [rt1 d1] eqn:E.
  specialize (IH rt1). destruct (apply_all rt1 es). simpl in *. intros H%IH. revert H.
  unfold apply_entry in E. destruct (apply_command _ _). unfold complete_waiter in E.
  case_match; simplify_eq; simpl; [|done]. by intros [_ ?]%lookup_delete_Some.
Qed.

(** Every answered proposal was waiting for an applied entry with its command. *)
Lemma apply_all_completed rt es pid o :
  (pid, Applied o) ∈ snd (apply_all rt es) ->
  exists e p st, e ∈ es /\ rt_waiters rt !! ce_index e = Some p /\ pp_id p = pid /\
    pp_command p = ce_command e /\ o = snd (apply_command (ce_command e) st).
Proof.
  revert rt. induction es as [|e es IH]; intros rt; simpl; [intros H; inversion H|].
  pose proof (apply_all_waiters rt [e]) as Hw. simpl in Hw.
  destruct (apply_entry apply_command rt e) as [rt1 d1] eqn:E. simpl in Hw.
  specialize (IH rt1). destruct (apply_all rt1 es) as [rt2 d2]. simpl in *.
  intros [Hin|Hin]%elem_of_app.
  - unfold apply_entry in E. destruct (apply_command _ _) as [st' o'] eqn:Eo.
    unfold complete_waiter in E. simpl in E.
    destruct (rt_waiters rt !! ce_index e) as [p|] eqn:Ew; simplify_eq; [|inversion Hin].
    apply list_elem_of_singleton in Hin. injection Hin as -> Ho. unfold complete in Ho.
    case_bool_decide; simplify_eq. exists e, p, (rt_state rt). split_and!; try done.
    + by left.
    + by rewrite Eo.
  - destruct (IH Hin) as (e' & p & st & He & Hp & ?). exists e', p, st.
    split; [by right|]. split; [by apply Hw|done].
Qed.

End Apply.

(** ** Answers come from waiting proposals *)

Section Answers.

Context {St Out : Type} (apply_command : Command -> St -> St * Out) (Inv : St -> Prop).
Hypothesis apply_command_inv : forall cmd st, Inv st -> Inv (fst (apply_command cmd st)).
Implicit Types (rt : RaftRuntime St).

(** An answer goes to a proposal in the table: "superseded", or the result of its own
    command on a state that satisfies the invariant. *)
Definition answered_from (w : gmap N PendingProposal) (a : N * Outcome Out) : Prop :=
  exists i p, w !! i = Some p /\ pp_id p = a.1 /\
    match a.2 with
    | Superseded => True
    | Applied o => exists st, Inv st /\ o = snd (apply_command (pp_command p) st)
    end.

(** What an operation may do to the state and the table, with the answers it gives. *)
Definition answers_ok rt rt' (ds : list (N * Outcome Out)) : Prop :=
  Inv (rt_state rt') /\ rt_waiters rt' ⊆ rt_waiters rt /\
  rt_next_proposal_id rt' = rt_next_proposal_id rt /\
  Forall (answered_from (rt_waiters rt)) ds /\
  rt_entered rt' = rt_entered rt /\ (rt_failed rt = true -> rt_failed rt' = true).

Lemma answers_ok_refl rt : Inv (rt_state rt) -> answers_ok rt rt [].
Proof. intros HI. by split_and!; [|reflexivity| |constructor|..]. Qed.

Lemma answered_from_mono w w' a : w ⊆ w' -> answered_from w a -> answered_from w' a.
Proof. intros Hw (i & p & Hp & Hr). exists i, p. split; [by eapply lookup_weaken|done]. Qed.

Lemma answers_ok_trans rt1 rt2 rt3 d1 d2 :
  answers_ok rt1 rt2 d1 -> answers_ok rt2 rt3 d2 -> answers_ok rt1 rt3 (d1 ++ d2).
Proof.
  intros (_ & Hw1 & Hn1 & Hd1 & He1 & Hf1) (HI & Hw2 & Hn2 & Hd2 & He2 & Hf2).
  split_and!; [done|by etrans|congruence| |congruence|by auto].
  apply Forall_app. split; [done|]. eapply Forall_impl; [exact Hd2|].
  intros a. by apply answered_from_mono.
Qed.

Lemma apply_entry_answers rt e rt' ds :
  Inv (rt_state rt) -> apply_entry apply_command rt e = (rt', ds) -> answers_ok rt rt' ds.
Proof.
  intros HI. unfold apply_entry. pose proof (apply_command_inv (ce_command e) _ HI) as HI'.
  destruct (apply_command (ce_command e) (rt_state rt)) as [st o] eqn:Ea. unfold complete_waiter.
  simpl. destruct (rt_waiters rt !! ce_index e) as [p|] eqn:Ep; intros [= <- <-];
    split_and!; simpl; try done; try apply delete_subseteq.
  apply Forall_singleton. exists (ce_index e), p. split_and!; [done|done|]. unfold complete. simpl.
  case_bool_decide as Hc; [|done]. exists (rt_state rt). by rewrite Hc, Ea.
Qed.

Lemma apply_loop_answers fuel rt rt' ds :
  Inv (rt_state rt) -> apply_loop apply_command fuel rt = Some (rt', ds) ->
  answers_ok rt rt' ds.
Proof.
  revert rt rt' ds. induction fuel as [|fuel IH]; intros rt rt' ds HI; [done|]. simpl.
  destruct (head _) as [e|]; [|intros [= <- <-]; by apply answers_ok_refl].
  destruct (apply_entry apply_command rt e) as [rt1 d1] eqn:Ee.
  apply apply_entry_answers in Ee; [|done].
  destruct (apply_loop apply_command fuel rt1) as [[rt2 d2]|] eqn:El; [|done]. intros [= <- <-].
  eapply answers_ok_trans; [exact Ee|]. apply IH; [apply Ee|done].
Qed.

Lemma apply_committed_answers rt rt' ds :
  Inv (rt_state rt) -> apply_committed apply_command rt = (rt', ds) -> answers_ok rt rt' ds.
Proof.
  intros HI. unfold apply_committed.
  destruct (apply_loop _ _ rt) as [[rt1 d1]|] eqn:E; intros [= <- <-];
    [by eapply apply_loop_answers|by apply answers_ok_refl].
Qed.

Lemma handle_effects_answers rt e disk_ok rt' out r :
  Inv (rt_state rt) -> handle_effects apply_command rt e disk_ok = (rt', out, r) ->
  answers_ok rt rt' (completed out).
Proof.
  intros HI. unfold handle_effects. destruct (if persist e then _ else _) as [d|];
    [|intros [= <- <- <-]; by apply answers_ok_refl].
  destruct (send_snapshots e); [|intros [= <- <- <-]; exact (answers_ok_refl (set_durable rt d) HI)].
  destruct (send_messages _ _) as [ms [peer|]];
    [intros [= <- <- <-]; exact (answers_ok_refl (set_durable rt d) HI)|].
  destruct (apply_committed apply_command (set_durable rt d)) as [rt1 d1] eqn:Ea.
  intros [= <- <- <-]. by apply apply_committed_answers in Ea.
Qed.

Lemma drive_answers rt ne disk_ok rt' out r :
  Inv (rt_state rt) -> drive apply_command rt ne disk_ok = (rt', out, r) ->
  answers_ok rt rt' (completed out).
Proof.
  intros HI. destruct ne as [n e]. unfold drive.
  destruct (handle_effects apply_command (set_node rt n) e disk_ok) as [[rt1 out1] r1] eqn:Eh.
  apply handle_effects_answers in Eh as (? & ? & ? & ? & ? & ?); [|done].
  destruct r1; intros [= <- <- <-]; by split_and!.
Qed.

Lemma tick_once_answers rt disk_ok rt' out r :
  Inv (rt_state rt) -> tick_once apply_command rt disk_ok = (rt', out, r) ->
  answers_ok rt rt' (completed out).
Proof.
  intros HI. unfold tick_once, tick_locked. destruct (ensure_healthy rt); [by apply drive_answers|].
  intros [= <- <- <-]. by apply answers_ok_refl.
Qed.

Lemma step_answers rt m disk_ok rt' out r :
  Inv (rt_state rt) -> step apply_command rt m disk_ok = (rt', out, r) ->
  answers_ok rt rt' (completed out).
Proof.
  intros HI. unfold step, step_locked. destruct (ensure_healthy rt); [by apply drive_answers|].
  intros [= <- <- <-]. by apply answers_ok_refl.
Qed.

Lemma remove_pending_subseteq w index id : remove_pending w index id ⊆ w.
Proof. unfold remove_pending. repeat case_match; [apply delete_subseteq|done..]. Qed.

(** A proposal may add itself to the table, under its id. *)
Lemma propose_locked_answers rt id cmd disk_ok rt' out reply :
  Inv (rt_state rt) -> propose_locked apply_command rt id cmd disk_ok = Some (rt', out, reply) ->
  Inv (rt_state rt') /\ rt_next_proposal_id rt' = rt_next_proposal_id rt /\
  rt_entered rt' = rt_entered rt /\ (rt_failed rt = true -> rt_failed rt' = true) /\
  match reply with
  | Waiting _ pid => pid = id
  | Refused _ => True
  | EffectsFailed _ => rt_failed rt' = true
  | RuntimeUnhealthy | ProposalIdsExhausted => False
  end /\
  ((rt_waiters rt' = rt_waiters rt /\ completed out = []) \/
   (exists index, let w := <[index := mkPendingProposal id cmd]> (rt_waiters rt) in
      rt_waiters rt' ⊆ w /\ Forall (answered_from w) (completed out))).
Proof.
  intros HI. unfold propose_locked.
  destruct (Node.propose (rt_node rt) cmd) as [[n [[index e]|err]]|];
    [|intros [= <- <- <-]; simpl; split_and!; [done..|by left]|done].
  match goal with |- context [handle_effects _ ?x e disk_ok] =>
    destruct (handle_effects apply_command x e disk_ok) as [[rt1 out1] r1] eqn:Eh end.
  apply handle_effects_answers in Eh as (HI1 & Hw & Hn & Hd & He & Hf); [|done].
  simpl in Hw, Hn, Hd, He, Hf.
  destruct r1 as [[]|]; intros [= <- <- <-]; simpl; split_and!; try done; right;
    exists index; split; try done.
  etrans; [apply remove_pending_subseteq|done].
Qed.

End Answers.

(** C27. The apply loop of the driver terminates and applies every committed and not
    yet applied command exactly once, in log order, on the state machine, and
    leaves nothing committed unapplied. *)
Theorem apply_committed_is_exhaustive {St Out : Type}
    (apply_command : Command -> St -> St * Out) rt (Hap : applicable rt) :
  let rt' := fst (apply_committed apply_command rt) in
  is_Some (apply_loop apply_command (S (length (committed (rt_node rt)))) rt) /\
  committed (rt_node rt') = [] /\
  rt_state rt' =
    foldl (fun st e => fst (apply_command (ce_command e) st)) (rt_state rt)
          (committed (rt_node rt)).
Proof.
  intros rt'. destruct (apply_committed_eq apply_command rt Hap) as [Heq Hnil]. split_and!.
  - rewrite (proj1 (apply_loop_spec apply_command (S (length (committed (rt_node rt)))) rt
                      Hap ltac:(lia))). eauto.
  - done.
  - unfold rt'. rewrite Heq. apply apply_all_state.
Qed.

(** A client is answered with the result of its own command: a proposal that
    was waiting at an index completes successfully only if the entry applied at
    that index carries exactly the proposed bytes; if the log was overwritten by
    another command the answer is "superseded". *)
Theorem proposal_answers_match_command {St Out : Type}
    (apply_command : Command -> St -> St * Out) rt pid o (Hap : applicable rt)
    (Hin : (pid, Applied o) ∈ snd (apply_committed apply_command rt)) :
  exists e p st, e ∈ committed (rt_node rt) /\ rt_waiters rt !! ce_index e = Some p /\
    pp_id p = pid /\ pp_command p = ce_command e /\ o = snd (apply_command (ce_command e) st).
Proof.
  rewrite (proj1 (apply_committed_eq apply_command rt Hap)) in Hin.
  by eapply apply_all_completed.
Qed.

(** A state machine that keeps the commands it was given, for the witnesses. *)
Definition journal (cmd : Command) (st : list Command) : list Command * nat :=
  (st ++ [cmd], length st).

Definition demo_runtime : RaftRuntime (list Command) :=
  mkRaftRuntime (mkNodeConfig 1 20 10 {[1 := 10]} [] StorageOptions_default (raft_config 1))
    (mkRaftNode (set_commit_index (Core_restore (raft_config 1)
        (mkPersistent 1 None (mkLog [mkEntry 1 1 (CommandPayload [Byte.x61]);
           mkEntry 1 2 (CommandPayload [Byte.x62])] 0 0 None) (simple [1]))) 2)
       (RFollower (Follower.mkFollower None 0 None)))
    (mkPersistent 1 None Log_default (simple [1])) [] {[2 := mkPendingProposal 7 [Byte.x62]]} 8 false [].

Lemma demo_runtime_applicable : applicable demo_runtime.
Proof.
  split_and!; [split; [|reflexivity]|reflexivity|reflexivity].
  simpl. rewrite !contiguous_cons. repeat split. apply contiguous_nil.
Qed.

Lemma apply_committed_is_exhaustive_witness :
  rt_state (fst (apply_committed journal demo_runtime)) = [[Byte.x61]; [Byte.x62]].
Proof.
  destruct (apply_committed_is_exhaustive journal demo_runtime demo_runtime_applicable)
    as (_ & _ & ->). reflexivity.
Defined.

Lemma proposal_answers_match_command_witness :
  exists e, e ∈ committed (rt_node demo_runtime) /\ ce_command e = [Byte.x62].
Proof.
  destruct (proposal_answers_match_command journal demo_runtime 7 1%nat demo_runtime_applicable)
    as (e & p & st & He & Hp & _ & Hcmd & _).
  - assert (snd (apply_committed journal demo_runtime) = [(7, Applied 1%nat)]) as ->
      by (vm_compute; reflexivity).
    apply list_elem_of_singleton. reflexivity.
  - exists e. split; [exact He|]. rewrite <- Hcmd.
    destruct (decide (ce_index e = 2)) as [E|E].
    + rewrite E in Hp. vm_compute in Hp. injection Hp as <-. reflexivity.
    + unfold demo_runtime in Hp. simpl in Hp.
      rewrite lookup_singleton_ne in Hp by congruence. discriminate.
Defined.
