(* ===== verification/Cluster.v ===== *)
(** * Cluster: the replicated system and election safety

    A cluster is the runtimes of [basisdb-node] connected by a network that may
    lose, duplicate, delay and reorder messages: messages sent are added to a
    collection from which any of them may be delivered any number of times.
    Nodes may crash at any point between operations and reopen from their durable
    state, and writes to disk may fail.  A call of a runtime may get the machine's lock
    at once ([ATick], [ADeliver], [APropose]) or wait for it after its health check
    ([AEnterTick], [AEnterStep], [AEnterPropose], then [ALocked] or [ALeave]), in which
    case it may run after another call has failed the runtime.  [orderly] says of an
    action that it is not such a late call; this file's invariant is kept by orderly
    actions, and [Safety] has the one that all actions keep.

    [exec] runs one action of the environment; [run] a list of them; a state is
    [reachable] if some list of actions leads to it from the initial cluster.  The
    only executions left out are those that increment a term of [u64::MAX] (see
    [HardState.election_at_max_term_wraps]) or append an entry at index [u64::MAX]. *)

From S2P Require Import Prelude.
From S2P Require Import Types.
From S2P Require Import Membership.
From S2P Require Import Log.
From S2P Require Import Event.
From S2P Require Import Core.
From S2P Require Import Follower.
From S2P Require Import Candidate.
From S2P Require Import Leader.
From S2P Require Import Node.
From S2P Require Import HardState.
From S2P Require Import Static.
From S2P Require Import Settings.
From S2P Require Import Runtime.

(** ** The system *)

Inductive Action : Type :=
| ATick (i : N) (disk_ok : bool)
| ADeliver (i : N) (k : nat) (disk_ok : bool)
| APropose (i : N) (cmd : Command) (disk_ok : bool)
| AFinish (i index id : N)
| ACrash (i : N)
| AEnterTick (i : N)
| AEnterStep (i : N) (k : nat)
| AEnterPropose (i : N) (cmd : Command)
| ALocked (i : N) (p : nat) (disk_ok : bool)
| ALeave (i : N) (p : nat).

(** The executions left out: a call that increments a term of [u64::MAX], or appends
    an entry at index [u64::MAX]. *)
Definition call_in_range (n : RaftNode) (c : Call) : bool :=
  match c with
  | TickCall => no_term_overflow n Tick
  | StepCall m => no_term_overflow n (MessageEvent m)
  | ProposeCall _ _ => last_index (log (core n)) + 2 <? two64
  end.

Section Cluster.

Context {St Out : Type} (apply_command : Command -> St -> St * Out) (initial_state : St).
Context (cfgs : gmap N NodeConfig).

Record Cluster : Type := mkCluster {
  nodes : gmap N (RaftRuntime St);
  network : list Message
}.

Definition open_option (cfg : NodeConfig) (d : Persistent) : option (RaftRuntime St) :=
  match Runtime.open cfg initial_state d with Ok rt => Some rt | Err _ => None end.

Definition initial : Cluster :=
  mkCluster (omap (fun cfg => open_option cfg (initial_persistent cfg)) cfgs) [].

(** Replace a node and add what it sent. *)
Definition update (s : Cluster) (i : N) (rt : RaftRuntime St) (out : list Message) : Cluster :=
  mkCluster (<[i := rt]> (nodes s)) (network s ++ out).

(** The runtime after a call has entered, or has been turned away. *)
Definition entered_or {E : Type} (rt : RaftRuntime St) (r : result (RaftRuntime St) E)
  : RaftRuntime St :=
  match r with Ok rt' => rt' | Err _ => rt end.

Definition exec (s : Cluster) (a : Action) : option Cluster :=
  match a with
  | ATick i ok =>
      match nodes s !! i with
      | Some rt =>
          if no_term_overflow (rt_node rt) Tick then
            let '(rt', out, _) := tick_once apply_command rt ok in Some (update s i rt' (sent out))
          else None
      | None => None
      end
  | ADeliver i k ok =>
      match nodes s !! i, network s !! k with
      | Some rt, Some m =>
          if is_ok (validate_message rt m) && no_term_overflow (rt_node rt) (MessageEvent m) then
            let '(rt', out, _) := Runtime.step apply_command rt m ok in
            Some (update s i rt' (sent out))
          else None
      | _, _ => None
      end
  | APropose i cmd ok =>
      match nodes s !! i with
      | Some rt =>
          if last_index (log (core (rt_node rt))) + 2 <? two64 then
            match Runtime.propose apply_command rt cmd ok with
            | Some (rt', out, _) => Some (update s i rt' (sent out))
            | None => None
            end
          else None
      | None => None
      end
  | AFinish i index pid =>
      match nodes s !! i with
      | Some rt => Some (update s i (finish_wait rt index pid) [])
      | None => None
      end
  | ACrash i =>
      match nodes s !! i with
      | Some rt =>
          match open_option (rt_config rt) (rt_durable rt) with
          | Some rt' => Some (update s i rt' [])
          | None => None
          end
      | None => None
      end
  | AEnterTick i =>
      match nodes s !! i with
      | Some rt => Some (update s i (entered_or rt (enter_tick rt)) [])
      | None => None
      end
  | AEnterStep i k =>
      match nodes s !! i, network s !! k with
      | Some rt, Some m =>
          if is_ok (validate_message rt m)
          then Some (update s i (entered_or rt (enter_step rt m)) []) else None
      | _, _ => None
      end
  | AEnterPropose i cmd =>
      match nodes s !! i with
      | Some rt => Some (update s i (entered_or rt (enter_propose rt cmd)) [])
      | None => None
      end
  | ALocked i p ok =>
      match nodes s !! i with
      | Some rt =>
          match rt_entered rt !! p with
          | Some c =>
              if call_in_range (rt_node rt) c then
                match run_call apply_command (leave rt p) c ok with
                | Some (rt', out) => Some (update s i rt' (sent out))
                | None => None
                end
              else None
          | None => None
          end
      | None => None
      end
  | ALeave i p =>
      match nodes s !! i with
      | Some rt => Some (update s i (leave rt p) [])
      | None => None
      end
  end.

Fixpoint run (s : Cluster) (acts : list Action) : option Cluster :=
  match acts with
  | [] => Some s
  | a :: acts' => match exec s a with Some s' => run s' acts' | None => None end
  end.

Definition reachable (s : Cluster) : Prop := exists acts, run initial acts = Some s.

(** The action is not a call that gets the lock of a runtime that has failed since the
    call's health check. *)
Definition orderly (s : Cluster) (a : Action) : bool :=
  match a with
  | ALocked i _ _ => match nodes s !! i with Some rt => negb (rt_failed rt) | None => true end
  | _ => true
  end.

(** Node [i] is a healthy leader of term [t]. *)
Definition leads (s : Cluster) (i t : N) : Prop :=
  exists rt, nodes s !! i = Some rt /\ rt_failed rt = false /\
    is_leader (rt_node rt) = true /\ node_term (rt_node rt) = t.

(** All nodes agree on who the members are. *)
Definition same_members : Prop :=
  forall i cfg, cfgs !! i = Some cfg -> nc_node_id cfg = i /\ dom (nc_peers cfg) = dom cfgs.

End Cluster.

Arguments Cluster St : clear implicits.

Lemma run_app {St Out : Type} (apply_command : Command -> St -> St * Out) initial_state
    (s s1 s2 : Cluster St) acts1 acts2 :
  run apply_command initial_state s acts1 = Some s1 ->
  run apply_command initial_state s1 acts2 = Some s2 ->
  run apply_command initial_state s (acts1 ++ acts2) = Some s2.
Proof.
  revert s. induction acts1 as [|a acts IH]; intros s; simpl; [by intros [= ->]|].
  destruct (exec apply_command initial_state s a) as [s'|]; [apply IH|done].
Qed.

(** ** A call that gets the lock at once has entered and then run *)

Section TwoPhases.

Context {St Out : Type} (apply_command : Command -> St -> St * Out) (initial_state : St).
Abbreviation exec := (exec apply_command initial_state).
Abbreviation run := (run apply_command initial_state).

Lemma leave_last (rt : RaftRuntime St) c :
  leave (set_entered rt (rt_entered rt ++ [c])) (length (rt_entered rt)) = rt.
Proof.
  unfold leave. simpl. rewrite delete_middle, app_nil_r. by destruct rt.
Qed.

Lemma update_twice (s : Cluster St) i rt rt' out :
  update (update s i rt []) i rt' out = update s i rt' out.
Proof. unfold update. simpl. by rewrite insert_insert_eq, app_nil_r. Qed.

(** On a healthy runtime the atomic actions are an entering action followed by the
    locked one. *)
Lemma atomic_is_enter_then_lock (s : Cluster St) i rt ok :
  nodes s !! i = Some rt -> rt_failed rt = false ->
  let p := length (rt_entered rt) in
  run s [AEnterTick i; ALocked i p ok] = exec s (ATick i ok) /\
  (forall k m, network s !! k = Some m -> is_ok (validate_message rt m) = true ->
     run s [AEnterStep i k; ALocked i p ok] = exec s (ADeliver i k ok)) /\
  (forall cmd next, checked_add (rt_next_proposal_id rt) 1 = Some next ->
     run s [AEnterPropose i cmd; ALocked i p ok] = exec s (APropose i cmd ok)).
Proof.
  intros Hi Hf p. unfold p.
  assert (forall rt1 c, rt_entered rt1 = rt_entered rt -> rt_node rt1 = rt_node rt ->
    run (update s i (set_entered rt1 (rt_entered rt ++ [c])) []) [ALocked i (length (rt_entered rt)) ok] =
    if call_in_range (rt_node rt) c then
      match run_call apply_command rt1 c ok with
      | Some (rt', out) => Some (update s i rt' (sent out))
      | None => None
      end
    else None) as Hlock.
  { intros rt1 c He Hn. simpl. rewrite lookup_insert_eq. simpl.
    rewrite (lookup_app_r (rt_entered rt)), Nat.sub_diag by lia. simpl. rewrite Hn.
    destruct (call_in_range (rt_node rt) c); [|done]. rewrite <- He, leave_last.
    destruct (run_call apply_command rt1 c ok) as [[rt' out]|]; [|done]. by rewrite update_twice. }
  split_and!.
  - change (run s [AEnterTick i; ALocked i (length (rt_entered rt)) ok]) with
      (match exec s (AEnterTick i) with
       | Some s' => run s' [ALocked i (length (rt_entered rt)) ok] | None => None end).
    cbn [Cluster.exec]. rewrite Hi. unfold enter_tick, ensure_healthy. rewrite Hf. simpl entered_or.
    rewrite Hlock by done. simpl. case_match; [|done].
    unfold tick_once, ensure_healthy. rewrite Hf.
    by destruct (tick_locked _ _ _) as [[? ?] ?].
  - intros k m Hk Hv.
    change (run s [AEnterStep i k; ALocked i (length (rt_entered rt)) ok]) with
      (match exec s (AEnterStep i k) with
       | Some s' => run s' [ALocked i (length (rt_entered rt)) ok] | None => None end).
    cbn [Cluster.exec]. rewrite Hi, Hk, Hv. unfold enter_step, ensure_healthy. rewrite Hf. simpl entered_or.
    rewrite Hlock by done. simpl. case_match; [|done].
    unfold Runtime.step, ensure_healthy. rewrite Hf.
    by destruct (step_locked _ _ _ _) as [[? ?] ?].
  - intros cmd next Hn.
    change (run s [AEnterPropose i cmd; ALocked i (length (rt_entered rt)) ok]) with
      (match exec s (AEnterPropose i cmd) with
       | Some s' => run s' [ALocked i (length (rt_entered rt)) ok] | None => None end).
    cbn [Cluster.exec]. rewrite Hi. unfold enter_propose, ensure_healthy. rewrite Hf, Hn. simpl entered_or.
    rewrite Hlock by done. simpl. case_match; [|done].
    unfold Runtime.propose, ensure_healthy. rewrite Hf, Hn.
    by destruct (propose_locked _ _ _ _ _) as [[[? ?] ?]|].
Qed.

End TwoPhases.

(** ** What one operation of a runtime does to its node *)

Section Ops.

Context {St Out : Type} (apply_command : Command -> St -> St * Out).
Implicit Types (rt : RaftRuntime St).

(** Nodes that differ in what they have applied. *)
Definition same_but_applied (n n' : RaftNode) : Prop :=
  role n' = role n /\ exists la, core n' = set_last_applied (core n) la.

Lemma same_but_applied_refl n : same_but_applied n n.
Proof. split; [done|]. exists (last_applied (core n)). by destruct n as [[]]. Qed.

Lemma same_but_applied_trans n1 n2 n3 :
  same_but_applied n1 n2 -> same_but_applied n2 n3 -> same_but_applied n1 n3.
Proof.
  intros [Hr1 [la1 Hc1]] [Hr2 [la2 Hc2]]. split; [congruence|]. exists la2. by rewrite Hc2, Hc1.
Qed.

(** The parts of the runtime that applying commands does not touch. *)
Definition same_shell rt rt' : Prop :=
  rt_config rt' = rt_config rt /\ rt_durable rt' = rt_durable rt /\
  rt_failed rt' = rt_failed rt /\ same_but_applied (rt_node rt) (rt_node rt').

Lemma apply_loop_shell fuel rt rt' d :
  apply_loop apply_command fuel rt = Some (rt', d) -> same_shell rt rt'.
Proof.
  revert rt d. induction fuel as [|fuel IH]; intros rt d; simpl; [done|].
  destruct (head (committed (rt_node rt))) as [e|].
  - pose proof (apply_entry_node apply_command rt e) as (Hn & _ & Hd & Hf & Hc).
    destruct (apply_entry apply_command rt e) as [rt1 d1]. simpl in *.
    destruct (apply_loop apply_command fuel rt1) as [[rt2 d2]|] eqn:El; [|done].
    intros. simplify_eq. destruct (IH _ _ El) as (Hc2 & Hd2 & Hf2 & Hs2).
    split_and!; [congruence..|]. eapply same_but_applied_trans; [|exact Hs2]. rewrite Hn.
    split; [done|]. by exists (ce_index e).
  - intros. simplify_eq. split_and!; [done..|]. apply same_but_applied_refl.
Qed.

Lemma apply_committed_shell rt rt' d :
  apply_committed apply_command rt = (rt', d) -> same_shell rt rt'.
Proof.
  unfold apply_committed. case_match eqn:E; intros; simplify_eq.
  - by eapply apply_loop_shell.
  - split_and!; [done..|]. apply same_but_applied_refl.
Qed.

Lemma send_messages_subset cfg ms out err :
  send_messages cfg ms = (out, err) ->
  (forall m, m ∈ out -> m ∈ ms) /\ (err = None -> out = ms).
Proof.
  revert out. induction ms as [|m ms IH]; intros out; simpl; [intros; by simplify_eq|].
  case_match.
  - destruct (send_messages cfg ms) as [out1 err1]. intros [= <- ->].
    destruct (IH out1 eq_refl) as [H1 H2]. split; [|intros; by rewrite H2].
    intros m' [->|Hm]%elem_of_cons; [by left|]. right. auto.
  - intros [= <- <-]. split; [|done]. intros m' Hm. inversion Hm.
Qed.

(** [handle_effects]: either nothing left the node and the disk kept its old
    content, or the node's persistent state is on disk before anything is sent. *)
Lemma handle_effects_cases rt e ok rt' out r :
  (persist e = false -> node_persistent (rt_node rt) = rt_durable rt) ->
  handle_effects apply_command rt e ok = (rt', out, r) ->
  rt_config rt' = rt_config rt /\ rt_failed rt' = rt_failed rt /\
  ((rt_durable rt' = rt_durable rt /\ sent out = [] /\ is_ok r = false) \/
   (rt_durable rt' = node_persistent (rt_node rt) /\ same_but_applied (rt_node rt) (rt_node rt') /\
    (forall m, m ∈ sent out -> m ∈ messages e) /\ (is_ok r = true -> sent out = messages e /\
       exists ds, apply_committed apply_command
         (set_durable rt (node_persistent (rt_node rt))) = (rt', ds)))).
Proof.
  intros Hsync. unfold handle_effects.
  destruct (if persist e then _ else _) as [d|] eqn:Ed;
    [|intros; simplify_eq; split_and!; [done..|by left]].
  assert (d = node_persistent (rt_node rt)) as ->.
  { destruct (persist e); [|rewrite Hsync by done; congruence].
    unfold store_save in Ed. by repeat case_match; simplify_eq. }
  destruct (send_snapshots e).
  - destruct (send_messages _ _) as [o err] eqn:Es.
    destruct (send_messages_subset _ _ _ _ Es) as [Hsub Hall]. destruct err as [peer|].
    + intros. simplify_eq. split_and!; [done..|]. right. split_and!; [done| |done|done].
      apply same_but_applied_refl.
    + destruct (apply_committed _ _) as [rt1 d1] eqn:Ea. pose proof (apply_committed_shell _ _ _ Ea) as Hsh.
      destruct Hsh as (Hc & Hd & Hf & Hn). intros. simplify_eq. split_and!; [done..|].
      right. split_and!; [done|exact Hn|done|]. simpl. intros _. split; [auto|]. by exists d1.
  - intros. simplify_eq. split_and!; [done..|]. right. simpl. split_and!; [done| | |done].
    + apply same_but_applied_refl.
    + intros m Hm. inversion Hm.
Qed.

(** Only entering and leaving change the waiting calls. *)
Lemma apply_committed_entered rt rt' d :
  apply_committed apply_command rt = (rt', d) -> rt_entered rt' = rt_entered rt.
Proof.
  unfold apply_committed.
  assert (forall fuel rt rt' d, apply_loop apply_command fuel rt = Some (rt', d) ->
    rt_entered rt' = rt_entered rt) as Hl.
  { clear. induction fuel as [|fuel IH]; intros rt rt' d; simpl; [done|].
    destruct (head _) as [e|]; [|intros; by simplify_eq].
    destruct (apply_entry apply_command rt e) as [rt1 d1] eqn:Ee.
    assert (rt_entered rt1 = rt_entered rt) as <-.
    { unfold apply_entry, complete_waiter in Ee. by repeat case_match; simplify_eq. }
    destruct (apply_loop apply_command fuel rt1) as [[rt2 d2]|] eqn:El; [|done].
    intros. simplify_eq. by eapply IH. }
  case_match eqn:E; intros; simplify_eq; [by eapply Hl|done].
Qed.

Lemma handle_effects_entered rt e ok rt' out r :
  handle_effects apply_command rt e ok = (rt', out, r) -> rt_entered rt' = rt_entered rt.
Proof.
  unfold handle_effects. destruct (if persist e then _ else _) as [d|]; [|intros; by simplify_eq].
  destruct (send_snapshots e); [|intros; by simplify_eq].
  destruct (send_messages _ _) as [o [peer|]]; [intros; by simplify_eq|].
  destruct (apply_committed _ _) as [rt1 d1] eqn:Ea. apply apply_committed_entered in Ea.
  intros. by simplify_eq.
Qed.

Lemma drive_entered rt ne ok rt' out r :
  drive apply_command rt ne ok = (rt', out, r) -> rt_entered rt' = rt_entered rt.
Proof.
  unfold drive. destruct ne as [n e].
  destruct (handle_effects _ _ _ _) as [[rt1 out1] r1] eqn:Eh. apply handle_effects_entered in Eh.
  by case_match; intros; simplify_eq.
Qed.

Lemma propose_locked_entered rt id cmd ok rt' out r :
  propose_locked apply_command rt id cmd ok = Some (rt', out, r) -> rt_entered rt' = rt_entered rt.
Proof.
  unfold propose_locked. destruct (Node.propose _ _) as [[n [[idx e]|err]]|];
    [|intros; by simplify_eq|done].
  destruct (handle_effects _ _ _ _) as [[rt1 out1] r1] eqn:Eh. apply handle_effects_entered in Eh.
  by case_match; intros; simplify_eq.
Qed.

End Ops.

(** ** The contract of an operation, seen from the election *)

Section Contract.

Context {St Out : Type} (apply_command : Command -> St -> St * Out) (initial_state : St).
Context (boot : Configuration).
Implicit Types (rt : RaftRuntime St).

Abbreviation dterm rt := (p_term (rt_durable rt)).
Abbreviation dvote rt := (voted_for (rt_durable rt)).

(** The disk is well formed, and a healthy node agrees with it. *)
Definition synced rt : Prop :=
  log_ok (p_log (rt_durable rt)) /\ bootstrap_config (rt_durable rt) = boot /\
  (rt_failed rt = false ->
     node_ok_static (rt_node rt) /\ node_persistent (rt_node rt) = rt_durable rt /\
     id (core (rt_node rt)) = nc_node_id (rt_config rt)).

(** Where a vote counted by node [i] after the operation comes from. *)
Definition source (i : N) (net : list Message) rt rt' (v : N) : Prop :=
  (v = i /\ dvote rt' = Some i) \/
  (exists k, rt_failed rt = false /\ role (rt_node rt) = RCandidate k /\
             dterm rt' = dterm rt /\ v ∈ votes k) \/
  (exists m, m ∈ net /\ granted m = true /\ msg_term m = dterm rt' /\ msg_from m = v /\
             msg_to m = i).

(** The node got far enough to send, or to go on. *)
Definition released rt' (out : list Message) : Prop := rt_failed rt' = false \/ out <> [].

(** The step calls waiting after the operation: those that waited before, or a
    delivered message. *)
Definition new_calls (i : N) (net : list Message) rt rt' : Prop :=
  forall m, StepCall m ∈ rt_entered rt' -> StepCall m ∈ rt_entered rt \/ (m ∈ net /\ msg_to m = i).

Record op_ok (i : N) (net : list Message) rt rt' (out : list Message) : Prop := mkOpOk {
  op_config : rt_config rt' = rt_config rt;
  op_synced : synced rt';
  op_hs : dterm rt <= dterm rt' /\
          (dterm rt' = dterm rt -> dvote rt = None \/ dvote rt' = dvote rt);
  op_msgs : forall m, m ∈ out -> msg_ok m;
  op_calls : new_calls i net rt rt';
  op_granted : forall m, m ∈ out -> granted m = true ->
     msg_from m = i /\ msg_term m = dterm rt' /\ dvote rt' = Some (msg_to m);
  op_cand : forall k v, rt_failed rt' = false -> role (rt_node rt') = RCandidate k ->
     v ∈ votes k -> source i net rt rt' v;
  op_lead : released rt' out -> is_leader (rt_node rt') = true ->
     (rt_failed rt = false /\ is_leader (rt_node rt) = true /\ dterm rt' = dterm rt) \/
     (exists S : gset N,
        Membership.has_quorum boot (fun v => bool_decide (v ∈ S)) = true /\
        forall v, v ∈ S -> source i net rt rt' v)
}.

(** An operation that ends in failure with nothing sent. *)
Lemma op_ok_silent_failure i net rt rt' :
  synced rt -> rt_config rt' = rt_config rt -> rt_durable rt' = rt_durable rt ->
  rt_failed rt' = true -> new_calls i net rt rt' -> op_ok i net rt rt' [].
Proof.
  intros (H1 & H2 & _) Hc Hd Hf Hca. split; try done.
  - unfold synced. rewrite Hd. split_and!; congruence.
  - rewrite Hd. split; [lia|by right].
  - intros m Hm. inversion Hm.
  - intros m Hm. inversion Hm.
  - congruence.
  - intros [?|?]; congruence.
Qed.

Lemma same_applied_static n n' :
  same_but_applied n n' -> node_ok_static n -> node_ok_static n'.
Proof. intros [Hr [la Hc]] [Hl Ht]. unfold node_ok_static. by rewrite Hr, Hc. Qed.

Lemma is_leader_same n n' : same_but_applied n n' -> is_leader n' = is_leader n.
Proof. unfold is_leader. by intros [-> _]. Qed.

(** An operation whose persistent state reached the disk. *)
Lemma op_ok_saved i net rt rt' n' out e ev :
  synced rt -> rt_failed rt = false -> nc_node_id (rt_config rt) = i ->
  (forall m, ev = MessageEvent m -> m ∈ net /\ msg_to m = i) ->
  node_ok (rt_node rt) n' e -> node_ok_static n' -> ok_sends (log (core n')) e ->
  election_backed (rt_node rt) ev n' ->
  rt_config rt' = rt_config rt -> rt_durable rt' = node_persistent n' ->
  same_but_applied n' (rt_node rt') ->
  (forall m, m ∈ out -> m ∈ messages e) -> new_calls i net rt rt' -> op_ok i net rt rt' out.
Proof.
  intros (Hdl & Hdb & Hsync) Hf Hi Hev [Hid Hhs Hp Hfrom Hgr _ _] Hst Hok Hbk Hc Hd Hsame Hout Hca.
  destruct (Hsync Hf) as (Hns & Hper & Hnid).
  assert (dterm rt = term (core (rt_node rt)) /\ dvote rt = vote (core (rt_node rt))) as [Hdt Hdv].
  { by rewrite <- Hper. }
  assert (dterm rt' = term (core n') /\ dvote rt' = vote (core n')) as [Hdt' Hdv'].
  { by rewrite Hd. }
  assert (id (core n') = i) as Hidn by (rewrite (id_same _ _ Hid); congruence).
  assert (bootstrap_config (persistent (core n')) = boot) as Hboot.
  { destruct Hid as [_ ->]. unfold node_persistent in Hper. congruence. }
  assert (forall v, vote_source (rt_node rt) ev n' v -> source i net rt rt' v) as Hsrc.
  { intros v [[-> Hv]|[(k & Hk & Ht & Hin)|(m & Hm & Hg & Ht & Hfr)]].
    - left. rewrite Hdv', Hidn in *. done.
    - right. left. exists k. split_and!; try done. congruence.
    - right. right. destruct (Hev m Hm). exists m. split_and!; try done. congruence. }
  split.
  - done.
  - split_and!; rewrite ?Hd; [apply Hst|done|]. intros _. split_and!.
    + by eapply same_applied_static.
    + destruct Hsame as [_ [la Hcore]]. unfold node_persistent. by rewrite Hcore.
    + destruct Hsame as [_ [la Hcore]]. rewrite Hcore, Hc. unfold id. simpl.
      fold (id (core n')). congruence.
  - rewrite Hdt, Hdt', Hdv, Hdv'. exact Hhs.
  - intros m Hm. eapply sent_ok_msg. by apply Hok, Hout.
  - done.
  - intros m Hm Hg. destruct (Hgr m (Hout m Hm) Hg) as [? ?].
    rewrite (Hfrom m (Hout m Hm)), Hdt', Hdv'. split_and!; [congruence|done|done].
  - intros k v _ Hr Hv. apply Hsrc. destruct Hsame as [Hrole _]. rewrite Hrole in Hr.
    unfold election_backed in Hbk. rewrite Hr in Hbk. auto.
  - intros _ Hlead. rewrite (is_leader_same _ _ Hsame) in Hlead.
    unfold election_backed, is_leader in *.
    destruct (role n'); try done. destruct Hbk as [[Hl Ht]|(S & Hq & HS)].
    + left. split_and!; try done. congruence.
    + right. exists S. split; [|auto]. rewrite (effective_config_static _ (proj1 Hst)) in Hq.
      by rewrite Hboot in Hq.
Qed.

(** An operation that leaves node, disk and health alone. *)
Lemma op_ok_same i net rt rt' :
  synced rt -> rt_config rt' = rt_config rt -> rt_durable rt' = rt_durable rt ->
  rt_failed rt' = rt_failed rt -> rt_node rt' = rt_node rt -> new_calls i net rt rt' ->
  op_ok i net rt rt' [].
Proof.
  intros Hsy Hc Hd Hf Hn Hca. split; try done.
  - unfold synced. by rewrite Hd, Hf, Hn, Hc.
  - rewrite Hd. split; [lia|by right].
  - intros m Hm. inversion Hm.
  - intros m Hm. inversion Hm.
  - intros k v Hfl Hr Hv. right. left. exists k. rewrite <- Hf, <- Hn. split_and!; congruence.
  - intros [Hfl|?] Hl; [|done]. left. split_and!; congruence.
Qed.

Lemma open_Ok cfg st d rt :
  Runtime.open cfg st d = Ok rt ->
  rt_config rt = cfg /\ rt_durable rt = d /\ rt_failed rt = false /\
  rt_node rt = restore (nc_consensus cfg) d /\ cfg_id (nc_consensus cfg) = nc_node_id cfg.
Proof.
  unfold Runtime.open, validate_config.
  destruct (N.eqb_spec (nc_node_id cfg) (cfg_id (nc_consensus cfg))) as [Heq|]; simpl; [|done].
  repeat case_match; intros; by simplify_eq.
Qed.

Lemma open_entered cfg st d rt : Runtime.open cfg st d = Ok rt -> rt_entered rt = [].
Proof. unfold Runtime.open. destruct (validate_config cfg); [|done]. intros. by simplify_eq. Qed.

Lemma restore_node cfg d :
  node_persistent (restore cfg d) = d /\ Core.id (core (restore cfg d)) = cfg_id cfg /\
  role_is_follower (role (restore cfg d)) = true.
Proof.
  unfold restore. destruct (Follower.new (Core_restore cfg d) None) eqn:E.
  apply follower_new_core in E. by subst.
Qed.

Lemma restored_synced cfg st d rt :
  Runtime.open cfg st d = Ok rt -> log_ok (p_log d) -> bootstrap_config d = boot -> synced rt.
Proof.
  intros (Hc & Hd & Hf & Hn & Hid)%open_Ok Hl Hb.
  destruct (restore_node (nc_consensus cfg) d) as (Hp & Hi & Hr).
  unfold synced. rewrite Hd, Hn, Hc. split_and!; [done..|]. intros _. split_and!.
  - split.
    + unfold log. fold (node_persistent (restore (nc_consensus cfg) d)). by rewrite Hp.
    + by destruct (role _).
  - done.
  - congruence.
Qed.

(** Crash and recovery: the node comes back as a follower with its durable state. *)
Lemma crash_op_ok i net rt st rt' :
  synced rt -> Runtime.open (rt_config rt) st (rt_durable rt) = Ok rt' -> op_ok i net rt rt' [].
Proof.
  intros Hsy Ho. pose proof Hsy as (Hl & Hb & _).
  pose proof (restored_synced _ _ _ _ Ho Hl Hb) as Hsy'.
  assert (new_calls i net rt rt') as Hca by (unfold new_calls; rewrite (open_entered _ _ _ _ Ho); set_solver).
  apply open_Ok in Ho as (Hc & Hd & Hf & Hn & Hid).
  destruct (restore_node (nc_consensus (rt_config rt)) (rt_durable rt)) as (_ & _ & Hr).
  split; try done.
  - rewrite Hd. split; [lia|by right].
  - intros m Hm. inversion Hm.
  - intros m Hm. inversion Hm.
  - intros k v _ Hk. rewrite <- Hn, Hk in Hr. done.
  - intros _ Hl'. unfold is_leader in Hl'. rewrite Hn in Hl'. by destruct (role _).
Qed.

(** Runtimes that differ in the ids handed out and the calls given up. *)
Definition same_machine rt rt0 : Prop :=
  rt_config rt0 = rt_config rt /\ rt_durable rt0 = rt_durable rt /\
  rt_failed rt0 = rt_failed rt /\ rt_node rt0 = rt_node rt /\ rt_state rt0 = rt_state rt /\
  (forall c, c ∈ rt_entered rt0 -> c ∈ rt_entered rt).

Lemma same_machine_refl rt : same_machine rt rt.
Proof. by split_and!. Qed.

Lemma same_machine_leave rt p : same_machine rt (leave rt p).
Proof.
  split_and!; try done. simpl. intros c. apply list_elem_of_delete_inv.
Qed.

(** The operations an action can perform on the node [i]; [om] is the message it
    delivers, and [h] says that a failed runtime neither steps nor proposes. *)
Inductive runtime_op (h : bool) (i : N) (net : list Message) (om : option Message) rt rt'
  : list Message -> Prop :=
| ro_same :
    rt_config rt' = rt_config rt -> rt_durable rt' = rt_durable rt ->
    rt_failed rt' = rt_failed rt -> rt_node rt' = rt_node rt -> rt_state rt' = rt_state rt ->
    new_calls i net rt rt' -> runtime_op h i net om rt rt' []
| ro_drive rt0 ok out r :
    (h = true -> rt_failed rt = false) -> same_machine rt rt0 -> event_ok (event_of om) ->
    (forall m, om = Some m -> m ∈ net /\ msg_to m = i) ->
    no_term_overflow (rt_node rt) (event_of om) = true ->
    drive apply_command rt0 (step_event (rt_node rt) (event_of om)) ok = (rt', out, r) ->
    runtime_op h i net om rt rt' (sent out)
| ro_propose rt0 id cmd ok out reply :
    (h = true -> rt_failed rt = false) -> same_machine rt rt0 ->
    last_index (log (core (rt_node rt))) + 2 < two64 ->
    propose_locked apply_command rt0 id cmd ok = Some (rt', out, reply) ->
    runtime_op h i net om rt rt' (sent out)
| ro_crash :
    Runtime.open (rt_config rt) initial_state (rt_durable rt) = Ok rt' ->
    runtime_op h i net om rt rt' [].

Lemma runtime_op_calls h i net om rt rt' out :
  runtime_op h i net om rt rt' out -> new_calls i net rt rt'.
Proof.
  intros [_ _ _ _ _ Hc|rt0 ok o r _ Hs _ _ _ Hd|rt0 pid cmd ok o reply _ Hs _ Hp|Ho] m; [apply Hc|..].
  - rewrite (drive_entered _ _ _ _ _ _ _ Hd). left. by apply Hs.
  - rewrite (propose_locked_entered _ _ _ _ _ _ _ _ Hp). left. by apply Hs.
  - rewrite (open_entered _ _ _ _ Ho). set_solver.
Qed.

(** What is left of the automaton's work: a step on [om], or a proposal. *)
Definition node_move (i : N) (net : list Message) (om : option Message) (n n' : RaftNode) (e : Effects) : Prop :=
  (event_ok (event_of om) /\ no_term_overflow n (event_of om) = true /\
   step_event n (event_of om) = (n', e) /\ (forall m, om = Some m -> m ∈ net /\ msg_to m = i)) \/
  (exists cmd idx, last_index (log (core n)) + 2 < two64 /\
   Node.propose n cmd = Some (n', Ok (idx, e))).

(** The committed entries of [n'] are applied to the state of [rt]. *)
Definition applies rt (n' : RaftNode) rt' : Prop :=
  exists rt0 rt1 ds, rt_node rt0 = n' /\ rt_state rt0 = rt_state rt /\
    apply_committed apply_command rt0 = (rt1, ds) /\ rt_node rt' = rt_node rt1 /\
    rt_state rt' = rt_state rt1.

(** The ways an operation ends: with nothing done, with a failure before anything
    was saved or sent, with the persistent state of the automaton's next state on
    disk, or in a restarted node. *)
Inductive op_end (i : N) (net : list Message) (om : option Message) rt rt' : list Message -> Prop :=
| oe_same :
    rt_durable rt' = rt_durable rt -> rt_failed rt' = rt_failed rt ->
    rt_node rt' = rt_node rt -> rt_state rt' = rt_state rt -> op_end i net om rt rt' []
| oe_dead :
    rt_durable rt' = rt_durable rt -> rt_failed rt' = true -> op_end i net om rt rt' []
| oe_saved n' e out :
    rt_failed rt = false -> node_move i net om (rt_node rt) n' e ->
    rt_durable rt' = node_persistent n' -> same_but_applied n' (rt_node rt') ->
    (forall m, m ∈ out -> m ∈ messages e) ->
    (rt_failed rt' = false -> out = messages e /\ applies rt n' rt') ->
    op_end i net om rt rt' out
| oe_restart :
    Runtime.open (rt_config rt) initial_state (rt_durable rt) = Ok rt' -> op_end i net om rt rt' [].

(** A move keeps the node well formed and announces what it changes. *)
Lemma node_move_static i net om n n' e :
  node_ok_static n -> node_move i net om n n' e ->
  node_ok_static n' /\ ok_sends (log (core n')) e /\
  (persist e = false -> node_persistent n' = node_persistent n).
Proof.
  intros Hns [(Hok & Hov & Hs & _)|(cmd & idx & Hroom & Hp)].
  - by destruct (step_event_static _ _ _ _ Hns Hok Hov Hs) as (? & ? & ? & _).
  - destruct (node_propose_static _ _ _ _ _ Hns ltac:(lia) Hp) as (? & ? & _).
    destruct (node_propose_hard _ _ _ _ _ Hp) as [_ Hpe]. split; [done|]. split; [done|]. congruence.
Qed.

(** Handling the effects of a move. *)
Lemma handled_op_end i net om rt rt0 n' e ok rt1 out r rt' :
  synced rt -> rt_failed rt = false -> node_move i net om (rt_node rt) n' e ->
  rt_config rt0 = rt_config rt -> rt_durable rt0 = rt_durable rt -> rt_failed rt0 = false ->
  rt_node rt0 = n' -> rt_state rt0 = rt_state rt ->
  handle_effects apply_command rt0 e ok = (rt1, out, r) ->
  rt_config rt' = rt_config rt1 -> rt_durable rt' = rt_durable rt1 -> rt_node rt' = rt_node rt1 ->
  rt_state rt' = rt_state rt1 ->
  rt_failed rt' = (if is_ok r then rt_failed rt1 else true) ->
  rt_config rt' = rt_config rt /\ op_end i net om rt rt' (sent out).
Proof.
  intros (_ & _ & Hsync) Hf Hmv Hc0 Hd0 Hf0 Hn0 Hs0 Hh Hc' Hd' Hn' Hs' Hf'.
  destruct (Hsync Hf) as (Hns & Hper & _). destruct (node_move_static _ _ _ _ _ _ Hns Hmv) as (_ & _ & Hp).
  apply handle_effects_cases in Hh as (Hc & _ & Hcase);
    [|intros Hpf; rewrite Hn0, Hd0, (Hp Hpf); done].
  split; [congruence|]. rewrite Hn0, Hd0 in Hcase.
  destruct Hcase as [(Hd1 & Hs1 & Hr1)|(Hd1 & Hsame & Hsub & Hall)].
  - rewrite Hs1. apply oe_dead; [congruence|by rewrite Hf', Hr1].
  - eapply oe_saved; [done|exact Hmv|congruence|by rewrite Hn'|done|].
    rewrite Hf'. destruct (is_ok r); [|done]. intros _. destruct (Hall eq_refl) as (-> & ds & Ha).
    split; [done|]. by exists (set_durable rt0 (node_persistent n')), rt1, ds.
Qed.

Lemma runtime_op_end i net om rt rt' out :
  synced rt -> runtime_op true i net om rt rt' out ->
  rt_config rt' = rt_config rt /\ op_end i net om rt rt' out.
Proof.
  intros Hsy [Hc Hd Hf Hn Hst _|rt0 ok o r Hf Hsm Hok Hnet Hov Hd
             |rt0 pid cmd ok o reply Hf Hsm Hroom Hp|Ho].
  - split; [done|by apply oe_same].
  - specialize (Hf eq_refl). destruct Hsm as (? & ? & ? & ? & ? & _).
    revert Hd. unfold drive. destruct (step_event (rt_node rt) _) as [n' e] eqn:Es.
    destruct (handle_effects _ _ _ _) as [[rt1 out1] r1] eqn:Eh. intros Hd.
    assert (node_move i net om (rt_node rt) n' e) as Hmv by (left; by split_and!).
    replace o with out1 by (by case_match; simplify_eq).
    eapply handled_op_end with (9 := Eh); try done; simpl; try congruence; case_match; by simplify_eq.
  - specialize (Hf eq_refl). destruct Hsm as (? & ? & ? & Hn0 & ? & _).
    revert Hp. unfold propose_locked. rewrite Hn0.
    destruct (Node.propose (rt_node rt) cmd) as [[n' [[idx e]|err]]|] eqn:Ep; [| |done].
    + destruct (handle_effects _ _ _ _) as [[rt1 out1] r1] eqn:Eh. intros Hd.
      assert (node_move i net om (rt_node rt) n' e) as Hmv by (right; eauto).
      replace o with out1 by (by case_match; simplify_eq).
      eapply handled_op_end with (9 := Eh); try done; simpl; try congruence; case_match; by simplify_eq.
    + assert (n' = rt_node rt) as ->.
      { unfold Node.propose in Ep. repeat case_match; by simplify_eq. }
      intros. simplify_eq. split; [done|by apply oe_same].
  - split; [by apply open_Ok in Ho as (? & _)|by eapply oe_restart].
Qed.

Lemma node_move_ok i net om n n' e :
  node_move i net om n n' e -> exists ev, (forall m, ev = MessageEvent m -> m ∈ net /\ msg_to m = i) /\
    node_ok n n' e /\ election_backed n ev n'.
Proof.
  intros [(_ & Hov & Hs & Hnet)|(cmd & idx & _ & Hp)].
  - exists (event_of om). split_and!; [|by eapply step_event_ok|by eapply step_event_backed].
    intros m Hm%event_of_message. auto.
  - exists Tick. split; [done|]. by eapply node_propose_backed.
Qed.

Lemma runtime_op_ok i net om rt rt' out :
  synced rt -> nc_node_id (rt_config rt) = i -> runtime_op true i net om rt rt' out ->
  op_ok i net rt rt' out.
Proof.
  intros Hsy Hi Hop. pose proof (runtime_op_calls _ _ _ _ _ _ _ Hop) as Hca. destruct (runtime_op_end _ _ _ _ _ _ Hsy Hop) as [Hc Hend].
  destruct Hend as [Hd Hf Hn _|Hd Hf|n' e out Hf Hmv Hd Hsame Hsub _|Ho].
  - by apply op_ok_same.
  - by apply op_ok_silent_failure.
  - pose proof Hsy as (_ & _ & Hsync). destruct (Hsync Hf) as (Hns & _).
    destruct (node_move_static _ _ _ _ _ _ Hns Hmv) as (Hns' & Hok & _).
    destruct (node_move_ok _ _ _ _ _ _ Hmv) as (ev & Hev & Hnok & Hbk).
    by eapply op_ok_saved.
  - by eapply crash_op_ok.
Qed.

End Contract.

(** ** The invariant of the cluster *)

Section Invariant.

Context {St Out : Type} (apply_command : Command -> St -> St * Out) (initial_state : St).
Context (cfgs : gmap N NodeConfig) (Hmembers : same_members cfgs).

(** The bootstrap configuration every node starts with. *)
Definition boot_config : Configuration := Simple (dom cfgs) ∅.

Abbreviation exec := (exec apply_command initial_state).
Abbreviation run := (run apply_command initial_state).

(** [B v t k]: node [v] has cast its vote of term [t] for [k]; [L i t]: node [i] has
    led term [t].  Both only grow. *)
Record inv (B : N -> N -> N -> Prop) (L : N -> N -> Prop) (s : Cluster St) : Prop := mkInv {
  inv_node : forall i rt, nodes s !! i = Some rt ->
     nc_node_id (rt_config rt) = i /\ synced boot_config rt;
  inv_ballot : forall v t k, B v t k -> exists rt, nodes s !! v = Some rt /\
     t <= p_term (rt_durable rt) /\
     (t = p_term (rt_durable rt) -> voted_for (rt_durable rt) = Some k);
  inv_vote : forall i rt k, nodes s !! i = Some rt -> voted_for (rt_durable rt) = Some k ->
     B i (p_term (rt_durable rt)) k;
  inv_once : forall v t k k', B v t k -> B v t k' -> k = k';
  inv_granted : forall m, m ∈ network s -> granted m = true ->
     B (msg_from m) (msg_term m) (msg_to m);
  inv_cand : forall i rt k v, nodes s !! i = Some rt -> rt_failed rt = false ->
     role (rt_node rt) = RCandidate k -> v ∈ votes k -> B v (p_term (rt_durable rt)) i;
  inv_lead : forall i rt, nodes s !! i = Some rt -> rt_failed rt = false ->
     is_leader (rt_node rt) = true -> L i (p_term (rt_durable rt));
  inv_quorum : forall i t, L i t -> exists S : gset N,
     Membership.has_quorum boot_config (fun v => bool_decide (v ∈ S)) = true /\
     forall v, v ∈ S -> B v t i;
  inv_msgs : forall m, m ∈ network s -> msg_ok m;
  inv_calls : forall i rt m, nodes s !! i = Some rt -> StepCall m ∈ rt_entered rt ->
     m ∈ network s /\ msg_to m = i
}.

(** What the operation of node [i] adds to the ballots and to the leaders. *)
Definition cast (B : N -> N -> N -> Prop) i (rt : RaftRuntime St) : N -> N -> N -> Prop :=
  fun v t k => B v t k \/
    (v = i /\ t = p_term (rt_durable rt) /\ voted_for (rt_durable rt) = Some k).
Definition crown (L : N -> N -> Prop) i (rt : RaftRuntime St) (out : list Message) : N -> N -> Prop :=
  fun j t => L j t \/
    (j = i /\ t = p_term (rt_durable rt) /\ released rt out /\ is_leader (rt_node rt) = true).

Section Step.

Context (B : N -> N -> N -> Prop) (L : N -> N -> Prop) (s : Cluster St) (Hinv : inv B L s).
Context (i : N) (rt rt' : RaftRuntime St) (out : list Message).
Context (Hrt : nodes s !! i = Some rt) (Hop : op_ok boot_config i (network s) rt rt' out).

Lemma cast_ballot v t k :
  cast B i rt' v t k -> exists rt1, nodes (update s i rt' out) !! v = Some rt1 /\
    t <= p_term (rt_durable rt1) /\
    (t = p_term (rt_durable rt1) -> voted_for (rt_durable rt1) = Some k).
Proof.
  intros [HB|(-> & -> & Hv)]; simpl.
  - destruct (inv_ballot _ _ _ Hinv _ _ _ HB) as (rt0 & H0 & Ht & Hk).
    destruct (decide (v = i)) as [->|Hne].
    + rewrite lookup_insert_eq. exists rt'. split; [done|]. assert (rt0 = rt) as -> by congruence.
      destruct (op_hs _ _ _ _ _ _ Hop) as [Hle Hstay]. split; [lia|]. intros Heq.
      destruct Hstay as [Hn|Hs]; [lia| |]; rewrite Hk in * by lia; done.
    + rewrite lookup_insert_ne by done. eauto.
  - rewrite lookup_insert_eq. exists rt'. split; [done|]. split; [lia|done].
Qed.

Lemma cast_once v t k k' : cast B i rt' v t k -> cast B i rt' v t k' -> k = k'.
Proof.
  intros H1 H2. destruct (cast_ballot _ _ _ H1) as (rt1 & Hn1 & Ht1 & Hk1).
  destruct (cast_ballot _ _ _ H2) as (rt2 & Hn2 & Ht2 & Hk2).
  assert (rt2 = rt1) as -> by congruence.
  destruct H1 as [H1|(-> & -> & Hv1)], H2 as [H2|(Hi & Ht & Hv2)].
  - by eapply inv_once.
  - subst. simpl in Hn1. rewrite lookup_insert_eq in Hn1. simplify_eq.
    rewrite Hk1 in Hv2 by done. congruence.
  - simpl in Hn1. rewrite lookup_insert_eq in Hn1. simplify_eq.
    rewrite Hk2 in Hv1 by done. congruence.
  - congruence.
Qed.

(** A sourced vote is a ballot. *)
Lemma source_ballot v :
  source i (network s) rt rt' v -> cast B i rt' v (p_term (rt_durable rt')) i.
Proof.
  intros [[-> Hv]|[(k & Hf & Hr & Ht & Hv)|(m & Hm & Hg & Ht & Hfr & Hto)]].
  - by right.
  - left. rewrite Ht. by eapply inv_cand.
  - left. rewrite <- Ht, <- Hfr, <- Hto. by eapply inv_granted.
Qed.

Lemma inv_step : inv (cast B i rt') (crown L i rt' out) (update s i rt' out).
Proof.
  destruct (inv_node _ _ _ Hinv _ _ Hrt) as [Hid _]. split; simpl.
  - intros j rt1. destruct (decide (j = i)) as [->|Hne].
    + rewrite lookup_insert_eq. intros [= <-]. rewrite (op_config _ _ _ _ _ _ Hop).
      split; [done|]. apply (op_synced _ _ _ _ _ _ Hop).
    + rewrite lookup_insert_ne by done. apply Hinv.
  - apply cast_ballot.
  - intros j rt1 k. destruct (decide (j = i)) as [->|Hne].
    + rewrite lookup_insert_eq. intros [= <-] Hv. by right.
    + rewrite lookup_insert_ne by done. intros H1 Hv. left. by eapply inv_vote.
  - apply cast_once.
  - intros m [Hm|Hm]%elem_of_app Hg; [left; by eapply inv_granted|].
    destruct (op_granted _ _ _ _ _ _ Hop m Hm Hg) as (-> & -> & ?). by right.
  - intros j rt1 k v. destruct (decide (j = i)) as [->|Hne].
    + rewrite lookup_insert_eq. intros [= <-] Hf Hr Hv. apply source_ballot.
      by eapply (op_cand _ _ _ _ _ _ Hop).
    + rewrite lookup_insert_ne by done. intros H1 Hf Hr Hv. left. by eapply inv_cand.
  - intros j rt1. destruct (decide (j = i)) as [->|Hne].
    + rewrite lookup_insert_eq. intros [= <-] Hf Hl. right. split_and!; [done|done|by left|done].
    + rewrite lookup_insert_ne by done. intros. left. by eapply inv_lead.
  - assert (forall j t, L j t -> exists S : gset N,
      Membership.has_quorum boot_config (fun v => bool_decide (v ∈ S)) = true /\
      forall v, v ∈ S -> cast B i rt' v t j) as Hold.
    { intros j t HL. destruct (inv_quorum _ _ _ Hinv _ _ HL) as (S & Hq & HS).
      exists S. split; [done|]. intros v Hv. left. auto. }
    intros j t [HL|(-> & -> & Hf & Hl)]; [by apply Hold|].
    destruct (op_lead _ _ _ _ _ _ Hop Hf Hl) as [(Hf0 & Hl0 & ->)|(S & Hq & HS)].
    + apply Hold. by eapply inv_lead.
    + exists S. split; [done|]. intros v Hv. by apply source_ballot, HS.
  - intros m [Hm|Hm]%elem_of_app; [by eapply inv_msgs|]. by eapply (op_msgs _ _ _ _ _ _ Hop).
  - intros j rt1 m. rewrite elem_of_app. destruct (decide (j = i)) as [->|Hne].
    + rewrite lookup_insert_eq. intros [= <-] [Hm|[? ?]]%(op_calls _ _ _ _ _ _ Hop); [|by auto].
      destruct (inv_calls _ _ _ Hinv _ _ _ Hrt Hm). auto.
    + rewrite lookup_insert_ne by done. intros Hj Hm.
      destruct (inv_calls _ _ _ Hinv _ _ _ Hj Hm). auto.
Qed.

End Step.

(** The message an action delivers. *)
Definition delivered (s : Cluster St) (a : Action) : option Message :=
  match a with
  | ADeliver _ k _ => network s !! k
  | ALocked i p _ =>
      match nodes s !! i with
      | Some rt => match rt_entered rt !! p with Some (StepCall m) => Some m | _ => None end
      | None => None
      end
  | _ => None
  end.

(** The node that performs it. *)
Definition actor (a : Action) : N :=
  match a with
  | ATick i _ | ADeliver i _ _ | APropose i _ _ | AFinish i _ _ | ACrash i
  | AEnterTick i | AEnterStep i _ | AEnterPropose i _ | ALocked i _ _ | ALeave i _ => i
  end.

(** What an action needs to know of the state: the messages are well formed, and the
    waiting calls hold delivered messages. *)
Definition traffic_ok (s : Cluster St) : Prop :=
  (forall i rt, nodes s !! i = Some rt -> nc_node_id (rt_config rt) = i) /\
  (forall m, m ∈ network s -> msg_ok m) /\
  (forall i rt m, nodes s !! i = Some rt -> StepCall m ∈ rt_entered rt ->
     m ∈ network s /\ msg_to m = i).

Lemma inv_traffic B L s : inv B L s -> traffic_ok s.
Proof. intros []. split_and!; [|done..]. intros i rt Hi. by eapply inv_node0. Qed.

Lemma validated_to (rt : RaftRuntime St) m :
  is_ok (validate_message rt m) = true -> msg_to m = nc_node_id (rt_config rt).
Proof.
  unfold validate_message.
  destruct (N.eqb_spec (msg_to m) (nc_node_id (rt_config rt))); [done|discriminate].
Qed.

Abbreviation op := (runtime_op apply_command initial_state).

(** Entering and leaving only change the waiting calls. *)
Lemma enter_is_op h i net om (rt rt' : RaftRuntime St) :
  rt_config rt' = rt_config rt -> rt_durable rt' = rt_durable rt ->
  rt_failed rt' = rt_failed rt -> rt_node rt' = rt_node rt -> rt_state rt' = rt_state rt ->
  (forall c, c ∈ rt_entered rt' -> c ∈ rt_entered rt \/ (forall m, c = StepCall m -> m ∈ net /\ msg_to m = i)) ->
  op h i net om rt rt' [].
Proof.
  intros ? ? ? ? ? Hc. apply ro_same; [done..|]. intros m [?|Hm]%Hc; [by left|]. right. by apply Hm.
Qed.

(** A call that gets the lock. *)
Lemma locked_is_op h i net rt p c ok rt' out :
  (h = true -> rt_failed rt = false) -> rt_entered rt !! p = Some c ->
  call_in_range (rt_node rt) c = true -> run_call apply_command (leave rt p) c ok = Some (rt', out) ->
  (forall m, c = StepCall m -> msg_ok m /\ m ∈ net /\ msg_to m = i) ->
  op h i net (match c with StepCall m => Some m | _ => None end) rt rt' (sent out).
Proof.
  intros Hh Hp Hr Hrun Hc. destruct c as [|m|pid cmd]; simpl in Hrun, Hr.
  - unfold tick_locked, tick in Hrun. destruct (drive _ _ _ _) as [[rt1 out1] r] eqn:Ed.
    simplify_eq. eapply ro_drive; [done|apply (same_machine_leave rt p)|done|done|done|exact Ed].
  - unfold step_locked, Node.step in Hrun. destruct (drive _ _ _ _) as [[rt1 out1] r] eqn:Ed.
    simplify_eq. destruct (Hc m eq_refl) as (? & ? & ?).
    eapply ro_drive; [done|apply (same_machine_leave rt p)|done| |done|exact Ed].
    intros m' [= <-]. done.
  - destruct (propose_locked _ _ _ _ _) as [[[rt1 out1] r]|] eqn:Ep; [|done]. simplify_eq.
    eapply ro_propose; [done|apply (same_machine_leave rt p)|by apply N.ltb_lt|exact Ep].
Qed.

(** An action is one operation of one node. *)
Lemma exec_is_op s a s' :
  traffic_ok s -> exec s a = Some s' ->
  exists rt rt' out, nodes s !! actor a = Some rt /\ s' = update s (actor a) rt' out /\
    op (orderly s a) (actor a) (network s) (delivered s a) rt rt' out.
Proof.
  intros (Hids & Hmsgs & Hcalls) Hex.
  destruct a as [i ok|i k ok|i cmd ok|i idx pid|i|i|i k|i cmd|i p ok|i p]; simpl in Hex;
    destruct (nodes s !! i) as [rt|] eqn:Hrt; try done; exists rt; simpl.
  - destruct (no_term_overflow _ _) eqn:Hov; [|done].
    unfold tick_once, ensure_healthy, tick_locked in Hex.
    destruct (rt_failed rt) eqn:Hf; [simplify_eq; eexists _, _; split_and!; [done..|by apply enter_is_op; auto]|].
    unfold tick in Hex. destruct (drive _ _ _ _) as [[rt' out] r] eqn:Ed. simplify_eq.
    eexists _, _. split_and!; [done..|].
    by eapply ro_drive; [..|exact Ed]; try apply same_machine_refl.
  - simpl. destruct (network s !! k) as [m|] eqn:Hm; [|done].
    destruct (is_ok _ && _) eqn:Hg; [|done]. apply andb_true_iff in Hg as [Hval Hov].
    assert (m ∈ network s) as Hin by (apply list_elem_of_lookup; eauto).
    unfold Runtime.step, ensure_healthy, step_locked in Hex.
    destruct (rt_failed rt) eqn:Hf; [simplify_eq; eexists _, _; split_and!; [done..|by apply enter_is_op; auto]|].
    unfold Node.step in Hex. destruct (drive _ _ _ _) as [[rt' out] r] eqn:Ed. simplify_eq.
    eexists _, _. split_and!; [done..|].
    eapply ro_drive; [done|apply same_machine_refl| | |done|exact Ed].
    + simpl. by apply Hmsgs.
    + intros m' [= <-]. split; [done|]. rewrite (validated_to _ _ Hval). by apply Hids.
  - destruct (N.ltb_spec (last_index (log (core (rt_node rt))) + 2) two64); [|done].
    unfold Runtime.propose, ensure_healthy in Hex.
    destruct (rt_failed rt) eqn:Hf; [simplify_eq; eexists _, _; split_and!; [done..|by apply enter_is_op; auto]|].
    destruct (checked_add _ _) as [next|]; [|simplify_eq; eexists _, _; split_and!; [done..|by apply enter_is_op; auto]].
    destruct (propose_locked _ _ _ _ _) as [[[rt' out] r]|] eqn:Ep; [|done]. simplify_eq.
    eexists _, _. split_and!; [done..|]. eapply ro_propose; [done| |done|exact Ep]. by split_and!.
  - simplify_eq. eexists _, _. split_and!; [done..|]. apply enter_is_op; auto.
  - unfold open_option in Hex.
    destruct (Runtime.open _ _ _) as [rt'|] eqn:Eo; [|done]. simplify_eq.
    eexists _, _. split_and!; [done..|]. by eapply ro_crash.
  - simplify_eq. eexists _, _. split_and!; [done..|]. unfold enter_tick, ensure_healthy.
    destruct (rt_failed rt); simpl; apply enter_is_op; auto. simpl.
    intros c [?| ->%list_elem_of_singleton]%elem_of_app; [by left|by right].
  - destruct (network s !! k) as [m|] eqn:Hm; [|done].
    assert (m ∈ network s) as Hin by (apply list_elem_of_lookup; eauto).
    destruct (is_ok _) eqn:Hval; [|done]. simplify_eq. eexists _, _. split_and!; [done..|].
    unfold enter_step, ensure_healthy. destruct (rt_failed rt); simpl; apply enter_is_op; auto. simpl.
    intros c [?| ->%list_elem_of_singleton]%elem_of_app; [by left|right].
    intros m' [= <-]. split; [done|]. rewrite (validated_to _ _ Hval). by apply Hids.
  - simplify_eq. eexists _, _. split_and!; [done..|]. unfold enter_propose, ensure_healthy.
    destruct (rt_failed rt); simpl; [apply enter_is_op; auto|].
    destruct (checked_add _ _); simpl; apply enter_is_op; auto. simpl.
    intros c [?| ->%list_elem_of_singleton]%elem_of_app; [by left|by right].
  - destruct (rt_entered rt !! p) as [c|] eqn:Hp; [|done].
    destruct (call_in_range _ _) eqn:Hr; [|done].
    destruct (run_call _ _ _ _) as [[rt' out]|] eqn:Ec; [|done]. simplify_eq.
    eexists _, _. split_and!; [done..|]. rewrite Hrt, Hp.
    eapply locked_is_op; [|done|done|exact Ec|].
    + rewrite negb_true_iff. done.
    + intros m ->. destruct (Hcalls i rt m Hrt) as [? ?]; [by eapply list_elem_of_lookup_2|]. auto.
  - simplify_eq. eexists _, _. split_and!; [done..|].
    destruct (same_machine_leave rt p) as (? & ? & ? & ? & ? & Hsub).
    apply enter_is_op; auto.
Qed.

(** Every orderly action preserves the invariant, with more ballots and leaders. *)
Lemma exec_inv B L s a s' :
  inv B L s -> orderly s a = true -> exec s a = Some s' ->
  exists B' L' , inv B' L' s' /\ (forall j t, L j t -> L' j t).
Proof.
  intros Hinv Hord Hex.
  destruct (exec_is_op _ _ _ (inv_traffic _ _ _ Hinv) Hex) as (rt & rt' & out & Hrt & -> & Hop).
  rewrite Hord in Hop.
  destruct (inv_node _ _ _ Hinv _ _ Hrt) as [Hid Hsy].
  set (i := actor a) in *. exists (cast B i rt'), (crown L i rt' out). split; [|intros; by left].
  eapply inv_step; [done|done|]. by eapply runtime_op_ok.
Qed.

Lemma initial_persistent_eq i cfg :
  cfgs !! i = Some cfg -> initial_persistent cfg = mkPersistent 0 None Log_default boot_config.
Proof.
  intros [_ Hd]%Hmembers. unfold initial_persistent, Node.new.
  destruct (Follower.new _ _) eqn:E. apply follower_new_core in E. subst. simpl.
  unfold node_persistent. simpl. unfold simple, peer_ids, boot_config. do 2 f_equal.
  rewrite Hd. apply set_eq. intros x. by rewrite elem_of_collect, elem_of_iter.
Qed.

Lemma initial_inv : inv (fun _ _ _ => False) (fun _ _ => False) (initial initial_state cfgs).
Proof.
  assert (forall i rt, nodes (initial initial_state cfgs) !! i = Some rt ->
    exists cfg, cfgs !! i = Some cfg /\
      Runtime.open cfg initial_state (mkPersistent 0 None Log_default boot_config) = Ok rt) as Hn.
  { intros i rt. simpl. rewrite lookup_omap. destruct (cfgs !! i) as [cfg|] eqn:Ec; [|done].
    simpl. unfold open_option. rewrite (initial_persistent_eq _ _ Ec).
    destruct (Runtime.open _ _ _) eqn:Eo; [|done]. intros. simplify_eq. eauto. }
  assert (forall i rt, nodes (initial initial_state cfgs) !! i = Some rt ->
    voted_for (rt_durable rt) = None /\ role_is_follower (role (rt_node rt)) = true) as Hf.
  { intros i rt (cfg & _ & Ho)%Hn. apply open_Ok in Ho as (_ & -> & _ & -> & _).
    split; [done|]. apply restore_node. }
  split.
  - intros i rt (cfg & Hc & Ho)%Hn. destruct (Hmembers _ _ Hc) as [Hid _].
    pose proof (restored_synced boot_config _ _ _ _ Ho log_ok_default eq_refl) as Hsy.
    apply open_Ok in Ho as (-> & _). done.
  - done.
  - intros i rt k Hi Hv. destruct (Hf i rt Hi). congruence.
  - done.
  - intros m Hm. inversion Hm.
  - intros i rt k v Hi _ Hr. destruct (Hf i rt Hi) as [_ Hr']. by rewrite Hr in Hr'.
  - intros i rt Hi _ Hl. destruct (Hf i rt Hi) as [_ Hr]. unfold is_leader in Hl.
    by destruct (role (rt_node rt)).
  - done.
  - intros m Hm. inversion Hm.
  - intros i rt m (cfg & _ & Ho)%Hn. rewrite (open_entered _ _ _ _ Ho). set_solver.
Qed.

(** Two leaders of one term share a voter, who voted once. *)
Lemma one_crown_per_term B L s a b t : inv B L s -> L a t -> L b t -> a = b.
Proof.
  intros Hinv Ha Hb. destruct (inv_quorum _ _ _ Hinv _ _ Ha) as (Sa & Hqa & HSa).
  destruct (inv_quorum _ _ _ Hinv _ _ Hb) as (Sb & Hqb & HSb).
  destruct (quorums_overlap boot_config boot_config (dom cfgs) (dom cfgs) _ _
              ltac:(by left) ltac:(by left) ltac:(by left) Hqa Hqb) as (v & _ & _ & H1 & H2).
  unbool. eapply (inv_once _ _ _ Hinv v t); auto.
Qed.

End Invariant.

(** ** Runs of three nodes *)

(** Three nodes with the configuration the server ships with, and the first
    election of node 1. *)
Definition trio_peers : gmap N N := {[1 := 11; 2 := 12; 3 := 13]}.
Definition trio : gmap N NodeConfig :=
  {[1 := mkNodeConfig 1 21 11 trio_peers [] StorageOptions_default (raft_config 1);
    2 := mkNodeConfig 2 22 12 trio_peers [] StorageOptions_default (raft_config 2);
    3 := mkNodeConfig 3 23 13 trio_peers [] StorageOptions_default (raft_config 3)]}.

Definition ticks_of (i : N) (n : nat) : list Action := repeat (ATick i true) n.
Definition deliver (i : N) (k : nat) : Action := ADeliver i k true.

Definition elect_1 : list Action :=
  ticks_of 1 236 ++ [deliver 2 0; deliver 1 2; deliver 2 3; deliver 3 4; deliver 1 5].

Lemma trio_members : same_members trio.
Proof.
  intros i cfg Hc. unfold trio in Hc.
  apply lookup_insert_Some in Hc as [[<- <-]|[_ Hc]]; [split; reflexivity|].
  apply lookup_insert_Some in Hc as [[<- <-]|[_ Hc]]; [split; reflexivity|].
  apply lookup_singleton_Some in Hc as [<- <-]. split; reflexivity.
Qed.

(** Decide by evaluation whether a run ends with a property. *)
Definition run_checks {St Out} (apply_command : Command -> St -> St * Out) (st : St) cfgs acts
    (p : Cluster St -> bool) : bool :=
  match run apply_command st (initial st cfgs) acts with Some s => p s | None => false end.

Lemma run_checks_reachable {St Out} (ac : Command -> St -> St * Out) st cfgs acts p :
  run_checks ac st cfgs acts p = true -> exists s, reachable ac st cfgs s /\ p s = true.
Proof.
  unfold run_checks. destruct (run _ _ _ _) as [s|] eqn:E; [|done]. intros Hp.
  exists s. split; [by exists acts|done].
Qed.

Definition leads_b {St} (s : Cluster St) (i t : N) : bool :=
  match nodes s !! i with
  | Some rt => negb (rt_failed rt) && is_leader (rt_node rt) && (node_term (rt_node rt) =? t)
  | None => false
  end.

Lemma leads_b_spec {St} (s : Cluster St) i t : leads_b s i t = true -> leads s i t.
Proof.
  unfold leads_b, leads. destruct (nodes s !! i) as [rt|]; [|done]. intros. unbool.
  exists rt. split_and!; [done|by destruct (rt_failed rt)|done|done].
Qed.
