(* ===== verification/LogMatching.v ===== *)
(** * LogMatching: logs of a cluster agree below a common entry

    Every entry of the cluster is written once, by the leader of its term, on top of
    one predecessor.  The relation [E] records these writes: [E i t p q] says that
    the entry with payload [p] was written at index [i] in term [t] after an entry
    of term [q].  Logs and requests are chains of such writes ([linked],
    [request_linked]), a write is determined by its index and term, and so two logs
    that agree on the term at one index agree on everything below it. *)

From S2P Require Import Prelude.
From S2P Require Import Types.
From S2P Require Import Log.
From S2P Require Import Event.
From S2P Require Import Core.
From S2P Require Import Follower.
From S2P Require Import PreCandidate.
From S2P Require Import Candidate.
From S2P Require Import Leader.
From S2P Require Import Node.
From S2P Require Import HardState.
From S2P Require Import Static.
From S2P Require Import Settings.
From S2P Require Import Runtime.
From S2P Require Import Cluster.

(** ** Chains of writes *)

Definition Writes : Type := N -> N -> EntryPayload -> N -> Prop.

(** The term before index [i], with 0 before the first entry. *)
Definition prev_term (l : Log) (i : N) : N := default 0 (e_term <$> get l (i - 1)).

Lemma term_at_lookup l i : snapshot_index l = 0 -> term_at l i = default 0 (e_term <$> get l i).
Proof.
  intros Hs. destruct (get l i) as [e|] eqn:E; simpl; [by apply term_at_get|].
  destruct (N.eq_0_gt_0_cases i) as [-> | Hi]; [done|]. apply term_at_None; [lia|done].
Qed.

Section Chains.

Context (E : Writes).

Definition linked (l : Log) : Prop :=
  forall i e, get l i = Some e -> E i (e_term e) (e_payload e) (prev_term l i).

(** The term before position [k] of a request. *)
Definition request_prev (r : AppendRequest) (k : nat) : N :=
  match k with
  | O => ar_prev_log_term r
  | S k' => default 0 (e_term <$> ar_entries r !! k')
  end.

Definition request_linked (r : AppendRequest) : Prop :=
  (ar_prev_log_index r = 0 -> ar_prev_log_term r = 0) /\
  forall k e, ar_entries r !! k = Some e ->
    E (e_index e) (e_term e) (e_payload e) (request_prev r k).

(** An excerpt of a chain is a chain. *)
Lemma excerpt_linked l r : log_ok l -> linked l -> excerpt l r -> request_linked r.
Proof.
  intros (Hwf & Hs & _) Hl (Hc & Hin & Ht). rewrite term_at_lookup in Ht by done.
  assert (forall k e, ar_entries r !! k = Some e -> get l (ar_prev_log_index r + 1 + N.of_nat k) = Some e)
    as Hget.
  { intros k e Hk. rewrite <- (Hc _ _ Hk). apply get_entry; [done|].
    apply Hin. by eapply list_elem_of_lookup_2. }
  split.
  - intros H0. rewrite Ht, H0. by rewrite get_None_below by lia.
  - intros k e Hk. pose proof (Hl _ _ (Hget _ _ Hk)) as HE. rewrite <- (Hc _ _ Hk) in HE.
    replace (request_prev r k) with (prev_term l (e_index e)); [done|]. unfold prev_term.
    rewrite (Hc _ _ Hk). destruct k as [|k']; simpl.
    + rewrite Ht. do 3 f_equal. lia.
    + destruct (lookup_lt_is_Some_2 (ar_entries r) k') as [e' He'];
        [apply lookup_lt_Some in Hk; lia|].
      rewrite He'. replace (_ - 1) with (ar_prev_log_index r + 1 + N.of_nat k') by lia.
      by rewrite (Hget _ _ He').
Qed.

Lemma append_linked l t p :
  log_ok l -> linked l -> last_index l + 1 < two64 ->
  E (last_index l + 1) t p (prev_term l (last_index l + 1)) ->
  linked (append l (mkEntry t (last_index l + 1) p)).
Proof.
  intros (Hwf & _) Hl Hroom HE i e.
  assert (appendable l (mkEntry t (last_index l + 1) p)) as Ha by (split; [done|unfold u64; simpl; lia]).
  unfold prev_term. rewrite !append_get by done. simpl.
  destruct (N.eqb_spec i (last_index l + 1)) as [-> | Hi].
  - intros [= <-]. rewrite (proj2 (N.eqb_neq _ _)) by lia. exact HE.
  - intros Hg. pose proof (proj1 (get_is_Some l i Hwf) ltac:(eauto)).
    rewrite (proj2 (N.eqb_neq _ _)) by lia. by apply Hl.
Qed.

(** Merging a chain into a chain gives a chain. *)
Lemma merge_linked l r :
  log_ok l -> request_ok r -> consistent l r = true -> linked l -> request_linked r ->
  linked (fst (append_entries l (ar_entries r))).
Proof.
  intros Hok Hr Hc Hl [Hr0 Hrl]. destruct (ar_entries r) as [|e0 es0] eqn:E0; [done|].
  assert (ar_entries r <> []) as Hne by (by rewrite E0). rewrite <- E0 in *.
  pose proof (request_append_pre _ _ Hok Hr Hc Hne) as Hpre.
  rewrite (append_entries_eq _ _ _ Hpre). simpl.
  destruct (merge_entries_cases _ _ _ Hpre)
    as [[_ ->] | (_ & es1 & e & es2 & Hes & Hold & _ & Hb & Hi & Hcont & ->)]; [done|].
  destruct Hok as (Hwf & Hs & _). intros j x. unfold prev_term.
  rewrite !splice_get by done. destruct (N.leb_spec j (e_index e - 1)) as [Hj|Hj].
  - rewrite (proj2 (N.leb_le _ _)) by lia. apply Hl.
  - intros Hx. set (k := N.to_nat (j - (e_index e - 1) - 1)) in *.
    assert (ar_entries r !! (length es1 + k)%nat = Some x) as Hk.
    { rewrite Hes, lookup_app_r by lia. by replace (length es1 + k - length es1)%nat with k by lia. }
    pose proof (Hrl _ _ Hk) as HE. destruct Hr as (Hcr & _).
    assert (e_index x = j) as Hxj.
    { rewrite (Hcont _ _ Hx). unfold k. lia. }
    rewrite Hxj in HE.
    replace (default 0 _) with (request_prev r (length es1 + k)); [exact HE|]. clear HE.
    destruct (N.leb_spec (j - 1) (e_index e - 1)) as [Hj1|Hj1].
    + assert (k = 0%nat) as -> by (unfold k; lia). rewrite Nat.add_0_r.
      replace (j - 1) with (e_index e - 1) by lia.
      assert (e_index e = ar_prev_log_index r + 1 + N.of_nat (length es1)) as He.
      { apply (Hcr (length es1)). rewrite Hes. by rewrite lookup_app_r, Nat.sub_diag by lia. }
      destruct es1 as [|y es1 _] using rev_ind; simpl.
      * simpl in He. replace (e_index e - 1) with (ar_prev_log_index r) by lia.
        rewrite <- term_at_lookup by done. unfold consistent in Hc. apply negb_true_iff in Hc.
        destruct (N.eq_0_gt_0_cases (ar_prev_log_index r)) as [H0|Hpos].
        -- rewrite (Hr0 H0), H0. done.
        -- rewrite (proj2 (N.ltb_lt _ _) Hpos) in Hc. simpl in Hc. unbool. done.
      * rewrite length_app, Nat.add_1_r. simpl. rewrite Hes.
        rewrite (lookup_app_l (es1 ++ [y])) by (rewrite length_app; simpl; lia).
        rewrite lookup_app_r, Nat.sub_diag by lia. simpl.
        destruct (Hold y) as [Hy _]; [apply elem_of_app; right; by left|].
        assert (e_index y = e_index e - 1) as Hyi.
        { rewrite He, length_app. simpl. rewrite (Hcr (length es1) y); [lia|].
          rewrite Hes, <- app_assoc. by rewrite lookup_app_r, Nat.sub_diag by lia. }
        rewrite <- Hy, Hyi. by rewrite term_at_lookup.
    + destruct k as [|k'] eqn:Ek; [unfold k in Ek; lia|]. rewrite Nat.add_succ_r. simpl.
      rewrite Hes, lookup_app_r by lia.
      replace (length es1 + k' - length es1)%nat with k' by lia.
      replace (N.to_nat (j - 1 - (e_index e - 1) - 1)) with k' by (unfold k in Ek; lia). done.
Qed.

(** ** Chains that share a write agree below it *)

Definition writes_once : Prop :=
  forall i t p q p' q', E i t p q -> E i t p' q' -> p = p' /\ q = q'.

Lemma linked_agree la lb i ea eb :
  writes_once -> log_ok la -> log_ok lb -> linked la -> linked lb ->
  get la i = Some ea -> get lb i = Some eb -> e_term ea = e_term eb ->
  forall j, j <= i -> get la j = get lb j.
Proof.
  intros Honce (Hwa & Hsa & _) (Hwb & Hsb & _) Hla Hlb.
  revert ea eb. induction i as [|i IH] using N.peano_ind; intros ea eb Ha Hb Ht j Hj.
  { by rewrite get_None_below in Ha by lia. }
  pose proof (Hla _ _ Ha) as HEa. pose proof (Hlb _ _ Hb) as HEb. rewrite Ht in HEa.
  destruct (Honce _ _ _ _ _ _ HEa HEb) as [Hp Hq].
  destruct (N.eq_dec j (N.succ i)) as [-> | Hne].
  - rewrite Ha, Hb. f_equal. apply get_index in Ha; [|done]. apply get_index in Hb; [|done].
    destruct ea, eb; simpl in *; congruence.
  - unfold prev_term in Hq. replace (N.succ i - 1) with i in Hq by lia.
    destruct (N.eq_0_gt_0_cases i) as [-> | Hpos].
    { assert (j = 0) as -> by lia. by rewrite !get_None_below by lia. }
    apply get_index in Ha as Hai; [|done].
    destruct (proj2 (get_is_Some la i Hwa)) as [xa Hxa].
    { pose proof (proj1 (get_is_Some la (N.succ i) Hwa) ltac:(eauto)). lia. }
    destruct (proj2 (get_is_Some lb i Hwb)) as [xb Hxb].
    { pose proof (proj1 (get_is_Some lb (N.succ i) Hwb) ltac:(eauto)). lia. }
    rewrite Hxa, Hxb in Hq. simpl in Hq. apply (IH xa xb); [done|done|done|lia].
Qed.

End Chains.

(** Writes are only added. *)
Lemma linked_mono (E E' : Writes) l :
  (forall i t p q, E i t p q -> E' i t p q) -> linked E l -> linked E' l.
Proof. intros Hsub Hl i e Hg. by apply Hsub, Hl. Qed.

Lemma request_linked_mono (E E' : Writes) r :
  (forall i t p q, E i t p q -> E' i t p q) -> request_linked E r -> request_linked E' r.
Proof. intros Hsub [H0 Hr]. split; [done|]. intros k e Hk. by apply Hsub, Hr. Qed.

(** ** Campaigns are in fresh terms *)

(** A node that campaigns or leads after a step did so before in the same term, or
    its term has grown. *)
Definition fresh (n n' : RaftNode) : Prop :=
  term (core n) < term (core n') \/
  (term (core n') = term (core n) /\
   (role_is_candidate (role n') = true -> role_is_candidate (role n) = true) /\
   (role_is_leader (role n') = true ->
      role_is_candidate (role n) || role_is_leader (role n) = true)).

Lemma step_role_constructor n ev n1 r :
  step_role n ev = (n1, r) ->
  role_is_candidate (role n1) = role_is_candidate (role n) /\
  role_is_leader (role n1) = role_is_leader (role n).
Proof.
  unfold step_role. destruct (role n).
  - destruct (Follower.step _ _ _) as [[? ?] ?]. intros. by simplify_eq.
  - destruct (PreCandidate.step _ _ _) as [[? ?] ?]. intros. by simplify_eq.
  - destruct (Candidate.step _ _ _) as [[? ?] ?]. intros. by simplify_eq.
  - destruct (Leader.step _ _ _) as [[? ?] ?]. intros. by simplify_eq.
Qed.

Lemma only_candidates_win n ev n1 r :
  step_role n ev = (n1, r) -> transition r = ToLeader -> role_is_candidate (role n) = true.
Proof.
  unfold step_role. destruct (role n); [..|done|].
  - destruct (Follower.step _ _ _) as [[? ?] ?] eqn:Ef. apply follower_never_leads in Ef.
    intros. by simplify_eq.
  - destruct (PreCandidate.step _ _ _) as [[? ?] ?] eqn:Ef. apply precandidate_never_leads in Ef.
    intros. by simplify_eq.
  - destruct (Leader.step _ _ _) as [[? ?] ?] eqn:Ef.
    apply leader_never_campaigns in Ef as [[? _]|[? ?]]; intros; simplify_eq; congruence.
Qed.

Lemma step_event_fresh n ev n' e :
  no_term_overflow n ev = true -> step_event n ev = (n', e) -> fresh n n'.
Proof.
  intros Hov Hs. pose proof (step_event_ok _ _ _ _ Hov Hs) as [_ [Hle _] _ _ _].
  unfold no_term_overflow in Hov. destruct (step_role n ev) as [n1 r] eqn:Er.
  pose proof (step_role_ok _ _ _ _ Er) as [_ [Hle1 _] _ _ _].
  destruct (step_role_constructor _ _ _ _ Er) as [Hcand Hlead].
  destruct (N.eq_dec (term (core n')) (term (core n))) as [Heq|Hne]; [|left; lia].
  right. split; [done|].
  assert (forall c e', term c = term (core n1) -> term (core n1) < u64_max ->
            become_candidate c = (n', e') -> False) as Hbc.
  { intros c e' Hc Ht Hb. apply become_candidate_ok in Hb as (_ & Hb & _); [|congruence]. lia. }
  destruct (step_event_cases _ _ _ _ _ _ Er Hs) as [(_ & -> & _) | (Hst & e2 & Ha & _)].
  - rewrite Hcand, Hlead. split; [done|]. intros ->. apply orb_true_r.
  - destruct (transition r) eqn:Et; [done|..]; simpl in Ha, Hov.
    + destruct (Follower.new _ _). by simplify_eq.
    + destruct (after_leader_contact _ _). by simplify_eq.
    + destruct (PreCandidate.new _) as [[c1 p] e1] eqn:Ep.
      apply precandidate_new_core in Ep as (-> & _). apply N.ltb_lt in Hov.
      case_match; [|by simplify_eq]. destruct (become_candidate _) as [n2 e3] eqn:Eb. simplify_eq.
      exfalso. by eapply Hbc; [|exact Hov|exact Eb].
    + apply N.ltb_lt in Hov. exfalso. by eapply Hbc; [|exact Hov|exact Ha].
    + rewrite (only_candidates_win _ _ _ _ Er Et). done.
Qed.

(** ** The contract of an operation, seen from the log *)

Section Contract.

Context {St Out : Type} (apply_command : Command -> St -> St * Out).
Implicit Types (rt : RaftRuntime St).

Abbreviation dlog rt := (p_log (rt_durable rt)).
Abbreviation dterm rt := (p_term (rt_durable rt)).

(** The stored log stays, merges a request from the network on a follower, or gets
    one more entry of the leader's term. *)
Definition log_change (net : list Message) rt rt' : Prop :=
  dlog rt' = dlog rt \/
  (exists m r, m ∈ net /\ msg_payload m = AppendReq r /\ consistent (dlog rt) r = true /\
     dlog rt' = fst (append_entries (dlog rt) (ar_entries r)) /\
     (rt_failed rt' = false -> role_is_follower (role (rt_node rt')) = true)) \/
  (exists cmd, rt_failed rt = false /\ is_leader (rt_node rt) = true /\ dterm rt' = dterm rt /\
     last_index (dlog rt) + 2 < two64 /\
     dlog rt' = append (dlog rt)
       (mkEntry (dterm rt) (last_index (dlog rt) + 1) (CommandPayload cmd))).

Record log_op (net : list Message) rt rt' (out : list Message) : Prop := mkLogOp {
  lo_log : log_change net rt rt';
  lo_msgs : forall m r, m ∈ out -> msg_payload m = AppendReq r -> excerpt (dlog rt') r;
  lo_cand : rt_failed rt' = false -> role_is_candidate (role (rt_node rt')) = true ->
     dterm rt < dterm rt' \/
     (rt_failed rt = false /\ dterm rt' = dterm rt /\
      role_is_candidate (role (rt_node rt)) = true);
  lo_lead : released rt' out -> is_leader (rt_node rt') = true ->
     dterm rt < dterm rt' \/
     (rt_failed rt = false /\ dterm rt' = dterm rt /\
      role_is_candidate (role (rt_node rt)) || role_is_leader (role (rt_node rt)) = true)
}.

Lemma log_op_silent_failure net rt rt' :
  rt_durable rt' = rt_durable rt -> rt_failed rt' = true -> log_op net rt rt' [].
Proof.
  intros Hd Hf. split; [left; by rewrite Hd|intros m r Hm; inversion Hm|congruence|intros [?|?]; congruence].
Qed.

Lemma log_op_same net rt rt' :
  rt_durable rt' = rt_durable rt -> rt_failed rt' = rt_failed rt -> rt_node rt' = rt_node rt ->
  log_op net rt rt' [].
Proof.
  intros Hd Hf Hn. split; rewrite ?Hd.
  - left. by rewrite Hd.
  - intros m r Hm. inversion Hm.
  - rewrite Hn. intros Hfl Hc. right. split_and!; congruence.
  - rewrite Hn. intros [Hfl|?] Hc; [|done]. right. split_and!; [congruence|congruence|].
    unfold is_leader in Hc. rewrite Hc. apply orb_true_r.
Qed.

(** An operation whose persistent state reached the disk. *)
Lemma log_op_saved net rt rt' n' out e :
  rt_failed rt = false -> node_persistent (rt_node rt) = rt_durable rt ->
  rt_durable rt' = node_persistent n' -> same_but_applied n' (rt_node rt') ->
  ok_sends (log (core n')) e -> (forall m, m ∈ out -> m ∈ messages e) ->
  fresh (rt_node rt) n' -> log_change net rt rt' -> log_op net rt rt' out.
Proof.
  intros Hf Hper Hd [Hrole _] Hok Hout Hfr Hch.
  assert (dterm rt = term (core (rt_node rt))) as Ht by (by rewrite <- Hper).
  assert (dterm rt' = term (core n')) as Ht' by (by rewrite Hd).
  split; [done|..].
  - intros m r Hm Hp. specialize (Hok m (Hout m Hm)). unfold sent_ok in Hok. rewrite Hp in Hok.
    rewrite Hd. apply Hok.
  - rewrite Hrole, Ht, Ht'. intros _ Hc. destruct Hfr as [?|(Heq & H1 & _)]; [by left|right].
    split_and!; auto.
  - unfold is_leader. rewrite Hrole, Ht, Ht'. intros _ Hc.
    destruct Hfr as [?|(Heq & _ & H1)]; [by left|right]. split_and!; auto.
Qed.

Context (boot : Membership.Configuration).

(** A move of the automaton, seen from the log. *)
Lemma node_move_log i net om rt n' e :
  node_ok_static (rt_node rt) -> node_move i net om (rt_node rt) n' e ->
  fresh (rt_node rt) n' /\
  (log (core n') = log (core (rt_node rt)) \/
   (role_is_follower (role n') = true /\ exists m req, m ∈ net /\ msg_payload m = AppendReq req /\
      consistent (log (core (rt_node rt))) req = true /\
      log (core n') = fst (append_entries (log (core (rt_node rt))) (ar_entries req))) \/
   (exists cmd, is_leader (rt_node rt) = true /\ term (core n') = term (core (rt_node rt)) /\
      last_index (log (core (rt_node rt))) + 2 < two64 /\
      log (core n') = append (log (core (rt_node rt)))
        (mkEntry (term (core (rt_node rt))) (last_index (log (core (rt_node rt))) + 1)
           (CommandPayload cmd)))).
Proof.
  intros Hns [(Hok & Hov & Hs & Hnet)|(cmd & idx & Hroom & Hp)].
  - split; [by eapply step_event_fresh|].
    destruct (step_event_static _ _ _ _ Hns Hok Hov Hs) as (_ & _ & _ & Hmv).
    destruct Hmv as [?|(Hfol & m & req & Hev & Hp & Hco & Heq)]; [by left|right; left].
    split; [done|]. exists m, req. apply event_of_message, Hnet in Hev as [? _]. done.
  - destruct (node_propose_hard _ _ _ _ _ Hp) as [([_ Hh] & _ & Hlead & Hr) _].
    destruct (node_propose_static _ _ _ _ _ Hns ltac:(lia) Hp) as (_ & _ & -> & Hlog).
    assert (term (core n') = term (core (rt_node rt))) as Htm
      by (unfold hard_state in Hh; by simplify_eq).
    split; [|right; right; by exists cmd]. right. split; [done|]. split.
    + destruct (role n'); simpl; try done. by destruct Hr.
    + intros _. unfold is_leader in Hlead. rewrite Hlead. apply orb_true_r.
Qed.

Lemma restart_log_op net rt initial_state rt' :
  Runtime.open (rt_config rt) initial_state (rt_durable rt) = Ok rt' -> log_op net rt rt' [].
Proof.
  intros (_ & Hd & _ & Hn & _)%open_Ok.
  destruct (restore_node (nc_consensus (rt_config rt)) (rt_durable rt)) as (_ & _ & Hr).
  rewrite <- Hn in Hr. split.
  - left. by rewrite Hd.
  - intros m r Hm. inversion Hm.
  - by destruct (role (rt_node rt')).
  - unfold is_leader. by destruct (role (rt_node rt')).
Qed.

Lemma runtime_op_log initial_state i net om rt rt' out :
  synced boot rt -> runtime_op apply_command initial_state true i net om rt rt' out -> log_op net rt rt' out.
Proof.
  intros Hsy Hop. destruct (runtime_op_end _ _ _ _ _ _ _ _ _ Hsy Hop) as [_ Hend].
  destruct Hend as [Hd Hf Hn _|Hd Hf|n' e out Hf Hmv Hd Hsame Hsub _|Ho];
    [by apply log_op_same|by apply log_op_silent_failure| |by eapply restart_log_op].
  destruct Hsy as (_ & _ & Hsync). destruct (Hsync Hf) as (Hns & Hper & _).
  destruct (node_move_static _ _ _ _ _ _ Hns Hmv) as (_ & Hok & _).
  destruct (node_move_log _ _ _ _ _ _ Hns Hmv) as [Hfr Hlog].
  eapply log_op_saved; [done..|]. unfold log_change. rewrite Hd, <- Hper.
  destruct Hlog as [?|[(Hfol & m & req & Hm & Hp & Hco & Heq)|(cmd & Hl & Ht & Hroom & Heq)]].
  - by left.
  - right. left. exists m, req. destruct Hsame as [Hrole _]. rewrite Hrole. done.
  - right. right. by exists cmd.
Qed.

End Contract.

(** ** The invariant *)

Section Matching.

Context {St Out : Type} (apply_command : Command -> St -> St * Out) (initial_state : St).
Context (cfgs : gmap N NodeConfig) (Hmembers : same_members cfgs).

Abbreviation dlog rt := (p_log (rt_durable rt)).
Abbreviation dterm rt := (p_term (rt_durable rt)).

(** [L j t]: node [j] has led term [t], as in [Cluster.inv]. *)
Record matching (E : Writes) (L : N -> N -> Prop) (s : Cluster St) : Prop := mkMatching {
  lm_once : writes_once E;
  lm_log : forall i rt, nodes s !! i = Some rt -> linked E (dlog rt);
  lm_msg : forall m r, m ∈ network s -> msg_payload m = AppendReq r -> request_linked E r;
  lm_written : forall i t p q, E i t p q -> exists j, L j t;
  lm_term : forall j t, L j t -> exists rt, nodes s !! j = Some rt /\ t <= dterm rt;
  lm_cand : forall j rt, nodes s !! j = Some rt -> rt_failed rt = false ->
     role_is_candidate (role (rt_node rt)) = true -> ~ L j (dterm rt);
  lm_lead : forall j rt, nodes s !! j = Some rt -> rt_failed rt = false ->
     is_leader (rt_node rt) = true ->
     forall i p q, E i (dterm rt) p q -> i <= last_index (dlog rt)
}.

Section Step.

Context (B : N -> N -> N -> Prop) (L : N -> N -> Prop) (E : Writes) (s : Cluster St).
Context (Hinv : inv cfgs B L s) (Hlm : matching E L s).
Context (i : N) (rt rt' : RaftRuntime St) (out : list Message).
Context (Hrt : nodes s !! i = Some rt).
Context (Hop : op_ok (boot_config cfgs) i (network s) rt rt' out).
Context (Hlo : log_op (network s) rt rt' out).

#[local] Abbreviation L' := (crown L i rt' out).
#[local] Abbreviation s' := (update s i rt' out).

(** A node that leads a new term is the first to lead it. *)
Lemma new_leader_is_first :
  released rt' out -> is_leader (rt_node rt') = true ->
  (rt_failed rt = false /\ is_leader (rt_node rt) = true /\ dterm rt' = dterm rt) \/
  (forall j, ~ L j (dterm rt')).
Proof.
  intros Hf Hl.
  assert (~ L i (dterm rt') -> forall j, ~ L j (dterm rt')) as Hno.
  { intros Hnl j Hj. assert (j = i) as ->; [|done].
    eapply (one_crown_per_term cfgs _ L' s'); [by eapply inv_step|by left|by right]. }
  destruct (lo_lead _ _ _ _ Hlo Hf Hl) as [Hlt|(Hf0 & Heq & Hr)].
  - right. apply Hno. intros (rt0 & H0 & Hle)%(lm_term _ _ _ Hlm).
    assert (rt0 = rt) as -> by congruence. lia.
  - apply orb_true_iff in Hr as [Hc|Hl0]; [right; apply Hno; rewrite Heq; by eapply lm_cand|by left].
Qed.

(** ... so nothing was written in it. *)
Lemma new_leader_writes_first :
  released rt' out -> is_leader (rt_node rt') = true ->
  (rt_failed rt = false /\ is_leader (rt_node rt) = true /\ dterm rt' = dterm rt) \/
  (forall a p q, ~ E a (dterm rt') p q).
Proof.
  intros Hf Hl. destruct (new_leader_is_first Hf Hl) as [?|Hno]; [by left|right].
  intros a p q (j & Hj)%(lm_written _ _ _ Hlm). by destruct (Hno j).
Qed.

(** The step, given the writes after it. *)
Lemma matching_step (E' : Writes) :
  (forall a t p q, E a t p q -> E' a t p q) -> writes_once E' -> linked E' (dlog rt') ->
  (forall a t p q, E' a t p q -> E a t p q \/ (t = dterm rt /\ L i t)) ->
  (rt_failed rt' = false -> is_leader (rt_node rt') = true ->
     forall a p q, E' a (dterm rt') p q -> a <= last_index (dlog rt')) ->
  matching E' L' s'.
Proof.
  intros Hsub Honce Hlink Hnew Hbound.
  pose proof (op_synced _ _ _ _ _ _ Hop) as (Hlok & _).
  destruct (op_hs _ _ _ _ _ _ Hop) as [Hle _].
  split; [done|..]; simpl.
  - intros j rt1. destruct (decide (j = i)) as [-> | Hne].
    + rewrite lookup_insert_eq. by intros [= <-].
    + rewrite lookup_insert_ne by done. intros Hj. eapply linked_mono; [exact Hsub|].
      by eapply lm_log.
  - intros m r [Hm|Hm]%elem_of_app Hp.
    + eapply request_linked_mono; [exact Hsub|]. by eapply lm_msg.
    + eapply excerpt_linked; [exact Hlok|done|]. by eapply lo_msgs.
  - intros a t p q [HE|[-> HL]]%Hnew; [|exists i; by left].
    destruct (lm_written _ _ _ Hlm _ _ _ _ HE) as [j Hj]. exists j. by left.
  - intros j t [HL|(-> & -> & _)].
    + destruct (lm_term _ _ _ Hlm _ _ HL) as (rt0 & H0 & Ht).
      destruct (decide (j = i)) as [-> | Hne].
      * rewrite lookup_insert_eq. exists rt'. assert (rt0 = rt) as -> by congruence.
        split; [done|lia].
      * rewrite lookup_insert_ne by done. eauto.
    + rewrite lookup_insert_eq. exists rt'. split; [done|lia].
  - intros j rt1. destruct (decide (j = i)) as [-> | Hne].
    + rewrite lookup_insert_eq. intros [= <-] Hf Hc [HL|(_ & _ & _ & Hl)].
      * destruct (lo_cand _ _ _ _ Hlo Hf Hc) as [Hlt|(Hf0 & Heq & Hc0)].
        -- destruct (lm_term _ _ _ Hlm _ _ HL) as (rt0 & H0 & Ht).
           assert (rt0 = rt) as -> by congruence. lia.
        -- rewrite Heq in HL. by eapply (lm_cand _ _ _ Hlm).
      * unfold is_leader in Hl. by destruct (role (rt_node rt')).
    + rewrite lookup_insert_ne by done. intros Hj Hf Hc [HL|(-> & _)]; [|done].
      by eapply (lm_cand _ _ _ Hlm).
  - intros j rt1. destruct (decide (j = i)) as [-> | Hne].
    + rewrite lookup_insert_eq. intros [= <-]. done.
    + rewrite lookup_insert_ne by done. intros Hj Hf Hl a p q [HE|[Ht HL]]%Hnew.
      * by eapply (lm_lead _ _ _ Hlm).
      * destruct Hne. eapply (one_crown_per_term cfgs B L s); [done| |exact HL].
        by eapply inv_lead.
Qed.

(** The write of a leader that appends an entry. *)
Definition wrote (a t : N) (p : EntryPayload) (q : N) : Prop :=
  rt_failed rt = false /\ is_leader (rt_node rt) = true /\ t = dterm rt /\ dterm rt' = dterm rt /\
  a = last_index (dlog rt) + 1 /\ a + 1 < two64 /\ q = prev_term (dlog rt) a /\
  dlog rt' = append (dlog rt) (mkEntry t a p).

Lemma matching_op : exists E', matching E' L' s' /\ (forall a t p q, E a t p q -> E' a t p q) /\
  forall a t p q, E' a t p q -> E a t p q \/ wrote a t p q.
Proof.
  destruct (inv_node _ _ _ _ Hinv _ _ Hrt) as (_ & Hlok & _).
  destruct (lo_log _ _ _ _ Hlo) as [Heq|[(m & r & Hm & Hp & Hc & Heq & Hfol)|(cmd & Hf & Hl & Ht & Hroom & Heq)]].
  - exists E. split; [|split; [done|by left]]. apply matching_step; [done|apply Hlm| |by left|].
    + rewrite Heq. by eapply lm_log.
    + intros Hf' Hl' a p q HE. rewrite Heq.
      destruct (new_leader_writes_first (or_introl Hf') Hl') as [(Hf & Hl & Ht)|Hno]; [|by destruct (Hno a p q)].
      rewrite Ht in HE. by eapply lm_lead.
  - exists E. split; [|split; [done|by left]]. apply matching_step; [done|apply Hlm| |by left|].
    + rewrite Heq. pose proof (inv_msgs _ _ _ _ Hinv m Hm) as Hok. unfold msg_ok in Hok.
      rewrite Hp in Hok. apply merge_linked; [done|done|done|by eapply lm_log|by eapply lm_msg].
    + intros Hf' Hl'. specialize (Hfol Hf'). unfold is_leader in Hl'. by destruct (role _).
  - assert (forall a p q, E a (dterm rt) p q -> a <= last_index (dlog rt)) as Hold
      by (by eapply lm_lead).
    exists (fun a t p q => E a t p q \/ (a = last_index (dlog rt) + 1 /\ t = dterm rt /\
      p = CommandPayload cmd /\ q = prev_term (dlog rt) (last_index (dlog rt) + 1))).
    split; [|split; [by left|]].
    2: { intros a t p q [?|(-> & -> & -> & ->)]; [by left|right]. split_and!; done || lia. }
    apply matching_step.
    + by left.
    + intros a t p q p' q' [H1|(-> & -> & -> & ->)] [H2|(H2a & H2b & -> & ->)].
      * by eapply lm_once.
      * subst. apply Hold in H1. lia.
      * apply Hold in H2. lia.
      * done.
    + rewrite Heq. apply append_linked; [done| |lia|by right].
      eapply linked_mono; [|by eapply lm_log]. by left.
    + intros a t p q [HE|(_ & -> & _)]; [by left|right]. split; [done|]. by eapply inv_lead.
    + intros _ _ a p q. rewrite Ht, Heq.
      rewrite append_last_index by (apply Hlok || split; [done|unfold u64; simpl; lia]).
      simpl. intros [HE%Hold|(-> & _)]; lia.
Qed.

End Step.

Lemma initial_matching :
  matching (fun _ _ _ _ => False) (fun _ _ => False) (initial initial_state cfgs).
Proof.
  split; try done.
  - intros i rt. simpl. rewrite lookup_omap. destruct (cfgs !! i) as [cfg|] eqn:Ec; [|done].
    simpl. unfold open_option. rewrite (initial_persistent_eq _ Hmembers _ _ Ec).
    destruct (Runtime.open _ _ _) eqn:Eo; [|done]. intros [= <-].
    apply open_Ok in Eo as (_ & -> & _). intros j e. by rewrite get_alt; case_match.
  - intros m r Hm. inversion Hm.
  - by intros j rt _ _ _ [].
Qed.

End Matching.

(** Node 1 replicates a command to node 2. *)
Definition replicate_1 : list Action := elect_1 ++ [APropose 1 [Byte.x61] true; deliver 2 9].

(** The entry a node stores at an index. *)
Definition on_disk {St} (s : Cluster St) (i index : N) : option Entry :=
  match nodes s !! i with Some rt => get (p_log (rt_durable rt)) index | None => None end.

Lemma on_disk_Some {St} (s : Cluster St) i index e :
  on_disk s i index = Some e ->
  exists rt, nodes s !! i = Some rt /\ get (p_log (rt_durable rt)) index = Some e.
Proof. unfold on_disk. destruct (nodes s !! i) as [rt|]; [|done]. eauto. Qed.
