(* ===== verification/Safety.v ===== *)
(** * Safety: what every execution of a cluster guarantees

    A call that has passed its health check may get the machine's lock after another
    call has failed the runtime, and then it runs on a node whose memory is ahead of its
    disk.  This file proves, for all actions, those late calls included, that healthy
    nodes are durable, that a term has one leader and that stored logs match; it also
    shows that everything a runtime asks its store to save meets the condition under
    which [Store.recovery_returns_last_save] applies.

    The invariant follows the memory of a node and its disk apart.  A granted vote and
    a request for votes only leave a node together with a save, so the ballots can be
    read off the disks; with at least two members a leader then has its own vote on
    disk, so that a term lost in a crash is never led twice. *)

From S2P Require Import Prelude.
From S2P Require Import Types.
From S2P Require Import Membership.
From S2P Require Import Log.
From S2P Require Import Event.
From S2P Require Import Core.
From S2P Require Import Follower.
From S2P Require Import Candidate.
From S2P Require Import Leader.
From S2P Require Import Node.
From S2P Require Import Store.
From S2P Require Import HardState.
From S2P Require Import Static.
From S2P Require Import Settings.
From S2P Require Import Runtime.
From S2P Require Import Cluster.
From S2P Require Import LogMatching.

(** ** The contract of an operation *)

Section Contract.

Context {St Out : Type} (apply_command : Command -> St -> St * Out) (initial_state : St).
Context (boot : Configuration).
Implicit Types (rt : RaftRuntime St).

Abbreviation dterm rt := (p_term (rt_durable rt)).
Abbreviation dvote rt := (voted_for (rt_durable rt)).
Abbreviation mterm rt := (term (core (rt_node rt))).
Abbreviation mvote rt := (vote (core (rt_node rt))).

(** Disk and memory are well formed, the memory is not behind the disk, and on a
    healthy node they agree. *)
Record consistent_node rt : Prop := mkConsistentNode {
  cn_disk : log_ok (p_log (rt_durable rt)) /\ bootstrap_config (rt_durable rt) = boot;
  cn_memory : node_ok_static (rt_node rt) /\
     bootstrap_config (node_persistent (rt_node rt)) = boot;
  cn_id : id (core (rt_node rt)) = nc_node_id (rt_config rt);
  cn_ahead : dterm rt <= mterm rt /\ (mterm rt = dterm rt -> dvote rt = None \/ mvote rt = dvote rt);
  cn_healthy : rt_failed rt = false -> node_persistent (rt_node rt) = rt_durable rt
}.

(** What [handle_effects] may do: everything it sends comes from the effects, and
    effects to persist are saved before anything is sent. *)
Lemma handle_effects_any rt e ok rt' out r :
  handle_effects apply_command rt e ok = (rt', out, r) ->
  rt_config rt' = rt_config rt /\ rt_failed rt' = rt_failed rt /\
  same_but_applied (rt_node rt) (rt_node rt') /\ (forall m, m ∈ sent out -> m ∈ messages e) /\
  ((rt_durable rt' = node_persistent (rt_node rt) /\ persist e = true) \/
   (rt_durable rt' = rt_durable rt /\
    (persist e = true -> sent out = [] /\ is_ok r = false))).
Proof.
  unfold handle_effects.
  destruct (if persist e then _ else _) as [d|] eqn:Ed;
    [|intros [= <- <- <-]; split_and!; [done|done|apply same_but_applied_refl|set_solver|by right]].
  assert ((d = node_persistent (rt_node rt) /\ persist e = true) \/
          (d = rt_durable rt /\ persist e = false)) as Hd.
  { destruct (persist e); [left|right]; [|by simplify_eq]. unfold store_save in Ed.
    by repeat case_match; simplify_eq. }
  assert (forall rt1 r1 (o : Output Out), rt_durable rt1 = d ->
    (rt_durable rt1 = node_persistent (rt_node rt) /\ persist e = true) \/
    (rt_durable rt1 = rt_durable rt /\ (persist e = true -> sent o = [] /\ @is_ok unit RuntimeError r1 = false)))
    as Hcase.
  { intros rt1 r1 o ->. destruct Hd as [?|[-> ?]]; [by left|right]. split; [done|congruence]. }
  destruct (send_snapshots e).
  - destruct (send_messages _ _) as [o err] eqn:Es.
    destruct (send_messages_subset _ _ _ _ Es) as [Hsub _]. destruct err as [peer|].
    + intros [= <- <- <-]. split_and!; [done|done|apply same_but_applied_refl|done|by apply Hcase].
    + destruct (apply_committed _ _) as [rt1 d1] eqn:Ea.
      destruct (apply_committed_shell _ _ _ _ Ea) as (Hc & Hd1 & Hf & Hn).
      intros [= <- <- <-]. split_and!; [done..|by apply Hcase].
  - intros [= <- <- <-].
    split_and!; [done|done|apply same_but_applied_refl|set_solver|by apply Hcase].
Qed.

(** The ways an operation ends. *)
Inductive op_result (i : N) (net : list Message) (om : option Message) rt rt'
  : list Message -> Prop :=
| or_same :
    rt_durable rt' = rt_durable rt -> rt_failed rt' = rt_failed rt ->
    rt_node rt' = rt_node rt -> op_result i net om rt rt' []
| or_moved n' e out :
    node_move i net om (rt_node rt) n' e -> same_but_applied n' (rt_node rt') ->
    (forall m, m ∈ out -> m ∈ messages e) ->
    (rt_failed rt = true -> rt_failed rt' = true) ->
    ((rt_durable rt' = node_persistent n' /\ persist e = true) \/
     (rt_durable rt' = rt_durable rt /\
      (persist e = true -> out = [] /\ rt_failed rt' = true))) ->
    op_result i net om rt rt' out
| or_restart :
    Runtime.open (rt_config rt) initial_state (rt_durable rt) = Ok rt' ->
    op_result i net om rt rt' [].

Lemma handled_result i net om rt rt0 n' e ok rt1 out r rt' :
  node_move i net om (rt_node rt) n' e ->
  rt_config rt0 = rt_config rt -> rt_durable rt0 = rt_durable rt -> rt_failed rt0 = rt_failed rt ->
  rt_node rt0 = n' -> handle_effects apply_command rt0 e ok = (rt1, out, r) ->
  rt_config rt' = rt_config rt1 -> rt_durable rt' = rt_durable rt1 -> rt_node rt' = rt_node rt1 ->
  rt_failed rt' = (if is_ok r then rt_failed rt1 else true) ->
  rt_config rt' = rt_config rt /\ op_result i net om rt rt' (sent out).
Proof.
  intros Hmv Hc0 Hd0 Hf0 Hn0 Hh Hc' Hd' Hn' Hf'.
  apply handle_effects_any in Hh as (Hc & Hf & Hsame & Hsub & Hcase).
  split; [congruence|]. eapply or_moved; [exact Hmv|by rewrite Hn', <- Hn0|exact Hsub|..].
  - rewrite Hf'. destruct (is_ok r); [congruence|done].
  - rewrite Hd', Hf'. destruct Hcase as [[-> ?]|[-> Hp]]; [left|right]; [by rewrite Hn0|].
    split; [done|]. intros He. destruct (Hp He) as [-> ->]. done.
Qed.

Lemma runtime_op_result h i net om rt rt' out :
  runtime_op apply_command initial_state h i net om rt rt' out ->
  rt_config rt' = rt_config rt /\ op_result i net om rt rt' out.
Proof.
  intros [Hc Hd Hf Hn Hst _|rt0 ok o r _ Hsm Hok Hnet Hov Hd
         |rt0 pid cmd ok o reply _ Hsm Hroom Hp|Ho].
  - split; [done|by apply or_same].
  - destruct Hsm as (? & ? & ? & ? & ? & _).
    revert Hd. unfold drive. destruct (step_event (rt_node rt) _) as [n' e] eqn:Es.
    destruct (handle_effects _ _ _ _) as [[rt1 out1] r1] eqn:Eh. intros Hd.
    assert (node_move i net om (rt_node rt) n' e) as Hmv by (left; by split_and!).
    replace o with out1 by (by case_match; simplify_eq).
    eapply handled_result with (6 := Eh); try done; case_match; by simplify_eq.
  - destruct Hsm as (? & ? & ? & Hn0 & ? & _).
    revert Hp. unfold propose_locked. rewrite Hn0.
    destruct (Node.propose (rt_node rt) cmd) as [[n' [[idx e]|err]]|] eqn:Ep; [| |done].
    + destruct (handle_effects _ _ _ _) as [[rt1 out1] r1] eqn:Eh. intros Hd.
      assert (node_move i net om (rt_node rt) n' e) as Hmv by (right; eauto).
      replace o with out1 by (by case_match; simplify_eq).
      eapply handled_result with (6 := Eh); try done; case_match; by simplify_eq.
    + assert (n' = rt_node rt) as ->.
      { unfold Node.propose in Ep. repeat case_match; by simplify_eq. }
      intros. simplify_eq. split; [done|by apply or_same].
  - split; [by apply open_Ok in Ho as (? & _)|by eapply or_restart].
Qed.

(** *** Seen from the elections *)

(** A vote counted by node [i] after the operation: its own, one it had counted in this
    term, or one that was sent to it. *)
Definition counted (i : N) (net : list Message) rt rt' (v : N) : Prop :=
  v = i \/
  (exists k, role (rt_node rt) = RCandidate k /\ mterm rt' = mterm rt /\ v ∈ votes k) \/
  (exists m, m ∈ net /\ granted m = true /\ msg_term m = mterm rt' /\ msg_from m = v /\ msg_to m = i).

Record ballot_op (i : N) (net : list Message) rt rt' (out : list Message) : Prop := mkBallotOp {
  bo_config : rt_config rt' = rt_config rt;
  bo_node : consistent_node rt';
  bo_disk : dterm rt <= dterm rt' /\
            (dterm rt' = dterm rt -> dvote rt = None \/ dvote rt' = dvote rt);
  bo_msgs : forall m, m ∈ out -> msg_ok m;
  bo_calls : new_calls i net rt rt';
  bo_granted : forall m, m ∈ out -> granted m = true ->
     msg_from m = i /\ msg_term m = dterm rt' /\ dvote rt' = Some (msg_to m);
  bo_asked : forall m, m ∈ out -> solicits m = true ->
     msg_from m = i /\ msg_term m = dterm rt' /\ dvote rt' = Some i;
  bo_saved : rt_durable rt' = rt_durable rt \/ rt_durable rt' = node_persistent (rt_node rt');
  bo_vote : forall k, mvote rt' = Some k ->
     (mvote rt = Some k /\ mterm rt' = mterm rt) \/ (dvote rt = Some k /\ mterm rt' = dterm rt) \/
     k = i \/ (exists m, m ∈ net /\ solicits m = true /\ msg_from m = k /\ msg_term m = mterm rt');
  bo_cand : forall k v, role (rt_node rt') = RCandidate k -> v ∈ votes k -> counted i net rt rt' v;
  bo_lead : is_leader (rt_node rt') = true ->
     (is_leader (rt_node rt) = true /\ mterm rt' = mterm rt) \/
     (exists S : gset N, Membership.has_quorum boot (fun v => bool_decide (v ∈ S)) = true /\
        forall v, v ∈ S -> counted i net rt rt' v)
}.

Lemma same_applied_persistent n n' :
  same_but_applied n n' ->
  node_persistent n' = node_persistent n /\ id (core n') = id (core n).
Proof. intros [_ [la Hc]]. unfold node_persistent, id. by rewrite Hc. Qed.

Lemma node_move_vote i net om n n' e k :
  node_move i net om n n' e -> vote (core n') = Some k ->
  (vote (core n) = Some k /\ term (core n') = term (core n)) \/ k = id (core n') \/
  (exists m, m ∈ net /\ solicits m = true /\ msg_from m = k /\ msg_term m = term (core n')).
Proof.
  intros [(_ & Hov & Hs & Hnet)|(cmd & idx & _ & Hp)] Hk.
  - destruct (step_event_vote _ _ _ _ Hov Hs k Hk) as [?|[?|(m & Hm & ? & ? & ?)]]; [by auto..|].
    right. right. exists m. apply event_of_message, Hnet in Hm as [? _]. done.
  - apply node_propose_hard in Hp as [([_ Hh] & _) _]. unfold hard_state in Hh. injection Hh as Ht Hv.
    left. split; congruence.
Qed.

Lemma ballot_op_same i net rt rt' :
  consistent_node rt -> rt_config rt' = rt_config rt -> rt_durable rt' = rt_durable rt ->
  rt_failed rt' = rt_failed rt -> rt_node rt' = rt_node rt -> new_calls i net rt rt' ->
  ballot_op i net rt rt' [].
Proof.
  intros [] Hc Hd Hf Hn Hca. split; rewrite ?Hd, ?Hn; try done; try (intros m Hm; inversion Hm; fail).
  - split; rewrite ?Hd, ?Hf, ?Hn, ?Hc; done.
  - split; [lia|by right].
  - by left.
  - intros k ->. by left.
  - intros k v Hr Hv. right. left. exists k. by rewrite Hn.
  - intros Hl. by left.
Qed.

Lemma ballot_op_restart i net rt rt' :
  consistent_node rt -> Runtime.open (rt_config rt) initial_state (rt_durable rt) = Ok rt' ->
  ballot_op i net rt rt' [].
Proof.
  intros [[Hl Hb] _ _ _ _] Ho.
  assert (new_calls i net rt rt') as Hca
    by (unfold new_calls; rewrite (open_entered _ _ _ _ Ho); set_solver).
  apply open_Ok in Ho as (Hc & Hd & Hf & Hn & Hid).
  destruct (restore_node (nc_consensus (rt_config rt)) (rt_durable rt)) as (Hp & Hi & Hr).
  rewrite <- Hn in Hp, Hi, Hr.
  assert (mterm rt' = dterm rt /\ mvote rt' = dvote rt) as [Ht Hv] by (by rewrite <- Hp).
  split; try done; try (intros m Hm; inversion Hm; fail).
  - split; rewrite ?Hd.
    + done.
    + rewrite Hp. split; [split|done]; [|by destruct (role _)]. unfold log.
      fold (node_persistent (rt_node rt')). by rewrite Hp.
    + congruence.
    + rewrite Ht, Hv. split; [lia|by right].
    + done.
  - rewrite Hd. split; [lia|by right].
  - by left.
  - intros k Hk. right. left. rewrite Hv in Hk. done.
  - intros k v Hk. by rewrite Hk in Hr.
  - unfold is_leader. by destruct (role (rt_node rt')).
Qed.

Lemma ballot_op_moved i net om rt rt' n' e out :
  consistent_node rt -> nc_node_id (rt_config rt) = i -> Membership.is_voter boot i = true ->
  rt_config rt' = rt_config rt -> new_calls i net rt rt' ->
  node_move i net om (rt_node rt) n' e -> same_but_applied n' (rt_node rt') ->
  (forall m, m ∈ out -> m ∈ messages e) -> (rt_failed rt = true -> rt_failed rt' = true) ->
  ((rt_durable rt' = node_persistent n' /\ persist e = true) \/
   (rt_durable rt' = rt_durable rt /\ (persist e = true -> out = [] /\ rt_failed rt' = true))) ->
  ballot_op i net rt rt' out.
Proof.
  intros [[Hdl Hdb] [Hst Hmb] Hnid [Hale Hav] Hhl] Hi Hvoter Hc Hca Hmv Hsame Hsub Hff Hcase.
  destruct (node_move_static _ _ _ _ _ _ Hst Hmv) as (Hst' & Hsends & Hquiet).
  destruct (node_move_ok _ _ _ _ _ _ Hmv) as (ev & Hev & Hok & Hbk).
  destruct (no_hs _ _ _ Hok) as [Hle Hstay]. pose proof (no_identity _ _ _ Hok) as Hid.
  destruct (same_applied_persistent _ _ Hsame) as [Hper Hidn].
  assert (mterm rt' = term (core n') /\ mvote rt' = vote (core n')) as [Ht Hv].
  { unfold term, vote. fold (node_persistent (rt_node rt')). by rewrite Hper. }
  assert (id (core n') = i) as Hin by (rewrite (id_same _ _ Hid); congruence).
  assert (bootstrap_config (node_persistent n') = boot) as Hmb'.
  { destruct Hid as [_ Hid]. unfold node_persistent in *. congruence. }
  assert (forall m, m ∈ out -> persist e = true -> rt_durable rt' = node_persistent n') as Hsaved.
  { intros m Hm Hp. destruct Hcase as [[? _]|[_ Hno]]; [done|]. destruct (Hno Hp) as [-> _]. inversion Hm. }
  assert (forall v, vote_source (rt_node rt) ev n' v -> counted i net rt rt' v) as Hsrc.
  { intros v [[-> _]|[(k & Hk & Hkt & Hin')|(m & Hm & Hg & Hmt & Hfr)]].
    - left. done.
    - right. left. exists k. split_and!; [done|congruence|done].
    - right. right. destruct (Hev m Hm). exists m. split_and!; [done|done|congruence|done|done]. }
  assert (Membership.is_voter (effective_config (core n')) (id (core n')) = true) as Hvoter'.
  { rewrite (effective_config_static _ (proj1 Hst')), Hin. unfold node_persistent in Hmb'. by rewrite Hmb'. }
  split.
  - done.
  - split.
    + destruct Hcase as [[-> _]|[-> _]]; [|done]. split; [apply Hst'|done].
    + rewrite Hper. split; [by eapply same_applied_static|done].
    + rewrite Hidn, Hc. congruence.
    + rewrite Ht, Hv. destruct Hcase as [[-> _]|[-> _]]; [split; [reflexivity|by right]|].
      split; [lia|]. intros Heq. destruct Hav as [?|Hav]; [lia|by left|].
      destruct Hstay as [Hs|Hs]; [lia|left; congruence|right; congruence].
    + rewrite Hper. intros Hf. destruct Hcase as [[-> _]|[-> Hno]]; [done|].
      destruct (persist e) eqn:Ep; [destruct (Hno eq_refl); congruence|]. rewrite (Hquiet eq_refl).
      apply Hhl. destruct (rt_failed rt); [|done]. rewrite Hff in Hf; done.
  - destruct Hcase as [[-> _]|[-> _]]; [|split; [lia|by right]]. change (p_term (node_persistent n')) with (term (core n')).
    split; [lia|]. intros Heq. destruct Hav as [?|Hav]; [lia|by left|].
    change (voted_for (node_persistent n')) with (vote (core n')).
    destruct Hstay as [Hs|Hs]; [lia|left; congruence|right; congruence].
  - intros m Hm. eapply sent_ok_msg. by apply Hsends, Hsub.
  - done.
  - intros m Hm Hg. pose proof (no_electoral _ _ _ Hok m (Hsub m Hm) Hg) as Hp.
    rewrite (Hsaved m Hm Hp). destruct (no_granted _ _ _ Hok m (Hsub m Hm) Hg) as [? ?].
    rewrite (no_from _ _ _ Hok m (Hsub m Hm)). split_and!; [congruence|done|done].
  - intros m Hm Hg. destruct (no_solicits _ _ _ Hok m (Hsub m Hm) Hg) as (Hp & ? & Hvo).
    rewrite (Hsaved m Hm Hp), (no_from _ _ _ Hok m (Hsub m Hm)).
    split_and!; [congruence|done|]. rewrite <- Hin. by apply Hvo.
  - rewrite Hper. destruct Hcase as [[-> _]|[-> _]]; [by right|by left].
  - intros k. rewrite Hv, Ht. intros Hk.
    destruct (node_move_vote _ _ _ _ _ _ _ Hmv Hk) as [?|[->|?]]; [by left|by right; right; left|by auto].
  - intros k v Hr Hin'. apply Hsrc. destruct Hsame as [Hrole _]. rewrite Hrole in Hr.
    unfold election_backed in Hbk. rewrite Hr in Hbk. auto.
  - intros Hlead. rewrite (is_leader_same _ _ Hsame) in Hlead. rewrite Ht.
    unfold election_backed, is_leader in *.
    destruct (role n'); try done. destruct Hbk as [[Hl Htm]|(S & Hq & HS)]; [by left|right].
    exists S. split; [|auto]. rewrite (effective_config_static _ (proj1 Hst')) in Hq.
    unfold node_persistent in Hmb'. by rewrite Hmb' in Hq.
Qed.

Lemma op_result_ballot i net om rt rt' out :
  consistent_node rt -> nc_node_id (rt_config rt) = i -> Membership.is_voter boot i = true ->
  rt_config rt' = rt_config rt -> new_calls i net rt rt' -> op_result i net om rt rt' out ->
  ballot_op i net rt rt' out.
Proof.
  intros Hcn Hi Hv Hc Hca [Hd Hf Hn|n' e out' Hmv Hsame Hsub Hff Hcase|Ho].
  - by apply ballot_op_same.
  - by eapply ballot_op_moved.
  - by eapply ballot_op_restart.
Qed.

End Contract.

(** ** Every action keeps nodes and messages well formed *)

Section Soundness.

Context {St Out : Type} (apply_command : Command -> St -> St * Out) (initial_state : St).
Context (cfgs : gmap N NodeConfig) (Hmembers : same_members cfgs).

Abbreviation boot := (boot_config cfgs).
Abbreviation exec := (exec apply_command initial_state).
Abbreviation run := (run apply_command initial_state).
Abbreviation dterm rt := (p_term (rt_durable rt)).
Abbreviation dvote rt := (voted_for (rt_durable rt)).
Abbreviation mterm rt := (term (core (rt_node rt))).
Abbreviation mvote rt := (vote (core (rt_node rt))).

Record sound (s : Cluster St) : Prop := mkSound {
  sd_node : forall i rt, nodes s !! i = Some rt ->
     i ∈ dom cfgs /\ nc_node_id (rt_config rt) = i /\ consistent_node boot rt;
  sd_msgs : forall m, m ∈ network s -> msg_ok m;
  sd_calls : forall i rt m, nodes s !! i = Some rt -> StepCall m ∈ rt_entered rt ->
     m ∈ network s /\ msg_to m = i
}.

Lemma boot_voter i : i ∈ dom cfgs -> Membership.is_voter boot i = true.
Proof. intros Hi. by apply bool_decide_eq_true. Qed.

Lemma exec_contract s a s' :
  sound s -> exec s a = Some s' ->
  exists rt rt' out, nodes s !! actor a = Some rt /\ s' = update s (actor a) rt' out /\
    op_result initial_state (actor a) (network s) (delivered s a) rt rt' out /\
    ballot_op boot (actor a) (network s) rt rt' out.
Proof.
  intros [Hn Hm Hc] Hex.
  assert (traffic_ok s) as Htr by (split_and!; [intros i rt Hi; by eapply Hn|done|done]).
  destruct (exec_is_op _ _ _ _ _ Htr Hex) as (rt & rt' & out & Hrt & -> & Hop).
  exists rt, rt', out. destruct (Hn _ _ Hrt) as (Hd & Hid & Hcn).
  destruct (runtime_op_result _ _ _ _ _ _ _ _ _ Hop) as [Hcf Hres].
  split_and!; [done..|]. eapply op_result_ballot; [done|done|by apply boot_voter|done| |exact Hres].
  by eapply runtime_op_calls.
Qed.

Lemma sound_op s i rt rt' out :
  sound s -> nodes s !! i = Some rt -> ballot_op boot i (network s) rt rt' out ->
  sound (update s i rt' out).
Proof.
  intros [Hn Hm Hc] Hrt Hop. split; simpl.
  - intros j rt1. destruct (decide (j = i)) as [->|Hne].
    + rewrite lookup_insert_eq. intros [= <-]. destruct (Hn _ _ Hrt) as (? & ? & _).
      rewrite (bo_config _ _ _ _ _ _ Hop). split_and!; [done..|]. apply Hop.
    + rewrite lookup_insert_ne by done. apply Hn.
  - intros m [?|Hin]%elem_of_app; [by apply Hm|]. by eapply bo_msgs.
  - intros j rt1 m. rewrite elem_of_app. destruct (decide (j = i)) as [->|Hne].
    + rewrite lookup_insert_eq. intros [= <-] [Hin|[? ?]]%(bo_calls _ _ _ _ _ _ Hop); [|by auto].
      destruct (Hc _ _ _ Hrt Hin). auto.
    + rewrite lookup_insert_ne by done. intros Hj Hin. destruct (Hc _ _ _ Hj Hin). auto.
Qed.

(** A fresh cluster. *)
Lemma initial_node i rt :
  nodes (initial initial_state cfgs) !! i = Some rt ->
  exists cfg, cfgs !! i = Some cfg /\
    Runtime.open cfg initial_state (mkPersistent 0 None Log_default boot) = Ok rt.
Proof.
  simpl. rewrite lookup_omap. destruct (cfgs !! i) as [cfg|] eqn:Ec; [|done].
  simpl. unfold open_option. rewrite (initial_persistent_eq _ Hmembers _ _ Ec).
  destruct (Runtime.open _ _ _) eqn:Eo; [|done]. intros. simplify_eq. eauto.
Qed.

Lemma initial_node_state i rt :
  nodes (initial initial_state cfgs) !! i = Some rt ->
  rt_durable rt = mkPersistent 0 None Log_default boot /\
  node_persistent (rt_node rt) = mkPersistent 0 None Log_default boot /\
  role_is_follower (role (rt_node rt)) = true /\ i ∈ dom cfgs.
Proof.
  intros (cfg & Hc & Ho)%initial_node. apply open_Ok in Ho as (_ & -> & _ & -> & _).
  destruct (restore_node (nc_consensus cfg) (mkPersistent 0 None Log_default boot)) as (-> & _ & ->).
  split_and!; [done..|]. apply elem_of_dom. eauto.
Qed.

Lemma initial_sound : sound (initial initial_state cfgs).
Proof.
  split.
  - intros i rt Hi. destruct (initial_node_state _ _ Hi) as (Hd & Hp & Hr & Hdom).
    apply initial_node in Hi as (cfg & Hc & Ho). destruct (Hmembers _ _ Hc) as [Hid _].
    apply open_Ok in Ho as (Hcf & _ & _ & Hn & Hcid).
    assert (mterm rt = 0) as Ht by (unfold term; fold (node_persistent (rt_node rt)); by rewrite Hp).
    assert (mvote rt = None) as Hv by (unfold vote; fold (node_persistent (rt_node rt)); by rewrite Hp).
    split_and!; [done|congruence|]. split; rewrite ?Hd, ?Hp.
    + split; [apply log_ok_default|done].
    + split; [|done]. split; [|by destruct (role (rt_node rt))].
      unfold log. fold (node_persistent (rt_node rt)). rewrite Hp. apply log_ok_default.
    + rewrite Hcf, Hn. destruct (restore_node (nc_consensus cfg) (mkPersistent 0 None Log_default boot))
        as (_ & -> & _). done.
    + rewrite Ht, Hv. split; [done|by right].
    + done.
  - intros m Hm. inversion Hm.
  - intros i rt m (cfg & _ & Ho)%initial_node. rewrite (open_entered _ _ _ _ Ho). set_solver.
Qed.

Lemma run_sound s acts s' : sound s -> run s acts = Some s' -> sound s'.
Proof.
  revert s. induction acts as [|a acts IH]; intros s Hs; simpl; [by intros [= <-]|].
  destruct (exec s a) as [s1|] eqn:Ea; [|done]. apply IH.
  destruct (exec_contract _ _ _ Hs Ea) as (rt & rt' & out & Hrt & -> & _ & Hop). by eapply sound_op.
Qed.

(** ** Ballots and leaders *)

Context (Hmulti : (2 <= size (dom cfgs))%nat).

(** [B v t k]: a vote of [v] for [k] in term [t] was on disk; [L i t]: node [i] has led
    term [t]. *)
Record elections (B : N -> N -> N -> Prop) (L : N -> N -> Prop) (s : Cluster St) : Prop := mkElections {
  el_ballot : forall v t k, B v t k -> exists rt, nodes s !! v = Some rt /\
     t <= dterm rt /\ (t = dterm rt -> dvote rt = Some k);
  el_vote : forall i rt k, nodes s !! i = Some rt -> dvote rt = Some k -> B i (dterm rt) k;
  el_once : forall v t k k', B v t k -> B v t k' -> k = k';
  el_granted : forall m, m ∈ network s -> granted m = true -> B (msg_from m) (msg_term m) (msg_to m);
  el_asked : forall m, m ∈ network s -> solicits m = true -> B (msg_from m) (msg_term m) (msg_from m);
  el_backed : forall v t k, B v t k -> B k t k;
  el_mvote : forall i rt k, nodes s !! i = Some rt -> mvote rt = Some k -> k = i \/ B k (mterm rt) k;
  el_cand : forall i rt k v, nodes s !! i = Some rt -> role (rt_node rt) = RCandidate k ->
     v ∈ votes k -> v = i \/ B v (mterm rt) i;
  el_lead : forall i rt, nodes s !! i = Some rt -> is_leader (rt_node rt) = true -> L i (mterm rt);
  el_quorum : forall i t, L i t -> exists S : gset N,
     Membership.has_quorum boot (fun v => bool_decide (v ∈ S)) = true /\
     forall v, v ∈ S -> B v t i
}.

(** A quorum has a member other than a given node. *)
Lemma quorum_has_other (S : gset N) i :
  Membership.has_quorum boot (fun v => bool_decide (v ∈ S)) = true -> exists v, v ∈ S /\ v <> i.
Proof.
  intros Hq%has_quorum_simple. destruct (decide (S ⊆ {[i]})) as [Hsub|Hns].
  - assert (count_votes (dom cfgs) (fun v => bool_decide (v ∈ S)) <= 1)%nat as Hle.
    { unfold count_votes. pose proof (iter_nodup (dom cfgs)) as Hnd.
      destruct (List.filter _ (iter (dom cfgs))) as [|x [|y l]] eqn:El; simpl; [lia..|].
      assert (forall z, In z (x :: y :: l) -> z = i) as Hz.
      { rewrite <- El. intros z [_ Hz]%filter_In. apply bool_decide_eq_true in Hz. set_solver. }
      assert (base.NoDup (x :: y :: l)) as Hnd2.
      { rewrite <- El. apply NoDup_ListNoDup, List.NoDup_filter, NoDup_ListNoDup, Hnd. }
      apply NoDup_cons in Hnd2 as [Hx _]. rewrite (Hz x), (Hz y) in Hx by (simpl; auto). set_solver. }
    pose proof (Nat.Div0.div_le_mono 2 (size (dom cfgs)) 2 Hmulti). simpl in *. lia.
  - destruct (decide (set_Exists (fun v => v <> i) S)) as [(v & ? & ?)|Hno]; [by exists v|].
    destruct Hns. intros v Hv. apply elem_of_singleton. destruct (decide (v = i)); [done|].
    destruct Hno. by exists v.
Qed.

Section Step.

Context (B : N -> N -> N -> Prop) (L : N -> N -> Prop) (s : Cluster St) (Hel : elections B L s).
Context (i : N) (rt rt' : RaftRuntime St) (out : list Message).
Context (Hrt : nodes s !! i = Some rt) (Hop : ballot_op boot i (network s) rt rt' out).

(** What the operation adds to the leaders. *)
Definition throne : N -> N -> Prop :=
  fun j t => L j t \/ (j = i /\ t = mterm rt' /\ is_leader (rt_node rt') = true).

#[local] Abbreviation B' := (cast B i rt').
#[local] Abbreviation s' := (update s i rt' out).

Lemma cast_on_disk v t k :
  B' v t k -> exists rt1, nodes s' !! v = Some rt1 /\ t <= dterm rt1 /\
    (t = dterm rt1 -> dvote rt1 = Some k).
Proof.
  intros [HB|(-> & -> & Hv)]; simpl.
  - destruct (el_ballot _ _ _ Hel _ _ _ HB) as (rt0 & H0 & Ht & Hk).
    destruct (decide (v = i)) as [->|Hne].
    + rewrite lookup_insert_eq. exists rt'. split; [done|]. assert (rt0 = rt) as -> by congruence.
      destruct (bo_disk _ _ _ _ _ _ Hop) as [Hle Hstay]. split; [lia|]. intros Heq.
      destruct Hstay as [Hn|Hs]; [lia| |]; rewrite Hk in * by lia; done.
    + rewrite lookup_insert_ne by done. eauto.
  - rewrite lookup_insert_eq. exists rt'. split; [done|]. split; [lia|done].
Qed.

Lemma cast_votes_once v t k k' : B' v t k -> B' v t k' -> k = k'.
Proof.
  intros H1 H2. destruct (cast_on_disk _ _ _ H1) as (rt1 & Hn1 & Ht1 & Hk1).
  destruct (cast_on_disk _ _ _ H2) as (rt2 & Hn2 & Ht2 & Hk2).
  assert (rt2 = rt1) as -> by congruence.
  destruct H1 as [H1|(-> & -> & Hv1)], H2 as [H2|(Hi & Ht & Hv2)].
  - by eapply el_once.
  - subst. simpl in Hn1. rewrite lookup_insert_eq in Hn1. simplify_eq.
    rewrite Hk1 in Hv2 by done. congruence.
  - simpl in Hn1. rewrite lookup_insert_eq in Hn1. simplify_eq.
    rewrite Hk2 in Hv1 by done. congruence.
  - congruence.
Qed.

(** The vote in memory is backed by a vote its candidate had on disk. *)
Lemma memory_vote_backed k : mvote rt' = Some k -> k = i \/ B k (mterm rt') k.
Proof.
  intros [[Hk ->]|[[Hk ->]|[->|(m & Hm & Hs & <- & <-)]]]%(bo_vote _ _ _ _ _ _ Hop).
  - by eapply el_mvote.
  - right. by eapply (el_backed _ _ _ Hel i), el_vote.
  - by left.
  - right. by eapply el_asked.
Qed.

Lemma cast_backed v t k : B' v t k -> B' k t k.
Proof.
  intros [HB|(-> & -> & Hv)]; [left; by eapply el_backed|].
  destruct (bo_saved _ _ _ _ _ _ Hop) as [Heq|Heq].
  - left. rewrite Heq in Hv |- *. eapply (el_backed _ _ _ Hel i). by eapply el_vote.
  - assert (mvote rt' = Some k) as Hm by (rewrite Heq in Hv; done).
    assert (dterm rt' = mterm rt') as Ht by (by rewrite Heq).
    destruct (memory_vote_backed _ Hm) as [->|HB]; [by right|left]. by rewrite Ht.
Qed.

Lemma counted_ballot v : counted i (network s) rt rt' v -> v = i \/ B v (mterm rt') i.
Proof.
  intros [->|[(k & Hr & -> & Hv)|(m & Hm & Hg & <- & <- & <-)]]; [by left| |].
  - by eapply el_cand.
  - right. by eapply el_granted.
Qed.

(** A new leader has a quorum of votes on disk, its own among them. *)
Lemma new_quorum (S : gset N) :
  Membership.has_quorum boot (fun v => bool_decide (v ∈ S)) = true ->
  (forall v, v ∈ S -> counted i (network s) rt rt' v) -> forall v, v ∈ S -> B v (mterm rt') i.
Proof.
  intros Hq HS. destruct (quorum_has_other S i Hq) as (w & Hw & Hne).
  assert (B i (mterm rt') i) as Hi.
  { destruct (counted_ballot w (HS w Hw)) as [?|HB]; [done|]. by eapply el_backed. }
  intros v Hv. by destruct (counted_ballot v (HS v Hv)) as [->|?].
Qed.

Lemma elections_step : elections B' throne s'.
Proof.
  split; simpl.
  - apply cast_on_disk.
  - intros j rt1 k. destruct (decide (j = i)) as [->|Hne].
    + rewrite lookup_insert_eq. intros [= <-] Hv. by right.
    + rewrite lookup_insert_ne by done. intros H1 Hv. left. by eapply el_vote.
  - apply cast_votes_once.
  - intros m [Hm|Hm]%elem_of_app Hg; [left; by eapply el_granted|].
    destruct (bo_granted _ _ _ _ _ _ Hop m Hm Hg) as (-> & -> & ?). by right.
  - intros m [Hm|Hm]%elem_of_app Hg; [left; by eapply el_asked|].
    destruct (bo_asked _ _ _ _ _ _ Hop m Hm Hg) as (-> & -> & ?). by right.
  - apply cast_backed.
  - intros j rt1 k. destruct (decide (j = i)) as [->|Hne].
    + rewrite lookup_insert_eq. intros [= <-] [?|?]%memory_vote_backed; [by left|right; by left].
    + rewrite lookup_insert_ne by done. intros H1 Hv.
      destruct (el_mvote _ _ _ Hel _ _ _ H1 Hv); [by left|right; by left].
  - intros j rt1 k v. destruct (decide (j = i)) as [->|Hne].
    + rewrite lookup_insert_eq. intros [= <-] Hr Hv.
      destruct (counted_ballot v); [by eapply bo_cand|by left|right; by left].
    + rewrite lookup_insert_ne by done. intros H1 Hr Hv.
      destruct (el_cand _ _ _ Hel _ _ _ _ H1 Hr Hv); [by left|right; by left].
  - intros j rt1. destruct (decide (j = i)) as [->|Hne].
    + rewrite lookup_insert_eq. intros [= <-] Hl. by right.
    + rewrite lookup_insert_ne by done. intros. left. by eapply el_lead.
  - assert (forall j t, L j t -> exists S : gset N,
      Membership.has_quorum boot (fun v => bool_decide (v ∈ S)) = true /\
      forall v, v ∈ S -> B' v t j) as Hold.
    { intros j t HL. destruct (el_quorum _ _ _ Hel _ _ HL) as (S & Hq & HS).
      exists S. split; [done|]. intros v Hv. left. auto. }
    intros j t [HL|(-> & -> & Hl)]; [by apply Hold|].
    destruct (bo_lead _ _ _ _ _ _ Hop Hl) as [(Hl0 & ->)|(S & Hq & HS)].
    + apply Hold. by eapply el_lead.
    + exists S. split; [done|]. intros v Hv. left. by eapply new_quorum.
Qed.

End Step.

Lemma initial_elections : elections (fun _ _ _ => False) (fun _ _ => False) (initial initial_state cfgs).
Proof.
  split; try done.
  - intros i rt k (-> & _)%initial_node_state. done.
  - intros m Hm. inversion Hm.
  - intros m Hm. inversion Hm.
  - intros i rt k (_ & Hp & _)%initial_node_state. unfold vote.
    fold (node_persistent (rt_node rt)). by rewrite Hp.
  - intros i rt k v (_ & _ & Hr & _)%initial_node_state. intros Hk. by rewrite Hk in Hr.
  - intros i rt (_ & _ & Hr & _)%initial_node_state. unfold is_leader. by destruct (role _).
Qed.

(** Two leaders of one term share a voter, who voted once. *)
Lemma one_leader_per_term B L s a b t : elections B L s -> L a t -> L b t -> a = b.
Proof.
  intros Hel Ha Hb. destruct (el_quorum _ _ _ Hel _ _ Ha) as (Sa & Hqa & HSa).
  destruct (el_quorum _ _ _ Hel _ _ Hb) as (Sb & Hqb & HSb).
  destruct (quorums_overlap boot boot (dom cfgs) (dom cfgs) _ _
              ltac:(by left) ltac:(by left) ltac:(by left) Hqa Hqb) as (v & _ & _ & H1 & H2).
  unbool. eapply (el_once _ _ _ Hel v t); auto.
Qed.

(** A leader's term is on its disk. *)
Lemma led_term_on_disk B L s j t :
  elections B L s -> L j t -> exists rt, nodes s !! j = Some rt /\ t <= dterm rt.
Proof.
  intros Hel HL. destruct (el_quorum _ _ _ Hel _ _ HL) as (S & Hq & HS).
  destruct (quorum_has_other S j Hq) as (v & Hv & _).
  destruct (el_ballot _ _ _ Hel j t j) as (rt & ? & ? & _); [by eapply (el_backed _ _ _ Hel v), HS|].
  eauto.
Qed.

(** ** Logs *)

Abbreviation dlog rt := (p_log (rt_durable rt)).
Abbreviation mlog rt := (log (core (rt_node rt))).

(** The log in memory stays, is read back from disk by a restart, merges a request from
    the network on a follower, or gets one more entry of the leader's term. *)
Definition memory_change (net : list Message) (rt rt' : RaftRuntime St) : Prop :=
  mlog rt' = mlog rt \/
  (mlog rt' = dlog rt /\ role_is_follower (role (rt_node rt')) = true) \/
  (exists m r, m ∈ net /\ msg_payload m = AppendReq r /\ consistent (mlog rt) r = true /\
     mlog rt' = fst (append_entries (mlog rt) (ar_entries r)) /\
     role_is_follower (role (rt_node rt')) = true) \/
  (exists cmd, is_leader (rt_node rt) = true /\ mterm rt' = mterm rt /\
     last_index (mlog rt) + 2 < two64 /\
     mlog rt' = append (mlog rt)
       (mkEntry (mterm rt) (last_index (mlog rt) + 1) (CommandPayload cmd))).

Record memory_op (net : list Message) (rt rt' : RaftRuntime St) (out : list Message) : Prop := mkMemoryOp {
  mo_log : memory_change net rt rt';
  mo_disk : dlog rt' = dlog rt \/ dlog rt' = mlog rt';
  mo_msgs : forall m r, m ∈ out -> msg_payload m = AppendReq r -> excerpt (mlog rt') r;
  mo_cand : role_is_candidate (role (rt_node rt')) = true ->
     mterm rt < mterm rt' \/
     (mterm rt' = mterm rt /\ role_is_candidate (role (rt_node rt)) = true);
  mo_lead : is_leader (rt_node rt') = true ->
     mterm rt < mterm rt' \/
     (mterm rt' = mterm rt /\
      role_is_candidate (role (rt_node rt)) || role_is_leader (role (rt_node rt)) = true)
}.

Lemma op_result_memory i net om rt rt' out :
  consistent_node boot rt -> op_result initial_state i net om rt rt' out -> memory_op net rt rt' out.
Proof.
  intros [_ [Hst _] _ _ _] [Hd Hf Hn|n' e out' Hmv Hsame Hsub Hff Hcase|Ho].
  - split; rewrite ?Hd, ?Hn.
    + left. by rewrite Hn.
    + by left.
    + intros m r Hm. inversion Hm.
    + by right.
    + intros Hl. right. split; [done|]. unfold is_leader in Hl. rewrite Hl. apply orb_true_r.
  - destruct (node_move_static _ _ _ _ _ _ Hst Hmv) as (_ & Hok & _).
    destruct (node_move_log _ _ _ _ _ _ Hst Hmv) as [Hfr Hlog].
    destruct (same_applied_persistent _ _ Hsame) as [Hper _]. pose proof Hsame as [Hrole _].
    assert (mterm rt' = term (core n') /\ mlog rt' = log (core n')) as [Ht Hl].
    { unfold term, log. fold (node_persistent (rt_node rt')). by rewrite Hper. }
    split.
    + unfold memory_change. rewrite Ht, Hl, Hrole.
      destruct Hlog as [?|[(Hfol & m & req & ? & ? & ? & ?)|(cmd & ? & ? & ? & ?)]]; [by left|..].
      * right. right. left. by exists m, req.
      * right. right. right. by exists cmd.
    + rewrite Hl. destruct Hcase as [[-> _]|[-> _]]; [by right|by left].
    + intros m r Hm Hp. specialize (Hok m (Hsub m Hm)). unfold sent_ok in Hok. rewrite Hp in Hok.
      rewrite Hl. apply Hok.
    + rewrite Hrole, Ht. intros Hc. destruct Hfr as [?|(Heq & H1 & _)]; [by left|right; auto].
    + rewrite (is_leader_same _ _ Hsame), Ht. intros Hc.
      destruct Hfr as [?|(Heq & _ & H1)]; [by left|right; auto].
  - apply open_Ok in Ho as (_ & Hd & _ & Hn & _).
    destruct (restore_node (nc_consensus (rt_config rt)) (rt_durable rt)) as (Hp & _ & Hr).
    rewrite <- Hn in Hp, Hr. split.
    + right. left. split; [|done]. unfold log. fold (node_persistent (rt_node rt')). by rewrite Hp.
    + left. by rewrite Hd.
    + intros m r Hm. inversion Hm.
    + by destruct (role (rt_node rt')).
    + unfold is_leader. by destruct (role (rt_node rt')).
Qed.

Lemma append_entries_snapshot_term l es :
  snapshot_term (fst (append_entries l es)) = snapshot_term l.
Proof.
  unfold append_entries. generalize false. revert l.
  induction es as [|e es IH]; intros l b; [done|]. cbn [foldl].
  destruct (append_one (l, b) e) as [l1 b1] eqn:Ea. rewrite IH.
  unfold append_one in Ea. repeat case_match; simplify_eq; try done.
  all: simpl; by destruct (truncate_after_snapshot l (e_index e -u 1)) as (_ & ? & _).
Qed.

(** Logs in memory, logs on disk and requests are chains of writes. *)
Record chains (E : Writes) (L : N -> N -> Prop) (s : Cluster St) : Prop := mkChains {
  mc_once : writes_once E;
  mc_room : forall a t p q, E a t p q -> a + 1 < two64;
  mc_memory : forall i rt, nodes s !! i = Some rt -> linked E (mlog rt) /\ snapshot_term (mlog rt) = 0;
  mc_disk : forall i rt, nodes s !! i = Some rt -> linked E (dlog rt) /\ snapshot_term (dlog rt) = 0;
  mc_msg : forall m r, m ∈ network s -> msg_payload m = AppendReq r -> request_linked E r;
  mc_written : forall i t p q, E i t p q -> exists j, L j t;
  mc_cand : forall j rt, nodes s !! j = Some rt -> role_is_candidate (role (rt_node rt)) = true ->
     ~ L j (mterm rt);
  mc_lead : forall j rt, nodes s !! j = Some rt -> is_leader (rt_node rt) = true ->
     forall i p q, E i (mterm rt) p q -> i <= last_index (mlog rt)
}.

Section LogStep.

Context (B : N -> N -> N -> Prop) (L : N -> N -> Prop) (E : Writes) (s : Cluster St).
Context (Hsd : sound s) (Hel : elections B L s) (Hch : chains E L s).
Context (i : N) (rt rt' : RaftRuntime St) (out : list Message).
Context (Hrt : nodes s !! i = Some rt) (Hop : ballot_op boot i (network s) rt rt' out).
Context (Hmo : memory_op (network s) rt rt' out).

#[local] Abbreviation L' := (throne L i rt').
#[local] Abbreviation s' := (update s i rt' out).

(** The terms a node has led are not above the one in its memory. *)
Lemma led_before t : L i t -> t <= mterm rt.
Proof.
  intros HL. destruct (led_term_on_disk _ _ _ _ _ Hel HL) as (rt0 & H0 & Hle).
  assert (rt0 = rt) as -> by congruence. destruct (sd_node _ Hsd _ _ Hrt) as (_ & _ & Hcn).
  destruct (cn_ahead _ _ Hcn). lia.
Qed.

(** A node that leads a new term is the first to lead it, so nothing was written in it. *)
Lemma new_leader_first :
  is_leader (rt_node rt') = true ->
  (is_leader (rt_node rt) = true /\ mterm rt' = mterm rt) \/ (forall a p q, ~ E a (mterm rt') p q).
Proof.
  intros Hl.
  assert (~ L i (mterm rt') -> forall a p q, ~ E a (mterm rt') p q) as Hno.
  { intros Hnl a p q (j & Hj)%(mc_written _ _ _ Hch). assert (j = i) as ->; [|done].
    eapply (one_leader_per_term _ L' s'); [by eapply elections_step|by left|by right]. }
  destruct (mo_lead _ _ _ _ Hmo Hl) as [Hlt|(Heq & Hr)].
  - right. apply Hno. intros HL%led_before. lia.
  - apply orb_true_iff in Hr as [Hc|Hl0]; [right; apply Hno; rewrite Heq; by eapply mc_cand|by left].
Qed.

(** The step, given the writes after it. *)
Lemma chains_step (E' : Writes) :
  (forall a t p q, E a t p q -> E' a t p q) -> writes_once E' ->
  (forall a t p q, E' a t p q -> E a t p q \/ (t = mterm rt /\ L i t /\ a + 1 < two64)) ->
  linked E' (mlog rt') /\ snapshot_term (mlog rt') = 0 ->
  (is_leader (rt_node rt') = true -> forall a p q, E' a (mterm rt') p q -> a <= last_index (mlog rt')) ->
  chains E' L' s'.
Proof.
  intros Hsub Honce Hnew Hlink Hbound.
  assert (forall l, linked E l -> linked E' l) as Hmono by (intros l; by apply linked_mono).
  destruct (bo_node _ _ _ _ _ _ Hop) as [_ [[Hlok _] _] _ _ _].
  split; [done|..]; simpl.
  - intros a t p q [HE|(_ & _ & ?)]%Hnew; [by eapply mc_room|done].
  - intros j rt1. destruct (decide (j = i)) as [-> | Hne].
    + rewrite lookup_insert_eq. by intros [= <-].
    + rewrite lookup_insert_ne by done. intros [? ?]%(mc_memory _ _ _ Hch). auto.
  - intros j rt1. destruct (decide (j = i)) as [-> | Hne].
    + rewrite lookup_insert_eq. intros [= <-].
      destruct (mo_disk _ _ _ _ Hmo) as [-> | ->]; [|done].
      destruct (mc_disk _ _ _ Hch _ _ Hrt). auto.
    + rewrite lookup_insert_ne by done. intros [? ?]%(mc_disk _ _ _ Hch). auto.
  - intros m r [Hm|Hm]%elem_of_app Hp.
    + eapply request_linked_mono; [exact Hsub|]. by eapply mc_msg.
    + eapply excerpt_linked; [exact Hlok|apply Hlink|]. by eapply mo_msgs.
  - intros a t p q [HE|(-> & HL & _)]%Hnew; [|exists i; by left].
    destruct (mc_written _ _ _ Hch _ _ _ _ HE) as [j Hj]. exists j. by left.
  - intros j rt1. destruct (decide (j = i)) as [-> | Hne].
    + rewrite lookup_insert_eq. intros [= <-] Hc [HL|(_ & _ & Hl)].
      * destruct (mo_cand _ _ _ _ Hmo Hc) as [Hlt|(Heq & Hc0)]; [apply led_before in HL; lia|].
        rewrite Heq in HL. by eapply (mc_cand _ _ _ Hch).
      * unfold is_leader in Hl. by destruct (role (rt_node rt')).
    + rewrite lookup_insert_ne by done. intros Hj Hc [HL|(-> & _)]; [|done].
      by eapply (mc_cand _ _ _ Hch).
  - intros j rt1. destruct (decide (j = i)) as [-> | Hne].
    + rewrite lookup_insert_eq. intros [= <-]. done.
    + rewrite lookup_insert_ne by done. intros Hj Hl a p q [HE|(Ht & HL & _)]%Hnew.
      * by eapply (mc_lead _ _ _ Hch).
      * destruct Hne. eapply (one_leader_per_term B L s); [done| |exact HL]. by eapply el_lead.
Qed.

Lemma chains_op :
  exists E', chains E' L' s' /\ forall a t p q, E a t p q -> E' a t p q.
Proof.
  destruct (sd_node _ Hsd _ _ Hrt) as (_ & _ & Hcn). destruct (cn_memory _ _ Hcn) as [[Hlok _] _].
  destruct (mc_memory _ _ _ Hch _ _ Hrt) as [Hlm Hsm]. destruct (mc_disk _ _ _ Hch _ _ Hrt) as [Hld Hsdk].
  assert (role_is_follower (role (rt_node rt')) = true -> is_leader (rt_node rt') = true -> False) as Hnl.
  { unfold is_leader. by destruct (role _). }
  destruct (mo_log _ _ _ _ Hmo) as [Heq|[(Heq & Hfol)|[(m & r & Hm & Hp & Hc & Heq & Hfol)
                                                      |(cmd & Hl & Ht & Hroom & Heq)]]].
  - exists E. split; [|done]. apply chains_step; [done|apply Hch|by left|by rewrite Heq|].
    intros Hl' a p q HE. rewrite Heq.
    destruct (new_leader_first Hl') as [(Hl & Ht)|Hno]; [|by destruct (Hno a p q)].
    rewrite Ht in HE. by eapply mc_lead.
  - exists E. split; [|done]. apply chains_step; [done|apply Hch|by left|by rewrite Heq|]. intros Hl'. by destruct Hnl.
  - exists E. split; [|done]. apply chains_step; [done|apply Hch|by left| |intros Hl'; by destruct Hnl]. rewrite Heq.
    pose proof (sd_msgs _ Hsd m Hm) as Hok. unfold msg_ok in Hok. rewrite Hp in Hok. split.
    + apply merge_linked; [done|done|done|done|by eapply mc_msg].
    + by rewrite append_entries_snapshot_term.
  - assert (forall a p q, E a (mterm rt) p q -> a <= last_index (mlog rt)) as Hold
      by (by eapply mc_lead).
    exists (fun a t p q => E a t p q \/ (a = last_index (mlog rt) + 1 /\ t = mterm rt /\
      p = CommandPayload cmd /\ q = prev_term (mlog rt) (last_index (mlog rt) + 1))).
    split; [|by left]. apply chains_step.
    + by left.
    + intros a t p q p' q' [H1|(-> & -> & -> & ->)] [H2|(H2a & H2b & -> & ->)].
      * by eapply mc_once.
      * subst. apply Hold in H1. lia.
      * apply Hold in H2. lia.
      * done.
    + intros a t p q [HE|(-> & -> & _)]; [by left|right].
      split_and!; [done|by eapply el_lead|lia].
    + rewrite Heq. split; [|done]. apply append_linked; [done| |lia|by right].
      eapply linked_mono; [|exact Hlm]. by left.
    + intros _ a p q. rewrite Ht, Heq.
      rewrite append_last_index by (apply Hlok || split; [done|unfold u64; simpl; lia]).
      simpl. intros [HE%Hold|(-> & _)]; lia.
Qed.

End LogStep.

Lemma initial_chains :
  chains (fun _ _ _ _ => False) (fun _ _ => False) (initial initial_state cfgs).
Proof.
  assert (linked (fun _ _ _ _ => False) Log_default) as Hl
    by (intros j e; by rewrite get_alt; case_match).
  split; try done.
  - intros i rt (_ & Hp & _)%initial_node_state. unfold log.
    fold (node_persistent (rt_node rt)). by rewrite Hp.
  - intros i rt (-> & _)%initial_node_state. done.
  - intros m r Hm. inversion Hm.
  - by intros j rt _ _ [].
Qed.

(** The whole invariant, with more leaders as the run goes on. *)
Lemma run_invariant s acts s' B L E :
  sound s -> elections B L s -> chains E L s -> run s acts = Some s' ->
  exists B' L' E', sound s' /\ elections B' L' s' /\ chains E' L' s' /\ (forall j t, L j t -> L' j t).
Proof.
  revert s B L E. induction acts as [|a acts IH]; intros s B L E Hs Hel Hch; simpl.
  - intros [= <-]. exists B, L, E. auto.
  - destruct (exec s a) as [s1|] eqn:Ea; [|done].
    destruct (exec_contract _ _ _ Hs Ea) as (rt & rt' & out & Hrt & -> & Hres & Hop).
    destruct (sd_node _ Hs _ _ Hrt) as (_ & _ & Hcn).
    pose proof (op_result_memory _ _ _ _ _ _ Hcn Hres) as Hmo.
    destruct (chains_op _ _ _ _ Hs Hel Hch _ _ _ _ Hrt Hop Hmo) as (E1 & Hch1 & _).
    pose proof (elections_step _ _ _ Hel _ _ _ _ Hrt Hop) as Hel1.
    pose proof (sound_op _ _ _ _ _ Hs Hrt Hop) as Hs1. intros Hr.
    destruct (IH _ _ _ _ Hs1 Hel1 Hch1 Hr) as (B2 & L2 & E2 & ? & ? & ? & HL).
    exists B2, L2, E2. split_and!; [done..|]. intros j t HLj. apply HL. by left.
Qed.

Lemma reachable_invariant s :
  reachable apply_command initial_state cfgs s ->
  exists B L E, sound s /\ elections B L s /\ chains E L s.
Proof.
  intros [acts Hr].
  destruct (run_invariant _ _ _ _ _ _ initial_sound initial_elections initial_chains Hr)
    as (B & L & E & ? & ? & ? & _). eauto 10.
Qed.

End Soundness.

(** ** What clients and operators can rely on *)

Lemma lone_member (cfgs : gmap N NodeConfig) a b :
  ~ (2 <= size (dom cfgs))%nat -> a ∈ dom cfgs -> b ∈ dom cfgs -> a = b.
Proof.
  intros Hsz Ha Hb. destruct (decide (a = b)) as [|Hne]; [done|]. destruct Hsz.
  assert (({[a; b]} : gset N) ⊆ dom cfgs) as Hsub%subseteq_size by set_solver.
  rewrite size_union in Hsub by set_solver. rewrite !size_singleton in Hsub. lia.
Qed.

Lemma reachable_sound {St Out : Type} (apply_command : Command -> St -> St * Out)
    (initial_state : St) cfgs s :
  same_members cfgs -> reachable apply_command initial_state cfgs s -> sound cfgs s.
Proof. intros Hm [acts Hr]. by eapply run_sound; [by apply initial_sound|exact Hr]. Qed.

Lemma reachable_step {St Out : Type} (apply_command : Command -> St -> St * Out)
    (initial_state : St) cfgs s acts s' :
  reachable apply_command initial_state cfgs s -> run apply_command initial_state s acts = Some s' ->
  reachable apply_command initial_state cfgs s'.
Proof. intros [acts0 H0] Hr. exists (acts0 ++ acts). by eapply run_app. Qed.

(** ** Election safety *)

(** Leaders of one term at two moments. *)
Lemma leaders_agree {St Out : Type} (apply_command : Command -> St -> St * Out)
    (initial_state : St) cfgs s1 acts s2 a b t
    (Hmembers : same_members cfgs)
    (Hreach : reachable apply_command initial_state cfgs s1)
    (Hrun : run apply_command initial_state s1 acts = Some s2)
    (Ha : leads s1 a t) (Hb : leads s2 b t) :
  a = b.
Proof.
  destruct Ha as (rta & Ha & _ & Hla & <-), Hb as (rtb & Hb & _ & Hlb & Ht).
  destruct (decide (2 <= size (dom cfgs))%nat) as [Hmulti|Hlone].
  - destruct (reachable_invariant _ _ _ Hmembers Hmulti _ Hreach) as (B1 & L1 & E1 & Hs1 & Hel1 & Hch1).
    destruct (run_invariant _ _ _ Hmembers Hmulti _ _ _ _ _ _ Hs1 Hel1 Hch1 Hrun)
      as (B2 & L2 & E2 & _ & Hel2 & _ & HL).
    eapply (one_leader_per_term cfgs B2 L2 s2); [done|by eapply HL, (el_lead _ _ _ _ Hel1)|].
    unfold node_term in Ht. rewrite <- Ht. by eapply el_lead.
  - pose proof (reachable_sound _ _ _ _ Hmembers Hreach) as Hs1.
    pose proof (reachable_sound _ _ _ _ Hmembers (reachable_step _ _ _ _ _ _ Hreach Hrun)) as Hs2.
    eapply lone_member; [exact Hlone|by eapply Hs1|by eapply Hs2].
Qed.

(** C1. Election safety: over the whole life of a cluster, through message loss,
    duplication and reordering, crashes, restarts, disk failures and calls that run on a
    runtime that has failed, at most one healthy node leads each term: if [a] leads term
    [t] in a reachable state and [b] leads [t] in that or any later state, then [a] and
    [b] are the same node. *)
Theorem election_safety {St Out : Type} (apply_command : Command -> St -> St * Out)
    (initial_state : St) cfgs s1 acts s2 a b t
    (Hmembers : same_members cfgs)
    (Hreach : reachable apply_command initial_state cfgs s1)
    (Hrun : run apply_command initial_state s1 acts = Some s2)
    (Ha : leads s1 a t) (Hb : leads s2 b t) :
  a = b.
Proof. by eapply (leaders_agree apply_command initial_state cfgs s1 acts s2). Qed.

(** C6. Hard-state durability: in every reachable state each healthy node's whole
    persistent state (term, vote and log) is what its disk would recover, and its
    log is contiguous, free of configuration entries and has real terms. *)
Theorem healthy_nodes_are_durable {St Out : Type} (apply_command : Command -> St -> St * Out)
    (initial_state : St) cfgs s i rt
    (Hmembers : same_members cfgs)
    (Hreach : reachable apply_command initial_state cfgs s)
    (Hi : nodes s !! i = Some rt) (Hok : rt_failed rt = false) :
  node_persistent (rt_node rt) = rt_durable rt /\ log_ok (log (core (rt_node rt))) /\
  effective_config (core (rt_node rt)) = boot_config cfgs.
Proof.
  pose proof (reachable_sound _ _ _ _ Hmembers Hreach) as Hs.
  destruct (sd_node _ _ Hs _ _ Hi) as (_ & _ & [_ [[Hl _] Hb] _ _ Hsync]).
  split_and!; [by apply Hsync|done|]. by rewrite effective_config_static.
Qed.

Lemma election_safety_witness :
  exists s : Cluster (list Command), leads s 1 1 /\ forall b, leads s b 1 -> 1 = b.
Proof.
  destruct (run_checks_reachable journal [] trio elect_1 (fun s => leads_b s 1 1))
    as (s & Hreach & Hl); [vm_compute; reflexivity|].
  apply leads_b_spec in Hl. exists s. split; [exact Hl|]. intros b Hb.
  exact (election_safety journal [] trio s [] s 1 b 1 trio_members Hreach eq_refl Hl Hb).
Defined.

Lemma healthy_nodes_are_durable_witness :
  exists (s : Cluster (list Command)) rt, nodes s !! 1 = Some rt /\ node_persistent (rt_node rt) = rt_durable rt.
Proof.
  destruct (run_checks_reachable journal [] trio elect_1 (fun s => leads_b s 1 1))
    as (s & Hreach & Hl); [vm_compute; reflexivity|].
  apply leads_b_spec in Hl as (rt & Hi & Hf & _). exists s, rt. split; [exact Hi|].
  apply (healthy_nodes_are_durable journal [] trio s 1 rt trio_members Hreach Hi Hf).
Defined.

(** C7. Log matching: in every reachable state of a cluster, through message loss,
    duplication and reordering, crashes, restarts, disk failures and calls that run on a
    runtime that has failed, if the stored logs of two nodes have entries of the same
    term at some index, then the two logs are identical, payloads included, up to and
    including that index. *)
Theorem log_matching {St Out : Type} (apply_command : Command -> St -> St * Out)
    (initial_state : St) cfgs s a b rta rtb i ea eb
    (Hmembers : same_members cfgs)
    (Hreach : reachable apply_command initial_state cfgs s)
    (Ha : nodes s !! a = Some rta) (Hb : nodes s !! b = Some rtb)
    (Hea : get (p_log (rt_durable rta)) i = Some ea)
    (Heb : get (p_log (rt_durable rtb)) i = Some eb)
    (Hterm : e_term ea = e_term eb) :
  forall j, j <= i -> get (p_log (rt_durable rta)) j = get (p_log (rt_durable rtb)) j.
Proof.
  pose proof (reachable_sound _ _ _ _ Hmembers Hreach) as Hs.
  destruct (sd_node _ _ Hs _ _ Ha) as (Hda & _ & [[Hla _] _ _ _ _]).
  destruct (sd_node _ _ Hs _ _ Hb) as (Hdb & _ & [[Hlb _] _ _ _ _]).
  destruct (decide (2 <= size (dom cfgs))%nat) as [Hmulti|Hlone].
  - destruct (reachable_invariant _ _ _ Hmembers Hmulti _ Hreach) as (B & L & E & _ & _ & Hch).
    eapply (linked_agree E); [apply Hch|done|done| | |done|done|done]; by eapply mc_disk.
  - assert (a = b) as -> by (by eapply lone_member). by replace rtb with rta by congruence.
Qed.

(** The state a runtime may be asked to save can follow what is on disk. *)
Lemma chains_successor {St : Type} (E : Writes) cfgs (s : Cluster St) L i rt l d :
  chains E L s -> sound cfgs s -> nodes s !! i = Some rt ->
  log_ok (p_log d) -> linked E (p_log d) -> snapshot_term (p_log d) = 0 ->
  l = node_persistent (rt_node rt) -> p_term d <= p_term l -> successor d l.
Proof.
  intros Hch Hs Hi (Hwd & Hsd & Hcd & Hed) Hld Hstd -> Ht.
  destruct (mc_memory _ _ _ Hch _ _ Hi) as [Hlm Hsm].
  destruct (sd_node _ _ Hs _ _ Hi) as (_ & _ & [_ [[Hok _] _] _ _ _]).
  pose proof Hok as (Hwm & Hsn & Hcm & _).
  split_and!; [done|exact Hwm|done| |].
  - change (p_log (node_persistent (rt_node rt))) with (log (core (rt_node rt))).
    destruct (N.eq_0_gt_0_cases (last_index (log (core (rt_node rt))))) as [->|Hpos]; [done|].
    destruct (proj2 (get_is_Some _ (last_index (log (core (rt_node rt)))) Hwm)) as [e He]; [lia|].
    by eapply mc_room, Hlm.
  - change (p_log (node_persistent (rt_node rt))) with (log (core (rt_node rt))).
    split; [split_and!; congruence|]. intros j e1 e2 H1 H2 Heq.
    eapply (linked_agree E); [apply Hch|by split_and!|exact Hok|done|done|exact H1|exact H2|done].
Qed.

(** C10. Every save can be recovered: whatever a node of a cluster of at least two members
    has in memory after an action, and so whatever the action asks the store to save,
    may follow what was on its disk before in the sense of [Store.successor], and
    replaying the delta record the store writes for it on the old disk gives back
    exactly that state.  Late calls on failed runtimes are included. *)
Theorem saves_are_successors {St Out : Type} (apply_command : Command -> St -> St * Out)
    (initial_state : St) cfgs s a s' rt rt'
    (Hmembers : same_members cfgs) (Hmulti : (2 <= size (dom cfgs))%nat)
    (Hreach : reachable apply_command initial_state cfgs s)
    (Hex : exec apply_command initial_state s a = Some s')
    (Hrt : nodes s !! actor a = Some rt) (Hrt' : nodes s' !! actor a = Some rt') :
  successor (rt_durable rt) (node_persistent (rt_node rt')) /\
  apply_delta (rt_durable rt) (make_delta (rt_durable rt) (node_persistent (rt_node rt'))) =
    Ok (node_persistent (rt_node rt')).
Proof.
  enough (successor (rt_durable rt) (node_persistent (rt_node rt'))) as Hsu
    by (split; [done|by apply apply_make_delta]).
  destruct (reachable_invariant _ _ _ Hmembers Hmulti _ Hreach) as (B & L & E & Hs & Hel & Hch).
  destruct (exec_contract _ _ _ _ _ _ Hs Hex) as (rt0 & rt1 & out & Hrt0 & -> & Hres & Hop).
  assert (rt0 = rt) as -> by congruence. simpl in Hrt'. rewrite lookup_insert_eq in Hrt'.
  injection Hrt' as ->. pose proof (sd_node _ _ Hs _ _ Hrt) as (_ & _ & Hcn).
  pose proof (op_result_memory _ _ _ _ _ _ _ _ Hcn Hres) as Hmo.
  destruct (chains_op _ Hmembers Hmulti _ _ _ _ Hs Hel Hch _ _ _ _ Hrt Hop Hmo) as (E' & Hch' & HE).
  pose proof (sound_op _ _ _ _ _ _ Hs Hrt Hop) as Hs'.
  destruct (mc_disk _ _ _ Hch _ _ Hrt) as [Hld Hst]. destruct (cn_disk _ _ Hcn) as [Hlok _].
  eapply (chains_successor E' cfgs _ _ (actor a) rt');
    [exact Hch'|exact Hs'|apply lookup_insert_eq|done|by eapply linked_mono|done|done|].
  destruct (bo_disk _ _ _ _ _ _ Hop) as [Hd _]. destruct (bo_node _ _ _ _ _ _ Hop) as [_ _ _ [Hah _] _].
  change (p_term (node_persistent (rt_node rt'))) with (term (core (rt_node rt'))). lia.
Qed.

Lemma log_matching_witness :
  exists (s : Cluster (list Command)) rta rtb,
    nodes s !! 1 = Some rta /\ nodes s !! 2 = Some rtb /\
    get (p_log (rt_durable rta)) 1 = get (p_log (rt_durable rtb)) 1.
Proof.
  set (e := mkEntry 1 1 (CommandPayload [Byte.x61])).
  destruct (run_checks_reachable journal [] trio replicate_1
    (fun s => bool_decide (on_disk s 1 1 = Some e) && bool_decide (on_disk s 2 1 = Some e)))
    as (s & Hreach & Hs); [vm_compute; reflexivity|].
  apply andb_true_iff in Hs as [H1 H2].
  apply bool_decide_eq_true, on_disk_Some in H1 as (rta & Ha & Hea).
  apply bool_decide_eq_true, on_disk_Some in H2 as (rtb & Hb & Heb).
  exists s, rta, rtb. split; [exact Ha|]. split; [exact Hb|].
  apply (log_matching journal [] trio s 1 2 rta rtb 1 e e trio_members Hreach Ha Hb Hea Heb eq_refl).
  reflexivity.
Defined.

(** Node 2 of [replicate_1] stores the entry with the last action. *)
Lemma saves_are_successors_witness :
  exists (s s' : Cluster (list Command)) rt rt',
    nodes s !! 2 = Some rt /\ nodes s' !! 2 = Some rt' /\
    last_index (p_log (rt_durable rt)) = 0 /\ last_index (log (core (rt_node rt'))) = 1 /\
    apply_delta (rt_durable rt) (make_delta (rt_durable rt) (node_persistent (rt_node rt'))) =
      Ok (node_persistent (rt_node rt')).
Proof.
  destruct (run_checks_reachable journal [] trio (elect_1 ++ [APropose 1 [Byte.x61] true])
    (fun s => match nodes s !! 2, exec journal [] s (deliver 2 9) with
              | Some rt, Some s' => (last_index (p_log (rt_durable rt)) =? 0) &&
                  match nodes s' !! 2 with
                  | Some rt' => last_index (log (core (rt_node rt'))) =? 1 | None => false end
              | _, _ => false end))
    as (s & Hreach & Hs); [vm_compute; reflexivity|].
  destruct (nodes s !! 2) as [rt|] eqn:Hrt; [|discriminate].
  destruct (exec journal [] s (deliver 2 9)) as [s'|] eqn:Hex; [|discriminate].
  apply andb_true_iff in Hs as [H0 Hs]. destruct (nodes s' !! 2) as [rt'|] eqn:Hrt'; [|discriminate].
  exists s, s', rt, rt'. split; [exact Hrt|]. split; [exact Hrt'|].
  split; [by apply N.eqb_eq|]. split; [by apply N.eqb_eq|].
  apply (saves_are_successors journal [] trio s (deliver 2 9) s' rt rt' trio_members
    ltac:(vm_compute; lia) Hreach Hex Hrt Hrt').
Defined.
