(* ===== verification/Commitment.v ===== *)
(** * Commitment: when committed entries are final

    In Raft an entry that a leader commits is in the log of every later leader, so
    the nodes never apply different commands at an index.  [Divergence] shows that
    this fails for the code, because a follower acknowledges its whole log, entries
    after those of the request included.  Here the property is proved for the
    executions in which this does not happen: a follower that acknowledges a request
    has a log that ends where the request ends or in an entry of the leader's term
    ([tidy]).

    The proof records, next to the ballots [B] and the leaders [L] of [Cluster] and
    the writes [E] of [LogMatching]: the log [G] each leader started with and the
    entries [K] a node stored during the term they were written in. *)

From S2P Require Import Prelude.
From S2P Require Import Types.
From S2P Require Import Membership.
From S2P Require Import Log.
From S2P Require Import Event.
From S2P Require Import Core.
From S2P Require Import Follower.
From S2P Require Import Candidate.
From S2P Require Import Leader.
From S2P Require Import Node.
From S2P Require Import HardState.
From S2P Require Import Static.
From S2P Require Import Progress.
From S2P Require Import Settings.
From S2P Require Import Runtime.
From S2P Require Import Cluster.
From S2P Require Import LogMatching.

(** ** The contract of an operation, seen from commitment *)

(** A log that ends in [lt] at [li] is at least as recent as [l]. *)
Definition recent (l : Log) (lt li : N) : Prop :=
  last_term l < lt \/ (last_term l = lt /\ last_index l <= li).

Lemma log_is_up_to_date_recent c lt li : log_is_up_to_date c lt li = true -> recent (log c) lt li.
Proof.
  unfold log_is_up_to_date, recent. rewrite orb_true_iff, andb_true_iff.
  rewrite N.ltb_lt, N.eqb_eq, N.leb_le. tauto.
Qed.

Section Contract.

Context {St Out : Type} (apply_command : Command -> St -> St * Out) (initial_state : St).
Context (boot : Configuration).
Implicit Types (rt : RaftRuntime St).

Abbreviation dlog rt := (p_log (rt_durable rt)).
Abbreviation dterm rt := (p_term (rt_durable rt)).
Abbreviation dvote rt := (voted_for (rt_durable rt)).
Abbreviation ci rt := (commit_index (core (rt_node rt))).

(** The node merged the request in [m], sent in its term. *)
Definition accepted (m : Message) (req : AppendRequest) rt rt' : Prop :=
  msg_payload m = AppendReq req /\ msg_term m = dterm rt' /\ consistent (dlog rt) req = true /\
  dlog rt' = fst (append_entries (dlog rt) (ar_entries req)).

(** A positive acknowledgement of the whole log. *)
Definition acks rt' (m : Message) : Prop :=
  msg_term m = dterm rt' /\ msg_payload m = AppendResp (mkAppendResponse true (last_index (dlog rt'))).

(** The commit index is at an entry of the term that a quorum matches. *)
Definition commits_at rt' (l : Leader) : Prop :=
  role (rt_node rt') = RLeader l /\ ci rt' <= last_index (dlog rt') /\
  term_at (dlog rt') (ci rt') = dterm rt' /\ quorum_at l boot (ci rt') = true.

(** The node is healthy, or it was when it sent [out] as a leader. *)
Definition live rt' (out : list Message) : Prop :=
  rt_failed rt' = false \/ (is_leader (rt_node rt') = true /\ out <> []).

Record commit_op (i : N) (net : list Message) (om : option Message) rt rt' (out : list Message)
    : Prop := mkCommitOp {
  co_sends : forall m, m ∈ out -> msg_from m = i /\
     (quiet_message m = true \/
      (is_leader (rt_node rt') = true /\ msg_term m = dterm rt' /\
       exists r, msg_payload m = AppendReq r /\ ar_leader_commit r = ci rt') \/
      (dterm rt < dterm rt' /\ msg_term m = dterm rt' /\
       msg_payload m = VoteReq (mkVoteRequest (last_index (dlog rt')) (last_term (dlog rt')))) \/
      (acks rt' m /\ exists m0 r, om = Some m0 /\ m0 ∈ net /\ accepted m0 r rt rt'));
  co_log : dlog rt' = dlog rt \/
     (exists m0 r, om = Some m0 /\ m0 ∈ net /\ accepted m0 r rt rt' /\
        role_is_follower (role (rt_node rt')) = true) \/
     (dterm rt' = dterm rt /\ rt_failed rt = false /\ is_leader (rt_node rt) = true /\
      exists p, last_index (dlog rt) + 2 < two64 /\
        dlog rt' = append (dlog rt) (mkEntry (dterm rt) (last_index (dlog rt) + 1) p));
  co_vote : forall k, dvote rt' = Some k ->
     (dterm rt' = dterm rt /\ dvote rt = Some k) \/
     (dlog rt' = dlog rt /\
      ((k = i /\ dterm rt < dterm rt') \/
       exists m r, m ∈ net /\ msg_from m = k /\ msg_term m = dterm rt' /\ msg_payload m = VoteReq r /\
         recent (dlog rt) (vr_last_log_term r) (vr_last_log_index r)));
  co_commit : live rt' out ->
     ci rt' = 0 \/ (rt_failed rt = false /\ ci rt' = ci rt) \/
     (exists m0 r, om = Some m0 /\ m0 ∈ net /\ accepted m0 r rt rt' /\
        (exists m, m ∈ out /\ acks rt' m) /\
        ci rt' = N.min (ar_leader_commit r) (last_index (dlog rt'))) \/
     (exists l, commits_at rt' l);
  co_match : live rt' out -> forall l, role (rt_node rt') = RLeader l -> forall v,
     match_of l v = 0 \/ (v = i /\ match_of l v = last_index (dlog rt')) \/
     (rt_failed rt = false /\ dterm rt' = dterm rt /\
      exists l0, role (rt_node rt) = RLeader l0 /\
        (match_of l v = match_of l0 v \/
         exists m r, m ∈ net /\ msg_payload m = AppendResp r /\ aresp_success r = true /\
           msg_from m = v /\ msg_term m = dterm rt' /\ match_of l v = aresp_last_log_index r))
}.

Lemma not_live rt' : rt_failed rt' = true -> ~ live rt' [].
Proof. intros Hf [?|[_ ?]]; congruence. Qed.

(** Operations that send nothing and keep what is stored. *)
Lemma commit_op_kept i net om rt rt' :
  rt_durable rt' = rt_durable rt ->
  (live rt' [] -> ci rt' = 0 /\ is_leader (rt_node rt') = false \/
     rt_failed rt = false /\ rt_node rt' = rt_node rt) ->
  commit_op i net om rt rt' [].
Proof.
  intros Hd Hlive. split.
  - intros m Hm. inversion Hm.
  - left. by rewrite Hd.
  - intros k Hk. left. by rewrite <- Hd.
  - intros [[H0 _]|[Hf Hn]]%Hlive; [by left|]. right. left. by rewrite Hn.
  - intros [[_ Hl]|[Hf Hn]]%Hlive l Hr v; [unfold is_leader in Hl; by rewrite Hr in Hl|].
    right. right. rewrite Hd. split_and!; [done|done|]. exists l. rewrite <- Hn. split; [done|by left].
Qed.

(** What is stored when the disk holds the state of a node. *)
Lemma stored_fields rt n :
  rt_durable rt = node_persistent n ->
  dlog rt = log (core n) /\ dterm rt = term (core n) /\ dvote rt = vote (core n).
Proof. by intros ->. Qed.

(** A request that the automaton accepted, in terms of the disk. *)
Lemma accepts_stored (net : list Message) m0 rt rt' n' :
  m0 ∈ net -> rt_durable rt = node_persistent (rt_node rt) -> rt_durable rt' = node_persistent n' ->
  accepts (core (rt_node rt)) m0 (core n') ->
  exists r, m0 ∈ net /\ accepted m0 r rt rt' /\
    commit_index (core n') = (if ci rt <? ar_leader_commit r
      then N.min (ar_leader_commit r) (last_index (dlog rt')) else ci rt).
Proof.
  intros Hin (Hdl & _)%stored_fields (Hdl' & Hdt' & _)%stored_fields (req & Hp & Hco & Hlg & Ht & _ & Hcm).
  exists req. unfold accepted. rewrite Hdl, Hdl', Hdt'. split_and!; auto.
Qed.

(** A step of the automaton that reached the disk. *)
Lemma commit_op_step i net om rt rt' n' e out :
  synced boot rt -> rt_failed rt = false -> nc_node_id (rt_config rt) = i ->
  (forall m, om = Some m -> m ∈ net) -> node_ok (rt_node rt) n' e ->
  node_ok_static n' -> progress (rt_node rt) om n' e ->
  rt_durable rt' = node_persistent n' -> same_but_applied n' (rt_node rt') ->
  (forall m, m ∈ out -> m ∈ messages e) -> (rt_failed rt' = false -> out = messages e) ->
  commit_op i net om rt rt' out.
Proof.
  intros (_ & Hb & Hsync) Hf Hi Hnet Hnok Hns' [Hs Hl Hv Hc _ Hm] Hd [Hrole [la Hcore]] Hsub Hall.
  destruct (Hsync Hf) as (_ & Hper & Hid).
  destruct (stored_fields _ _ (eq_sym Hper)) as (Hdl & Hdt & Hdv).
  destruct (stored_fields _ _ Hd) as (Hdl' & Hdt' & Hdv').
  assert (ci rt' = commit_index (core n')) as Hci by (by rewrite Hcore).
  assert (is_leader (rt_node rt') = is_leader n') as Hlead by (unfold is_leader; by rewrite Hrole).
  assert (id (core n') = i) as Hidn.
  { rewrite (id_same _ _ (no_identity _ _ _ Hnok)). congruence. }
  pose proof (fun m0 Hm0 => accepts_stored net m0 rt rt' n' (Hnet m0 Hm0) (eq_sym Hper) Hd) as Hacc.
  split; unfold acks, commits_at; rewrite ?Hci, ?Hdt, ?Hdt', ?Hdv', ?Hdl'.
  - intros m Hin. specialize (Hsub m Hin). split.
    + rewrite (no_from _ _ _ Hnok m Hsub). by rewrite <- (id_same _ _ (no_identity _ _ _ Hnok)).
    + rewrite Hlead. destruct (Hs m Hsub) as [?|[[Hld [?|(r & Hp & Ht & Hcm)]]|[[Hlt [Hp Ht]]|(m0 & Hm0 & Ha & ->)]]].
      * by left.
      * by left.
      * right. left. split_and!; [done|done|]. by exists r.
      * right. right. left. done.
      * right. right. right. split; [done|]. destruct (Hacc _ Hm0 Ha) as (r & ? & ? & _).
        by exists m0, r.
  - rewrite Hdl. destruct Hl as [?|(m0 & Hm0 & Ha & Hfo)]; [by left|]. right. left.
    destruct (Hacc _ Hm0 Ha) as (r & ? & ? & _). exists m0, r. by rewrite Hrole.
  - intros k Hk. rewrite Hdv, Hdl. destruct (Hv k Hk) as [?|[Hlg [[-> ?]|(m & Hom & Hfr & req & Hp & Ht & _ & _ & _ & _ & Hup)]]].
    + by left.
    + right. split; [done|]. left. split; [|done]. by rewrite <- (id_same _ _ (no_identity _ _ _ Hnok)).
    + right. split; [done|]. right. exists m, req. split_and!; auto.
      by apply log_is_up_to_date_recent.
  - intros Hlive. destruct Hc as [Hc|[(m0 & Hm0 & Ha & Hnl & Hin)|(_ & l & Hr & Hle & Hcm)]].
    + right. left. done.
    + destruct Hlive as [Hh|[Hld _]]; [|congruence]. rewrite (Hall Hh).
      destruct (Hacc _ Hm0 Ha) as (r & H1 & H2 & H3).
      destruct (N.ltb_spec (ci rt) (ar_leader_commit r)); [|right; left; by rewrite H3].
      right. right. left. exists m0, r. rewrite <- Hdl'. split_and!; auto.
      eexists. split; [exact Hin|]. unfold append_response. simpl. by rewrite Hdl'.
    + right. right. right. exists l. rewrite Hrole. unfold committable in Hcm. unbool.
      rewrite effective_config_static in * by apply Hns'.
      assert (bootstrap_config (persistent (core n')) = boot) as <-.
      { destruct (no_identity _ _ _ Hnok) as [_ ->]. unfold node_persistent in Hper. congruence. }
      done.
  - intros _ l Hr v. rewrite Hrole in Hr. destruct (Hm l Hr) as [Hfm|(l0 & Hr0 & Ht & Hstep)].
    + destruct (Hfm v) as [?|[-> ?]]; [by left|]. right. left. done.
    + right. right. split_and!; [done|done|]. exists l0. split; [done|].
      destruct (Hstep v) as [?|(m & r & Hom & Hp & Hsu & Hfr & Htm & Hx)]; [by left|right].
      exists m, r. split_and!; auto. congruence.
Qed.

(** A proposal that reached the disk. *)
Lemma commit_op_propose i net om rt rt' cmd idx n' e out :
  synced boot rt -> rt_failed rt = false -> nc_node_id (rt_config rt) = i ->
  last_index (log (core (rt_node rt))) + 2 < two64 ->
  Node.propose (rt_node rt) cmd = Some (n', Ok (idx, e)) ->
  rt_durable rt' = node_persistent n' -> same_but_applied n' (rt_node rt') ->
  (forall m, m ∈ out -> m ∈ messages e) -> commit_op i net om rt rt' out.
Proof.
  intros (_ & Hb & Hsync) Hf Hi Hroom Hp Hd [Hrole [la Hcore]] Hsub.
  destruct (Hsync Hf) as (Hns & Hper & Hid).
  destruct (node_propose_progress _ _ _ _ _ Hns ltac:(lia) Hp) as (l & l' & Hr & Hr' & Hs & _ & Hc & Hm).
  destruct (node_propose_hard _ _ _ _ _ Hp) as [([Hidn Hh] & Hpl & Hlead & _) _].
  destruct (node_propose_static _ _ _ _ _ Hns ltac:(lia) Hp) as ([Hl' _] & _ & Hidx & Hlog).
  injection Hh as Htm Hvt.
  destruct (stored_fields _ _ (eq_sym Hper)) as (Hdl & Hdt & Hdv).
  destruct (stored_fields _ _ Hd) as (Hdl' & Hdt' & Hdv').
  assert (ci rt' = commit_index (core n')) as Hci by (by rewrite Hcore).
  assert (is_leader (rt_node rt') = true) as Hlead' by (unfold is_leader; by rewrite Hrole, Hr').
  split; unfold acks, commits_at; rewrite ?Hci, ?Hdt, ?Hdt', ?Hdv', ?Hdl'.
  - intros m Hin. specialize (Hsub m Hin). split; [rewrite (proj1 (Hpl m Hsub)); congruence|].
    destruct (Hs m Hsub) as [?|(r & Hpy & Ht & Hcm)]; [by left|right; left].
    split_and!; [done|done|]. by exists r.
  - right. right. split_and!; [done|done|done|]. exists (CommandPayload cmd).
    rewrite Hdl, Hlog, Hidx. done.
  - intros k Hk. left. rewrite Hdv. split; congruence.
  - intros _. destruct Hc as [Hc|(_ & Hle & Hcm)]; [right; left; done|right; right; right].
    exists l'. rewrite Hrole. unfold committable in Hcm. unbool.
    rewrite effective_config_static in * by done.
    assert (bootstrap_config (persistent (core n')) = boot) as <-.
    { destruct Hidn as [_ ->]. unfold node_persistent in Hper. congruence. }
    done.
  - intros _ l1 Hl1 v. rewrite Hrole, Hr' in Hl1. injection Hl1 as <-.
    destruct (Hm v) as [?|[-> ?]].
    + right. right. split_and!; [done|done|]. exists l. split; [done|by left].
    + right. left. split; [|done]. rewrite (id_same _ _ Hidn). congruence.
Qed.

Lemma runtime_op_commit i net om rt rt' out :
  synced boot rt -> nc_node_id (rt_config rt) = i ->
  runtime_op apply_command initial_state true i net om rt rt' out -> commit_op i net om rt rt' out.
Proof.
  intros Hsy Hi Hop. destruct (runtime_op_end _ _ _ _ _ _ _ _ _ Hsy Hop) as [_ Hend].
  destruct Hend as [Hd Hf Hn _|Hd Hf|n' e out Hf Hmv Hd Hsame Hsub Hall|Ho].
  - apply commit_op_kept; [done|]. intros [Hh|[_ ?]]; [|done]. right. split; [congruence|done].
  - apply commit_op_kept; [done|]. by intros ?%not_live.
  - pose proof Hsy as (_ & _ & Hsync). destruct (Hsync Hf) as (Hns & _).
    destruct (node_move_static _ _ _ _ _ _ Hns Hmv) as (Hns' & _).
    destruct Hmv as [(Hok & Hov & Hs & Hnet)|(cmd & idx & Hroom & Hp)];
      [|by eapply commit_op_propose].
    eapply commit_op_step; [done|done|done| |by eapply step_event_ok|done| |done|done|done|].
    + intros m Hm. by apply Hnet.
    + eapply step_event_progress; [done| |done|done]. intros m ->. exact Hok.
    + intros Hh. by apply Hall.
  - apply open_Ok in Ho as (_ & Hd & Hf & Hn & _). apply commit_op_kept; [done|]. intros _. left.
    rewrite Hn. unfold restore. destruct (Follower.new _ _) as [c f] eqn:E.
    apply follower_new_core in E. by subst c.
Qed.

End Contract.

(** ** Chains of leaders *)

Definition has (l : Log) (i t : N) : Prop := exists e, get l i = Some e /\ e_term e = t.

Lemma has_term l i t : snapshot_index l = 0 -> 1 <= t -> has l i t <-> term_at l i = t.
Proof.
  intros Hs Ht. rewrite term_at_lookup by done. unfold has. destruct (get l i) as [e|]; simpl.
  - split; [intros (? & ? & ?); congruence|eauto].
  - split; [naive_solver|lia].
Qed.

Lemma has_dec l i t : has l i t \/ ~ has l i t.
Proof.
  unfold has. destruct (get l i) as [e|]; [|right; naive_solver].
  destruct (N.eq_dec (e_term e) t); [left; eauto|right; naive_solver].
Qed.

Lemma has_range l i t : log_ok l -> has l i t -> 1 <= i <= last_index l.
Proof.
  intros (Hwf & Hs & _) (e & He & _). pose proof (proj1 (get_is_Some l i Hwf) ltac:(eauto)). lia.
Qed.

Lemma has_at l i : log_ok l -> 1 <= i <= last_index l -> exists t, has l i t.
Proof.
  intros (Hwf & Hs & _) Hi. destruct (proj2 (get_is_Some l i Hwf)) as [e He]; [lia|].
  exists (e_term e), e. done.
Qed.

Lemma has_agree l l' i t : get l i = get l' i -> has l i t -> has l' i t.
Proof. unfold has. by intros ->. Qed.

Lemma has_unique l i t t' : has l i t -> has l i t' -> t = t'.
Proof. intros (? & ? & ?) (? & ? & ?). congruence. Qed.

(** [l] is a prefix of [l']. *)
Definition prefix_log (l l' : Log) : Prop := forall k, k <= last_index l -> get l k = get l' k.

Section Leaders.

Context (E : Writes) (G : N -> Log -> Prop).

(** [G t l]: the leader of term [t] started with the log [l].  Its writes follow
    that log, one after the other. *)
Record chains : Prop := mkChains {
  ch_once : writes_once E;
  ch_base_once : forall t l l', G t l -> G t l' -> l = l';
  ch_base : forall t l, G t l -> log_ok l /\ linked E l;
  ch_plain : forall t l, G t l -> snapshot_term l = 0;
  ch_older : forall t l i u, G t l -> has l i u -> u < t;
  ch_write : forall i t p q, E i t p q -> exists l, G t l /\ last_index l < i /\
     q = (if i =? last_index l + 1 then term_at l (last_index l) else t) /\ i + 1 < two64
}.

Context (Hch : chains).

Lemma write_after i t p q : E i t p q -> q <= t.
Proof.
  intros (l & Hg & Hi & -> & _)%(ch_write Hch). case_match; [|lia].
  destruct (ch_base Hch _ _ Hg) as [Hok _].
  destruct (N.eq_0_gt_0_cases (last_index l)) as [H0|Hpos].
  - rewrite H0, term_at_lookup by apply Hok. rewrite get_None_below by lia. simpl. lia.
  - destruct (has_at l (last_index l) Hok) as [u Hu]; [lia|].
    pose proof (ch_older Hch _ _ _ _ Hg Hu). destruct Hu as (e & He & <-).
    rewrite (term_at_get _ _ _ He). lia.
Qed.

Lemma linked_has l i t : linked E l -> has l i t -> exists p, E i t p (prev_term l i).
Proof. intros Hl (e & He & <-). eexists. by apply Hl. Qed.

Lemma has_written l i t : linked E l -> has l i t -> exists b, G t b /\ last_index b < i.
Proof.
  intros Hl Hh. destruct (linked_has _ _ _ Hl Hh) as [p HE].
  apply (ch_write Hch) in HE as (b & ? & ? & _). eauto.
Qed.

(** No log reaches the index [u64::MAX]. *)
Lemma linked_room l : log_ok l -> linked E l -> last_index l + 1 < two64.
Proof.
  intros Hok Hl. destruct (N.eq_0_gt_0_cases (last_index l)) as [->|Hpos]; [done|].
  destruct (has_at l (last_index l) Hok) as [t Ht]; [lia|].
  destruct (linked_has _ _ _ Hl Ht) as [p HE]. by apply (ch_write Hch) in HE as (b & _ & _ & _ & ?).
Qed.

Lemma has_agree_below la lb i t :
  log_ok la -> linked E la -> log_ok lb -> linked E lb -> has la i t -> has lb i t ->
  forall k, k <= i -> get la k = get lb k.
Proof.
  intros Ha Hla Hb Hlb (ea & Hea & Hta) (eb & Heb & Htb).
  eapply (linked_agree E); [apply Hch|done..|congruence].
Qed.

(** The term of the entry before one of term [t]. *)
Lemma prev_has l i t : log_ok l -> has l i t -> 1 < i -> has l (i - 1) (prev_term l i).
Proof.
  intros Hok Hh Hi. pose proof (has_range _ _ _ Hok Hh).
  destruct (has_at l (i - 1) Hok) as [u (e & He & Hu)]; [lia|]. exists e. split; [done|].
  unfold prev_term. by rewrite He.
Qed.

(** Terms grow along a chain. *)
Lemma has_monotone l i k t u :
  log_ok l -> linked E l -> has l i t -> has l k u -> k <= i -> u <= t.
Proof.
  intros Hok Hl. revert t. induction i as [|i IH] using N.peano_ind; intros t Hi Hk Hle.
  { apply has_range in Hi; [lia|done]. }
  destruct (N.eq_dec k (N.succ i)) as [-> | Hne].
  { by rewrite (has_unique _ _ _ _ Hi Hk). }
  destruct (linked_has _ _ _ Hl Hi) as [p HE%write_after].
  apply has_range in Hk as Hkr; [|done].
  pose proof (prev_has _ _ _ Hok Hi ltac:(lia)) as Hprev.
  replace (N.succ i - 1) with i in Hprev by lia. etrans; [|exact HE]. apply IH; [done|done|lia].
Qed.

(** A chain that holds an entry of term [t] holds the whole log the leader of [t]
    started with, and after it only entries of [t]. *)
Lemma chain_base l i t b :
  log_ok l -> linked E l -> has l i t -> G t b ->
  last_index b < i /\ (forall k, k <= last_index b -> get b k = get l k) /\
  (forall k, last_index b < k <= i -> has l k t).
Proof.
  intros Hok Hl Hi Hg. revert Hi. induction i as [|i IH] using N.peano_ind; intros Hi.
  { apply has_range in Hi; [lia|done]. }
  destruct (linked_has _ _ _ Hl Hi) as [p HE]. apply (ch_write Hch) in HE as (b' & Hg' & Hb & Hq & _).
  assert (b' = b) as -> by (by eapply ch_base_once). destruct (ch_base Hch _ _ Hg) as [Hokb Hlb].
  split; [done|]. destruct (N.eqb_spec (N.succ i) (last_index b + 1)) as [Heq|Hne].
  - split; [|intros k Hk; by replace k with (N.succ i) by lia].
    destruct (N.eq_0_gt_0_cases (last_index b)) as [H0|Hpos].
    { intros k Hk. replace k with 0 by lia. by rewrite !get_None_below by lia. }
    pose proof (prev_has _ _ _ Hok Hi ltac:(lia)) as Hprev. rewrite Hq in Hprev.
    destruct (has_at b (last_index b) Hokb) as [u Hu]; [lia|].
    destruct Hu as (e & He & Hu). rewrite (term_at_get _ _ _ He) in Hprev.
    replace (N.succ i - 1) with (last_index b) in Hprev by lia.
    eapply has_agree_below; [done..| |exact Hprev]. exists e. split; [done|congruence].
  - pose proof (prev_has _ _ _ Hok Hi ltac:(lia)) as Hprev. rewrite Hq in Hprev.
    replace (N.succ i - 1) with i in Hprev by lia. destruct (IH Hprev) as (_ & H1 & H2).
    split; [done|]. intros k Hk. destruct (N.eq_dec k (N.succ i)) as [-> | ?]; [done|].
    apply H2. lia.
Qed.

(** The log of a leader of term [t] at some time of its reign. *)
Definition leader_log (t : N) (l : Log) : Prop :=
  log_ok l /\ linked E l /\ exists b, G t b /\ prefix_log b l /\ last_index b <= last_index l /\
    forall k, last_index b < k <= last_index l -> has l k t.

(** It agrees with every chain that has an entry of its term, as far as both go. *)
Lemma leader_log_meets t l z c :
  leader_log t l -> log_ok z -> linked E z -> has z c t ->
  forall k, k <= c -> k <= last_index l -> get l k = get z k.
Proof.
  intros (Hok & Hl & b & Hg & Hpre & Hle & Hab) Hz Hlz Hc k Hkc Hkl.
  destruct (chain_base z c t b Hz Hlz Hc Hg) as (Hbc & Hzb & Hzt).
  destruct (N.le_gt_cases k (last_index b)) as [Hk|Hk].
  - rewrite <- Hzb by done. symmetry. by apply Hpre.
  - eapply has_agree_below; [done|done|exact Hz|done|apply (Hab k); lia|apply Hzt; lia|lia].
Qed.

(** ** Merging a request into a log *)

Section Merge.

Context (x l : Log) (r : AppendRequest).
Context (Hx : log_ok x) (Hl : log_ok l) (Hr : request_ok r) (Hex : excerpt x r).
Context (Hco : consistent l r = true).

#[local] Abbreviation l' := (fst (append_entries l (ar_entries r))).

(** What agrees with the sender's log survives. *)
Lemma merge_keeps i :
  (forall k, k <= i -> k <= last_index x -> get x k = get l k) ->
  forall k, k <= i -> get l' k = get l k.
Proof using Hx Hl Hr Hex Hco.
  intros Hag k Hk. destruct (ar_entries r) as [|e0 es0] eqn:E0; [done|].
  assert (ar_entries r <> []) as Hne by (by rewrite E0). rewrite <- E0.
  pose proof (request_append_pre _ _ Hl Hr Hco Hne) as Hpre.
  rewrite (append_entries_eq _ _ _ Hpre). simpl.
  destruct (merge_entries_cases _ _ _ Hpre)
    as [[_ ->] | (_ & es1 & e & es2 & Hes & _ & Hdiff & Hb & Hi & Hcont & ->)]; [done|].
  rewrite splice_get by (apply Hl || done).
  destruct (N.leb_spec k (e_index e - 1)) as [Hle|Hgt]; [done|]. destruct Hdiff.
  assert (e ∈ entries x) as Hin.
  { apply Hex. rewrite Hes. apply elem_of_app. right. by left. }
  apply get_entry in Hin; [|apply Hx].
  pose proof (has_range x (e_index e) (e_term e) Hx ltac:(by exists e)).
  apply term_at_get. rewrite <- Hag by lia. done.
Qed.

(** If the merged log ends where the request ends, it is a prefix of the sender's. *)
Lemma merge_ends :
  linked E x -> linked E l' -> log_ok l' ->
  last_index l' = ar_prev_log_index r + N.of_nat (length (ar_entries r)) ->
  last_index l' <= last_index x /\ forall k, k <= last_index l' -> get l' k = get x k.
Proof using All.
  intros Hlx Hll Hok' Hlast.
  destruct (N.eq_0_gt_0_cases (last_index l')) as [H0|Hpos].
  { rewrite H0. split; [lia|]. intros k Hk. replace k with 0 by lia. by rewrite !get_None_below by lia. }
  assert (exists u, has x (last_index l') u /\ has l' (last_index l') u) as (u & Hux & Hul).
  { destruct (ar_entries r) as [|e0 es0] eqn:E0.
    - simpl in *. rewrite N.add_0_r in Hlast. destruct (has_at l (last_index l) Hl) as [u Hu]; [lia|].
      exists u. split; [|done]. rewrite Hlast in *.
      unfold consistent in Hco. rewrite (proj2 (N.ltb_lt _ _) Hpos) in Hco. simpl in Hco.
      apply negb_true_iff, negb_false_iff, N.eqb_eq in Hco. destruct Hex as (_ & _ & Ht).
      assert (1 <= u) as Hu1.
      { destruct Hl as (Hwf & _ & _ & He), Hu as (e & Hg & <-). apply get_elem in Hg.
        rewrite Forall_forall in He. by destruct (He e Hg) as (_ & ? & _). }
      apply has_term; [apply Hx|done|]. rewrite <- Ht, <- Hco. by apply has_term; [apply Hl|..].
    - assert (ar_entries r <> []) as Hne by (by rewrite E0). rewrite <- E0 in *.
      pose proof (request_append_pre _ _ Hl Hr Hco Hne) as Hpre.
      destruct (lookup_lt_is_Some_2 (ar_entries r) (length (ar_entries r) - 1)) as [e He].
      { rewrite E0. simpl. lia. }
      assert (e ∈ ar_entries r) as Hin by (by eapply list_elem_of_lookup_2).
      assert (e_index e = last_index l') as Hei.
      { rewrite (proj1 Hr _ _ He), Hlast, E0. simpl. lia. }
      exists (e_term e). rewrite <- Hei at 1. rewrite <- Hei. split.
      + exists e. split; [|done]. apply get_entry; [apply Hx|]. by apply Hex.
      + destruct (merge_entries_has _ _ _ Hpre e Hin) as (e' & Hg & Ht).
        exists e'. split; [|done]. by rewrite (append_entries_eq _ _ _ Hpre). }
  pose proof (has_range _ _ _ Hx Hux). split; [lia|].
  by eapply has_agree_below; [done| | | |exact Hul|].
Qed.

(** The log after an acknowledgement: it ends where the request ends, or in an entry
    of the leader's term. *)
Definition tidy_log (t : N) : Prop :=
  last_index l' = ar_prev_log_index r + N.of_nat (length (ar_entries r)) \/ last_term l' = t.

Lemma tidy_agrees t :
  leader_log t x -> linked E l' -> log_ok l' -> tidy_log t ->
  (last_index l' <= last_index x \/ has l' (last_index l') t) /\
  forall k, k <= last_index l' -> k <= last_index x -> get l' k = get x k.
Proof using All.
  intros Hlead Hll Hok' Htidy. pose proof Hlead as (_ & Hlx & _).
  destruct (N.eq_0_gt_0_cases (last_index l')) as [H0|Hpos].
  { rewrite H0. split; [left; lia|]. intros k Hk _. replace k with 0 by lia.
    by rewrite !get_None_below by lia. }
  destruct Htidy as [Hlast|Hterm].
  - destruct (merge_ends Hlx Hll Hok' Hlast) as [H1 H2]. split; [by left|auto].
  - rewrite last_term_at in Hterm by (apply Hok' || done).
    assert (has l' (last_index l') t) as Hh.
    { destruct (has_at _ _ Hok' ltac:(split; [|reflexivity]; lia)) as [u (e & He & Hu)].
      exists e. split; [done|]. by rewrite <- Hterm, (term_at_get _ _ _ He). }
    split; [by right|]. intros k Hk Hkx. symmetry. by eapply leader_log_meets.
Qed.

End Merge.

End Leaders.

(** ** Leader completeness *)

Lemma has_real l i t : log_ok l -> has l i t -> 1 <= t.
Proof.
  intros (_ & _ & _ & He) (e & Hg & <-). apply get_elem in Hg.
  rewrite Forall_forall in He. by destruct (He e Hg) as (_ & ? & _).
Qed.

Lemma has_last l : log_ok l -> 1 <= last_index l -> has l (last_index l) (last_term l).
Proof.
  intros Hok Hl. destruct (has_at l (last_index l) Hok) as [t (e & He & <-)]; [lia|].
  exists e. split; [done|]. rewrite last_term_at by (apply Hok || lia). by rewrite (term_at_get _ _ _ He).
Qed.

Section Completeness.

Context (cfgs : gmap N NodeConfig) (E : Writes) (G : N -> Log -> Prop).
Context (K : N -> N -> N -> Prop).

(** A set of nodes that is a quorum of the cluster. *)
Definition majority (S : gset N) : Prop :=
  Membership.has_quorum (boot_config cfgs) (fun v => bool_decide (v ∈ S)) = true.

Lemma majorities_meet S1 S2 : majority S1 -> majority S2 -> exists v, v ∈ S1 /\ v ∈ S2.
Proof.
  intros H1 H2. destruct (quorums_overlap (boot_config cfgs) (boot_config cfgs) (dom cfgs) (dom cfgs)
    _ _ ltac:(by left) ltac:(by left) ltac:(by left) H1 H2) as (v & _ & _ & Hv1 & Hv2).
  unbool. eauto.
Qed.

Lemma quorum_majority (f : N -> bool) :
  Membership.has_quorum (boot_config cfgs) f = true ->
  exists S, majority S /\ forall v, v ∈ S -> f v = true.
Proof.
  intros Hq. exists (base.filter (fun v => f v = true) (dom cfgs)).
  split; [|intros v [Hv _]%elem_of_filter; done]. unfold majority, boot_config in *.
  rewrite has_quorum_simple in *. unfold count_votes in *.
  erewrite List.filter_ext_in; [exact Hq|]. intros v Hv%list_elem_of_In. simpl.
  rewrite elem_of_iter in Hv. destruct (f v) eqn:Ef.
  - apply bool_decide_eq_true. by apply elem_of_filter.
  - apply bool_decide_eq_false. rewrite elem_of_filter. intros [? _]. congruence.
Qed.

(** The entry at [c] was stored by a quorum during its term [t]. *)
Definition point (c t : N) : Prop := exists S, majority S /\ forall v, v ∈ S -> K v t c.

(** Some leader of a term above [u] and below [t] started without the entry. *)
Definition lost (u i t : N) : Prop :=
  exists w l, u < w < t /\ G w l /\ ~ has l i u.

Context (Hch : chains E G).
Context (Helected : forall t l, G t l -> exists S, majority S /\
  forall v, v ∈ S -> exists V, log_ok V /\ linked E V /\ recent V (last_term l) (last_index l) /\
    forall u i, K v u i -> u < t -> has V i u \/ lost u i t).

(** A log at least as recent as one that holds [(c, t)] holds it too, given that the
    leaders in between do. *)
Lemma recent_has V l T c t :
  log_ok V -> linked E V -> has V c t -> G T l -> recent V (last_term l) (last_index l) ->
  (forall w b, t < w < T -> G w b -> has b c t) -> has l c t.
Proof using Hch.
  intros HV HlV Hc Hg Hrec IH. destruct (ch_base _ _ Hch _ _ Hg) as [Hl Hll].
  pose proof (has_range _ _ _ HV Hc) as Hcr. pose proof (has_last V HV ltac:(lia)) as HlastV.
  pose proof (has_monotone _ _ Hch _ _ _ _ _ HV HlV HlastV Hc ltac:(lia)) as Hmono.
  pose proof (has_real _ _ _ HV Hc) as Ht1.
  assert (1 <= last_index l) as Hpos.
  { destruct (N.eq_0_gt_0_cases (last_index l)) as [H0|]; [|lia]. exfalso.
    assert (last_term l = 0) as Hz.
    { unfold last_term. destruct (last (entries l)) as [e|] eqn:El; [|by eapply ch_plain].
      apply last_Some_elem_of in El. apply get_entry in El; [|apply Hl].
      pose proof (has_range l (e_index e) _ Hl ltac:(by exists e)). lia. }
    destruct Hrec as [?|[? ?]]; lia. }
  pose proof (has_last l Hl Hpos) as Hlast.
  destruct (has_written _ _ Hch _ _ _ Hll Hlast) as (b & Hb & Hbl).
  destruct (chain_base _ _ Hch _ _ _ _ Hl Hll Hlast Hb) as (_ & Hpre & Hab).
  destruct Hrec as [Hlt|[Heq Hle]].
  - pose proof (ch_older _ _ Hch _ _ _ _ Hg Hlast).
    pose proof (IH _ _ ltac:(split; [|done]; lia) Hb) as Hbc.
    destruct (ch_base _ _ Hch _ _ Hb) as [Hokb _]. pose proof (has_range _ _ _ Hokb Hbc).
    eapply has_agree; [|exact Hbc]. apply Hpre. lia.
  - rewrite Heq in HlastV. destruct (has_written _ _ Hch _ _ _ HlV HlastV) as (b' & Hb' & Hlt).
    assert (b' = b) as -> by (by eapply ch_base_once).
    eapply has_agree; [|exact Hc].
    eapply (has_agree_below _ _ Hch V l); [done..|exact HlastV|apply Hab; lia|lia].
Qed.

(** Every later leader starts with the entries of a point. *)
Lemma leader_completeness c t :
  point c t -> forall T l, G T l -> t < T -> has l c t.
Proof using All.
  intros (S & HS & HK) T. induction T as [T IH] using (well_founded_induction N.lt_wf_0).
  intros l Hg Ht. destruct (Helected _ _ Hg) as (S' & HS' & HD).
  destruct (majorities_meet _ _ HS HS') as (v & Hv & Hv'). specialize (HK v Hv).
  destruct (HD v Hv') as (V & HV & HlV & Hrec & Hst).
  assert (forall w b, t < w < T -> G w b -> has b c t) as Hbetween.
  { intros w b [Hw1 Hw2] Hb. by apply (IH w Hw2). }
  destruct (Hst _ _ HK Ht) as [Hh|(w & b & Hw & Hb & Hno)]; [|by destruct Hno; apply (Hbetween w)].
  by eapply recent_has.
Qed.

(** The log of a leader agrees with a chain that ends in a point, of the leader's
    term or an earlier one, as far as both go. *)
Lemma leader_log_point c t z T l :
  point c t -> t <= T -> log_ok z -> linked E z -> has z c t -> leader_log E G T l ->
  forall k, k <= c -> k <= last_index l -> get l k = get z k.
Proof using All.
  intros Hp Ht Hz Hlz Hc Hlead k Hk Hkl.
  destruct (N.eq_dec t T) as [-> | Hne]; [by eapply (leader_log_meets E G Hch T l z c)|].
  destruct Hlead as (Hl & Hll & b & Hb & Hpre & _ & _).
  pose proof (leader_completeness c t Hp T b Hb ltac:(lia)) as Hbc.
  destruct (ch_base _ _ Hch _ _ Hb) as [Hokb _]. pose proof (has_range _ _ _ Hokb Hbc).
  eapply (has_agree_below _ _ Hch l z); [done..| |exact Hc|done].
  eapply has_agree; [|exact Hbc]. apply Hpre. lia.
Qed.

(** Chains that end in points are prefixes of each other. *)
Lemma points_agree c t z c' t' z' :
  point c t -> point c' t' -> log_ok z -> linked E z -> has z c t ->
  log_ok z' -> linked E z' -> has z' c' t' ->
  forall k, k <= c -> k <= c' -> get z k = get z' k.
Proof using All.
  assert (forall c t z c' t' z', point c t -> t <= t' -> log_ok z -> linked E z -> has z c t ->
    log_ok z' -> linked E z' -> has z' c' t' -> forall k, k <= c -> k <= c' -> get z k = get z' k) as Hle.
  { clear c t z c' t' z'. intros c t z c' t' z' Hp Ht Hz Hlz Hc Hz' Hlz' Hc' k Hk Hk'.
    destruct (has_written _ _ Hch _ _ _ Hlz' Hc') as (b & Hb & _).
    destruct (chain_base _ _ Hch _ _ _ _ Hz' Hlz' Hc' Hb) as (Hbc & Hpre & Hab).
    destruct (N.eq_dec t t') as [-> | Hne].
    - destruct (chain_base _ _ Hch _ _ _ _ Hz Hlz Hc Hb) as (Hbz & Hprez & Habz).
      destruct (N.le_gt_cases k (last_index b)); [by rewrite <- Hpre, <- Hprez by done|].
      eapply (has_agree_below _ _ Hch z z'); [done..|apply (Habz k); lia|apply Hab; lia|lia].
    - pose proof (leader_completeness c t Hp t' b Hb ltac:(lia)) as Hbh.
      destruct (ch_base _ _ Hch _ _ Hb) as [Hokb _]. pose proof (has_range _ _ _ Hokb Hbh).
      eapply (has_agree_below _ _ Hch z z'); [done..|exact Hc| |done].
      eapply has_agree; [|exact Hbh]. apply Hpre. lia. }
  intros Hp Hp' Hz Hlz Hc Hz' Hlz' Hc' k Hk Hk'.
  destruct (N.le_ge_cases t t'); [by eapply (Hle c t z c' t' z')|].
  symmetry. by eapply (Hle c' t' z' c t z).
Qed.

End Completeness.
