(* ===== verification/Agreement.v ===== *)
(** * Agreement: nodes never disagree on committed entries

    The invariant behind [Commitment] along the executions of a cluster, and the
    theorem that two healthy nodes agree on every index that both have committed,
    in the executions in which no follower acknowledges stale entries and no call runs
    on a runtime that has failed since its health check. *)

From S2P Require Import Prelude.
From S2P Require Import Types.
From S2P Require Import Membership.
From S2P Require Import Log.
From S2P Require Import Event.
From S2P Require Import Core.
From S2P Require Import Follower.
From S2P Require Import Candidate.
From S2P Require Import Leader.
From S2P Require Import Node.
From S2P Require Import HardState.
From S2P Require Import Static.
From S2P Require Import Progress.
From S2P Require Import Settings.
From S2P Require Import Runtime.
From S2P Require Import Cluster.
From S2P Require Import LogMatching.
From S2P Require Import Commitment.

(** ** The invariant *)

Section Invariant.

Context {St : Type} (cfgs : gmap N NodeConfig).
Implicit Types (s : Cluster St) (rt : RaftRuntime St).

Abbreviation dlog rt := (p_log (rt_durable rt)).
Abbreviation dterm rt := (p_term (rt_durable rt)).
Abbreviation ci rt := (commit_index (core (rt_node rt))).

(** A healthy node leads the term [t]. *)
Definition leading s (t : N) rt : Prop :=
  exists i, nodes s !! i = Some rt /\ rt_failed rt = false /\ is_leader (rt_node rt) = true /\
    dterm rt = t.

(** The node campaigns in the term [t]. *)
Definition campaigns rt (t : N) : Prop :=
  rt_failed rt = false /\ role_is_candidate (role (rt_node rt)) = true /\ dterm rt = t.

Section Ghosts.

Context (B : N -> N -> N -> Prop) (L : N -> N -> Prop) (E : Writes) (G : N -> Log -> Prop).
Context (D : N -> N -> N -> Log -> Prop) (K : N -> N -> N -> Prop).

(** The first [c] entries of [l] are those of a chain that ends in a point. *)
Definition covered (t : N) (l : Log) (c : N) : Prop :=
  c = 0 \/ exists c0 u z, point cfgs K c0 u /\ u <= t /\ c <= c0 /\ log_ok z /\ linked E z /\
    has z c0 u /\ forall k, k <= c -> get l k = get z k.

(** Node [v] stored the entries of the leader's term up to [x]. *)
Definition acked rt (v x : N) : Prop :=
  x <= last_index (dlog rt) /\
  forall y, y <= x -> has (dlog rt) y (dterm rt) -> K v (dterm rt) y.

(** [D v t k V]: node [v] had the log [V] when it cast its vote of term [t] for [k]. *)
Record commitment s : Prop := mkCommitment {
  ag_chains : chains E G;
  ag_crown : forall j t, L j t -> exists l, G t l;
  ag_base : forall t l, G t l -> exists j, L j t;
  ag_elected : forall t l, G t l -> exists S, majority cfgs S /\ forall v, v ∈ S ->
     exists k V, B v t k /\ log_ok V /\ linked E V /\ recent V (last_term l) (last_index l) /\
       forall u i, K v u i -> u < t -> has V i u \/ lost G u i t;
  ag_cast : forall v t k V, D v t k V -> B v t k /\ log_ok V /\ linked E V /\
     (forall u i, K v u i -> u < t -> has V i u \/ lost G u i (t + 1)) /\
     exists rt, nodes s !! k = Some rt /\ t <= dterm rt /\
       (campaigns rt t -> recent V (last_term (dlog rt)) (last_index (dlog rt)));
  ag_ballot : forall v t k, B v t k -> exists V, D v t k V;
  ag_ask : forall m r, m ∈ network s -> msg_payload m = VoteReq r ->
     exists rt, nodes s !! msg_from m = Some rt /\ msg_term m <= dterm rt /\
       (campaigns rt (msg_term m) ->
        vr_last_log_term r = last_term (dlog rt) /\ vr_last_log_index r = last_index (dlog rt));
  ag_node : forall i rt, nodes s !! i = Some rt -> snapshot_term (dlog rt) = 0 /\
     (forall k u, has (dlog rt) k u -> u <= dterm rt) /\
     (forall k, has (dlog rt) k (dterm rt) -> K i (dterm rt) k);
  ag_cand : forall i rt t, nodes s !! i = Some rt -> campaigns rt t ->
     forall k u, has (dlog rt) k u -> u < t;
  ag_kept : forall v u k, K v u k -> exists rt, nodes s !! v = Some rt /\ u <= dterm rt /\
     (has (dlog rt) k u \/ lost G u k (dterm rt + 1));
  ag_lead : forall t rt, leading s t rt -> leader_log E G t (dlog rt);
  ag_req : forall m r, m ∈ network s -> msg_payload m = AppendReq r ->
     exists x, leader_log E G (msg_term m) x /\ excerpt x r /\
       covered (msg_term m) x (ar_leader_commit r) /\
       forall rt, leading s (msg_term m) rt ->
         last_index x <= last_index (dlog rt) /\ prefix_log x (dlog rt);
  ag_ack : forall m r, m ∈ network s -> msg_payload m = AppendResp r -> aresp_success r = true ->
     (exists j, L j (msg_term m)) /\
     forall rt, leading s (msg_term m) rt -> acked rt (msg_from m) (aresp_last_log_index r);
  ag_match : forall i rt l, nodes s !! i = Some rt -> rt_failed rt = false ->
     role (rt_node rt) = RLeader l -> forall v, acked rt v (match_of l v);
  ag_commit : forall i rt, nodes s !! i = Some rt -> rt_failed rt = false ->
     covered (dterm rt) (dlog rt) (ci rt)
}.

End Ghosts.

(** ** What only grows *)

Section Growth.

Context (E E' : Writes) (G G' : N -> Log -> Prop) (K K' : N -> N -> N -> Prop).
Context (HE : forall i t p q, E i t p q -> E' i t p q) (HG : forall t l, G t l -> G' t l).
Context (HK : forall v u k, K v u k -> K' v u k).

Lemma leader_log_grows t l : leader_log E G t l -> leader_log E' G' t l.
Proof using HE HG.
  intros (Hok & Hl & b & Hb & Hrest). split; [done|]. split; [by eapply linked_mono|].
  exists b. split; [by apply HG|done].
Qed.

Lemma point_grows c t : point cfgs K c t -> point cfgs K' c t.
Proof using HK. intros (S & HS & Hv). exists S. split; [done|]. auto. Qed.

Lemma lost_grows u i t : lost G u i t -> lost G' u i t.
Proof using HG. intros (w & l & Hw & Hg & Hn). exists w, l. auto. Qed.

Lemma lost_later u i t t' : t <= t' -> lost G u i t -> lost G u i t'.
Proof using Type. intros Ht (w & l & Hw & Hg & Hn). exists w, l. split_and!; [lia|lia|done|done]. Qed.

Lemma covered_grows t l c : covered E K t l c -> covered E' K' t l c.
Proof using HE HK.
  intros [-> | (c0 & u & z & Hp & Hu & Hc & Hz & Hlz & Hh & Hag)]; [by left|right].
  exists c0, u, z. split_and!; try done; [by apply point_grows|by eapply linked_mono].
Qed.

Lemma acked_grows rt v x : acked K rt v x -> acked K' rt v x.
Proof using HK. intros [Hx Hy]. split; [done|]. auto. Qed.

End Growth.

(** Coverage passes to logs that agree and to later terms. *)
Lemma covered_agree E K t t' l l' c :
  t <= t' -> (forall k, k <= c -> get l' k = get l k) -> covered E K t l c -> covered E K t' l' c.
Proof.
  intros Ht Hag [-> | (c0 & u & z & Hp & Hu & Hc & Hz & Hlz & Hh & Hl)]; [by left|right].
  exists c0, u, z. split_and!; try done; [lia|]. intros k Hk. rewrite Hag by done. auto.
Qed.

Lemma covered_less E K t l c c' : c' <= c -> covered E K t l c -> covered E K t l c'.
Proof.
  intros Hle [-> | (c0 & u & z & Hp & Hu & Hc & Hz & Hlz & Hh & Hl)]; [left; lia|right].
  exists c0, u, z. split_and!; try done; [lia|]. intros k Hk. apply Hl. lia.
Qed.

(** The commit index is within the log. *)
Lemma covered_bound E K t l c : log_ok l -> covered E K t l c -> c <= last_index l.
Proof.
  intros Hok [-> | (c0 & u & z & _ & _ & Hc & Hz & _ & Hh & Hl)]; [lia|].
  destruct (N.eq_0_gt_0_cases c) as [-> | Hpos]; [lia|].
  pose proof (has_range _ _ _ Hz Hh). destruct (has_at z c Hz) as [w Hw]; [lia|].
  eapply has_agree in Hw; [|symmetry; apply Hl; lia]. apply has_range in Hw; [lia|done].
Qed.

End Invariant.

(** ** One operation *)

(** Entries of a merged log come from the log or from the sender. *)
Lemma merge_has x l r k u :
  log_ok x -> log_ok l -> request_ok r -> excerpt x r -> consistent l r = true ->
  has (fst (append_entries l (ar_entries r))) k u -> has l k u \/ exists j, has x j u.
Proof.
  intros Hx Hl Hr Hex Hco. destruct (ar_entries r) as [|e0 es0] eqn:E0; [by left|].
  assert (ar_entries r <> []) as Hne by (by rewrite E0). rewrite <- E0.
  pose proof (request_append_pre _ _ Hl Hr Hco Hne) as Hpre.
  rewrite (append_entries_eq _ _ _ Hpre). simpl.
  destruct (merge_entries_cases _ _ _ Hpre)
    as [[_ ->] | (_ & es1 & e & es2 & Hes & _ & _ & Hb & Hi & Hcont & ->)]; [by left|].
  intros (en & Hg & Hu). rewrite splice_get in Hg by (apply Hl || done). case_match; [left; by exists en|].
  right. exists (e_index en), en. split; [|done]. apply get_entry; [apply Hx|]. apply Hex. rewrite Hes.
  apply elem_of_app. right. by eapply list_elem_of_lookup_2.
Qed.

Lemma merge_plain l r :
  log_ok l -> request_ok r -> consistent l r = true ->
  snapshot_term (fst (append_entries l (ar_entries r))) = snapshot_term l.
Proof.
  intros Hl Hr Hco. destruct (ar_entries r) as [|e0 es0] eqn:E0; [done|].
  assert (ar_entries r <> []) as Hne by (by rewrite E0). rewrite <- E0.
  pose proof (request_append_pre _ _ Hl Hr Hco Hne) as Hpre.
  rewrite (append_entries_eq _ _ _ Hpre). simpl.
  by destruct (merge_entries_cases _ _ _ Hpre) as [[_ ->] | (_ & es1 & e & es2 & _ & _ & _ & _ & _ & _ & ->)].
Qed.

Section Step.

Context {St : Type} (cfgs : gmap N NodeConfig).

Abbreviation dlog rt := (p_log (rt_durable rt)).
Abbreviation dterm rt := (p_term (rt_durable rt)).
Abbreviation dvote rt := (voted_for (rt_durable rt)).
Abbreviation ci rt := (commit_index (core (rt_node rt))).

Context (B : N -> N -> N -> Prop) (L : N -> N -> Prop) (E : Writes) (G : N -> Log -> Prop).
Context (D : N -> N -> N -> Log -> Prop) (K : N -> N -> N -> Prop) (s : Cluster St).
Context (Hinv : inv cfgs B L s) (Hlm : matching E L s) (Hcm : commitment cfgs B L E G D K s).
Context (i : N) (om : option Message) (rt rt' : RaftRuntime St) (out : list Message).
Context (Hrt : nodes s !! i = Some rt).
Context (Hop : op_ok (boot_config cfgs) i (network s) rt rt' out).
Context (Hlo : log_op (network s) rt rt' out).
Context (Hco : commit_op (boot_config cfgs) i (network s) om rt rt' out).

#[local] Abbreviation B' := (cast B i rt').
#[local] Abbreviation L' := (crown L i rt' out).
#[local] Abbreviation s' := (update s i rt' out).

Context (E' : Writes) (Hlm' : matching E' L' s').
Context (HE : forall a t p q, E a t p q -> E' a t p q).
Context (Hwr : forall a t p q, E' a t p q -> E a t p q \/ wrote rt rt' a t p q).

Definition G' (t : N) (l : Log) : Prop :=
  G t l \/ (t = dterm rt' /\ l = dlog rt' /\ released rt' out /\
            is_leader (rt_node rt') = true /\ forall j, ~ L j t).
Definition D' (v t k : N) (V : Log) : Prop :=
  D v t k V \/ (v = i /\ t = dterm rt' /\ dvote rt' = Some k /\ V = dlog rt' /\
                ~ (dterm rt' = dterm rt /\ dvote rt = Some k)).
Definition K' (v u k : N) : Prop :=
  K v u k \/ (v = i /\ u = dterm rt' /\ has (dlog rt') k u).

Lemma HG t l : G t l -> G' t l. Proof. by left. Qed.
Lemma HK v u k : K v u k -> K' v u k. Proof. by left. Qed.

Lemma step_facts :
  log_ok (dlog rt) /\ linked E (dlog rt) /\ log_ok (dlog rt') /\ linked E' (dlog rt') /\
  dterm rt <= dterm rt' /\ inv cfgs B' L' s'.
Proof using Hinv Hlm Hrt Hop Hlm'.
  destruct (inv_node _ _ _ _ Hinv _ _ Hrt) as (_ & Hok & _).
  destruct (op_synced _ _ _ _ _ _ Hop) as (Hok' & _). destruct (op_hs _ _ _ _ _ _ Hop) as [Hle _].
  split_and!; [done|by eapply lm_log|done| |done|by eapply inv_step].
  eapply (lm_log _ _ _ Hlm' i). simpl. by rewrite lookup_insert_eq.
Qed.

(** The nodes after the operation. *)
Lemma after_nodes j rt1 :
  nodes s' !! j = Some rt1 -> (j = i /\ rt1 = rt') \/ (j <> i /\ nodes s !! j = Some rt1).
Proof.
  simpl. destruct (decide (j = i)) as [-> | Hne].
  - rewrite lookup_insert_eq. intros [= <-]. by left.
  - rewrite lookup_insert_ne by done. by right.
Qed.

Lemma node_after : nodes s' !! i = Some rt'.
Proof. simpl. by rewrite lookup_insert_eq. Qed.

Lemma other_after j rt1 : j <> i -> nodes s !! j = Some rt1 -> nodes s' !! j = Some rt1.
Proof. intros Hne. simpl. by rewrite lookup_insert_ne. Qed.

(** A request from the network, with its sender's log. *)
Lemma accepted_request m r :
  m ∈ network s -> accepted m r rt rt' -> exists x,
    request_ok r /\ leader_log E G (dterm rt') x /\ excerpt x r /\
    covered cfgs E K (dterm rt') x (ar_leader_commit r) /\
    forall rt1, leading s (dterm rt') rt1 ->
      last_index x <= last_index (dlog rt1) /\ prefix_log x (dlog rt1).
Proof using Hinv Hcm.
  intros Hm (Hp & Ht & _ & _). destruct (ag_req _ _ _ _ _ _ _ _ Hcm m r Hm Hp) as (x & Hx).
  rewrite Ht in Hx. exists x. split; [|done]. pose proof (inv_msgs _ _ _ _ Hinv m Hm) as Hok.
  unfold msg_ok in Hok. by rewrite Hp in Hok.
Qed.

(** A leader that does not go on leading starts with its log as it was, with older
    entries only. *)
Lemma crowned_log :
  released rt' out -> is_leader (rt_node rt') = true -> (forall j, ~ L j (dterm rt')) ->
  dlog rt' = dlog rt /\ forall k u, has (dlog rt) k u -> u < dterm rt'.
Proof using Hinv Hcm Hrt Hlo Hco.
  intros Hf Hl Hfirst. split.
  - destruct (co_log _ _ _ _ _ _ _ Hco) as [?|[(m & r & _ & _ & _ & Hfo)|(Ht & Hf0 & Hl0 & _)]].
    + done.
    + unfold is_leader in Hl. by destruct (role (rt_node rt')).
    + destruct (Hfirst i). rewrite Ht. by eapply inv_lead.
  - intros k u Hk. destruct (lo_lead _ _ _ _ Hlo Hf Hl) as [Hlt|(Hf0 & Ht & Hr)].
    + destruct (ag_node _ _ _ _ _ _ _ _ Hcm _ _ Hrt) as (_ & Hold & _).
      specialize (Hold _ _ Hk). lia.
    + rewrite Ht. apply orb_true_iff in Hr as [Hc|Hl0].
      * by eapply (ag_cand _ _ _ _ _ _ _ _ Hcm i rt).
      * destruct (Hfirst i). rewrite Ht. by eapply inv_lead.
Qed.

Lemma no_base t : (forall j, ~ L j t) -> forall l, ~ G t l.
Proof using Hcm. intros Hno l Hg. destruct (ag_base _ _ _ _ _ _ _ _ Hcm _ _ Hg) as [j Hj]. by destruct (Hno j). Qed.

Lemma chains_after : chains E' G'.
Proof using All.
  destruct step_facts as (Hok & Hl & Hok' & Hl' & Hle & _).
  pose proof (ag_chains _ _ _ _ _ _ _ _ Hcm) as Hch. split.
  - apply Hlm'.
  - intros t l l' [H1|(-> & -> & _ & _ & Hno)] [H2|(Ht & -> & _ & _ & Hno')]; subst; try done.
    + by eapply ch_base_once.
    + by destruct (no_base _ Hno' l).
    + by destruct (no_base _ Hno l').
  - intros t l [Hg|(-> & -> & _)]; [|done]. destruct (ch_base _ _ Hch _ _ Hg). split; [done|].
    by eapply linked_mono.
  - intros t l [Hg|(-> & -> & Hf & Hld & Hno)]; [by eapply ch_plain|].
    destruct (crowned_log Hf Hld Hno) as [-> _]. by eapply (ag_node _ _ _ _ _ _ _ _ Hcm).
  - intros t l k u [Hg|(-> & -> & Hf & Hld & Hno)]; [by eapply ch_older|].
    destruct (crowned_log Hf Hld Hno) as [-> Hold]. apply Hold.
  - intros a t p q [HEo|(Hf & Hld & -> & Ht & -> & Hroom & -> & Happ)]%Hwr.
    + destruct (ch_write _ _ Hch _ _ _ _ HEo) as (l & Hg & Hrest). exists l. split; [by left|done].
    + destruct (ag_lead _ _ _ _ _ _ _ _ Hcm (dterm rt) rt) as (_ & _ & b & Hb & Hpre & Hle' & Hab).
      { by exists i. }
      exists b. split; [by left|]. split; [lia|]. split; [|done]. unfold prev_term.
      replace (last_index (dlog rt) + 1 - 1) with (last_index (dlog rt)) by lia.
      destruct (N.eqb_spec (last_index (dlog rt) + 1) (last_index b + 1)) as [Heq|Hne].
      * replace (last_index (dlog rt)) with (last_index b) by lia.
        rewrite <- Hpre by lia. symmetry. apply term_at_lookup. by apply (ch_base _ _ Hch _ _ Hb).
      * destruct (Hab (last_index (dlog rt))) as (e & -> & He); [lia|]. done.
Qed.

(** A leader goes on, with at most one more entry, or starts. *)
Lemma leader_cases :
  released rt' out -> is_leader (rt_node rt') = true ->
  (leading s (dterm rt') rt /\ dterm rt' = dterm rt /\
   (dlog rt' = dlog rt \/ exists p, last_index (dlog rt) + 2 < two64 /\
      dlog rt' = append (dlog rt) (mkEntry (dterm rt) (last_index (dlog rt) + 1) p))) \/
  ((forall j, ~ L j (dterm rt')) /\ dlog rt' = dlog rt).
Proof using All.
  intros Hf Hl.
  destruct (new_leader_is_first cfgs B L E s Hinv Hlm i rt rt' out Hrt Hop Hlo Hf Hl)
    as [(Hf0 & Hl0 & Ht)|Hno].
  - left. split; [by exists i|]. split; [done|].
    destruct (co_log _ _ _ _ _ _ _ Hco) as [?|[(m & r & _ & _ & _ & Hfo)|(_ & _ & _ & ?)]]; [by left| |by right].
    unfold is_leader in Hl. by destruct (role (rt_node rt')).
  - right. split; [done|]. by apply crowned_log.
Qed.

(** The log of a leader only grows. *)
Lemma leader_extends :
  released rt' out -> is_leader (rt_node rt') = true -> leading s (dterm rt') rt ->
  last_index (dlog rt) <= last_index (dlog rt') /\ prefix_log (dlog rt) (dlog rt') /\
  (forall k, last_index (dlog rt) < k <= last_index (dlog rt') -> has (dlog rt') k (dterm rt')).
Proof using All.
  intros Hf Hl (j & Hj & Hf0 & Hl0 & Ht0). destruct step_facts as ((Hwf & _) & _).
  destruct (leader_cases Hf Hl) as [(_ & Ht & [-> | (p & Hroom & ->)])|[Hno Heq]].
  - split; [done|]. split; [done|]. intros k Hk. lia.
  - rewrite append_last_index. simpl. split; [lia|].
    assert (appendable (dlog rt) (mkEntry (dterm rt) (last_index (dlog rt) + 1) p)) as Ha
      by (split; [done|unfold u64; simpl; lia]).
    unfold prefix_log, has. split.
    + intros k Hk. rewrite append_get by done. simpl. by rewrite (proj2 (N.eqb_neq _ _)) by lia.
    + intros k Hk. exists (mkEntry (dterm rt) (last_index (dlog rt) + 1) p).
      rewrite append_get by done. simpl. rewrite (proj2 (N.eqb_eq _ _)) by lia. split; [done|congruence].
  - rewrite Heq. split; [done|]. split; [done|]. intros k Hk. lia.
Qed.

Lemma released_leads :
  released rt' out -> is_leader (rt_node rt') = true -> leader_log E' G' (dterm rt') (dlog rt').
Proof using All.
  destruct step_facts as (Hok & Hl & Hok' & Hl' & Hle & _). intros Hf Hld.
  destruct (leader_cases Hf Hld) as [(Hlead & Ht & _)|[Hno Heq]].
  - destruct (leader_extends Hf Hld Hlead) as (Hle' & Hpre & Hnew).
    destruct (ag_lead _ _ _ _ _ _ _ _ Hcm _ _ Hlead) as (_ & _ & b & Hb & Hpb & Hlb & Hab).
    split; [done|]. split; [done|]. exists b. split; [by left|]. split_and!.
    + intros k Hk. rewrite Hpb by done. apply Hpre. lia.
    + lia.
    + intros k Hk. destruct (N.le_gt_cases k (last_index (dlog rt))); [|apply Hnew; lia].
      eapply has_agree; [|apply Hab; lia]. by apply Hpre.
  - split; [done|]. split; [done|]. exists (dlog rt'). split; [by right|].
    split_and!; [done|lia|]. intros k Hk. lia.
Qed.

Lemma lead_after t rt1 : leading s' t rt1 -> leader_log E' G' t (dlog rt1).
Proof using All.
  intros (j & Hj & Hf & Hld & <-). apply after_nodes in Hj as [[-> ->] | [Hne Hj]].
  - apply released_leads; [by left|done].
  - eapply leader_log_grows; [exact HE|exact HG|]. eapply ag_lead; [done|]. by exists j.
Qed.

(** Terms in the log of a leader. *)
Lemma leader_log_terms t x k u : leader_log E G t x -> has x k u -> u <= t.
Proof using Hcm.
  intros (Hok & _ & b & Hb & Hpre & Hle & Hab) Hk. pose proof (has_range _ _ _ Hok Hk).
  destruct (N.le_gt_cases k (last_index b)) as [Hkb|Hkb].
  - apply (has_agree x b) in Hk; [|symmetry; by apply Hpre].
    pose proof (ch_older _ _ (ag_chains _ _ _ _ _ _ _ _ Hcm) _ _ _ _ Hb Hk). lia.
  - rewrite (has_unique _ _ _ _ Hk (Hab k ltac:(lia))). lia.
Qed.

Lemma node_terms_after :
  snapshot_term (dlog rt') = 0 /\ forall k u, has (dlog rt') k u -> u <= dterm rt'.
Proof using All.
  destruct step_facts as (Hok & Hl & Hok' & Hl' & Hle & _).
  destruct (ag_node _ _ _ _ _ _ _ _ Hcm _ _ Hrt) as (Hsn & Hterms & _).
  destruct (co_log _ _ _ _ _ _ _ Hco)
    as [-> | [(m & r & _ & Hm & Hacc & _)|(Ht & _ & _ & p & Hroom & ->)]].
  - split; [done|]. intros k u Hk%Hterms. lia.
  - destruct (accepted_request m r Hm Hacc) as (x & Hr & Hlead & Hex & _).
    destruct Hacc as (_ & _ & Hcons & ->). split; [by rewrite merge_plain|]. intros k u Hk.
    apply (merge_has x) in Hk as [Hk|[j Hj]]; [..|apply Hlead|done|done|done|done].
    + specialize (Hterms _ _ Hk). lia.
    + by eapply leader_log_terms.
  - split; [done|]. intros k u (e & He & <-).
    rewrite append_get in He by (apply Hok || (split; [done|unfold u64; simpl; lia])). case_match.
    + simplify_eq/=. lia.
    + rewrite Ht. apply (Hterms k). by exists e.
Qed.

Lemma node_holds j rt1 : nodes s' !! j = Some rt1 -> snapshot_term (dlog rt1) = 0 /\
  (forall k u, has (dlog rt1) k u -> u <= dterm rt1) /\
  (forall k, has (dlog rt1) k (dterm rt1) -> K' j (dterm rt1) k).
Proof using All.
  intros [[-> ->] | [Hne Hj]]%after_nodes.
  - destruct node_terms_after as [H1 H2]. split_and!; [done|done|]. intros k Hk. by right.
  - destruct (ag_node _ _ _ _ _ _ _ _ Hcm _ _ Hj) as (H1 & H2 & H3). split_and!; [done|done|].
    intros k Hk. left. auto.
Qed.

(** A candidate has the log it had before its term, or before the operation. *)
Lemma candidate_log :
  rt_failed rt' = false -> role_is_candidate (role (rt_node rt')) = true ->
  dlog rt' = dlog rt /\ (dterm rt < dterm rt' \/ campaigns rt (dterm rt')).
Proof using All.
  intros Hf Hc. split.
  - destruct (co_log _ _ _ _ _ _ _ Hco) as [?|[(m & r & _ & _ & _ & Hfo)|(Ht & Hf0 & Hl0 & _)]].
    + done.
    + by destruct (role (rt_node rt')).
    + destruct (lo_cand _ _ _ _ Hlo Hf Hc) as [?|(_ & _ & Hc0)]; [lia|].
      unfold is_leader in Hl0. by destruct (role (rt_node rt)).
  - destruct (lo_cand _ _ _ _ Hlo Hf Hc) as [?|(Hf0 & Ht & Hc0)]; [by left|right]. done.
Qed.

Lemma candidate_holds j rt1 t :
  nodes s' !! j = Some rt1 -> campaigns rt1 t -> forall k u, has (dlog rt1) k u -> u < t.
Proof using All.
  intros [[-> ->] | [Hne Hj]]%after_nodes (Hf & Hc & <-) k u Hk.
  - destruct (candidate_log Hf Hc) as [Heq Hold]. rewrite Heq in Hk. destruct Hold as [Hlt|Hcp].
    + destruct (ag_node _ _ _ _ _ _ _ _ Hcm _ _ Hrt) as (_ & Hterms & _).
      specialize (Hterms _ _ Hk). lia.
    + by eapply ag_cand.
  - by eapply (ag_cand _ _ _ _ _ _ _ _ Hcm j rt1).
Qed.

(** What a node stored during its term stays, until a leader starts without it. *)
Lemma kept_after v u k :
  K' v u k -> exists rt1, nodes s' !! v = Some rt1 /\ u <= dterm rt1 /\
    (has (dlog rt1) k u \/ lost G' u k (dterm rt1 + 1)).
Proof using All.
  destruct step_facts as (Hok & Hl & Hok' & Hl' & Hle & _).
  intros [HKo|(-> & -> & Hh)]; [|exists rt'; split; [apply node_after|]; split; [lia|by left]].
  destruct (ag_kept _ _ _ _ _ _ _ _ Hcm _ _ _ HKo) as (rt0 & Hv & Hu & Hor).
  destruct (decide (v = i)) as [-> | Hne].
  2: { exists rt0. split; [by apply other_after|]. split; [done|].
       destruct Hor as [?|Hlost]; [by left|right]. by eapply lost_grows; [exact HG|]. }
  assert (rt0 = rt) as -> by congruence. exists rt'. split; [apply node_after|]. split; [lia|].
  destruct Hor as [Hh|Hlost].
  2: { right. eapply lost_grows; [exact HG|]. by eapply lost_later; [|exact Hlost]; lia. }
  destruct (co_log _ _ _ _ _ _ _ Hco)
    as [-> | [(m & r & _ & Hm & Hacc & _)|(Ht & Hf & Hld & p & Hroom & ->)]]; [by left|..].
  - destruct (accepted_request m r Hm Hacc) as (x & Hr & Hlead & Hex & _).
    destruct Hacc as (_ & _ & Hcons & ->). pose proof (ag_chains _ _ _ _ _ _ _ _ Hcm) as Hch.
    pose proof Hlead as (Hxok & Hxl & b & Hb & Hpre & _).
    assert (((forall j, j <= k -> j <= last_index x -> get x j = get (dlog rt) j) \/
             (u < dterm rt' /\ ~ has b k u))) as [Hag|[Hlt Hno]].
    { destruct (N.eq_dec u (dterm rt')) as [-> | Hne].
      - left. by eapply leader_log_meets.
      - destruct (has_dec b k u) as [Hbk|]; [left|right; split; [lia|done]].
        intros j Hj _. eapply (has_agree_below E G Hch x (dlog rt)); [done..| |exact Hh|done].
        eapply has_agree; [|exact Hbk]. apply Hpre.
        destruct (ch_base _ _ Hch _ _ Hb) as [Hbok _]. by apply (has_range _ _ _ Hbok) in Hbk as [_ ?]. }
    + left. eapply has_agree; [|exact Hh]. symmetry.
      by eapply (merge_keeps x (dlog rt) r); [done..|exact Hag|].
    + right. exists (dterm rt'), b. split; [lia|]. split; [by left|done].
  - left. pose proof (has_range _ _ _ Hok Hh). eapply has_agree; [|exact Hh].
    rewrite append_get by (apply Hok || (split; [done|unfold u64; simpl; lia])). simpl.
    by rewrite (proj2 (N.eqb_neq _ _)) by lia.
Qed.

(** ** Ballots *)

Lemma recent_refl l : recent l (last_term l) (last_index l).
Proof. right. split; [done|lia]. Qed.

(** Nothing is stored any more in a term before that of a ballot. *)
Lemma stored_before v t k u a : B v t k -> K' v u a -> u < t -> K v u a.
Proof using Hinv Hrt Hop.
  intros HB [?|(-> & -> & _)] Hu; [done|].
  destruct (inv_ballot _ _ _ _ Hinv _ _ _ HB) as (rt0 & H0 & Ht & _).
  assert (rt0 = rt) as -> by congruence. destruct (op_hs _ _ _ _ _ _ Hop). lia.
Qed.

Lemma lost_strict u k t : (forall j, ~ L j t) -> lost G u k (t + 1) -> lost G u k t.
Proof using Hcm.
  intros Hno (w & l & Hw & Hg & Hn). exists w, l. split_and!; try done; [lia|].
  destruct (N.eq_dec w t) as [-> | ?]; [by destruct (no_base _ Hno l)|lia].
Qed.

(** The candidate [k] of the term [t], before and after. *)
Lemma candidate_after k t (P : Log -> Prop) :
  (exists rt0, nodes s !! k = Some rt0 /\ t <= dterm rt0 /\ (campaigns rt0 t -> P (dlog rt0))) ->
  exists rt1, nodes s' !! k = Some rt1 /\ t <= dterm rt1 /\ (campaigns rt1 t -> P (dlog rt1)).
Proof using All.
  intros (rt0 & H0 & Ht & HP). destruct (op_hs _ _ _ _ _ _ Hop) as [Hle _].
  destruct (decide (k = i)) as [-> | Hne]; [|exists rt0; split; [by apply other_after|done]].
  assert (rt0 = rt) as -> by congruence. exists rt'. split; [apply node_after|]. split; [lia|].
  intros (Hf & Hc & Heq). destruct (candidate_log Hf Hc) as [-> [Hlt|Hcp]]; [lia|].
  apply HP. by rewrite <- Heq.
Qed.

Lemma cast_after v t k V :
  D' v t k V -> B' v t k /\ log_ok V /\ linked E' V /\
  (forall u a, K' v u a -> u < t -> has V a u \/ lost G' u a (t + 1)) /\
  exists rt1, nodes s' !! k = Some rt1 /\ t <= dterm rt1 /\
    (campaigns rt1 t -> recent V (last_term (dlog rt1)) (last_index (dlog rt1))).
Proof using All.
  destruct step_facts as (Hok & Hl & Hok' & Hl' & Hle & _).
  intros [HD|(-> & -> & Hv & -> & Hfresh)].
  - destruct (ag_cast _ _ _ _ _ _ _ _ Hcm _ _ _ _ HD) as (HB & HV & HlV & Hst & Hk).
    split; [by left|]. split; [done|]. split; [by eapply linked_mono|]. split.
    + intros u a HKa Hu. destruct (Hst u a (stored_before _ _ _ _ _ HB HKa Hu) Hu) as [?|?]; [by left|right].
      by eapply lost_grows; [exact HG|].
    + apply (candidate_after k t (fun l => recent V (last_term l) (last_index l))). exact Hk.
  - split; [by right|]. split; [done|]. split; [done|]. split.
    + intros u a HKa Hu. destruct (kept_after _ _ _ HKa) as (rt1 & H1 & _ & Hor).
      rewrite node_after in H1. by simplify_eq.
    + destruct (co_vote _ _ _ _ _ _ _ Hco k Hv) as [?|[Hlog [[-> Hlt]|(m & r & Hm & <- & Ht & Hp & Hrec)]]];
        [done|..].
      * exists rt'. split; [apply node_after|]. split; [lia|]. intros _. apply recent_refl.
      * rewrite Hlog in *.
        apply (candidate_after _ _ (fun l => recent (dlog rt) (last_term l) (last_index l))).
        destruct (ag_ask _ _ _ _ _ _ _ _ Hcm m r Hm Hp) as (rt0 & H0 & Ht0 & Hc).
        rewrite Ht in *. exists rt0. split; [done|]. split; [done|]. by intros [<- <-]%Hc.
Qed.

Lemma ballot_after v t k : B' v t k -> exists V, D' v t k V.
Proof using Hinv Hcm Hrt.
  intros [HB|(-> & -> & Hv)].
  - destruct (ag_ballot _ _ _ _ _ _ _ _ Hcm _ _ _ HB) as [V HV]. exists V. by left.
  - destruct (decide (dterm rt' = dterm rt /\ dvote rt = Some k)) as [[Ht Hk]|Hfresh].
    + destruct (ag_ballot _ _ _ _ _ _ _ _ Hcm i (dterm rt) k) as [V HV]; [by eapply inv_vote|].
      exists V. left. by rewrite Ht.
    + exists (dlog rt'). by right.
Qed.

(** The ballots behind a new leader. *)
Lemma crowning_ballot v :
  released rt' out -> is_leader (rt_node rt') = true -> (forall j, ~ L j (dterm rt')) ->
  B' v (dterm rt') i -> exists V, log_ok V /\ linked E' V /\
    recent V (last_term (dlog rt')) (last_index (dlog rt')) /\
    forall u a, K' v u a -> u < dterm rt' -> has V a u \/ lost G' u a (dterm rt').
Proof using All.
  destruct step_facts as (Hok & Hl & Hok' & Hl' & Hle & _).
  intros Hf Hld Hno HB. destruct (crowned_log Hf Hld Hno) as [Hlog _].
  assert (forall u a, lost G u a (dterm rt' + 1) -> lost G' u a (dterm rt')) as Hlost.
  { intros u a Hx. eapply lost_grows; [exact HG|]. by apply lost_strict. }
  destruct (ballot_after _ _ _ HB) as [V [HD|(-> & _ & _ & -> & _)]].
  - exists V. destruct (ag_cast _ _ _ _ _ _ _ _ Hcm _ _ _ _ HD) as (HBo & HV & HlV & Hst & rt0 & H0 & Ht & Hc).
    assert (rt0 = rt) as -> by congruence. split; [done|]. split; [by eapply linked_mono|]. split.
    + rewrite Hlog. apply Hc. destruct (lo_lead _ _ _ _ Hlo Hf Hld) as [?|(Hf0 & Heq & Hr)]; [lia|].
      split_and!; [done| |done]. apply orb_true_iff in Hr as [?|Hl0]; [done|].
      destruct (Hno i). rewrite Heq. by eapply inv_lead.
    + intros u a HKa Hu. destruct (Hst u a (stored_before _ _ _ _ _ HBo HKa Hu) Hu); auto.
  - exists (dlog rt'). split; [done|]. split; [done|]. split; [apply recent_refl|].
    intros u a [HKo|(_ & -> & _)] Hu; [|lia].
    destruct (ag_kept _ _ _ _ _ _ _ _ Hcm _ _ _ HKo) as (rt0 & H0 & _ & Hor).
    assert (rt0 = rt) as -> by congruence. rewrite Hlog. destruct Hor as [?|Hx]; [by left|right].
    apply Hlost. by eapply lost_later; [|exact Hx]; lia.
Qed.

Lemma elected_after t l :
  G' t l -> exists S, majority cfgs S /\ forall v, v ∈ S ->
    exists k V, B' v t k /\ log_ok V /\ linked E' V /\ recent V (last_term l) (last_index l) /\
      forall u a, K' v u a -> u < t -> has V a u \/ lost G' u a t.
Proof using All.
  intros [Hg|(-> & -> & Hf & Hld & Hno)].
  - destruct (ag_elected _ _ _ _ _ _ _ _ Hcm _ _ Hg) as (S & HS & Hv). exists S. split; [done|].
    intros v (k & V & HB & HV & HlV & Hrec & Hst)%Hv. exists k, V.
    split; [by left|]. split; [done|]. split; [by eapply linked_mono|]. split; [done|].
    intros u a HKa Hu. destruct (Hst u a (stored_before _ _ _ _ _ HB HKa Hu) Hu) as [?|?]; [by left|right].
    by eapply lost_grows; [exact HG|].
  - destruct (op_lead _ _ _ _ _ _ Hop Hf Hld) as [(Hf0 & Hl0 & Heq)|(S & HS & Hsrc)].
    { destruct (Hno i). rewrite Heq. by eapply inv_lead. }
    exists S. split; [done|]. intros v Hv. exists i.
    assert (B' v (dterm rt') i) as HB by (eapply source_ballot; [done|done|by apply Hsrc]).
    destruct (crowning_ballot v Hf Hld Hno HB) as (V & HV). exists V. done.
Qed.

Lemma ask_after m r :
  m ∈ network s' -> msg_payload m = VoteReq r ->
  exists rt1, nodes s' !! msg_from m = Some rt1 /\ msg_term m <= dterm rt1 /\
    (campaigns rt1 (msg_term m) ->
     vr_last_log_term r = last_term (dlog rt1) /\ vr_last_log_index r = last_index (dlog rt1)).
Proof using All.
  intros [Hm|Hm]%elem_of_app Hp.
  - apply (candidate_after _ _ (fun l => vr_last_log_term r = last_term l /\ vr_last_log_index r = last_index l)).
    by eapply ag_ask.
  - destruct (co_sends _ _ _ _ _ _ _ Hco m Hm) as [-> [Hq|[(_ & _ & r' & Hp' & _)|[(_ & -> & Hp')|[[_ Hp'] _]]]]].
    + unfold quiet_message in Hq. by rewrite Hp in Hq.
    + congruence.
    + exists rt'. split; [apply node_after|]. split; [lia|]. intros _.
      rewrite Hp in Hp'. by simplify_eq/=.
    + congruence.
Qed.

(** ** Acknowledgements and the commit index *)

(** A leader of the term after the operation: another one, or this node. *)
Lemma leading_after t rt1 :
  leading s' t rt1 -> leading s t rt1 \/
  (rt1 = rt' /\ t = dterm rt' /\ rt_failed rt' = false /\ is_leader (rt_node rt') = true).
Proof.
  intros (j & Hj & Hf & Hl & <-). apply after_nodes in Hj as [[-> ->] | [Hne Hj]]; [by right|].
  left. by exists j.
Qed.

(** In a term that has been led, the node can only go on leading. *)
Lemma led_on j :
  released rt' out -> is_leader (rt_node rt') = true -> L j (dterm rt') ->
  leading s (dterm rt') rt /\ dterm rt' = dterm rt.
Proof using All.
  intros Hf Hl HL. destruct (leader_cases Hf Hl) as [(? & ? & _)|[Hno _]]; [done|].
  by destruct (Hno j).
Qed.

Lemma acked_after v x :
  released rt' out -> is_leader (rt_node rt') = true -> leading s (dterm rt') rt ->
  acked K rt v x -> acked K' rt' v x.
Proof using All.
  intros Hf Hl Hlead [Hx Hy]. destruct (leader_extends Hf Hl Hlead) as (Hle & Hpre & _).
  destruct Hlead as (j & _ & _ & _ & Ht). split; [lia|]. intros y Hyx Hh. left.
  rewrite <- Ht in *. apply Hy; [done|]. eapply has_agree; [|exact Hh]. symmetry. apply Hpre. lia.
Qed.

Lemma live_released : live rt' out -> released rt' out.
Proof. intros [?|[_ ?]]; [by left|by right]. Qed.

Lemma match_after l v :
  live rt' out -> role (rt_node rt') = RLeader l -> acked K' rt' v (match_of l v).
Proof using All.
  destruct step_facts as (Hok & _ & Hok' & _).
  intros Hlive Hr. assert (is_leader (rt_node rt') = true) as Hl by (unfold is_leader; by rewrite Hr).
  destruct (co_match _ _ _ _ _ _ _ Hco Hlive l Hr v)
    as [->|[[-> ->] | (Hf0 & Ht & l0 & Hr0 & Hm)]].
  - split; [lia|]. intros y Hy Hh. apply has_range in Hh; [lia|done].
  - split; [done|]. intros y _ Hh. by right.
  - assert (leading s (dterm rt') rt) as Hlead.
    { exists i. unfold is_leader. by rewrite Hr0, Ht. }
    apply acked_after; [by apply live_released|done|done|].
    destruct Hm as [->|(m & r & Hm & Hp & Hsu & <- & Htm & ->)].
    + by eapply ag_match.
    + eapply ag_ack; [done|exact Hm|done|done|]. by rewrite Htm.
Qed.

Lemma acks_of_leader_only m r :
  m ∈ network s -> accepted m r rt rt' -> exists j, L j (dterm rt').
Proof using Hinv Hcm.
  intros Hm Ha. destruct (accepted_request m r Hm Ha) as (x & _ & (_ & _ & b & Hb & _) & _).
  by eapply ag_base.
Qed.

Context (Htidy : forall m r, om = Some m -> accepted m r rt rt' ->
  (exists a, a ∈ out /\ acks rt' a) -> tidy_log (dlog rt) r (dterm rt')).

(** After a tidy acknowledgement the log agrees with the sender's. *)
Lemma accepted_agrees m r :
  om = Some m -> m ∈ network s -> accepted m r rt rt' -> (exists a, a ∈ out /\ acks rt' a) ->
  exists x, leader_log E G (dterm rt') x /\ covered cfgs E K (dterm rt') x (ar_leader_commit r) /\
    (forall rt1, leading s (dterm rt') rt1 ->
       last_index x <= last_index (dlog rt1) /\ prefix_log x (dlog rt1)) /\
    (last_index (dlog rt') <= last_index x \/ has (dlog rt') (last_index (dlog rt')) (dterm rt')) /\
    (forall k, k <= last_index (dlog rt') -> k <= last_index x -> get (dlog rt') k = get x k).
Proof using All.
  destruct step_facts as (Hok & Hl & Hok' & Hl' & _). intros Hom Hm Ha Hack.
  destruct (accepted_request m r Hm Ha) as (x & Hr & Hlead & Hex & Hcov & Hpre).
  pose proof (Htidy _ _ Hom Ha Hack) as Ht. destruct Ha as (_ & _ & Hcons & Heq). rewrite Heq in *.
  exists x. split; [done|]. split; [done|]. split; [done|].
  eapply (tidy_agrees E' G' chains_after); [apply Hlead|done|done|done|done| |done|done|done].
  eapply leader_log_grows; [exact HE|exact HG|exact Hlead].
Qed.

(** ... and with the log of whoever leads its term. *)
Lemma acked_agrees m r rt1 :
  om = Some m -> m ∈ network s -> accepted m r rt rt' -> (exists a, a ∈ out /\ acks rt' a) ->
  leading s (dterm rt') rt1 -> leading s' (dterm rt') rt1 ->
  acked K' rt1 i (last_index (dlog rt')).
Proof using All.
  destruct step_facts as (Hok & Hl & Hok' & Hl' & _). intros Hom Hm Ha Hack Hs Hs'.
  destruct (accepted_agrees m r Hom Hm Ha Hack) as (x & _ & _ & Hpre & Hlast & Hag).
  destruct (Hpre _ Hs) as [Hx1 Hx2]. pose proof (lead_after _ _ Hs') as Hlead1.
  pose proof Hs' as (j & Hj & Hf1 & Hld1 & Ht1). unfold acked. rewrite Ht1.
  assert (last_index (dlog rt') <= last_index (dlog rt1)) as Hb.
  { destruct Hlast as [?|Hh]; [lia|]. destruct (linked_has _ _ _ _ Hl' Hh) as [p HEl].
    eapply (lm_lead _ _ _ Hlm' j rt1); [done|done|done|]. by rewrite Ht1. }
  split; [done|]. intros y Hy Hh. right. split_and!; [done|done|].
  eapply has_agree; [|exact Hh]. destruct Hlast as [Hlx|Hh'].
  - rewrite Hag by lia. symmetry. apply Hx2. lia.
  - eapply (leader_log_meets E' G' chains_after); [exact Hlead1|done|done|exact Hh'|done|lia].
Qed.

Lemma ack_after m r :
  m ∈ network s' -> msg_payload m = AppendResp r -> aresp_success r = true ->
  (exists j, L' j (msg_term m)) /\
  forall rt1, leading s' (msg_term m) rt1 -> acked K' rt1 (msg_from m) (aresp_last_log_index r).
Proof using All.
  intros [Hm|Hm]%elem_of_app Hp Hsu.
  - destruct (ag_ack _ _ _ _ _ _ _ _ Hcm m r Hm Hp Hsu) as [[j HL] Hack].
    split; [exists j; by left|]. intros rt1 Hl1.
    destruct (leading_after _ _ Hl1) as [Hl0|(-> & Ht & Hf & Hld)].
    + eapply acked_grows; [exact HK|]. by apply Hack.
    + rewrite Ht in *. destruct (led_on j (or_introl Hf) Hld HL) as [Hlead _].
      apply acked_after; [by left|done|done|]. by apply Hack.
  - destruct (co_sends _ _ _ _ _ _ _ Hco m Hm)
      as [-> [Hq|[(_ & _ & r' & Hp' & _)|[(_ & _ & Hp')|[[Ht Hp'] (m0 & r0 & Hom & Hm0 & Ha)]]]]].
    + unfold quiet_message in Hq. rewrite Hp, Hsu in Hq. done.
    + congruence.
    + congruence.
    + rewrite Ht in *. rewrite Hp in Hp'. injection Hp' as ->. simpl.
      destruct (acks_of_leader_only m0 r0 Hm0 Ha) as [j HL]. split; [exists j; by left|].
      intros rt1 Hl1. destruct (leading_after _ _ Hl1) as [Hl0|(-> & _ & _ & _)].
      * eapply acked_agrees; [done|done|exact Ha| |done|done]. exists m. done.
      * split; [done|]. intros y _ Hh. by right.
Qed.

Lemma elected_before t l : G t l -> exists S, majority cfgs S /\ forall v, v ∈ S ->
  exists V, log_ok V /\ linked E V /\ recent V (last_term l) (last_index l) /\
    forall u a, K v u a -> u < t -> has V a u \/ lost G u a t.
Proof using Hcm.
  intros Hg. destruct (ag_elected _ _ _ _ _ _ _ _ Hcm _ _ Hg) as (S & HS & Hv).
  exists S. split; [done|]. intros v (k & V & _ & HV)%Hv. by exists V.
Qed.

(** No request takes a committed entry away. *)
Lemma prefix_stays c :
  covered cfgs E K (dterm rt) (dlog rt) c -> forall k, k <= c -> get (dlog rt') k = get (dlog rt) k.
Proof using All.
  destruct step_facts as (Hok & Hl & Hok' & Hl' & Hle & _). intros Hcov.
  pose proof (covered_bound _ _ _ _ _ _ Hok Hcov) as Hb.
  destruct (co_log _ _ _ _ _ _ _ Hco)
    as [-> | [(m & r & _ & Hm & Hacc & _)|(Ht & Hf & Hld & p & Hroom & ->)]]; [done|..].
  - destruct (accepted_request m r Hm Hacc) as (x & Hr & Hlead & Hex & _).
    destruct Hacc as (_ & _ & Hcons & ->). pose proof (ag_chains _ _ _ _ _ _ _ _ Hcm) as Hch.
    eapply (merge_keeps x (dlog rt) r); [apply Hlead|done..|]. intros k Hk Hkx.
    destruct Hcov as [H0|(c0 & u & z & Hp & Hu & Hc & Hz & Hlz & Hh & Hag)].
    + assert (k = 0) as -> by lia. by rewrite !get_None_below by lia.
    + rewrite Hag by done.
      eapply (leader_log_point cfgs E G K Hch elected_before c0 u z (dterm rt') x);
        [done|lia|done|done|done|done|lia|done].
  - intros k Hk. rewrite append_get by (apply Hok || (split; [done|unfold u64; simpl; lia])). simpl.
    by rewrite (proj2 (N.eqb_neq _ _)) by lia.
Qed.

Lemma covered_stays c :
  covered cfgs E K (dterm rt) (dlog rt) c -> covered cfgs E' K' (dterm rt') (dlog rt') c.
Proof using All.
  destruct step_facts as (_ & _ & _ & _ & Hle & _). intros Hcov.
  eapply covered_grows; [exact HE|exact HK|].
  eapply covered_agree; [exact Hle|by apply prefix_stays|exact Hcov].
Qed.

(** A quorum of match indices is a point. *)
Lemma commits_point l :
  live rt' out -> commits_at (boot_config cfgs) rt' l -> 0 < ci rt' ->
  has (dlog rt') (ci rt') (dterm rt') /\ point cfgs K' (ci rt') (dterm rt').
Proof using All.
  destruct step_facts as (_ & _ & Hok' & _). intros Hlive (Hr & Hle & Ht & Hq) Hpos.
  assert (has (dlog rt') (ci rt') (dterm rt')) as Hh.
  { destruct (has_at (dlog rt') (ci rt') Hok') as [u Hu]; [lia|].
    destruct Hu as (e & He & Hu). rewrite (term_at_get _ _ _ He) in Ht. by exists e. }
  split; [done|]. apply quorum_majority in Hq as (S & HS & Hv). exists S. split; [done|].
  intros v Hin. specialize (Hv v Hin). apply N.leb_le in Hv.
  destruct (match_after l v Hlive Hr) as [_ Hk]. by apply Hk.
Qed.

Lemma commit_after : live rt' out -> covered cfgs E' K' (dterm rt') (dlog rt') (ci rt').
Proof using All.
  destruct step_facts as (Hok & Hl & Hok' & Hl' & Hle & _). intros Hlive.
  destruct (co_commit _ _ _ _ _ _ _ Hco Hlive)
    as [->|[[Hf0 ->]|[(m & r & Hom & Hm & Ha & Hack & ->)|(l & Hcm')]]].
  - by left.
  - apply covered_stays. by eapply ag_commit.
  - destruct (accepted_agrees m r Hom Hm Ha Hack) as (x & (Hxok & _) & Hcov & _ & _ & Hag).
    eapply covered_grows; [exact HE|exact HK|].
    pose proof (covered_bound _ _ _ _ _ _ Hxok Hcov) as Hb.
    eapply covered_agree; [reflexivity| |eapply covered_less; [|exact Hcov]; lia].
    intros k Hk. apply Hag; lia.
  - destruct (N.eq_0_gt_0_cases (ci rt')) as [->|Hpos]; [by left|].
    destruct (commits_point l Hlive Hcm' Hpos) as [Hh Hp]. right.
    exists (ci rt'), (dterm rt'), (dlog rt'). split_and!; try done; lia.
Qed.

Lemma req_after m r :
  m ∈ network s' -> msg_payload m = AppendReq r ->
  exists x, leader_log E' G' (msg_term m) x /\ excerpt x r /\
    covered cfgs E' K' (msg_term m) x (ar_leader_commit r) /\
    forall rt1, leading s' (msg_term m) rt1 ->
      last_index x <= last_index (dlog rt1) /\ prefix_log x (dlog rt1).
Proof using All.
  destruct step_facts as (_ & _ & _ & _ & _ & Hinv').
  intros [Hm|Hm]%elem_of_app Hp.
  - destruct (ag_req _ _ _ _ _ _ _ _ Hcm m r Hm Hp) as (x & Hlead & Hex & Hcov & Hpre).
    exists x. split; [by eapply leader_log_grows; [exact HE|exact HG|]|]. split; [done|].
    split; [by eapply covered_grows; [exact HE|exact HK|]|]. intros rt1 Hl1.
    destruct (leading_after _ _ Hl1) as [Hl0|(-> & Ht & Hf & Hld)]; [by apply Hpre|].
    destruct Hlead as (_ & _ & b & Hb & _). apply (ag_base _ _ _ _ _ _ _ _ Hcm) in Hb as [j HL].
    rewrite Ht in *. destruct (led_on j (or_introl Hf) Hld HL) as [Hl0 _].
    destruct (leader_extends (or_introl Hf) Hld Hl0) as (Hle & Hpre' & _).
    destruct (Hpre _ Hl0) as [H1 H2]. split; [lia|]. intros k Hk. rewrite H2 by done. apply Hpre'. lia.
  - destruct (co_sends _ _ _ _ _ _ _ Hco m Hm)
      as [_ [Hq|[(Hld & Ht & r' & Hp' & Hci)|[(_ & _ & Hp')|[[_ Hp'] _]]]]].
    + unfold quiet_message in Hq. by rewrite Hp in Hq.
    + assert (r' = r) as -> by congruence. rewrite Ht, Hci.
      assert (out <> []) as Hout by (intros ->; inversion Hm).
      exists (dlog rt'). split; [apply released_leads; [by right|done]|].
      split; [by eapply lo_msgs|]. split; [apply commit_after; by right|].
      intros rt1 Hl1. destruct (leading_after _ _ Hl1) as [_|(-> & _)]; [|by split].
      destruct Hl1 as (j & Hj & Hf1 & Hld1 & Ht1).
      assert (j = i) as ->.
      { eapply (one_crown_per_term cfgs B' L' s' _ _ (dterm rt')); [done| |].
        - rewrite <- Ht1. by eapply inv_lead.
        - right. split_and!; [done|done|by right|done]. }
      rewrite node_after in Hj. injection Hj as <-. by split.
    + congruence.
    + congruence.
Qed.

Lemma commitment_after : commitment cfgs B' L' E' G' D' K' s'.
Proof using All.
  split.
  - apply chains_after.
  - intros j t [HL|(-> & -> & Hf & Hld)].
    + destruct (ag_crown _ _ _ _ _ _ _ _ Hcm _ _ HL) as [l Hg]. exists l. by left.
    + destruct (leader_cases Hf Hld) as [(Hlead & _)|[Hno _]].
      * destruct (ag_lead _ _ _ _ _ _ _ _ Hcm _ _ Hlead) as (_ & _ & b & Hb & _). exists b. by left.
      * exists (dlog rt'). by right.
  - intros t l [Hg|(-> & _ & Hf & Hld & _)].
    + destruct (ag_base _ _ _ _ _ _ _ _ Hcm _ _ Hg) as [j HL]. exists j. by left.
    + exists i. by right.
  - apply elected_after.
  - apply cast_after.
  - apply ballot_after.
  - apply ask_after.
  - apply node_holds.
  - apply candidate_holds.
  - apply kept_after.
  - apply lead_after.
  - apply req_after.
  - apply ack_after.
  - intros j rt1 l Hj Hf Hr v. destruct (after_nodes _ _ Hj) as [[-> ->] | [Hne Hj0]].
    + apply match_after; [by left|done].
    + eapply acked_grows; [exact HK|]. by eapply ag_match.
  - intros j rt1 Hj Hf. destruct (after_nodes _ _ Hj) as [[-> ->] | [Hne Hj0]].
    + apply commit_after. by left.
    + eapply covered_grows; [exact HE|exact HK|]. by eapply ag_commit.
Qed.

End Step.

(** ** Executions *)

(** An acknowledgement of [m] covers the request exactly, or the log ends in an entry
    of the leader's term. *)
Definition tidy_ack (m : Message) (l : Log) (ack : Message) : bool :=
  match msg_payload m, msg_payload ack with
  | AppendReq r, AppendResp a =>
      negb (aresp_success a)
      || (aresp_last_log_index a =? ar_prev_log_index r + N.of_nat (length (ar_entries r)))
      || (last_term l =? msg_term m)
  | _, _ => true
  end.

Section Executions.

Context {St Out : Type} (apply_command : Command -> St -> St * Out) (initial_state : St).
Context (cfgs : gmap N NodeConfig).

Abbreviation dlog rt := (p_log (rt_durable rt)).

(** The messages an action adds to the network acknowledge nothing stale. *)
Definition acks_tidy (s : Cluster St) (a : Action) (s' : Cluster St) : bool :=
  match delivered s a, nodes s' !! actor a with
  | Some m, Some rt' =>
      forallb (tidy_ack m (dlog rt')) (drop (length (network s)) (network s'))
  | _, _ => true
  end.

(** Moreover, the action is not a call that runs on a runtime that failed after the
    call's health check. *)
Definition tidy (s : Cluster St) (a : Action) (s' : Cluster St) : bool :=
  orderly s a && acks_tidy s a s'.

(** [run], as long as the actions are tidy. *)
Fixpoint tidy_run (s : Cluster St) (acts : list Action) : option (Cluster St) :=
  match acts with
  | [] => Some s
  | a :: acts' =>
      match exec apply_command initial_state s a with
      | Some s' => if tidy s a s' then tidy_run s' acts' else None
      | None => None
      end
  end.

Context (Hmembers : same_members cfgs).

Lemma tidy_accepted s a (rt rt' : RaftRuntime St) out m r :
  tidy s a (update s (actor a) rt' out) = true -> delivered s a = Some m ->
  accepted m r rt rt' -> (exists ack, ack ∈ out /\ acks rt' ack) ->
  tidy_log (dlog rt) r (p_term (rt_durable rt')).
Proof.
  unfold tidy, acks_tidy. intros [_ Ht]%andb_true_iff Hm (Hp & Hterm & _ & Heq) (ack & Hin & _ & Ha).
  rewrite Hm in Ht. simpl in Ht.
  rewrite lookup_insert_eq, drop_app_length in Ht. rewrite forallb_forall in Ht.
  specialize (Ht ack (proj1 (list_elem_of_In _ _) Hin)). unfold tidy_ack in Ht. rewrite Hp, Ha in Ht.
  simpl in Ht. apply orb_true_iff in Ht as [Ht|Ht]; apply N.eqb_eq in Ht; unfold tidy_log; rewrite <- Heq.
  - by left.
  - right. congruence.
Qed.

(** The whole invariant, with its ghosts. *)
Definition consistent_state (E : Writes) (K : N -> N -> N -> Prop) (s : Cluster St) : Prop :=
  exists B L G D, inv cfgs B L s /\ matching E L s /\ commitment cfgs B L E G D K s.

Lemma tidy_step E K s a s' :
  consistent_state E K s -> exec apply_command initial_state s a = Some s' -> tidy s a s' = true ->
  exists E' K', consistent_state E' K' s' /\ (forall i t p q, E i t p q -> E' i t p q) /\
    (forall v u k, K v u k -> K' v u k) /\
    forall rt rt', nodes s !! actor a = Some rt -> rt_failed rt = false ->
      nodes s' !! actor a = Some rt' ->
      forall k, k <= commit_index (core (rt_node rt)) -> get (dlog rt') k = get (dlog rt) k.
Proof using Hmembers.
  intros (B & L & G & D & Hinv & Hlm & Hcm) Ha Ht.
  destruct (exec_is_op _ _ _ _ _ (inv_traffic _ _ _ _ Hinv) Ha) as (rt & rt' & out & Hrt & -> & Hop).
  rewrite (proj1 (proj1 (andb_true_iff _ _) Ht)) in Hop.
  destruct (inv_node _ _ _ _ Hinv _ _ Hrt) as [Hid Hsy].
  pose proof (runtime_op_ok _ _ _ _ _ _ _ _ _ Hsy Hid Hop) as Hok.
  pose proof (runtime_op_log _ _ _ _ _ _ _ _ _ Hsy Hop) as Hlo.
  pose proof (runtime_op_commit _ _ _ _ _ _ _ _ _ Hsy Hid Hop) as Hco.
  destruct (matching_op _ _ _ _ _ Hinv Hlm _ _ _ _ Hrt Hok Hlo) as (E' & Hlm' & HE & Hwr).
  exists E', (K' K (actor a) rt').
  split; [|split_and!; [done|by left|]].
  2: { intros rt0 rt0' H0 Hf H1. rewrite Hrt in H0. injection H0 as <-.
       simpl in H1. rewrite lookup_insert_eq in H1. injection H1 as <-.
       eapply (prefix_stays cfgs);
         [done..|intros m r Hm Hacc Hack; by eapply tidy_accepted|by eapply ag_commit]. }
  exists (cast B (actor a) rt'), (crown L (actor a) rt' out), (G' L G rt' out), (D' D (actor a) rt rt').
  split_and!; [by eapply inv_step|done|].
  eapply commitment_after; [done..|]. intros m r Hm Hacc Hack. by eapply tidy_accepted.
Qed.

Lemma tidy_run_consistent acts E K s s' :
  consistent_state E K s -> tidy_run s acts = Some s' ->
  exists E' K', consistent_state E' K' s' /\ (forall i t p q, E i t p q -> E' i t p q) /\
    forall v u k, K v u k -> K' v u k.
Proof using Hmembers.
  revert E K s. induction acts as [|a acts IH]; intros E K s Hs; simpl; [intros [= <-]; eauto|].
  destruct (exec apply_command initial_state s a) as [s1|] eqn:Ea; [|done].
  destruct (tidy s a s1) eqn:Et; [|done]. intros Hr.
  destruct (tidy_step _ _ _ _ _ Hs Ea Et) as (E1 & K1 & Hs1 & HE1 & HK1 & _).
  destruct (IH _ _ _ Hs1 Hr) as (E2 & K2 & Hs2 & HE2 & HK2). exists E2, K2. split_and!; eauto.
Qed.

Lemma initial_consistent :
  consistent_state (fun _ _ _ _ => False) (fun _ _ _ => False) (initial initial_state cfgs).
Proof using Hmembers.
  assert (forall i rt, nodes (initial initial_state cfgs) !! i = Some rt ->
    p_log (rt_durable rt) = Log_default /\ commit_index (core (rt_node rt)) = 0 /\
    role_is_follower (role (rt_node rt)) = true) as Hn.
  { intros i rt. simpl. rewrite lookup_omap. destruct (cfgs !! i) as [cfg|] eqn:Ec; [|done].
    simpl. unfold open_option. rewrite (initial_persistent_eq _ Hmembers _ _ Ec).
    destruct (Runtime.open _ _ _) eqn:Eo; [|done]. intros [= <-].
    apply open_Ok in Eo as (_ & -> & _ & -> & _). split; [done|].
    unfold restore. destruct (Follower.new _ _) as [c f] eqn:Ef. apply follower_new_core in Ef. by subst. }
  assert (forall k u, ~ has Log_default k u) as Hempty.
  { intros k u Hh. apply has_range in Hh; [|apply log_ok_default]. change (last_index Log_default) with 0 in Hh. lia. }
  exists (fun _ _ _ => False), (fun _ _ => False), (fun _ _ => False), (fun _ _ _ _ => False).
  split; [by apply initial_inv|]. split; [by apply initial_matching|].
  split; try done; try (intros m r Hm; inversion Hm; fail).
  - intros i rt (-> & _)%Hn. split; [done|]. split; intros k; [intros u|]; intros []%Hempty.
  - intros i rt t (-> & _)%Hn _ k u []%Hempty.
  - intros t rt (i & (_ & _ & Hr)%Hn & _ & Hl & _). unfold is_leader in Hl. by destruct (role _).
  - intros i rt l (_ & _ & Hr)%Hn _ Hl. by rewrite Hl in Hr.
  - intros i rt (_ & Hc & _)%Hn _. by left.
Qed.

(** Two covered logs agree. *)
Lemma covered_logs_agree E K s t l c t' l' c' :
  consistent_state E K s -> covered cfgs E K t l c -> covered cfgs E K t' l' c' ->
  forall k, 1 <= k -> k <= c -> k <= c' -> exists e, get l k = Some e /\ get l' k = Some e.
Proof using Hmembers.
  intros (B & L & G & D & Hinv & Hlm & Hcm) Hc Hc' k Hk1 Hk Hk'.
  destruct Hc as [->|(c0 & u & z & Hp & _ & Hle & Hz & Hlz & Hh & Hag)]; [lia|].
  destruct Hc' as [->|(c0' & u' & z' & Hp' & _ & Hle' & Hz' & Hlz' & Hh' & Hag')]; [lia|].
  pose proof (has_range _ _ _ Hz Hh). destruct (has_at z k Hz) as [w (e & He & _)]; [lia|].
  exists e. rewrite Hag, Hag' by done. split; [done|]. rewrite <- He. symmetry.
  eapply (points_agree cfgs E G K); [apply Hcm|by eapply elected_before|exact Hp|exact Hp'|..]; done || lia.
Qed.

End Executions.

(** Two nodes at two moments of an execution. *)
Lemma agreed_entry {St Out : Type} (apply_command : Command -> St -> St * Out)
    (initial_state : St) cfgs acts1 s1 acts2 s2 a b rta rtb k
    (Hmembers : same_members cfgs)
    (Hrun1 : tidy_run apply_command initial_state (initial initial_state cfgs) acts1 = Some s1)
    (Hrun2 : tidy_run apply_command initial_state s1 acts2 = Some s2)
    (Ha : nodes s1 !! a = Some rta) (Hfa : rt_failed rta = false)
    (Hb : nodes s2 !! b = Some rtb) (Hfb : rt_failed rtb = false)
    (Hk : 1 <= k) (Hka : k <= commit_index (core (rt_node rta)))
    (Hkb : k <= commit_index (core (rt_node rtb))) :
  exists e, get (log (core (rt_node rta))) k = Some e /\ get (log (core (rt_node rtb))) k = Some e.
Proof.
  destruct (tidy_run_consistent apply_command initial_state cfgs Hmembers acts1 _ _ _ s1
    (initial_consistent initial_state cfgs Hmembers) Hrun1) as (E1 & K1 & Hs1 & _ & _).
  destruct (tidy_run_consistent apply_command initial_state cfgs Hmembers acts2 _ _ _ s2 Hs1 Hrun2)
    as (E2 & K2 & Hs2 & HE & HK).
  pose proof Hs1 as (B1 & L1 & G1 & D1 & Hinv1 & _ & Hcm1).
  pose proof Hs2 as (B2 & L2 & G2 & D2 & Hinv2 & _ & Hcm2).
  assert (forall B L s i (rt : RaftRuntime St), inv cfgs B L s -> nodes s !! i = Some rt -> rt_failed rt = false ->
    log (core (rt_node rt)) = p_log (rt_durable rt)) as Hsync.
  { intros B L s i rt Hinv Hi Hf. destruct (inv_node _ _ _ _ Hinv _ _ Hi) as (_ & _ & _ & Hsy).
    destruct (Hsy Hf) as (_ & <- & _). done. }
  rewrite (Hsync _ _ _ _ _ Hinv1 Ha Hfa), (Hsync _ _ _ _ _ Hinv2 Hb Hfb).
  eapply (covered_logs_agree cfgs Hmembers E2 K2 s2); [exact Hs2| | |done|exact Hka|exact Hkb].
  - eapply covered_grows; [exact HE|exact HK|]. by eapply (ag_commit _ _ _ _ _ _ _ _ Hcm1).
  - by eapply (ag_commit _ _ _ _ _ _ _ _ Hcm2).
Qed.

(** C2. State machine safety: in the executions of a cluster in which no follower
    acknowledges a stale suffix and no call runs on a runtime that has failed since the
    call's health check, through message loss, duplication and reordering, crashes,
    restarts and disk failures, no two nodes ever commit different entries at an index:
    what [a] has committed up to some moment is, entry by entry, what [b] has committed
    then or at any later moment.  [Divergence.state_machines_diverge] and
    [Divergence.late_acknowledgement_loses_entry] show that neither condition can be
    dropped. *)
Theorem committed_entries_agree {St Out : Type} (apply_command : Command -> St -> St * Out)
    (initial_state : St) cfgs acts1 s1 acts2 s2 a b rta rtb k
    (Hmembers : same_members cfgs)
    (Hrun1 : tidy_run apply_command initial_state (initial initial_state cfgs) acts1 = Some s1)
    (Hrun2 : tidy_run apply_command initial_state s1 acts2 = Some s2)
    (Ha : nodes s1 !! a = Some rta) (Hfa : rt_failed rta = false)
    (Hb : nodes s2 !! b = Some rtb) (Hfb : rt_failed rtb = false)
    (Hk : 1 <= k) (Hka : k <= commit_index (core (rt_node rta)))
    (Hkb : k <= commit_index (core (rt_node rtb))) :
  exists e, get (log (core (rt_node rta))) k = Some e /\ get (log (core (rt_node rtb))) k = Some e.
Proof. by eapply (agreed_entry apply_command initial_state cfgs acts1 s1 acts2 s2 a b). Qed.

(** Node 1 replicates two commands to node 2; both commit the first. *)
Definition commit_1 : list Action :=
  replicate_1 ++ [deliver 1 11; APropose 1 [Byte.x62] true; deliver 2 12].

Definition commits_b {St} (s : Cluster St) (i c : N) : bool :=
  match nodes s !! i with
  | Some rt => negb (rt_failed rt) && (commit_index (core (rt_node rt)) =? c)
  | None => false
  end.

Lemma commits_b_spec {St} (s : Cluster St) i c :
  commits_b s i c = true ->
  exists rt, nodes s !! i = Some rt /\ rt_failed rt = false /\ commit_index (core (rt_node rt)) = c.
Proof.
  unfold commits_b. destruct (nodes s !! i) as [rt|]; [|done]. intros. unbool.
  exists rt. split_and!; [done|by destruct (rt_failed rt)|done].
Qed.

Lemma committed_entries_agree_witness :
  exists (s : Cluster (list Command)) rta rtb e,
    nodes s !! 1 = Some rta /\ nodes s !! 2 = Some rtb /\
    get (log (core (rt_node rta))) 1 = Some e /\ get (log (core (rt_node rtb))) 1 = Some e.
Proof.
  destruct (tidy_run journal [] (initial [] trio) commit_1) as [s|] eqn:E;
    [|vm_compute in E; discriminate E].
  assert (commits_b s 1 1 = true) as Ha by (vm_compute in E; injection E as <-; reflexivity).
  assert (commits_b s 2 1 = true) as Hb by (vm_compute in E; injection E as <-; reflexivity).
  apply commits_b_spec in Ha as (rta & Ha & Hfa & Hca).
  apply commits_b_spec in Hb as (rtb & Hb & Hfb & Hcb).
  destruct (committed_entries_agree journal [] trio commit_1 s [] s 1 2 rta rtb 1 trio_members
    E eq_refl Ha Hfa Hb Hfb) as (e & Hea & Heb).
  - lia.
  - rewrite Hca. lia.
  - rewrite Hcb. lia.
  - exists s, rta, rtb, e. split; [exact Ha|]. split; [exact Hb|]. split; [exact Hea|exact Heb].
Defined.
