(* ===== verification/Replicas.v ===== *)
(** * Replicas: nodes apply the same commands in the same order

    A node's state is the initial state after the commands of its log up to the
    index it has applied, and it applies only committed entries.  With [Agreement]
    this makes the replicas of the state machine agree: of two nodes, the state of
    the one that has applied more is the state of the other after further commands. *)

From S2P Require Import Prelude.
From S2P Require Import Types.
From S2P Require Import Log.
From S2P Require Import Event.
From S2P Require Import Core.
From S2P Require Import Follower.
From S2P Require Import Leader.
From S2P Require Import Node.
From S2P Require Import HardState.
From S2P Require Import Static.
From S2P Require Import Progress.
From S2P Require Import Settings.
From S2P Require Import Runtime.
From S2P Require Import Cluster.
From S2P Require Import LogMatching.
From S2P Require Import Commitment.
From S2P Require Import Agreement.

(** ** Replaying a log *)

Section Replay.

Context {St Out : Type} (apply_command : Command -> St -> St * Out) (initial_state : St).
Implicit Types (rt : RaftRuntime St).

Abbreviation dlog rt := (p_log (rt_durable rt)).
Abbreviation ci rt := (commit_index (core (rt_node rt))).
Abbreviation la rt := (last_applied (core (rt_node rt))).

(** The commands of the log at the indices from [a] on, [n] of them. *)
Definition commands_at (l : Log) (a : N) (n : nat) : list Command :=
  omap (fun k => ce_command <$> committed_at l k) (seqN a n).

(** Run commands on a state. *)
Definition run_commands (cmds : list Command) (st : St) : St :=
  foldl (fun st cmd => fst (apply_command cmd st)) st cmds.

(** The state after the first [n] entries of the log. *)
Definition replay (l : Log) (n : N) : St :=
  run_commands (commands_at l 1 (N.to_nat n)) initial_state.

Lemma commands_at_app l a n m :
  commands_at l a (n + m) = commands_at l a n ++ commands_at l (a + N.of_nat n) m.
Proof.
  unfold commands_at, seqN. rewrite seq_app, fmap_app, omap_app. f_equal. simpl.
  rewrite <- (Nat.add_0_r n) at 1. rewrite <- fmap_add_seq, <- list_fmap_compose. f_equal.
  apply list_fmap_ext. intros i x _. simpl. lia.
Qed.

Lemma replay_split l n m :
  replay l (n + m) = run_commands (commands_at l (n + 1) (N.to_nat m)) (replay l n).
Proof.
  unfold replay, run_commands. rewrite N2Nat.inj_add, commands_at_app, foldl_app.
  do 2 f_equal. lia.
Qed.

Lemma commands_at_agree l l' a n :
  (forall k, a <= k < a + N.of_nat n -> get l k = get l' k) -> commands_at l a n = commands_at l' a n.
Proof.
  revert a. induction n as [|n IH]; intros a Hag; [done|].
  change (S n) with (1 + n)%nat. rewrite !commands_at_app, IH by (intros k Hk; apply Hag; lia).
  f_equal. unfold commands_at. simpl. unfold committed_at. by rewrite Hag by lia.
Qed.

(** An entry of a log that holds commands only. *)
Lemma command_at l k : log_ok l -> 1 <= k <= last_index l -> exists e, committed_at l k = Some e.
Proof.
  intros Hok Hk. destruct (has_at l k Hok Hk) as [t (e & He & _)]. destruct Hok as (_ & _ & _ & Hes).
  rewrite Forall_forall in Hes. destruct (Hes e (get_elem _ _ _ He)) as [Hc _].
  unfold committed_at. rewrite He. destruct (e_payload e); [eauto|done].
Qed.

Lemma commands_at_length l a n :
  log_ok l -> 1 <= a -> a + N.of_nat n <= last_index l + 1 -> length (commands_at l a n) = n.
Proof.
  intros Hok. revert a. induction n as [|n IH]; intros a Ha Hn; [done|].
  change (S n) with (1 + n)%nat. rewrite commands_at_app, length_app, IH by lia.
  unfold commands_at. simpl. rewrite N.add_0_r.
  destruct (command_at l a Hok) as [e ->]; [lia|]. done.
Qed.

(** ** Applying *)

(** The state of the node is the replay of its log. *)
Definition replayed rt : Prop :=
  log_ok (log (core (rt_node rt))) /\ ci rt + 1 < two64 /\
  ci rt <= last_index (log (core (rt_node rt))) /\ la rt <= ci rt /\
  rt_state rt = replay (log (core (rt_node rt))) (la rt).

Lemma committed_head rt e :
  replayed rt -> head (committed (rt_node rt)) = Some e ->
  ce_index e = la rt + 1 /\ la rt < ci rt /\
  committed_at (log (core (rt_node rt))) (la rt + 1) = Some e.
Proof.
  intros (Hok & Hroom & Hlast & Hle & _). unfold committed. rewrite !wadd_small by lia. unfold range.
  destruct (N.eq_dec (la rt) (ci rt)) as [->|Hne].
  { by replace (N.to_nat _) with 0%nat by lia. }
  destruct (command_at (log (core (rt_node rt))) (la rt + 1) Hok) as [e' He']; [lia|].
  replace (N.to_nat (ci rt + 1 - (la rt + 1))) with (S (N.to_nat (ci rt - la rt - 1))) by lia.
  unfold seqN. simpl. rewrite N.add_0_r, He'. simpl. intros [= <-].
  split_and!; [|lia|done]. eapply committed_at_index; [|exact He']. apply Hok.
Qed.

Lemma apply_entry_replayed rt e :
  replayed rt -> head (committed (rt_node rt)) = Some e ->
  replayed (fst (apply_entry apply_command rt e)).
Proof.
  intros Hr Hh. destruct (committed_head _ _ Hr Hh) as (Hi & Hlt & He).
  destruct Hr as (Hok & Hroom & Hlast & Hle & Hst).
  pose proof (apply_entry_node apply_command rt e) as (Hn & Hs & _). unfold replayed.
  rewrite Hn, Hs. simpl. rewrite Hi, Hst.
  change (log (set_last_applied (core (rt_node rt)) (la rt + 1))) with (log (core (rt_node rt))).
  split_and!; [done|done|done|lia|]. rewrite replay_split. unfold commands_at. simpl.
  rewrite N.add_0_r, He. done.
Qed.

Lemma apply_loop_replayed fuel rt rt' ds :
  replayed rt -> apply_loop apply_command fuel rt = Some (rt', ds) -> replayed rt'.
Proof.
  revert rt ds. induction fuel as [|fuel IH]; intros rt ds Hr; simpl; [done|].
  destruct (head (committed (rt_node rt))) as [e|] eqn:Eh; [|intros; by simplify_eq].
  pose proof (apply_entry_replayed _ _ Hr Eh) as Hr1.
  destruct (apply_entry apply_command rt e) as [rt1 d1]. simpl in Hr1.
  destruct (apply_loop apply_command fuel rt1) as [[rt2 d2]|] eqn:El; [|done].
  intros. simplify_eq. by eapply IH.
Qed.

Lemma apply_committed_replayed rt rt' ds :
  replayed rt -> apply_committed apply_command rt = (rt', ds) -> replayed rt'.
Proof.
  intros Hr. unfold apply_committed. case_match eqn:E; intros; simplify_eq; [|done].
  by eapply apply_loop_replayed.
Qed.

(** ** One operation *)

(** The commit index does not go back, and nothing is applied by the automaton. *)
Lemma node_move_commit i net om n n' e :
  node_ok_static n -> node_move i net om n n' e -> commit_index (core n) + 1 < two64 ->
  commit_index (core n) <= last_index (log (core n')) ->
  commit_index (core n) <= commit_index (core n') /\ last_applied (core n') = last_applied (core n).
Proof.
  intros Hns Hmv Hroom Hlast. destruct Hmv as [(Hok & Hov & Hs & _)|(cmd & idx & Hr & Hp)].
  - assert (forall m, om = Some m -> msg_ok m) as Hm by (intros m ->; exact Hok).
    destruct (step_event_progress _ _ _ _ Hns Hm Hov Hs) as [_ _ _ Hc Ha _]. split; [|done].
    destruct Hc as [->|[(m0 & _ & (req & _ & _ & _ & _ & _ & ->) & _)|[Hle _]]].
    + lia.
    + case_match; unbool; lia.
    + rewrite wadd_small in Hle by done. lia.
  - destruct (node_propose_progress _ _ _ _ _ Hns ltac:(lia) Hp) as (l & l' & _ & _ & _ & Ha & Hc & _).
    split; [|done]. destruct Hc as [->|[Hle _]]; [lia|]. rewrite wadd_small in Hle by done. lia.
Qed.

(** A healthy node after an operation that keeps its committed entries. *)
Lemma op_replayed boot i net om rt rt' out :
  synced boot rt -> synced boot rt' -> op_end apply_command initial_state i net om rt rt' out ->
  rt_failed rt' = false -> (rt_failed rt = false -> replayed rt) ->
  (rt_failed rt = false -> forall k, k <= ci rt -> get (dlog rt') k = get (dlog rt) k) ->
  ci rt' <= last_index (dlog rt') -> ci rt' + 1 < two64 -> replayed rt'.
Proof.
  intros (_ & _ & Hsync) (_ & _ & Hsync') Hend Hf' Hold Hkept Hlast Hroom.
  destruct (Hsync' Hf') as ([Hok' _] & Hper' & _).
  assert (log (core (rt_node rt')) = dlog rt') as Hlog' by (by rewrite <- Hper').
  destruct Hend as [Hd Hf Hn Hst|Hd Hf|n' e out Hf Hmv Hd Hsame Hsub Hall|Ho]; [|congruence|..].
  - unfold replayed. rewrite Hn, Hst. apply Hold. congruence.
  - destruct (Hsync Hf) as (Hns & Hper & _). destruct (Hold Hf) as (Hok & Hrm & Hl & Hle & Hs).
    destruct (Hall Hf') as [_ (rt0 & rt1 & ds & Hn0 & Hs0 & Hap & Hn1 & Hs1)].
    assert (log (core (rt_node rt)) = dlog rt) as Hlog by (by rewrite <- Hper).
    assert (log (core n') = dlog rt') as Hlogn by (by rewrite Hd).
    assert (ci rt <= last_index (dlog rt')) as Hcl.
    { destruct (N.eq_0_gt_0_cases (ci rt)) as [->|Hpos]; [lia|].
      rewrite Hlog in Hl, Hok. destruct (has_at (dlog rt) (ci rt) Hok) as [t Ht]; [lia|].
      apply (has_agree _ (dlog rt')) in Ht; [|symmetry; by apply Hkept].
      apply has_range in Ht; [lia|]. by rewrite <- Hlog'. }
    rewrite <- Hlogn in Hcl.
    destruct (node_move_commit _ _ _ _ _ _ Hns Hmv Hrm Hcl) as [Hmono Hla].
    assert (ci rt' = commit_index (core n')) as Hci by (destruct Hsame as [_ [x ->]]; done).
    assert (replayed rt0) as Hr0.
    { unfold replayed. rewrite Hn0, Hs0, Hs, Hla, Hlogn, <- Hci.
      split_and!; [by rewrite <- Hlog'|done|done|lia|].
      unfold replay. rewrite Hlog. f_equal. apply commands_at_agree.
      intros k Hk. symmetry. apply Hkept; [done|lia]. }
    apply (apply_committed_replayed _ _ _ Hr0) in Hap. unfold replayed. by rewrite Hn1, Hs1.
  - unfold Runtime.open in Ho. destruct (validate_config _); simpl in Ho; [|done]. simplify_eq.
    unfold replayed. rewrite Hlog'. simpl in *. unfold restore in *.
    destruct (Follower.new _ _) as [c f] eqn:Ef. apply follower_new_core in Ef. subst c. simpl in *.
    split_and!; [done|lia|lia|lia|done].
Qed.

End Replay.

(** ** Executions *)

Section Executions.

Context {St Out : Type} (apply_command : Command -> St -> St * Out) (initial_state : St).
Context (cfgs : gmap N NodeConfig) (Hmembers : same_members cfgs).

Abbreviation dlog rt := (p_log (rt_durable rt)).
Abbreviation ci rt := (commit_index (core (rt_node rt))).

Definition replicated (s : Cluster St) : Prop :=
  forall i rt, nodes s !! i = Some rt -> rt_failed rt = false ->
    replayed apply_command initial_state rt.

(** The commit index of a healthy node, within its log and below [u64::MAX]. *)
Lemma commit_bounds E K (s : Cluster St) i rt :
  consistent_state cfgs E K s -> nodes s !! i = Some rt -> rt_failed rt = false ->
  synced (boot_config cfgs) rt /\ ci rt <= last_index (dlog rt) /\ ci rt + 1 < two64.
Proof.
  intros (B & L & G & D & Hinv & Hlm & Hcm) Hi Hf.
  destruct (inv_node _ _ _ _ Hinv _ _ Hi) as [_ Hsy]. pose proof Hsy as (Hok & _).
  pose proof (covered_bound _ _ _ _ _ _ Hok (ag_commit _ _ _ _ _ _ _ _ Hcm _ _ Hi Hf)).
  pose proof (linked_room E G (ag_chains _ _ _ _ _ _ _ _ Hcm) _ Hok (lm_log _ _ _ Hlm _ _ Hi)).
  split_and!; [done|done|lia].
Qed.

Lemma tidy_step_replicated E K s a s' :
  consistent_state cfgs E K s -> replicated s ->
  exec apply_command initial_state s a = Some s' -> tidy s a s' = true ->
  exists E' K', consistent_state cfgs E' K' s' /\ replicated s'.
Proof using Hmembers.
  intros Hs Hr Ha Ht.
  destruct (tidy_step _ _ _ Hmembers _ _ _ _ _ Hs Ha Ht) as (E' & K' & Hs' & _ & _ & Hkept).
  exists E', K'. split; [done|]. pose proof Hs as (B & L & G & D & Hinv & _).
  destruct (exec_is_op _ _ _ _ _ (inv_traffic _ _ _ _ Hinv) Ha) as (rt & rt' & out & Hrt & -> & Hop).
  rewrite (proj1 (proj1 (andb_true_iff _ _) Ht)) in Hop.
  destruct (inv_node _ _ _ _ Hinv _ _ Hrt) as [_ Hsy].
  destruct (runtime_op_end _ _ _ _ _ _ _ _ _ Hsy Hop) as [_ Hend].
  intros j rt1 Hj Hf. pose proof Hj as Hj'. simpl in Hj'. destruct (decide (j = actor a)) as [->|Hne].
  - rewrite lookup_insert_eq in Hj'. injection Hj' as <-.
    destruct (commit_bounds _ _ _ _ _ Hs' Hj Hf) as (Hsy' & Hlast & Hroom).
    eapply op_replayed; [exact Hsy|exact Hsy'|exact Hend|done| | |done|done].
    + intros Hf0. by eapply Hr.
    + intros Hf0. by eapply (Hkept rt rt').
  - rewrite lookup_insert_ne in Hj' by done. by eapply Hr.
Qed.

Lemma tidy_run_replicated acts E K s s' :
  consistent_state cfgs E K s -> replicated s ->
  tidy_run apply_command initial_state s acts = Some s' -> replicated s'.
Proof using Hmembers.
  revert E K s. induction acts as [|a acts IH]; intros E K s Hs Hr; simpl; [by intros [= <-]|].
  destruct (exec apply_command initial_state s a) as [s1|] eqn:Ea; [|done].
  destruct (tidy s a s1) eqn:Et; [|done].
  destruct (tidy_step_replicated _ _ _ _ _ Hs Hr Ea Et) as (E1 & K1 & Hs1 & Hr1). by apply (IH E1 K1).
Qed.

Lemma initial_replicated : replicated (initial initial_state cfgs).
Proof using Hmembers.
  intros i rt. simpl. rewrite lookup_omap. destruct (cfgs !! i) as [cfg|] eqn:Ec; [|done].
  simpl. unfold open_option, Runtime.open. rewrite (initial_persistent_eq _ Hmembers _ _ Ec).
  destruct (validate_config cfg); simpl; [|done]. intros [= <-] _. unfold replayed. simpl.
  unfold restore. destruct (Follower.new _ _) as [c f] eqn:Ef. apply follower_new_core in Ef. subst c. simpl.
  split_and!; [apply log_ok_default|done|done|done|done].
Qed.

End Executions.

(** C3. Replica agreement: in the executions of a cluster in which no follower
    acknowledges a stale suffix and no call runs on a runtime that has failed since the
    call's health check, the replicated state machines agree.  If node [b] has
    applied at least as many entries as node [a] had at some earlier moment, the state
    of [b] is the state [a] had then after the commands that the log of [b] holds in
    between, one per index: in particular two nodes that have applied equally many entries are in
    the same state. *)
Theorem replicas_agree {St Out : Type} (apply_command : Command -> St -> St * Out)
    (initial_state : St) cfgs acts1 s1 acts2 s2 a b rta rtb
    (Hmembers : same_members cfgs)
    (Hrun1 : tidy_run apply_command initial_state (initial initial_state cfgs) acts1 = Some s1)
    (Hrun2 : tidy_run apply_command initial_state s1 acts2 = Some s2)
    (Ha : nodes s1 !! a = Some rta) (Hfa : rt_failed rta = false)
    (Hb : nodes s2 !! b = Some rtb) (Hfb : rt_failed rtb = false)
    (Hle : last_applied (core (rt_node rta)) <= last_applied (core (rt_node rtb))) :
  let n := last_applied (core (rt_node rta)) in
  let m := last_applied (core (rt_node rtb)) in
  let cmds := commands_at (log (core (rt_node rtb))) (n + 1) (N.to_nat (m - n)) in
  length cmds = N.to_nat (m - n) /\ rt_state rtb = run_commands apply_command cmds (rt_state rta).
Proof.
  pose proof (initial_consistent initial_state cfgs Hmembers) as Hs0.
  pose proof (initial_replicated apply_command initial_state cfgs Hmembers) as Hr0.
  destruct (tidy_run_consistent _ _ _ Hmembers _ _ _ _ _ Hs0 Hrun1) as (E1 & K1 & Hs1 & _).
  pose proof (tidy_run_replicated _ _ _ Hmembers _ _ _ _ _ Hs0 Hr0 Hrun1) as Hr1.
  pose proof (tidy_run_replicated _ _ _ Hmembers _ _ _ _ _ Hs1 Hr1 Hrun2) as Hr2.
  destruct (Hr1 _ _ Ha Hfa) as (Hoka & _ & Hla & Hca & ->).
  destruct (Hr2 _ _ Hb Hfb) as (Hokb & _ & Hlb & Hcb & ->).
  set (n := last_applied (core (rt_node rta))) in *. set (m := last_applied (core (rt_node rtb))) in *.
  cbv zeta. split; [by apply commands_at_length; done || lia|].
  replace m with (n + (m - n)) at 1 by lia. rewrite replay_split. f_equal. unfold replay. f_equal.
  apply commands_at_agree. intros k Hk.
  destruct (agreed_entry _ _ _ _ _ _ _ _ _ _ _ k Hmembers Hrun1 Hrun2 Ha Hfa Hb Hfb) as (e & -> & ->);
    [lia..|done].
Qed.

(** Nodes 1 and 2 of [commit_1] have both applied the first command. *)
Definition applied_b (s : Cluster (list Command)) (i n : N) : bool :=
  match nodes s !! i with
  | Some rt => negb (rt_failed rt) && (last_applied (core (rt_node rt)) =? n)
  | None => false
  end.

Lemma applied_b_spec s i n :
  applied_b s i n = true ->
  exists rt, nodes s !! i = Some rt /\ rt_failed rt = false /\ last_applied (core (rt_node rt)) = n.
Proof.
  unfold applied_b. destruct (nodes s !! i) as [rt|]; [|done]. intros. unbool.
  exists rt. split_and!; [done|by destruct (rt_failed rt)|done].
Qed.

Lemma replicas_agree_witness :
  exists (s : Cluster (list Command)) rta rtb,
    nodes s !! 1 = Some rta /\ nodes s !! 2 = Some rtb /\
    last_applied (core (rt_node rta)) = 1 /\ rt_state rtb = rt_state rta.
Proof.
  destruct (tidy_run journal [] (initial [] trio) commit_1) as [s|] eqn:E;
    [|vm_compute in E; discriminate E].
  assert (applied_b s 1 1 = true) as Ha by (vm_compute in E; injection E as <-; reflexivity).
  assert (applied_b s 2 1 = true) as Hb by (vm_compute in E; injection E as <-; reflexivity).
  apply applied_b_spec in Ha as (rta & Ha & Hfa & Hla).
  apply applied_b_spec in Hb as (rtb & Hb & Hfb & Hlb).
  assert (last_applied (core (rt_node rta)) <= last_applied (core (rt_node rtb))) as Hle by lia.
  destruct (replicas_agree journal [] trio commit_1 s [] s 1 2 rta rtb trio_members
    E eq_refl Ha Hfa Hb Hfb Hle) as [_ Hst].
  exists s, rta, rtb. split_and!; [exact Ha|exact Hb|exact Hla|]. rewrite Hla, Hlb in Hst. exact Hst.
Defined.
