(* ===== verification/Divergence.v ===== *)
(** * Divergence: executions in which replication goes wrong

    Four behaviours of the code that the rest of the development does not rule
    out, as theorems about the model.

    A successful [AppendResponse] reports the last index of the follower's whole
    log ([follower.rs], [handle_append_request]), and the leader takes it for the
    index up to which the follower's log matches its own ([leader.rs],
    [handle_append_response]).  A follower with a longer, different log that
    acknowledges a heartbeat is therefore counted as storing entries it does not
    have: the leader commits an entry that is on no other node, and two state
    machines apply different commands at the same index.

    A call of the runtime checks its health before it waits for the machine's lock
    ([runtime.rs], [step]).  A repeated request that has passed the check while another
    one's save fails finds the unsaved entry already in memory and acknowledges it: the
    leader commits an entry that a crash then loses.

    A rejection reports the follower's last index as a hint, and the leader never goes
    below it, so in every further round of rejections a follower whose last entry
    conflicts is asked about that same index. *)

From S2P Require Import Prelude.
From S2P Require Import Types.
From S2P Require Import Membership.
From S2P Require Import Log.
From S2P Require Import Event.
From S2P Require Import Core.
From S2P Require Import Follower.
From S2P Require Import Leader.
From S2P Require Import Node.
From S2P Require Import HardState.
From S2P Require Import Settings.
From S2P Require Import Runtime.
From S2P Require Import Cluster.
From S2P Require Import LogMatching.
From S2P Require Import Agreement.

(** ** The execution *)

Definition cmd_a : Command := [Byte.x61].
Definition cmd_b : Command := [Byte.x62].
Definition cmd_c : Command := [Byte.x63].

(** Node 1 leads term 1 and appends [a] locally; its messages are delayed. *)
Definition isolate_1 : list Action := elect_1 ++ [APropose 1 cmd_a true].

(** Node 2 is elected in term 2 by node 3; node 1 steps down. *)
Definition elect_2 : list Action :=
  ticks_of 2 211 ++ [deliver 3 12; deliver 2 13; deliver 3 15; deliver 2 16; deliver 1 17].

(** Node 1 acknowledges a heartbeat of node 2; then [b] is proposed to node 2. *)
Definition acknowledge : list Action :=
  ticks_of 2 75 ++ [deliver 1 19; deliver 2 21; APropose 2 cmd_b true].

(** Node 1 is elected in term 3 by node 3 and commits [a] and [c]. *)
Definition elect_1_again : list Action :=
  ticks_of 1 187 ++ [deliver 3 25; deliver 1 26; deliver 3 28; deliver 1 29].
Definition replicate_a : list Action :=
  [deliver 3 31; deliver 1 32; deliver 3 33; deliver 1 34; APropose 1 cmd_c true;
   deliver 3 36; deliver 1 37].

Definition premature_commit : list Action := isolate_1 ++ elect_2 ++ acknowledge.
Definition divergence : list Action := premature_commit ++ elect_1_again ++ replicate_a.

(** ** What it reaches *)

(** The entry node [i] stores at [j]. *)
Definition stored {St} (s : Cluster St) (i j : N) : option Entry :=
  match nodes s !! i with Some rt => get (log (core (rt_node rt))) j | None => None end.

Definition committed_index {St} (s : Cluster St) (i : N) : N :=
  match nodes s !! i with Some rt => node_commit_index (rt_node rt) | None => 0 end.

Definition applied_state (s : Cluster (list Command)) (i : N) : option (list Command) :=
  rt_state <$> nodes s !! i.

Definition entry_b : Entry := mkEntry 2 1 (CommandPayload cmd_b).

(** A leader can commit an entry that no other node stores: there is a reachable
    state of a three-node cluster in the shipped configuration in which node 2
    has committed and applied [b] at index 1 while node 1 stores another entry
    there and node 3 stores none. *)
Theorem commit_without_replication :
  exists s, reachable journal [] trio s /\
    committed_index s 2 = 1 /\ stored s 2 1 = Some entry_b /\
    applied_state s 2 = Some [cmd_b] /\
    stored s 1 1 = Some (mkEntry 1 1 (CommandPayload cmd_a)) /\ stored s 3 1 = None.
Proof.
  destruct (run_checks_reachable journal [] trio premature_commit
    (fun s => bool_decide (committed_index s 2 = 1 /\ stored s 2 1 = Some entry_b /\
       applied_state s 2 = Some [cmd_b] /\
       stored s 1 1 = Some (mkEntry 1 1 (CommandPayload cmd_a)) /\ stored s 3 1 = None)))
    as (s & Hr & Hp); [vm_compute; reflexivity|].
  exists s. split; [done|]. by apply bool_decide_eq_true in Hp.
Qed.

(** C11. State machine safety fails: there is a reachable state of the same cluster,
    with every node healthy and no message lost for good, in which node 1 has
    applied [a] then [c] and node 2 has applied [b] as its first command. *)
Theorem state_machines_diverge :
  exists s, reachable journal [] trio s /\
    applied_state s 1 = Some [cmd_a; cmd_c] /\ applied_state s 2 = Some [cmd_b] /\
    1 <= committed_index s 1 /\ 1 <= committed_index s 2 /\ stored s 1 1 <> stored s 2 1.
Proof.
  destruct (run_checks_reachable journal [] trio divergence
    (fun s => bool_decide (applied_state s 1 = Some [cmd_a; cmd_c] /\
       applied_state s 2 = Some [cmd_b] /\ 1 <= committed_index s 1 /\
       1 <= committed_index s 2 /\ stored s 1 1 <> stored s 2 1)))
    as (s & Hr & Hp); [vm_compute; reflexivity|].
  exists s. split; [done|]. by apply bool_decide_eq_true in Hp.
Qed.

(** ** A call that runs after its runtime has failed *)

(** Node 1 leads term 1 and proposes [a].  A repetition of its request passes the health
    check of node 2 and waits; the save of the request itself fails; then the repetition
    gets the lock and is acknowledged, and node 1 commits [a]. *)
Definition late_acknowledgement : list Action :=
  elect_1 ++ [APropose 1 cmd_a true; AEnterStep 2 9; ADeliver 2 9 false; ALocked 2 0 true;
              deliver 1 11].

(** Node 2 restarts without the entry, is elected by node 3 and commits [b]. *)
Definition restart_and_lead : list Action :=
  [ACrash 2] ++ ticks_of 2 300 ++
  [deliver 3 13; deliver 2 14; deliver 3 16; deliver 2 17; APropose 2 cmd_b true; deliver 3 21;
   deliver 2 22].

(** Every action of a run acknowledges nothing stale. *)
Fixpoint acks_tidy_run (s : Cluster (list Command)) (acts : list Action) : bool :=
  match acts with
  | [] => true
  | a :: acts' =>
      match exec journal [] s a with
      | Some s' => acks_tidy s a s' && acks_tidy_run s' acts'
      | None => false
      end
  end.

Definition healthy {St} (s : Cluster St) (i : N) : bool :=
  match nodes s !! i with Some rt => negb (rt_failed rt) | None => false end.

(** C12. A call that runs after its runtime has failed loses a committed entry: in an
    execution of a three-node cluster without a single stale acknowledgement, node 2
    acknowledges an entry its disk does not hold, node 1 commits and applies [a] on the
    strength of it, and after a restart node 2 commits and applies [b] at the same
    index; all nodes are healthy in the end. *)
Theorem late_acknowledgement_loses_entry :
  acks_tidy_run (initial [] trio) (late_acknowledgement ++ restart_and_lead) = true /\
  (exists s, run journal [] (initial [] trio) late_acknowledgement = Some s /\
     committed_index s 1 = 1 /\ on_disk s 2 1 = None) /\
  exists s, run journal [] (initial [] trio) (late_acknowledgement ++ restart_and_lead) = Some s /\
    applied_state s 1 = Some [cmd_a] /\ applied_state s 2 = Some [cmd_b] /\
    committed_index s 1 = 1 /\ committed_index s 2 = 1 /\ stored s 1 1 <> stored s 2 1 /\
    healthy s 1 = true /\ healthy s 2 = true /\ healthy s 3 = true.
Proof.
  assert (forall acts p, run_checks journal [] trio acts p = true ->
    exists s, run journal [] (initial [] trio) acts = Some s /\ p s = true) as Hrc.
  { intros acts p. unfold run_checks. destruct (run _ _ _ _) as [s|]; [|done]. eauto. }
  split; [vm_compute; reflexivity|]. split.
  - destruct (Hrc late_acknowledgement
      (fun s => bool_decide (committed_index s 1 = 1 /\ on_disk s 2 1 = None)))
      as (s & Hr & Hp); [vm_compute; reflexivity|].
    exists s. split; [done|]. by apply bool_decide_eq_true in Hp.
  - destruct (Hrc (late_acknowledgement ++ restart_and_lead)
      (fun s => bool_decide (applied_state s 1 = Some [cmd_a] /\ applied_state s 2 = Some [cmd_b] /\
         committed_index s 1 = 1 /\ committed_index s 2 = 1 /\ stored s 1 1 <> stored s 2 1 /\
         healthy s 1 = true /\ healthy s 2 = true /\ healthy s 3 = true)))
      as (s & Hr & Hp); [vm_compute; reflexivity|].
    exists s. split; [done|]. by apply bool_decide_eq_true in Hp.
Qed.

(** ** Rejections that repeat *)

Lemma send_append_shape l c to next :
  next_index l !! to = Some next -> snapshot_index (log c) < next - 1 ->
  exists l' req,
    send_append_to l c to =
      (l', with_message none (mkMessage (id c) to (term c) (AppendReq req))) /\
    ar_prev_log_index req = next - 1 /\ ar_prev_log_term req = term_at (log c) (next - 1) /\
    match_index l' = match_index l.
Proof.
  intros Hn Hs. unfold send_append_to. rewrite Hn. simpl.
  rewrite (proj2 (N.leb_gt next _)) by lia. unfold saturating_sub.
  rewrite (proj2 (N.leb_gt (next - 1) _)) by lia. simpl.
  eexists _, _. split_and!; [reflexivity|done|done|]. by case_match.
Qed.

(** A follower that fails the consistency check answers with its last index. *)
Lemma inconsistent_is_rejected f c from req :
  consistent (log c) req = false ->
  let '(_, c', r) := Follower.handle_append_request f c from req in
  persistent c' = persistent c /\
  messages (effects r) = [append_response c from false].
Proof.
  intros Hc. unfold Follower.handle_append_request.
  destruct (reset_deadline _ c) as [f1 c1] eqn:Er. apply reset_deadline_core in Er. subst c1.
  change (log (set_rng c (xorshift64 (rng c)))) with (log c). by rewrite Hc.
Qed.

(** One round: let a follower's log end at [m] with an entry whose term differs from the
    leader's at [m].  When the leader handles the follower's rejection (which reports
    [m]), it asks about index [m] again; the follower leaves its persistent state alone
    and answers with the very same rejection. *)
Lemma rejection_repeats l cl cf from ldr f m
    (Hm : last_index (log cf) = m) (Hpos : 0 < m) (Hroom : m + 1 < two64)
    (Hconf : term_at (log cl) m <> term_at (log cf) m)
    (Hmember : is_member (effective_config cl) from = true)
    (Hmatch : match_of l from <= m) (Hsnap : snapshot_index (log cl) < m) :
  let rejection := mkAppendResponse false m in
  let '(l', cl', r) := Leader.handle_append_response l cl from rejection in
  exists req, cl' = cl /\ match_of l' from = match_of l from /\
    messages (effects r) = [mkMessage (id cl) from (term cl) (AppendReq req)] /\
    ar_prev_log_index req = m /\
    let '(_, cf', r') := Follower.handle_append_request f cf ldr req in
    persistent cf' = persistent cf /\
    messages (effects r') = [mkMessage (id cf) ldr (term cf) (AppendResp rejection)].
Proof.
  unfold Leader.handle_append_response. rewrite Hmember. simpl.
  rewrite !wadd_small, !(N.max_l (m + 1)) by lia.
  replace (if pipelining (config cl) then m + 1 else m + 1) with (m + 1) by (by case_match).
  destruct (send_append_shape (insert_next l from (m + 1)) cl from (m + 1))
    as (l' & req & -> & Hprev & Hterm & Hmi); [apply lookup_insert_eq|lia|].
  replace (m + 1 - 1) with m in * by lia. exists req. split_and!; try done.
  - unfold match_of. by rewrite Hmi.
  - assert (consistent (log cf) req = false) as Hc.
    { unfold consistent. rewrite Hprev, Hterm, (proj2 (N.ltb_lt _ _)) by done.
      rewrite (proj2 (N.eqb_neq _ _)); [done|congruence]. }
    pose proof (inconsistent_is_rejected f cf ldr req Hc) as Hr.
    unfold append_response in Hr. by rewrite Hm in Hr.
Qed.

(** The two ends of a conversation that consists of rejections and retries. *)
Record Conversation : Type := mkConversation {
  cv_leader : Leader;
  cv_leader_core : Core;
  cv_follower : Follower;
  cv_follower_core : Core
}.

(** The leader handles the rejection of the follower, and the follower handles the
    request this makes the leader send; [None] when the follower accepts. *)
Definition retry (from ldr : N) (x : Conversation) : option (Conversation * AppendRequest) :=
  let rejection := mkAppendResponse false (last_index (log (cv_follower_core x))) in
  let '(l, cl, r) := Leader.handle_append_response (cv_leader x) (cv_leader_core x) from rejection in
  match messages (effects r) with
  | [mkMessage _ _ _ (AppendReq req)] =>
      let '(f, cf, r') := Follower.handle_append_request (cv_follower x) (cv_follower_core x) ldr req in
      match messages (effects r') with
      | [mkMessage _ _ _ (AppendResp answer)] =>
          if aresp_success answer then None else Some (mkConversation l cl f cf, req)
      | _ => None
      end
  | _ => None
  end.

Fixpoint retries (n : nat) (from ldr : N) (x : Conversation)
  : option (Conversation * list AppendRequest) :=
  match n with
  | O => Some (x, [])
  | S n' =>
      match retry from ldr x with
      | Some (x1, req) =>
          match retries n' from ldr x1 with
          | Some (x2, reqs) => Some (x2, req :: reqs)
          | None => None
          end
      | None => None
      end
  end.

(** Rejections make no progress: let a follower's log end at [m] with an entry whose
    term differs from the leader's at [m].  Then any number of consecutive rounds, each
    the leader's reaction to the follower's rejection and the follower's reaction to
    the request it is sent, are all rejections; every request asks about index [m]
    again, the follower's persistent state and the leader's core and match index stay
    what they were. *)
Theorem rejections_make_no_progress n from ldr x m
    (Hm : last_index (log (cv_follower_core x)) = m) (Hpos : 0 < m) (Hroom : m + 1 < two64)
    (Hconf : term_at (log (cv_leader_core x)) m <> term_at (log (cv_follower_core x)) m)
    (Hmember : is_member (effective_config (cv_leader_core x)) from = true)
    (Hmatch : match_of (cv_leader x) from <= m)
    (Hsnap : snapshot_index (log (cv_leader_core x)) < m) :
  exists x' reqs, retries n from ldr x = Some (x', reqs) /\ length reqs = n /\
    Forall (fun req => ar_prev_log_index req = m) reqs /\
    cv_leader_core x' = cv_leader_core x /\
    match_of (cv_leader x') from = match_of (cv_leader x) from /\
    persistent (cv_follower_core x') = persistent (cv_follower_core x).
Proof.
  revert x Hm Hconf Hmember Hmatch Hsnap. induction n as [|n IH]; intros x Hm Hconf Hmember Hmatch Hsnap.
  - exists x, []. by repeat split; try constructor.
  - pose proof (rejection_repeats (cv_leader x) (cv_leader_core x) (cv_follower_core x) from ldr
      (cv_follower x) m Hm Hpos Hroom Hconf Hmember Hmatch Hsnap) as Hround.
    cbv zeta in Hround. simpl. unfold retry. rewrite Hm.
    destruct (Leader.handle_append_response _ _ _ _) as [[l cl] r].
    destruct Hround as (req & -> & Hmo & -> & Hprev & Hf).
    destruct (Follower.handle_append_request _ _ _ _) as [[f cf] r']. destruct Hf as [Hp ->]. simpl.
    assert (log cf = log (cv_follower_core x)) as Hlog by (unfold log; by rewrite Hp).
    destruct (IH (mkConversation l (cv_leader_core x) f cf)) as (x' & reqs & -> & Hlen & Hall & Hc & Hmo' & Hp');
      simpl; rewrite ?Hlog, ?Hmo; try done.
    exists x', (req :: reqs). split_and!; [done|simpl; congruence|by constructor|done..| |].
    + simpl in Hmo'. congruence.
    + simpl in Hp'. congruence.
Qed.

(** A leader with [a] and a follower with [b] at index 1, after 100 rounds. *)
Definition conflict : Conversation :=
  let cl := set_log (set_vote (Core_new (raft_config 1) [1; 2; 3]) 3 (Some 1))
              (mkLog [mkEntry 1 1 (CommandPayload cmd_a)] 0 0 None) in
  let cf := set_log (set_vote (Core_new (raft_config 2) [1; 2; 3]) 3 None)
              (mkLog [entry_b] 0 0 None) in
  mkConversation (snd (fst (Leader.new cl))) cl (Follower.mkFollower None 0 None) cf.

Definition stored_entry_of (x : Conversation) : option Entry := get (log (cv_follower_core x)) 1.

Lemma rejections_make_no_progress_witness :
  exists x' reqs, retries 100 2 1 conflict = Some (x', reqs) /\ length reqs = 100%nat /\
    stored_entry_of x' = Some entry_b.
Proof.
  destruct (rejections_make_no_progress 100 2 1 conflict 1 eq_refl eq_refl eq_refl
    ltac:(vm_compute; discriminate) eq_refl ltac:(vm_compute; discriminate) eq_refl)
    as (x' & reqs & Hr & Hlen & _ & _ & _ & Hp).
  exists x', reqs. split; [exact Hr|]. split; [exact Hlen|].
  unfold stored_entry_of, log. rewrite Hp. reflexivity.
Defined.
