(* ===== verification/Sessions.v ===== *)
(** * Sessions: the duplicate filter of [basisdb-raft-io]

    Models [consensus/basisdb-raft-io/src/session.rs]: the table of client sessions
    a replicated state machine embeds to execute each request once. *)

From S2P Require Import Prelude.

(** [ClientId] and [SequenceNum] are [u64]. *)
Record ClientSession (R : Type) : Type := mkClientSession {
  last_sequence_field : N;
  last_response : option R
}.
Arguments mkClientSession {R}.
Arguments last_sequence_field {R}.
Arguments last_response {R}.

(** A request payload with its session. *)
Record SessionRequest (T : Type) : Type := mkSessionRequest {
  sr_client_id : N;
  sr_sequence : N;
  payload : T
}.
Arguments mkSessionRequest {T}.

Definition SessionRequest_new {T : Type} (client_id sequence : N) (p : T) : SessionRequest T :=
  mkSessionRequest client_id sequence p.

Inductive DuplicateCheck (R : Type) : Type :=
| New
| Duplicate (r : R)
| Stale.
Arguments New {R}.
Arguments Duplicate {R}.
Arguments Stale {R}.

Record SessionTracker (R : Type) : Type := mkSessionTracker {
  sessions : gmap N (ClientSession R);
  next_client_id : N
}.
Arguments mkSessionTracker {R}.
Arguments sessions {R}.
Arguments next_client_id {R}.

Section Tracker.

Context {R : Type}.

Definition ClientSession_default : ClientSession R := mkClientSession 0 None.

Definition new : SessionTracker R := mkSessionTracker ∅ 1.

Definition register_client (t : SessionTracker R) : SessionTracker R * N :=
  let id := next_client_id t in
  (mkSessionTracker (<[id := ClientSession_default]> (sessions t)) (next_client_id t +u 1), id).

Definition check_duplicate (t : SessionTracker R) (client_id sequence : N) : DuplicateCheck R :=
  match sessions t !! client_id with
  | None => New
  | Some session =>
      match N.compare sequence (last_sequence_field session) with
      | Gt => New
      | Eq => match last_response session with
              | Some resp => Duplicate resp
              | None => New
              end
      | Lt => Stale
      end
  end.

Definition record_completion (t : SessionTracker R) (client_id sequence : N) (response : R)
  : SessionTracker R :=
  let session := default ClientSession_default (sessions t !! client_id) in
  let session := if last_sequence_field session <? sequence
                 then mkClientSession sequence (Some response) else session in
  mkSessionTracker (<[client_id := session]> (sessions t)) (next_client_id t).

Definition expire_session (t : SessionTracker R) (client_id : N) : SessionTracker R * bool :=
  (mkSessionTracker (delete client_id (sessions t)) (next_client_id t),
   is_some (sessions t !! client_id)).

Definition is_registered (t : SessionTracker R) (client_id : N) : bool :=
  is_some (sessions t !! client_id).
Definition session_count (t : SessionTracker R) : nat := size (sessions t).
Definition last_sequence (t : SessionTracker R) (client_id : N) : option N :=
  last_sequence_field <$> sessions t !! client_id.

(** ** Executions

    The protocol of the module's documentation: check, execute, record, with clients
    registered and sessions expired in between.  [execute] is the application's; the list
    collects the requests that were executed. *)
Context {S : Type} (execute : S -> N -> N -> S * R).

Record Machine : Type := mkMachine {
  app : S;
  tracker : SessionTracker R;
  executed : list (N * N)
}.

Definition serve (m : Machine) (req : N * N) : Machine * option R :=
  let '(c, s) := req in
  match check_duplicate (tracker m) c s with
  | Duplicate r => (m, Some r)
  | Stale => (m, None)
  | New =>
      let '(a, r) := execute (app m) c s in
      (mkMachine a (record_completion (tracker m) c s r) (executed m ++ [(c, s)]), Some r)
  end.

Inductive SessionOp : Type :=
| Serve (client_id sequence : N)
| Register
| Expire (client_id : N).

Definition perform (m : Machine) (op : SessionOp) : Machine :=
  match op with
  | Serve c s => (serve m (c, s)).1
  | Register => mkMachine (app m) (register_client (tracker m)).1 (executed m)
  | Expire c => mkMachine (app m) (expire_session (tracker m) c).1 (executed m)
  end.

Definition run (m : Machine) (ops : list SessionOp) : Machine := foldl perform m ops.

(** The sequence numbers client [c] sends. *)
Definition sequences (c : N) (ops : list SessionOp) : list N :=
  omap (fun op => match op with
                  | Serve c' s => if c' =? c then Some s else None
                  | _ => None
                  end) ops.

(** The sequence numbers of client [c] that are executed. *)
Definition executed_of (c : N) (xs : list (N * N)) : list N :=
  omap (fun x => if x.1 =? c then Some x.2 else None) xs.

(** The reference: a request is executed when its sequence number exceeds every earlier one. *)
Fixpoint records (last : N) (ss : list N) : list N :=
  match ss with
  | [] => []
  | s :: ss => if last <? s then s :: records s ss else records last ss
  end.

Lemma records_above last ss : Forall (N.lt last) (records last ss).
Proof.
  revert last. induction ss as [|s ss IH]; intros last; [constructor|]. cbn [records].
  destruct (N.ltb_spec last s); [|done]. constructor; [done|].
  eapply Forall_impl; [apply IH|]. intros x Hx. simpl in Hx. lia.
Qed.

Lemma records_nodup last ss : NoDup (records last ss).
Proof.
  revert last. induction ss as [|s ss IH]; intros last; [constructor|]. cbn [records].
  destruct (last <? s); [|done]. constructor; [|done]. intros Hin.
  pose proof (records_above s ss) as H. rewrite Forall_forall in H. specialize (H _ Hin). lia.
Qed.

(** ** The session of one client *)

(** The session of [c] is open at sequence number [last], answered unless it is fresh, and
    [c] will not be handed out again. *)
Definition open_at (c last : N) (m : Machine) : Prop :=
  c < next_client_id (tracker m) /\
  exists ss, sessions (tracker m) !! c = Some ss /\ last_sequence_field ss = last /\
             (last_response ss = None -> last = 0).

(** Serving [c] itself executes exactly the requests above [last]. *)
Lemma serve_self m c last s : open_at c last m -> 1 <= s ->
  exists ex, executed (perform m (Serve c s)) = executed m ++ ex /\
    executed_of c ex = (if last <? s then [s] else []) /\
    next_client_id (tracker (perform m (Serve c s))) = next_client_id (tracker m) /\
    open_at c (if last <? s then s else last) (perform m (Serve c s)).
Proof.
  intros (Hc & ss & Hss & <- & Hz) Hs. unfold open_at, perform, serve, check_duplicate. rewrite Hss.
  destruct (N.compare_spec s (last_sequence_field ss)) as [Heq|Hlt|Hgt].
  - destruct (last_response ss) eqn:Er; [|specialize (Hz eq_refl); lia].
    rewrite (proj2 (N.ltb_ge _ _)) by lia. exists []. rewrite app_nil_r. simpl. split_and!; eauto 6.
    exists ss. by rewrite Er.
  - rewrite (proj2 (N.ltb_ge _ _)) by lia. exists []. rewrite app_nil_r. simpl. eauto 10.
  - rewrite (proj2 (N.ltb_lt _ _)) by lia. destruct (execute (app m) c s) as [a r].
    exists [(c, s)]. unfold record_completion. cbn. rewrite N.eqb_refl, Hss. cbn.
    rewrite (proj2 (N.ltb_lt _ _)), lookup_insert_eq by lia. split_and!; [done..|].
    eexists. split; [done|]. done.
Qed.

(** The other operations leave the session of [c] alone. *)
Lemma serve_other m c last c' s : open_at c last m -> c' <> c ->
  exists ex, executed (perform m (Serve c' s)) = executed m ++ ex /\ executed_of c ex = [] /\
    next_client_id (tracker (perform m (Serve c' s))) = next_client_id (tracker m) /\
    open_at c last (perform m (Serve c' s)).
Proof.
  intros (Hc & Hss) Hne. unfold open_at, perform, serve.
  destruct (check_duplicate (tracker m) c' s); [|exists []; rewrite app_nil_r; by split_and!..].
  destruct (execute (app m) c' s) as [a r]. exists [(c', s)]. cbn.
  rewrite (proj2 (N.eqb_neq _ _)), lookup_insert_ne by done. by split_and!.
Qed.

Lemma register_keeps_open m c last : open_at c last m -> next_client_id (tracker m) + 1 < two64 ->
  open_at c last (perform m Register).
Proof.
  intros (Hc & Hss) Hb. unfold open_at. cbn. rewrite wadd_small, lookup_insert_ne by lia.
  split; [lia|done].
Qed.

Lemma expire_keeps_open m c last c' : open_at c last m -> c' <> c ->
  open_at c last (perform m (Expire c')).
Proof. intros (Hc & Hss) Hne. unfold open_at. cbn. by rewrite lookup_delete_ne. Qed.

Lemma perform_next_client m op :
  next_client_id (tracker (perform m op)) <= next_client_id (tracker m) + 1.
Proof.
  destruct op as [c s| |c]; cbn; [|apply wadd_le|lia].
  destruct (check_duplicate (tracker m) c s); [|simpl; lia..].
  destruct (execute (app m) c s) as [a r]. cbn. lia.
Qed.

Lemma run_next_client m ops :
  next_client_id (tracker (run m ops)) <= next_client_id (tracker m) + N.of_nat (length ops).
Proof.
  revert m. induction ops as [|op ops IH]; intros m; [simpl; lia|]. cbn [run foldl length].
  pose proof (perform_next_client m op). specialize (IH (perform m op)). unfold run in IH. lia.
Qed.

(** The requests [c] sends: what the documentation asks of them. *)
Definition numbered_from_one (c : N) (op : SessionOp) : Prop :=
  match op with
  | Serve c' s => c' = c -> 1 <= s
  | Register => True
  | Expire c' => c' <> c
  end.

Lemma session_executes_records c ops : Forall (numbered_from_one c) ops -> forall m last,
  open_at c last m -> next_client_id (tracker m) + N.of_nat (length ops) < two64 ->
  exists ex, executed (run m ops) = executed m ++ ex /\
             executed_of c ex = records last (sequences c ops).
Proof.
  induction 1 as [|op ops Hop _ IH]; intros m last Ho Hb; [exists []; by rewrite app_nil_r|].
  pose proof (perform_next_client m op) as Hn. cbn [length] in Hb.
  assert (forall ex0 last', executed (perform m op) = executed m ++ ex0 ->
    open_at c last' (perform m op) ->
    exists ex, executed (run m (op :: ops)) = executed m ++ ex /\
               executed_of c ex = executed_of c ex0 ++ records last' (sequences c ops)) as Hgo.
  { intros ex0 last' He0 Ho'. destruct (IH _ _ Ho' ltac:(lia)) as (ex & He & Hr).
    exists (ex0 ++ ex). unfold run, executed_of in *. cbn [foldl].
    rewrite He, He0, app_assoc, omap_app, Hr. done. }
  destruct op as [c' s| |c']; cbn [numbered_from_one] in Hop.
  - destruct (decide (c' = c)) as [->|Hne].
    + destruct (serve_self m c last s Ho (Hop eq_refl)) as (ex0 & He0 & Hx & _ & Ho').
      destruct (Hgo _ _ He0 Ho') as (ex & He & Hr). exists ex. split; [done|]. rewrite Hr, Hx.
      unfold sequences. cbn. rewrite N.eqb_refl. cbn [records]. by destruct (last <? s).
    + destruct (serve_other m c last c' s Ho Hne) as (ex0 & He0 & Hx & _ & Ho').
      destruct (Hgo _ _ He0 Ho') as (ex & He & Hr). exists ex. split; [done|]. rewrite Hr, Hx.
      unfold sequences. cbn. by rewrite (proj2 (N.eqb_neq _ _)).
  - apply (Hgo []); [cbn; by rewrite app_nil_r|]. apply register_keeps_open; [done|lia].
  - apply (Hgo []); [cbn; by rewrite app_nil_r|]. by apply expire_keeps_open.
Qed.

Lemma register_opens m : next_client_id (tracker m) + 1 < two64 ->
  open_at (next_client_id (tracker m)) 0 (perform m Register).
Proof.
  intros Hb. unfold open_at. cbn. rewrite wadd_small, lookup_insert_eq by done. split; [lia|].
  by exists ClientSession_default.
Qed.

End Tracker.

Arguments mkMachine {R S}.

(** C35. Sessions: after any operations, register a client and let any operations follow,
    requests of registered and unregistered clients, further registrations and expiries of
    other sessions, in any order.  The requests of the new client that are executed since its
    registration are exactly those whose sequence number exceeds every earlier one it sent,
    so none is executed twice.  The client numbers its requests from 1, its session is not
    expired, and the client counter does not run past [u64::MAX]. *)
Theorem requests_execute_at_most_once {R S : Type} (execute : S -> N -> N -> S * R) a before after
    (c := next_client_id (tracker (run execute (mkMachine a new []) before)))
    (Hafter : Forall (numbered_from_one c) after)
    (Hb : N.of_nat (length before) + N.of_nat (length after) + 2 < two64) :
  let m := run execute (mkMachine a new []) (before ++ [Register]) in
  exists ex, executed (run execute m after) = executed m ++ ex /\
    executed_of c ex = records 0 (sequences c after) /\ NoDup (executed_of c ex).
Proof.
  cbn zeta. pose proof (run_next_client execute (mkMachine a new []) before) as Hn. cbn in Hn.
  assert (run execute (mkMachine a new []) (before ++ [Register]) =
    perform execute (run execute (mkMachine a new []) before) Register) as ->
    by (unfold run; by rewrite foldl_app).
  pose proof (register_opens execute (run execute (mkMachine a new []) before) ltac:(lia)) as Ho.
  pose proof (perform_next_client execute (run execute (mkMachine a new []) before) Register).
  destruct (session_executes_records execute c after Hafter _ _ Ho ltac:(lia)) as (ex & He & Hr).
  exists ex. split_and!; [done|done|]. rewrite Hr. apply records_nodup.
Qed.

Definition demo_execute (n c s : N) : N * N := (n + 1, n).
Definition demo_before : list SessionOp := [Serve 7 1; Register; Serve 1 1; Expire 1].
Definition demo_after : list SessionOp :=
  [Serve 2 1; Serve 2 3; Serve 1 1; Serve 2 1; Register; Serve 2 3; Expire 1; Serve 2 2; Serve 2 4].

Lemma requests_execute_at_most_once_witness :
  exists ex, executed (run demo_execute (run demo_execute (mkMachine 0 new [])
                         (demo_before ++ [Register])) demo_after) =
             [(7, 1); (1, 1)] ++ ex /\
    executed_of 2 ex = [1; 3; 4] /\ NoDup (executed_of 2 ex).
Proof.
  assert (Forall (numbered_from_one 2) demo_after) as Hafter
    by (unfold demo_after; repeat apply Forall_cons_2; try apply Forall_nil_2; simpl; lia).
  apply (requests_execute_at_most_once demo_execute 0 demo_before demo_after Hafter).
  vm_compute. reflexivity.
Defined.

(** Registration forgets what an unregistered client did: [check_duplicate] answers [New] to a
    client it does not know, the request is executed and recorded under that id, and
    [register_client] may hand out the same id and replace the record by a fresh session, so
    the request is executed a second time when it is retried.  This holds for every
    application state and every [execute]. *)
Theorem registration_forgets_unregistered_client {R S : Type} (execute : S -> N -> N -> S * R) a :
  executed (run execute (mkMachine a new []) [Serve 1 1; Serve 1 1]) = [(1, 1)] /\
  executed (run execute (mkMachine a new []) [Serve 1 1; Register; Serve 1 1]) = [(1, 1); (1, 1)].
Proof.
  destruct (execute a 1 1) as [a1 r1] eqn:E1. destruct (execute a1 1 1) as [a2 r2] eqn:E2.
  split; vm_compute; rewrite E1; cbn; by rewrite ?E2.
Qed.
