(* ===== verification/ReadIndex.v ===== *)
(** * ReadIndex: the read coordinator of [basisdb-raft-io]

    Models [consensus/basisdb-raft-io/src/read_index.rs]: reads that wait for a
    majority of heartbeat acknowledgements. *)

From S2P Require Import Prelude.

(** [ReadId] is a [u64]; [ReadId::next] is part of [request_read]. *)
Record PendingRead : Type := mkPendingRead {
  p_read_index : N;
  p_round : N
}.

Record ReadIndexResult : Type := mkReadIndexResult {
  res_id : N;
  res_read_index : N
}.

Record ReadIndexCoordinator : Type := mkCoordinator {
  voters : list N;
  me : N;
  next_read_id : N;
  current_round : N;
  round_acks : list N;
  pending : gmap N PendingRead;
  completed : list ReadIndexResult
}.

Definition new (me : N) (voters : list N) : ReadIndexCoordinator :=
  mkCoordinator voters me 0 0 [] ∅ [].

(** [ReadId::next]. *)
Definition next (id : N) : N * N := (id +u 1, id).

Definition request_read (c : ReadIndexCoordinator) (read_index : N) : ReadIndexCoordinator * N :=
  let '(next_id, id) := next (next_read_id c) in
  (mkCoordinator (voters c) (me c) next_id (current_round c) (round_acks c)
     (<[id := mkPendingRead read_index (current_round c)]> (pending c)) (completed c), id).

(** The pending reads in ascending order of their ids, as the [BTreeMap] iterates. *)
Definition id_le (x y : N * PendingRead) : Prop := x.1 <= y.1.
#[global] Instance id_le_dec : RelDecision id_le.
Proof. intros x y. unfold id_le. apply _. Defined.

Definition pending_iter (c : ReadIndexCoordinator) : list (N * PendingRead) :=
  merge_sort id_le (map_to_list (pending c)).

Definition to_complete (c : ReadIndexCoordinator) : list (N * N) :=
  (fun x => (x.1, p_read_index x.2)) <$>
  List.filter (fun x => p_round x.2 <=? current_round c) (pending_iter c).

(** One iteration of the completion loop. *)
Definition complete_one (c : ReadIndexCoordinator) (x : N * N) : ReadIndexCoordinator :=
  mkCoordinator (voters c) (me c) (next_read_id c) (current_round c) (round_acks c)
    (delete x.1 (pending c)) (completed c ++ [mkReadIndexResult x.1 x.2]).

Definition quorum (c : ReadIndexCoordinator) : nat := (length (voters c) / 2 + 1)%nat.

Definition check_quorum (c : ReadIndexCoordinator) : ReadIndexCoordinator :=
  if (quorum c <=? length (round_acks c))%nat then foldl complete_one c (to_complete c) else c.

Definition begin_heartbeat_round (c : ReadIndexCoordinator) : ReadIndexCoordinator :=
  let round := current_round c +u 1 in
  check_quorum
    (mkCoordinator (voters c) (me c) (next_read_id c) round [me c]
       ((fun p => mkPendingRead (p_read_index p) round) <$> pending c) (completed c)).

Definition record_ack (c : ReadIndexCoordinator) (from : N) : ReadIndexCoordinator :=
  if negb (bool_decide (from ∈ round_acks c)) && bool_decide (from ∈ voters c)
  then check_quorum
         (mkCoordinator (voters c) (me c) (next_read_id c) (current_round c)
            (round_acks c ++ [from]) (pending c) (completed c))
  else c.

(** The iterator of [poll_completed], drained. *)
Definition poll_completed (c : ReadIndexCoordinator) : ReadIndexCoordinator * list ReadIndexResult :=
  (mkCoordinator (voters c) (me c) (next_read_id c) (current_round c) (round_acks c) (pending c) [],
   completed c).

Definition pending_count (c : ReadIndexCoordinator) : nat := size (pending c).
Definition has_pending (c : ReadIndexCoordinator) : bool := negb (bool_decide (pending c = ∅)).

Definition clear (c : ReadIndexCoordinator) : ReadIndexCoordinator * nat :=
  (mkCoordinator (voters c) (me c) (next_read_id c) (current_round c) [] ∅ (completed c),
   size (pending c)).

(** ** Executions *)

Inductive Op : Type :=
| RequestRead (read_index : N)
| BeginRound
| Ack (from : N)
| Poll
| Clear.

(** A coordinator with the reads handed out by [Poll] and the index each read was
    requested at. *)
Record Trace : Type := mkTrace {
  coord : ReadIndexCoordinator;
  delivered : list ReadIndexResult;
  requested : list (N * N)
}.

Definition perform (t : Trace) (op : Op) : Trace :=
  match op with
  | RequestRead i =>
      let '(c, id) := request_read (coord t) i in mkTrace c (delivered t) (requested t ++ [(id, i)])
  | BeginRound => mkTrace (begin_heartbeat_round (coord t)) (delivered t) (requested t)
  | Ack from => mkTrace (record_ack (coord t) from) (delivered t) (requested t)
  | Poll => let '(c, rs) := poll_completed (coord t) in mkTrace c (delivered t ++ rs) (requested t)
  | Clear => mkTrace (clear (coord t)).1 (delivered t) (requested t)
  end.

Definition run (t : Trace) (ops : list Op) : Trace := foldl perform t ops.

Definition done (t : Trace) : list ReadIndexResult := delivered t ++ completed (coord t).

(** ** The completion loop *)

Lemma complete_all c xs :
  foldl complete_one c xs =
  mkCoordinator (voters c) (me c) (next_read_id c) (current_round c) (round_acks c)
    (foldl (fun m x => delete x.1 m) (pending c) xs)
    (completed c ++ ((fun x => mkReadIndexResult x.1 x.2) <$> xs)).
Proof.
  revert c. induction xs as [|x xs IH]; intros c; simpl; [rewrite app_nil_r; by destruct c|].
  rewrite IH. simpl. by rewrite <- app_assoc.
Qed.

Lemma deletes_lookup (m : gmap N PendingRead) (xs : list (N * N)) i :
  foldl (fun m x => delete x.1 m) m xs !! i = if bool_decide (i ∈ xs.*1) then None else m !! i.
Proof.
  revert m. induction xs as [|x xs IH]; intros m.
  { rewrite bool_decide_eq_false_2; [done|]. intros H. by apply elem_of_nil in H. }
  cbn [foldl]. rewrite IH, fmap_cons. destruct (decide (i = x.1)) as [->|Hne].
  - rewrite (bool_decide_eq_true_2 (x.1 ∈ x.1 :: _)) by left. rewrite lookup_delete_eq. by case_bool_decide.
  - rewrite lookup_delete_ne by done. repeat case_bool_decide; try done; set_solver.
Qed.

Lemma elem_of_to_complete c id i :
  (id, i) ∈ to_complete c <->
  exists p, pending c !! id = Some p /\ p_read_index p = i /\ p_round p <= current_round c.
Proof.
  unfold to_complete, pending_iter. rewrite list_elem_of_fmap. split.
  - intros ([id' p] & [= -> ->] & Hin). apply list_elem_of_In, filter_In in Hin as [Hin Hr].
    apply list_elem_of_In in Hin. rewrite merge_sort_Permutation in Hin.
    apply elem_of_map_to_list in Hin. apply N.leb_le in Hr. by exists p.
  - intros (p & Hp & <- & Hr). exists (id, p). split; [done|].
    apply list_elem_of_In, filter_In. split; [|by apply N.leb_le].
    apply list_elem_of_In. rewrite merge_sort_Permutation. by apply elem_of_map_to_list.
Qed.

Lemma to_complete_nodup c : NoDup (to_complete c).*1.
Proof.
  unfold to_complete, pending_iter. rewrite <- list_fmap_compose.
  assert (NoDup (merge_sort id_le (map_to_list (pending c))).*1) as Hnd
    by (rewrite merge_sort_Permutation; apply NoDup_fst_map_to_list).
  induction (merge_sort id_le (map_to_list (pending c))) as [|x l IH]; simpl; [constructor|].
  simpl in Hnd. apply NoDup_cons in Hnd as [Hx Hnd]. case_match; simpl; [|by apply IH].
  apply NoDup_cons. split; [|by apply IH]. intros Hin. apply Hx.
  apply list_elem_of_fmap in Hin as (y & -> & Hy). apply list_elem_of_In, filter_In in Hy as [Hy _].
  apply list_elem_of_In in Hy. by apply list_elem_of_fmap_2.
Qed.

(** ** The invariant of an execution *)

(** Acknowledgements are distinct voters; every read is pending or done, at most once, with
    the index it was requested at. *)
Record trace_ok (t : Trace) : Prop := mkTraceOk {
  ok_me : me (coord t) ∈ voters (coord t);
  ok_acks : NoDup (round_acks (coord t));
  ok_voters : round_acks (coord t) ⊆ voters (coord t);
  ok_fresh : Forall (fun x => x.1 < next_read_id (coord t)) (requested t);
  ok_ids : NoDup (requested t).*1;
  ok_pending : forall id p, pending (coord t) !! id = Some p ->
    (id, p_read_index p) ∈ requested t;
  ok_done : Forall (fun r => (res_id r, res_read_index r) ∈ requested t) (done t);
  ok_once : NoDup (res_id <$> done t);
  ok_disjoint : forall id, id ∈ res_id <$> done t -> pending (coord t) !! id = None
}.

Lemma new_ok me voters : me ∈ voters -> trace_ok (mkTrace (new me voters) [] []).
Proof.
  intros Hme. constructor; cbn; try done; try constructor. set_solver.
Qed.

(** Completing the reads of a round keeps the invariant. *)
Lemma check_quorum_ok t :
  trace_ok t -> trace_ok (mkTrace (check_quorum (coord t)) (delivered t) (requested t)).
Proof.
  intros []. unfold check_quorum. destruct (quorum _ <=? _)%nat; [|by constructor].
  rewrite complete_all.
  assert (forall r, r ∈ ((fun x => mkReadIndexResult x.1 x.2) <$> to_complete (coord t)) ->
    exists p, pending (coord t) !! res_id r = Some p /\ p_read_index p = res_read_index r) as Hnew.
  { intros r Hr. apply list_elem_of_fmap in Hr as ([id i] & -> & Hx).
    apply elem_of_to_complete in Hx as (p & Hp & Hi & _). by exists p. }
  assert (res_id <$> ((fun x => mkReadIndexResult x.1 x.2) <$> to_complete (coord t)) =
          (to_complete (coord t)).*1) as Hids
    by (rewrite <- list_fmap_compose; by apply list_fmap_ext).
  constructor; unfold done in *; cbn [coord delivered requested voters me round_acks next_read_id
    pending completed]; try done.
  - intros id p. rewrite deletes_lookup. case_bool_decide; [done|]. apply ok_pending0.
  - rewrite app_assoc. apply Forall_app. split; [done|]. apply Forall_forall. intros r Hr.
    destruct (Hnew r Hr) as (p & Hp & <-). by apply ok_pending0.
  - rewrite app_assoc, fmap_app. apply NoDup_app. split_and!; [done| |rewrite Hids; apply to_complete_nodup].
    intros id Hin Hin'. apply list_elem_of_fmap in Hin' as (r & -> & Hr).
    destruct (Hnew r Hr) as (p & Hp & _). by rewrite (ok_disjoint0 _ Hin) in Hp.
  - intros id. rewrite app_assoc, fmap_app, elem_of_app, deletes_lookup. intros [Hin|Hin].
    + rewrite (ok_disjoint0 _ Hin). by case_bool_decide.
    + rewrite Hids in Hin. by rewrite bool_decide_eq_true_2.
Qed.

Lemma request_ok t i :
  trace_ok t -> next_read_id (coord t) + 1 < two64 -> trace_ok (perform t (RequestRead i)).
Proof.
  intros [] Hb. unfold perform, request_read, next, done in *. cbn.
  assert (next_read_id (coord t) ∉ (requested t).*1) as Hni.
  { intros Hin. apply list_elem_of_fmap in Hin as (x & Hx & Hin).
    rewrite Forall_forall in ok_fresh0. specialize (ok_fresh0 _ Hin). simpl in ok_fresh0. lia. }
  constructor; unfold done; cbn [coord delivered requested voters me round_acks next_read_id
    pending completed]; try done.
  - rewrite wadd_small by done. apply Forall_app. split; [|constructor; [simpl; lia|constructor]].
    eapply Forall_impl; [exact ok_fresh0|]. simpl. lia.
  - rewrite fmap_app. apply NoDup_app. split_and!; [done| |apply NoDup_singleton].
    intros id Hin Hin'. apply list_elem_of_singleton in Hin' as ->. done.
  - intros id p. rewrite elem_of_app. destruct (decide (id = next_read_id (coord t))) as [->|Hne].
    + rewrite lookup_insert_eq. intros [= <-]. right. by left.
    + rewrite lookup_insert_ne by done. intros Hp. left. by apply ok_pending0.
  - eapply Forall_impl; [exact ok_done0|]. intros r Hr. rewrite elem_of_app. by left.
  - intros id Hin. rewrite lookup_insert_ne; [by apply ok_disjoint0|]. intros <-. apply Hni.
    apply list_elem_of_fmap in Hin as (r & -> & Hr). rewrite Forall_forall in ok_done0.
    apply ok_done0 in Hr. by apply (list_elem_of_fmap_2 fst) in Hr.
Qed.

Lemma read_perform_ok t op :
  trace_ok t -> next_read_id (coord t) + 1 < two64 -> trace_ok (perform t op).
Proof.
  intros Hok Hb. destruct op as [i| |from| |]; [by apply request_ok|..]; cbn [perform].
  - apply (check_quorum_ok (mkTrace _ (delivered t) (requested t))). destruct Hok.
    constructor; unfold done in *; cbn [coord delivered requested voters me round_acks next_read_id
      pending completed]; try done.
    + apply NoDup_singleton.
    + set_solver.
    + intros id p. rewrite lookup_fmap. intros (q & Hq & ->)%fmap_Some. exact (ok_pending0 _ _ Hq).
    + intros id Hin. rewrite lookup_fmap, fmap_None. by apply ok_disjoint0.
  - unfold record_ack. destruct (negb _ && _) eqn:E; [|by destruct t].
    apply andb_true_iff in E as [Hni Hv]. apply negb_true_iff, bool_decide_eq_false in Hni.
    apply bool_decide_eq_true in Hv.
    apply (check_quorum_ok (mkTrace _ (delivered t) (requested t))). destruct Hok.
    constructor; unfold done in *; cbn [coord delivered requested voters me round_acks next_read_id
      pending completed]; try done.
    + apply NoDup_app. split_and!; [done| |apply NoDup_singleton]. set_solver.
    + set_solver.
  - destruct Hok. constructor; unfold done in *; cbn [coord delivered requested voters me round_acks
      next_read_id pending completed poll_completed]; rewrite ?app_nil_r; done.
  - destruct Hok. constructor; unfold done in *; cbn [coord delivered requested voters me round_acks
      next_read_id pending completed clear fst]; try done; try constructor. set_solver.
Qed.

Lemma check_quorum_next c : next_read_id (check_quorum c) = next_read_id c.
Proof. unfold check_quorum. case_match; [|done]. by rewrite complete_all. Qed.

Lemma perform_next t op : next_read_id (coord (perform t op)) <= next_read_id (coord t) + 1.
Proof.
  destruct op; simpl; try lia.
  - apply wadd_le.
  - unfold begin_heartbeat_round. rewrite check_quorum_next. simpl. lia.
  - unfold record_ack. case_match; rewrite ?check_quorum_next; simpl; lia.
Qed.

Lemma run_ok t ops :
  trace_ok t -> next_read_id (coord t) + N.of_nat (length ops) < two64 -> trace_ok (run t ops).
Proof.
  revert t. induction ops as [|op ops IH]; intros t Hok Hb; [done|]. cbn [run foldl length] in *.
  apply IH; [apply read_perform_ok; [done|lia]|]. pose proof (perform_next t op). lia.
Qed.

(** A step that finishes a read ends with a quorum of acknowledgements. *)
Lemma check_quorum_acks c :
  round_acks (check_quorum c) = round_acks c /\ voters (check_quorum c) = voters c /\
  (completed (check_quorum c) <> completed c ->
   (length (voters c) < 2 * length (round_acks c))%nat).
Proof.
  unfold check_quorum. destruct (Nat.leb_spec (quorum c) (length (round_acks c))) as [H|H]; [|done].
  rewrite complete_all. split_and!; [done|done|]. intros _. unfold quorum in H.
  pose proof (Nat.div_mod_eq (length (voters c)) 2). pose proof (Nat.mod_upper_bound (length (voters c)) 2).
  lia.
Qed.

Lemma finishing_step_has_quorum t op :
  done (perform t op) <> done t ->
  (length (voters (coord (perform t op))) < 2 * length (round_acks (coord (perform t op))))%nat.
Proof.
  unfold done. destruct op as [i| |from| |]; cbn; try done.
  - intros Hd. unfold begin_heartbeat_round in *.
    destruct (check_quorum_acks (mkCoordinator (voters (coord t)) (me (coord t)) (next_read_id (coord t))
      (current_round (coord t) +u 1) [me (coord t)]
      ((fun p => mkPendingRead (p_read_index p) (current_round (coord t) +u 1)) <$> pending (coord t))
      (completed (coord t)))) as (Ha & Hv & Hq). rewrite Ha, Hv. apply Hq. cbn. congruence.
  - unfold record_ack. case_match; [|done]. intros Hd.
    destruct (check_quorum_acks (mkCoordinator (voters (coord t)) (me (coord t)) (next_read_id (coord t))
      (current_round (coord t)) (round_acks (coord t) ++ [from]) (pending (coord t))
      (completed (coord t)))) as (Ha & Hv & Hq). rewrite Ha, Hv. apply Hq. cbn. congruence.
  - rewrite app_nil_r. done.
Qed.

(** ** The running round

    The nodes that acknowledged since the last [begin_heartbeat_round], computed from the
    operations alone.  The leader acknowledges its own round; [clear] ends it. *)
Definition acknowledge (me0 : N) (acks : list N) (op : Op) : list N :=
  match op with
  | BeginRound => [me0]
  | Ack from => from :: acks
  | Clear => []
  | RequestRead _ | Poll => acks
  end.

Definition round_of (me0 : N) (ops : list Op) : list N := foldl (acknowledge me0) [] ops.

Definition is_majority (vs q : list N) : Prop :=
  NoDup q /\ q ⊆ vs /\ (length vs < 2 * length q)%nat.

(** The coordinator's list holds exactly the voters among them. *)
Record tracks (me0 : N) (vs acks : list N) (c : ReadIndexCoordinator) : Prop := mkTracks {
  tr_me : me c = me0;
  tr_voters : voters c = vs;
  tr_acks : forall v, v ∈ round_acks c <-> v ∈ vs /\ v ∈ acks;
  tr_rounds : forall id p, pending c !! id = Some p -> p_round p <= current_round c
}.

Lemma check_quorum_tracks me0 vs acks c : tracks me0 vs acks c -> tracks me0 vs acks (check_quorum c).
Proof.
  intros []. unfold check_quorum. destruct (quorum c <=? _)%nat; [|by constructor].
  rewrite complete_all. constructor; try done. intros id p. cbn [pending current_round].
  rewrite deletes_lookup. case_bool_decide; [done|]. apply tr_rounds0.
Qed.

Lemma perform_tracks me0 vs acks t op : me0 ∈ vs -> tracks me0 vs acks (coord t) ->
  tracks me0 vs (acknowledge me0 acks op) (coord (perform t op)).
Proof.
  intros Hme Ht. pose proof Ht as []. destruct op as [i| |from| |]; cbn.
  - constructor; try done. intros id p. cbn. rewrite lookup_insert_Some.
    intros [[_ <-]|[_ Hp]]; [simpl; lia|by eapply tr_rounds0].
  - apply check_quorum_tracks. constructor; cbn; [done|done| |].
    + intros v. rewrite tr_me0, !list_elem_of_singleton. split; [by intros ->|by intros [_ ->]].
    + intros id p. rewrite lookup_fmap. intros (q & _ & ->)%fmap_Some. simpl. lia.
  - unfold record_ack. rewrite tr_voters0. destruct (negb _ && _) eqn:E.
    + apply andb_true_iff in E as [_ Hv%bool_decide_eq_true]. apply check_quorum_tracks.
      constructor; cbn; try done. intros v. rewrite elem_of_app, tr_acks0. set_solver.
    + constructor; try done. intros v. rewrite tr_acks0, elem_of_cons. split; [naive_solver|].
      intros [Hv [->|Hin]]; [|done]. apply andb_false_iff in E as [E|E].
      * apply negb_false_iff, bool_decide_eq_true in E. by apply tr_acks0.
      * by apply bool_decide_eq_false in E.
  - by constructor.
  - constructor; try done. cbn. set_solver.
Qed.

Lemma run_tracks me0 vs ops : me0 ∈ vs ->
  tracks me0 vs (round_of me0 ops) (coord (run (mkTrace (new me0 vs) [] []) ops)).
Proof.
  intros Hme. induction ops as [|op ops IH] using rev_ind.
  - constructor; cbn; try done. set_solver.
  - unfold run, round_of in *. rewrite !foldl_app. cbn [foldl]. by apply perform_tracks.
Qed.

(** The check at the end of a round empties the table of reads when a majority has
    acknowledged. *)
Lemma check_quorum_confirms me0 vs acks c q : tracks me0 vs acks c ->
  is_majority vs q -> q ⊆ acks -> pending (check_quorum c) = ∅.
Proof.
  intros [] (Hnd & Hvs & Hlen) Hq. unfold check_quorum.
  assert (length q <= length (round_acks c))%nat as Hle.
  { apply submseteq_length, NoDup_submseteq; [done|]. intros v Hv. apply tr_acks0. auto. }
  rewrite (proj2 (Nat.leb_le _ _)).
  2:{ unfold quorum. rewrite tr_voters0. pose proof (Nat.div_mod_eq (length vs) 2). lia. }
  rewrite complete_all. cbn [pending]. apply map_empty. intros id. rewrite deletes_lookup.
  case_bool_decide as Hin; [done|]. destruct (pending c !! id) as [p|] eqn:Ep; [|done].
  exfalso. apply Hin. apply (list_elem_of_fmap_2 fst (to_complete c) (id, p_read_index p)).
  apply elem_of_to_complete. exists p. split_and!; [done|done|]. by eapply tr_rounds0.
Qed.

Lemma new_ack_checks c v : v ∈ voters c -> v ∉ round_acks c ->
  record_ack c v =
  check_quorum (mkCoordinator (voters c) (me c) (next_read_id c) (current_round c)
                  (round_acks c ++ [v]) (pending c) (completed c)).
Proof.
  intros Hv Hni. unfold record_ack. by rewrite bool_decide_eq_false_2, bool_decide_eq_true_2.
Qed.

Lemma fresh_ack_confirms me0 vs acks t v q : tracks me0 vs acks (coord t) ->
  v ∈ vs -> v ∉ acks -> is_majority vs q -> q ⊆ v :: acks ->
  pending (coord (perform t (Ack v))) = ∅.
Proof.
  intros Ht Hv Hni Hq Hsub. pose proof Ht as []. cbn [perform coord].
  rewrite new_ack_checks; [|by rewrite tr_voters0|by rewrite tr_acks0; intros []].
  apply (check_quorum_confirms me0 vs (v :: acks) _ q); [|done|done].
  constructor; cbn; try done. intros w. rewrite elem_of_app, tr_acks0. set_solver.
Qed.

(** C36. Confirmed reads: in every execution of the coordinator of a voting node, a read is handed
    out at most once and with the commit index it was requested at.  A step that confirms
    a read ends with acknowledgements of distinct voters, more than half of all, each recorded
    since the last [begin_heartbeat_round]; conversely the acknowledgement that completes
    such a majority confirms every pending read.  An acknowledgement carries no round number,
    so what counts is when it is recorded, not which heartbeat it answers. *)
Theorem confirmed_reads_have_majority (me0 : N) (vs : list N) ops op
    (Hme : me0 ∈ vs) (Hb : N.of_nat (length ops) + 1 < two64) :
  let t := run (mkTrace (new me0 vs) [] []) ops in
  let t' := perform t op in
  NoDup (res_id <$> done t') /\
  (forall r, r ∈ done t' -> (res_id r, res_read_index r) ∈ requested t') /\
  NoDup (requested t').*1 /\
  (done t' <> done t -> exists q, is_majority vs q /\ q ⊆ round_of me0 (ops ++ [op])) /\
  (forall v q, op = Ack v -> v ∈ vs -> v ∉ round_of me0 ops ->
     is_majority vs q -> q ⊆ round_of me0 (ops ++ [op]) -> pending (coord t') = ∅).
Proof.
  intros t t'. assert (trace_ok t') as Hok.
  { pose proof (run_ok (mkTrace (new me0 vs) [] []) (ops ++ [op]) (new_ok _ _ Hme)) as H.
    unfold run in H. rewrite foldl_app, length_app in H. apply H. simpl. lia. }
  pose proof (run_tracks me0 vs ops Hme) as Ht. change (run _ ops) with t in Ht.
  pose proof (perform_tracks me0 vs _ t op Hme Ht) as Ht'. change (perform t op) with t' in Ht'.
  assert (round_of me0 (ops ++ [op]) = acknowledge me0 (round_of me0 ops) op) as ->
    by (unfold round_of; by rewrite foldl_app).
  destruct Hok. split_and!; [done| |done| |].
  - intros r Hr. rewrite Forall_forall in ok_done0. by apply ok_done0.
  - intros Hd. pose proof (finishing_step_has_quorum t op Hd) as Hlen.
    destruct Ht'. exists (round_acks (coord t')). unfold t' in *. rewrite tr_voters0 in *.
    split; [done|]. intros v Hv. by apply tr_acks0.
  - intros v q -> Hv Hni Hq Hsub. by eapply fresh_ack_confirms.
Qed.

Definition demo_reads : list Op :=
  [BeginRound; Ack 4; RequestRead 7; BeginRound; Ack 2; Ack 2; Ack 9].

Lemma confirmed_reads_have_majority_witness :
  let t := run (mkTrace (new 1 [1; 2; 3; 4; 5]) [] []) demo_reads in
  done t = [] /\ done (perform t (Ack 3)) = [mkReadIndexResult 0 7] /\
  NoDup (res_id <$> done (perform t (Ack 3))) /\
  (exists q, is_majority [1; 2; 3; 4; 5] q /\ q ⊆ round_of 1 (demo_reads ++ [Ack 3])) /\
  pending (coord (perform t (Ack 3))) = ∅.
Proof.
  destruct (confirmed_reads_have_majority 1 [1; 2; 3; 4; 5] demo_reads (Ack 3))
    as (H1 & _ & _ & H2 & H3); [left|reflexivity|].
  split_and!; [vm_compute; reflexivity|vm_compute; reflexivity|exact H1| |].
  - apply H2. vm_compute. discriminate.
  - apply (H3 3 [3; 2; 1]); [done|apply (bool_decide_unpack _); vm_compute; exact I..| |].
    + split_and!; [apply (bool_decide_unpack _); vm_compute; exact I| |vm_compute; lia].
      apply (bool_decide_unpack _). vm_compute. exact I.
    + apply (bool_decide_unpack _). vm_compute. exact I.
Defined.

(** A read can be confirmed by a round that began before it was requested: after the heartbeats
    of a round were sent and acknowledged by a majority, a read is requested, and the late
    acknowledgement of one more voter hands it out, with no heartbeat sent since.  *)
Theorem late_read_is_confirmed_by_earlier_round :
  let before := run (mkTrace (new 1 [1; 2; 3; 4; 5]) [] []) [BeginRound; Ack 2; Ack 3] in
  done before = [] /\ requested before = [] /\
  done (run before [RequestRead 7; Ack 4]) = [mkReadIndexResult 0 7].
Proof. vm_compute. split_and!; reflexivity. Qed.
