(* ===== verification/Service.v ===== *)
(** * Service: the client API of a node

    Models [basisdb-node/src/service.rs] and the client-facing half of
    [basisdb-node/src/runtime.rs] ([propose], [read_barrier], [mode],
    [apply_command] and the error conversions) over the driver of [Runtime] and the
    state machine of [Kv].  A handler runs in two parts, before and after it waits
    for its proposal: [call_command] checks a request and builds its command, and
    [respond] turns the end of the wait into the reply.  A proposal itself checks the
    health of the runtime, takes its id and then waits for the machine's lock.  The generated protobuf
    messages are records of the fields the code sets; the JSON codec of commands
    and the text of a runtime error are parameters. *)

From S2P Require Import Prelude.
From S2P Require Import Types.
From S2P Require Import Event.
From S2P Require Import Node.
From S2P Require Import Kv.
From S2P Require Import Browse.
From S2P Require Import Settings.
From S2P Require Import Runtime.

(** [serde_json::to_vec] and [from_slice] for commands, and the [Display] of a
    runtime error, whose store case shows an I/O error. *)
Class CommandCodec : Type := {
  command_to_vec : KvCommand -> option bytes;
  command_from_slice : bytes -> option KvCommand;
  display_runtime_error : RuntimeError -> string
}.

(** Decoding returns the encoded command. *)
Class CommandCodecLaws (C : CommandCodec) : Prop :=
  command_roundtrip : forall c bs, command_to_vec c = Some bs -> command_from_slice bs = Some c.

(** ** Requests and replies *)

Inductive Request : Type :=
| RegisterSessionRequest
| PutCall (client_id sequence : N) (namespace key body if_match : bytes) (if_none_match : bool)
| DeleteCall (client_id sequence : N) (namespace key if_match : bytes)
| GetCall (namespace key : bytes)
| HeadCall (namespace key : bytes)
| ListCall (namespace prefix start_after : bytes) (limit : N)
| ListNamespacesCall (start_after : bytes) (limit : N).

Record GetResponse : Type := mkGetResponse {
  g_namespace : bytes;
  g_key : bytes;
  g_etag : bytes;
  g_generation : N;
  g_size : N;
  g_body : bytes
}.

Record StatusResponse : Type := mkStatusResponse {
  st_node_id : N;
  st_mode : string;
  st_key_count : N
}.

Inductive Reply : Type :=
| SessionReply (client_id : N)
| PutReply (r : PutResponse)
| DeleteReply (r : DeleteResponse)
| GetReply (r : GetResponse)
| HeadReply (r : HeadResponse)
| ListReply (entries : list HeadResponse) (next : bytes)
| NamespacesReply (namespaces : list Namespace) (next : bytes).

(** ** Requests become commands *)

(** The checks of [put] before it proposes. *)
Definition put_command (client_id sequence : N) (namespace key body if_match : bytes)
    (if_none_match : bool) : result KvCommand ConnectError :=
  let? _ := validate_mutation_request client_id sequence in
  let? _ := validate_put_preconditions if_match if_none_match in
  let? _ := validate_value body in
  let? _ := KvName_new namespace key in
  Ok (Put client_id sequence namespace key body if_match if_none_match).

Definition delete_command (client_id sequence : N) (namespace key if_match : bytes)
  : result KvCommand ConnectError :=
  let? _ := validate_mutation_request client_id sequence in
  let? _ := validate_etag if_match in
  let? _ := KvName_new namespace key in
  Ok (Delete client_id sequence namespace key if_match).

(** [get] and [head] name a record and then pass the read barrier. *)
Definition lookup_command (namespace key : bytes) : result KvCommand ConnectError :=
  let? _ := KvName_new namespace key in
  Ok ReadBarrier.

Definition list_command (namespace prefix start_after : bytes) (limit : N)
  : result KvCommand ConnectError :=
  let? _ := page_limit limit in
  let? _ := validate_list namespace prefix start_after in
  Ok ReadBarrier.

Definition list_namespaces_command (start_after : bytes) (limit : N)
  : result KvCommand ConnectError :=
  let? _ := page_limit limit in
  let? _ := validate_namespace_cursor start_after in
  Ok ReadBarrier.

Definition call_command (req : Request) : result KvCommand ConnectError :=
  match req with
  | RegisterSessionRequest => Ok RegisterSession
  | PutCall c s ns k b im inm => put_command c s ns k b im inm
  | DeleteCall c s ns k im => delete_command c s ns k im
  | GetCall ns k | HeadCall ns k => lookup_command ns k
  | ListCall ns p sa limit => list_command ns p sa limit
  | ListNamespacesCall sa limit => list_namespaces_command sa limit
  end.

(** ** Answers become replies *)

Definition register_session_reply (r : KvApplyResult) : result Reply ConnectError :=
  match r with
  | RegisteredSession client_id => Ok (SessionReply client_id)
  | PutDone _ | DeleteDone _ | ReadBarrierDone => Err (internal "Raft session command mismatch")
  end.

Definition put_reply (r : KvApplyResult) : result Reply ConnectError :=
  match r with
  | PutDone response => Ok (PutReply response)
  | RegisteredSession _ | DeleteDone _ | ReadBarrierDone => Err (internal "Raft put command mismatch")
  end.

Definition delete_reply (r : KvApplyResult) : result Reply ConnectError :=
  match r with
  | DeleteDone response => Ok (DeleteReply response)
  | RegisteredSession _ | PutDone _ | ReadBarrierDone => Err (internal "Raft delete command mismatch")
  end.

(** The end of [read_barrier]. *)
Definition read_barrier_reply (r : KvApplyResult) : result unit ConnectError :=
  match r with
  | ReadBarrierDone => Ok tt
  | RegisteredSession _ | PutDone _ | DeleteDone _ => Err (internal "Raft read barrier mismatch")
  end.

(** [head] after its barrier, on the state it then reads. *)
Definition head_reply (st : KvState) (namespace key : bytes) : result Reply ConnectError :=
  let? name := KvName_new namespace key in
  match entries st !! name with
  | None => Err key_not_found
  | Some record =>
      let? size := body_len (body record) in
      Ok (HeadReply (mkHeadResponse (n_namespace name) (n_key name) (etag record)
                       (generation record) size))
  end.

Definition get_reply (st : KvState) (namespace key : bytes) : result Reply ConnectError :=
  let? name := KvName_new namespace key in
  match entries st !! name with
  | None => Err key_not_found
  | Some record =>
      let? size := body_len (body record) in
      Ok (GetReply (mkGetResponse (n_namespace name) (n_key name) (etag record)
                      (generation record) size (body record)))
  end.

(** [list] and [list_namespaces] after the barrier; [None] is a panic. *)
Definition list_reply (st : KvState) (namespace prefix start_after : bytes) (limit : N)
  : option (result Reply ConnectError) :=
  match page_limit limit with
  | Err e => Some (Err e)
  | Ok limit =>
      match list_entries st namespace prefix start_after limit with
      | None => None
      | Some (Err e) => Some (Err e)
      | Some (Ok (page, next)) => Some (Ok (ListReply page next))
      end
  end.

Definition list_namespaces_reply (st : KvState) (start_after : bytes) (limit : N)
  : option (result Reply ConnectError) :=
  match page_limit limit with
  | Err e => Some (Err e)
  | Ok limit =>
      match namespaces st start_after limit with
      | None => None
      | Some (Err e) => Some (Err e)
      | Some (Ok (page, next)) => Some (Ok (NamespacesReply page next))
      end
  end.

(** A read that passed its barrier, or the error that kept it from reading. *)
Definition after_barrier (r : result KvApplyResult ConnectError)
    (read : option (result Reply ConnectError)) : option (result Reply ConnectError) :=
  match (let? a := r in read_barrier_reply a) with
  | Err e => Some (Err e)
  | Ok _ => read
  end.

(** The second half of a handler, given the result of its proposal and the state it
    reads. *)
Definition respond (st : KvState) (req : Request) (r : result KvApplyResult ConnectError)
  : option (result Reply ConnectError) :=
  match req with
  | RegisterSessionRequest => Some (let? a := r in register_session_reply a)
  | PutCall _ _ _ _ _ _ _ => Some (let? a := r in put_reply a)
  | DeleteCall _ _ _ _ _ => Some (let? a := r in delete_reply a)
  | GetCall ns k => after_barrier r (Some (get_reply st ns k))
  | HeadCall ns k => after_barrier r (Some (head_reply st ns k))
  | ListCall ns p sa limit => after_barrier r (list_reply st ns p sa limit)
  | ListNamespacesCall sa limit => after_barrier r (list_namespaces_reply st sa limit)
  end.

(** ** Proposals of the runtime *)

Definition propose_error (e : ProposeError) : ConnectError :=
  match e with
  | NotLeader (Some leader) =>
      failed_precondition
        (String.string_of_list_byte (literal "not leader; leader is " ++ decimal leader))
  | NotLeader None => failed_precondition "not leader; leader unknown"
  | Throttled => resource_exhausted "too many Raft proposals"
  end.

Section Service.

Context `{C : CommandCodec}.

Definition runtime_connect_error (e : RuntimeError) : ConnectError :=
  internal (String.append "Raft runtime failed: " (display_runtime_error e)).

Definition apply_command (cmd : Command) (st : KvState)
  : KvState * result KvApplyResult ConnectError :=
  match command_from_slice cmd with
  | None => (st, Err (internal "invalid Raft command payload"))
  | Some c => Kv.apply st c
  end.

#[local] Abbreviation Runtime := (RaftRuntime KvState).
#[local] Abbreviation Answer := (result KvApplyResult ConnectError).

(** The error of a proposal that does not get to wait for its entry. *)
Definition propose_reply (reply : ProposeReply) : result (N * N) ConnectError :=
  match reply with
  | Waiting index id => Ok (index, id)
  | RuntimeUnhealthy => Err (runtime_connect_error RuntimeFailed)
  | ProposalIdsExhausted => Err (resource_exhausted "proposal id space exhausted")
  | Refused e => Err (propose_error e)
  | EffectsFailed e => Err (runtime_connect_error e)
  end.

(** [propose] of a command that does not encode: the check and the id come first. *)
Definition propose_unencoded (rt : Runtime) : Runtime * ConnectError :=
  match ensure_healthy rt with
  | Err e => (rt, runtime_connect_error e)
  | Ok _ =>
      match checked_add (rt_next_proposal_id rt) 1 with
      | None => (rt, resource_exhausted "proposal id space exhausted")
      | Some next => (set_next_proposal_id rt next, internal "failed to encode Raft command")
      end
  end.

(** [propose] up to the lock. *)
Definition enter_command (rt : Runtime) (c : KvCommand) : Runtime * result unit ConnectError :=
  match command_to_vec c with
  | None => let '(rt, e) := propose_unencoded rt in (rt, Err e)
  | Some bs =>
      match enter_propose rt bs with
      | Ok rt => (rt, Ok tt)
      | Err reply => (rt, let? _ := propose_reply reply in Ok tt)
      end
  end.

(** [propose] up to the wait for its entry, when it gets the lock at once: the index and
    id it waits for, or its error. *)
Definition propose_command (rt : Runtime) (c : KvCommand) (disk_ok : bool)
  : option (Runtime * Output Answer * result (N * N) ConnectError) :=
  match command_to_vec c with
  | None => let '(rt, e) := propose_unencoded rt in Some (rt, no_output, Err e)
  | Some bs =>
      match Runtime.propose apply_command rt bs disk_ok with
      | None => None
      | Some (rt, out, reply) => Some (rt, out, propose_reply reply)
      end
  end.

(** How a wait ends: an answer, a dropped sender or the time-out. *)
Inductive WaitEnd : Type :=
| Answered (o : Outcome Answer)
| SenderDropped
| TimedOut.

Definition wait_result (w : WaitEnd) : Answer :=
  match w with
  | Answered (Applied r) => r
  | Answered Superseded => Err (aborted "Raft proposal was superseded")
  | SenderDropped => Err (aborted "Raft proposal was dropped")
  | TimedOut => Err (unavailable "Raft proposal timed out")
  end.

Definition mode (rt : Runtime) : string :=
  if is_leader (rt_node rt) then "leader"
  else if is_candidate (rt_node rt) then "candidate"
  else if is_precandidate (rt_node rt) then "precandidate"
  else "follower".

(** [u64::try_from], which cannot fail on 64-bit targets. *)
Definition usize_to_u64 (value : nat) : result N ConnectError := Ok (N.of_nat value).

Definition status (rt : Runtime) : result StatusResponse ConnectError :=
  let? count := usize_to_u64 (size (entries (rt_state rt))) in
  Ok (mkStatusResponse (nc_node_id (rt_config rt)) (mode rt) count).

(** ** A running node *)

(** The node, with the request that each proposal id was made for. *)
Record Service : Type := mkService {
  sv_runtime : Runtime;
  sv_calls : gmap N Request
}.

(** The node at work: a timer tick, a peer message and a client call, each with the lock
    at once or in two parts; a call that is given up before it has the lock; the end of
    a wait without an answer, and the clean-up after a wait. *)
Inductive ServiceOp : Type :=
| OpTick (disk_ok : bool)
| OpMessage (m : Message) (disk_ok : bool)
| OpCall (req : Request) (disk_ok : bool)
| OpEnterTick
| OpEnterMessage (m : Message)
| OpEnterCall (req : Request)
| OpLocked (p : nat) (disk_ok : bool)
| OpLeave (p : nat)
| OpTimeout (index id : N)
| OpDropped (index id : N)
| OpFinish (index id : N).

(** What a client is told: the error of a call that does not come to wait, or the end of
    the wait of a proposal. *)
Inductive Told : Type :=
| CallFailed (req : Request) (e : ConnectError)
| WaitEnded (id : N) (w : WaitEnd).

Definition tell_completed (out : Output Answer) : list Told :=
  (fun a => WaitEnded a.1 (Answered a.2)) <$> completed out.

Definition tell_error {A} (req : Request) (r : result A ConnectError) : list Told :=
  match r with Ok _ => [] | Err e => [CallFailed req e] end.

Definition enter_runtime {E} (rt : Runtime) (r : result Runtime E) : Runtime :=
  match r with Ok rt' => rt' | Err _ => rt end.

(** The end of a wait that got no answer. *)
Definition end_wait (s : Service) (index id : N) (w : WaitEnd) : option (Service * list Told) :=
  match sv_calls s !! id with
  | Some _ =>
      if id <? rt_next_proposal_id (sv_runtime s)
      then Some (mkService (finish_wait (sv_runtime s) index id) (sv_calls s), [WaitEnded id w])
      else None
  | None => None
  end.

(** A waiting call gets the lock. *)
Definition service_locked (s : Service) (p : nat) (disk_ok : bool) : option (Service * list Told) :=
  let rt := leave (sv_runtime s) p in
  match rt_entered (sv_runtime s) !! p with
  | None => None
  | Some TickCall =>
      let '(rt, out, _) := tick_locked apply_command rt disk_ok in
      Some (mkService rt (sv_calls s), tell_completed out)
  | Some (StepCall m) =>
      let '(rt, out, _) := step_locked apply_command rt m disk_ok in
      Some (mkService rt (sv_calls s), tell_completed out)
  | Some (ProposeCall id cmd) =>
      match propose_locked apply_command rt id cmd disk_ok, sv_calls s !! id with
      | Some (rt, out, reply), Some req =>
          Some (mkService rt (sv_calls s),
                tell_completed out ++ tell_error req (propose_reply reply))
      | _, _ => None
      end
  end.

(** One operation, with what it tells clients. *)
Definition service_op (s : Service) (op : ServiceOp) : option (Service * list Told) :=
  let rt := sv_runtime s in
  match op with
  | OpTick disk_ok =>
      let '(rt, out, _) := tick_once apply_command rt disk_ok in
      Some (mkService rt (sv_calls s), tell_completed out)
  | OpMessage m disk_ok =>
      let '(rt, out, _) := step apply_command rt m disk_ok in
      Some (mkService rt (sv_calls s), tell_completed out)
  | OpCall req disk_ok =>
      match call_command req with
      | Err e => Some (s, [CallFailed req e])
      | Ok c =>
          match propose_command rt c disk_ok with
          | None => None
          | Some (rt', out, r) =>
              Some (mkService rt' (<[rt_next_proposal_id rt := req]> (sv_calls s)),
                    tell_completed out ++ tell_error req r)
          end
      end
  | OpEnterTick => Some (mkService (enter_runtime rt (enter_tick rt)) (sv_calls s), [])
  | OpEnterMessage m => Some (mkService (enter_runtime rt (enter_step rt m)) (sv_calls s), [])
  | OpEnterCall req =>
      match call_command req with
      | Err e => Some (s, [CallFailed req e])
      | Ok c =>
          let '(rt', r) := enter_command rt c in
          Some (mkService rt' (<[rt_next_proposal_id rt := req]> (sv_calls s)), tell_error req r)
      end
  | OpLocked p disk_ok => service_locked s p disk_ok
  | OpLeave p => Some (mkService (leave rt p) (sv_calls s), [])
  | OpTimeout index id => end_wait s index id TimedOut
  | OpDropped index id => end_wait s index id SenderDropped
  | OpFinish index id => Some (mkService (finish_wait rt index id) (sv_calls s), [])
  end.

(** A sequence of operations, with everything it tells clients. *)
Fixpoint service_run (s : Service) (ops : list ServiceOp) : option (Service * list Told) :=
  match ops with
  | [] => Some (s, [])
  | op :: ops' =>
      match service_op s op with
      | None => None
      | Some (s, told) =>
          match service_run s ops' with
          | None => None
          | Some (s', told') => Some (s', told ++ told')
          end
      end
  end.

(** ** Replies fit requests *)

(** The reply of a call: never an internal error, and on success the reply of the
    method called, for the record asked for. *)
Definition reply_fits (req : Request) (r : result Reply ConnectError) : Prop :=
  match r with
  | Err (internal _) => False
  | Err _ => True
  | Ok reply =>
      match req, reply with
      | RegisterSessionRequest, SessionReply _ => True
      | PutCall _ _ ns k b _ _, PutReply p =>
          pr_namespace p = ns /\ pr_key p = k /\ pr_size p = str_len b
      | DeleteCall _ _ ns k _, DeleteReply d => dr_namespace d = ns /\ dr_key d = k
      | GetCall ns k, GetReply g =>
          g_namespace g = ns /\ g_key g = k /\ g_size g = str_len (g_body g)
      | HeadCall ns k, HeadReply h => h_namespace h = ns /\ h_key h = k
      | ListCall _ _ _ _, ListReply _ _ | ListNamespacesCall _ _, NamespacesReply _ _ => True
      | _, _ => False
      end
  end.

Lemma page_limit_pos limit n : page_limit limit = Ok n -> (0 < n)%nat.
Proof.
  unfold page_limit. destruct (N.eqb_spec limit 0); [intros [= <-]; lia|].
  destruct (limit <=? 100); [|done]. intros [= <-]. lia.
Qed.

Lemma namespaces_loop_Err start_after limit l page e :
  namespaces_loop start_after limit l page = Some (Err e) ->
  e = resource_exhausted "namespace key count overflow".
Proof.
  revert page. induction l as [|[name r] l IH]; intros page; simpl; [done|].
  repeat case_match; try done; try (apply IH); by intros [= <-].
Qed.

(** Reads that passed the barrier. *)
Lemma after_barrier_fits req r read :
  answer_fits ReadBarrier r -> (exists reply, read = Some reply /\ reply_fits req reply) ->
  exists reply, after_barrier r read = Some reply /\ reply_fits req reply.
Proof.
  intros Ha Hr. unfold after_barrier. destruct r as [[]|e]; simpl in Ha; try done.
  exists (Err e). by destruct e.
Qed.

Lemma put_command_Ok c s ns k b im inm cmd :
  put_command c s ns k b im inm = Ok cmd -> cmd = Put c s ns k b im inm.
Proof. unfold put_command. intros. repeat case_match; by simplify_eq. Qed.

Lemma delete_command_Ok c s ns k im cmd :
  delete_command c s ns k im = Ok cmd -> cmd = Delete c s ns k im.
Proof. unfold delete_command. intros. repeat case_match; by simplify_eq. Qed.

Lemma respond_fits st req c r :
  call_command req = Ok c -> answer_fits c r ->
  exists reply, respond st req r = Some reply /\ reply_fits req reply.
Proof.
  intros Hc Ha. destruct req as [|c0 s ns k b im inm|c0 s ns k im|ns k|ns k|ns p sa limit|sa limit];
    simpl in Hc |- *.
  - simplify_eq. eexists. split; [done|]. by destruct r as [[]|[]].
  - apply put_command_Ok in Hc as ->. eexists. split; [done|]. by destruct r as [[]|[]].
  - apply delete_command_Ok in Hc as ->. eexists. split; [done|]. by destruct r as [[]|[]].
  - unfold lookup_command in Hc. destruct (KvName_new ns k) as [name|] eqn:En; simplify_eq.
    apply after_barrier_fits; [done|]. eexists. split; [done|]. unfold get_reply. rewrite En.
    apply KvName_new_eq in En as ->. by destruct (entries st !! _).
  - unfold lookup_command in Hc. destruct (KvName_new ns k) as [name|] eqn:En; simplify_eq.
    apply after_barrier_fits; [done|]. eexists. split; [done|]. unfold head_reply. rewrite En.
    apply KvName_new_eq in En as ->. by destruct (entries st !! _).
  - unfold list_command in Hc. destruct (page_limit limit) as [n|] eqn:El; [|done].
    destruct (validate_list _ _ _); simplify_eq. apply after_barrier_fits; [done|].
    unfold list_reply. rewrite El, list_entries_spec by (by eapply page_limit_pos).
    destruct (page_of _ _). by eexists.
  - unfold list_namespaces_command in Hc. destruct (page_limit limit) as [n|] eqn:El; [|done].
    destruct (validate_namespace_cursor _); simplify_eq. apply after_barrier_fits; [done|].
    unfold list_namespaces_reply. rewrite El. apply page_limit_pos in El.
    destruct (namespaces_loop_total sa n (range_from (mkKvName sa []) (sorted_entries st)) [] El
      ltac:(simpl; lia)) as [x Hx]. unfold namespaces. rewrite Hx.
    destruct x as [[page next]|e]; [by eexists|]. apply namespaces_loop_Err in Hx as ->. by eexists.
Qed.

(** A proposal [id] with command [cmd] belongs to a call that was made. *)
Definition belongs (s : Service) (id : N) (cmd : Command) : Prop :=
  id < rt_next_proposal_id (sv_runtime s) /\
  exists req c, sv_calls s !! id = Some req /\ call_command req = Ok c /\
    command_to_vec c = Some cmd.

(** Every proposal that waits, for its entry or for the lock, belongs to a call. *)
Definition service_ok (s : Service) : Prop :=
  sessions_ok (rt_state (sv_runtime s)) /\
  (forall i p, rt_waiters (sv_runtime s) !! i = Some p -> belongs s (pp_id p) (pp_command p)) /\
  (forall id cmd, ProposeCall id cmd ∈ rt_entered (sv_runtime s) -> belongs s id cmd).

(** The end of a wait fits the call it belongs to. *)
Definition wait_fits (s : Service) (id : N) (w : WaitEnd) : Prop :=
  exists req, sv_calls s !! id = Some req /\
    ((exists e, wait_result w = Err e /\ (forall t, e <> internal t)) \/
     exists c, call_command req = Ok c /\ answer_fits c (wait_result w)).

(** Why a call can fail before it waits: its own checks, a node that does not lead or is
    throttled, ids that have run out, a command that does not encode, or a runtime that
    has failed. *)
Definition failure_ok (s : Service) (req : Request) (e : ConnectError) : Prop :=
  call_command req = Err e \/
  exists c, call_command req = Ok c /\
    ((exists pe, e = propose_error pe) \/
     e = resource_exhausted "proposal id space exhausted" \/
     (command_to_vec c = None /\ e = internal "failed to encode Raft command") \/
     (rt_failed (sv_runtime s) = true /\ exists re, e = runtime_connect_error re)).

Definition told_ok (s : Service) (t : Told) : Prop :=
  match t with
  | CallFailed req e => failure_ok s req e
  | WaitEnded id w => id < rt_next_proposal_id (sv_runtime s) /\ wait_fits s id w
  end.

(** Identifiers only grow, the calls of used ones are kept, and a failure is for good. *)
Definition service_le (s s' : Service) : Prop :=
  rt_next_proposal_id (sv_runtime s) <= rt_next_proposal_id (sv_runtime s') /\
  (forall id, id < rt_next_proposal_id (sv_runtime s) -> sv_calls s' !! id = sv_calls s !! id) /\
  (rt_failed (sv_runtime s) = true -> rt_failed (sv_runtime s') = true).

#[local] Instance service_le_preorder : PreOrder service_le.
Proof.
  split; [intros s; by split_and!|]. intros s1 s2 s3 (H1 & H2 & H3) (H4 & H5 & H6).
  split_and!; [lia| |auto]. intros id Hid. rewrite H5 by lia. auto.
Qed.

Lemma belongs_mono s s' id cmd : service_le s s' -> belongs s id cmd -> belongs s' id cmd.
Proof.
  intros (Hn & Hc & _) (Hlt & req & c & Hreq & Hr). split; [lia|]. exists req, c. by rewrite Hc.
Qed.

Lemma told_ok_mono s s' t : service_le s s' -> told_ok s t -> told_ok s' t.
Proof.
  intros (Hn & Hc & Hf). destruct t as [req e|id w]; simpl.
  - intros [?|(c & Hcc & Hr)]; [by left|right]. exists c. split; [done|].
    destruct Hr as [?|[?|[?|[? ?]]]]; [by auto..|]. right. right. right. auto.
  - intros [Hlt (req & Hreq & Hr)]. split; [lia|]. exists req. by rewrite Hc.
Qed.

Context `{!CommandCodecLaws C}.

Lemma apply_command_sessions cmd st : sessions_ok st -> sessions_ok (fst (apply_command cmd st)).
Proof. unfold apply_command. destruct (command_from_slice cmd); [apply apply_sessions_ok|done]. Qed.

(** The answers to a table of waiting proposals fit their calls. *)
Lemma completed_ok s w out :
  (forall i p, w !! i = Some p -> belongs s (pp_id p) (pp_command p)) ->
  Forall (answered_from apply_command sessions_ok w) (completed out) ->
  Forall (told_ok s) (tell_completed out).
Proof.
  intros Hw Hd. unfold tell_completed. rewrite Forall_fmap. eapply Forall_impl; [exact Hd|].
  intros [id o] (i & p & Hp & Hid & Hans). simpl in Hid, Hans |- *. subst id.
  destruct (Hw _ _ Hp) as (Hlt & req & c & Hreq & Hc & Henc). split; [done|]. exists req. split; [done|].
  right. exists c. split; [done|]. simpl. destruct o as [r|]; [|done].
  destruct Hans as (st & Hst & ->). unfold apply_command. rewrite (command_roundtrip _ _ Henc).
  by apply apply_answer_fits.
Qed.

(** Operations that leave the calls alone and may drop waiting ones. *)
Lemma service_shrinks s rt' :
  service_ok s -> sessions_ok (rt_state rt') -> rt_waiters rt' ⊆ rt_waiters (sv_runtime s) ->
  (forall c, c ∈ rt_entered rt' -> c ∈ rt_entered (sv_runtime s) \/ forall id cmd, c <> ProposeCall id cmd) ->
  rt_next_proposal_id rt' = rt_next_proposal_id (sv_runtime s) ->
  (rt_failed (sv_runtime s) = true -> rt_failed rt' = true) ->
  service_ok (mkService rt' (sv_calls s)) /\ service_le s (mkService rt' (sv_calls s)).
Proof.
  intros (_ & Hw & He) HI Hsub Hent Hn Hf.
  assert (service_le s (mkService rt' (sv_calls s))) as Hle by (split_and!; simpl; [by rewrite Hn|done|done]).
  split; [|done]. split_and!; [done|..]; simpl.
  - intros i p Hp. eapply belongs_mono; [done|]. apply (Hw i). by eapply lookup_weaken.
  - intros id cmd [?|Hno]%Hent; [|by destruct (Hno id cmd)]. eapply belongs_mono; [done|]. by apply He.
Qed.

(** A change of the runtime that adds no waiting proposal. *)
Lemma answers_ok_service s rt0 rt' out :
  service_ok s -> answers_ok apply_command sessions_ok rt0 rt' (completed out) ->
  rt_waiters rt0 = rt_waiters (sv_runtime s) ->
  rt_next_proposal_id rt0 = rt_next_proposal_id (sv_runtime s) ->
  rt_failed rt0 = rt_failed (sv_runtime s) ->
  (forall c, c ∈ rt_entered rt0 -> c ∈ rt_entered (sv_runtime s)) ->
  let s' := mkService rt' (sv_calls s) in
  service_ok s' /\ service_le s s' /\ Forall (told_ok s') (tell_completed out).
Proof.
  intros Hok (HI & Hsub & Hn & Hd & He & Hf) Hw0 Hn0 Hf0 He0 s'.
  destruct (service_shrinks s rt' Hok HI) as [Hok' Hle]; [by rewrite <- Hw0| |congruence|by rewrite <- Hf0|].
  { intros c. rewrite He. intros ?%He0. by left. }
  split_and!; [done..|]. eapply completed_ok; [|exact Hd]. intros i p Hp. eapply belongs_mono; [exact Hle|].
  rewrite Hw0 in Hp. by apply Hok in Hp.
Qed.

(** A proposal that gets the lock. *)
Lemma locked_ok s rt0 id cmd disk_ok rt' out reply req :
  service_ok s -> belongs s id cmd -> sv_calls s !! id = Some req ->
  rt_state rt0 = rt_state (sv_runtime s) -> rt_waiters rt0 = rt_waiters (sv_runtime s) ->
  rt_next_proposal_id rt0 = rt_next_proposal_id (sv_runtime s) ->
  rt_failed rt0 = rt_failed (sv_runtime s) ->
  (forall c, c ∈ rt_entered rt0 -> c ∈ rt_entered (sv_runtime s)) ->
  propose_locked apply_command rt0 id cmd disk_ok = Some (rt', out, reply) ->
  let s' := mkService rt' (sv_calls s) in
  service_ok s' /\ service_le s s' /\
  Forall (told_ok s') (tell_completed out ++ tell_error req (propose_reply reply)).
Proof.
  intros Hok Hb Hreq Hs0 Hw0 Hn0 Hf0 He0 Hp s'. pose proof Hok as (HI & Hw & He).
  apply (propose_locked_answers apply_command sessions_ok apply_command_sessions) in Hp
    as (HI' & Hn' & He' & Hf' & Hreply & Hcase); [|by rewrite Hs0].
  assert (service_le s s') as Hle by (split_and!; simpl; [rewrite Hn', Hn0; lia|done|by rewrite <- Hf0]).
  assert (exists w, (forall i p, w !! i = Some p -> belongs s' (pp_id p) (pp_command p)) /\
    rt_waiters rt' ⊆ w /\ Forall (answered_from apply_command sessions_ok w) (completed out))
    as (w & Hww & Hsub & Hd).
  { destruct Hcase as [[Hwt Hno]|(index & Hsub & Hd)].
    - exists (rt_waiters rt'). rewrite Hwt, Hw0, Hno. split_and!; [|done|constructor].
      intros i p Hpp. eapply belongs_mono; [exact Hle|]. by apply (Hw i).
    - eexists. split_and!; [|exact Hsub|exact Hd]. intros i p. rewrite Hw0, lookup_insert_Some.
      intros [[_ <-]|[_ Hpp]]; (eapply belongs_mono; [exact Hle|]); [done|by apply (Hw i)]. }
  split_and!; [split_and!|done|].
  - done.
  - intros i p Hpp. apply (Hww i). by eapply lookup_weaken.
  - intros id' cmd'. simpl. rewrite He'. intros ?%He0. eapply belongs_mono; [exact Hle|]. by apply He.
  - apply Forall_app. split; [by eapply completed_ok|].
    destruct Hb as (_ & req' & c & Hreq' & Hc & Henc). assert (req' = req) as -> by congruence.
    destruct reply; simpl in *; try done; constructor; try done; right; exists c; (split; [done|]); eauto 10.
Qed.

(** A call that takes the next id. *)
Lemma called_ok s req c bs (rt0 : Runtime) :
  service_ok s -> call_command req = Ok c -> command_to_vec c = Some bs ->
  rt_state rt0 = rt_state (sv_runtime s) -> rt_waiters rt0 = rt_waiters (sv_runtime s) ->
  rt_next_proposal_id rt0 = rt_next_proposal_id (sv_runtime s) + 1 ->
  rt_failed rt0 = rt_failed (sv_runtime s) ->
  (forall cl, cl ∈ rt_entered rt0 -> cl ∈ rt_entered (sv_runtime s) \/
     cl = ProposeCall (rt_next_proposal_id (sv_runtime s)) bs) ->
  let s' := mkService rt0 (<[rt_next_proposal_id (sv_runtime s) := req]> (sv_calls s)) in
  service_ok s' /\ service_le s s' /\ belongs s' (rt_next_proposal_id (sv_runtime s)) bs.
Proof.
  intros (HI & Hw & He) Hc Hbs Hs0 Hw0 Hn0 Hf0 He0 s'.
  assert (service_le s s') as Hle.
  { split_and!; simpl; [lia| |congruence]. intros id Hid. by rewrite lookup_insert_ne by lia. }
  assert (belongs s' (rt_next_proposal_id (sv_runtime s)) bs) as Hb.
  { split; [simpl; lia|]. exists req, c. simpl. by rewrite lookup_insert_eq. }
  split_and!; [split_and!|done|done].
  - simpl. by rewrite Hs0.
  - intros i p. simpl. rewrite Hw0. intros Hp. eapply belongs_mono; [exact Hle|]. by apply (Hw i).
  - intros id cmd. simpl. intros [Hin|[= -> ->]]%He0; [|done]. eapply belongs_mono; [exact Hle|]. by apply He.
Qed.

(** A call that fails without taking an id, or whose command does not encode. *)
Lemma failed_call_ok s req c e (rt0 : Runtime) :
  service_ok s -> call_command req = Ok c ->
  rt_state rt0 = rt_state (sv_runtime s) -> rt_waiters rt0 = rt_waiters (sv_runtime s) ->
  rt_next_proposal_id (sv_runtime s) <= rt_next_proposal_id rt0 ->
  rt_failed rt0 = rt_failed (sv_runtime s) -> rt_entered rt0 = rt_entered (sv_runtime s) ->
  e = resource_exhausted "proposal id space exhausted" \/
  (command_to_vec c = None /\ e = internal "failed to encode Raft command") \/
  (rt_failed rt0 = true /\ exists re, e = runtime_connect_error re) ->
  let s' := mkService rt0 (<[rt_next_proposal_id (sv_runtime s) := req]> (sv_calls s)) in
  service_ok s' /\ service_le s s' /\ Forall (told_ok s') [CallFailed req e].
Proof.
  intros (HI & Hw & He) Hc Hs0 Hw0 Hn0 Hf0 He0 Hwhy s'.
  assert (service_le s s') as Hle.
  { split_and!; simpl; [done| |congruence]. intros id Hid. by rewrite lookup_insert_ne by lia. }
  split_and!; [split_and!|done|].
  - simpl. by rewrite Hs0.
  - intros i p. simpl. rewrite Hw0. intros Hp. eapply belongs_mono; [exact Hle|]. by apply (Hw i).
  - intros id cmd. simpl. rewrite He0. intros Hin. eapply belongs_mono; [exact Hle|]. by apply He.
  - constructor; [|constructor]. right. exists c. split; [done|]. by right.
Qed.

Lemma unencoded_ok s req c rt0 e :
  service_ok s -> call_command req = Ok c -> command_to_vec c = None ->
  propose_unencoded (sv_runtime s) = (rt0, e) ->
  let s' := mkService rt0 (<[rt_next_proposal_id (sv_runtime s) := req]> (sv_calls s)) in
  service_ok s' /\ service_le s s' /\ Forall (told_ok s') [CallFailed req e].
Proof.
  intros Hok Hc Hn. unfold propose_unencoded, ensure_healthy.
  destruct (rt_failed (sv_runtime s)) eqn:Hf.
  { intros [= <- <-]. eapply failed_call_ok; try done. right. right. split; [done|]. by eexists. }
  destruct (checked_add _ 1) as [next|] eqn:En; intros [= <- <-]; eapply failed_call_ok; try done; auto.
  simpl. apply checked_add_Some in En as [-> _]. lia.
Qed.

(** The reply of a proposal that does not enter. *)
Lemma refused_entry_ok s req c bs reply :
  service_ok s -> call_command req = Ok c -> enter_propose (sv_runtime s) bs = Err reply ->
  exists e, propose_reply reply = Err e /\
    let s' := mkService (sv_runtime s) (<[rt_next_proposal_id (sv_runtime s) := req]> (sv_calls s)) in
    service_ok s' /\ service_le s s' /\ Forall (told_ok s') [CallFailed req e].
Proof.
  intros Hok Hc. unfold enter_propose, ensure_healthy. destruct (rt_failed (sv_runtime s)) eqn:Hf.
  - intros [= <-]. eexists. split; [done|]. eapply failed_call_ok; try done.
    right. right. split; [done|]. by eexists.
  - destruct (checked_add _ 1) as [next|] eqn:En; intros [= <-]. eexists. split; [done|].
    eapply failed_call_ok; try done. by left.
Qed.

Lemma call_ok s req c disk_ok rt' out r :
  service_ok s -> call_command req = Ok c ->
  propose_command (sv_runtime s) c disk_ok = Some (rt', out, r) ->
  let s' := mkService rt' (<[rt_next_proposal_id (sv_runtime s) := req]> (sv_calls s)) in
  service_ok s' /\ service_le s s' /\ Forall (told_ok s') (tell_completed out ++ tell_error req r).
Proof.
  intros Hok Hc. unfold propose_command. destruct (command_to_vec c) as [bs|] eqn:Ebs.
  2: { destruct (propose_unencoded _) as [rt0 e] eqn:Eu. intros [= <- <- <-]. by eapply unencoded_ok. }
  pose proof (refused_entry_ok s req c bs) as Href. unfold Runtime.propose. unfold enter_propose in Href.
  destruct (ensure_healthy (sv_runtime s)) as [[]|e0] eqn:Eh.
  2: { intros [= <- <- <-]. by destruct (Href _ Hok Hc eq_refl) as (e & [= <-] & ?). }
  destruct (checked_add _ 1) as [next|] eqn:En.
  2: { intros [= <- <- <-]. by destruct (Href _ Hok Hc eq_refl) as (e & [= <-] & ?). }
  destruct (propose_locked _ _ _ _ _) as [[[rt1 out1] reply]|] eqn:Ep; [|done]. intros [= <- <- <-].
  apply checked_add_Some in En as [-> _].
  destruct (called_ok s req c bs (set_next_proposal_id (sv_runtime s) (rt_next_proposal_id (sv_runtime s) + 1)))
    as (Hok1 & Hle1 & Hb); try done; [by left|].
  pose proof (locked_ok _ _ _ _ _ _ _ _ req Hok1 Hb ltac:(simpl; apply lookup_insert_eq)
    eq_refl eq_refl eq_refl eq_refl ltac:(done) Ep) as (Hok2 & Hle2 & Ht).
  split_and!; [exact Hok2|by etrans|exact Ht].
Qed.

Lemma enter_call_ok s req c rt' r :
  service_ok s -> call_command req = Ok c -> enter_command (sv_runtime s) c = (rt', r) ->
  let s' := mkService rt' (<[rt_next_proposal_id (sv_runtime s) := req]> (sv_calls s)) in
  service_ok s' /\ service_le s s' /\ Forall (told_ok s') (tell_error req r).
Proof.
  intros Hok Hc. unfold enter_command. destruct (command_to_vec c) as [bs|] eqn:Ebs.
  2: { destruct (propose_unencoded _) as [rt0 e] eqn:Eu. intros [= <- <-]. by eapply unencoded_ok. }
  destruct (enter_propose _ bs) as [rt0|reply] eqn:Ee; intros [= <- <-].
  2: { destruct (refused_entry_ok s req c bs reply Hok Hc Ee) as (e & -> & ?). done. }
  unfold enter_propose in Ee. destruct (ensure_healthy _); [|done].
  destruct (checked_add _ 1) as [next|] eqn:En; [|done]. injection Ee as <-.
  apply checked_add_Some in En as [-> _].
  destruct (called_ok s req c bs
    (set_entered (set_next_proposal_id (sv_runtime s) (rt_next_proposal_id (sv_runtime s) + 1))
       (rt_entered (sv_runtime s) ++ [ProposeCall (rt_next_proposal_id (sv_runtime s)) bs])))
    as (Hok1 & Hle1 & _); try done.
  { simpl. intros cl [?| ->%list_elem_of_singleton]%elem_of_app; auto. }
Qed.

Lemma end_wait_ok s index id w s' told :
  service_ok s -> (forall o, w <> Answered o) -> end_wait s index id w = Some (s', told) ->
  service_ok s' /\ service_le s s' /\ Forall (told_ok s') told.
Proof.
  intros Hok Hw. unfold end_wait. destruct (sv_calls s !! id) as [req|] eqn:Er; [|done].
  destruct (N.ltb_spec id (rt_next_proposal_id (sv_runtime s))) as [Hid|]; [|done].
  intros [= <- <-].
  destruct (service_shrinks s (finish_wait (sv_runtime s) index id) Hok) as [Hok' Hle];
    try done; [apply Hok|apply remove_pending_subseteq|by left|].
  split_and!; [done..|]. constructor; [|constructor]. split; [done|]. exists req. split; [done|]. left.
  destruct w as [o| |]; [by destruct (Hw o)|..]; eexists; by split.
Qed.

Lemma service_locked_ok s p disk_ok s' told :
  service_ok s -> service_locked s p disk_ok = Some (s', told) ->
  service_ok s' /\ service_le s s' /\ Forall (told_ok s') told.
Proof.
  intros Hok. unfold service_locked.
  destruct (rt_entered (sv_runtime s) !! p) as [[|m|id cmd]|] eqn:Ep; [..|done].
  - destruct (tick_locked _ _ _) as [[rt out] r] eqn:E. intros [= <- <-]. unfold tick_locked in E.
    apply (drive_answers _ _ apply_command_sessions) in E; [|apply Hok].
    eapply answers_ok_service; try done. simpl. intros c. apply list_elem_of_delete_inv.
  - destruct (step_locked _ _ _ _) as [[rt out] r] eqn:E. intros [= <- <-]. unfold step_locked in E.
    apply (drive_answers _ _ apply_command_sessions) in E; [|apply Hok].
    eapply answers_ok_service; try done. simpl. intros c. apply list_elem_of_delete_inv.
  - destruct (propose_locked _ _ _ _ _) as [[[rt out] reply]|] eqn:E; [|done].
    destruct (sv_calls s !! id) as [req|] eqn:Er; [|done]. intros [= <- <-].
    eapply (locked_ok s _ id cmd); [done| |exact Er|..|exact E]; try done.
    + apply Hok. by eapply list_elem_of_lookup_2.
    + simpl. intros c. apply list_elem_of_delete_inv.
Qed.

Lemma enter_runtime_ok {E} s (r : result Runtime E) c :
  service_ok s -> (forall id cmd, c <> ProposeCall id cmd) ->
  (forall rt', r = Ok rt' -> rt' = set_entered (sv_runtime s) (rt_entered (sv_runtime s) ++ [c])) ->
  let s' := mkService (enter_runtime (sv_runtime s) r) (sv_calls s) in
  service_ok s' /\ service_le s s' /\ Forall (told_ok s') [].
Proof.
  intros Hok Hc Hr s'. split_and!; [| |constructor]; apply service_shrinks; try done;
    destruct r as [rt'|]; simpl; try (rewrite (Hr rt' eq_refl)); try done; try apply Hok; try (by left).
  all: simpl; intros c' [?| ->%list_elem_of_singleton]%elem_of_app; [by left|by right].
Qed.

Lemma service_op_ok s op s' told :
  service_ok s -> service_op s op = Some (s', told) ->
  service_ok s' /\ service_le s s' /\ Forall (told_ok s') told.
Proof.
  intros Hok.
  destruct op as [ok|m ok|req ok| |m|req|p ok|p|index id|index id|index id]; simpl.
  - destruct (tick_once _ _ _) as [[rt out] r] eqn:E. intros [= <- <-].
    apply (tick_once_answers _ _ apply_command_sessions) in E; [|apply Hok].
    by eapply answers_ok_service.
  - destruct (step _ _ _ _) as [[rt out] r] eqn:E. intros [= <- <-].
    apply (step_answers _ _ apply_command_sessions) in E; [|apply Hok].
    by eapply answers_ok_service.
  - destruct (call_command req) as [c|e] eqn:Ec.
    + destruct (propose_command _ _ _) as [[[rt out] r]|] eqn:Ep; [|done]. intros [= <- <-].
      by eapply call_ok.
    + intros [= <- <-]. split_and!; [done..|]. constructor; [by left|constructor].
  - intros [= <- <-]. eapply (enter_runtime_ok _ _ TickCall); [done..|].
    unfold enter_tick. destruct (ensure_healthy _); [|done]. by intros rt' [= <-].
  - intros [= <- <-]. eapply (enter_runtime_ok _ _ (StepCall m)); [done..|].
    unfold enter_step. destruct (ensure_healthy _); [|done]. by intros rt' [= <-].
  - destruct (call_command req) as [c|e] eqn:Ec.
    + destruct (enter_command _ _) as [rt' r] eqn:Ee. intros [= <- <-]. by eapply enter_call_ok.
    + intros [= <- <-]. split_and!; [done..|]. constructor; [by left|constructor].
  - by apply service_locked_ok.
  - intros [= <- <-].
    destruct (service_shrinks s (leave (sv_runtime s) p) Hok (proj1 Hok)) as [H1 H2]; [done|..];
      [intros c Hc; left; exact (list_elem_of_delete_inv _ p _ Hc)|done|done|].
    exact (conj H1 (conj H2 (Forall_nil_2 _))).
  - by apply end_wait_ok.
  - by apply end_wait_ok.
  - intros [= <- <-].
    destruct (service_shrinks s (finish_wait (sv_runtime s) index id) Hok (proj1 Hok)) as [H1 H2];
      [apply remove_pending_subseteq|by left|done|done|].
    exact (conj H1 (conj H2 (Forall_nil_2 _))).
Qed.

Lemma service_run_ok s ops s' told :
  service_ok s -> service_run s ops = Some (s', told) ->
  service_ok s' /\ service_le s s' /\ Forall (told_ok s') told.
Proof.
  revert s told. induction ops as [|op ops IH]; intros s told Hok; simpl.
  { intros [= <- <-]. split_and!; [done..|constructor]. }
  destruct (service_op s op) as [[s1 a1]|] eqn:E; [|done].
  apply service_op_ok in E as (Hok1 & Hle1 & Ha1); [|done].
  destruct (service_run s1 ops) as [[s2 a2]|] eqn:E2; [|done]. intros [= <- <-].
  destruct (IH _ _ Hok1 E2) as (Hok2 & Hle2 & Ha2). split_and!; [done|by etrans|].
  apply Forall_app. split; [|done]. eapply Forall_impl; [exact Ha1|].
  intros t. by apply told_ok_mono.
Qed.

End Service.


(** ** A node alone, for the witnesses *)

(** Session and barrier commands as one byte. *)
#[local] Instance toy_commands : CommandCodec := {
  command_to_vec c :=
    match c with
    | RegisterSession => Some [Byte.x01]
    | ReadBarrier => Some [Byte.x02]
    | _ => None
    end;
  command_from_slice bs :=
    if bool_decide (bs = [Byte.x01]) then Some RegisterSession
    else if bool_decide (bs = [Byte.x02]) then Some ReadBarrier else None;
  display_runtime_error _ := "failed"
}.

#[local] Instance toy_commands_laws : CommandCodecLaws toy_commands.
Proof. intros [] bs; try done; by intros [= <-]. Qed.

Definition solo_config : NodeConfig :=
  mkNodeConfig 1 21 11 {[1 := 11]} [] StorageOptions_default (raft_config 1).

Definition solo : RaftRuntime KvState :=
  mkRaftRuntime solo_config (restore (nc_consensus solo_config) (initial_persistent solo_config))
    (initial_persistent solo_config) Kv.new ∅ 1 false [].

(** The node elects itself and serves a session and a read; then the write of another
    call fails, and the call after it is turned away. *)
Definition solo_ops : list ServiceOp :=
  repeat (OpTick true) 400 ++
  [OpCall RegisterSessionRequest true; OpEnterCall (GetCall [Byte.x6e] [Byte.x6b]); OpLocked 0 true;
   OpCall RegisterSessionRequest false; OpCall RegisterSessionRequest true].

Definition solo_told : list Told :=
  [WaitEnded 1 (Answered (Applied (Ok (RegisteredSession 1))));
   WaitEnded 2 (Answered (Applied (Ok ReadBarrierDone)));
   CallFailed RegisterSessionRequest (internal "Raft runtime failed: failed");
   CallFailed RegisterSessionRequest (internal "Raft runtime failed: failed")].

Lemma solo_opens : open solo_config Kv.new (initial_persistent solo_config) = Ok solo.
Proof. vm_compute. reflexivity. Qed.

Lemma solo_runs : exists s, service_run (mkService solo ∅) solo_ops = Some (s, solo_told).
Proof.
  assert (snd <$> service_run (mkService solo ∅) solo_ops = Some solo_told) as Ha
    by (vm_compute; reflexivity).
  apply fmap_Some in Ha as ([s told] & E & ->). by exists s.
Qed.


(** ** Requests and the state machine *)

(** The checks a node makes before it replicates a mutation are exactly the checks
    of the state machine: a put or delete is proposed iff it passes the validation
    that every replica repeats, and one that is refused is refused with the error
    every replica would give, in every state and without any effect. *)
Theorem early_rejection_is_faithful (c s : N) (ns k b im : bytes) (inm : bool) :
  let agrees req cmd :=
    match call_command req with
    | Ok cmd' => cmd' = cmd /\ is_ok (validation cmd) = true
    | Err e => validation cmd = Err e /\ forall st, Kv.apply st cmd = (st, Err e)
    end in
  agrees (PutCall c s ns k b im inm) (Put c s ns k b im inm) /\
  agrees (DeleteCall c s ns k im) (Delete c s ns k im).
Proof.
  split; simpl.
  - unfold put_command, apply_put.
    destruct (validate_mutation_request c s); [|done].
    destruct (validate_put_preconditions im inm); [|done].
    destruct (validate_value b); [|done]. by destruct (KvName_new ns k).
  - unfold delete_command, apply_delete.
    destruct (validate_mutation_request c s); [|done].
    destruct (validate_etag im); [|done]. by destruct (KvName_new ns k).
Qed.

(** The record a command writes. *)
Definition writes (cmd : KvCommand) (name : KvName) : Prop :=
  match cmd with
  | Put _ _ ns k _ _ _ | Delete _ _ ns k _ => mkKvName ns k = name
  | _ => False
  end.

Lemma reject_entries st c s req rej : entries (fst (reject st c s req rej)) = entries st.
Proof. unfold reject, record. by destruct (session st c). Qed.

Lemma execute_put_entries st c s name b im inm name' :
  name <> name' ->
  entries (fst (execute_put st c s name b im inm)) !! name' = entries st !! name'.
Proof.
  intros Hne. unfold execute_put, body_len, next_generation.
  destruct (check_put_preconditions _ _ _); [|by rewrite reject_entries].
  destruct (checked_add _ _); [|by rewrite reject_entries]. simpl.
  unfold record. destruct (session _ c); simpl; by rewrite lookup_insert_ne.
Qed.

Lemma execute_delete_entries st c s name im name' :
  name <> name' -> entries (fst (execute_delete st c s name im)) !! name' = entries st !! name'.
Proof.
  intros Hne. unfold execute_delete. case_match; [by rewrite reject_entries|].
  unfold record. destruct (session _ c); simpl; by rewrite lookup_delete_ne.
Qed.

Lemma other_name_keeps_entry st cmd name :
  ~ writes cmd name -> entries (fst (Kv.apply st cmd)) !! name = entries st !! name.
Proof.
  intros Hw. destruct cmd as [| |c s ns k b im inm|c s ns k im]; simpl in Hw |- *; [|done| |].
  - unfold next_client_id. by destruct (checked_add _ _).
  - unfold apply_put. destruct (let? _ := _ in _) as [nm|] eqn:Ev; [|done].
    assert (nm = mkKvName ns k) as ->
      by (apply KvName_new_eq; repeat case_match; by simplify_eq).
    destruct (cached_put _ _ _ _) as [[]|]; [done| |done]. by apply execute_put_entries.
  - unfold apply_delete. destruct (let? _ := _ in _) as [nm|] eqn:Ev; [|done].
    assert (nm = mkKvName ns k) as ->
      by (apply KvName_new_eq; repeat case_match; by simplify_eq).
    destruct (cached_delete _ _ _ _) as [[]|]; [done| |done]. by apply execute_delete_entries.
Qed.

Lemma run_other_names st cmds name :
  Forall (fun cmd => ~ writes cmd name) cmds -> entries (run st cmds) !! name = entries st !! name.
Proof.
  revert st. induction cmds as [|cmd cmds IH]; intros st Hf; [done|].
  apply Forall_cons in Hf as [Hc Hf]. simpl. rewrite IH by done. by apply other_name_keeps_entry.
Qed.

(** Reads return what was written: after a put that was executed, and any commands
    that do not write the same name, [get] returns the body that was put with the
    etag, generation and size of the put's own response, and [head] the same without
    the body. *)
Theorem get_returns_last_put st c s ns k b im inm st1 resp cmds
    (Hput : Kv.apply st (Put c s ns k b im inm) = (st1, Ok (PutDone resp)))
    (Hfresh : cached_put st c s (PutRequest (mkKvName ns k) b im inm) = Ok None)
    (Hothers : Forall (fun cmd => ~ writes cmd (mkKvName ns k)) cmds) :
  get_reply (run st1 cmds) ns k =
    Ok (GetReply (mkGetResponse ns k (pr_etag resp) (pr_generation resp) (pr_size resp) b)) /\
  head_reply (run st1 cmds) ns k =
    Ok (HeadReply (mkHeadResponse ns k (pr_etag resp) (pr_generation resp) (pr_size resp))).
Proof.
  pose proof (fresh_put_effect _ _ _ _ _ _ _ _ _ _ Hput Hfresh) as (_ & _ & Hent).
  assert (pr_size resp = str_len b /\ KvName_new ns k = Ok (mkKvName ns k)) as [-> Hname].
  { pose proof Hput as Hput'. simpl in Hput. unfold apply_put in Hput.
    destruct (let? _ := _ in _) as [nm|] eqn:Ev; [|done].
    assert (KvName_new ns k = Ok nm) as Hn by (repeat case_match; by simplify_eq).
    pose proof (KvName_new_eq _ _ _ Hn) as ->. rewrite Hfresh in Hput. split; [|done].
    unfold execute_put, body_len, next_generation, reject, record in Hput.
    repeat case_match; by simplify_eq/=. }
  unfold get_reply, head_reply. rewrite Hname, run_other_names, Hent, lookup_insert_eq by done. done.
Qed.

Lemma get_returns_last_put_witness :
  get_reply (run (fst (Kv.apply demo_kv demo_put)) [RegisterSession]) [Byte.x6e] [Byte.x6b] =
  Ok (GetReply (mkGetResponse [Byte.x6e] [Byte.x6b] (etag_for 1) 1 1 [Byte.x76])).
Proof.
  destruct (get_returns_last_put demo_kv 1 1 [Byte.x6e] [Byte.x6b] [Byte.x76] [] false
    (fst (Kv.apply demo_kv demo_put))
    (mkPutResponse [Byte.x6e] [Byte.x6b] (etag_for 1) 1 1) [RegisterSession]
    ltac:(vm_compute; reflexivity) ltac:(vm_compute; reflexivity)
    ltac:(repeat constructor; intros Hw; exact Hw)) as [Hg _].
  exact Hg.
Defined.
