(* ===== verification/Transport.v ===== *)
(** * Transport: Raft messages between nodes

    Models [basisdb-node/src/transport.rs]: the table of peers with its permits,
    the HTTP request a node writes for a message, and the handler that checks a
    received request before it reaches the runtime.  The JSON codec, the HTTP
    server library and the display of addresses are outside the repository: they
    are the classes [MessageCodec] and [Http]. *)

From S2P Require Import Prelude.
From S2P Require Import Types.
From S2P Require Import Event.
From S2P Require Import Kv.
From S2P Require Import Auth.
From S2P Require Import Settings.
From S2P Require Import Runtime.

Definition MAX_RESPONSE_BYTES : nat := 8 * 1024.
Definition MAX_RAFT_MESSAGE_BYTES : N := 2 * 1024 * 1024.
Definition MAX_IN_FLIGHT_PER_PEER : nat := 16.
Definition SIGNATURE_HEADER : bytes := literal "x-basisdb-raft-signature".

(** ** The table of peers *)

(** [permits] is the number of permits left in the semaphore. *)
Record Peer : Type := mkPeer {
  p_addr : N;
  permits : nat
}.

Record PeerTransport : Type := mkPeerTransport {
  tr_peers : gmap N Peer;
  tr_key : RaftKey
}.

Definition PeerTransport_new (node_id : N) (key : RaftKey) (peers : gmap N N) : PeerTransport :=
  mkPeerTransport
    ((fun addr => mkPeer addr MAX_IN_FLIGHT_PER_PEER) <$>
     base.filter (fun kv => kv.1 <> node_id) peers) key.

(** A spawned task: the address and the message it posts. *)
Record Task : Type := mkTask {
  t_addr : N;
  t_message : Message
}.

Definition set_permits (t : PeerTransport) (id : N) (p : Peer) : PeerTransport :=
  mkPeerTransport (<[id := p]> (tr_peers t)) (tr_key t).

(** [send]: [Err] names an unknown peer, [Ok None] is a message dropped at the
    limit, [Ok (Some task)] a spawned task that holds a permit. *)
Definition send (t : PeerTransport) (m : Message) : PeerTransport * result (option Task) N :=
  match tr_peers t !! msg_to m with
  | None => (t, Err (msg_to m))
  | Some peer =>
      match permits peer with
      | O => (t, Ok None)
      | S n => (set_permits t (msg_to m) (mkPeer (p_addr peer) n),
                Ok (Some (mkTask (p_addr peer) m)))
      end
  end.

(** The end of a task drops its permit. *)
Definition task_end (t : PeerTransport) (task : Task) : PeerTransport :=
  match tr_peers t !! msg_to (t_message task) with
  | None => t
  | Some peer => set_permits t (msg_to (t_message task)) (mkPeer (p_addr peer) (S (permits peer)))
  end.

(** ** The wire *)

(** [serde_json::to_vec] and [from_slice] for messages. *)
Class MessageCodec : Type := {
  to_vec : Message -> option bytes;
  from_slice : bytes -> option Message
}.

(** Decoding returns the encoded message. *)
Class MessageCodecLaws (C : MessageCodec) : Prop :=
  from_to_slice : forall m bs, to_vec m = Some bs -> from_slice bs = Some m.

(** The answer of the peer API. *)
Inductive Response : Type :=
| NoContent
| Unauthorized (why : string)
| BadRequest (why : option MessageError)
| InternalServerError (why : RuntimeError)
| PayloadTooLarge.

(** What [axum] and [hyper] do with the bytes of a connection: read a request into
    its headers (names in lower case) and body, and write a response.
    [display_addr] is the [Display] of a socket address. *)
Class Http : Type := {
  http_parse : bytes -> option (list (bytes * bytes) * bytes);
  http_render : Response -> bytes;
  display_addr : N -> bytes
}.

(** [HeaderMap::get]: the first value of a name. *)
Fixpoint header_get (headers : list (bytes * bytes)) (name : bytes) : option bytes :=
  match headers with
  | [] => None
  | (k, v) :: headers' => if bool_decide (k = name) then Some v else header_get headers' name
  end.

(** [HeaderValue::to_str]: visible ASCII and tabs only. *)
Definition visible (b : Byte.byte) : bool :=
  ((32 <=? Byte.to_N b) && (Byte.to_N b <? 127)) || (Byte.to_N b =? 9).
Definition to_str (value : bytes) : option bytes :=
  if forallb visible value then Some value else None.

Definition CRLF : bytes := [Byte.x0d; Byte.x0a].

Section Wire.

Context `{H : HmacSha256} `{C : MessageCodec} `{W : Http}.

(** *** The sender *)

Inductive PostError : Type :=
| EncodingFailed
| MessageTooLarge
| SigningFailed
| ConnectionFailed
| PeerRejected (response : bytes).

(** The text of the request line and headers. *)
Definition request_head (addr : N) (sig : bytes) (content_length : nat) : bytes :=
  literal "POST /raft/message HTTP/1.1" ++ CRLF ++
  literal "Host: " ++ display_addr addr ++ CRLF ++
  literal "Content-Type: application/json" ++ CRLF ++
  SIGNATURE_HEADER ++ literal ": " ++ sig ++ CRLF ++
  literal "Content-Length: " ++ decimal (N.of_nat content_length) ++ CRLF ++
  literal "Connection: close" ++ CRLF ++ CRLF.

(** The bytes [post_raft_message_inner] writes, up to its first failure. *)
Definition request_bytes (addr : N) (key : RaftKey) (m : Message) : result bytes PostError :=
  match to_vec m with
  | None => Err EncodingFailed
  | Some body =>
      if MAX_RAFT_MESSAGE_BYTES <? N.of_nat (length body) then Err MessageTooLarge
      else match signature key body with
           | None => Err SigningFailed
           | Some sig => Ok (request_head addr sig (length body) ++ body)
           end
  end.

(** What it makes of the bytes it reads back. *)
Definition read_response (response : bytes) : result unit PostError :=
  let response := take MAX_RESPONSE_BYTES response in
  if starts_with response (literal "HTTP/1.1 204") then Ok tt else Err (PeerRejected response).

(** [post_raft_message]: [exchange] connects, writes the request and reads the
    answer, and returns [None] on an I/O error or when the second is over. *)
Definition post_raft_message (exchange : N -> bytes -> option bytes) (addr : N) (key : RaftKey)
    (m : Message) : result unit PostError :=
  let? request := request_bytes addr key m in
  match exchange addr request with
  | None => Err ConnectionFailed
  | Some response => read_response response
  end.

(** *** The receiver *)

Context {St Out : Type} (apply_command : Command -> St -> St * Out).
Implicit Types (rt : RaftRuntime St).

Definition verify_signature rt (body sig : bytes) : bool :=
  verify (nc_raft_key (rt_config rt)) body sig.

(** The checks of [receive_raft] before its step: the message, or the refusal. *)
Definition check_raft rt (headers : list (bytes * bytes)) (body : bytes) : result Message Response :=
  match header_get headers SIGNATURE_HEADER ≫= to_str with
  | None => Err (Unauthorized "missing Raft signature")
  | Some sig =>
      if negb (verify_signature rt body sig)
      then Err (Unauthorized "invalid Raft signature")
      else match from_slice body with
           | None => Err (BadRequest None)
           | Some m =>
               match validate_message rt m with
               | Err e => Err (BadRequest (Some e))
               | Ok _ => Ok m
               end
           end
  end.

Definition receive_raft rt (headers : list (bytes * bytes)) (body : bytes) (disk_ok : bool)
  : RaftRuntime St * Output Out * Response :=
  match check_raft rt headers body with
  | Err response => (rt, no_output, response)
  | Ok m =>
      let '(rt, out, r) := step apply_command rt m disk_ok in
      match r with
      | Err e => (rt, out, InternalServerError e)
      | Ok _ => (rt, out, NoContent)
      end
  end.

(** [raft_app]: the body limit of the layer, then the handler. *)
Definition raft_app rt (headers : list (bytes * bytes)) (body : bytes) (disk_ok : bool)
  : RaftRuntime St * Output Out * Response :=
  if MAX_RAFT_MESSAGE_BYTES <? N.of_nat (length body) then (rt, no_output, PayloadTooLarge)
  else receive_raft rt headers body disk_ok.

(** What [raft_app] makes of a request before the step. *)
Definition raft_admit rt (headers : list (bytes * bytes)) (body : bytes) : result Message Response :=
  if MAX_RAFT_MESSAGE_BYTES <? N.of_nat (length body) then Err PayloadTooLarge
  else check_raft rt headers body.

(** How far an exchange gets within its second: the request is never read in full, or
    it is handled and the answer is lost or late, or the sender reads the first bytes of
    the answer before the connection closes. *)
Inductive Exchange : Type :=
| NotReceived
| AnswerLost
| AnswerRead (k : nat).

Definition received (x : Exchange) : bool :=
  match x with NotReceived => false | _ => true end.

(** The request as the receiver parses it. *)
Definition request_received (addr : N) (key : RaftKey) (m : Message) (x : Exchange)
  : option (list (bytes * bytes) * bytes) :=
  match request_bytes addr key m with
  | Ok request => if received x then http_parse request else None
  | Err _ => None
  end.

(** What the sender reads back. *)
Definition answer (x : Exchange) (response : option Response) : option bytes :=
  match x, response with
  | AnswerRead k, Some response => Some (take k (http_render response))
  | _, _ => None
  end.

(** A message posted to the node [rt]: its new state, what it sends, and what the
    sender learns. *)
Definition rpc rt (addr : N) (key : RaftKey) (m : Message) (disk_ok : bool) (x : Exchange)
  : RaftRuntime St * Output Out * result unit PostError :=
  match request_received addr key m x with
  | None => (rt, no_output, post_raft_message (fun _ _ => answer x None) addr key m)
  | Some (headers, body) =>
      let '(rt, out, response) := raft_app rt headers body disk_ok in
      (rt, out, post_raft_message (fun _ _ => answer x (Some response)) addr key m)
  end.

End Wire.

(** ** Messages in flight *)

(** What happens to the transport: a message is handed over, or the task at a
    position ends. *)
Inductive TransportOp : Type :=
| OpSend (m : Message)
| OpEnd (k : nat).

(** One operation on the transport and its running tasks. *)
Definition transport_op (s : PeerTransport * list Task) (op : TransportOp)
  : PeerTransport * list Task :=
  let '(t, tasks) := s in
  match op with
  | OpSend m =>
      let '(t, r) := send t m in
      match r with
      | Ok (Some task) => (t, task :: tasks)
      | _ => (t, tasks)
      end
  | OpEnd k =>
      match tasks !! k with
      | None => s
      | Some task => (task_end t task, delete k tasks)
      end
  end.

(** The number of running tasks that post to a peer. *)
Definition in_flight (tasks : list Task) (id : N) : nat :=
  length (base.filter (fun task => msg_to (t_message task) = id) tasks).

(** Permits and running tasks add up, and tasks go to the peer's address. *)
Definition transport_ok (peers : gmap N N) (s : PeerTransport * list Task) : Prop :=
  forall id,
    match tr_peers s.1 !! id with
    | Some p => peers !! id = Some (p_addr p) /\
                (permits p + in_flight s.2 id = MAX_IN_FLIGHT_PER_PEER)%nat
    | None => peers !! id = None /\ in_flight s.2 id = 0%nat
    end.

Lemma in_flight_cons task tasks id :
  in_flight (task :: tasks) id =
  ((if decide (msg_to (t_message task) = id) then 1 else 0) + in_flight tasks id)%nat.
Proof. unfold in_flight. rewrite filter_cons. by case_decide. Qed.

Lemma in_flight_delete tasks k task id :
  tasks !! k = Some task ->
  in_flight tasks id =
  ((if decide (msg_to (t_message task) = id) then 1 else 0) + in_flight (delete k tasks) id)%nat.
Proof. intros Hk. rewrite <- in_flight_cons. unfold in_flight. by rewrite <- (delete_Permutation _ _ _ Hk). Qed.

Lemma transport_new_ok node_id key peers :
  transport_ok (delete node_id peers) (PeerTransport_new node_id key peers, []).
Proof.
  intros id. simpl. rewrite lookup_fmap, map_lookup_filter.
  destruct (decide (id = node_id)) as [-> | Hid].
  - rewrite lookup_delete_eq. destruct (peers !! node_id); simpl; [|done].
    rewrite option_guard_False by naive_solver. done.
  - rewrite lookup_delete_ne by done. destruct (peers !! id) as [a|]; simpl; [|done].
    rewrite option_guard_True by done. done.
Qed.

Lemma transport_op_ok peers s op : transport_ok peers s -> transport_ok peers (transport_op s op).
Proof.
  destruct s as [t tasks]. intros Hok. destruct op as [m|k]; simpl.
  - unfold send. pose proof (Hok (msg_to m)) as Hm. simpl in Hm.
    destruct (tr_peers t !! msg_to m) as [[a [|n]]|] eqn:E; simpl; try done.
    intros id. simpl. rewrite in_flight_cons. simpl. specialize (Hok id). simpl in Hok, Hm.
    destruct (decide (msg_to m = id)) as [<- | Hid].
    + rewrite lookup_insert_eq. simpl. destruct Hm. split; [done|lia].
    + by rewrite lookup_insert_ne.
  - destruct (tasks !! k) as [task|] eqn:Ek; [|done]. unfold task_end.
    pose proof (fun id => in_flight_delete _ _ _ id Ek) as Hd.
    set (to := msg_to (t_message task)) in *.
    pose proof (Hok to) as Hto. simpl in Hto. rewrite Hd in Hto. rewrite decide_True in Hto by done.
    destruct (tr_peers t !! to) as [p|] eqn:E; [|lia].
    intros id. specialize (Hok id). simpl in *. rewrite Hd in Hok.
    destruct (decide (to = id)) as [<- | Hid].
    + rewrite lookup_insert_eq. simpl. destruct Hto. split; [done|lia].
    + by rewrite lookup_insert_ne.
Qed.

Lemma transport_run_ok peers s ops :
  transport_ok peers s -> transport_ok peers (foldl transport_op s ops).
Proof.
  revert s. induction ops as [|op ops IH]; intros s Hs; [done|]. apply IH.
  by apply transport_op_ok.
Qed.

(** C32. Back-pressure on the peer links.  After any sequence of sends and finished
    posts, at most 16 posts to each peer are running; a message is dropped exactly
    when 16 posts to its peer are running, refused with its address exactly when
    the address is not another configured peer, and otherwise posted to the
    configured address of the peer it names. *)
Theorem in_flight_posts_are_bounded (node_id : N) (key : RaftKey) (peers : gmap N N)
    (ops : list TransportOp) (m : Message) :
  let s := foldl transport_op (PeerTransport_new node_id key peers, []) ops in
  (forall id, (in_flight s.2 id <= MAX_IN_FLIGHT_PER_PEER)%nat) /\
  (send s.1 m).2 =
    match delete node_id peers !! msg_to m with
    | None => Err (msg_to m)
    | Some addr =>
        if Nat.eqb (in_flight s.2 (msg_to m)) MAX_IN_FLIGHT_PER_PEER then Ok None
        else Ok (Some (mkTask addr m))
    end.
Proof.
  intros s.
  assert (transport_ok (delete node_id peers) s) as Hok
    by apply transport_run_ok, transport_new_ok.
  split.
  - intros id. specialize (Hok id). destruct (tr_peers s.1 !! id) as [p|]; lia.
  - specialize (Hok (msg_to m)). unfold send.
    destruct (tr_peers s.1 !! msg_to m) as [p|]; destruct Hok as [-> Hn]; [|done].
    destruct (permits p) as [|n]; simpl.
    + by rewrite (proj2 (Nat.eqb_eq _ _)) by lia.
    + by rewrite (proj2 (Nat.eqb_neq _ _)) by lia.
Qed.

(** The loop of [handle_effects] over [send_message]: the tasks it spawns, and the
    first unknown peer. *)
Fixpoint send_all (t : PeerTransport) (ms : list Message)
  : PeerTransport * list Task * option N :=
  match ms with
  | [] => (t, [], None)
  | m :: ms' =>
      let '(t, r) := send t m in
      match r with
      | Err peer => (t, [], Some peer)
      | Ok posted =>
          let '(t, out, err) := send_all t ms' in
          (t, match posted with Some task => task :: out | None => out end, err)
      end
  end.

(** The runtime's view of its transport is a refinement: sending a batch through
    the table of peers fails exactly when, and at the message where, the runtime's
    model of sending fails, and what is posted is a subsequence of the batch the
    network model may deliver, so the only effect of the permits is message loss. *)
Theorem transport_only_loses_messages (cfg : NodeConfig) (s : PeerTransport * list Task)
    (ms : list Message) (Hok : transport_ok (delete (nc_node_id cfg) (nc_peers cfg)) s) :
  (send_all s.1 ms).2 = (send_messages cfg ms).2 /\
  t_message <$> (send_all s.1 ms).1.2 `sublist_of` (send_messages cfg ms).1.
Proof.
  revert s Hok. induction ms as [|m ms IH]; intros [t tasks] Hok; [done|]. simpl.
  pose proof (transport_op_ok _ _ (OpSend m) Hok) as Hok'. simpl in Hok'.
  pose proof (Hok (msg_to m)) as Hm. simpl in Hm. unfold send in *.
  destruct (tr_peers t !! msg_to m) as [p|] eqn:E; destruct Hm as [Hp _]; rewrite Hp; simpl;
    [|by split; [|constructor]].
  destruct (send_messages cfg ms) as [out err] eqn:Es.
  destruct (permits p) as [|n]; specialize (IH _ Hok'); simpl in IH |- *;
    destruct (send_all _ ms) as [[t' out'] err']; simpl in *; destruct IH as [-> IH];
    split; try done; by constructor.
Qed.

Lemma transport_only_loses_messages_witness :
  let cfg := mkNodeConfig 1 21 11 {[1 := 11; 2 := 12]} [] StorageOptions_default (raft_config 1) in
  (send_all (PeerTransport_new 1 [] (nc_peers cfg)) [mkMessage 1 2 3 TimeoutNow;
     mkMessage 1 9 3 TimeoutNow]).2 = Some 9.
Proof.
  intros cfg.
  transitivity (send_messages cfg [mkMessage 1 2 3 TimeoutNow; mkMessage 1 9 3 TimeoutNow]).2;
    [|vm_compute; reflexivity].
  exact (proj1 (transport_only_loses_messages cfg (PeerTransport_new 1 [] (nc_peers cfg), [])
    [mkMessage 1 2 3 TimeoutNow; mkMessage 1 9 3 TimeoutNow]
    (transport_new_ok 1 [] (nc_peers cfg)))).
Defined.

(** ** What a request can change *)

(** The spelling of a tag is visible ASCII. *)
Lemma to_str_hex sig tag : lower <$> sig = encode_hex tag -> to_str sig = Some sig.
Proof.
  intros Hs. unfold to_str.
  assert (forallb visible sig = true) as ->; [|done].
  assert (forall b, bool_decide (lower b ∉ HEX) || visible b = true) as Hv
    by (apply all_bytes_forall; vm_compute; reflexivity).
  apply forallb_forall. intros b Hb%list_elem_of_In. specialize (Hv b).
  apply (list_elem_of_fmap_2 lower) in Hb. rewrite Hs in Hb. apply elem_of_encode_hex in Hb.
  by rewrite bool_decide_false in Hv by tauto.
Qed.

Lemma validate_message_Ok {St} (rt : RaftRuntime St) m :
  validate_message rt m = Ok tt <->
  msg_to m = nc_node_id (rt_config rt) /\ msg_from m <> nc_node_id (rt_config rt) /\
  is_Some (nc_peers (rt_config rt) !! msg_from m).
Proof.
  unfold validate_message. destruct (N.eqb_spec (msg_to m) (nc_node_id (rt_config rt))); simpl;
    [|naive_solver].
  destruct (N.eqb_spec (msg_from m) (nc_node_id (rt_config rt))); [naive_solver|].
  destruct (nc_peers (rt_config rt) !! msg_from m) as [a|]; simpl; [naive_solver|].
  split; [done|]. by intros (_ & _ & [? ?]).
Qed.

Section Receive.

Context `{H : HmacSha256} `{C : MessageCodec} `{W : Http}.
Context {St Out : Type} (apply_command : Command -> St -> St * Out).
Implicit Types (rt : RaftRuntime St).

(** The requests the handler passes on: signed with the node's key, readable, and
    from another configured node to this one. *)
Definition authentic rt (headers : list (bytes * bytes)) (body : bytes) (m : Message) : Prop :=
  (exists sig tag, header_get headers SIGNATURE_HEADER = Some sig /\
     hmac_tag (nc_raft_key (rt_config rt)) body = Some tag /\ lower <$> sig = encode_hex tag) /\
  from_slice body = Some m /\
  msg_to m = nc_node_id (rt_config rt) /\ msg_from m <> nc_node_id (rt_config rt) /\
  is_Some (nc_peers (rt_config rt) !! msg_from m).

Lemma verify_header rt headers body :
  HmacLaws H -> length (nc_raft_key (rt_config rt)) = KEY_BYTES ->
  (exists sig, header_get headers SIGNATURE_HEADER ≫= to_str = Some sig /\
     verify_signature rt body sig = true) <->
  (exists sig tag, header_get headers SIGNATURE_HEADER = Some sig /\
     hmac_tag (nc_raft_key (rt_config rt)) body = Some tag /\ lower <$> sig = encode_hex tag).
Proof.
  intros Hlaws Hk. unfold verify_signature. split.
  - intros (sig & (v & Hv & Ht)%bind_Some & (tag & Htag & Hs)%verify_true); [|done].
    unfold to_str in Ht. case_match; simplify_eq. eauto.
  - intros (sig & tag & Hh & Htag & Hs). exists sig. rewrite Hh. simpl.
    split; [by eapply to_str_hex|]. apply verify_true; eauto.
Qed.

(** The handler either refuses the request or steps the runtime with its message. *)
Lemma receive_raft_cases rt headers body disk_ok rt' out resp :
  HmacLaws H -> length (nc_raft_key (rt_config rt)) = KEY_BYTES ->
  receive_raft apply_command rt headers body disk_ok = (rt', out, resp) ->
  (exists m, authentic rt headers body m /\
     exists r, step apply_command rt m disk_ok = (rt', out, r) /\
       resp = match r with Ok _ => NoContent | Err e => InternalServerError e end) \/
  ((forall m, ~ authentic rt headers body m) /\ rt' = rt /\ out = no_output /\
     ((exists why, resp = Unauthorized why) \/ (exists why, resp = BadRequest why))).
Proof.
  intros Hlaws Hk. unfold receive_raft, check_raft.
  pose proof (verify_header rt headers body Hlaws Hk) as Hvh.
  destruct (header_get headers SIGNATURE_HEADER ≫= to_str) as [sig|] eqn:Eh.
  2: { intros [= <- <- <-]. right. split_and!; eauto. intros m ((sig & Hs)%Hvh & _). naive_solver. }
  destruct (verify_signature rt body sig) eqn:Ev; simpl.
  2: { intros [= <- <- <-]. right. split_and!; eauto. intros m ((sig' & [= <-] & Hs)%Hvh & _). congruence. }
  assert (exists sig tag, header_get headers SIGNATURE_HEADER = Some sig /\
    hmac_tag (nc_raft_key (rt_config rt)) body = Some tag /\ lower <$> sig = encode_hex tag)
    as Hsig by (apply Hvh; eauto).
  destruct (from_slice body) as [m|] eqn:Em.
  2: { intros [= <- <- <-]. right. split_and!; eauto. intros m (_ & Hm & _). by rewrite Em in Hm. }
  destruct (validate_message rt m) as [[]|e] eqn:Ee.
  2: { intros [= <- <- <-]. right. split_and!; eauto. intros m' (_ & Hm & Hval).
       assert (m' = m) as -> by congruence. apply validate_message_Ok in Hval. congruence. }
  apply validate_message_Ok in Ee.
  destruct (step apply_command rt m disk_ok) as [[rt1 out1] r] eqn:Es.
  intros Heq. left. exists m. split; [split; [exact Hsig|by split]|].
  exists r. destruct r; by simplify_eq.
Qed.

End Receive.

(** C15. Only authentic peer traffic reaches the consensus state.  For any request to
    the peer API, if the runtime changes, anything is sent or answered, or the
    answer is not a refusal, then the body is within the limit, carries in the
    signature header a spelling of its own tag under the node's key, decodes to a
    message, and that message is addressed to this node by another configured
    node; the runtime then did exactly the step of that message.  Every other
    request is refused with the status 401, 400 or 413 and changes nothing. *)
Theorem only_authentic_messages_step `{H : HmacSha256} `{C : MessageCodec} `{!HmacLaws H}
    {St Out : Type} (apply_command : Command -> St -> St * Out) (rt : RaftRuntime St)
    (headers : list (bytes * bytes)) (body : bytes) (disk_ok : bool)
    (Hkey : length (nc_raft_key (rt_config rt)) = KEY_BYTES) :
  let '(rt', out, resp) := raft_app apply_command rt headers body disk_ok in
  (exists m r, N.of_nat (length body) <= MAX_RAFT_MESSAGE_BYTES /\ authentic rt headers body m /\
     step apply_command rt m disk_ok = (rt', out, r) /\
     resp = match r with Ok _ => NoContent | Err e => InternalServerError e end) \/
  (rt' = rt /\ out = no_output /\
   (MAX_RAFT_MESSAGE_BYTES < N.of_nat (length body) \/ forall m, ~ authentic rt headers body m) /\
   match resp with
   | PayloadTooLarge | Unauthorized _ | BadRequest _ => True
   | NoContent | InternalServerError _ => False
   end).
Proof.
  unfold raft_app. destruct (N.ltb_spec MAX_RAFT_MESSAGE_BYTES (N.of_nat (length body))).
  { right. split_and!; try done. by left. }
  destruct (receive_raft apply_command rt headers body disk_ok) as [[rt' out] resp] eqn:E.
  apply receive_raft_cases in E as [(m & Ha & r & Hs & ->) | (Hn & -> & -> & Hr)]; try done.
  - left. by exists m, r.
  - right. split_and!; try done; [by right|]. by destruct Hr as [[? ->]|[? ->]].
Qed.

(** What HTTP promises for the requests of this client and the responses of this
    server: the request is read back as its signature header and body, and the
    status line shows which response it is. *)
Class HttpLaws (W : Http) : Prop := {
  http_reads_request : forall addr sig body, to_str sig = Some sig ->
    exists headers, http_parse (request_head addr sig (length body) ++ body) = Some (headers, body) /\
      header_get headers SIGNATURE_HEADER = Some sig;
  http_shows_status : forall resp,
    starts_with (take MAX_RESPONSE_BYTES (http_render resp)) (literal "HTTP/1.1 204") =
    match resp with NoContent => true | _ => false end
}.

(** A posted message that encodes within the limit reaches the checks on the message
    itself. *)
Lemma posted_request_checks `{H : HmacSha256} `{C : MessageCodec} `{W : Http}
    `{!HmacLaws H} `{!MessageCodecLaws C} `{!HttpLaws W}
    {St : Type} (rt : RaftRuntime St) (addr : N) (m : Message) (body : bytes) :
  length (nc_raft_key (rt_config rt)) = KEY_BYTES -> to_vec m = Some body ->
  N.of_nat (length body) <= MAX_RAFT_MESSAGE_BYTES ->
  exists request headers, request_bytes addr (nc_raft_key (rt_config rt)) m = Ok request /\
    http_parse request = Some (headers, body) /\
    check_raft rt headers body =
      match validate_message rt m with Err e => Err (BadRequest (Some e)) | Ok _ => Ok m end.
Proof.
  intros Hkey Hbody Hsize. unfold request_bytes. rewrite Hbody, (proj2 (N.ltb_ge _ _) Hsize).
  destruct (signature_Some _ body Hkey) as (tag & Htag & Hsig). rewrite Hsig.
  pose proof (to_str_hex (encode_hex tag) tag (lower_encode_hex tag)) as Hstr.
  destruct (http_reads_request addr (encode_hex tag) body Hstr) as (headers & Hp & Hh).
  exists (request_head addr (encode_hex tag) (length body) ++ body), headers. split_and!; [done..|].
  unfold check_raft. rewrite Hh. simpl. rewrite Hstr. unfold verify_signature.
  rewrite (proj2 (verify_true _ body (encode_hex tag) Hkey)) by (exists tag; by rewrite lower_encode_hex).
  simpl. by rewrite (from_to_slice m body Hbody).
Qed.

(** What a post does at the receiver and tells the sender. *)
Lemma rpc_same_key `{H : HmacSha256} `{C : MessageCodec} `{W : Http}
    `{!HmacLaws H} `{!MessageCodecLaws C} `{!HttpLaws W}
    {St Out : Type} (apply_command : Command -> St -> St * Out) (rt : RaftRuntime St)
    (addr : N) (m : Message) (body : bytes) (disk_ok : bool) (x : Exchange) :
  length (nc_raft_key (rt_config rt)) = KEY_BYTES -> to_vec m = Some body ->
  N.of_nat (length body) <= MAX_RAFT_MESSAGE_BYTES ->
  let told response := match answer x response with None => Err ConnectionFailed | Some b => read_response b end in
  rpc apply_command rt addr (nc_raft_key (rt_config rt)) m disk_ok x =
  if received x then
    match validate_message rt m with
    | Err e => (rt, no_output, told (Some (BadRequest (Some e))))
    | Ok _ =>
        let '(rt', out, r) := step apply_command rt m disk_ok in
        (rt', out, told (Some (match r with Ok _ => NoContent | Err e => InternalServerError e end)))
    end
  else (rt, no_output, told None).
Proof.
  intros Hkey Hbody Hsize told.
  destruct (posted_request_checks rt addr m body Hkey Hbody Hsize) as (request & headers & Hr & Hp & Hc).
  unfold rpc, request_received, post_raft_message. rewrite Hr. simpl.
  destruct (received x); [|done]. rewrite Hp. unfold raft_app.
  rewrite (proj2 (N.ltb_ge _ _) Hsize). unfold receive_raft. rewrite Hc.
  destruct (validate_message rt m); [|done].
  by destruct (step apply_command rt m disk_ok) as [[rt' out] [[]|e]].
Qed.

Lemma starts_with_take_take s p k n :
  starts_with (take n (take k s)) p = true -> starts_with (take n s) p = true.
Proof.
  assert (forall s p n, starts_with (take n s) p = true -> starts_with s p = true) as Htake.
  { clear. intros s p. revert s. induction p as [|c p IH]; intros s n; [by destruct s|].
    destruct s as [|b s]; [by rewrite take_nil|]. destruct n as [|n]; [done|]. simpl.
    intros [? ?]%andb_true_iff. apply andb_true_iff. split; [done|]. by eapply IH. }
  rewrite take_take, Nat.min_comm, <- take_take. apply Htake.
Qed.


(** ** Instances for the witnesses *)

(** Time-outs between nodes with one-byte numbers, as three bytes. *)
#[local] Instance toy_codec : MessageCodec := {
  to_vec m :=
    match msg_payload m with
    | TimeoutNow =>
        f ← Byte.of_N (msg_from m); t ← Byte.of_N (msg_to m); n ← Byte.of_N (msg_term m);
        Some [f; t; n]
    | _ => None
    end;
  from_slice bs :=
    match bs with
    | [f; t; n] => Some (mkMessage (Byte.to_N f) (Byte.to_N t) (Byte.to_N n) TimeoutNow)
    | _ => None
    end
}.

#[local] Instance toy_codec_laws : MessageCodecLaws toy_codec.
Proof.
  intros [f t n p] bs. simpl. destruct p; try done.
  intros (a & ->%of_N_Some & (b & ->%of_N_Some & (c & ->%of_N_Some & [= <-])%bind_Some)%bind_Some)%bind_Some.
  done.
Qed.

(** Split at the first carriage return. *)
Fixpoint until_cr (bs : bytes) : bytes * bytes :=
  match bs with
  | [] => ([], [])
  | b :: bs' =>
      if bool_decide (b = Byte.x0d) then ([], bs')
      else let '(l, r) := until_cr bs' in (b :: l, r)
  end.

Lemma until_cr_app l r : Byte.x0d ∉ l -> until_cr (l ++ Byte.x0d :: r) = (l, r).
Proof.
  induction l as [|b l IH]; intros Hl; simpl; [done|].
  apply not_elem_of_cons in Hl as [Hb Hl]. rewrite bool_decide_false by done. by rewrite IH.
Qed.

Lemma decimal_loop_no_cr fuel n acc : Byte.x0d ∉ acc -> Byte.x0d ∉ decimal_loop fuel n acc.
Proof.
  revert n acc. induction fuel as [|fuel IH]; intros n acc Hacc; [done|]. simpl.
  assert (Byte.x0d ∉ digit (n mod 10) :: acc) as Ha; [|by case_match; [|apply IH]].
  apply not_elem_of_cons. split; [|done]. intros Hd.
  unfold digit in Hd.
  destruct (Byte.of_N (48 + n mod 10)) as [b|] eqn:E; [|done].
  change (Byte.x0d = b) in Hd. subst b. apply of_N_Some in E.
  pose proof (N.le_add_r 48 (n mod 10)) as Hle. rewrite E in Hle. by vm_compute in Hle.
Qed.

(** The text before the signature when addresses are displayed as nothing, and the
    text after the content length. *)
Definition toy_prefix : bytes :=
  literal "POST /raft/message HTTP/1.1" ++ CRLF ++ literal "Host: " ++ CRLF ++
  literal "Content-Type: application/json" ++ CRLF ++ SIGNATURE_HEADER ++ literal ": ".
Definition toy_suffix : bytes := Byte.x0a :: literal "Connection: close" ++ CRLF ++ CRLF.

#[local] Instance toy_http : Http := {
  http_parse request :=
    let '(sig, rest) := until_cr (drop (length toy_prefix) request) in
    let '(_, rest) := until_cr rest in
    Some ([(SIGNATURE_HEADER, sig)], drop (length toy_suffix) rest);
  http_render resp :=
    match resp with
    | NoContent => literal "HTTP/1.1 204 No Content"
    | _ => literal "HTTP/1.1 500 Internal Server Error"
    end;
  display_addr _ := []
}.

Lemma toy_request addr sig n body :
  request_head addr sig n ++ body =
  toy_prefix ++ sig ++ Byte.x0d ::
    (Byte.x0a :: literal "Content-Length: " ++ decimal (N.of_nat n)) ++ Byte.x0d ::
    toy_suffix ++ body.
Proof.
  unfold request_head, toy_prefix, toy_suffix. rewrite <- !app_assoc. cbn [display_addr toy_http app].
  repeat (f_equal; try done).
Qed.

#[local] Instance toy_http_laws : HttpLaws toy_http.
Proof.
  split; [|by intros []].
  intros addr sig body Hs. exists [(SIGNATURE_HEADER, sig)].
  split; [|reflexivity].
  assert (Byte.x0d ∉ sig) as Hcr.
  { intros Hin%list_elem_of_In. unfold to_str in Hs. destruct (forallb visible sig) eqn:E; [|done].
    rewrite forallb_forall in E. by apply E in Hin. }
  assert (Byte.x0d ∉ Byte.x0a :: literal "Content-Length: " ++ decimal (N.of_nat (length body)))
    as Hlen.
  { change (Byte.x0d ∉ (Byte.x0a :: literal "Content-Length: ") ++ decimal (N.of_nat (length body))).
    rewrite not_elem_of_app. split; [by apply (bool_decide_unpack _); vm_compute|].
    apply decimal_loop_no_cr. apply not_elem_of_nil. }
  rewrite toy_request. unfold http_parse, toy_http. rewrite drop_app_length, until_cr_app by done.
  by rewrite until_cr_app, drop_app_length by done.
Qed.

Definition demo_key : RaftKey := repeat Byte.x2a 32.

(** Node 2 of a pair, as a follower in term 1. *)
Definition demo_receiver : RaftRuntime (list Command) :=
  let cfg := mkNodeConfig 2 22 12 {[1 := 11; 2 := 12]} demo_key StorageOptions_default
               (raft_config 2) in
  mkRaftRuntime cfg (Node.restore (nc_consensus cfg) (initial_persistent cfg))
    (initial_persistent cfg) [] ∅ 1 false [].

Definition demo_message : Message := mkMessage 1 2 1 TimeoutNow.

Lemma only_authentic_messages_step_witness :
  let '(rt', _, resp) := @raft_app toy_tag toy_codec _ _ journal demo_receiver [] [Byte.x01] true in
  rt' = demo_receiver /\ resp = Unauthorized "missing Raft signature".
Proof.
  destruct (@only_authentic_messages_step toy_tag toy_codec toy_tag_laws _ _ journal demo_receiver
    [] [Byte.x01] true eq_refl) as [(m & r & _ & ((sig & tag & Hs & _) & _) & _) | (Hrt & _)].
  - discriminate Hs.
  - split; [exact Hrt | reflexivity].
Defined.

