(* ===== verification/Deployment.v ===== *)
(** * Deployment: nodes connected by their transports

    The system as it is deployed: every node runs its runtime and its transport,
    messages wait for permits, are posted over HTTP with a signature to the address
    of a peer, and are checked by the peer API of whoever listens there.  A post may
    end (by an answer, a failure or its time-out) before, after or without the
    request being handled, and a request that has passed its checks may wait for the
    machine's lock.  Every execution of this system is matched, state by state, by one
    of the abstract network of [Cluster], so what [Safety] proves of reachable states and
    of pairs of moments holds of it. *)

From S2P Require Import Prelude.
From S2P Require Import Types.
From S2P Require Import Log.
From S2P Require Import Event.
From S2P Require Import Core.
From S2P Require Import Node.
From S2P Require Import HardState.
From S2P Require Import Auth.
From S2P Require Import Settings.
From S2P Require Import Runtime.
From S2P Require Import Cluster.
From S2P Require Import LogMatching.
From S2P Require Import Safety.
From S2P Require Import Transport.

(** ** The system *)

Section Deployment.

Context `{H : HmacSha256} `{C : MessageCodec} `{W : Http}.
Context {St Out : Type} (apply_command : Command -> St -> St * Out) (initial_state : St).
Context (cfgs : gmap N NodeConfig).

(** The running posts hold permits of their sender; a written request may be handled
    at any later time, with the key it was signed with. *)
Record Deployment : Type := mkDeployment {
  d_nodes : gmap N (RaftRuntime St);
  d_transports : gmap N PeerTransport;
  d_posts : list (N * Task);
  d_wire : list (RaftKey * Task)
}.

Definition deploy : Deployment :=
  mkDeployment (nodes (initial initial_state cfgs))
    ((fun cfg => PeerTransport_new (nc_node_id cfg) (nc_raft_key cfg) (nc_peers cfg)) <$> cfgs) [] [].

(** The node that listens on an address. *)
Definition listener (d : Deployment) (addr : N) : option (N * RaftRuntime St) :=
  List.find (fun x => nc_raft_addr (rt_config x.2) =? addr) (map_to_list (d_nodes d)).

(** After an operation of node [i]: its messages go to its transport. *)
Definition after_op (d : Deployment) (i : N) (rt : RaftRuntime St) (out : list Message)
  : Deployment :=
  match d_transports d !! i with
  | None => mkDeployment (<[i := rt]> (d_nodes d)) (d_transports d) (d_posts d) (d_wire d)
  | Some t =>
      let '(t', tasks, _) := send_all t out in
      mkDeployment (<[i := rt]> (d_nodes d)) (<[i := t']> (d_transports d))
        (d_posts d ++ (pair i <$> tasks)) (d_wire d ++ (pair (tr_key t) <$> tasks))
  end.

Inductive DeployOp : Type :=
| DTick (i : N) (disk_ok : bool)
| DHandle (k : nat) (disk_ok : bool)
| DPostEnds (k : nat)
| DPropose (i : N) (cmd : Command) (disk_ok : bool)
| DFinish (i index id : N)
| DCrash (i : N)
| DEnterTick (i : N)
| DEnterHandle (k : nat)
| DEnterPropose (i : N) (cmd : Command)
| DLocked (i : N) (p : nat) (disk_ok : bool)
| DLeave (i : N) (p : nat).

Definition deploy_op (d : Deployment) (op : DeployOp) : option Deployment :=
  match op with
  | DTick i ok =>
      match d_nodes d !! i with
      | Some rt =>
          if no_term_overflow (rt_node rt) Tick then
            let '(rt', out, _) := tick_once apply_command rt ok in Some (after_op d i rt' (sent out))
          else None
      | None => None
      end
  | DHandle k ok =>
      match d_wire d !! k with
      | Some (key, task) =>
          match listener d (t_addr task) with
          | Some (j, rt) =>
              if no_term_overflow (rt_node rt) (MessageEvent (t_message task)) then
                let '(rt', out, _) :=
                  rpc apply_command rt (t_addr task) key (t_message task) ok AnswerLost in
                Some (after_op d j rt' (sent out))
              else None
          | None => Some d
          end
      | None => None
      end
  | DPostEnds k =>
      match d_posts d !! k with
      | Some (i, task) =>
          Some (mkDeployment (d_nodes d)
                  (alter (fun t => task_end t task) i (d_transports d))
                  (delete k (d_posts d)) (d_wire d))
      | None => None
      end
  | DPropose i cmd ok =>
      match d_nodes d !! i with
      | Some rt =>
          if last_index (log (core (rt_node rt))) + 2 <? two64 then
            match Runtime.propose apply_command rt cmd ok with
            | Some (rt', out, _) => Some (after_op d i rt' (sent out))
            | None => None
            end
          else None
      | None => None
      end
  | DFinish i index pid =>
      match d_nodes d !! i with
      | Some rt => Some (after_op d i (finish_wait rt index pid) [])
      | None => None
      end
  | DCrash i =>
      match d_nodes d !! i with
      | Some rt =>
          match open_option initial_state (rt_config rt) (rt_durable rt) with
          | Some rt' =>
              let cfg := rt_config rt in
              Some (mkDeployment (<[i := rt']> (d_nodes d))
                      (<[i := PeerTransport_new (nc_node_id cfg) (nc_raft_key cfg) (nc_peers cfg)]>
                         (d_transports d))
                      (base.filter (fun x => x.1 <> i) (d_posts d)) (d_wire d))
          | None => None
          end
      | None => None
      end
  | DEnterTick i =>
      match d_nodes d !! i with
      | Some rt => Some (after_op d i (entered_or rt (enter_tick rt)) [])
      | None => None
      end
  | DEnterHandle k =>
      match d_wire d !! k with
      | Some (key, task) =>
          match listener d (t_addr task) with
          | Some (j, rt) =>
              match request_received (t_addr task) key (t_message task) AnswerLost with
              | Some (headers, body) =>
                  match raft_admit rt headers body with
                  | Ok m => Some (after_op d j (entered_or rt (enter_step rt m)) [])
                  | Err _ => Some d
                  end
              | None => Some d
              end
          | None => Some d
          end
      | None => None
      end
  | DEnterPropose i cmd =>
      match d_nodes d !! i with
      | Some rt => Some (after_op d i (entered_or rt (enter_propose rt cmd)) [])
      | None => None
      end
  | DLocked i p ok =>
      match d_nodes d !! i with
      | Some rt =>
          match rt_entered rt !! p with
          | Some c =>
              if call_in_range (rt_node rt) c then
                match run_call apply_command (leave rt p) c ok with
                | Some (rt', out) => Some (after_op d i rt' (sent out))
                | None => None
                end
              else None
          | None => None
          end
      | None => None
      end
  | DLeave i p =>
      match d_nodes d !! i with
      | Some rt => Some (after_op d i (leave rt p) [])
      | None => None
      end
  end.

(** The states a list of operations goes through, from the first to the last. *)
Fixpoint deploy_states (d : Deployment) (ops : list DeployOp) : option (list Deployment) :=
  match ops with
  | [] => Some [d]
  | op :: ops' =>
      match deploy_op d op with
      | Some d' => match deploy_states d' ops' with Some ds => Some (d :: ds) | None => None end
      | None => None
      end
  end.

(** Configurations that agree: same members, one key, and every node listed by all at
    its own address. *)
Definition consistent_configs (key : RaftKey) : Prop :=
  length key = KEY_BYTES /\
  forall i cfg, cfgs !! i = Some cfg ->
    nc_node_id cfg = i /\ nc_raft_key cfg = key /\
    nc_peers cfg = nc_raft_addr <$> cfgs /\
    forall j cfg', cfgs !! j = Some cfg' -> nc_raft_addr cfg' = nc_raft_addr cfg -> j = i.

End Deployment.

Arguments Deployment St : clear implicits.

(** ** Configurations do not change *)

Section Configs.

Context {St Out : Type} (apply_command : Command -> St -> St * Out) (initial_state : St).
Context (cfgs : gmap N NodeConfig) (Hmembers : same_members cfgs).

Definition configured (c : Cluster St) : Prop :=
  forall i rt, nodes c !! i = Some rt -> cfgs !! i = Some (rt_config rt).

Lemma run_configured acts c c' :
  sound cfgs c -> configured c -> run apply_command initial_state c acts = Some c' -> configured c'.
Proof.
  revert c. induction acts as [|a acts IH]; intros c Hs Hcfg; simpl; [by intros [= <-]|].
  destruct (exec apply_command initial_state c a) as [c1|] eqn:Ea; [|done].
  destruct (exec_contract _ _ _ _ _ _ Hs Ea) as (rt & rt' & out & Hrt & -> & _ & Hop).
  apply IH; [by eapply sound_op|]. intros j rt1. simpl. destruct (decide (j = actor a)) as [-> | Hne].
  - rewrite lookup_insert_eq. intros [= <-]. rewrite (bo_config _ _ _ _ _ _ Hop). by apply Hcfg.
  - rewrite lookup_insert_ne by done. apply Hcfg.
Qed.

Lemma reachable_configured c : reachable apply_command initial_state cfgs c -> configured c.
Proof.
  intros [acts Hr]. eapply run_configured; [by eapply initial_sound| |exact Hr].
  intros i rt. simpl. rewrite lookup_omap. destruct (cfgs !! i) as [cfg|]; [|done]. simpl.
  unfold open_option. destruct (Runtime.open _ _ _) as [rt0|] eqn:Eo; [|done]. intros [= <-].
  by apply open_Ok in Eo as (-> & _).
Qed.

End Configs.

(** ** What a transport spawns *)

Definition addresses (t : PeerTransport) : gmap N N := p_addr <$> tr_peers t.

Lemma send_addresses t m : addresses (send t m).1 = addresses t /\ tr_key (send t m).1 = tr_key t.
Proof.
  unfold send. destruct (tr_peers t !! msg_to m) as [p|] eqn:E; [|done].
  destruct (permits p); [done|]. split; [|done]. unfold addresses. simpl. rewrite fmap_insert. simpl.
  apply insert_id. by rewrite lookup_fmap, E.
Qed.

Lemma send_all_tasks t ms t' tasks err :
  send_all t ms = (t', tasks, err) ->
  addresses t' = addresses t /\ tr_key t' = tr_key t /\
  forall task, task ∈ tasks ->
    t_message task ∈ ms /\ addresses t !! msg_to (t_message task) = Some (t_addr task).
Proof.
  revert t t' tasks err. induction ms as [|m ms IH]; intros t t' tasks err; simpl.
  { intros [= <- <- <-]. split_and!; [done..|]. intros task Hin. inversion Hin. }
  pose proof (send_addresses t m) as [Ha Hk].
  destruct (send t m) as [t1 r] eqn:Es. simpl in Ha, Hk. destruct r as [posted|peer].
  2: { intros [= <- <- <-]. split_and!; [done..|]. intros task Hin. inversion Hin. }
  destruct (send_all t1 ms) as [[t2 out] err2] eqn:Er. intros [= <- <- <-].
  destruct (IH _ _ _ _ Er) as (Ha2 & Hk2 & Hin2). rewrite Ha in *. split_and!; [congruence..|].
  assert (forall task, task ∈ out -> t_message task ∈ m :: ms /\
    addresses t !! msg_to (t_message task) = Some (t_addr task)) as Hout.
  { intros task [Hm ?]%Hin2. split; [by right|done]. }
  destruct posted as [task0|]; [|exact Hout].
  intros task [-> | Hin]%elem_of_cons; [|by apply Hout].
  unfold send in Es. destruct (tr_peers t !! msg_to m) as [p|] eqn:E; [|done].
  destruct (permits p); [done|]. injection Es as <- <-. simpl. split; [by left|].
  unfold addresses. by rewrite lookup_fmap, E.
Qed.

Lemma task_end_addresses t task :
  addresses (task_end t task) = addresses t /\ tr_key (task_end t task) = tr_key t.
Proof.
  unfold task_end. destruct (tr_peers t !! _) as [p|] eqn:E; [|done]. split; [|done].
  unfold addresses. simpl. rewrite fmap_insert. simpl. apply insert_id. by rewrite lookup_fmap, E.
Qed.

Lemma new_addresses node_id key peers i a :
  addresses (PeerTransport_new node_id key peers) !! i = Some a -> peers !! i = Some a.
Proof.
  unfold addresses. simpl. rewrite <- map_fmap_compose, lookup_fmap.
  intros (x & Hx & ->)%fmap_Some. simpl. by apply map_lookup_filter_Some in Hx as [? _].
Qed.

(** ** The simulation *)

Section Simulation.

Context `{H : HmacSha256} `{C : MessageCodec} `{W : Http}.
Context `{!HmacLaws H} `{!MessageCodecLaws C} `{!HttpLaws W}.
Context {St Out : Type} (apply_command : Command -> St -> St * Out) (initial_state : St).
Context (cfgs : gmap N NodeConfig) (key : RaftKey) (Hcfgs : consistent_configs cfgs key).

Lemma consistent_members : same_members cfgs.
Proof using Hcfgs.
  intros i cfg Hc. destruct (proj2 Hcfgs i cfg Hc) as (Hid & _ & Hp & _). split; [done|].
  by rewrite Hp, dom_fmap_L.
Qed.

Record simulated (d : Deployment St) (c : Cluster St) : Prop := mkSimulated {
  sim_nodes : d_nodes d = nodes c;
  sim_wire : forall k task, (k, task) ∈ d_wire d ->
     k = key /\ t_message task ∈ network c /\
     (nc_raft_addr <$> cfgs) !! msg_to (t_message task) = Some (t_addr task);
  sim_transports : forall i t, d_transports d !! i = Some t ->
     tr_key t = key /\ forall id a, addresses t !! id = Some a -> (nc_raft_addr <$> cfgs) !! id = Some a
}.

Lemma after_op_simulated d c i rt out :
  simulated d c -> simulated (after_op d i rt out) (update c i rt out).
Proof using Type.
  intros [Hn Hw Ht]. unfold after_op. destruct (d_transports d !! i) as [t|] eqn:Et.
  - destruct (send_all t out) as [[t' tasks] err] eqn:Es.
    apply send_all_tasks in Es as (Ha & Hk & Htasks). destruct (Ht _ _ Et) as [Hkey Hadr].
    split; simpl.
    + by rewrite Hn.
    + intros k task [Hin|Hin]%elem_of_app.
      * destruct (Hw _ _ Hin) as (? & ? & ?). split_and!; [done| |done]. apply elem_of_app. by left.
      * apply list_elem_of_fmap in Hin as (x & [= -> ->] & Hx).
        destruct (Htasks _ Hx) as [Hm Haddr]. split_and!; [done| |by apply Hadr].
        apply elem_of_app. by right.
    + intros j t1. destruct (decide (j = i)) as [-> | Hne].
      * rewrite lookup_insert_eq. intros [= <-]. rewrite Hk, Ha. by apply Ht in Et.
      * rewrite lookup_insert_ne by done. apply Ht.
  - split; simpl; [by rewrite Hn| |done]. intros k task Hin.
    destruct (Hw _ _ Hin) as (? & ? & ?). split_and!; [done| |done]. apply elem_of_app. by left.
Qed.

(** A request that is written carries a message within the limit. *)
Lemma request_received_Some addr m x headers body :
  request_received addr key m x = Some (headers, body) ->
  exists b, to_vec m = Some b /\ N.of_nat (length b) <= MAX_RAFT_MESSAGE_BYTES.
Proof.
  unfold request_received, request_bytes. destruct (to_vec m) as [b|]; [|done].
  destruct (N.ltb_spec MAX_RAFT_MESSAGE_BYTES (N.of_nat (length b))); [done|]. eauto.
Qed.

(** A message that reaches a node either changes nothing or is one delivery. *)
Lemma rpc_cases rt addr m ok x rt' out r :
  nc_raft_key (rt_config rt) = key -> rpc apply_command rt addr key m ok x = (rt', out, r) ->
  (rt' = rt /\ sent out = []) \/
  (validate_message rt m = Ok tt /\
   exists r', step apply_command rt m ok = (rt', out, r')).
Proof.
  intros Hk Hr. destruct (request_received addr key m x) as [[headers body]|] eqn:Erq.
  2: { left. unfold rpc in Hr. rewrite Erq in Hr. by simplify_eq. }
  destruct (request_received_Some _ _ _ _ _ Erq) as (b & Eb & Hs). destruct Hcfgs as [Hlen _].
  rewrite <- Hk in Hlen, Hr.
  rewrite (rpc_same_key apply_command rt addr m b ok x Hlen Eb Hs) in Hr.
  destruct (received x); [|left; by simplify_eq].
  destruct (validate_message rt m) as [[]|e]; [|left; by simplify_eq]. right. split; [done|].
  destruct (step apply_command rt m ok) as [[rt1 out1] r1]. simplify_eq. eauto.
Qed.

(** A request that passes the checks of a node holds the message that was posted. *)
Lemma admitted_message (rt : RaftRuntime St) addr m x headers body m' :
  nc_raft_key (rt_config rt) = key -> request_received addr key m x = Some (headers, body) ->
  raft_admit rt headers body = Ok m' -> m' = m /\ validate_message rt m = Ok tt.
Proof.
  intros Hk Erq Ha. destruct (request_received_Some _ _ _ _ _ Erq) as (b & Eb & Hs).
  destruct Hcfgs as [Hlen _]. rewrite <- Hk in Hlen, Erq.
  destruct (posted_request_checks rt addr m b Hlen Eb Hs) as (request & headers' & Hr & Hp & Hc).
  unfold request_received in Erq. rewrite Hr in Erq. destruct (received x); [|done].
  rewrite Hp in Erq. injection Erq as <- <-. unfold raft_admit in Ha.
  rewrite (proj2 (N.ltb_ge _ _) Hs), Hc in Ha.
  destruct (validate_message rt m) as [[]|]; by simplify_eq.
Qed.

Lemma update_same (c : Cluster St) j rt : nodes c !! j = Some rt -> update c j rt [] = c.
Proof using Type. intros Hj. destruct c. unfold update. simpl in *. by rewrite insert_id, app_nil_r. Qed.

Lemma listener_Some (d : Deployment St) addr j rt :
  listener d addr = Some (j, rt) -> d_nodes d !! j = Some rt /\ nc_raft_addr (rt_config rt) = addr.
Proof using Type.
  unfold listener. intros [Hin Ha]%List.find_some. apply list_elem_of_In, elem_of_map_to_list in Hin.
  split; [done|]. simpl in Ha. by apply N.eqb_eq.
Qed.

(** Handling a written request. *)
Lemma handle_simulated d c k ok d' :
  simulated d c -> configured cfgs c -> deploy_op apply_command initial_state d (DHandle k ok) = Some d' ->
  exists acts c', run apply_command initial_state c acts = Some c' /\ simulated d' c'.
Proof.
  intros Hsim Hcf. simpl. destruct (d_wire d !! k) as [[k' task]|] eqn:Ew; [|done].
  destruct (listener d (t_addr task)) as [[j rt]|] eqn:El; [|intros [= <-]; by exists [], c].
  destruct (no_term_overflow _ _) eqn:Hov; [|done].
  destruct (rpc apply_command rt _ k' _ ok _) as [[rt' out] r] eqn:Er. intros [= <-].
  apply listener_Some in El as [Hj Haddr]. rewrite (sim_nodes _ _ Hsim) in Hj.
  destruct (sim_wire _ _ Hsim k' task) as (-> & Hm & Hto); [by eapply list_elem_of_lookup_2|].
  destruct (proj2 Hcfgs _ _ (Hcf _ _ Hj)) as (Hid & Hkey & _).
  destruct (rpc_cases _ _ _ _ _ _ _ _ Hkey Er) as [[-> ->] | (Hval & r' & Hs)].
  - exists [], c. split; [done|]. rewrite <- (update_same c j rt) by done.
    by apply after_op_simulated.
  - apply list_elem_of_lookup in Hm as [n Hn]. exists [ADeliver j n ok], (update c j rt' (sent out)).
    split; [|by apply after_op_simulated]. simpl. rewrite Hj, Hn, Hval, Hov. simpl. by rewrite Hs.
Qed.

(** A written request whose step waits for the lock. *)
Lemma enter_handle_simulated d c k d' :
  simulated d c -> configured cfgs c -> deploy_op apply_command initial_state d (DEnterHandle k) = Some d' ->
  exists acts c', run apply_command initial_state c acts = Some c' /\ simulated d' c'.
Proof.
  intros Hsim Hcf. simpl. destruct (d_wire d !! k) as [[k' task]|] eqn:Ew; [|done].
  destruct (listener d (t_addr task)) as [[j rt]|] eqn:El; [|intros [= <-]; by exists [], c].
  destruct (request_received _ k' _ _) as [[headers body]|] eqn:Erq; [|intros [= <-]; by exists [], c].
  destruct (raft_admit rt headers body) as [m|] eqn:Ea; intros [= <-]; [|by exists [], c].
  apply listener_Some in El as [Hj Haddr]. rewrite (sim_nodes _ _ Hsim) in Hj.
  destruct (sim_wire _ _ Hsim k' task) as (-> & Hm & Hto); [by eapply list_elem_of_lookup_2|].
  destruct (proj2 Hcfgs _ _ (Hcf _ _ Hj)) as (Hid & Hkey & _).
  destruct (admitted_message _ _ _ _ _ _ _ Hkey Erq Ea) as [-> Hval].
  apply list_elem_of_lookup in Hm as [n Hn].
  exists [AEnterStep j n], (update c j (entered_or rt (enter_step rt (t_message task))) []).
  split; [|by apply after_op_simulated]. simpl. by rewrite Hj, Hn, Hval.
Qed.

Lemma crash_simulated d c i rt rt' :
  simulated d c -> configured cfgs c -> nodes c !! i = Some rt ->
  simulated (mkDeployment (<[i := rt']> (d_nodes d))
    (<[i := PeerTransport_new (nc_node_id (rt_config rt)) (nc_raft_key (rt_config rt))
              (nc_peers (rt_config rt))]> (d_transports d))
    (base.filter (fun x => x.1 <> i) (d_posts d)) (d_wire d)) (update c i rt' []).
Proof.
  intros [Hn Hw Ht] Hcf Hi. destruct (proj2 Hcfgs _ _ (Hcf _ _ Hi)) as (Hid & Hkey & Hp & _).
  split; simpl; [by rewrite Hn|by rewrite app_nil_r|].
  intros j t. destruct (decide (j = i)) as [-> | Hne].
  - rewrite lookup_insert_eq. intros [= <-]. split; [done|].
    intros id a Ha%new_addresses. by rewrite <- Hp.
  - rewrite lookup_insert_ne by done. apply Ht.
Qed.

Lemma post_end_simulated d c i k task :
  simulated d c ->
  simulated (mkDeployment (d_nodes d) (alter (fun t => task_end t task) i (d_transports d))
    (delete k (d_posts d)) (d_wire d)) c.
Proof using Type.
  intros [Hn Hw Ht]. split; simpl; [done|done|]. intros j t.
  rewrite lookup_alter_Some. intros [(-> & t0 & H0 & ->) | [_ Hj]]; [|by apply (Ht j)].
  destruct (task_end_addresses t0 task) as [-> ->]. by apply Ht in H0.
Qed.

(** Every operation of the deployment is at most one action of the cluster. *)
Lemma deploy_op_simulated d c op d' :
  simulated d c -> configured cfgs c -> deploy_op apply_command initial_state d op = Some d' ->
  exists acts c', run apply_command initial_state c acts = Some c' /\ simulated d' c'.
Proof.
  intros Hsim Hcf. pose proof (sim_nodes _ _ Hsim) as Hn.
  destruct op as [i ok|k ok|k|i cmd ok|i idx pid|i|i|k|i cmd|i p ok|i p].
  - simpl. rewrite Hn. destruct (nodes c !! i) as [rt|] eqn:Hi; [|done].
    destruct (no_term_overflow _ _) eqn:Hov; [|done].
    destruct (tick_once _ _ _) as [[rt' out] r] eqn:Et. intros [= <-].
    exists [ATick i ok], (update c i rt' (sent out)). split; [|by apply after_op_simulated].
    simpl. by rewrite Hi, Hov, Et.
  - by apply handle_simulated.
  - simpl. destruct (d_posts d !! k) as [[i task]|]; [|done]. intros [= <-].
    exists [], c. split; [done|]. by apply post_end_simulated.
  - simpl. rewrite Hn. destruct (nodes c !! i) as [rt|] eqn:Hi; [|done].
    destruct (_ <? two64) eqn:Hroom; [|done].
    destruct (Runtime.propose _ _ _ _) as [[[rt' out] r]|] eqn:Ep; [|done]. intros [= <-].
    exists [APropose i cmd ok], (update c i rt' (sent out)). split; [|by apply after_op_simulated].
    simpl. by rewrite Hi, Hroom, Ep.
  - simpl. rewrite Hn. destruct (nodes c !! i) as [rt|] eqn:Hi; [|done]. intros [= <-].
    exists [AFinish i idx pid], (update c i (finish_wait rt idx pid) []).
    split; [|by apply after_op_simulated]. simpl. by rewrite Hi.
  - simpl. rewrite Hn. destruct (nodes c !! i) as [rt|] eqn:Hi; [|done].
    destruct (open_option _ _ _) as [rt'|] eqn:Eo; [|done]. intros [= <-].
    exists [ACrash i], (update c i rt' []). split; [simpl; by rewrite Hi, Eo|].
    rewrite <- Hn. by apply crash_simulated.
  - simpl. rewrite Hn. destruct (nodes c !! i) as [rt|] eqn:Hi; [|done]. intros [= <-].
    exists [AEnterTick i], (update c i (entered_or rt (enter_tick rt)) []).
    split; [|by apply after_op_simulated]. simpl. by rewrite Hi.
  - by apply enter_handle_simulated.
  - simpl. rewrite Hn. destruct (nodes c !! i) as [rt|] eqn:Hi; [|done]. intros [= <-].
    exists [AEnterPropose i cmd], (update c i (entered_or rt (enter_propose rt cmd)) []).
    split; [|by apply after_op_simulated]. simpl. by rewrite Hi.
  - simpl. rewrite Hn. destruct (nodes c !! i) as [rt|] eqn:Hi; [|done].
    destruct (rt_entered rt !! p) as [cl|] eqn:Hp; [|done].
    destruct (call_in_range _ _) eqn:Hr; [|done].
    destruct (run_call _ _ _ _) as [[rt' out]|] eqn:Ec; [|done]. intros [= <-].
    exists [ALocked i p ok], (update c i rt' (sent out)). split; [|by apply after_op_simulated].
    simpl. by rewrite Hi, Hp, Hr, Ec.
  - simpl. rewrite Hn. destruct (nodes c !! i) as [rt|] eqn:Hi; [|done]. intros [= <-].
    exists [ALeave i p], (update c i (leave rt p) []).
    split; [|by apply after_op_simulated]. simpl. by rewrite Hi.
Qed.

(** Cluster states one after the other, each reached from the one before. *)
Fixpoint cluster_path (c : Cluster St) (cs : list (Cluster St)) : Prop :=
  match cs with
  | [] => True
  | c' :: cs' => (exists acts, run apply_command initial_state c acts = Some c') /\ cluster_path c' cs'
  end.

Lemma deploy_states_simulated d c ops ds :
  simulated d c -> reachable apply_command initial_state cfgs c ->
  deploy_states apply_command initial_state d ops = Some ds ->
  exists cs, cluster_path c cs /\ Forall2 (fun c d => nodes c = d_nodes d) cs ds.
Proof.
  revert d c ds. induction ops as [|op ops IH]; intros d c ds Hsim Hr; simpl.
  - intros [= <-]. exists [c]. split; [split; [by exists []|done]|].
    constructor; [symmetry; by apply Hsim|constructor].
  - destruct (deploy_op _ _ d op) as [d1|] eqn:Eo; [|done].
    destruct (deploy_states _ _ d1 ops) as [ds1|] eqn:Es; [|done]. intros [= <-].
    pose proof (reachable_configured _ _ _ consistent_members _ Hr) as Hcf.
    destruct (deploy_op_simulated _ _ _ _ Hsim Hcf Eo) as (acts & c1 & Hrun & Hsim1).
    destruct (IH _ _ _ Hsim1 (reachable_step _ _ _ _ _ _ Hr Hrun) Es) as (cs & Hp & Hall).
    exists (c :: cs). split; [|constructor; [symmetry; by apply Hsim|done]].
    split; [by exists []|]. destruct cs as [|c2 cs]; [done|]. simpl in *.
    destruct Hp as [[acts2 Hr2] Hp]. split; [|done]. exists (acts ++ acts2). by eapply run_app.
Qed.

Lemma deploy_simulated : simulated (deploy initial_state cfgs) (initial initial_state cfgs).
Proof.
  split; simpl; [done|intros k task Hin; inversion Hin|].
  intros i t. rewrite lookup_fmap. intros (cfg & Hc & ->)%fmap_Some.
  destruct (proj2 Hcfgs _ _ Hc) as (_ & Hk & Hp & _). split; [done|].
  intros id a Ha%new_addresses. by rewrite <- Hp.
Qed.

End Simulation.

Lemma deployment_path `{H : HmacSha256} `{C : MessageCodec} `{W : Http}
    `{!HmacLaws H} `{!MessageCodecLaws C} `{!HttpLaws W}
    {St Out : Type} (apply_command : Command -> St -> St * Out) (initial_state : St)
    (cfgs : gmap N NodeConfig) (key : RaftKey) ops ds
    (Hcfgs : consistent_configs cfgs key)
    (Hrun : deploy_states apply_command initial_state (deploy initial_state cfgs) ops = Some ds) :
  exists cs, cluster_path apply_command initial_state (initial initial_state cfgs) cs /\
    Forall2 (fun c d => nodes c = d_nodes d) cs ds.
Proof.
  eapply (deploy_states_simulated apply_command initial_state cfgs key Hcfgs
    (deploy initial_state cfgs) (initial initial_state cfgs) ops ds);
    [by apply deploy_simulated|by exists []|done].
Qed.

(** C8. The deployed system refines the abstract cluster.  Take nodes whose
    configurations agree on the members, their addresses and the key
    ([consistent_configs]), connected by their own transports over authenticated HTTP.
    Every execution of such a deployment, whatever permits run out, posts fail, time out
    or are handled late, calls wait for the lock, nodes crash or disks fail, is matched
    state by state by an execution of the cluster on the lossy, duplicating and
    reordering network: the nodes are the same at every moment, and each cluster state
    is reached from the one before. *)
Theorem deployment_refines_cluster `{H : HmacSha256} `{C : MessageCodec} `{W : Http}
    `{!HmacLaws H} `{!MessageCodecLaws C} `{!HttpLaws W}
    {St Out : Type} (apply_command : Command -> St -> St * Out) (initial_state : St)
    (cfgs : gmap N NodeConfig) (key : RaftKey) ops ds
    (Hcfgs : consistent_configs cfgs key)
    (Hrun : deploy_states apply_command initial_state (deploy initial_state cfgs) ops = Some ds) :
  exists cs, cluster_path apply_command initial_state (initial initial_state cfgs) cs /\
    Forall2 (fun c d => nodes c = d_nodes d) cs ds.
Proof. by eapply deployment_path. Qed.

(** Node [i] of a deployment is a healthy leader of term [t]. *)
Definition deployed_leader {St} (d : Deployment St) (i t : N) : Prop :=
  exists rt, d_nodes d !! i = Some rt /\ rt_failed rt = false /\
    is_leader (rt_node rt) = true /\ node_term (rt_node rt) = t.

Lemma deployed_leads {St} (c : Cluster St) (d : Deployment St) i t :
  nodes c = d_nodes d -> deployed_leader d i t -> leads c i t.
Proof. intros Hn (rt & Hi & Hr). exists rt. by rewrite Hn. Qed.

(** Two moments of a path. *)
Lemma path_moments {St Out : Type} (apply_command : Command -> St -> St * Out) initial_state
    (c : Cluster St) cs j k c1 c2 :
  cluster_path apply_command initial_state c cs -> cs !! j = Some c1 -> cs !! k = Some c2 ->
  (j <= k)%nat -> (exists acts, run apply_command initial_state c acts = Some c1) /\
    exists acts, run apply_command initial_state c1 acts = Some c2.
Proof.
  revert c j k c1 c2. induction cs as [|c0 cs IH]; intros c j k c1 c2; [done|].
  intros [[acts0 H0] Hp] Hj Hk Hle.
  assert (forall k c', cs !! k = Some c' -> exists acts, run apply_command initial_state c0 acts = Some c') as Hfrom.
  { intros k' c' Hk'. by destruct (IH c0 k' k' c' c' Hp Hk' Hk' ltac:(lia)) as [? _]. }
  destruct j as [|j]; simpl in Hj.
  - injection Hj as ->. split; [by exists acts0|]. destruct k as [|k]; simpl in Hk; [|by eapply Hfrom].
    injection Hk as ->. by exists [].
  - destruct k as [|k]; [lia|]. simpl in Hk. destruct (IH c0 j k c1 c2 Hp Hj Hk ltac:(lia)) as [[acts1 H1] H2].
    split; [|done]. exists (acts0 ++ acts1). by eapply run_app.
Qed.

(** C9. Election safety of the deployed system: in every execution of a deployment with
    consistent configurations, if node [a] leads term [t] at one moment and node [b] at
    that or a later one, they are the same node. *)
Theorem deployed_election_safety `{H : HmacSha256} `{C : MessageCodec} `{W : Http}
    `{!HmacLaws H} `{!MessageCodecLaws C} `{!HttpLaws W}
    {St Out : Type} (apply_command : Command -> St -> St * Out) (initial_state : St)
    (cfgs : gmap N NodeConfig) (key : RaftKey) ops ds j k d1 d2 a b t
    (Hcfgs : consistent_configs cfgs key)
    (Hrun : deploy_states apply_command initial_state (deploy initial_state cfgs) ops = Some ds)
    (Hj : ds !! j = Some d1) (Hk : ds !! k = Some d2) (Hle : (j <= k)%nat)
    (Ha : deployed_leader d1 a t) (Hb : deployed_leader d2 b t) :
  a = b.
Proof.
  destruct (deployment_path _ _ _ _ _ _ Hcfgs Hrun) as (cs & Hp & Hall).
  destruct (Forall2_lookup_r _ _ _ _ _ Hall Hj) as (c1 & H1 & Hn1).
  destruct (Forall2_lookup_r _ _ _ _ _ Hall Hk) as (c2 & H2 & Hn2).
  destruct (path_moments _ _ _ _ _ _ _ _ Hp H1 H2 Hle) as [[acts0 H0] [acts Hr]].
  eapply (leaders_agree apply_command initial_state cfgs c1 acts c2).
  - by eapply consistent_members.
  - by exists acts0.
  - done.
  - by eapply deployed_leads.
  - by eapply deployed_leads.
Qed.

Definition deployed_trio : gmap N NodeConfig :=
  {[1 := mkNodeConfig 1 21 11 trio_peers demo_key StorageOptions_default (raft_config 1);
    2 := mkNodeConfig 2 22 12 trio_peers demo_key StorageOptions_default (raft_config 2);
    3 := mkNodeConfig 3 23 13 trio_peers demo_key StorageOptions_default (raft_config 3)]}.

Lemma deployed_trio_consistent : consistent_configs deployed_trio demo_key.
Proof.
  split; [done|]. intros i cfg Hc. unfold deployed_trio in Hc.
  apply lookup_insert_Some in Hc as [[<- <-] | [_ Hc]];
    [|apply lookup_insert_Some in Hc as [[<- <-] | [_ Hc]];
      [|apply lookup_singleton_Some in Hc as [<- <-]]];
    (split_and!; [done|done|by vm_compute|]); intros j cfg' Hj; unfold deployed_trio in Hj;
    (apply lookup_insert_Some in Hj as [[<- <-] | [_ Hj]];
      [|apply lookup_insert_Some in Hj as [[<- <-] | [_ Hj]];
        [|apply lookup_singleton_Some in Hj as [<- <-]]]); done.
Qed.

(** The election messages of nodes and terms below 256, as their numbers. *)
Definition numbers (m : Message) : option (list N) :=
  let head := [msg_from m; msg_to m; msg_term m] in
  match msg_payload m with
  | PreVoteReq r => Some (0 :: head ++ [pv_next_term r; pv_last_log_index r; pv_last_log_term r])
  | PreVoteResp r => Some (1 :: head ++ [pvr_term r; N.b2n (pvr_granted r)])
  | VoteReq r => Some (2 :: head ++ [vr_last_log_index r; vr_last_log_term r])
  | VoteResp r => Some (3 :: head ++ [N.b2n (vresp_granted r)])
  | _ => None
  end.

Definition ballot_codec : MessageCodec := {|
  to_vec m := ns ← numbers m; mapM Byte.of_N ns;
  from_slice bs :=
    match Byte.to_N <$> bs with
    | [0; f; t; n; x; i; u] => Some (mkMessage f t n (PreVoteReq (mkPreVoteRequest x i u)))
    | [1; f; t; n; x; g] => Some (mkMessage f t n (PreVoteResp (mkPreVoteResponse x (g =? 1))))
    | [2; f; t; n; i; u] => Some (mkMessage f t n (VoteReq (mkVoteRequest i u)))
    | [3; f; t; n; g] => Some (mkMessage f t n (VoteResp (mkVoteResponse (g =? 1))))
    | _ => None
    end
|}.

Lemma ballot_codec_laws : MessageCodecLaws ballot_codec.
Proof.
  intros m bs (ns & Hn & Hb)%bind_Some. cbn [from_slice ballot_codec].
  assert (Byte.to_N <$> bs = ns) as ->.
  { apply mapM_Some_1 in Hb. clear Hn. induction Hb as [|n b ns bs Hnb _ IH]; [done|].
    rewrite fmap_cons, IH. by apply of_N_Some in Hnb as ->. }
  destruct m as [f t n p]. destruct p as [[]|[? []]|[]|[[]]| | | | | | |];
    unfold numbers in Hn; try discriminate Hn; by injection Hn as <-.
Qed.

(** Node 1 of the trio is elected over HTTP. *)
Definition deployed_election : list DeployOp :=
  repeat (DTick 1 true) 236 ++
  [DHandle 0 true; DPostEnds 0; DHandle 2 true; DHandle 3 true; DHandle 4 true; DCrash 3;
   DHandle 5 true].

(** Decide by evaluation whether the last state of an execution has a property. *)
Definition last_state {St} (ds : option (list (Deployment St))) (p : Deployment St -> bool) : bool :=
  match ds with Some ds => match last ds with Some d => p d | None => false end | None => false end.

Definition deployed_leader_b (d : Deployment (list Command)) (i t : N) : bool :=
  leads_b (mkCluster (d_nodes d) []) i t.

Lemma deployment_refines_cluster_witness :
  exists c : Cluster (list Command), reachable journal [] deployed_trio c /\ leads c 1 1.
Proof.
  assert (last_state (@deploy_states toy_tag ballot_codec toy_http _ _ journal [] (deploy [] deployed_trio)
            deployed_election) (fun d => deployed_leader_b d 1 1) = true) as E by (vm_compute; reflexivity).
  destruct (@deploy_states toy_tag ballot_codec toy_http _ _ journal [] (deploy [] deployed_trio)
              deployed_election) as [ds|] eqn:Ed; [|discriminate E].
  destruct (@deployment_refines_cluster toy_tag ballot_codec toy_http toy_tag_laws
    ballot_codec_laws toy_http_laws _ _ journal [] deployed_trio demo_key deployed_election ds
    deployed_trio_consistent Ed) as (cs & Hp & Hall).
  unfold last_state in E. destruct (last ds) as [d|] eqn:El; [|discriminate E].
  rewrite last_lookup in El. destruct (Forall2_lookup_r _ _ _ _ _ Hall El) as (c & Hc & Hn).
  destruct (path_moments _ _ _ _ _ _ _ _ Hp Hc Hc (Nat.le_refl _)) as [Hr _].
  exists c. split; [exact Hr|]. apply (deployed_leads c d); [exact Hn|].
  apply leads_b_spec in E as (rt & Hi & Hrt). exists rt. split; [exact Hi|exact Hrt].
Defined.

Lemma deployed_election_safety_witness :
  exists ds d, @deploy_states toy_tag ballot_codec toy_http _ _ journal [] (deploy [] deployed_trio)
      deployed_election = Some ds /\ last ds = Some d /\ deployed_leader d 1 1 /\
    forall b, deployed_leader d b 1 -> 1 = b.
Proof.
  assert (last_state (@deploy_states toy_tag ballot_codec toy_http _ _ journal [] (deploy [] deployed_trio)
            deployed_election) (fun d => deployed_leader_b d 1 1) = true) as E by (vm_compute; reflexivity).
  destruct (@deploy_states toy_tag ballot_codec toy_http _ _ journal [] (deploy [] deployed_trio)
              deployed_election) as [ds|] eqn:Ed; [|discriminate E].
  unfold last_state in E. destruct (last ds) as [d|] eqn:El; [|discriminate E].
  assert (deployed_leader d 1 1) as Hl.
  { apply leads_b_spec in E as (rt & Hi & Hrt). exists rt. split; [exact Hi|exact Hrt]. }
  exists ds, d. split; [reflexivity|]. split; [exact El|]. split; [exact Hl|]. intros b Hb.
  rewrite last_lookup in El.
  exact (@deployed_election_safety toy_tag ballot_codec toy_http toy_tag_laws ballot_codec_laws
    toy_http_laws _ _ journal [] deployed_trio demo_key deployed_election ds _ _ d d 1 b 1
    deployed_trio_consistent Ed El El (Nat.le_refl _) Hl Hb).
Defined.
