(* ===== verification/Server.v ===== *)
(** * Server: the configuration file of the [bdb] binary

    Models [basisdb/src/main.rs] without its logging set-up: reading and checking
    the configuration file, and the two subcommands.  The file system, the TOML
    parser and the name resolver are outside the repository and are arguments of
    the definitions ([read_to_string], [from_str] and [to_socket_addrs]). *)

From S2P Require Import Prelude.
From S2P Require Import Membership.
From S2P Require Import Core.
From S2P Require Import Node.
From S2P Require Import Auth.
From S2P Require Import Settings.
From S2P Require Import Runtime.

(** ** The file *)

Record NodeSection : Type := mkNodeSection {
  ns_id : N;
  ns_host : bytes;
  client_port : N;
  raft_port : N
}.

Record StorageSection : Type := mkStorageSection { ss_data_dir : bytes }.

Record PeerSection : Type := mkPeerSection {
  ps_id : N;
  ps_host : bytes;
  ps_raft_port : N
}.

Record ClusterSection : Type := mkClusterSection {
  raft_key : bytes;
  cs_peers : list PeerSection
}.

Record ConfigFile : Type := mkConfigFile {
  cf_node : NodeSection;
  cf_storage : StorageSection;
  cf_cluster : ClusterSection
}.

(** The diagnostics of [load_node_config], by cause. *)
Inductive ConfigError : Type :=
| ReadingFailed
| InvalidToml
| ResolvingFailed (host : bytes) (port : N)
| NoAddresses (host : bytes) (port : N)
| AmbiguousAddress (host : bytes) (port : N) (count : nat)
| InvalidKey
| DuplicateAddress (addr : N)
| DuplicateNodeId (id : N)
| NoPeers
| WrongSelfAddress (id peer_addr raft_addr : N)
| SelfNotListed (id : N).

Section Server.

Context (to_socket_addrs : bytes -> N -> option (list N)).
Context (from_str : bytes -> option ConfigFile).
Context (read_to_string : bytes -> option bytes).

Definition resolve_peer_addr (host : bytes) (port : N) : result N ConfigError :=
  match to_socket_addrs host port with
  | None => Err (ResolvingFailed host port)
  | Some [addr] => Ok addr
  | Some [] => Err (NoAddresses host port)
  | Some addrs => Err (AmbiguousAddress host port (length addrs))
  end.

(** [addrs.values().any(|existing| *existing == addr)]. *)
Definition has_address (addrs : gmap N N) (addr : N) : bool :=
  existsb (fun kv => kv.2 =? addr) (map_to_list addrs).

Fixpoint peer_addrs_loop (addrs : gmap N N) (peers : list PeerSection)
  : result (gmap N N) ConfigError :=
  match peers with
  | [] => Ok addrs
  | peer :: peers' =>
      let? addr := resolve_peer_addr (ps_host peer) (ps_raft_port peer) in
      if has_address addrs addr then Err (DuplicateAddress addr)
      else if is_some (addrs !! ps_id peer) then Err (DuplicateNodeId (ps_id peer))
      else peer_addrs_loop (<[ps_id peer := addr]> addrs) peers'
  end.

Definition peer_addrs (peers : list PeerSection) : result (gmap N N) ConfigError :=
  let? addrs := peer_addrs_loop ∅ peers in
  if bool_decide (addrs = ∅) then Err NoPeers else Ok addrs.

Definition parse_node_config (contents : bytes) : result NodeConfig ConfigError :=
  match from_str contents with
  | None => Err InvalidToml
  | Some config =>
      let node_id := ns_id (cf_node config) in
      let? client_addr := resolve_peer_addr (ns_host (cf_node config)) (client_port (cf_node config)) in
      let? raft_addr := resolve_peer_addr (ns_host (cf_node config)) (raft_port (cf_node config)) in
      match from_hex (raft_key (cf_cluster config)) with
      | Err _ => Err InvalidKey
      | Ok key =>
          let? peers := peer_addrs (cs_peers (cf_cluster config)) in
          match peers !! node_id with
          | None => Err (SelfNotListed node_id)
          | Some peer_addr =>
              if negb (peer_addr =? raft_addr)
              then Err (WrongSelfAddress node_id peer_addr raft_addr)
              else Ok (mkNodeConfig node_id client_addr raft_addr peers key
                         (mkStorageOptions (literal "default") (ss_data_dir (cf_storage config)))
                         (raft_config node_id))
          end
      end
  end.

Definition load_node_config (path : bytes) : result NodeConfig ConfigError :=
  match read_to_string path with
  | None => Err ReadingFailed
  | Some contents => parse_node_config contents
  end.

(** ** The subcommands *)

Inductive CliCommand : Type :=
| Start (config : bytes)
| CheckConfig (config : bytes).

(** How the process ends, or that it serves with the given runtime. *)
Inductive Exit {St : Type} : Type :=
| ConfigRejected (e : ConfigError)
| ConfigurationOk
| LaunchFailed (e : RuntimeError)
| BindingFailed (addr : N)
| Serving (rt : RaftRuntime St).
Arguments Exit St : clear implicits.

(** [recover dir initial] is what the write-ahead log at [dir] holds, and [bind]
    says whether [TcpListener::bind] succeeds.  [open] checks the configuration
    before it opens the store; the listeners are served after both are bound.  The
    definition ends where [try_join!] starts to serve them: an error of a listener or of the
    tick loop after that point ends the process and is not modelled. *)
Definition launch {St : Type} (st0 : St) (recover : bytes -> Persistent -> option Persistent)
    (bind : N -> bool) (cfg : NodeConfig) : Exit St :=
  match validate_config cfg with
  | Err e => LaunchFailed e
  | Ok _ =>
      match recover (raft_dir cfg) (initial_persistent cfg) with
      | None => LaunchFailed StoreFailed
      | Some recovered =>
          match open cfg st0 recovered with
          | Err e => LaunchFailed e
          | Ok rt =>
              if negb (bind (nc_client_addr cfg)) then BindingFailed (nc_client_addr cfg)
              else if negb (bind (nc_raft_addr cfg)) then BindingFailed (nc_raft_addr cfg)
              else Serving rt
          end
      end
  end.

Definition main {St : Type} (st0 : St) (recover : bytes -> Persistent -> option Persistent)
    (bind : N -> bool) (cmd : CliCommand) : Exit St :=
  match cmd with
  | Start path =>
      match load_node_config path with
      | Err e => ConfigRejected e
      | Ok cfg => launch st0 recover bind cfg
      end
  | CheckConfig path =>
      match load_node_config path with
      | Err e => ConfigRejected e
      | Ok _ => ConfigurationOk
      end
  end.

End Server.

(** ** The accepted peer lists *)

Section Accepted.

Context (to_socket_addrs : bytes -> N -> option (list N)).

#[local] Abbreviation resolve_peer_addr := (resolve_peer_addr to_socket_addrs).
#[local] Abbreviation peer_addrs_loop := (peer_addrs_loop to_socket_addrs).
#[local] Abbreviation peer_addrs := (peer_addrs to_socket_addrs).

Definition resolves (host : bytes) (port addr : N) : Prop :=
  to_socket_addrs host port = Some [addr].

Lemma resolve_peer_addr_Ok host port addr :
  resolve_peer_addr host port = Ok addr <-> resolves host port addr.
Proof.
  unfold resolve_peer_addr, resolves.
  destruct (to_socket_addrs host port) as [[|a [|b l]]|]; naive_solver.
Qed.

Lemma has_address_true addrs addr :
  has_address addrs addr = true <-> exists i, addrs !! i = Some addr.
Proof.
  unfold has_address. rewrite existsb_exists. split.
  - intros ([i a] & Hin%list_elem_of_In%elem_of_map_to_list & He). simpl in He.
    apply N.eqb_eq in He as ->. eauto.
  - intros [i Hi]. exists (i, addr). split; [|apply N.eqb_refl].
    by apply list_elem_of_In, elem_of_map_to_list.
Qed.

(** Every address of the table belongs to one id. *)
Definition injective_table (addrs : gmap N N) : Prop :=
  forall i j a, addrs !! i = Some a -> addrs !! j = Some a -> i = j.

(** Inserting a new id first or last gives the same table. *)
Lemma insert_into_table (ids l : list N) (id addr : N) (addrs : gmap N N) :
  length l = length ids -> id ∉ ids ->
  list_to_map (zip ids l) ∪ <[id := addr]> addrs =
  (list_to_map (zip (id :: ids) (addr :: l)) ∪ addrs : gmap N N).
Proof.
  intros Hl Hid. simpl. rewrite <- insert_union_l, insert_union_r; [done|].
  apply not_elem_of_list_to_map_1. by rewrite fst_zip by lia.
Qed.

(** The loop succeeds exactly on peers that resolve and are new. *)
Lemma peer_addrs_loop_Ok peers addrs addrs' :
  peer_addrs_loop addrs peers = Ok addrs' <->
  exists l, Forall2 (fun p a => resolves (ps_host p) (ps_raft_port p) a) peers l /\
    NoDup (ps_id <$> peers) /\ NoDup l /\
    (forall p, p ∈ peers -> addrs !! ps_id p = None) /\
    (forall a, a ∈ l -> forall i, addrs !! i <> Some a) /\
    addrs' = list_to_map (zip (ps_id <$> peers) l) ∪ addrs.
Proof.
  revert addrs. induction peers as [|p peers IH]; intros addrs; simpl.
  { split.
    - intros [= <-]. exists []. rewrite (left_id_L ∅ (∪)).
      split_and!; try constructor; by intros ? ?%elem_of_nil.
    - intros (l & ->%Forall2_nil_inv_l & _ & _ & _ & _ & ->). simpl. by rewrite (left_id_L ∅ (∪)). }
  split.
  - destruct (resolve_peer_addr _ _) as [a|] eqn:Er; [|done]. apply resolve_peer_addr_Ok in Er.
    destruct (has_address addrs a) eqn:Ha; [done|].
    destruct (addrs !! ps_id p) eqn:Ep; [done|]. simpl.
    intros (l & Hf & Hids & Hl & Hnew & Hold & ->)%IH. exists (a :: l).
    assert (ps_id p ∉ ps_id <$> peers) as Hp.
    { intros (q & Hq & Hin)%list_elem_of_fmap. apply Hnew in Hin. rewrite <- Hq in Hin.
      by rewrite lookup_insert_eq in Hin. }
    assert (a ∉ l) as Hal.
    { intros Hin. apply (Hold _ Hin (ps_id p)). by rewrite lookup_insert_eq. }
    split_and!; try (by constructor).
    3: { apply insert_into_table; [rewrite length_fmap; apply Forall2_length in Hf; lia|done]. }
    + intros q [-> | Hq]%elem_of_cons; [done|]. apply Hnew in Hq as Hq'.
      apply lookup_insert_None in Hq'. tauto.
    + intros b [-> | Hb]%elem_of_cons i Hi.
      * rewrite (proj2 (has_address_true _ _)) in Ha; [done|eauto].
      * apply (Hold _ Hb i). rewrite lookup_insert_ne; [done|]. intros <-. by rewrite Ep in Hi.
  - intros (l & Hf & Hids & Hl & Hnew & Hold & ->).
    destruct l as [|a l]; [by inversion Hf|]. apply Forall2_cons in Hf as [Hr Hf].
    apply NoDup_cons in Hids as [Hp Hids], Hl as [Hal Hl].
    rewrite (proj2 (resolve_peer_addr_Ok _ _ _) Hr).
    destruct (has_address addrs a) eqn:Ha.
    { apply has_address_true in Ha as [i Hi]. destruct (Hold a ltac:(by left) i Hi). }
    rewrite (Hnew p) by (by left). simpl. apply IH. exists l. split_and!; try done.
    3: { symmetry. apply insert_into_table; [rewrite length_fmap; apply Forall2_length in Hf; lia|done]. }
    + intros q Hq. rewrite lookup_insert_ne; [by apply Hnew; right|].
      intros Heq. apply Hp. rewrite Heq. by apply list_elem_of_fmap_2.
    + intros b Hb i. destruct (decide (i = ps_id p)) as [-> | Hi].
      * rewrite lookup_insert_eq. by intros [= ->].
      * rewrite lookup_insert_ne by done. apply Hold. by right.
Qed.
(** What a configuration file must say: its own host and every peer resolve to one
    address, the key is 64 hexadecimal digits, peers differ in id and in address,
    and the node is listed with its own Raft address. *)
Definition accepted (file : ConfigFile) (client_addr raft_addr : N) (key : RaftKey)
    (l : list N) : Prop :=
  let node := cf_node file in
  let peers := cs_peers (cf_cluster file) in
  resolves (ns_host node) (client_port node) client_addr /\
  resolves (ns_host node) (raft_port node) raft_addr /\
  from_hex (raft_key (cf_cluster file)) = Ok key /\
  Forall2 (fun p a => resolves (ps_host p) (ps_raft_port p) a) peers l /\
  NoDup (ps_id <$> peers) /\ NoDup l /\
  (ns_id node, raft_addr) ∈ zip (ps_id <$> peers) l.

Definition accepted_config (file : ConfigFile) (client_addr raft_addr : N) (key : RaftKey)
    (l : list N) : NodeConfig :=
  mkNodeConfig (ns_id (cf_node file)) client_addr raft_addr
    (list_to_map (zip (ps_id <$> cs_peers (cf_cluster file)) l)) key
    (mkStorageOptions (literal "default") (ss_data_dir (cf_storage file)))
    (raft_config (ns_id (cf_node file))).

Lemma lookup_table {R} (peers : list PeerSection) (l : list N) i a :
  Forall2 R peers l -> NoDup (ps_id <$> peers) ->
  (list_to_map (zip (ps_id <$> peers) l) : gmap N N) !! i = Some a <->
  (i, a) ∈ zip (ps_id <$> peers) l.
Proof.
  intros Hf Hnd. symmetry. apply elem_of_list_to_map. apply Forall2_length in Hf.
  by rewrite fst_zip by (rewrite length_fmap; lia).
Qed.

Lemma peer_addrs_Ok peers addrs :
  peer_addrs peers = Ok addrs <->
  exists l, Forall2 (fun p a => resolves (ps_host p) (ps_raft_port p) a) peers l /\
    NoDup (ps_id <$> peers) /\ NoDup l /\ peers <> [] /\
    addrs = list_to_map (zip (ps_id <$> peers) l).
Proof.
  unfold peer_addrs. split.
  - destruct (peer_addrs_loop ∅ peers) as [m|] eqn:E; [|done].
    case_bool_decide as Hm; [done|]. intros [= <-].
    apply peer_addrs_loop_Ok in E as (l & Hf & Hi & Hl & _ & _ & ->).
    rewrite (right_id_L ∅ (∪)) in *. exists l. split_and!; try done. intros ->. by apply Hm.
  - intros (l & Hf & Hi & Hl & Hne & ->).
    rewrite (proj2 (peer_addrs_loop_Ok peers ∅ (list_to_map (zip (ps_id <$> peers) l)))).
    + rewrite bool_decide_false; [done|]. destruct peers as [|p peers], l as [|a l]; try done.
      { by inversion Hf. } simpl. apply insert_non_empty.
    + exists l. rewrite (right_id_L ∅ (∪)). by split_and!.
Qed.

Lemma parse_node_config_Ok from_str contents cfg :
  parse_node_config to_socket_addrs from_str contents = Ok cfg <->
  exists file client_addr raft_addr key l, from_str contents = Some file /\
    accepted file client_addr raft_addr key l /\
    cfg = accepted_config file client_addr raft_addr key l.
Proof.
  unfold parse_node_config. split.
  - destruct (from_str contents) as [file|]; [|done].
    destruct (resolve_peer_addr _ (client_port _)) as [ca|] eqn:Ec; [|done].
    destruct (resolve_peer_addr _ (raft_port _)) as [ra|] eqn:Er; [|done].
    destruct (from_hex _) as [key|] eqn:Ek; [|done].
    destruct (peer_addrs _) as [m|] eqn:Ep; [|done].
    apply peer_addrs_Ok in Ep as (l & Hf & Hi & Hl & _ & ->).
    destruct (list_to_map _ !! _) as [pa|] eqn:Es; [|done].
    destruct (N.eqb_spec pa ra) as [->|]; simpl; [|done]. intros [= <-].
    apply resolve_peer_addr_Ok in Ec, Er.
    apply (lookup_table _ _ _ _ Hf Hi) in Es.
    exists file, ca, ra, key, l. done.
  - intros (file & ca & ra & key & l & -> & (Hc & Hr & Hk & Hf & Hi & Hl & Hs) & ->).
    rewrite (proj2 (resolve_peer_addr_Ok _ _ _) Hc), (proj2 (resolve_peer_addr_Ok _ _ _) Hr), Hk.
    rewrite (proj2 (peer_addrs_Ok _ (list_to_map (zip (ps_id <$> cs_peers (cf_cluster file)) l)))).
    + rewrite (proj2 (lookup_table _ _ _ _ Hf Hi) Hs).
      by rewrite N.eqb_refl.
    + exists l. split_and!; try done. intros Hnil. rewrite Hnil in Hs. by apply elem_of_nil in Hs.
Qed.

Lemma accepted_table_injective file ca ra key l :
  accepted file ca ra key l -> injective_table (nc_peers (accepted_config file ca ra key l)).
Proof.
  intros (_ & _ & _ & Hf & Hi & Hl & _) i j a. simpl.
  rewrite !(lookup_table _ _ _ _ Hf Hi). intros Ha Hb.
  apply list_elem_of_lookup in Ha as [n Ha], Hb as [m Hb].
  apply lookup_zip_with_Some in Ha as (i1 & a1 & ? & Hi1 & Ha1), Hb as (i2 & a2 & ? & Hi2 & Ha2).
  simplify_eq. assert (n = m) as -> by (by eapply NoDup_lookup). congruence.
Qed.

End Accepted.

(** ** Start-up accepts what the check accepts *)

Lemma find_duplicate_None seen addrs :
  NoDup addrs -> (forall a, a ∈ addrs -> a ∉ seen) -> find_duplicate seen addrs = None.
Proof.
  revert seen. induction addrs as [|a addrs IH]; intros seen Hnd Hs; [done|]. simpl.
  apply NoDup_cons in Hnd as [Ha Hnd]. rewrite bool_decide_false by (apply Hs; by left).
  apply IH; [done|]. intros b Hb. assert (b ∉ seen) by (apply Hs; by right). set_solver.
Qed.

Lemma peer_addresses_NoDup cfg : injective_table (nc_peers cfg) -> NoDup (peer_addresses cfg).
Proof.
  intros Hinj. unfold peer_addresses.
  assert (NoDup (peer_ids cfg)) as Hnd.
  { unfold peer_ids, iter. rewrite merge_sort_Permutation. apply NoDup_elements. }
  induction (peer_ids cfg) as [|i ids IH]; [constructor|]. apply NoDup_cons in Hnd as [Hi Hnd].
  simpl. destruct (nc_peers cfg !! i) as [a|] eqn:E; [|by apply IH].
  constructor; [|by apply IH]. intros (j & Hj & Ha)%list_elem_of_omap. apply Hi.
  by rewrite (Hinj i j a).
Qed.

Lemma valid_config cfg :
  nc_node_id cfg = cfg_id (nc_consensus cfg) ->
  nc_peers cfg !! nc_node_id cfg = Some (nc_raft_addr cfg) ->
  injective_table (nc_peers cfg) -> validate_config cfg = Ok tt.
Proof.
  intros Hid Hself Hinj. unfold validate_config. rewrite <- Hid, N.eqb_refl. simpl.
  rewrite bool_decide_true by done. simpl.
  rewrite find_duplicate_None; [done|by apply peer_addresses_NoDup|set_solver].
Qed.

Lemma accepted_config_valid tsa file ca ra key l :
  accepted tsa file ca ra key l -> validate_config (accepted_config file ca ra key l) = Ok tt.
Proof.
  intros Hacc. apply valid_config; [done| |by eapply accepted_table_injective].
  destruct Hacc as (_ & _ & _ & Hf & Hi & Hl & Hs). by apply (lookup_table _ _ _ _ Hf Hi).
Qed.


(** C33. The check of a configuration predicts the start.  [bdb check-config] accepts
    a file exactly when it can be read and parsed, the node's host and every peer
    resolve to one address, the key spells 32 bytes, the peers have pairwise
    different ids and addresses, and the node is listed with its own Raft address.
    On such a file [bdb start] passes every check of the runtime and can only fail
    in recovering the log or in binding its two sockets; on any other file both commands end with the same
    diagnostic. *)
Theorem check_config_predicts_start {St : Type}
    (to_socket_addrs : bytes -> N -> option (list N)) (from_str : bytes -> option ConfigFile)
    (read_to_string : bytes -> option bytes) (st0 : St)
    (recover : bytes -> Persistent -> option Persistent) (bind : N -> bool) (path : bytes) :
  let run := main to_socket_addrs from_str read_to_string st0 recover bind in
  (run (CheckConfig path) = ConfigurationOk <->
   exists contents file client_addr raft_addr key l,
     read_to_string path = Some contents /\ from_str contents = Some file /\
     accepted to_socket_addrs file client_addr raft_addr key l) /\
  (run (CheckConfig path) = ConfigurationOk ->
   exists cfg, load_node_config to_socket_addrs from_str read_to_string path = Ok cfg /\
     run (Start path) =
       match recover (raft_dir cfg) (initial_persistent cfg) with
       | None => LaunchFailed StoreFailed
       | Some p =>
           if negb (bind (nc_client_addr cfg)) then BindingFailed (nc_client_addr cfg)
           else if negb (bind (nc_raft_addr cfg)) then BindingFailed (nc_raft_addr cfg)
           else Serving (mkRaftRuntime cfg (restore (nc_consensus cfg) p) p st0 ∅ 1 false [])
       end) /\
  (run (CheckConfig path) <> ConfigurationOk -> run (Start path) = run (CheckConfig path)).
Proof.
  intros run. unfold run, main, load_node_config.
  destruct (read_to_string path) as [contents|] eqn:Er; [|naive_solver].
  destruct (parse_node_config to_socket_addrs from_str contents) as [cfg|e] eqn:Ep.
  - pose proof Ep as (file & ca & ra & key & l & Hfs & Hacc & Hcfg)%parse_node_config_Ok.
    split; [|split; [intros _|done]].
    + split; [|done]. intros _. by exists contents, file, ca, ra, key, l.
    + exists cfg. split; [done|]. unfold launch, open.
      pose proof (accepted_config_valid _ _ _ _ _ _ Hacc) as Hv. rewrite <- Hcfg in Hv.
      rewrite Hv. by destruct (recover _ _).
  - split; [|split; done]. split; [done|].
    intros (c & file & ca & ra & key & l & [= <-] & Hfs & Hacc).
    assert (parse_node_config to_socket_addrs from_str contents =
            Ok (accepted_config file ca ra key l)) as Hok
      by (apply parse_node_config_Ok; naive_solver).
    by rewrite Hok in Ep.
Qed.

(** ** The example configuration and its damaged variants *)

Definition example_file (key : bytes) (peers : list PeerSection) : ConfigFile :=
  mkConfigFile (mkNodeSection 0 (literal "127.0.0.1") 19090 19091)
    (mkStorageSection (literal "./basisdb-data")) (mkClusterSection key peers).

Definition example_peer (id port : N) : PeerSection := mkPeerSection id (literal "127.0.0.1") port.

(** A resolver for numeric hosts: one address per port. *)
Definition loopback (host : bytes) (port : N) : option (list N) := Some [port].

Definition parse_example (key : bytes) (peers : list PeerSection) : result NodeConfig ConfigError :=
  parse_node_config loopback (fun _ => Some (example_file key peers)) [].

Definition example_key : bytes := 
  literal "000102030405060708090a0b0c0d0e0f101112131415161718191a1b1c1d1e1f".

Example example_configuration_is_valid :
  (c ← (match parse_example example_key [example_peer 0 19091] with Ok c => Some c | _ => None end);
   Some (nc_node_id c, size (nc_peers c), raft_dir c)) =
  Some (0, 1%nat, literal "./basisdb-data/raft").
Proof. vm_compute. reflexivity. Qed.

Example duplicate_ids_are_refused :
  parse_example example_key [example_peer 0 19091; example_peer 0 19092] = Err (DuplicateNodeId 0).
Proof. vm_compute. reflexivity. Qed.

Example duplicate_addresses_are_refused :
  parse_example example_key [example_peer 0 19091; example_peer 1 19091] =
  Err (DuplicateAddress 19091).
Proof. vm_compute. reflexivity. Qed.

Example short_keys_are_refused :
  parse_example (literal "short") [example_peer 0 19091] = Err InvalidKey.
Proof. vm_compute. reflexivity. Qed.
