(* ===== verification/Testing.v ===== *)
(** * Testing: running the repository's tests on the model

    The unit tests of the repository are small programs that drive a component and
    assert what it does.  The files [RaftTests], [RoleTests] and [NodeTests] translate
    them, one definition per test, in the monad of this file, and evaluate them: the
    definitions of this development behave on the inputs of the tests as the tests
    require of the code.

    A test threads the value under test, a node or a role with its core, and stops at the
    first failing assertion, [unwrap] or index, as a panic stops the test in Rust. *)

From S2P Require Import Prelude.

(** [None] is a panic. *)
Definition Test (S A : Type) : Type := S -> option (A * S).

#[export] Instance test_ret {S} : MRet (Test S) := fun A x s => Some (x, s).
#[export] Instance test_bind {S} : MBind (Test S) := fun A B f m s =>
  match m s with Some (x, s') => f x s' | None => None end.

Section Operations.

Context {S : Type}.

Definition panic {A} : Test S A := fun _ => None.

(** [assert!] *)
Definition assert (b : bool) : Test S unit := fun s => if b then Some (tt, s) else None.

(** The value under test, read, replaced, or passed to a function that changes it. *)
Definition state : Test S S := fun s => Some (s, s).
Definition gets {A} (f : S -> A) : Test S A := fun s => Some (f s, s).
Definition put (s : S) : Test S unit := fun _ => Some (tt, s).
Definition modify (f : S -> S) : Test S unit := fun s => Some (tt, f s).
Definition call {A} (f : S -> S * A) : Test S A := fun s => let '(s', x) := f s in Some (x, s').

(** [unwrap] of an option and of a result, [unwrap_err]. *)
Definition unwrap {A} (o : option A) : Test S A :=
  match o with Some x => mret x | None => panic end.
Definition unwrap_ok {A E} (r : result A E) : Test S A :=
  match r with Ok x => mret x | Err _ => panic end.
Definition unwrap_err {A E} (r : result A E) : Test S E :=
  match r with Ok _ => panic | Err e => mret e end.

(** [for x in xs] *)
Fixpoint for_each {A} (xs : list A) (body : A -> Test S unit) : Test S unit :=
  match xs with
  | [] => mret tt
  | x :: xs' => body x ;; for_each xs' body
  end.

(** [while], which the tests leave after a few hundred rounds. *)
Fixpoint while_fuel (fuel : nat) (cond : S -> bool) (body : Test S unit) : Test S unit :=
  fun s =>
    match fuel with
    | O => None
    | Datatypes.S fuel' =>
        if cond s then (body ;; while_fuel fuel' cond body) s else Some (tt, s)
    end.

Definition while (cond : S -> bool) (body : Test S unit) : Test S unit :=
  while_fuel 1000 cond body.

Definition passes {A} (s : S) (t : Test S A) : bool := is_some (t s).

End Operations.

(** A role and its core, passed to one of the role's handlers. *)
Definition on {R C A : Type} (f : R -> C -> R * C * A) : Test (R * C) A :=
  fun '(r, c) => let '(r', c', x) := f r c in Some (x, (r', c')).

(** Discard a result. *)
Definition ignore {S A} (t : Test S A) : Test S unit := _ ← t; mret tt.

(** [effects.messages[k].payload], and whether all messages satisfy [p]. *)
Definition all_of {A} (p : A -> bool) (xs : list A) : bool := forallb p xs.
