(* ===== verification/RaftTests.v ===== *)
(** * RaftTests: the unit tests of [raft/mod.rs]

    One definition per test of [consensus/basisdb-raft/src/raft/mod.rs], with the name
    of the test.  [raft_tests_pass] evaluates them all. *)

From S2P Require Import Prelude.
From S2P Require Import Types.
From S2P Require Import Membership.
From S2P Require Import Log.
From S2P Require Import Event.
From S2P Require Import Core.
From S2P Require Import Follower.
From S2P Require Import PreCandidate.
From S2P Require Import Candidate.
From S2P Require Import Leader.
From S2P Require Import Node.
From S2P Require Import Testing.

(** ** Helpers *)

Definition THREE_VOTERS : list N := [0; 1; 2].

Definition test_config (id : N) : Config :=
  with_pipelining (with_parallel_disk_write (with_prevote (Config_new id) false) false) false.

Definition three_node_cluster : RaftNode := Node.new (test_config 0) THREE_VOTERS.

(** [node.tick()], [node.step(message)] and the like. *)
Definition tick : Test RaftNode Effects := call Node.tick.
Definition step (m : Message) : Test RaftNode Effects := call (fun n => Node.step n m).
Definition propose (cmd : Command) : Test RaftNode (result (N * Effects) ProposeError) :=
  fun n => match Node.propose n cmd with Some (n', r) => Some (r, n') | None => None end.
Definition propose_config_change (ch : ConfigChange)
  : Test RaftNode (result (N * Effects) ConfigChangeError) :=
  call (fun n => Node.propose_config_change n ch).

(** A message to node 0. *)
Definition to_0 (from t : N) (p : Payload) : Message := mkMessage from 0 t p.
Definition vote_granted : Payload := VoteResp (mkVoteResponse true).
Definition ack (index : N) : Payload := AppendResp (mkAppendResponse true index).
Definition heartbeat : Payload := AppendReq (mkAppendRequest 0 0 [] 0).
Definition command (t i : N) (b : Byte.byte) : Entry := mkEntry t i (CommandPayload [b]).

(** [while node.role.is_follower() { node.tick(); }] *)
Definition tick_while_follower : Test RaftNode unit := while is_follower (ignore tick).
Definition tick_until_leader : Test RaftNode unit :=
  while (fun n => negb (is_leader n)) (ignore tick).

(** The granted vote of a peer in the node's term. *)
Definition receive_vote (from : N) : Test RaftNode unit :=
  node ← state; ignore (step (to_0 from (node_term node) vote_granted)).
Definition receive_ack (from index : N) : Test RaftNode Effects :=
  node ← state; step (to_0 from (node_term node) (ack index)).

(** Node 0 times out and is elected by node 1. *)
Definition become_leader : Test RaftNode unit :=
  tick_while_follower ;; receive_vote 1 ;; node ← state; assert (is_leader node).

Definition is_joint_opt (c : option Configuration) : bool :=
  match c with Some c => is_joint c | None => false end.

(** [if let Payload::VoteResponse(resp) = &effects.messages[0].payload { assert!(..) }] *)
Definition first_vote_response {S} (e : Effects) (p : bool -> bool) : Test S unit :=
  m ← unwrap (messages e !! 0%nat);
  match msg_payload m with VoteResp r => assert (p (vresp_granted r)) | _ => mret tt end.
Definition first_append_response {S} (e : Effects) (p : bool -> bool) : Test S unit :=
  m ← unwrap (messages e !! 0%nat);
  match msg_payload m with AppendResp r => assert (p (aresp_success r)) | _ => mret tt end.

Definition no_messages (e : Effects) : bool :=
  match messages e with [] => true | _ => false end.
Definition message_count (e : Effects) : N := N.of_nat (length (messages e)).

(** ** Basic state machine tests *)

Definition starts_as_follower : bool :=
  passes three_node_cluster (
    node ← state;
    assert (role_is_follower (role node)) ;;
    assert (node_term node =? 0)).

Definition election_timeout_triggers_candidacy : bool :=
  passes three_node_cluster (
    tick_while_follower ;;
    node ← state;
    assert (role_is_candidate (role node)) ;;
    assert (node_term node =? 1)).

Definition single_node_becomes_leader_immediately : bool :=
  passes (Node.new (test_config 0) [0]) (
    tick_until_leader ;;
    node ← state; assert (is_leader node)).

Definition candidate_wins_with_majority : bool :=
  passes three_node_cluster (
    tick_while_follower ;;
    node ← state;
    step (to_0 1 (node_term node) vote_granted) ;;
    node ← state; assert (is_leader node)).

(** ** Safety properties of the dissertation *)

Definition election_safety : bool :=
  passes three_node_cluster (
    become_leader ;;
    leader_term ← gets node_term;
    step (to_0 2 leader_term heartbeat) ;;
    node ← state; assert (is_leader node)).

(** Set the term, append to the log, behind the node's back. *)
Definition set_term (t : N) (n : RaftNode) : RaftNode :=
  mkRaftNode (set_vote (core n) t (voted_for (persistent (core n)))) (role n).
Definition core_set_term (c : Core) (t : N) : Core := set_vote c t (voted_for (persistent c)).
Definition push_entry (e : Entry) (n : RaftNode) : RaftNode :=
  mkRaftNode (set_log (core n) (append (log (core n)) e)) (role n).

Definition only_commit_current_term : bool :=
  passes three_node_cluster (
    modify (set_term 1) ;;
    become_leader ;;
    node ← state; assert (node_term node =? 2) ;;
    modify (push_entry (command 1 1 Byte.x01)) ;;
    node ← state;
    match role node with
    | RLeader leader =>
        let leader := foldl (fun l id => insert_match l id 1) leader
                        (voters (effective_config (core node))) in
        let '(leader, core, _, _) := maybe_commit leader (core node) in
        put (mkRaftNode core (RLeader leader))
    | _ => mret tt
    end ;;
    node ← state; assert (node_commit_index node =? 0)).

Definition term_monotonicity : bool :=
  passes (0, three_node_cluster) (
    for_each (seq 0 5) (fun _ =>
      while (fun '(_, n) => role_is_follower (role n)) (modify (fun '(t, n) => (t, fst (Node.tick n)))) ;;
      '(last_term, node) ← state;
      assert (last_term <=? node_term node) ;;
      let last_term := node_term node in
      let '(core, _) := maybe_update_term (core node) (node_term node +u 1) in
      let '(core, f) := Follower.new core None in
      put (last_term, mkRaftNode core (RFollower f)))).

Definition timeout_now : bool :=
  passes three_node_cluster (
    initial_term ← gets node_term;
    step (to_0 1 initial_term TimeoutNow) ;;
    node ← state;
    assert (role_is_candidate (role node)) ;;
    assert (initial_term <? node_term node)).

(** ** API tests *)

Definition propose_requires_leader : bool :=
  passes three_node_cluster (
    result ← propose [Byte.x01];
    assert (match result with Err (NotLeader _) => true | _ => false end)).

Definition leader_can_propose : bool :=
  passes (Node.new (test_config 0) [0]) (
    tick_until_leader ;;
    result ← propose [Byte.x2a];
    '(index, effects) ← unwrap_ok result;
    assert (index =? 1) ;;
    assert (persist effects)).

Definition ticks_until_deadline_prevents_spinning : bool :=
  passes three_node_cluster (
    node ← state; assert (10 <=? Node.ticks_until_deadline node)).

Definition index_at (es : list CommittedEntry) (k : nat) : option N := ce_index <$> es !! k.

Definition committed_entries_iteration : bool :=
  passes (Node.new (test_config 0) [0]) (
    tick_until_leader ;;
    (propose [Byte.x01] ≫= unwrap_ok) ;;
    (propose [Byte.x02] ≫= unwrap_ok) ;;
    (propose [Byte.x03] ≫= unwrap_ok) ;;
    committed ← gets committed;
    assert (length committed =? 3)%nat ;;
    assert (bool_decide (index_at committed 0 = Some 1)) ;;
    assert (bool_decide (index_at committed 2 = Some 3)) ;;
    modify (fun n => advance n 2) ;;
    committed ← gets Node.committed;
    assert (length committed =? 1)%nat ;;
    assert (bool_decide (index_at committed 0 = Some 3))).

(** ** Membership changes *)

Definition single_server_add_voter : bool :=
  passes (Node.new (test_config 0) [0]) (
    tick_until_leader ;;
    result ← propose_config_change (AddLearner 1);
    '(index, _) ← unwrap_ok result;
    receive_ack 1 index ;;
    result ← propose_config_change (AddVoter 1);
    '(index, effects) ← unwrap_ok result;
    assert (index =? 2) ;;
    assert (persist effects) ;;
    node ← state; assert (Membership.is_voter (effective_config (core node)) 1)).

Definition single_server_remove_voter : bool :=
  passes (Node.new (test_config 0) [0; 1; 2]) (
    become_leader ;;
    result ← propose_config_change (RemoveVoter 2);
    assert (is_ok result) ;;
    node ← state; assert (negb (Membership.is_voter (effective_config (core node)) 2))).

(** [Members::new(voters, learners).unwrap()] and the change it asks for. *)
Definition set_members (vs : list N) : Test RaftNode (result (N * Effects) ConfigChangeError) :=
  members ← unwrap_ok (Members_new vs []);
  propose_config_change (SetMembers members).

Definition joint_config (id : N) : Config := with_membership_mode (test_config id) JointConsensus.

Definition rejects_concurrent_config_changes : bool :=
  passes (Node.new (joint_config 0) [0]) (
    tick_until_leader ;;
    result ← set_members [0; 1];
    assert (is_ok result) ;;
    result ← set_members [0; 2];
    assert (match result with Err ChangeInProgress => true | _ => false end)).

Definition leader_steps_down_when_removed : bool :=
  passes (Node.new (test_config 0) [0; 1; 2]) (
    become_leader ;;
    propose_config_change (RemoveVoter 0) ;;
    config_index ← gets (fun n => last_index (log (core n)));
    receive_ack 1 config_index ;;
    node ← state; assert (is_leader node) ;;
    receive_ack 2 config_index ;;
    node ← state; assert (role_is_follower (role node))).

Definition joint_consensus_requires_both_majorities : bool :=
  passes (Node.new (joint_config 0) [0; 1; 2]) (
    become_leader ;;
    result ← set_members [0; 3; 4];
    assert (is_ok result) ;;
    node ← state; assert (is_joint (effective_config (core node))) ;;
    let config_index := last_index (log (core node)) in
    assert (node_commit_index node <? config_index) ;;
    receive_ack 1 config_index ;;
    node ← state; assert (node_commit_index node <? config_index)).

Definition joint_consensus_auto_completes : bool :=
  passes (Node.new (joint_config 0) [0; 1; 2]) (
    become_leader ;;
    result ← set_members [0; 1];
    assert (is_ok result) ;;
    node ← state; assert (is_joint (effective_config (core node))) ;;
    receive_ack 1 (last_index (log (core node))) ;;
    node ← state;
    assert (last_index (log (core node)) =? 2) ;;
    final_config ← unwrap (Log.config_at (log (core node)) 2);
    assert (negb (is_joint final_config))).

(** ** No redundant work *)

Definition is_vote_request (m : Message) : bool :=
  match msg_payload m with VoteReq _ => true | _ => false end.

Definition no_duplicate_vote_requests : bool :=
  passes tt (
    let core := Core_new (test_config 0) [0; 1; 2; 3; 4] in
    let '(_, _, effects) := Candidate.new core in
    let vote_requests := List.filter is_vote_request (messages effects) in
    assert (length vote_requests =? 4)%nat ;;
    let recipients : gset N := list_to_set (msg_to <$> vote_requests) in
    assert (size recipients =? 4)%nat ;;
    assert (negb (bool_decide (0 ∈ recipients)))).

(** A new candidate, or leader, with its core. *)
Definition new_candidate (cfg : Config) (vs : list N) : Candidate * Core :=
  let '(c, k, _) := Candidate.new (Core_new cfg vs) in (k, c).
Definition new_leader (cfg : Config) (vs : list N) : Leader * Core :=
  let '(c, l, _) := Leader.new (Core_new cfg vs) in (l, c).

Definition candidate_step (m : Message) : Test (Candidate * Core) StepResult :=
  on (fun k c => Candidate.step k c (MessageEvent m)).
Definition leader_step (ev : Event) : Test (Leader * Core) StepResult :=
  on (fun l c => Leader.step l c ev).
Definition follower_step (ev : Event) : Test (Follower * Core) StepResult :=
  on (fun f c => Follower.step f c ev).
Definition leader_propose (cmd : Command) : Test (Leader * Core) (N * Effects * bool) :=
  on (fun l c => Leader.propose l c cmd).

Definition votes_len (k : Candidate) : nat := size (votes k).
Definition is_stay (t : Transition) : bool := match t with Stay => true | _ => false end.

(** The votes in the first half of the test, which node 0 wins ... *)
Definition vote_wins_once : bool :=
  let '(c, k, initial_effects) := Candidate.new (Core_new (test_config 0) [0; 1; 2]) in
  passes (k, c) (
    assert (votes_len k =? 1)%nat ;;
    assert (persist initial_effects) ;;
    result ← candidate_step (to_0 1 (term c) vote_granted);
    assert (match transition result with ToLeader => true | _ => false end) ;;
    '(k, _) ← state; assert (votes_len k =? 2)%nat).

(** ... and in the second, where a vote arrives twice. *)
Definition duplicate_votes_are_idempotent : bool :=
  vote_wins_once &&
  passes (new_candidate (with_election_timeout (test_config 0) 10 20) [0; 1; 2; 3; 4]) (
    '(_, c) ← state;
    candidate_step (to_0 1 (term c) vote_granted) ;;
    '(k, c) ← state; assert (votes_len k =? 2)%nat ;;
    result ← candidate_step (to_0 1 (term c) vote_granted);
    assert (is_stay (transition result)) ;;
    '(k, _) ← state; assert (votes_len k =? 2)%nat ;;
    assert (no_messages (effects result)) ;;
    assert (negb (persist (effects result)))).

(** [while core.ticks + 1 < leader.heartbeat_deadline { .. }] *)
Definition before_deadline : Leader * Core -> bool :=
  fun '(l, c) => ticks c +u 1 <? heartbeat_deadline l.

Definition heartbeats_only_at_deadline : bool :=
  passes (new_leader (with_heartbeat_interval (test_config 0) 5) [0; 1; 2]) (
    '(leader, _) ← state;
    let deadline := heartbeat_deadline leader in
    while (fun '(_, c) => ticks c +u 1 <? deadline)
      (result ← leader_step Tick; assert (no_messages (effects result))) ;;
    result ← leader_step Tick;
    assert (negb (no_messages (effects result)))).

(** No append request of [e] carries entries. *)
Definition empty_heartbeats (e : Effects) : bool :=
  forallb (fun m => match msg_payload m with
                    | AppendReq r => match ar_entries r with [] => true | _ => false end
                    | _ => true
                    end) (messages e).

Definition up_to_date_followers_get_empty_heartbeats : bool :=
  passes (new_leader (with_heartbeat_interval (test_config 0) 5) [0; 1]) (
    leader_propose [Byte.x01] ;;
    leader_propose [Byte.x02] ;;
    '(_, c) ← state;
    leader_step (MessageEvent (to_0 1 (term c) (ack 2))) ;;
    while before_deadline (ignore (leader_step Tick)) ;;
    result ← leader_step Tick;
    assert (empty_heartbeats (effects result))).

(** A core of term 1 with [n] entries. *)
Definition stocked (vs : list N) (n : nat) : Core :=
  let c := core_set_term (Core_new (test_config 0) vs) 1 in
  foldl (fun c i => set_log c (append (log c) (mkEntry 1 i
           (CommandPayload [default Byte.x00 (Byte.of_N (i mod 256))])))) c (seqN 1 n).

Definition rejection (index : N) : Message :=
  to_0 1 1 (AppendResp (mkAppendResponse false index)).

Definition rejection_uses_hint_efficiently : bool :=
  let '(c, l, _) := Leader.new (stocked [0; 1] 10) in
  passes (l, c) (
    next_before ← unwrap (next_index l !! 1);
    assert (next_before =? 11) ;;
    leader_step (MessageEvent (rejection 3)) ;;
    '(l, _) ← state;
    next_after ← unwrap (next_index l !! 1);
    assert (next_after =? 4)).

Definition no_redundant_persistence : bool :=
  passes (Node.new (test_config 0) [0; 1; 2]) (
    for_each (seq 0 5) (fun _ =>
      effects ← tick;
      node ← state;
      if role_is_follower (role node) then assert (negb (persist effects)) else mret tt) ;;
    effects ← step (to_0 1 0 (VoteResp (mkVoteResponse false)));
    assert (negb (persist effects))).

Definition leader_never_sends_to_self : bool :=
  let '(c, l, initial_effects) :=
    Leader.new (Core_new (with_heartbeat_interval (test_config 0) 5) [0; 1; 2]) in
  passes (l, c) (
    '(_, propose_effects, _) ← leader_propose [Byte.x01];
    while before_deadline (ignore (leader_step Tick)) ;;
    result ← leader_step Tick;
    let all_messages := messages initial_effects ++ messages propose_effects
                        ++ messages (effects result) in
    assert (forallb (fun m => negb (msg_to m =? 0)) all_messages)).

Definition stale_messages_rejected_efficiently : bool :=
  passes (Node.new (test_config 0) [0; 1; 2]) (
    modify (set_term 5) ;;
    effects ← step (to_0 1 2 (AppendReq (mkAppendRequest 0 0 [command 2 1 Byte.x01] 0)));
    node ← state;
    assert (last_index (log (core node)) =? 0) ;;
    assert (negb (persist effects)) ;;
    assert (message_count effects =? 1) ;;
    first_append_response effects negb).

Definition idempotent_append_entries : bool :=
  passes (Node.new (test_config 0) [0; 1; 2]) (
    let append := AppendReq (mkAppendRequest 0 0 [command 1 1 Byte.x2a] 0) in
    step (to_0 1 1 append) ;;
    node ← state; assert (last_index (log (core node)) =? 1) ;;
    effects ← step (to_0 1 1 append);
    node ← state; assert (last_index (log (core node)) =? 1) ;;
    first_append_response effects (fun b => b)).

Definition vote_request (index t : N) : Payload := VoteReq (mkVoteRequest index t).

Definition no_disruptive_election_with_active_leader : bool :=
  passes (Node.new (test_config 0) [0; 1; 2]) (
    step (to_0 1 1 heartbeat) ;;
    effects ← step (to_0 2 2 (vote_request 0 0));
    assert (message_count effects =? 1) ;;
    first_vote_response effects negb ;;
    node ← state; assert (node_term node =? 1)).

Definition single_node_commits_without_network : bool :=
  passes (new_leader (test_config 0) [0]) (
    '(index, effects, _) ← leader_propose [Byte.x01];
    assert (no_messages effects) ;;
    '(_, c) ← state; assert (commit_index c =? index)).

Definition minimal_effects_on_role_transition : bool :=
  passes (Node.new (test_config 0) [0; 1; 2]) (
    tick_while_follower ;;
    effects ← step (to_0 1 100 heartbeat);
    node ← state; assert (role_is_follower (role node)) ;;
    assert (persist effects) ;;
    assert (no_messages effects)).

(** ** Invariants of the dissertation *)

Definition short_timeout (id : N) : Config := with_election_timeout (test_config id) 10 20.

Definition new_follower (c : Core) : Follower * Core :=
  let '(c, f) := Follower.new c None in (f, c).

Definition core_append (e : Entry) (c : Core) : Core := set_log c (append (log c) e).

Definition election_restriction_rejects_stale_candidates : bool :=
  passes (new_follower (Core_new (short_timeout 0) [0; 1; 2])) (
    modify (fun '(f, c) => (f, core_append (command 5 1 Byte.x01) (core_set_term c 5))) ;;
    result ← follower_step (MessageEvent (to_0 1 5 (vote_request 10 3)));
    first_vote_response (effects result) negb ;;
    result ← follower_step (MessageEvent (to_0 2 5 (vote_request 0 5)));
    first_vote_response (effects result) negb).

Definition up_to_date_candidate_wins_vote_in_single_rpc : bool :=
  passes (new_follower (core_append (command 1 1 Byte.x01)
            (core_set_term (Core_new (short_timeout 0) [0; 1; 2]) 1))) (
    result ← follower_step (MessageEvent (to_0 1 2 (vote_request 1 1)));
    assert (message_count (effects result) =? 1) ;;
    first_vote_response (effects result) (fun b => b)).

Definition candidate_respects_active_leader : bool :=
  passes (new_candidate (short_timeout 0) [0; 1; 2]) (
    candidate_step (to_0 1 1 heartbeat) ;;
    result ← candidate_step (to_0 2 2 (vote_request 0 0));
    first_vote_response (effects result) negb).

Definition randomized_timeouts_differ_across_nodes : bool :=
  passes tt (
    let deadlines := (fun id =>
      Follower.election_deadline (fst (new_follower
        (Core_new (with_election_timeout (test_config id) 100 200) [0; 1; 2])))) <$> seqN 0 10 in
    let unique : gset N := list_to_set deadlines in
    assert (8 <=? size unique)%nat).

Definition no_redundant_entries_after_ack : bool :=
  passes (new_leader (with_heartbeat_interval (test_config 0) 5) [0; 1]) (
    leader_propose [Byte.x01] ;;
    '(_, c) ← state;
    leader_step (MessageEvent (to_0 1 (term c) (ack 1))) ;;
    while before_deadline (ignore (leader_step Tick)) ;;
    result ← leader_step Tick;
    assert (empty_heartbeats (effects result))).

Definition rejection_hint_avoids_linear_backoff : bool :=
  let '(c, l, _) := Leader.new (stocked [0; 1] 100) in
  passes (l, c) (
    leader_step (MessageEvent (rejection 10)) ;;
    '(l, _) ← state;
    next ← unwrap (next_index l !! 1);
    assert (next =? 11)).

Definition no_term_inflation_from_ignored_messages : bool :=
  passes (Node.new (test_config 0) [0; 1; 2]) (
    step (to_0 1 1 heartbeat) ;;
    node ← state; assert (node_term node =? 1) ;;
    step (to_0 2 100 (vote_request 0 0)) ;;
    node ← state; assert (node_term node =? 1)).

Definition higher_term_append_hint_does_not_activate_leader_guard : bool :=
  passes (Node.new (test_config 0) THREE_VOTERS) (
    modify (set_term 1) ;;
    modify (push_entry (command 1 1 Byte.x01)) ;;
    modify (fun n => let '(c, k, _) := Candidate.new (core n) in mkRaftNode c (RCandidate k)) ;;
    step (to_0 1 3 (AppendReq (mkAppendRequest 1 99 [] 0))) ;;
    node ← state;
    assert (is_follower node) ;;
    assert (bool_decide (leader node = Some 1)) ;;
    effects ← step (to_0 2 4 (vote_request 1 1));
    node ← state;
    assert (node_term node =? 4) ;;
    assert (bool_decide (voted_for (persistent (core node)) = Some 2)) ;;
    m ← unwrap (messages effects !! 0%nat);
    assert (match msg_payload m with VoteResp r => vresp_granted r | _ => false end)).

Definition no_persist_for_readonly_operations : bool :=
  passes (new_leader (with_heartbeat_interval (test_config 0) 5) [0; 1]) (
    result ← leader_step Tick;
    assert (negb (persist (effects result))) ;;
    '(_, c) ← state;
    result ← leader_step (MessageEvent (to_0 1 (term c) (ack 0)));
    assert (negb (persist (effects result)))).

Definition vote_grant_resets_timeout : bool :=
  passes (new_follower (Core_new (short_timeout 0) [0; 1; 2])) (
    for_each (seq 0 5) (fun _ => ignore (follower_step Tick)) ;;
    deadline_before ← gets (fun '(f, _) => Follower.election_deadline f);
    follower_step (MessageEvent (to_0 1 1 (vote_request 0 0))) ;;
    deadline ← gets (fun '(f, _) => Follower.election_deadline f);
    assert (deadline_before <? deadline)).

Definition log_entries_extended_not_conflicted : bool :=
  passes (Node.new (test_config 0) [0; 1; 2]) (
    step (to_0 1 1 (AppendReq (mkAppendRequest 0 0 [command 1 1 Byte.x2a] 1))) ;;
    node ← state; assert (node_commit_index node =? 1) ;;
    step (to_0 2 2 (AppendReq (mkAppendRequest 1 1 [command 2 2 Byte.x63] 1))) ;;
    node ← state;
    assert (last_index (log (core node)) =? 2) ;;
    e1 ← unwrap (get (log (core node)) 1); assert (e_term e1 =? 1) ;;
    e2 ← unwrap (get (log (core node)) 2); assert (e_term e2 =? 2)).

Definition exactly_one_broadcast_per_heartbeat : bool :=
  let '(c, l, initial_effects) :=
    Leader.new (Core_new (with_heartbeat_interval (test_config 0) 10) [0; 1; 2; 3]) in
  passes (0, 0, (l, c)) (
    assert (message_count initial_effects =? 3) ;;
    for_each (seq 0 100) (fun _ =>
      modify (fun '(total_messages, heartbeat_count, (l, c)) =>
        let '(l, c, result) := Leader.step l c Tick in
        if no_messages (effects result) then (total_messages, heartbeat_count, (l, c))
        else (total_messages + message_count (effects result), heartbeat_count + 1, (l, c)))) ;;
    '(total_messages, heartbeat_count, _) ← state;
    assert ((9 <=? heartbeat_count) && (heartbeat_count <=? 11)) ;;
    assert (total_messages =? heartbeat_count * 3)).

Definition unknown_payloads_ignored_silently : bool :=
  passes (new_follower (core_set_term (Core_new (test_config 0) [0; 1; 2]) 1)) (
    result ← follower_step (MessageEvent (to_0 1 1 vote_granted));
    assert (no_messages (effects result)) ;;
    assert (negb (persist (effects result)))).

Definition joint_consensus_requires_dual_majorities : bool :=
  passes (Node.new (joint_config 0) [0; 1; 2]) (
    become_leader ;;
    (set_members [0; 3; 4] ≫= unwrap_ok) ;;
    config_index ← gets (fun n => last_index (log (core n)));
    receive_ack 1 config_index ;;
    node ← state; assert (node_commit_index node <? config_index) ;;
    receive_ack 3 config_index ;;
    node ← state; assert (config_index <=? node_commit_index node)).

(** ** Leadership transfer *)

Definition leadership_transfer_to_caught_up_peer : bool :=
  passes (Node.new (test_config 0) [0; 1; 2]) (
    become_leader ;;
    receive_ack 1 0 ;;
    node ← state;
    effects ← unwrap_ok (Node.transfer_leadership node 1);
    assert (message_count effects =? 1) ;;
    m ← unwrap (messages effects !! 0%nat);
    assert (msg_to m =? 1) ;;
    assert (match msg_payload m with TimeoutNow => true | _ => false end)).

Definition leadership_transfer_fails_if_target_lagging : bool :=
  passes (Node.new (test_config 0) [0; 1; 2]) (
    become_leader ;;
    (propose [Byte.x01] ≫= unwrap_ok) ;;
    (propose [Byte.x02] ≫= unwrap_ok) ;;
    node ← state;
    assert (match Node.transfer_leadership node 1 with
            | Err (TargetLagging 0 2) => true | _ => false end)).

Definition leadership_transfer_fails_for_non_voter : bool :=
  passes (Node.new (test_config 0) [0; 1; 2]) (
    tick_while_follower ;; receive_vote 1 ;;
    node ← state;
    assert (match Node.transfer_leadership node 99 with Err TargetNotVoter => true | _ => false end)).

Definition leadership_transfer_fails_to_self : bool :=
  passes (Node.new (test_config 0) [0; 1; 2]) (
    tick_while_follower ;; receive_vote 1 ;;
    node ← state;
    assert (match Node.transfer_leadership node 0 with Err TargetIsSelf => true | _ => false end)).

Definition leadership_transfer_fails_if_not_leader : bool :=
  passes (Node.new (test_config 0) [0; 1; 2]) (
    node ← state;
    assert (role_is_follower (role node)) ;;
    assert (match Node.transfer_leadership node 1 with Err TransferNotLeader => true | _ => false end)).

(** Node 0 elected and caught up with, and the message of its transfer to node 1. *)
Definition hand_over : Test RaftNode (Message * N) :=
  become_leader ;;
  leader_term ← gets node_term;
  receive_ack 1 0 ;;
  node0 ← state;
  effects ← unwrap_ok (Node.transfer_leadership node0 1);
  assert (message_count effects =? 1) ;;
  m ← unwrap (messages effects !! 0%nat); mret (m, leader_term).

Definition leadership_transfer_full_flow : bool :=
  match hand_over (Node.new (test_config 0) [0; 1; 2]) with
  | Some ((m, leader_term), node0) =>
      passes (Node.new (test_config 1) [0; 1; 2]) (
        step m ;;
        node1 ← state;
        assert (role_is_candidate (role node1)) ;;
        assert (leader_term <? node_term node1) ;;
        step (mkMessage 0 1 (node_term node1) vote_granted) ;;
        node1 ← state; assert (is_leader node1) ;;
        let node0 := fst (Node.step node0 (to_0 1 (node_term node1) heartbeat)) in
        assert (role_is_follower (role node0)) ;;
        assert (bool_decide (leader node0 = Some 1)))
  | None => false
  end.

(** ** Pre-votes *)

Definition prevote_cluster : RaftNode := Node.new (Config_new 0) THREE_VOTERS.

Definition prevote_follower_becomes_precandidate : bool :=
  passes prevote_cluster (
    tick_while_follower ;;
    node ← state;
    assert (role_is_precandidate (role node)) ;;
    assert (node_term node =? 0)).

Definition prevote_sends_prevote_requests : bool :=
  passes (none, prevote_cluster) (
    while (fun '(_, n) => role_is_follower (role n))
      (modify (fun '(_, n) => let '(n, e) := Node.tick n in (e, n))) ;;
    '(effects, _) ← state;
    assert (message_count effects =? 2) ;;
    for_each (messages effects) (fun m =>
      assert (match msg_payload m with PreVoteReq r => pv_next_term r =? 1 | _ => false end))).

Definition prevote_granted : Message := to_0 1 0 (PreVoteResp (mkPreVoteResponse 0 true)).

Definition prevote_proceeds_to_candidate_on_majority : bool :=
  passes prevote_cluster (
    tick_while_follower ;;
    node ← state; assert (role_is_precandidate (role node)) ;;
    step prevote_granted ;;
    node ← state;
    assert (role_is_candidate (role node)) ;;
    assert (node_term node =? 1)).

Definition prevote_prevents_term_disruption : bool :=
  passes prevote_cluster (
    tick_while_follower ;;
    for_each (seq 0 500) (fun _ =>
      tick ;; node ← state; assert (node_term node =? 0)) ;;
    node ← state;
    assert (role_is_precandidate (role node)) ;;
    assert (node_term node =? 0)).

Definition prevote_full_election_flow : bool :=
  passes prevote_cluster (
    tick_while_follower ;;
    node ← state; assert (role_is_precandidate (role node)) ;;
    step prevote_granted ;;
    node ← state;
    assert (role_is_candidate (role node)) ;;
    assert (node_term node =? 1) ;;
    step (to_0 1 1 vote_granted) ;;
    node ← state; assert (is_leader node)).

Definition prevote_steps_down_on_leader_contact : bool :=
  passes prevote_cluster (
    tick_while_follower ;;
    step (to_0 1 1 heartbeat) ;;
    node ← state;
    assert (role_is_follower (role node)) ;;
    assert (bool_decide (leader node = Some 1))).

(** ** Automatic transfer *)

Definition is_timeout_now (m : Message) : bool :=
  match msg_payload m with TimeoutNow => true | _ => false end.

(** The last loop of the test, which returns at the first [TimeoutNow]. *)
Fixpoint acks_until_transfer (peers : list N) : Test RaftNode unit :=
  match peers with
  | [] => node ← state; assert (role_is_follower (role node))
  | peer :: peers' =>
      last ← gets (fun n => last_index (log (core n)));
      eff ← receive_ack peer last;
      if existsb is_timeout_now (messages eff)
      then node ← state; assert (role_is_follower (role node))
      else acks_until_transfer peers'
  end.

Definition acks_from (peers : list N) : Test RaftNode unit :=
  for_each peers (fun peer =>
    last ← gets (fun n => last_index (log (core n))); ignore (receive_ack peer last)).

Definition auto_transfer_on_removal : bool :=
  passes (Node.new (test_config 0) THREE_VOTERS) (
    tick_while_follower ;;
    node ← state;
    effects ← step (to_0 1 (node_term node) vote_granted);
    node ← state; assert (is_leader node) ;;
    for_each (messages effects) (fun m =>
      match msg_payload m with
      | AppendReq _ => node ← state;
          ignore (step (mkMessage (msg_to m) (msg_from m) (node_term node) (ack 0)))
      | _ => mret tt
      end) ;;
    propose_config_change (AddLearner 3) ;;
    acks_from [3] ;;
    propose_config_change (AddVoter 3) ;;
    acks_from [1; 2; 3] ;;
    (propose_config_change (RemoveVoter 0) ≫= unwrap_ok) ;;
    acks_until_transfer [1; 2; 3]).

(** ** All tests *)

Definition raft_tests : list bool :=
  [starts_as_follower; election_timeout_triggers_candidacy;
   single_node_becomes_leader_immediately; candidate_wins_with_majority; election_safety;
   only_commit_current_term; term_monotonicity; timeout_now; propose_requires_leader;
   leader_can_propose; ticks_until_deadline_prevents_spinning; committed_entries_iteration;
   single_server_add_voter; single_server_remove_voter; rejects_concurrent_config_changes;
   leader_steps_down_when_removed; joint_consensus_requires_both_majorities;
   joint_consensus_auto_completes; no_duplicate_vote_requests; duplicate_votes_are_idempotent;
   heartbeats_only_at_deadline; up_to_date_followers_get_empty_heartbeats;
   rejection_uses_hint_efficiently; no_redundant_persistence; leader_never_sends_to_self;
   stale_messages_rejected_efficiently; idempotent_append_entries;
   no_disruptive_election_with_active_leader; single_node_commits_without_network;
   minimal_effects_on_role_transition; election_restriction_rejects_stale_candidates;
   up_to_date_candidate_wins_vote_in_single_rpc; candidate_respects_active_leader;
   randomized_timeouts_differ_across_nodes; no_redundant_entries_after_ack;
   rejection_hint_avoids_linear_backoff; no_term_inflation_from_ignored_messages;
   higher_term_append_hint_does_not_activate_leader_guard; no_persist_for_readonly_operations;
   vote_grant_resets_timeout; log_entries_extended_not_conflicted;
   exactly_one_broadcast_per_heartbeat; unknown_payloads_ignored_silently;
   joint_consensus_requires_dual_majorities; leadership_transfer_to_caught_up_peer;
   leadership_transfer_fails_if_target_lagging; leadership_transfer_fails_for_non_voter;
   leadership_transfer_fails_to_self; leadership_transfer_fails_if_not_leader;
   leadership_transfer_full_flow; prevote_follower_becomes_precandidate;
   prevote_sends_prevote_requests; prevote_proceeds_to_candidate_on_majority;
   prevote_prevents_term_disruption; prevote_full_election_flow;
   prevote_steps_down_on_leader_contact; auto_transfer_on_removal].

(** The model of the consensus automaton passes every unit test of [raft/mod.rs]:
    elections, replication, membership changes, leadership transfer, pre-votes and the
    bounds on messages and writes that the tests check. *)
Lemma raft_tests_pass : Forall (fun t => t = true) raft_tests.
Proof. vm_compute. repeat constructor. Qed.
