(* ===== verification/RoleTests.v ===== *)
(** * RoleTests: the unit tests of the parts of the automaton

    One definition per test of [follower.rs], [candidate.rs], [precandidate.rs],
    [leader.rs], [log.rs], [membership.rs], [core.rs] and [event.rs] under
    [consensus/basisdb-raft/src/raft], with the name of the test; where two files have a
    test of the same name, the definition carries the part's name first.
    [role_tests_pass] evaluates them all. *)

From S2P Require Import Prelude.
From S2P Require Import Types.
From S2P Require Import Membership.
From S2P Require Import Log.
From S2P Require Import Event.
From S2P Require Import Core.
From S2P Require Import Follower.
From S2P Require Import PreCandidate.
From S2P Require Import Candidate.
From S2P Require Import Leader.
From S2P Require Import Testing.
From S2P Require Import RaftTests.

(** ** [follower.rs] *)

Definition follower_test_config : Config :=
  with_prevote (with_election_timeout (Config_new 0) 10 20) false.

Definition follower_test_setup : Follower * Core :=
  new_follower (Core_new follower_test_config [0; 1; 2]).

(** [core.persistent.term = t] and [core.log_mut().append(..)]. *)
Definition at_term {R} (t : N) : R * Core -> R * Core := fun '(r, c) => (r, core_set_term c t).
Definition with_entry {R} (e : Entry) : R * Core -> R * Core := fun '(r, c) => (r, core_append e c).
Definition small_command (t i : N) : Entry :=
  mkEntry t i (CommandPayload [default Byte.x00 (Byte.of_N i)]).
Definition with_entries {R} (t : N) (n : nat) : R * Core -> R * Core := fun '(r, c) =>
  (r, foldl (fun c i => core_append (small_command t i) c) c (seqN 1 n)).

Definition is_to_candidate (t : Transition) : bool :=
  match t with ToCandidate => true | _ => false end.

(** [let Payload::VoteResponse(resp) = .. else { panic!(..) }] *)
Definition expect_vote_response {S} (e : Effects) (granted : bool) : Test S unit :=
  m ← unwrap (messages e !! 0%nat);
  match msg_payload m with VoteResp r => assert (eqb (vresp_granted r) granted) | _ => panic end.
Definition expect_snapshot_response {S} (e : Effects) (success : bool) (index : N) : Test S unit :=
  m ← unwrap (messages e !! 0%nat);
  match msg_payload m with
  | InstallSnapshotResp r =>
      assert (eqb (isr_success r) success) ;; assert (isr_last_included_index r =? index)
  | _ => panic
  end.

Definition follower_gets (from t : N) (p : Payload) : Test (Follower * Core) StepResult :=
  follower_step (MessageEvent (to_0 from t p)).
Definition the_core {R} : Test (R * Core) Core := gets snd.

Definition initial_state : bool :=
  let '(f, _) := follower_test_setup in
  negb (is_some (Follower.leader f)) && (10 <=? Follower.election_deadline f).

Definition follower_election_timeout_triggers_candidacy : bool :=
  passes follower_test_setup (
    while (fun '(f, c) => ticks c +u 1 <? Follower.election_deadline f)
      (result ← follower_step Tick; assert (is_stay (transition result))) ;;
    result ← follower_step Tick;
    assert (is_to_candidate (transition result))).

Definition grants_vote_to_up_to_date_candidate : bool :=
  passes follower_test_setup (
    modify (at_term 1) ;;
    result ← follower_gets 1 2 (vote_request 0 0);
    assert (is_stay (transition result)) ;;
    assert (persist (effects result)) ;;
    expect_vote_response (effects result) true).

Definition denies_vote_to_candidate_outside_config : bool :=
  passes (new_follower (core_set_term (Core_new (with_prevote (Config_new 0) false) [0; 1]) 1)) (
    result ← follower_gets 2 2 (vote_request 0 0);
    c ← the_core; assert (negb (bool_decide (voted_for (persistent c) = Some 2))) ;;
    expect_vote_response (effects result) false).

Definition follower_with_known_leader_rejects_disruptive_vote : bool :=
  let '(_, c) := follower_test_setup in
  let '(c, f) := after_leader_contact (core_set_term c 1) (Some 1) in
  passes (f, c) (
    result ← follower_gets 2 2 (vote_request 0 0);
    c ← the_core; assert (term c =? 1) ;;
    expect_vote_response (effects result) false).

Definition denies_vote_to_stale_candidate : bool :=
  passes follower_test_setup (
    modify (at_term 1) ;;
    modify (with_entry (mkEntry 1 1 (CommandPayload []))) ;;
    result ← follower_gets 1 1 (vote_request 0 0);
    expect_vote_response (effects result) false).

Definition votes_only_once_per_term : bool :=
  passes follower_test_setup (
    modify (at_term 1) ;;
    follower_gets 1 2 (vote_request 0 0) ;;
    result ← follower_gets 2 2 (vote_request 0 0);
    first_vote_response (effects result) negb).

Definition accepts_append_entries : bool :=
  passes follower_test_setup (
    modify (at_term 1) ;;
    result ← follower_gets 1 1 (AppendReq (mkAppendRequest 0 0 [command 1 1 Byte.x2a] 0));
    assert (is_stay (transition result)) ;;
    assert (persist (effects result)) ;;
    '(f, c) ← state;
    assert (last_index (log c) =? 1) ;;
    assert (bool_decide (Follower.leader f = Some 1))).

Definition rejects_append_with_wrong_prev : bool :=
  passes follower_test_setup (
    modify (at_term 1) ;;
    result ← follower_gets 1 1 (AppendReq (mkAppendRequest 1 1 [] 0));
    first_append_response (effects result) negb).

Definition timeout_now_triggers_election : bool :=
  passes follower_test_setup (
    modify (at_term 1) ;;
    result ← follower_gets 1 1 TimeoutNow;
    assert (is_to_candidate (transition result))).

(** Five ticks, then [p]: the deadline moves. *)
Definition resets_deadline (p : Payload) : bool :=
  passes follower_test_setup (
    modify (at_term 1) ;;
    for_each (seq 0 5) (fun _ => ignore (follower_step Tick)) ;;
    deadline_before ← gets (fun '(f, _) => Follower.election_deadline f);
    follower_gets 1 1 p ;;
    deadline ← gets (fun '(f, _) => Follower.election_deadline f);
    assert (deadline_before <? deadline)).

Definition heartbeat_resets_deadline : bool := resets_deadline heartbeat.

Definition snapshot_request (index t : N) : Payload :=
  InstallSnapshotReq (mkInstallSnapshotRequest index t (simple [0; 1; 2])).

Definition accepts_install_snapshot : bool :=
  passes follower_test_setup (
    modify (at_term 1) ;;
    modify (with_entries 1 3) ;;
    result ← follower_gets 1 1 (snapshot_request 5 1);
    assert (is_stay (transition result)) ;;
    assert (persist (effects result)) ;;
    '(f, c) ← state;
    assert (snapshot_index (log c) =? 5) ;;
    assert (snapshot_term (log c) =? 1) ;;
    assert (is_empty (log c)) ;;
    assert (bool_decide (Follower.leader f = Some 1)) ;;
    expect_snapshot_response (effects result) true 5).

Definition install_snapshot_resets_deadline : bool := resets_deadline (snapshot_request 3 1).

Definition rejects_stale_snapshot : bool :=
  passes follower_test_setup (
    modify (at_term 2) ;;
    modify (fun '(f, c) => (f, set_log c (install_snapshot (log c) 5 1 (simple [0])))) ;;
    result ← follower_gets 1 2 (snapshot_request 3 1);
    c ← the_core; assert (snapshot_index (log c) =? 5) ;;
    expect_snapshot_response (effects result) false 3).

Definition rejects_snapshot_that_would_discard_committed_suffix : bool :=
  passes follower_test_setup (
    modify (at_term 2) ;;
    modify (with_entries 1 5) ;;
    modify (fun '(f, c) => (f, set_commit_index c 5)) ;;
    result ← follower_gets 1 2 (snapshot_request 3 2);
    c ← the_core; assert (last_index (log c) =? 5) ;;
    expect_snapshot_response (effects result) false 3).

Definition follower_tests : list bool :=
  [initial_state; follower_election_timeout_triggers_candidacy;
   grants_vote_to_up_to_date_candidate; denies_vote_to_candidate_outside_config;
   follower_with_known_leader_rejects_disruptive_vote; denies_vote_to_stale_candidate;
   votes_only_once_per_term; accepts_append_entries; rejects_append_with_wrong_prev;
   timeout_now_triggers_election; heartbeat_resets_deadline; accepts_install_snapshot;
   install_snapshot_resets_deadline; rejects_stale_snapshot;
   rejects_snapshot_that_would_discard_committed_suffix].

(** ** [candidate.rs] *)

Definition candidate_test_setup : Candidate * Core * Effects :=
  let '(c, k, e) := Candidate.new (Core_new (with_prevote (Config_new 0) false) [0; 1; 2]) in
  (k, c, e).
Definition candidate_and_core : Candidate * Core := fst candidate_test_setup.

Definition new_candidate_increments_term : bool := term (snd candidate_and_core) =? 1.

Definition new_candidate_votes_for_self : bool :=
  let '(k, c) := candidate_and_core in
  bool_decide (voted_for (persistent c) = Some 0) && (votes_len k =? 1)%nat.

Definition non_voter_candidate_does_not_vote_for_self : bool :=
  let '(c, k, e) := Candidate.new (Core_new (Config_new 0) [1; 2]) in
  bool_decide (voted_for (persistent c) = None) && negb (bool_decide (0 ∈ votes k)) &&
  negb (Candidate.has_quorum k c) && (message_count e =? 2).

Definition new_candidate_sends_vote_requests : bool :=
  let '(_, _, e) := candidate_test_setup in
  persist e && (message_count e =? 2) &&
  all_of (fun m => is_vote_request m && (msg_from m =? 0)) (messages e).

Definition single_node_wins_immediately : bool :=
  let '(c, k, e) := Candidate.new (Core_new (Config_new 0) [0]) in
  Candidate.has_quorum k c && no_messages e.

Definition wins_with_majority : bool :=
  passes candidate_and_core (
    result ← candidate_step (to_0 1 1 vote_granted);
    assert (match transition result with ToLeader => true | _ => false end)).

Definition candidate_ticks : Test (Candidate * Core) StepResult :=
  on (fun k c => Candidate.step k c Tick).

Definition election_timeout_restarts_election : bool :=
  passes candidate_and_core (
    while (fun '(k, c) => ticks c +u 1 <? Candidate.election_deadline k)
      (result ← candidate_ticks; assert (is_stay (transition result))) ;;
    result ← candidate_ticks;
    assert (is_to_candidate (transition result))).

Definition is_to_follower (t : Transition) (leader : option N) : bool :=
  match t with ToFollower l => bool_decide (l = leader) | _ => false end.
Definition is_to_follower_after_contact (t : Transition) (leader : option N) : bool :=
  match t with ToFollowerAfterContact l => bool_decide (l = leader) | _ => false end.

Definition candidate_steps_down_on_higher_term : bool :=
  passes candidate_and_core (
    result ← candidate_step (to_0 1 5 (VoteResp (mkVoteResponse false)));
    assert (is_to_follower (transition result) None) ;;
    assert (persist (effects result)) ;;
    c ← the_core; assert (term c =? 5)).

Definition higher_term_append_does_not_ack_without_consistency_check : bool :=
  passes candidate_and_core (
    modify (with_entry (command 1 1 Byte.x01)) ;;
    result ← candidate_step (to_0 1 2 (AppendReq (mkAppendRequest 1 2 [] 0)));
    assert (is_to_follower (transition result) (Some 1)) ;;
    assert (persist (effects result)) ;;
    assert (no_messages (effects result))).

Definition candidate_steps_down_on_append_from_leader : bool :=
  passes candidate_and_core (
    result ← candidate_step (to_0 1 1 heartbeat);
    assert (is_to_follower_after_contact (transition result) (Some 1))).

Definition denies_vote_to_other_candidates : bool :=
  passes candidate_and_core (
    result ← candidate_step (to_0 1 1 (vote_request 0 0));
    assert (is_stay (transition result)) ;;
    first_vote_response (effects result) negb).

Definition ignores_duplicate_votes : bool :=
  passes candidate_and_core (
    for_each (seq 0 2) (fun _ => ignore (candidate_step (to_0 1 1 vote_granted))) ;;
    '(k, _) ← state; assert (votes_len k =? 2)%nat).

Definition candidate_tests : list bool :=
  [new_candidate_increments_term; new_candidate_votes_for_self;
   non_voter_candidate_does_not_vote_for_self; new_candidate_sends_vote_requests;
   single_node_wins_immediately; wins_with_majority; election_timeout_restarts_election;
   candidate_steps_down_on_higher_term; higher_term_append_does_not_ack_without_consistency_check;
   candidate_steps_down_on_append_from_leader; denies_vote_to_other_candidates;
   ignores_duplicate_votes].

(** ** [precandidate.rs] *)

Definition precandidate_test_setup : PreCandidate * Core * Effects :=
  let '(c, p, e) := PreCandidate.new
    (Core_new (with_election_timeout (Config_new 0) 10 20) [0; 1; 2]) in (p, c, e).
Definition precandidate_and_core : PreCandidate * Core := fst precandidate_test_setup.

Definition precandidate_step (ev : Event) : Test (PreCandidate * Core) StepResult :=
  on (fun p c => PreCandidate.step p c ev).

Definition new_precandidate_does_not_increment_term : bool := term (snd precandidate_and_core) =? 0.

Definition new_precandidate_prevotes_for_self : bool :=
  let '(p, _) := precandidate_and_core in
  (size (pre_votes p) =? 1)%nat && bool_decide (0 ∈ pre_votes p).

Definition non_voter_precandidate_does_not_prevote_for_self : bool :=
  let '(c, p, e) := PreCandidate.new
    (Core_new (with_election_timeout (Config_new 0) 10 20) [1; 2]) in
  negb (bool_decide (0 ∈ pre_votes p)) && negb (PreCandidate.has_quorum p c) &&
  (message_count e =? 2).

Definition new_precandidate_sends_prevote_requests : bool :=
  let '(_, c, e) := precandidate_test_setup in
  (message_count e =? 2) &&
  all_of (fun m => match msg_payload m with PreVoteReq r => pv_next_term r =? 1 | _ => false end
                   && (msg_from m =? 0) && (msg_term m =? term c)) (messages e).

Definition single_node_prevote_immediate : bool :=
  let '(c, p, e) := PreCandidate.new (Core_new (Config_new 0) [0]) in
  PreCandidate.has_quorum p c && no_messages e.

Definition prevote_response (from t : N) (granted : bool) : Event :=
  MessageEvent (to_0 from t (PreVoteResp (mkPreVoteResponse t granted))).

Definition proceeds_to_candidate_with_majority : bool :=
  passes precandidate_and_core (
    result ← precandidate_step (prevote_response 1 0 true);
    assert (is_to_candidate (transition result))).

Definition ignores_stale_prevote_response : bool :=
  passes precandidate_and_core (
    modify (at_term 5) ;;
    result ← precandidate_step (prevote_response 1 4 true);
    assert (is_stay (transition result)) ;;
    '(p, _) ← state; assert (size (pre_votes p) =? 1)%nat).

Definition prevote_timeout_restarts_prevote : bool :=
  passes precandidate_and_core (
    while (fun '(p, c) => ticks c +u 1 <? PreCandidate.election_deadline p)
      (result ← precandidate_step Tick; assert (is_stay (transition result))) ;;
    result ← precandidate_step Tick;
    assert (match transition result with ToPreCandidate => true | _ => false end)).

Definition precandidate_steps_down_on_higher_term : bool :=
  passes precandidate_and_core (
    result ← precandidate_step (prevote_response 1 5 false);
    assert (is_to_follower (transition result) None) ;;
    assert (persist (effects result)) ;;
    c ← the_core; assert (term c =? 5)).

Definition precandidate_steps_down_on_append_from_leader : bool :=
  passes precandidate_and_core (
    result ← precandidate_step (MessageEvent (to_0 1 0 heartbeat));
    assert (is_to_follower_after_contact (transition result) (Some 1))).

Definition timeout_now_skips_to_candidate : bool :=
  passes precandidate_and_core (
    result ← precandidate_step (MessageEvent (to_0 1 0 TimeoutNow));
    assert (is_to_candidate (transition result))).

Definition precandidate_tests : list bool :=
  [new_precandidate_does_not_increment_term; new_precandidate_prevotes_for_self;
   non_voter_precandidate_does_not_prevote_for_self; new_precandidate_sends_prevote_requests;
   single_node_prevote_immediate; proceeds_to_candidate_with_majority;
   ignores_stale_prevote_response; prevote_timeout_restarts_prevote;
   precandidate_steps_down_on_higher_term; precandidate_steps_down_on_append_from_leader;
   timeout_now_skips_to_candidate].

(** ** [leader.rs] *)

Definition leader_test_config : Config :=
  with_pipelining (with_parallel_disk_write (with_heartbeat_interval (Config_new 0) 5) false) false.

Definition leader_test_setup : Leader * Core * Effects :=
  let '(c, l, e) := Leader.new (core_set_term (Core_new leader_test_config [0; 1; 2]) 1) in (l, c, e).
Definition leader_and_core : Leader * Core := fst leader_test_setup.

Definition unoptimised (id : N) : Config :=
  with_pipelining (with_parallel_disk_write (Config_new id) false) false.

(** The leader of a group of one node. *)
Definition lone_test_leader : Leader * Core :=
  let '(c, l, _) := Leader.new (core_set_term (Core_new (unoptimised 0) [0]) 1) in (l, c).

Definition leader_gets (from t : N) (p : Payload) : Test (Leader * Core) StepResult :=
  leader_step (MessageEvent (to_0 from t p)).

Definition new_leader_sends_heartbeats : bool :=
  let '(_, _, e) := leader_test_setup in
  (message_count e =? 2) &&
  all_of (fun m => match msg_payload m with
                   | AppendReq r => match ar_entries r with [] => true | _ => false end
                   | _ => false
                   end) (messages e).

Definition leader_initializes_indices : bool :=
  let '(l, c) := leader_and_core in
  all_of (fun id => bool_decide (next_index l !! id = Some 1)) (all_nodes (effective_config c)).

Definition heartbeat_on_tick : bool :=
  passes leader_and_core (
    while before_deadline (result ← leader_step Tick; assert (no_messages (effects result))) ;;
    result ← leader_step Tick;
    assert (is_stay (transition result)) ;;
    assert (message_count (effects result) =? 2)).

Definition propose_appends_and_replicates : bool :=
  passes leader_and_core (
    '(index, effects, _) ← leader_propose [Byte.x2a];
    assert (index =? 1) ;;
    assert (persist effects) ;;
    assert (message_count effects =? 2) ;;
    c ← the_core;
    assert (last_index (log c) =? 1) ;;
    e ← unwrap (get (log c) 1); assert (e_term e =? 1)).

Definition single_node_commits_immediately : bool :=
  passes lone_test_leader (
    '(index, _, _) ← leader_propose [Byte.x2a];
    assert (index =? 1) ;;
    c ← the_core; assert (commit_index c =? 1)).

Definition commits_on_majority_ack : bool :=
  passes leader_and_core (
    leader_propose [Byte.x2a] ;;
    c ← the_core; assert (commit_index c =? 0) ;;
    leader_gets 1 1 (ack 1) ;;
    c ← the_core; assert (commit_index c =? 1)).

Definition set_next (id n : N) : Leader * Core -> Leader * Core := fun '(l, c) => (insert_next l id n, c).
Definition set_match (id n : N) : Leader * Core -> Leader * Core := fun '(l, c) => (insert_match l id n, c).

Definition retries_on_rejection : bool :=
  passes leader_and_core (
    modify (with_entries 1 3) ;;
    modify (set_next 1 4) ;;
    result ← leader_gets 1 1 (AppendResp (mkAppendResponse false 0));
    '(l, _) ← state;
    next ← unwrap (next_index l !! 1); assert (next <=? 1) ;;
    assert (message_count (effects result) =? 1)).

Definition leader_steps_down_on_higher_term : bool :=
  passes leader_and_core (
    result ← leader_gets 1 5 (AppendResp (mkAppendResponse false 0));
    assert (is_to_follower (transition result) None) ;;
    assert (persist (effects result)) ;;
    c ← the_core; assert (term c =? 5)).

(** Every node stores [index]; then [maybe_commit]. *)
Definition stored_everywhere (index : N) : Leader * Core -> Leader * Core := fun '(l, c) =>
  let l := foldl (fun l id => insert_match l id index) l (all_nodes (effective_config c)) in
  let '(l, c, _, _) := maybe_commit l c in (l, c).

Definition only_commits_current_term_entries : bool :=
  passes leader_and_core (
    modify (with_entry (command 0 1 Byte.x01)) ;;
    modify (stored_everywhere 1) ;;
    c ← the_core; assert (commit_index c =? 0) ;;
    modify (with_entry (command 1 2 Byte.x02)) ;;
    modify (stored_everywhere 2) ;;
    c ← the_core; assert (commit_index c =? 2)).

Definition denies_vote_as_leader : bool :=
  passes leader_and_core (
    result ← leader_gets 1 1 (vote_request 0 0);
    assert (is_stay (transition result)) ;;
    first_vote_response (effects result) negb).

(** Five entries, of which a snapshot covers three, and the next index of node 1. *)
Definition compacted (next : N) : Test (Leader * Core) Effects :=
  modify (with_entries 1 5) ;;
  modify (fun '(l, c) => (l, set_log c (truncate_prefix (log c) 3 1))) ;;
  modify (set_next 1 next) ;;
  on (fun l c => let '(l, e) := send_append_to l c 1 in (l, c, e)).

Definition detects_slow_follower_needing_snapshot : bool :=
  passes leader_and_core (
    effects ← compacted 1;
    assert (length (send_snapshots effects) =? 1)%nat ;;
    snap ← unwrap (send_snapshots effects !! 0%nat);
    assert (ss_to snap =? 1) ;;
    assert (ss_last_included_index snap =? 3) ;;
    assert (ss_last_included_term snap =? 1) ;;
    assert (bool_decide (ss_configuration snap = simple [0; 1; 2])) ;;
    assert (no_messages effects)).

Definition sends_append_when_entries_available : bool :=
  passes leader_and_core (
    effects ← compacted 4;
    assert (length (send_snapshots effects) =? 0)%nat ;;
    assert (message_count effects =? 1) ;;
    m ← unwrap (messages effects !! 0%nat);
    match msg_payload m with
    | AppendReq req =>
        assert (ar_prev_log_index req =? 3) ;;
        assert (ar_prev_log_term req =? 1) ;;
        assert (match ar_entries req with [] => false | _ => true end)
    | _ => panic
    end).

Definition snapshot_installed (index : N) : Payload :=
  InstallSnapshotResp (mkInstallSnapshotResponse true index).

Definition install_snapshot_response_advances_follower_progress : bool :=
  passes leader_and_core (
    modify (set_next 1 1) ;;
    modify (set_match 1 0) ;;
    result ← leader_gets 1 1 (snapshot_installed 3);
    assert (is_stay (transition result)) ;;
    '(l, _) ← state;
    assert (bool_decide (match_index l !! 1 = Some 3)) ;;
    assert (bool_decide (next_index l !! 1 = Some 4))).

Definition stale_install_snapshot_response_does_not_regress_progress : bool :=
  passes leader_and_core (
    modify (set_next 1 11) ;;
    modify (set_match 1 10) ;;
    leader_gets 1 1 (snapshot_installed 3) ;;
    '(l, _) ← state;
    assert (bool_decide (match_index l !! 1 = Some 10)) ;;
    assert (bool_decide (next_index l !! 1 = Some 11))).

Definition request_read : Test (Leader * Core) (result (N * Effects) ReadIndexError) :=
  on (fun l c => let '(l, r) := Leader.request_read_index l c in (l, c, r)).

Definition cannot_serve_reads_without_current_term_commit : bool :=
  passes leader_and_core (
    '(l, c) ← state; assert (negb (can_serve_reads l c)) ;;
    modify (with_entry (mkEntry 0 1 (CommandPayload []))) ;;
    modify (fun '(l, c) => (l, set_commit_index c 1)) ;;
    '(l, c) ← state; assert (negb (can_serve_reads l c)) ;;
    r ← request_read;
    assert (match r with Err CurrentTermNotCommitted => true | _ => false end)).

Definition can_serve_reads_after_current_term_commit_and_quorum : bool :=
  passes lone_test_leader (
    '(l, c) ← state; assert (negb (can_serve_reads l c)) ;;
    leader_propose [Byte.x2a] ;;
    modify (fun '(l, c) => (l, set_last_applied c 1)) ;;
    '(read_index, effects) ← request_read ≫= unwrap_ok;
    assert (read_index =? 1) ;;
    assert (no_messages effects) ;;
    '(l, c) ← state;
    assert (can_serve_reads l c) ;;
    assert (Leader.read_index l =? 1)).

(** A command of the term, committed and applied. *)
Definition one_applied : Test (Leader * Core) unit :=
  modify (with_entry (command 1 1 Byte.x01)) ;;
  modify (fun '(l, c) => (l, set_last_applied (set_commit_index c 1) 1)).

Definition read_response (rid index : N) : Payload := ReadIndexResp (mkReadIndexResponse rid index).
Definition ready (index : N) : Leader * Core -> bool := fun '(l, c) => read_index_ready l c index.

Definition read_index_waits_for_heartbeat_quorum : bool :=
  passes leader_and_core (
    one_applied ;;
    '(l, c) ← state; assert (negb (can_serve_reads l c)) ;;
    '(read_index, effects) ← request_read ≫= unwrap_ok;
    assert (read_index =? 1) ;;
    assert (message_count effects =? 2) ;;
    m ← unwrap (messages effects !! 0%nat);
    assert (match msg_payload m with
            | ReadIndexReq r => (ri_id r =? 1) && (ri_read_index r =? 1) | _ => false end) ;;
    b ← gets (ready read_index); assert (negb b) ;;
    leader_gets 1 1 (read_response 1 read_index) ;;
    b ← gets (ready read_index); assert b ;;
    '(l, c) ← state; assert (can_serve_reads l c)).

Definition stale_read_index_response_is_ignored : bool :=
  passes leader_and_core (
    one_applied ;;
    '(read_index, _) ← request_read ≫= unwrap_ok;
    leader_gets 1 1 (read_response 99 read_index) ;;
    b ← gets (ready read_index); assert (negb b)).

Definition pending_read_index_retries_on_heartbeat : bool :=
  passes leader_and_core (
    one_applied ;;
    '(read_index, _) ← request_read ≫= unwrap_ok;
    modify (fun '(l, c) => (set_heartbeat_deadline l (ticks c), c)) ;;
    result ← leader_step Tick;
    let retries := List.filter (fun m => match msg_payload m with
                                         | ReadIndexReq _ => true | _ => false end)
                     (messages (effects result)) in
    assert (length retries =? 2)%nat ;;
    leader_gets 1 1 (read_response 1 read_index) ;;
    b ← gets (ready read_index); assert b).

Definition read_index_uses_request_configuration_for_quorum : bool :=
  passes leader_and_core (
    one_applied ;;
    '(read_index, _) ← request_read ≫= unwrap_ok;
    modify (with_entry (mkEntry 1 2 (ConfigPayload (simple [0; 1; 2; 3])))) ;;
    c ← the_core; assert (Membership.is_voter (effective_config c) 3) ;;
    leader_gets 1 1 (read_response 1 read_index) ;;
    b ← gets (ready read_index); assert b).

Definition read_index_returns_confirmed_index : bool :=
  passes lone_test_leader (
    leader_propose [Byte.x01] ;;
    leader_propose [Byte.x02] ;;
    leader_propose [Byte.x03] ;;
    modify (fun '(l, c) => (l, set_last_applied c 3)) ;;
    c ← the_core; assert (commit_index c =? 3) ;;
    '(read_index, _) ← request_read ≫= unwrap_ok;
    assert (read_index =? 3) ;;
    '(l, _) ← state; assert (Leader.read_index l =? 3)).

Definition leader_tests : list bool :=
  [new_leader_sends_heartbeats; leader_initializes_indices; heartbeat_on_tick;
   propose_appends_and_replicates; single_node_commits_immediately; commits_on_majority_ack;
   retries_on_rejection; leader_steps_down_on_higher_term; only_commits_current_term_entries;
   denies_vote_as_leader; detects_slow_follower_needing_snapshot;
   sends_append_when_entries_available; install_snapshot_response_advances_follower_progress;
   stale_install_snapshot_response_does_not_regress_progress;
   cannot_serve_reads_without_current_term_commit;
   can_serve_reads_after_current_term_commit_and_quorum; read_index_waits_for_heartbeat_quorum;
   stale_read_index_response_is_ignored; pending_read_index_retries_on_heartbeat;
   read_index_uses_request_configuration_for_quorum; read_index_returns_confirmed_index].

(** ** [log.rs]

    The value under test is a log. *)

Definition entry (t i : N) : Entry := small_command t i.
Definition config_entry (t i : N) (vs : list N) : Entry := mkEntry t i (ConfigPayload (simple vs)).

Definition push (e : Entry) : Test Log unit := modify (fun l => append l e).
Definition push_all (t : N) (n : nat) : Test Log unit :=
  for_each (seqN 1 n) (fun i => push (entry t i)).
(** [assert_eq!(log.f(), n)] *)
Definition reads (f : Log -> N) (n : N) : Test Log unit := x ← gets f; assert (x =? n).
Definition holds_entry (i : N) (present : bool) : Test Log unit :=
  e ← gets (fun l => Log.get l i); assert (eqb (is_some e) present).
Definition config_is (i : N) (vs : list N) : Test Log unit :=
  c ← gets (fun l => Log.config_at l i); assert (bool_decide (c = Some (simple vs))).
Definition no_config (i : N) : Test Log unit :=
  c ← gets (fun l => Log.config_at l i); assert (negb (is_some c)).
Definition index_at (s : list Entry) (k : nat) (i : N) : Test Log unit :=
  e ← unwrap (s !! k); assert (e_index e =? i).

Definition empty_log : bool :=
  passes Log_default (
    reads last_index 0 ;; reads last_term 0 ;;
    reads (fun l => term_at l 0) 0 ;; reads (fun l => term_at l 1) 0 ;;
    holds_entry 0 false ;; holds_entry 1 false).

Definition append_and_access : bool :=
  passes Log_default (
    push (entry 1 1) ;; push (entry 1 2) ;; push (entry 2 3) ;;
    reads last_index 3 ;; reads last_term 2 ;;
    reads (fun l => term_at l 1) 1 ;; reads (fun l => term_at l 2) 1 ;;
    reads (fun l => term_at l 3) 2 ;;
    e ← gets (fun l => Log.get l 2) ≫= unwrap; assert (e_term e =? 1)).

Definition log_truncate : bool :=
  passes Log_default (
    push (entry 1 1) ;; push (entry 1 2) ;; push (entry 2 3) ;;
    modify (fun l => truncate_after l 1) ;;
    reads last_index 1 ;; reads last_term 1 ;;
    modify (fun l => truncate_after l 0) ;;
    b ← gets Log.is_empty; assert b).

Definition slice_entries : bool :=
  passes Log_default (
    push_all 1 5 ;;
    s ← gets (fun l => slice l 2 4);
    assert (length s =? 3)%nat ;; index_at s 0 2 ;; index_at s 2 4).

(** Two logs side by side. *)
Definition log_matching_invariant : bool :=
  passes (Log_default, Log_default) (
    for_each (seqN 1 3) (fun i =>
      modify (fun '(l1, l2) => (append l1 (entry 1 i), append l2 (entry 1 i)))) ;;
    '(l1, l2) ← state;
    assert (term_at l1 3 =? term_at l2 3) ;;
    for_each (seqN 1 3) (fun i => assert (term_at l1 i =? term_at l2 i))).

Definition config_at_finds_latest : bool :=
  passes Log_default (
    no_config 0 ;; no_config 10 ;;
    push (entry 1 1) ;; push (config_entry 1 2 [0; 1]) ;; push (entry 1 3) ;;
    push (config_entry 1 4 [0; 1; 2]) ;; push (entry 1 5) ;;
    no_config 1 ;;
    config_is 2 [0; 1] ;; config_is 3 [0; 1] ;; config_is 4 [0; 1; 2]).

Definition log_pending_config_index : bool :=
  let pending (commit : N) (o : option N) : Test Log unit :=
    i ← gets (fun l => Log.pending_config_index l commit); assert (bool_decide (i = o)) in
  passes Log_default (
    pending 0 None ;;
    push (entry 1 1) ;; push (config_entry 1 2 [0]) ;; push (entry 1 3) ;;
    pending 0 (Some 2) ;; pending 1 (Some 2) ;; pending 2 None ;; pending 3 None).

Definition snapshot_metadata_initial : bool :=
  passes Log_default (reads snapshot_index 0 ;; reads snapshot_term 0).

Definition truncate_prefix_basic : bool :=
  passes Log_default (
    push_all 1 5 ;;
    modify (fun l => truncate_prefix l 2 1) ;;
    reads snapshot_index 2 ;; reads snapshot_term 1 ;;
    holds_entry 1 false ;; holds_entry 2 false ;; holds_entry 3 true ;;
    e ← gets (fun l => Log.get l 3) ≫= unwrap; assert (e_index e =? 3) ;;
    holds_entry 5 true ;;
    reads last_index 5 ;; reads last_term 1).

Definition truncate_prefix_all_entries : bool :=
  passes Log_default (
    push_all 2 3 ;;
    modify (fun l => truncate_prefix l 3 2) ;;
    reads snapshot_index 3 ;; reads snapshot_term 2 ;;
    holds_entry 3 false ;;
    reads last_index 3 ;; reads last_term 2).

Definition term_at_with_snapshot : bool :=
  passes Log_default (
    for_each (seqN 1 5) (fun i => push (entry i i)) ;;
    modify (fun l => truncate_prefix l 2 2) ;;
    for_each [(0, 0); (1, 0); (2, 2); (3, 3); (5, 5)]
      (fun '(i, t) => reads (fun l => term_at l i) t)).

Definition slice_with_snapshot : bool :=
  passes Log_default (
    push_all 1 5 ;;
    modify (fun l => truncate_prefix l 2 1) ;;
    s ← gets (fun l => slice l 1 5);
    assert (length s =? 3)%nat ;; index_at s 0 3 ;;
    s ← gets (fun l => slice l 3 4);
    assert (length s =? 2)%nat ;; index_at s 0 3 ;; index_at s 1 4).

Definition append_after_snapshot : bool :=
  passes Log_default (
    push_all 1 3 ;;
    modify (fun l => truncate_prefix l 3 1) ;;
    push (entry 2 4) ;;
    reads last_index 4 ;; reads last_term 2 ;; holds_entry 4 true).

Definition first_index_with_snapshot : bool :=
  passes Log_default (
    push_all 1 5 ;;
    reads first_index 1 ;;
    modify (fun l => truncate_prefix l 3 1) ;;
    reads first_index 4).

Definition first_index_empty_after_snapshot : bool :=
  passes Log_default (
    push_all 1 3 ;;
    modify (fun l => truncate_prefix l 3 1) ;;
    reads first_index 4).

Definition truncate_prefix_preserves_snapshot_configuration : bool :=
  passes Log_default (
    push (entry 1 1) ;; push (config_entry 1 2 [0; 1]) ;; push (entry 1 3) ;;
    modify (fun l => truncate_prefix l 2 1) ;;
    config_is 2 [0; 1] ;; config_is 3 [0; 1]).

Definition install_snapshot_retains_matching_suffix : bool :=
  passes Log_default (
    push_all 1 5 ;;
    modify (fun l => install_snapshot l 3 1 (simple [0])) ;;
    reads snapshot_index 3 ;; reads last_index 5 ;; reads (fun l => term_at l 3) 1 ;;
    holds_entry 4 true ;; holds_entry 5 true).

Definition install_snapshot_discards_conflicting_suffix : bool :=
  passes Log_default (
    push_all 1 5 ;;
    modify (fun l => install_snapshot l 3 2 (simple [0])) ;;
    reads snapshot_index 3 ;; reads snapshot_term 2 ;; reads last_index 3 ;;
    b ← gets Log.is_empty; assert b).

Definition log_tests : list bool :=
  [empty_log; append_and_access; log_truncate; slice_entries; log_matching_invariant;
   config_at_finds_latest; log_pending_config_index; snapshot_metadata_initial;
   truncate_prefix_basic; truncate_prefix_all_entries; term_at_with_snapshot;
   slice_with_snapshot; append_after_snapshot; first_index_with_snapshot;
   first_index_empty_after_snapshot; truncate_prefix_preserves_snapshot_configuration;
   install_snapshot_retains_matching_suffix; install_snapshot_discards_conflicting_suffix].

(** ** [membership.rs]

    The configurations are values: nothing is threaded. *)

#[global] Instance ConfigChangeError_eq_dec : EqDecision ConfigChangeError.
Proof. solve_decision. Defined.

(** [has_quorum] of the votes of the nodes [ids]. *)
Definition quorum_of (c : Configuration) (ids : list N) : bool :=
  Membership.has_quorum c (fun id => existsb (N.eqb id) ids).
Definition accepts (change : ConfigChange) (c : Configuration) (mode : MembershipMode) : bool :=
  match validate change c mode with Ok _ => true | Err _ => false end.
Definition refuses (change : ConfigChange) (c : Configuration) (mode : MembershipMode)
    (p : ConfigChangeError -> bool) : bool :=
  match validate change c mode with Ok _ => false | Err e => p e end.
Definition refuses_with change c mode (e : ConfigChangeError) : bool :=
  refuses change c mode (fun e' => bool_decide (e' = e)).
(** [Members::new(..).unwrap()] *)
Definition with_new_members (vs ls : list N) (k : ConfigChange -> bool) : bool :=
  match Members_new vs ls with Ok m => k (SetMembers m) | Err _ => false end.

Definition simple_config_quorum : bool :=
  let config := simple [0; 1; 2] in
  negb (Membership.has_quorum config (fun _ => false)) && negb (quorum_of config [0])
  && quorum_of config [0; 1] && Membership.has_quorum config (fun _ => true).

Definition joint_config_quorum : bool :=
  let config := joint [0; 1; 2] [1; 2; 3] in
  negb (quorum_of config [1]) && quorum_of config [1; 2] && negb (quorum_of config [0; 1])
  && negb (quorum_of config [1; 3]) && quorum_of config [0; 1; 3].

Definition membership_single_server_add_voter : bool :=
  let current := simple_with_learners [0; 1] [2] in
  let change := AddVoter 2 in
  accepts change current SingleServer
  && bool_decide (apply change current SingleServer = simple [0; 1; 2]).

Definition membership_single_server_remove_voter : bool :=
  let current := simple [0; 1; 2] in
  let change := RemoveVoter 2 in
  accepts change current SingleServer
  && bool_decide (apply change current SingleServer = simple [0; 1]).

Definition single_server_rejects_multiple_changes : bool :=
  with_new_members [2; 3] [] (fun change =>
    refuses change (simple [0; 1]) SingleServer
      (fun e => match e with NotSingleChange _ _ => true | _ => false end)).

Definition joint_consensus_creates_joint_config : bool :=
  let current := simple [0; 1] in
  with_new_members [2; 3] [] (fun change =>
    accepts change current JointConsensus
    && let new := apply change current JointConsensus in
       is_joint new && bool_decide (new = joint [0; 1] [2; 3])).

Definition rejects_change_during_joint : bool :=
  refuses_with (AddVoter 3) (joint [0; 1] [1; 2]) JointConsensus ChangeInProgress.

Definition rejects_duplicate_add : bool :=
  refuses_with (AddVoter 1) (simple [0; 1]) SingleServer (AlreadyVoter 1).

Definition rejects_remove_nonvoter : bool :=
  refuses_with (RemoveVoter 2) (simple [0; 1]) SingleServer (NotVoter 2).

Definition rejects_empty_cluster : bool :=
  refuses_with (RemoveVoter 0) (simple [0]) SingleServer WouldBeEmpty.

Definition membership_transition_target : bool :=
  negb (is_some (transition_target (simple_with_learners [0] [5])))
  && bool_decide (transition_target (joint [0; 1] [1; 2])
                  = Some (simple_with_learners [1; 2] [])).

Definition membership_voter_membership : bool :=
  let membership := voter_membership (joint [0; 1] [1; 2]) in
  let contains (x : N * bool * bool) := bool_decide (x ∈ membership) in
  contains (0, true, false) && contains (1, true, true) && contains (2, false, true).

Definition learners_can_be_added_and_promoted : bool :=
  let cfg := apply (AddLearner 1) (simple [0]) SingleServer in
  Membership.is_learner cfg 1 && negb (Membership.is_voter cfg 1)
  && let cfg := apply (AddVoter 1) cfg SingleServer in
     Membership.is_voter cfg 1 && negb (Membership.is_learner cfg 1).

Definition add_learner_rejects_duplicates : bool :=
  refuses_with (AddLearner 1) (simple_with_learners [0] [1]) SingleServer (AlreadyLearner 1).

Definition rejects_no_op_set_members : bool :=
  let current := simple_with_learners [0; 1] [2] in
  with_new_members [0; 1] [2] (fun change =>
    refuses_with change current SingleServer NoChange
    && refuses_with change current JointConsensus NoChange).

Definition membership_tests : list bool :=
  [simple_config_quorum; joint_config_quorum; membership_single_server_add_voter;
   membership_single_server_remove_voter; single_server_rejects_multiple_changes;
   joint_consensus_creates_joint_config; rejects_change_during_joint; rejects_duplicate_add;
   rejects_remove_nonvoter; rejects_empty_cluster; membership_transition_target;
   membership_voter_membership; learners_can_be_added_and_promoted;
   add_learner_rejects_duplicates; rejects_no_op_set_members].

(** ** [core.rs] and [event.rs] *)

Definition test_core : Core := Core_new (Config_new 0) [0; 1; 2].

Definition config_basics : bool :=
  let config := simple [0; 1; 2] in
  (voter_count config =? 3)%nat && ((quorum_sizes config).1 =? 2)%nat
  && Membership.is_voter config 1 && negb (is_member config 99).

Definition config_peers : bool :=
  bool_decide (voter_peers (simple [0; 1; 2]) 1 = [0; 2]).

Definition core_term_monotonicity : bool :=
  let update t := call (fun c => maybe_update_term c t) in
  let at_ t : Test Core unit := x ← gets term; assert (x =? t) in
  passes test_core (
    at_ 0 ;;
    b ← update 5; assert b ;; at_ 5 ;;
    b ← update 3; assert (negb b) ;; at_ 5 ;;
    b ← update 5; assert (negb b)).

Definition may_vote (id : N) (allowed : bool) : Test Core unit :=
  b ← gets (fun c => can_vote_for c id); assert (eqb b allowed).

Definition voting : bool :=
  passes (core_set_term test_core 1) (
    may_vote 1 true ;;
    modify (fun c => vote_for c 1) ;;
    may_vote 2 false ;; may_vote 1 true).

Definition term_update_clears_vote : bool :=
  passes (core_set_term test_core 1) (
    modify (fun c => vote_for c 1) ;;
    ignore (call (fun c => maybe_update_term c 2)) ;;
    may_vote 2 true).

Definition log_up_to_date : bool :=
  let up_to_date t i (expected : bool) : Test Core unit :=
    b ← gets (fun c => log_is_up_to_date c t i); assert (eqb b expected) in
  passes test_core (
    up_to_date 0 0 true ;; up_to_date 1 1 true ;;
    modify (core_append (mkEntry 2 1 (CommandPayload []))) ;;
    up_to_date 2 1 true ;; up_to_date 3 0 true ;; up_to_date 2 5 true ;;
    up_to_date 1 100 false).

Definition timeout_now_message : Message := mkMessage 0 1 1 TimeoutNow.

Definition effects_builder : bool :=
  let e := with_message (with_persist none) timeout_now_message in
  persist e && (length (messages e) =? 1)%nat.

Definition effects_merge : bool :=
  let merged := merge (with_persist none) (with_message none timeout_now_message) in
  persist merged && (length (messages merged) =? 1)%nat.

Definition core_tests : list bool :=
  [config_basics; config_peers; core_term_monotonicity; voting; term_update_clears_vote;
   log_up_to_date; effects_builder; effects_merge].

Definition role_tests : list bool :=
  follower_tests ++ candidate_tests ++ precandidate_tests ++ leader_tests ++ log_tests
  ++ membership_tests ++ core_tests.

(** The models of the roles, the log, the memberships and the core pass every unit test
    that the files of the automaton hold beside [raft/mod.rs]. *)
Lemma role_tests_pass : Forall (fun t => t = true) role_tests.
Proof. vm_compute. repeat constructor. Qed.
