(* ===== verification/StorageTests.v ===== *)
(** * StorageTests: the tests of the write-ahead log

    One definition per test of [basisdb-wal/src/tests.rs] and of the test module of
    [basisdb-wal/src/wal.rs], with the name of the test.  A test works on a directory and
    the handle it has open on it; the checksum is the CRC-32 that [crc32fast] documents.
    [storage_tests_pass] evaluates them. *)

From S2P Require Import Prelude.
From S2P Require Import WalFormat.
From S2P Require Import Segment.
From S2P Require Import Wal.
From S2P Require Import Testing.

(** ** The temporary directory and the open handle *)

Record Disk : Type := mkDisk {
  on_disk : Dir;
  handle : option Wal
}.

(** [tempfile::tempdir()] *)
Definition tempdir : Disk := mkDisk ∅ None.

(** The directory as the open handle left it. *)
Definition disk_dir (s : Disk) : Dir :=
  match handle s with Some w => dir w | None => on_disk s end.

Definition try_open (o : WalOptions) : Test Disk (result unit WalError) := fun s =>
  let '(d, r) := open (disk_dir s) (is_some (handle s)) o no_faults in
  match r with
  | Ok w => Some (Ok tt, mkDisk d (Some w))
  | Err e => Some (Err e, mkDisk d (match handle s with
                                    | Some w => Some (set_dir w d) | None => None end))
  end.
Definition open_wal (o : WalOptions) : Test Disk unit := try_open o ≫= unwrap_ok.
Definition open_err (o : WalOptions) : Test Disk WalError := try_open o ≫= unwrap_err.

(** [drop(wal)], which releases the lock. *)
Definition drop_wal : Test Disk unit := modify (fun s => mkDisk (disk_dir s) None).

Definition the_wal : Test Disk Wal := s ← state; unwrap (handle s).
Definition set_wal (w : Wal) : Test Disk unit := put (mkDisk (dir w) (Some w)).

(** [kind(value)] and [payload(value)] *)
Definition record_kind (value : N) : Test Disk RecordKind := unwrap_ok (RecordKind_new value).
Definition eight (value : N) : bytes := replicate 8 (byte_of value).

Definition append_with (f : Faults) (k value : N) : Test Disk (result Lsn WalError) :=
  k ← record_kind k;
  w ← the_wal;
  let '(w, r) := append w k (eight value) f in
  set_wal w ;; mret r.
Definition try_append (k value : N) : Test Disk (result Lsn WalError) := append_with no_faults k value.
Definition append_record (k value : N) : Test Disk Lsn := try_append k value ≫= unwrap_ok.
Definition sync_wal : Test Disk unit :=
  w ← the_wal;
  let '(w, r) := sync w true in
  set_wal w ;; unwrap_ok r.
Definition read_all : Test Disk (list StoredRecord) := w ← the_wal; unwrap_ok (all_records w).

(** Access to a segment file behind the log's back. *)
Definition edit_segment (id : N) (f : bytes -> bytes) : Test Disk unit :=
  s ← state;
  file ← unwrap (disk_dir s !! segment_path id);
  let bs := f (data file) in
  put (mkDisk (<[segment_path id := mkWalFile bs (length bs) (linked file)]> (disk_dir s)) None).
Definition segment_file_len (id : N) : Test Disk N :=
  s ← state; file ← unwrap (disk_dir s !! segment_path id); mret (N.of_nat (length (data file))).
Definition create_file (id : N) : Test Disk unit :=
  modify (fun s => mkDisk (<[segment_path id := new_file]> (disk_dir s)) None).

Definition sized (size : N) : WalOptions := mkWalOptions size DEFAULT_MAX_SIZE false.
Definition default_options : WalOptions := WalOptions_default.

(** ** [tests.rs] *)

Definition append_and_recover_records : bool :=
  passes tempdir (
    open_wal default_options ;;
    first ← append_record 1 1;
    second ← append_record 2 2;
    sync_wal ;; drop_wal ;;
    open_wal default_options ;;
    records ← read_all;
    assert (length records =? 2)%nat ;;
    r0 ← unwrap (records !! 0%nat);
    r1 ← unwrap (records !! 1%nat);
    assert (bool_decide (sr_lsn r0 = first)) ;;
    assert (kind (sr_record r0) =? 1) ;;
    assert (bool_decide (sr_lsn r1 = second)) ;;
    assert (bool_decide (payload (sr_record r1) = eight 2))).

Definition rotates_segments : bool :=
  passes tempdir (
    open_wal (sized 96) ;;
    first ← append_record 1 1;
    second ← append_record 1 2;
    third ← append_record 1 3;
    sync_wal ;; drop_wal ;;
    assert (segment_id first =? 0) ;;
    assert (segment_id second =? 0) ;;
    assert (segment_id third =? 1) ;;
    open_wal (sized 96) ;;
    records ← read_all;
    assert (bool_decide ((fun r => head (payload (sr_record r))) <$> records
                         = [Some Byte.x01; Some Byte.x02; Some Byte.x03]))).

Definition recovery_truncates_incomplete_tail : bool :=
  passes tempdir (
    open_wal default_options ;;
    append_record 1 1 ;;
    sync_wal ;; drop_wal ;;
    edit_segment 0 (fun bs => bs ++ [Byte.x01; Byte.x02; Byte.x03]) ;;
    open_wal default_options ;;
    records ← read_all;
    assert (length records =? 1)%nat ;;
    r0 ← unwrap (records !! 0%nat);
    assert (bool_decide (payload (sr_record r0) = eight 1)) ;;
    len ← segment_file_len 0;
    assert (len =? HEADER_LEN + 8)).

Definition invariant_recovery_never_discards_later_segments : bool :=
  passes tempdir (
    open_wal (sized 40) ;;
    append_record 1 1 ;;
    append_record 1 2 ;;
    sync_wal ;; drop_wal ;;
    edit_segment 0 (take 39) ;;
    err ← open_err (sized 40);
    assert (match err with
            | CorruptRecord lsn IncompleteRecord => bool_decide (lsn = mkLsn 0 0)
            | _ => false end) ;;
    len ← segment_file_len 1;
    assert (len =? 40)).

Definition recovery_rejects_checksum_corruption : bool :=
  passes tempdir (
    open_wal default_options ;;
    append_record 1 1 ;;
    sync_wal ;; drop_wal ;;
    edit_segment 0 (fun bs => <[N.to_nat HEADER_LEN := Byte.x09]> bs) ;;
    err ← open_err default_options;
    assert (match err with CorruptRecord _ PayloadChecksum => true | _ => false end)).

Definition recovery_rejects_missing_segment : bool :=
  passes tempdir (
    create_file 0 ;;
    create_file 2 ;;
    err ← open_err default_options;
    assert (match err with MissingSegment 1 2 => true | _ => false end)).

Definition recovery_rejects_record_larger_than_segment : bool :=
  passes tempdir (
    open_wal (sized 40) ;;
    append_record 1 1 ;;
    sync_wal ;; drop_wal ;;
    err ← open_err (sized 39);
    assert (match err with
            | CorruptRecord _ (CorruptRecordTooLarge 40 39) => true | _ => false end)).

Definition rejects_reserved_kind : bool :=
  match RecordKind_new 0 with Err ReservedRecordKind => true | _ => false end.

Definition rejects_records_larger_than_segment : bool :=
  passes tempdir (
    open_wal (sized 39) ;;
    err ← try_append 1 1 ≫= unwrap_err;
    assert (match err with RecordTooLarge _ _ => true | _ => false end)).

(** A directory in the place of the next segment file makes its creation fail. *)
Definition occupied : Faults := mkFaults true false true None true true.

Definition invariant_failed_rotation_preserves_active_segment : bool :=
  passes tempdir (
    open_wal (sized 40) ;;
    append_record 1 1 ;;
    append_with occupied 1 2 ≫= unwrap_err ;;
    lsn ← append_record 1 2;
    assert (segment_id lsn =? 1)).

Definition invariant_wal_has_single_writer : bool :=
  passes tempdir (
    open_wal default_options ;;
    open_err default_options ;;
    drop_wal ;;
    open_wal default_options).

Definition invariant_recovery_enforces_segment_size : bool :=
  passes tempdir (
    open_wal (sized 120) ;;
    for_each (seqN 0 3) (fun value => ignore (append_record 1 value)) ;;
    sync_wal ;; drop_wal ;;
    err ← open_err (sized 80);
    assert (match err with
            | CorruptRecord _ (SegmentTooLarge 120 80) => true | _ => false end)).

Definition invariant_wal_capacity_is_bounded : bool :=
  passes tempdir (
    open_wal (mkWalOptions 80 80 false) ;;
    append_record 1 1 ;;
    append_record 1 2 ;;
    err ← try_append 1 3 ≫= unwrap_err;
    assert (match err with WalFull _ _ => true | _ => false end)).

(** ** [wal.rs]

    The [PartialWriter] writes one byte and fails. *)

Definition invariant_partial_write_invalidates_handle : bool :=
  passes tempdir (
    open_wal default_options ;;
    w ← the_wal;
    let '(w, r) := write_or_poison w [Byte.x01; Byte.x02] (Some 1%nat) in
    unwrap_err r ;;
    assert (poisoned w)).

Definition storage_tests : list bool :=
  [append_and_recover_records; rotates_segments; recovery_truncates_incomplete_tail;
   invariant_recovery_never_discards_later_segments; recovery_rejects_checksum_corruption;
   recovery_rejects_missing_segment; recovery_rejects_record_larger_than_segment;
   rejects_reserved_kind; rejects_records_larger_than_segment;
   invariant_failed_rotation_preserves_active_segment; invariant_wal_has_single_writer;
   invariant_recovery_enforces_segment_size; invariant_wal_capacity_is_bounded;
   invariant_partial_write_invalidates_handle].

(** The model of the write-ahead log passes every test of the crate: recovery of what was
    appended, rotation, the torn tail, each kind of corruption, the single writer, and the
    bounds on records, segments and the whole log. *)
Lemma storage_tests_pass : Forall (fun t => t = true) storage_tests.
Proof. vm_compute. repeat constructor. Qed.
