(* ===== verification/NodeTests.v ===== *)
(** * NodeTests: the tests of the node and of its libraries

    One definition per test of [consensus/basisdb-raft-io/src/session.rs] and
    [read_index.rs], of [basisdb-node/src/browse.rs], [auth.rs], [runtime.rs] and
    [tests.rs], and of [basisdb/src/main.rs], with the name of the test; where two files
    have a test of the same name, the definition carries the part's name first.
    [node_tests_pass] evaluates them.

    Left out are the tests whose subject is a library outside the repository: the
    [serde_json] size and round trip, the command line parser, the strength of
    HMAC-SHA256, and the cancellation of a task within one operation of the runtime. *)

From S2P Require Import Prelude.
From S2P Require Import Types.
From S2P Require Import Membership.
From S2P Require Import Event.
From S2P Require Import Core.
From S2P Require Import Node.
From S2P Require Import Kv.
From S2P Require Import Browse.
From S2P Require Import Sessions.
From S2P Require Import ReadIndex.
From S2P Require Import Auth.
From S2P Require Import Settings.
From S2P Require Import Runtime.
From S2P Require Import Cluster.
From S2P Require Import Service.
From S2P Require Import Server.
From S2P Require Import Testing.

(** ** [session.rs] *)

Definition fresh_tracker : SessionTracker bytes := Sessions.new.
Definition register : Test (SessionTracker bytes) N := call register_client.
Definition complete_request (client sequence : N) (response : string)
  : Test (SessionTracker bytes) unit :=
  modify (fun t => record_completion t client sequence (literal response)).
Definition check (client sequence : N) : Test (SessionTracker bytes) (DuplicateCheck bytes) :=
  gets (fun t => check_duplicate t client sequence).
Definition is_new (d : DuplicateCheck bytes) : bool := match d with New => true | _ => false end.
Definition is_stale (d : DuplicateCheck bytes) : bool := match d with Stale => true | _ => false end.
Definition is_duplicate (response : string) (d : DuplicateCheck bytes) : bool :=
  match d with Duplicate r => bool_decide (r = literal response) | _ => false end.

Definition register_client_returns_unique_ids : bool :=
  passes fresh_tracker (
    id1 ← register;
    id2 ← register;
    id3 ← register;
    assert (negb (id1 =? id2)) ;; assert (negb (id2 =? id3)) ;; assert (negb (id1 =? id3))).

Definition new_request_returns_new : bool :=
  passes fresh_tracker (
    client ← register;
    d ← check client 1;
    assert (is_new d)).

Definition duplicate_request_returns_cached_response : bool :=
  passes fresh_tracker (
    client ← register;
    complete_request client 1 "response1" ;;
    d ← check client 1;
    assert (is_duplicate "response1" d)).

Definition stale_request_detected : bool :=
  passes fresh_tracker (
    client ← register;
    complete_request client 5 "response5" ;;
    d ← check client 3;
    assert (is_stale d)).

Definition higher_sequence_is_new : bool :=
  passes fresh_tracker (
    client ← register;
    complete_request client 1 "response1" ;;
    d ← check client 2;
    assert (is_new d)).

Definition expire_session_removes_client : bool :=
  passes fresh_tracker (
    client ← register;
    b ← gets (fun t => is_registered t client); assert b ;;
    b ← call (fun t => expire_session t client); assert b ;;
    b ← gets (fun t => is_registered t client); assert (negb b)).

Definition unknown_client_treated_as_new : bool :=
  passes fresh_tracker (
    d ← check 999 1;
    assert (is_new d)).

Definition session_request_creation : bool :=
  let req := SessionRequest_new 1 42 (literal "payload") in
  (sr_client_id _ req =? 1) && (sr_sequence _ req =? 42)
  && bool_decide (payload _ req = literal "payload").

Definition record_completion_ignores_lower_sequence : bool :=
  passes fresh_tracker (
    client ← register;
    complete_request client 5 "response5" ;;
    complete_request client 3 "response3" ;;
    s ← gets (fun t => last_sequence t client);
    assert (bool_decide (s = Some 5)) ;;
    d ← check client 5;
    assert (is_duplicate "response5" d)).

Definition session_tests : list bool :=
  [register_client_returns_unique_ids; new_request_returns_new;
   duplicate_request_returns_cached_response; stale_request_detected; higher_sequence_is_new;
   expire_session_removes_client; unknown_client_treated_as_new; session_request_creation;
   record_completion_ignores_lower_sequence].

(** ** [read_index.rs] *)

Definition coordinator : ReadIndexCoordinator := ReadIndex.new 0 [0; 1; 2].
Definition read (index : N) : Test ReadIndexCoordinator N := call (fun c => request_read c index).
Definition begin_round : Test ReadIndexCoordinator unit := modify begin_heartbeat_round.
Definition ack (from : N) : Test ReadIndexCoordinator unit := modify (fun c => record_ack c from).
(** [poll_completed().collect()] *)
Definition poll : Test ReadIndexCoordinator (list ReadIndexResult) := call poll_completed.
Definition pending_is (n : nat) : Test ReadIndexCoordinator unit :=
  k ← gets pending_count; assert (k =? n)%nat.
Definition polls (n : nat) : Test ReadIndexCoordinator (list ReadIndexResult) :=
  results ← poll; assert (length results =? n)%nat ;; mret results.
Definition first_is (results : list ReadIndexResult) (id : N) : Test ReadIndexCoordinator unit :=
  r ← unwrap (results !! 0%nat); assert (res_id r =? id).

Definition request_read_returns_unique_ids : bool :=
  passes coordinator (
    id1 ← read 10;
    id2 ← read 15;
    id3 ← read 20;
    assert (negb (id1 =? id2)) ;; assert (negb (id2 =? id3)) ;; assert (negb (id1 =? id3))).

Definition read_completes_on_quorum : bool :=
  passes coordinator (
    id ← read 42;
    pending_is 1 ;;
    begin_round ;;
    ack 1 ;;
    results ← polls 1;
    first_is results id ;;
    r ← unwrap (results !! 0%nat); assert (res_read_index r =? 42) ;;
    pending_is 0).

Definition read_does_not_complete_without_quorum : bool :=
  passes coordinator (
    read 42 ;;
    begin_round ;;
    polls 0 ;;
    pending_is 1).

Definition multiple_reads_complete_together : bool :=
  passes coordinator (
    id1 ← read 10;
    id2 ← read 20;
    id3 ← read 30;
    begin_round ;;
    ack 1 ;;
    results ← polls 3;
    assert (forallb (fun id => bool_decide (id ∈ res_id <$> results)) [id1; id2; id3])).

Definition single_node_cluster_completes_immediately : bool :=
  passes (ReadIndex.new 0 [0]) (
    id ← read 42;
    begin_round ;;
    results ← polls 1;
    first_is results id).

Definition duplicate_acks_ignored : bool :=
  passes coordinator (
    read 42 ;;
    begin_round ;;
    ack 1 ;; ack 1 ;;
    polls 1).

Definition non_voter_acks_ignored : bool :=
  passes coordinator (
    read 42 ;;
    begin_round ;;
    ack 99 ;;
    polls 0).

Definition clear_drops_pending_reads : bool :=
  passes coordinator (
    read 10 ;; read 20 ;; read 30 ;;
    pending_is 3 ;;
    dropped ← call clear;
    assert (dropped =? 3)%nat ;;
    pending_is 0).

Definition new_round_associates_pending_reads : bool :=
  passes coordinator (
    id ← read 42;
    begin_round ;;
    polls 0 ;;
    begin_round ;;
    ack 1 ;;
    results ← polls 1;
    first_is results id).

Definition five_node_cluster_requires_three_acks : bool :=
  passes (ReadIndex.new 0 [0; 1; 2; 3; 4]) (
    read 42 ;;
    begin_round ;;
    ack 1 ;;
    polls 0 ;;
    ack 2 ;;
    results ← poll;
    assert (negb (length results =? 0)%nat)).

Definition read_index_tests : list bool :=
  [request_read_returns_unique_ids; read_completes_on_quorum;
   read_does_not_complete_without_quorum; multiple_reads_complete_together;
   single_node_cluster_completes_immediately; duplicate_acks_ignored; non_voter_acks_ignored;
   clear_drops_pending_reads; new_round_associates_pending_reads;
   five_node_cluster_requires_three_acks].

(** ** [browse.rs] *)

(** [KvName::new(..).unwrap()] of names the tests use. *)
Definition name_of (namespace key : string) : KvName :=
  match KvName_new (literal namespace) (literal key) with Ok n => n | Err _ => mkKvName [] [] end.

Definition fixture : KvState :=
  foldl (fun st '(namespace, key) =>
    Kv.set_entries st (<[name_of namespace key := mkKvRecord (repeat Byte.x2a 4) (literal "v1") 1]>
                         (entries st)))
    Kv.new (namespace ← ["alpha"; "beta"; "gamma"];
            key ← ["user/2"; "user/1"; "config"; "user/3"]; [(namespace, key)]).

(** Listings of the fixture. *)
Definition list_page (namespace prefix : string) (start_after : bytes) (limit : nat)
  : Test KvState (list HeadResponse * bytes) :=
  st ← state;
  unwrap (list_entries st (literal namespace) (literal prefix) start_after limit) ≫= unwrap_ok.
Definition namespace_page_of (start_after : bytes) (limit : nat)
  : Test KvState (list Namespace * bytes) :=
  st ← state; unwrap (namespaces st start_after limit) ≫= unwrap_ok.

Definition invariant_pages_partition_matching_keys_without_value_bodies : bool :=
  passes fixture (
    '(first, next) ← list_page "beta" "user/" [] 2;
    assert (bool_decide (h_key <$> first = literal <$> ["user/1"; "user/2"])) ;;
    assert (bool_decide (next = literal "user/2")) ;;
    assert (forallb (fun row => bool_decide (h_namespace row = literal "beta") && (h_size row =? 4))
              first) ;;
    '(second, next) ← list_page "beta" "user/" next 2;
    assert (length second =? 1)%nat ;;
    row ← unwrap (second !! 0%nat);
    assert (bool_decide (h_key row = literal "user/3")) ;;
    assert (is_empty_str next) ;;
    '(rest, _) ← list_page "beta" "user/" (literal "zzz") 2;
    assert (length rest =? 0)%nat).

Definition invariant_namespace_pages_count_complete_namespaces : bool :=
  passes fixture (
    '(first, next) ← namespace_page_of [] 2;
    assert (bool_decide (ns_name <$> first = literal <$> ["alpha"; "beta"])) ;;
    assert (forallb (fun ns => key_count ns =? 4) first) ;;
    '(second, next) ← namespace_page_of next 2;
    ns ← unwrap (second !! 0%nat);
    assert (bool_decide (ns_name ns = literal "gamma")) ;;
    assert (is_empty_str next) ;;
    '(rest, _) ← namespace_page_of (literal "zzz") 2;
    assert (length rest =? 0)%nat).

Definition is_err {A E} (r : result A E) : bool := negb (is_ok r).

Definition invariant_unbounded_requests_are_rejected : bool :=
  (match page_limit 0 with Ok n => (n =? 50)%nat | Err _ => false end)
  && is_err (page_limit 101) && is_err (validate_list [] [] [])
  && is_err (validate_list (literal "a") (repeat Byte.x78 (S (N.to_nat MAX_KEY_BYTES))) [])
  && is_err (validate_namespace_cursor (repeat Byte.x78 (S (N.to_nat MAX_NAMESPACE_BYTES)))).

Definition browse_tests : list bool :=
  [invariant_pages_partition_matching_keys_without_value_bodies;
   invariant_namespace_pages_count_complete_namespaces;
   invariant_unbounded_requests_are_rejected].

(** ** [auth.rs]

    No signature is computed: [verify] refuses the malformed one before. *)

Definition no_hmac : HmacSha256 := fun _ _ => None.
Definition key_of (pair : string) : result RaftKey InvalidRaftKey :=
  from_hex (concat (repeat (literal pair) KEY_BYTES)).

Definition malformed_keys_and_signatures_are_rejected : bool :=
  is_err (from_hex (literal "short")) && is_err (key_of "zz")
  && match key_of "01" with
     | Ok key => negb (@verify no_hmac key (literal "message") (literal "invalid"))
     | Err _ => false
     end.

(** ** [runtime.rs] *)

(** An address is its port on the loopback host. *)
Definition test_node_config : NodeConfig :=
  mkNodeConfig 0 19090 19091 {[0 := 19091]}
    (match key_of "01" with Ok key => key | Err _ => [] end)
    (mkStorageOptions (literal "test") (literal "dir")) (raft_config 0).

Definition invariant_log_overwrite_cannot_complete_a_different_proposal : bool :=
  match complete (mkPendingProposal 1 (literal "original")) (literal "replacement") ReadBarrierDone with
  | Superseded => true
  | Applied _ => false
  end.

Definition config_refused (cfg : NodeConfig) (p : RuntimeError -> bool) : bool :=
  match validate_config cfg with Ok _ => false | Err e => p e end.

Definition invariant_runtime_identity_is_unambiguous : bool :=
  let c := test_node_config in
  let with_identity id raft_addr peers :=
    mkNodeConfig (nc_node_id c) (nc_client_addr c) raft_addr peers (nc_raft_key c) (nc_storage c)
      (raft_config id) in
  config_refused (with_identity 1 (nc_raft_addr c) (nc_peers c))
    (fun e => match e with IdentityMismatch _ _ => true | _ => false end)
  && config_refused (with_identity 0 19092 (nc_peers c))
    (fun e => match e with InvalidSelfPeer _ _ => true | _ => false end)
  && config_refused (with_identity 0 (nc_raft_addr c) (<[1 := nc_raft_addr c]> (nc_peers c)))
    (fun e => match e with DuplicatePeerAddress _ => true | _ => false end).

(** ** [tests.rs]: the state machine *)

Definition apply_kv (cmd : KvCommand) : Test KvState (result KvApplyResult ConnectError) :=
  call (fun st => Kv.apply st cmd).
Definition registered_client : Test KvState N :=
  r ← apply_kv RegisterSession ≫= unwrap_ok;
  match r with RegisteredSession id => mret id | _ => panic end.
Definition test_put (client_id sequence : N) (if_none_match : bool) : KvCommand :=
  Put client_id sequence (literal "test") (literal "key") (literal "value") [] if_none_match.

Definition invariant_committed_failure_is_idempotent : bool :=
  passes Kv.new (
    client_one ← registered_client;
    client_two ← registered_client;
    apply_kv (test_put client_one 1 false) ≫= unwrap_ok ;;
    apply_kv (test_put client_one 2 true) ≫= unwrap_err ;;
    apply_kv (Delete client_two 1 (literal "test") (literal "key") []) ≫= unwrap_ok ;;
    apply_kv (test_put client_one 2 true) ≫= unwrap_err ;;
    st ← state;
    assert (negb (is_some (entries st !! name_of "test" "key")))).

Definition invariant_oversized_values_never_enter_the_state_machine : bool :=
  passes Kv.new (
    client_id ← registered_client;
    let body := repeat Byte.x00 (S (N.to_nat MAX_VALUE_BYTES)) in
    apply_kv (Put client_id 1 (literal "test") (literal "key") body [] false) ≫= unwrap_err ;;
    st ← state;
    assert (bool_decide (dom (entries st) = ∅))).

(** ** [tests.rs]: a single node

    The commands of the log are encoded injectively, one byte per bit of the number that
    enumerates the command; any codec with [CommandCodecLaws] gives the same answers. *)

#[global] Instance KvCommand_eq_dec : EqDecision KvCommand.
Proof. solve_decision. Defined.

#[global] Instance KvCommand_countable : Countable KvCommand.
Proof.
  apply (inj_countable'
    (fun c => match c with
              | RegisterSession => inl false
              | ReadBarrier => inl true
              | Put c s n k b m x => inr (inl (c, s, n, k, b, m, x))
              | Delete c s n k m => inr (inr (c, s, n, k, m))
              end)
    (fun x => match x with
              | inl false => RegisterSession
              | inl true => ReadBarrier
              | inr (inl (c, s, n, k, b, m, x)) => Put c s n k b m x
              | inr (inr (c, s, n, k, m)) => Delete c s n k m
              end)).
  by intros [].
Defined.

Fixpoint bits_of (p : positive) : bytes :=
  match p with
  | xH => []
  | xO p => Byte.x00 :: bits_of p
  | xI p => Byte.x01 :: bits_of p
  end.
Fixpoint of_bits (bs : bytes) : option positive :=
  match bs with
  | [] => Some xH
  | Byte.x00 :: bs => xO <$> of_bits bs
  | Byte.x01 :: bs => xI <$> of_bits bs
  | _ => None
  end.

Definition bit_codec : CommandCodec := {|
  command_to_vec c := Some (bits_of (encode c));
  command_from_slice bs := of_bits bs ≫= decode;
  display_runtime_error _ := "failed"
|}.

Lemma of_bits_of p : of_bits (bits_of p) = Some p.
Proof. induction p; simpl; by rewrite ?IHp. Qed.

Instance bit_codec_laws : CommandCodecLaws bit_codec.
Proof. intros c bs [= <-]. simpl. rewrite of_bits_of. apply decode_encode. Qed.

Section SingleNode.

#[local] Existing Instance bit_codec.

#[local] Abbreviation Runtime := (RaftRuntime KvState).

(** [RaftRuntime::open] on a fresh store, or on the store an earlier runtime left. *)
Definition opened (recovered : Persistent) : Runtime :=
  match Runtime.open test_node_config Kv.new recovered with
  | Ok rt => rt
  | Err _ => mkRaftRuntime test_node_config (restore (raft_config 0) recovered) recovered Kv.new ∅ 1 true []
  end.
Definition fresh_service : Service :=
  mkService (opened (initial_persistent test_node_config)) ∅.

(** One operation of the node, with what it tells clients. *)
Definition service_step (op : ServiceOp) : Test Service (list Told) :=
  s ← state;
  '(s, told) ← unwrap (service_op s op);
  put s ;; mret told.

(** The end of the wait of a proposal. *)
Definition wait_end (id : N) (t : Told) : option WaitEnd :=
  match t with
  | WaitEnded id' w => if id' =? id then Some w else None
  | CallFailed _ _ => None
  end.

(** [wait_for_leader] and [wait_for_runtime_leader]: the driver task ticks meanwhile. *)
Definition wait_for_leader : Test Service unit :=
  while (fun s => negb (bool_decide (mode (sv_runtime s) = "leader"%string)))
    (ignore (service_step (OpTick true))).

(** A call and its reply: the error of the checks, the error of the proposal, or what the
    handler makes of the answer. *)
Definition post (req : Request) : Test Service (result Reply ConnectError) :=
  s ← state;
  let id := rt_next_proposal_id (sv_runtime s) in
  told ← service_step (OpCall req true);
  match call_command req with
  | Err e => mret (Err e)
  | Ok _ =>
      w ← unwrap (head (omap (wait_end id) told));
      s ← state;
      unwrap (respond (rt_state (sv_runtime s)) req (wait_result w))
  end.

(** The HTTP status of a reply in the Connect protocol. *)
Definition http_status (r : result Reply ConnectError) : N :=
  match r with
  | Ok _ => 200
  | Err (invalid_argument _) | Err (failed_precondition _) => 400
  | Err (not_found _) => 404
  | Err (aborted _) => 409
  | Err (resource_exhausted _) => 429
  | Err (internal _) => 500
  | Err (unavailable _) => 503
  end.
Definition posts (req : Request) (status : N) : Test Service unit :=
  r ← post req; assert (http_status r =? status).

Definition jepsen_put (sequence : N) (body : string) (if_match : bytes) (if_none_match : bool) : Request :=
  PutCall 1 sequence (literal "jepsen") (literal "register") (literal body) if_match if_none_match.
(** The etag of the first generation, with its quotes. *)
Definition etag_1 : bytes := Byte.x22 :: literal "c9-1" ++ [Byte.x22].
Definition etag_2 : bytes := Byte.x22 :: literal "c9-2" ++ [Byte.x22].

Definition invariant_mutation_sequence_identifies_exact_request : bool :=
  passes fresh_service (
    wait_for_leader ;;
    r ← post RegisterSessionRequest ≫= unwrap_ok;
    assert (match r with SessionReply id => id =? 1 | _ => false end) ;;
    posts (jepsen_put 1 "1" [] true) 200 ;;
    posts (jepsen_put 1 "1" [] true) 200 ;;
    posts (jepsen_put 1 "2" [] true) 409 ;;
    posts (jepsen_put 2 "2" [] true) 400 ;;
    posts (jepsen_put 3 "2" etag_1 false) 200 ;;
    r ← post (GetCall (literal "jepsen") (literal "register")) ≫= unwrap_ok;
    assert (match r with GetReply g => bool_decide (g_body g = literal "2") | _ => false end) ;;
    r ← post (ListNamespacesCall [] 1) ≫= unwrap_ok;
    assert (match r with
            | NamespacesReply (ns :: _) _ =>
                bool_decide (ns_name ns = literal "jepsen") && (key_count ns =? 1)
            | _ => false end) ;;
    r ← post (ListCall (literal "jepsen") (literal "reg") [] 0) ≫= unwrap_ok;
    assert (match r with
            | ListReply (e :: _) _ => bool_decide (h_key e = literal "register")
            | _ => false end) ;;
    posts (ListCall (literal "jepsen") [] [] 101) 400 ;;
    posts (jepsen_put 4 "3" etag_1 false) 400).

Definition invariant_restart_recovers_committed_state : bool :=
  let test_write sequence body if_match :=
    PutCall 1 sequence (literal "test") (literal "key") (literal body) if_match false in
  passes fresh_service (
    wait_for_leader ;;
    r ← post RegisterSessionRequest ≫= unwrap_ok;
    assert (match r with SessionReply id => id =? 1 | _ => false end) ;;
    post (test_write 1 "value" []) ≫= unwrap_ok ;;
    post (test_write 2 "replacement" etag_1) ≫= unwrap_ok ;;
    modify (fun s => mkService (opened (rt_durable (sv_runtime s))) ∅) ;;
    wait_for_leader ;;
    r ← post (GetCall (literal "test") (literal "key")) ≫= unwrap_ok;
    assert (match r with
            | GetReply g => bool_decide (g_body g = literal "replacement")
                            && bool_decide (g_etag g = etag_2)
            | _ => false end)).

(** ** [tests.rs]: three nodes

    A round ticks every live node and then delivers, in the order of sending, every
    message addressed to a live node. *)

Definition peer_table : gmap N N := {[0 := 20; 1 := 21; 2 := 22]}.
Definition member_config (id : N) : NodeConfig :=
  mkNodeConfig id 0 (20 + id) peer_table (nc_raft_key test_node_config)
    (nc_storage test_node_config) (raft_config id).
Definition three_configs : gmap N NodeConfig :=
  list_to_map ((fun id => (id, member_config id)) <$> [0; 1; 2]).

Record Trio : Type := mkTrio {
  cluster : Cluster KvState;
  read_upto : nat;
  live : list N
}.

Definition act (a : Action) : Test Trio unit := fun s =>
  c ← exec apply_command Kv.new (cluster s) a;
  Some (tt, mkTrio c (read_upto s) (live s)).

(** Deliver the next message of the network, or lose it with its node. *)
Definition deliver_next : Test Trio unit :=
  s ← state;
  m ← unwrap (network (cluster s) !! read_upto s);
  (if existsb (N.eqb (msg_to m)) (live s) then act (ADeliver (msg_to m) (read_upto s) true)
   else mret tt) ;;
  modify (fun s => mkTrio (cluster s) (S (read_upto s)) (live s)).
Definition deliver_all : Test Trio unit :=
  while (fun s => (read_upto s <? length (network (cluster s)))%nat) deliver_next.
Definition round : Test Trio unit :=
  s ← state;
  for_each (live s) (fun i => act (ATick i true)) ;;
  deliver_all.

Definition leaders_of (s : Trio) : list N :=
  List.filter (fun i => match nodes (cluster s) !! i with
                        | Some rt => is_leader (rt_node rt)
                        | None => false
                        end) (live s).
Definition wait_for_cluster_leader : Test Trio N :=
  while (fun s => negb (length (leaders_of s) =? 1)%nat) round ;;
  s ← state; unwrap (head (leaders_of s)).

Definition propose_on (i : N) (cmd : KvCommand) : Test Trio unit :=
  bs ← unwrap (command_to_vec cmd); act (APropose i bs true) ;; deliver_all.

Definition record_on (i : N) : Test Trio (option KvRecord) :=
  gets (fun s => rt ← nodes (cluster s) !! i; entries (rt_state rt) !! name_of "test" "key").
(** [wait_for_replicated_key] *)
Definition wait_for_replicated_key : Test Trio unit :=
  while (fun s => negb (forallb (fun i => match nodes (cluster s) !! i with
                          | Some rt => is_some (entries (rt_state rt) !! name_of "test" "key")
                          | None => false end) (live s))) round.
(** [read_barrier] on node [i]: the barrier is the last command it applied. *)
Definition read_barrier_on (i : N) : Test Trio unit :=
  propose_on i ReadBarrier ;;
  s ← state;
  rt ← unwrap (nodes (cluster s) !! i);
  assert (size (rt_waiters rt) =? 0)%nat.

Definition invariant_three_nodes_replicate_and_fail_over : bool :=
  passes (mkTrio (initial Kv.new three_configs) 0 [0; 1; 2]) (
    leader ← wait_for_cluster_leader;
    propose_on leader RegisterSession ;;
    propose_on leader (test_put 1 1 false) ;;
    wait_for_replicated_key ;;
    modify (fun s => mkTrio (cluster s) (read_upto s)
                       (List.filter (fun i => negb (i =? leader)) (live s))) ;;
    replacement ← wait_for_cluster_leader;
    assert (negb (replacement =? leader)) ;;
    read_barrier_on replacement ;;
    r ← record_on replacement;
    record ← unwrap r;
    assert (bool_decide (body record = literal "value")) ;;
    assert (bool_decide (etag record = etag_1)) ;;
    assert (generation record =? 1)).

End SingleNode.

(** ** [main.rs]

    The example file as the TOML parser reads it, with the damage each test does to it. *)

Definition config_refused_with (r : result NodeConfig ConfigError) (p : ConfigError -> bool) : bool :=
  match r with Ok _ => false | Err e => p e end.

Definition invariant_startup_requires_a_configuration_file : bool :=
  match load_node_config loopback (fun _ => None) (fun _ => None) (literal "missing.toml") with
  | Err ReadingFailed => true
  | _ => false
  end.

Definition main_example_configuration_is_valid : bool :=
  match parse_example example_key [example_peer 0 19091] with
  | Ok config => (nc_node_id config =? 0) && (size (nc_peers config) =? 1)%nat
  | Err _ => false
  end.

Definition invariant_peer_ids_are_unique : bool :=
  config_refused_with (parse_example example_key [example_peer 0 19091; example_peer 0 19092])
    (fun e => match e with DuplicateNodeId id => id =? 0 | _ => false end).

Definition invariant_peer_addresses_are_unique : bool :=
  config_refused_with (parse_example example_key [example_peer 0 19091; example_peer 1 19091])
    (fun e => match e with DuplicateAddress a => a =? 19091 | _ => false end).

Definition invariant_raft_key_is_256_bits : bool :=
  config_refused_with (parse_example (literal "short") [example_peer 0 19091])
    (fun e => match e with InvalidKey => true | _ => false end).

Definition process_tests : list bool :=
  [malformed_keys_and_signatures_are_rejected;
   invariant_log_overwrite_cannot_complete_a_different_proposal;
   invariant_runtime_identity_is_unambiguous; invariant_committed_failure_is_idempotent;
   invariant_oversized_values_never_enter_the_state_machine;
   invariant_mutation_sequence_identifies_exact_request;
   invariant_restart_recovers_committed_state; invariant_three_nodes_replicate_and_fail_over;
   invariant_startup_requires_a_configuration_file; main_example_configuration_is_valid;
   invariant_peer_ids_are_unique; invariant_peer_addresses_are_unique;
   invariant_raft_key_is_256_bits].

Definition node_tests : list bool :=
  session_tests ++ read_index_tests ++ browse_tests ++ process_tests.

(** The models of the node pass its tests: sessions, the read coordinator, listings, keys,
    configurations, the state machine, and end to end a single node that serves, retries,
    refuses and restarts, and three nodes that replicate a write and keep it when the
    leader dies. *)
Lemma node_tests_pass : Forall (fun t => t = true) node_tests.
Proof. vm_compute. repeat constructor. Qed.
